(* ===== verification/_CoqProject ===== *)
-Q . S2P
Prelude.v
Errors.v
Eraftpb.v
ProtoConf.v
ConfChangeText.v
Datadriven.v
Util.v
Unstable.v
Storage.v
RaftLog.v
RaftLogSpec.v
Quorum.v
Inflights.v
Progress.v
Tracker.v
ConfChange.v
ConfChangeSteps.v
ReadOnly.v
Config.v
Witness.v
WitnessHost.v
Raft.v
RawNode.v
RaftFrame.v
RaftElection.v
Cluster.v
RaftPromotion.v
RaftReplication.v
RaftLogSteps.v
RaftCommit.v
ClusterLog.v
RaftVoices.v
RaftStore.v
RaftSpeech.v
RaftTurns.v
RaftHostTurns.v
Agreement.v
AgreementMoves.v
FullLog.v
ClusterAgreement.v
ClusterRefinement.v
ClusterSafety.v
RawNodeSpec.v
NodeRuns.v
RawNodeReady.v
MemPersist.v
Harness.v
HarnessSafety.v
WitnessDemo.v
SingleMemNode.v
RaftTermination.v
RaftFindings.v
