(* ===== verification/Prelude.v ===== *)
(** * raft-rs with witnesses: a verified model of the consensus core

    The program is a library that replicates a log over a group of nodes with
    the Raft protocol, and its extension by witnesses: members that vote and
    acknowledge entries but keep no log.  The host program owns the network, the
    clock and the disk; the library is a state machine that the host drives.

    ** The parts and where they are modelled

    - [Errors], [Eraftpb], [ProtoConf]: the error values (src/src/errors.rs), the
      messages of src/proto/proto/eraftpb.proto as records with the proto's
      fields and default values, and the helpers on configuration changes
      (src/proto/src/confchange.rs, confstate.rs).  The generated encoder and
      decoder are the class [Proto].  [ConfChangeText]: the textual form of
      changes (parse_conf_change, stringify_conf_change).
    - [Util]: util.rs, with the size limit on batches of entries.
    - [Unstable], [Storage], [RaftLog]: the log in three layers.  [Unstable] is
      log_unstable.rs; [Storage] has the [Storage] trait of storage.rs as a class
      with its documented laws ([StorageLaws]), and [MemStorage], which is shown
      to satisfy them; [RaftLog] is raft_log.rs over any storage.
    - [Quorum]: majority and joint quorums (quorum.rs, quorum/majority.rs,
      quorum/joint.rs).
    - [Inflights], [Progress], [Tracker]: what a leader knows of its peers
      (tracker.rs, tracker/inflights.rs, tracker/progress.rs, tracker/state.rs),
      and the replication sets of the witness extension.
    - [ConfChange]: changes of the membership (confchange.rs,
      confchange/changer.rs, confchange/restore.rs).
    - [ReadOnly], [Config]: pending linearizable reads, options of a node.
    - [Witness], [WitnessHost]: a witness (witness.rs), its storage trait as a
      class with the law of its conditional write, and the hosts that drive it.
    - [Raft]: a node (raft.rs): elections, replication, commit, reads, snapshots,
      leadership transfer, membership changes and the messages to witnesses.
    - [RawNode]: the interface to the host (raw_node.rs, status.rs).
    - [Harness]: the hosts of the tests, peers over in-memory storages on a
      simulated network (src/harness/src/interface.rs, network.rs).  Random draws
      are the class [RandomF64], and numbers of type f64 are [spec_float].
    - [WitnessDemo]: the host of the demonstration of witnesses and its scenario
      (src/examples/witness_demo/main.rs).  [SingleMemNode]: the host of the
      example with one node (src/examples/single_mem_node/main.rs).
    - [Datadriven]: the library that runs test files (src/datadriven/src): the
      directive lines and their arguments, the reader, and runs in test and
      rewrite mode.

    Each component is a Module named after its Rust type with the state as a
    Record [t]; an operation has the name of the Rust function, takes the state
    and returns the state it leaves, in the monad [outcome] where the code can
    panic and with a [Result] where it can fail.  A Rust map is a [gmap], a set a
    [gset], a vector a list; [HashOrder] is the order in which a hash map or set
    is iterated, any permutation, and [Rand] the random choice of an election
    timeout.  Numbers are [N]; additions and subtractions wrap at 64 bits ([+w],
    [-w]) as in a release build.  The client of an interface is proved against
    the interface: everything about logs and nodes holds for every storage with
    [StorageLaws], and [mem_storage_laws] discharges it for [MemStorage].

    ** What is proved

    - Quorums and trackers ([Quorum], [Tracker], [Progress], [Inflights],
      [ReadOnly], [Witness], [Config], [Storage], [ProtoConf]): what each
      computes, on every branch; quorums overlap; the ring buffer of in-flight
      messages refines a bounded queue.
    - Membership ([ConfChangeSteps]): accepted changes keep the configuration
      invariant, consecutive configurations share a voter in any two quorums, and
      a configuration is restored from its [ConfState].
    - The log ([RaftLogSpec]): a log in storage and memory stands for one sequence
      of entries, its view; every operation on it refines a function on the view.
    - The node.  [RaftFrame] has relations between the states before and after
      an operation that are closed under composition ([quiet], [calm],
      [advances]) and tactics that follow the control flow.  On these rest
      [RaftElection] (votes granted and counted in one step), [RaftPromotion]
      (how a node comes to lead), [RaftReplication] (the leader appends only, and
      commits only entries of its term that it has recorded a quorum to have), [RaftLogSteps] (what a
      whole step does to the log), [NodeRuns] (over messages, storage writes,
      compaction and restarts, what is committed stays), [RaftCommit] (why a
      commit index moves), [RaftStore] (a node only reads its storage) and
      [RaftTermination] (the sending loop ends).
    - What a node says.  [RaftVoices] has the messages of a leader, backed by its
      log, its commit index and what it knows of its peers; [RaftSpeech] the
      requests, votes and acknowledgements of the others; [RaftTurns] and
      [RaftHostTurns] sum up one message, tick or request of the host as a
      [turn].
    - The host interface: [RawNodeSpec] (the host is handed the committed log,
      exactly once and in order), [RawNodeReady] (the content of a [Ready]) and
      [MemPersist] (a host that writes what a node hands out to [MemStorage] has
      its log there).  [WitnessHost]: a witness whose host saves before it
      answers votes once in a term, across crashes.
    - The hosts.  [Harness] (the rounds of [send] are one first-in first-out
      queue) and [HarnessSafety] (persisting stores the whole log, or panics on an old snapshot; a run of the
      harness is a run of a cluster of [ClusterSafety], so that its peers agree
      on what is committed).  [WitnessDemo] (a turn of the demonstration host
      gets the committed log in order and once; the scenario runs to its end).
      [SingleMemNode] (a client is told of its proposal once it is committed).
    - Test files ([Datadriven]): directive lines round trip, and a file that was
      rewritten passes.
    - The cluster, over a network that loses, repeats, delays and reorders
      messages, with restarts and witnesses: [Cluster] (one leader per term) and
      [ClusterLog] (log matching).  Both are invariants of a step relation, with
      the votes cast and the entries created as ghost state.
    - What a cluster agrees on.  [Agreement] is the protocol without messages,
      indexes or storage: terms, logs, votes, acknowledgements and what is
      stored, with the invariant that an entry a quorum has acknowledged is in
      the log of every later leader.  [AgreementMoves] has its steps member by
      member and [FullLog] the logs behind compacted views.  [ClusterAgreement]
      has the steps of a cluster whose hosts store before they acknowledge and
      what its messages mean in the protocol, [ClusterRefinement] the simulation
      of a node's turn by steps of the protocol, and [ClusterSafety] the results:
      refinement, leader completeness and state machine safety.
    - [RaftFindings]: runs that show where the code departs from its comments,
      and how a batched append is acknowledged beyond the follower's log.

    The witnesses at the end of the files run the definitions on concrete nodes
    and show that the hypotheses of the theorems can be met.

    ** Hypotheses and bounds

    Terms and indexes that are incremented are assumed to be below the 64-bit
    limit ([input_ok], [room]); without it an index or a term wraps, as in the
    code.  A message that only a leader sends carries its term, and a request for
    a vote its sender ([input_ok]).  The cluster theorems are for one voter
    configuration; in them a node restarts from the term and vote it holds,
    which is what persisting before sending gives.  The host of the witness
    in [Cluster] turns the answers to vote requests into messages, and no
    others.  [ClusterLog] is for nodes that do not batch appends
    ([batch_append]): with batching, log matching's premise that appends are
    parts of the leader's log fails ([RaftFindings]).
    [ClusterSafety] starts from empty logs and is for nodes without witnesses
    whose hosts write a part of the current log that keeps what is stored of it,
    persist the term and the vote before they send, and send an acknowledgement
    only when the entries are stored.  It leaves out runs with snapshots, with
    read requests answered through a follower, and with a pre-vote request of a
    node of a later term that carries a commit index: a node takes that index
    over without taking over the term, which the protocol does not allow.

    Loops are structural where the code iterates over a collection.  Fuel is used
    for the backwards probe [find_conflict_loop] (as many rounds as the index is
    large), the page loop [scan_loop], the sending loop [send_append_loop] (one
    round per entry and two more, shown to be enough in [RaftTermination]), and
    for [poll], which calls [campaign], which calls [poll] once more at most.
    [Network.send] is bounded by a number of rounds: the code goes on until no
    message is left, and [send_is_fifo] is about the runs that come to that.
    The rounds of the loops of [Datadriven] are bounded by the characters of a
    line and the lines of a file, which is enough ([parse_line_total],
    [run_test_ends]).

    ** Not modelled

    Logging and what programs print, the texts of errors, the Display and
    describe helpers, the capacity of buffers, the locks of [MemStorage] and the
    generated protobuf code.  The example five_mem_node is about threads with
    mailboxes and a shared queue of proposals, and the benchmarks only measure.
    The runs of [ClusterSafety] have no snapshots and no witnesses (see above). *)

From Stdlib Require Import NArith ZArith Lia.
From stdpp Require Export base numbers list gmap fin_sets sorting strings.

#[global] Set Default Proof Using "Type".

Declare Scope raft_scope.
Delimit Scope raft_scope with raft.
#[global] Open Scope N_scope.
#[global] Open Scope raft_scope.

(** ** Record update

    [r <| f := v |>] is the record [r] with field [f] replaced, [r <| f ::= g |>]
    the one with [g] applied to the field: Rust's [r.f = v].  A record type
    declares its eta-expansion once ([Eta]); the setter of a field is computed
    from it by abstracting the field's projection. *)
Class Eta (R : Type) := eta_expand : R → R.
Class Upd {R T : Type} (p : R → T) := upd : (T → T) → R → R.
Arguments upd {R T} p {_} _ _.

Ltac solve_upd :=
  lazymatch goal with
  | |- @Upd ?R ?T ?p =>
    let i := constr:(_ : Eta R) in
    let e := eval hnf in i in
    exact (fun (f : T → T) (r : R) =>
      ltac:(let b := eval cbv beta in (e r) in
            let g := eval pattern (p r) in b in
            lazymatch g with
            | ?h _ => let t := eval cbv beta in (h (f (p r))) in exact t
            end))
  end.
#[export] Hint Extern 0 (Upd _) => solve_upd : typeclass_instances.

Notation "r <| f ::= g |>" := (upd f g r)
  (at level 1, f constr at level 0, left associativity,
   format "r  <| f  ::=  g |>") : raft_scope.
Notation "r <| f := v |>" := (upd f (λ _, v) r)
  (at level 1, f constr at level 0, left associativity,
   format "r  <| f  :=  v |>") : raft_scope.

(** ** Panics

    [outcome A] is the result of code that may panic: [fatal!], a failed
    [assert!], an index out of range, [unwrap] of [None]. *)
Inductive outcome (A : Type) : Type :=
| Done (a : A)
| Panicked.
Arguments Done {A} _.
Arguments Panicked {A}.

#[export] Instance outcome_ret : MRet outcome := @Done.
#[export] Instance outcome_bind : MBind outcome := λ A B k m,
  match m with Done a => k a | Panicked => Panicked end.
#[export] Instance outcome_fmap : FMap outcome := λ A B f m,
  match m with Done a => Done (f a) | Panicked => Panicked end.
#[export] Instance outcome_eq_dec `{EqDecision A} : EqDecision (outcome A).
Proof. solve_decision. Defined.

Lemma outcome_bind_Done {A B} (m : outcome A) (k : A → outcome B) b :
  (m ≫= k) = Done b ↔ ∃ a, m = Done a ∧ k a = Done b.
Proof. destruct m; naive_solver. Qed.

(** Rust's [assert!]. *)
Definition rassert (b : bool) : outcome unit :=
  if b then Done tt else Panicked.

(** [Option::unwrap]. *)
Definition unwrap {A} (o : option A) : outcome A :=
  match o with Some a => Done a | None => Panicked end.

Lemma rassert_Done b u : rassert b = Done u ↔ b = true.
Proof. destruct b, u; naive_solver. Qed.

Lemma unwrap_Done {A} (o : option A) a : unwrap o = Done a ↔ o = Some a.
Proof. destruct o; naive_solver. Qed.

(** Simplification of hypotheses about code that did not panic. *)
Ltac simplify_outcome :=
  repeat first
    [ progress simplify_eq/=
    | match goal with
      | H : (_ ≫= _) = Done _ |- _ =>
        apply outcome_bind_Done in H; destruct H as (? & ? & ?)
      | H : mret _ = Done _ |- _ => unfold mret, outcome_ret in H
      | H : rassert _ = Done _ |- _ => apply rassert_Done in H
      | H : unwrap _ = Done _ |- _ => apply unwrap_Done in H
      end ].

(** ** Machine integers

    [u64] and [usize] (64-bit targets) are [N]; addition and subtraction wrap
    as they do in a release build (the manifest sets no [overflow-checks]). *)
Definition u64_modulus : N := 18446744073709551616.
Definition u64_max : N := 18446744073709551615.
Definition u64_add (a b : N) : N := (a + b) mod u64_modulus.
Definition u64_sub (a b : N) : N := (a + u64_modulus - b) mod u64_modulus.
Infix "+w" := u64_add (at level 50, left associativity) : raft_scope.
Infix "-w" := u64_sub (at level 50, left associativity) : raft_scope.

Lemma u64_add_small a b : a + b < u64_modulus → a +w b = a + b.
Proof. intros. unfold u64_add. by apply N.mod_small. Qed.

Lemma u64_sub_small a b : b ≤ a → a < u64_modulus → a -w b = a - b.
Proof.
  intros. unfold u64_sub.
  replace (a + u64_modulus - b) with (a - b + 1 * u64_modulus) by lia.
  rewrite N.Div0.mod_add. apply N.mod_small. lia.
Qed.

Lemma u64_add_lt a b : a +w b < u64_modulus.
Proof. apply N.mod_lt. done. Qed.

Lemma u64_add_le a b : a +w b ≤ a + b.
Proof. apply N.Div0.mod_le. Qed.

Lemma u64_sub_lt a b : a -w b < u64_modulus.
Proof. apply N.mod_lt. done. Qed.

Lemma u64_add_0_r a : a < u64_modulus → a +w 0 = a.
Proof. intros. rewrite u64_add_small; lia. Qed.

Lemma u64_add_0_l a : a < u64_modulus → 0 +w a = a.
Proof. intros. rewrite u64_add_small; lia. Qed.

Lemma u64_add_assoc a b c : a +w (b +w c) = a +w b +w c.
Proof.
  unfold u64_add. rewrite N.Div0.add_mod_idemp_r, N.Div0.add_mod_idemp_l. f_equal. lia.
Qed.

Lemma u64_add_comm a b : a +w b = b +w a.
Proof. unfold u64_add. f_equal. lia. Qed.

Lemma u64_add_sub a b : a < u64_modulus → b < u64_modulus → a +w b -w b = a.
Proof.
  intros. unfold u64_add, u64_sub.
  replace ((a + b) mod u64_modulus + u64_modulus - b)
    with ((a + b) mod u64_modulus + (u64_modulus - b)) by (generalize ((a + b) mod u64_modulus); lia).
  rewrite N.Div0.add_mod_idemp_l. replace (a + b + (u64_modulus - b)) with (a + 1 * u64_modulus) by lia.
  rewrite N.Div0.mod_add. by apply N.mod_small.
Qed.

#[global] Opaque u64_add u64_sub.

(** [u64_solve] rewrites wrapping operations whose bounds [lia] can show. *)
Ltac u64_norm :=
  repeat match goal with
  | |- context [?a +w ?b] => rewrite (u64_add_small a b) by (unfold u64_modulus, u64_max in *; lia)
  | |- context [?a -w ?b] => rewrite (u64_sub_small a b) by (unfold u64_modulus, u64_max in *; lia)
  | H : context [?a +w ?b] |- _ => rewrite (u64_add_small a b) in H by (unfold u64_modulus, u64_max in *; lia)
  | H : context [?a -w ?b] |- _ => rewrite (u64_sub_small a b) in H by (unfold u64_modulus, u64_max in *; lia)
  end.
Ltac u64_solve := u64_norm; unfold u64_modulus, u64_max in *; lia.

(** ** Vectors and slices *)

(** [Vec::len]. *)
Definition len {A} (l : list A) : N := N.of_nat (length l).

(** [v[i]]: panics out of range. *)
Definition vget {A} (l : list A) (i : N) : outcome A := unwrap (l !! N.to_nat i).

(** [v[lo..hi]]: panics unless [lo <= hi <= v.len()]. *)
Definition vslice {A} (l : list A) (lo hi : N) : outcome (list A) :=
  if (lo <=? hi) && (hi <=? len l)
  then Done (take (N.to_nat (hi - lo)) (drop (N.to_nat lo) l))
  else Panicked.

Lemma len_app {A} (l k : list A) : len (l ++ k) = len l + len k.
Proof. unfold len. rewrite length_app. lia. Qed.

Lemma len_nil {A} : len (@nil A) = 0.
Proof. done. Qed.

Lemma len_cons {A} (x : A) l : len (x :: l) = len l + 1.
Proof. unfold len. simpl. lia. Qed.

Lemma vget_Done {A} (l : list A) i a : vget l i = Done a ↔ l !! N.to_nat i = Some a.
Proof. apply unwrap_Done. Qed.

Lemma vget_lt {A} (l : list A) i : i < len l → ∃ a, vget l i = Done a.
Proof.
  intros H. unfold vget. destruct (lookup_lt_is_Some_2 l (N.to_nat i)) as [a ->]; [|by exists a].
  unfold len in H. lia.
Qed.

(** ** Hash containers

    [HashSet<u64>] is [gset N], [HashMap<u64, V>] is [gmap N V].  The order in
    which Rust iterates over them is unspecified: it is the parameter
    [set_iter], any enumeration of the elements. *)
Class HashOrder := {
  set_iter : gset N → list N;
  set_iter_perm s : set_iter s ≡ₚ elements s
}.

(** Iteration of a map visits its keys in the order of the key set. *)
Definition map_iter `{HashOrder} {A} (m : gmap N A) : list (N * A) :=
  omap (λ k, pair k <$> m !! k) (set_iter (dom m)).

(** The instance that enumerates as stdpp does, for running the model. *)
Definition elements_order : HashOrder :=
  {| set_iter := elements; set_iter_perm s := reflexivity _ |}.

Section hash_order.
Context `{HashOrder}.

Lemma elem_of_set_iter s x : x ∈ set_iter s ↔ x ∈ s.
Proof. by rewrite set_iter_perm, elem_of_elements. Qed.

Lemma NoDup_set_iter s : NoDup (set_iter s).
Proof. rewrite set_iter_perm. apply NoDup_elements. Qed.

Lemma length_set_iter s : length (set_iter s) = size s.
Proof. by rewrite set_iter_perm. Qed.

Lemma set_iter_empty : set_iter ∅ = [].
Proof. apply Permutation_nil. by rewrite set_iter_perm, elements_empty. Qed.

Lemma list_to_set_set_iter s : list_to_set (set_iter s) =@{gset N} s.
Proof. apply set_eq. intros x. by rewrite elem_of_list_to_set, elem_of_set_iter. Qed.

Lemma elem_of_map_iter {A} (m : gmap N A) k x : (k, x) ∈ map_iter m ↔ m !! k = Some x.
Proof.
  unfold map_iter. rewrite list_elem_of_omap. split.
  - intros (k' & Hk & Hx). destruct (m !! k') eqn:E; naive_solver.
  - intros Hm. exists k. rewrite elem_of_set_iter, elem_of_dom, Hm. naive_solver.
Qed.

Lemma map_iter_fst {A} (m : gmap N A) : (map_iter m).*1 = set_iter (dom m).
Proof.
  unfold map_iter.
  assert (∀ l, (∀ k, k ∈ l → k ∈ dom m) →
      (omap (λ k, pair k <$> m !! k) l).*1 = l) as Hl; [|apply Hl; intros k; apply elem_of_set_iter].
  induction l as [|k l IH]; intros Hin; [done|]. simpl.
  destruct (m !! k) eqn:E; simpl.
  - f_equal. apply IH. set_solver.
  - exfalso. apply (not_elem_of_dom m k) in E. set_solver.
Qed.
End hash_order.
