(* ===== verification/Errors.v ===== *)
(** * Errors (src/src/errors.rs)

    The error values of the crate and the [Result] type of fallible code. *)
From S2P Require Import Prelude.

(** Rust's [Result<A, E>], a monad in [A]. *)
Inductive res (E A : Type) : Type :=
| Ok (a : A)
| Err (e : E).
Arguments Ok {E A} _.
Arguments Err {E A} _.

#[export] Instance res_ret E : MRet (res E) := @Ok E.
#[export] Instance res_bind E : MBind (res E) := λ A B k m,
  match m with Ok a => k a | Err e => Err e end.
#[export] Instance res_fmap E : FMap (res E) := λ A B f m,
  match m with Ok a => Ok (f a) | Err e => Err e end.
#[export] Instance res_eq_dec `{EqDecision E, EqDecision A} : EqDecision (res E A).
Proof. solve_decision. Defined.

Lemma res_bind_Ok {E A B} (m : res E A) (k : A → res E B) b :
  (m ≫= k) = Ok b ↔ ∃ a, m = Ok a ∧ k a = Ok b.
Proof. destruct m; naive_solver. Qed.

(** [Result::is_ok_and]. *)
Definition is_ok_and {E A} (m : res E A) (p : A → bool) : bool :=
  match m with Ok a => p a | Err _ => false end.

(** [Result::unwrap]. *)
Definition unwrap_res {E A} (m : res E A) : outcome A :=
  match m with Ok a => Done a | Err _ => Panicked end.

(** [Result::unwrap_or]. *)
Definition unwrap_or {E A} (m : res E A) (d : A) : A :=
  match m with Ok a => a | Err _ => d end.

(** [StorageError]. *)
Inductive StorageError : Type :=
| Compacted
| Unavailable
| LogTemporarilyUnavailable
| SnapshotOutOfDate
| SnapshotTemporarilyUnavailable
| StorageOther (e : string).

(** [Error]; the payloads of third-party errors ([Io], [CodecError]) are
    represented by their text. *)
Inductive Error : Type :=
| Io (e : string)
| Store (e : StorageError)
| StepLocalMsg
| StepPeerNotFound
| ProposalDropped
| ConfigInvalid (e : string)
| CodecError (e : string)
| Exists_ (id : N) (set : string)
| NotExists (id : N) (set : string)
| ConfChangeError (e : string)
| RequestSnapshotDropped.

#[export] Instance StorageError_eq_dec : EqDecision StorageError.
Proof. solve_decision. Defined.
#[export] Instance Error_eq_dec : EqDecision Error.
Proof. solve_decision. Defined.

Abbreviation Result := (res Error).

Ltac simplify_res :=
  repeat first
    [ progress simplify_outcome
    | match goal with
      | H : (_ ≫= _) = Ok _ |- _ => apply res_bind_Ok in H; destruct H as (? & ? & ?)
      | H : mret _ = Ok _ |- _ => unfold mret, res_ret in H
      end ].
