(* ===== verification/Eraftpb.v ===== *)
(** * Protocol messages (src/proto/proto/eraftpb.proto)

    The messages of [eraftpb.proto] as records with the proto's fields, and
    their protobuf default values.  [bytes] is a list of octets. *)
From S2P Require Import Prelude Errors.

Abbreviation bytes := (list N).

Inductive EntryType : Type :=
| EntryNormal
| EntryConfChange
| EntryConfChangeV2.

Inductive MessageType : Type :=
| MsgHup
| MsgBeat
| MsgPropose
| MsgAppend
| MsgAppendResponse
| MsgRequestVote
| MsgRequestVoteResponse
| MsgSnapshot
| MsgHeartbeat
| MsgHeartbeatResponse
| MsgUnreachable
| MsgSnapStatus
| MsgCheckQuorum
| MsgTransferLeader
| MsgTimeoutNow
| MsgReadIndex
| MsgReadIndexResp
| MsgRequestPreVote
| MsgRequestPreVoteResponse.

Inductive ConfChangeTransition : Type :=
| Auto
| Implicit
| Explicit.

Inductive ConfChangeType : Type :=
| AddNode
| RemoveNode
| AddLearnerNode
| AddWitness.

#[export] Instance EntryType_eq_dec : EqDecision EntryType.
Proof. solve_decision. Defined.
#[export] Instance MessageType_eq_dec : EqDecision MessageType.
Proof. solve_decision. Defined.
#[export] Instance ConfChangeTransition_eq_dec : EqDecision ConfChangeTransition.
Proof. solve_decision. Defined.
#[export] Instance ConfChangeType_eq_dec : EqDecision ConfChangeType.
Proof. solve_decision. Defined.

Record Entry : Type := mkEntry {
  e_entry_type : EntryType;
  e_term : N;
  e_index : N;
  e_data : bytes;
  e_context : bytes;
  e_sync_log : bool;
  e_subterm : N
}.
#[export] Instance eta_Entry : Eta Entry := λ e,
  mkEntry (e_entry_type e) (e_term e) (e_index e) (e_data e) (e_context e)
    (e_sync_log e) (e_subterm e).
Definition default_Entry : Entry := mkEntry EntryNormal 0 0 [] [] false 0.

Record ConfState : Type := mkConfState {
  cs_voters : list N;
  cs_learners : list N;
  cs_voters_outgoing : list N;
  cs_learners_next : list N;
  cs_auto_leave : bool;
  cs_witness : N;
  cs_witness_outgoing : N
}.
#[export] Instance eta_ConfState : Eta ConfState := λ c,
  mkConfState (cs_voters c) (cs_learners c) (cs_voters_outgoing c)
    (cs_learners_next c) (cs_auto_leave c) (cs_witness c) (cs_witness_outgoing c).
Definition default_ConfState : ConfState := mkConfState [] [] [] [] false 0 0.

Record SnapshotMetadata : Type := mkSnapshotMetadata {
  sm_conf_state : ConfState;
  sm_index : N;
  sm_term : N
}.
#[export] Instance eta_SnapshotMetadata : Eta SnapshotMetadata := λ s,
  mkSnapshotMetadata (sm_conf_state s) (sm_index s) (sm_term s).
Definition default_SnapshotMetadata : SnapshotMetadata :=
  mkSnapshotMetadata default_ConfState 0 0.

Record Snapshot : Type := mkSnapshot {
  s_data : bytes;
  s_metadata : SnapshotMetadata
}.
#[export] Instance eta_Snapshot : Eta Snapshot := λ s, mkSnapshot (s_data s) (s_metadata s).
Definition default_Snapshot : Snapshot := mkSnapshot [] default_SnapshotMetadata.

Record HardState : Type := mkHardState {
  hs_term : N;
  hs_vote : N;
  hs_commit : N
}.
#[export] Instance eta_HardState : Eta HardState := λ h,
  mkHardState (hs_term h) (hs_vote h) (hs_commit h).
Definition default_HardState : HardState := mkHardState 0 0 0.

Record Message : Type := mkMessage {
  m_msg_type : MessageType;
  m_to : N;
  m_from : N;
  m_term : N;
  m_log_term : N;
  m_index : N;
  m_entries : list Entry;
  m_commit : N;
  m_commit_term : N;
  m_snapshot : Snapshot;
  m_request_snapshot : N;
  m_reject : bool;
  m_reject_hint : N;
  m_context : bytes;
  m_deprecated_priority : N;
  m_priority : Z
}.
#[export] Instance eta_Message : Eta Message := λ m,
  mkMessage (m_msg_type m) (m_to m) (m_from m) (m_term m) (m_log_term m) (m_index m)
    (m_entries m) (m_commit m) (m_commit_term m) (m_snapshot m) (m_request_snapshot m)
    (m_reject m) (m_reject_hint m) (m_context m) (m_deprecated_priority m) (m_priority m).
Definition default_Message : Message :=
  mkMessage MsgHup 0 0 0 0 0 [] 0 0 default_Snapshot 0 false 0 [] 0 0%Z.

Record ConfChange : Type := mkConfChange {
  cc_change_type : ConfChangeType;
  cc_node_id : N;
  cc_context : bytes;
  cc_id : N
}.

Record ConfChangeSingle : Type := mkConfChangeSingle {
  ccs_change_type : ConfChangeType;
  ccs_node_id : N
}.

Record ConfChangeV2 : Type := mkConfChangeV2 {
  ccv_transition : ConfChangeTransition;
  ccv_changes : list ConfChangeSingle;
  ccv_context : bytes
}.
Definition default_ConfChangeV2 : ConfChangeV2 := mkConfChangeV2 Auto [] [].

Record WitnessHardState : Type := mkWitnessHardState {
  whs_state : HardState;
  whs_last_log_index : N;
  whs_last_log_term : N;
  whs_last_log_subterm : N;
  whs_lead : N;
  whs_replication_set : list N;
  whs_replication_set_outgoing : list N;
  whs_committed_log_term : N;
  whs_committed_log_subterm : N
}.

Record WitnessMessage : Type := mkWitnessMessage {
  wm_msg_type : MessageType;
  wm_from : N;
  wm_to : N;
  wm_term : N;
  wm_last_log_term : N;
  wm_last_log_subterm : N;
  wm_last_log_index : N;
  wm_replication_set_incoming : list N;
  wm_replication_set_outgoing : list N;
  wm_vote_ids : list N;
  wm_vote_vals : list bool;
  wm_context : bytes;
  wm_entries : list Entry;
  wm_commit : N;
  wm_commit_term : N;
  wm_commit_subterm : N
}.
#[export] Instance eta_WitnessMessage : Eta WitnessMessage := λ m,
  mkWitnessMessage (wm_msg_type m) (wm_from m) (wm_to m) (wm_term m) (wm_last_log_term m)
    (wm_last_log_subterm m) (wm_last_log_index m) (wm_replication_set_incoming m)
    (wm_replication_set_outgoing m) (wm_vote_ids m) (wm_vote_vals m) (wm_context m)
    (wm_entries m) (wm_commit m) (wm_commit_term m) (wm_commit_subterm m).
Definition default_WitnessMessage : WitnessMessage :=
  mkWitnessMessage MsgHup 0 0 0 0 0 0 [] [] [] [] [] [] 0 0 0.

#[export] Instance Entry_eq_dec : EqDecision Entry.
Proof. solve_decision. Defined.
#[export] Instance ConfState_eq_dec : EqDecision ConfState.
Proof. solve_decision. Defined.
#[export] Instance SnapshotMetadata_eq_dec : EqDecision SnapshotMetadata.
Proof. solve_decision. Defined.
#[export] Instance Snapshot_eq_dec : EqDecision Snapshot.
Proof. solve_decision. Defined.
#[export] Instance HardState_eq_dec : EqDecision HardState.
Proof. solve_decision. Defined.
#[export] Instance Message_eq_dec : EqDecision Message.
Proof. solve_decision. Defined.
#[export] Instance ConfChangeSingle_eq_dec : EqDecision ConfChangeSingle.
Proof. solve_decision. Defined.
#[export] Instance ConfChangeV2_eq_dec : EqDecision ConfChangeV2.
Proof. solve_decision. Defined.
#[export] Instance WitnessMessage_eq_dec : EqDecision WitnessMessage.
Proof. solve_decision. Defined.

(** ** Code generated from the proto

    [compute_size], the decoders ([merge_from_bytes]) and the encoders
    ([write_to_bytes]) of [ConfChange] and [ConfChangeV2] come from the protobuf
    library and from code the build generates: they are parameters of the model. *)
Class Proto := {
  compute_size : Entry → N;
  decode_conf_change : bytes → option ConfChange;
  decode_conf_change_v2 : bytes → option ConfChangeV2;
  encode_conf_change : ConfChange → Result bytes;
  encode_conf_change_v2 : ConfChangeV2 → Result bytes
}.
