(* ===== verification/ProtoConf.v ===== *)
(** * Configuration change messages (src/proto/src/confchange.rs, confstate.rs) *)
From S2P Require Import Prelude Errors Eraftpb.

Definition new_conf_change_single (node_id : N) (ty : ConfChangeType) : ConfChangeSingle :=
  mkConfChangeSingle ty node_id.

Module ProtoConf.

(** [ConfChange::into_v2]; the one of [ConfChangeV2] is the identity. *)
Definition into_v2 (cc : ConfChange) : ConfChangeV2 :=
  mkConfChangeV2 Auto [new_conf_change_single (cc_node_id cc) (cc_change_type cc)] (cc_context cc).

Definition enter_joint (cc : ConfChangeV2) : option bool :=
  if negb (bool_decide (ccv_transition cc = Auto)) || (1 <? len (ccv_changes cc))
  then match ccv_transition cc with
       | Auto | Implicit => Some true
       | Explicit => Some false
       end
  else None.

Definition leave_joint (cc : ConfChangeV2) : bool :=
  bool_decide (ccv_transition cc = Auto) && bool_decide (ccv_changes cc = []).

(** ** Comparing configurations *)

(** [slice::contains]. *)
Definition contains (l : list N) (x : N) : bool := bool_decide (x ∈ l).

Definition eq_without_order (lhs rhs : list N) : bool :=
  forallb (contains rhs) lhs && forallb (contains lhs) rhs.

Definition conf_state_eq (lhs rhs : ConfState) : bool :=
  if bool_decide (cs_voters lhs = cs_voters rhs) && bool_decide (cs_learners lhs = cs_learners rhs)
     && bool_decide (cs_voters_outgoing lhs = cs_voters_outgoing rhs)
     && bool_decide (cs_learners_next lhs = cs_learners_next rhs)
     && bool_decide (cs_auto_leave lhs = cs_auto_leave rhs)
  then true
  else eq_without_order (cs_voters lhs) (cs_voters rhs)
       && eq_without_order (cs_learners lhs) (cs_learners rhs)
       && eq_without_order (cs_voters_outgoing lhs) (cs_voters_outgoing rhs)
       && eq_without_order (cs_learners_next lhs) (cs_learners_next rhs)
       && bool_decide (cs_auto_leave lhs = cs_auto_leave rhs).
End ProtoConf.

Import ProtoConf.

Lemma eq_without_order_spec l r : eq_without_order l r = true ↔ ∀ x, x ∈ l ↔ x ∈ r.
Proof.
  unfold eq_without_order, contains. rewrite andb_true_iff, !forallb_forall.
  setoid_rewrite <-list_elem_of_In. setoid_rewrite bool_decide_eq_true. naive_solver.
Qed.

(** Two configurations compare equal exactly when they have the same
    voters, learners, outgoing voters and staged learners, as sets, and the
    same auto-leave flag; their witnesses are not looked at. *)
Theorem conf_state_eq_spec (l r : ConfState) :
  conf_state_eq l r = true ↔
  (∀ x, x ∈ cs_voters l ↔ x ∈ cs_voters r) ∧ (∀ x, x ∈ cs_learners l ↔ x ∈ cs_learners r) ∧
  (∀ x, x ∈ cs_voters_outgoing l ↔ x ∈ cs_voters_outgoing r) ∧
  (∀ x, x ∈ cs_learners_next l ↔ x ∈ cs_learners_next r) ∧ cs_auto_leave l = cs_auto_leave r.
Proof.
  unfold conf_state_eq. rewrite <-!eq_without_order_spec.
  destruct (_ && _) eqn:E.
  - rewrite !andb_true_iff, !bool_decide_eq_true in E. destruct E as [[[[-> ->] ->] ->] ->].
    split; [|done]. intros _. split_and!; [apply eq_without_order_spec..|]; done.
  - rewrite !andb_true_iff, bool_decide_eq_true. tauto.
Qed.

(** The classification of a change: it leaves a joint configuration exactly
    when it is empty with the automatic transition, never both leaves and
    enters one, and a change converted from the legacy message is simple. *)
Lemma conf_change_classification (cc : ConfChangeV2) (v1 : ConfChange) :
  (leave_joint cc = true ↔ ccv_transition cc = Auto ∧ ccv_changes cc = []) ∧
  (leave_joint cc = true → enter_joint cc = None) ∧
  (enter_joint cc = None ↔ ccv_transition cc = Auto ∧ (length (ccv_changes cc) ≤ 1)%nat) ∧
  (enter_joint cc = Some false ↔ ccv_transition cc = Explicit) ∧
  leave_joint (into_v2 v1) = false ∧ enter_joint (into_v2 v1) = None.
Proof.
  unfold leave_joint, enter_joint, len. destruct cc as [tr ch ctx]. cbn [ccv_transition ccv_changes].
  assert (ch = [] → length ch = 0%nat) as Hnil by by intros ->.
  destruct (N.ltb_spec 1 (N.of_nat (length ch))) as [Hl|Hl]; split_and!; try done;
    destruct tr; simpl; rewrite ?andb_true_iff, ?bool_decide_eq_true; naive_solver lia.
Qed.
