(* ===== verification/ConfChangeText.v ===== *)
(** * Configuration changes as text (src/proto/src/confchange.rs)

    [parse_conf_change] and [stringify_conf_change].  A Rust string is the list
    of its Unicode code points; what the code uses of [str] and of the decimal
    form of a [u64] is written out here. *)
From Stdlib Require Import Ascii.
From S2P Require Import Prelude Errors Eraftpb ProtoConf.

Abbreviation Str := (list N).

(** A string literal. *)
Definition lit (s : string) : Str := N_of_ascii <$> String.list_ascii_of_string s.

Module Text.
(** *** Characters *)

(** [char::is_whitespace]: the White_Space property. *)
Definition is_whitespace (c : N) : bool :=
  (9 <=? c) && (c <=? 13) || (c =? 32) || (c =? 133) || (c =? 160) || (c =? 5760)
  || (8192 <=? c) && (c <=? 8202) || (c =? 8232) || (c =? 8233) || (c =? 8239) || (c =? 8287) || (c =? 12288).

(** [char::is_ascii_whitespace]. *)
Definition is_ascii_whitespace (c : N) : bool :=
  (c =? 9) || (c =? 10) || (c =? 12) || (c =? 13) || (c =? 32).

(** [char::len_utf8]. *)
Definition len_utf8 (c : N) : N :=
  if c <? 128 then 1 else if c <? 2048 then 2 else if c <? 65536 then 3 else 4.

(** [char::to_digit(10)]. *)
Definition to_digit (c : N) : option N := if (48 <=? c) && (c <=? 57) then Some (c - 48) else None.

(** *** Strings *)

(** [str::len], in bytes. *)
Definition byte_len (s : Str) : N := foldr (λ c n, len_utf8 c + n) 0 s.

Fixpoint drop_while (p : N → bool) (s : Str) : Str :=
  match s with
  | c :: s' => if p c then drop_while p s' else s
  | [] => []
  end.

(** [str::trim]. *)
Definition trim (s : Str) : Str :=
  reverse (drop_while is_whitespace (reverse (drop_while is_whitespace s))).

Fixpoint split (p : N → bool) (s : Str) : list Str :=
  match s with
  | [] => [[]]
  | c :: s' =>
    if p c then [] :: split p s'
    else match split p s' with
         | t :: ts => (c :: t) :: ts
         | [] => [[c]]
         end
  end.

(** [str::split_ascii_whitespace]. *)
Definition split_ascii_whitespace (s : Str) : list Str := filter (.≠ []) (split is_ascii_whitespace s).

(** *** Numbers *)

(** [IntErrorKind], the kinds a [u64] has. *)
Inductive ParseIntError : Type := Empty | InvalidDigit | PosOverflow.

Definition describe (e : ParseIntError) : Str :=
  match e with
  | Empty => lit "cannot parse integer from empty string"
  | InvalidDigit => lit "invalid digit found in string"
  | PosOverflow => lit "number too large to fit in target type"
  end.

Fixpoint parse_digits (result : N) (s : Str) : res ParseIntError N :=
  match s with
  | [] => Ok result
  | c :: s' =>
    match to_digit c with
    | None => Err InvalidDigit
    | Some x =>
      if u64_max <? result * 10 then Err PosOverflow
      else if u64_max <? result * 10 + x then Err PosOverflow
      else parse_digits (result * 10 + x) s'
    end
  end.

(** [<u64 as FromStr>::from_str]: a leading plus sign is accepted. *)
Definition parse_u64 (s : Str) : res ParseIntError N :=
  match s with
  | [] => Err Empty
  | [43] | [45] => Err InvalidDigit
  | 43 :: s' => parse_digits 0 s'
  | _ => parse_digits 0 s
  end.

Fixpoint show_digits (fuel : nat) (n : N) (acc : Str) : Str :=
  match fuel with
  | 0%nat => acc
  | S fuel' =>
    let acc := (48 + n mod 10) :: acc in
    if n <? 10 then acc else show_digits fuel' (n / 10) acc
  end.

(** [Display] of a [u64], which has at most twenty digits. *)
Definition show_u64 (n : N) : Str := show_digits 20 n [].
End Text.

Module ConfChangeText.
Import Text.

Definition change_char (ty : ConfChangeType) : N :=
  match ty with
  | AddNode => 118
  | AddLearnerNode => 108
  | RemoveNode => 114
  | AddWitness => 119
  end.

(** The body of the loop of [parse_conf_change]. *)
Definition parse_token (tok : Str) : res Str ConfChangeSingle :=
  if byte_len tok <? 2 then Err (lit "unknown token " ++ tok)
  else match tok with
  | [] => Err (lit "unknown token " ++ tok)
  | c :: chars =>
    match (if c =? 118 then Some AddNode
           else if c =? 108 then Some AddLearnerNode
           else if c =? 114 then Some RemoveNode
           else if c =? 119 then Some AddWitness
           else None) with
    | None => Err (lit "unknown token " ++ tok)
    | Some ty =>
      match parse_u64 chars with
      | Ok id => Ok (new_conf_change_single id ty)
      | Err e => Err (lit "parse token " ++ tok ++ lit " fail: " ++ describe e)
      end
    end
  end.

Fixpoint parse_tokens (toks : list Str) : res Str (list ConfChangeSingle) :=
  match toks with
  | [] => Ok []
  | tok :: toks' => cc ← parse_token tok; ccs ← parse_tokens toks'; Ok (cc :: ccs)
  end.

Definition parse_conf_change (s : Str) : res Str (list ConfChangeSingle) :=
  let s := trim s in
  if bool_decide (s = []) then Ok [] else parse_tokens (split_ascii_whitespace s).

Definition show_change (cc : ConfChangeSingle) : Str :=
  change_char (ccs_change_type cc) :: show_u64 (ccs_node_id cc).

Definition stringify_conf_change (ccs : list ConfChangeSingle) : Str :=
  concat (imap (λ i cc, (if (0 <? i)%nat then [32] else []) ++ show_change cc) ccs).
End ConfChangeText.

Import Text ConfChangeText.

(** ** Strings *)

Lemma drop_while_stop p s : (∀ c, head s = Some c → p c = false) → drop_while p s = s.
Proof. destruct s as [|c s]; intros Hp; simpl; [done|]. by rewrite (Hp c). Qed.

Lemma trim_id s : (∀ c, head s = Some c → is_whitespace c = false) →
  (∀ c, last s = Some c → is_whitespace c = false) → trim s = s.
Proof.
  intros Hh Hl. unfold trim. rewrite (drop_while_stop _ s) by done.
  rewrite drop_while_stop; [apply reverse_involutive|]. by rewrite head_reverse.
Qed.

Lemma split_plain p t : Forall (λ c, p c = false) t → split p t = [t].
Proof. induction 1 as [|c t Hc _ IH]; simpl; [done|]. by rewrite Hc, IH. Qed.

Lemma split_sep p t c s : Forall (λ c, p c = false) t → p c = true → split p (t ++ c :: s) = t :: split p s.
Proof. intros Ht Hc. induction Ht as [|d t Hd _ IH]; simpl; [by rewrite Hc|]. by rewrite Hd, IH. Qed.

(** ** Numbers *)

Definition is_digit (c : N) : Prop := 48 ≤ c ≤ 57.

Lemma to_digit_Some c : is_digit c → to_digit c = Some (c - 48).
Proof. intros [? ?]. unfold to_digit. by rewrite !(proj2 (N.leb_le _ _)) by done. Qed.

(** The number that digits spell after [r]. *)
Definition spells (r : N) (s : Str) : N := foldl (λ r c, r * 10 + (c - 48)) r s.

Lemma spells_ge s r : r ≤ spells r s.
Proof.
  revert r. induction s as [|c s IH]; intros r; simpl; [done|].
  change (r ≤ spells (r * 10 + (c - 48)) s). specialize (IH (r * 10 + (c - 48))). lia.
Qed.

Lemma parse_digits_Ok s r : Forall is_digit s → spells r s ≤ u64_max → parse_digits r s = Ok (spells r s).
Proof.
  intros Hs. revert r. induction Hs as [|c s Hc _ IH]; intros r Hle; simpl; [done|].
  change (spells r (c :: s)) with (spells (r * 10 + (c - 48)) s) in Hle.
  pose proof (spells_ge s (r * 10 + (c - 48))). rewrite (to_digit_Some c Hc).
  rewrite !(proj2 (N.ltb_ge _ _)) by lia. by apply IH.
Qed.

Lemma parse_digits_bound s r n : r ≤ u64_max → parse_digits r s = Ok n → n ≤ u64_max.
Proof.
  revert r. induction s as [|c s IH]; intros r Hr; simpl; [intros [= <-]; done|].
  destruct (to_digit c) as [x|]; [|done]. destruct (N.ltb_spec u64_max (r * 10)) as [|_]; [done|].
  destruct (N.ltb_spec u64_max (r * 10 + x)) as [|Hle]; [done|]. by apply IH.
Qed.

Lemma show_digits_spec fuel n acc : (0 < fuel)%nat → n < 10 ^ N.of_nat fuel →
  ∃ ds, show_digits fuel n acc = ds ++ acc ∧ Forall is_digit ds ∧ ds ≠ [] ∧ spells 0 ds = n.
Proof.
  revert n acc. induction fuel as [|fuel IH]; intros n acc Hf Hn; [lia|].
  pose proof (N.mod_lt n 10 ltac:(done)) as Hm. pose proof (N.div_mod' n 10) as Hdm. cbn [show_digits].
  destruct (N.ltb_spec n 10) as [Hlt|Hge].
  - rewrite N.mod_small by done. exists [48 + n]. split_and!; [done| |done|unfold spells; simpl; lia].
    constructor; [unfold is_digit; lia|done].
  - assert (n / 10 < 10 ^ N.of_nat fuel) as Hd.
    { apply N.Div0.div_lt_upper_bound. by rewrite Nat2N.inj_succ, N.pow_succ_r' in Hn. }
    revert Hm Hdm. generalize (n mod 10). intros d Hm Hdm.
    destruct (IH (n / 10) ((48 + d) :: acc)) as (ds & -> & Hds & Hne & Hv); [|done|].
    { destruct fuel; [simpl in Hn; lia|lia]. }
    exists (ds ++ [48 + d]). split_and!; [by rewrite <-app_assoc| |by destruct ds|].
    + apply Forall_app. split; [done|]. constructor; [unfold is_digit; lia|done].
    + unfold spells in *. rewrite foldl_app, Hv. cbn [foldl]. lia.
Qed.

Lemma show_u64_spec n : n ≤ u64_max →
  Forall is_digit (show_u64 n) ∧ show_u64 n ≠ [] ∧ spells 0 (show_u64 n) = n.
Proof.
  intros Hn. destruct (show_digits_spec 20 n []) as (ds & E & Hds & Hne & Hv); [lia| |].
  - unfold u64_max in Hn. change (10 ^ N.of_nat 20) with 100000000000000000000. lia.
  - unfold show_u64. rewrite E, app_nil_r. done.
Qed.

Lemma parse_u64_digits s : Forall is_digit s → s ≠ [] → parse_u64 s = parse_digits 0 s.
Proof.
  intros Hs Hne. destruct Hs as [|c s [H1 H2] Hs]; [done|]. unfold parse_u64.
  destruct c as [|p]; [lia|].
  do 7 (destruct p as [p|p|]; try lia; try done).
Qed.

Lemma parse_show_u64 n : n ≤ u64_max → parse_u64 (show_u64 n) = Ok n.
Proof.
  intros Hn. destruct (show_u64_spec n Hn) as (Hd & Hne & Hv).
  rewrite parse_u64_digits, parse_digits_Ok, Hv; by rewrite ?Hv.
Qed.

Lemma parse_u64_bound s n : parse_u64 s = Ok n → n ≤ u64_max.
Proof.
  assert (∀ t, parse_digits 0 t = Ok n → n ≤ u64_max) as Hp by (intros t; by apply parse_digits_bound).
  unfold parse_u64. intros E. repeat (case_match; try done; eauto).
Qed.

(** ** Changes *)

Definition valid_change (cc : ConfChangeSingle) : Prop := ccs_node_id cc ≤ u64_max.

Lemma digit_plain c : is_digit c → is_whitespace c = false ∧ is_ascii_whitespace c = false.
Proof.
  intros [? ?]. unfold is_whitespace, is_ascii_whitespace.
  rewrite !orb_false_iff, !andb_false_iff, !N.leb_gt, !N.eqb_neq. lia.
Qed.

Lemma char_plain ty : is_whitespace (change_char ty) = false ∧ is_ascii_whitespace (change_char ty) = false.
Proof. by destruct ty. Qed.

Lemma show_change_plain cc : valid_change cc →
  Forall (λ c, is_whitespace c = false ∧ is_ascii_whitespace c = false) (show_change cc).
Proof.
  intros (Hd & _ & _)%show_u64_spec. constructor; [apply char_plain|]. eapply Forall_impl; [done|apply digit_plain].
Qed.

Lemma byte_len_length s : len s ≤ byte_len s.
Proof.
  induction s as [|c s IH]; [done|]. rewrite len_cons. cbn [byte_len foldr]. fold (byte_len s).
  assert (1 ≤ len_utf8 c) by (unfold len_utf8; repeat case_match; lia). lia.
Qed.

Lemma parse_show_change cc : valid_change cc → parse_token (show_change cc) = Ok cc.
Proof.
  intros Hv. destruct (show_u64_spec _ Hv) as (_ & Hne & _). unfold parse_token, show_change.
  rewrite (proj2 (N.ltb_ge _ _)).
  - rewrite parse_show_u64 by done. by destruct cc as [[] n].
  - etrans; [|apply byte_len_length]. rewrite len_cons. destruct (show_u64 (ccs_node_id cc)); [done|]. rewrite len_cons. lia.
Qed.

(** The changes after the first, each with its separator. *)
Definition stringify_rest (ccs : list ConfChangeSingle) : Str := concat ((λ cc, 32 :: show_change cc) <$> ccs).

Lemma stringify_cons cc ccs : stringify_conf_change (cc :: ccs) = show_change cc ++ stringify_rest ccs.
Proof.
  unfold stringify_conf_change, stringify_rest. simpl. rewrite <-(imap_const (λ cc, 32 :: show_change cc) ccs).
  done.
Qed.

Lemma split_stringify cc ccs : valid_change cc → Forall valid_change ccs →
  split is_ascii_whitespace (show_change cc ++ stringify_rest ccs) = show_change <$> (cc :: ccs).
Proof.
  intros Hv Hs. revert cc Hv. induction Hs as [|d ccs Hd _ IH]; intros cc Hv.
  - change (stringify_rest []) with (@nil N). rewrite app_nil_r. apply split_plain.
    eapply Forall_impl; [by apply show_change_plain|naive_solver].
  - change (stringify_rest (d :: ccs)) with (32 :: show_change d ++ stringify_rest ccs).
    rewrite split_sep; [by rewrite (IH d Hd)| |done]. eapply Forall_impl; [by apply show_change_plain|naive_solver].
Qed.

Lemma stringify_last cc ccs : valid_change cc → Forall valid_change ccs →
  ∀ c, last (show_change cc ++ stringify_rest ccs) = Some c → is_whitespace c = false.
Proof.
  intros Hv Hs c Hc. assert (∀ d, valid_change d → last (show_change d) = Some c → is_whitespace c = false) as Hd.
  { intros d Hd E. apply last_Some in E as [l E]. pose proof (show_change_plain d Hd) as Hp. rewrite E in Hp.
    apply Forall_app in Hp as [_ [? _]%Forall_singleton]. done. }
  destruct ccs as [|d ccs _] using rev_ind; [unfold stringify_rest in Hc; simpl in Hc; rewrite app_nil_r in Hc; eauto|].
  apply Forall_app in Hs as [_ Hs]. rewrite Forall_singleton in Hs. apply (Hd d); [done|].
  assert (stringify_rest (ccs ++ [d]) = stringify_rest ccs ++ 32 :: show_change d) as E.
  { unfold stringify_rest. rewrite fmap_app, concat_app. cbn. by rewrite app_nil_r. }
  rewrite E, app_assoc, last_app_cons in Hc. exact Hc.
Qed.

Lemma parse_tokens_show ccs : Forall valid_change ccs → parse_tokens (show_change <$> ccs) = Ok ccs.
Proof. induction 1 as [|cc ccs Hv _ IH]; [done|]. rewrite fmap_cons. cbn [parse_tokens]. by rewrite parse_show_change, IH. Qed.

Lemma filter_shown (ccs : list ConfChangeSingle) : filter (.≠ []) (show_change <$> ccs) = show_change <$> ccs.
Proof. induction ccs as [|cc ccs IH]; [done|]. rewrite fmap_cons, filter_cons_True by done. by rewrite IH. Qed.

Lemma parse_stringify ccs : Forall valid_change ccs → parse_conf_change (stringify_conf_change ccs) = Ok ccs.
Proof.
  intros Hs. destruct ccs as [|cc ccs]; [done|]. inv Hs. unfold parse_conf_change. rewrite stringify_cons, trim_id.
  - rewrite bool_decide_false by done. unfold split_ascii_whitespace. rewrite split_stringify by done.
    rewrite filter_shown. apply parse_tokens_show. by constructor.
  - intros c [= <-]. apply char_plain.
  - by apply stringify_last.
Qed.

Lemma parse_tokens_valid toks ccs : parse_tokens toks = Ok ccs → Forall valid_change ccs.
Proof.
  revert ccs. induction toks as [|tok toks IH]; intros ccs; cbn [parse_tokens]; [intros [= <-]; done|].
  intros (cc & Hc & (ccs' & Hs & [= <-])%res_bind_Ok)%res_bind_Ok. constructor; [|by apply IH].
  unfold parse_token in Hc. destruct (byte_len tok <? 2); [done|]. destruct tok as [|c chars]; [done|].
  destruct (if c =? 118 then _ else _) as [ty|]; [|done]. destruct (parse_u64 chars) as [id|] eqn:E; [|done].
  injection Hc as <-. by eapply parse_u64_bound.
Qed.

(** ** Properties *)

(** C37: Configuration changes survive a trip through text: for every list of
    changes whose node ids are [u64]s, and only for those,
    [parse_conf_change] reads back exactly what [stringify_conf_change] writes;
    and whatever text it accepts, it reads the same changes again from their
    standard form. *)
Theorem conf_change_text_roundtrip (ccs : list ConfChangeSingle) :
  (parse_conf_change (stringify_conf_change ccs) = Ok ccs ↔ Forall (λ cc, ccs_node_id cc ≤ u64_max) ccs) ∧
  (∀ s, parse_conf_change s = Ok ccs → parse_conf_change (stringify_conf_change ccs) = Ok ccs).
Proof.
  assert (∀ s, parse_conf_change s = Ok ccs → Forall valid_change ccs) as Hv.
  { intros s. unfold parse_conf_change. case_bool_decide; [intros [= <-]; by constructor|]. apply parse_tokens_valid. }
  split; [split|]; eauto using parse_stringify.
Qed.

Example parse_sample : parse_conf_change (lit "v1 l+2  r3 w18446744073709551615 ") =
  Ok [new_conf_change_single 1 AddNode; new_conf_change_single 2 AddLearnerNode;
      new_conf_change_single 3 RemoveNode; new_conf_change_single u64_max AddWitness].
Proof. reflexivity. Qed.

Example parse_sample_errors :
  parse_conf_change (lit "v1 x2") = Err (lit "unknown token x2") ∧
  parse_conf_change (lit "v1 l") = Err (lit "unknown token l") ∧
  parse_conf_change (lit "v18446744073709551616") =
    Err (lit "parse token v18446744073709551616 fail: number too large to fit in target type") ∧
  parse_conf_change (lit "v-1") = Err (lit "parse token v-1 fail: invalid digit found in string").
Proof. by split_and!. Qed.
