(* ===== verification/Datadriven.v ===== *)
(** * Data-driven tests (src/datadriven/src)

    The library that runs test files: directive lines and their arguments
    (line_sparser.rs, test_data.rs), the reader of a file (test_data_reader.rs)
    and the run of its directives, which checks or rewrites what is expected
    (datadriven.rs).  Strings are those of [ConfChangeText]; the two regular
    expressions, which match in one way only, are written out as scanners.
    Files are texts by path; the listing of a directory is an argument. *)
From Stdlib Require Import Ascii.
From S2P Require Import Prelude Errors Eraftpb ProtoConf ConfChangeText.

(** ** Directive lines (line_sparser.rs, test_data.rs) *)
Module Directive.
Import Text.

Record CmdArg : Type := mkCmdArg { key : Str; vals : list Str }.

(** What can go wrong, with the column (in bytes) and the line. *)
Inductive ParseError : Type :=
| CannotParse (column : N) (line : Str)
| EmptyCmd.

Definition is_alnum (c : N) : bool :=
  (48 <=? c) && (c <=? 57) || (65 <=? c) && (c <=? 90) || (97 <=? c) && (c <=? 122).
(** [[-a-zA-Z0-9/_,.]] and [[-a-zA-Z0-9_@=+/,.]]. *)
Definition key_char (c : N) : bool :=
  is_alnum c || (c =? 45) || (c =? 47) || (c =? 95) || (c =? 44) || (c =? 46).
Definition val_char (c : N) : bool := key_char c || (c =? 64) || (c =? 61) || (c =? 43).

Fixpoint span (p : N → bool) (s : Str) : Str * Str :=
  match s with
  | [] => ([], [])
  | c :: s' => if p c then (let '(a, b) := span p s' in (c :: a, b)) else ([], s)
  end.

(** [( |$)], after what was matched. *)
Definition match_end (m s : Str) : option (Str * Str) :=
  match s with
  | [] => Some (m, [])
  | c :: s' => if c =? 32 then Some (m ++ [c], s') else None
  end.

(** The match of [RE] at the start of the line, and what is left. *)
Definition re_captures (line : Str) : option (Str * Str) :=
  let '(blank, s) := span (λ c, c =? 32) line in
  let '(k, s) := span key_char s in
  if bool_decide (k = []) then None
  else match s with
  | 61 :: s =>
    let '(v, s') := span val_char s in
    match match_end (blank ++ k ++ 61 :: v) s' with
    | Some r => Some r
    | None =>
      match s with
      | 40 :: s =>
        match span (λ c, negb (c =? 41)) s with
        | (v, 41 :: s') => match_end (blank ++ k ++ 61 :: 40 :: v ++ [41]) s'
        | _ => None
        end
      | _ => None
      end
    end
  | _ => match_end (blank ++ k) s
  end.

(** The loop of [split_directives]; a match is never empty, so that there are
    no more rounds than characters. *)
Fixpoint split_loop (fuel : nat) (origin_line line : Str) : option (res ParseError (list Str)) :=
  match line with
  | [] => Some (Ok [])
  | _ :: _ =>
    match fuel with
    | 0%nat => None
    | S fuel =>
      match re_captures line with
      | Some (first, last) =>
        r ← split_loop fuel origin_line last;
        Some (match r with Ok res => Ok (trim first :: res) | Err e => Err e end)
      | None => Some (Err (CannotParse (byte_len origin_line - byte_len line + 1) origin_line))
      end
    end
  end.
Definition split_directives (line : Str) : option (res ParseError (list Str)) := split_loop (length line) line line.

(** [splitn(2, '=')]. *)
Definition splitn2 (arg : Str) : Str * option Str :=
  match span (λ c, negb (c =? 61)) arg with
  | (k, _ :: v) => (k, Some v)
  | (k, []) => (k, None)
  end.

Definition parse_arg (arg : Str) : CmdArg :=
  match splitn2 arg with
  | (k, None) => mkCmdArg k []
  | (k, Some val) =>
    if bool_decide (head val = Some 40) && bool_decide (last val = Some 41) then
      mkCmdArg k (trim <$> split (λ c, c =? 44) (take (length val - 2) (drop 1 val)))
    else mkCmdArg k [val]
  end.

Definition parse_line (line : Str) : option (res ParseError (Str * list CmdArg)) :=
  r ← split_directives line;
  Some match r with
       | Err e => Err e
       | Ok [] => Ok ([], [])
       | Ok (cmd :: args) => Ok (cmd, parse_arg <$> args)
       end.

(** [join(",")]. *)
Definition join (l : list Str) : Str :=
  match l with [] => [] | s :: l' => s ++ concat ((λ t, 44 :: t) <$> l') end.

(** [Display] of an argument. *)
Definition show_arg (a : CmdArg) : Str :=
  match vals a with
  | [] => key a
  | [v] => key a ++ 61 :: v
  | vs => key a ++ 61 :: 40 :: join vs ++ [41]
  end.
End Directive.

(** ** Test files *)
Module TestData.
Record t : Type := mk {
  pos : Str;
  cmd : Str;
  cmd_args : list Directive.CmdArg;
  input : Str;
  expected : Str
}.
#[global] Instance eta : Eta t := λ d, mk (pos d) (cmd d) (cmd_args d) (input d) (expected d).
Definition default : t := mk [] [] [] [] [].

Definition contains_key (d : t) (k : Str) : bool := existsb (λ a, bool_decide (Directive.key a = k)) (cmd_args d).
End TestData.

Module TestDataReader.
Import Text.

(** [str::lines]: what a newline ends, without a carriage return before it, and
    what is left at the end. *)
Definition chomp (l : Str) : Str :=
  if bool_decide (last l = Some 13) then take (length l - 1) l else l.
Fixpoint lines_of (ps : list Str) : list Str :=
  match ps with
  | [] => []
  | [p] => if bool_decide (p = []) then [] else [p]
  | p :: ps' => chomp p :: lines_of ps'
  end.
Definition lines (content : Str) : list Str := lines_of (split (λ c, c =? 10) content).

(** [Enumerate<Lines>]: how many lines were read, and the others. *)
Record Scanner : Type := mkScanner { count : N; rest : list Str }.

Record t : Type := mk {
  source_name : Str;
  data : TestData.t;
  scanner : Scanner;
  rewrite_buffer : option Str
}.
#[global] Instance eta : Eta t := λ r, mk (source_name r) (data r) (scanner r) (rewrite_buffer r).

Definition new (name content : Str) (rewrite : bool) : t :=
  mk name TestData.default (mkScanner 0 (lines content)) (if rewrite then Some [] else None).

Definition sep : Str := lit "----".
Definition push_line (s l : Str) : Str := s ++ l ++ [10].
Definition emit (rb : option Str) (l : Str) : option Str := (λ b, push_line b l) <$> rb.

(** Lines that end in a backslash go on in the next line. *)
Fixpoint read_wrapped (rb : option Str) (pos : N) (line : Str) (n : N) (ls : list Str)
    : outcome (option Str * N * Str * Scanner) :=
  if bool_decide (last line = Some 92) then
    let line := take (length line - 1) line in
    match ls with
    | [] => Panicked
    | next_line :: ls =>
      let rb := emit rb next_line in
      let next_line := trim next_line in
      let line := if bool_decide (next_line = []) then line else line ++ 32 :: next_line in
      read_wrapped rb (pos +w 1) line (n +w 1) ls
    end
  else mret (rb, pos, line, mkScanner n ls).

(** The lines up to the separator, and whether there is one. *)
Fixpoint read_input (rb : option Str) (buf : Str) (n : N) (ls : list Str) : option Str * Str * bool * Scanner :=
  match ls with
  | [] => (rb, buf, false, mkScanner n [])
  | line :: ls =>
    if bool_decide (line = sep) then (rb, buf, true, mkScanner (n +w 1) ls)
    else read_input (emit rb line) (push_line buf line) (n +w 1) ls
  end.

(** What is expected, up to two separators in a row. *)
Fixpoint read_double (expected : Str) (n : N) (ls : list Str) : outcome (Str * Scanner) :=
  match ls with
  | [] => Panicked
  | line :: ls =>
    if bool_decide (line = sep) then
      match ls with
      | [] => Panicked
      | line2 :: ls =>
        if bool_decide (line2 = sep) then
          match ls with
          | [] => mret (expected, mkScanner (n +w 2) [])
          | line3 :: ls => _ ← rassert (bool_decide (line3 = [])); mret (expected, mkScanner (n +w 3) ls)
          end
        else read_double (push_line (push_line expected line) line2) (n +w 2) ls
      end
    else read_double (push_line expected line) (n +w 1) ls
  end.

(** What is expected, up to a blank line. *)
Fixpoint read_single (expected line : Str) (n : N) (ls : list Str) : Str * Scanner :=
  if bool_decide (trim line = []) then (expected, mkScanner n ls)
  else
    let expected := push_line expected line in
    match ls with
    | [] => (expected, mkScanner n [])
    | l :: ls => read_single expected l (n +w 1) ls
    end.

Definition read_expected (expected : Str) (sc : Scanner) : outcome (Str * Scanner) :=
  match rest sc with
  | [] => mret (read_single expected [] (count sc) [])
  | l :: ls =>
    if bool_decide (l = sep) then read_double expected (count sc +w 1) ls
    else mret (read_single expected l (count sc +w 1) ls)
  end.

(** A directive, once its line is put together. *)
Definition read_directive (r : t) (pos : N) (line : Str) : outcome (t * res Directive.ParseError bool) :=
  let d := TestData.default <| TestData.pos := source_name r ++ lit " : L" ++ show_u64 (pos +w 1) |> in
  let r := r <| data := d |> in
  p ← unwrap (Directive.parse_line line);
  match p with
  | Err e => mret (r, Err e)
  | Ok ([], _) => mret (r, Err Directive.EmptyCmd)
  | Ok (cmd, cmd_args) =>
    let d := d <| TestData.cmd := cmd |> <| TestData.cmd_args := cmd_args |> in
    let '(rb, buf, separator, sc) := read_input (rewrite_buffer r) [] (count (scanner r)) (rest (scanner r)) in
    let d := d <| TestData.input := trim buf |> in
    '(e, sc) ← (if separator then read_expected (TestData.expected d) sc else mret (TestData.expected d, sc));
    mret (r <| data := d <| TestData.expected := e |> |> <| scanner := sc |> <| rewrite_buffer := rb |>, Ok true)
  end.

Fixpoint next_loop (r : t) (n : N) (ls : list Str) : outcome (t * res Directive.ParseError bool) :=
  match ls with
  | [] => mret (r <| scanner := mkScanner n [] |>, Ok false)
  | line :: ls =>
    let r := r <| rewrite_buffer := emit (rewrite_buffer r) line |> in
    let line := trim line in
    if bool_decide (head line = Some 35) || bool_decide (line = []) then next_loop r (n +w 1) ls
    else
      '(rb, pos, line, sc) ← read_wrapped (rewrite_buffer r) n line (n +w 1) ls;
      read_directive (r <| rewrite_buffer := rb |> <| scanner := sc |>) pos line
  end.
Definition next (r : t) : outcome (t * res Directive.ParseError bool) :=
  next_loop r (count (scanner r)) (rest (scanner r)).
End TestDataReader.

(** ** Running a file (datadriven.rs) *)
Module Datadriven.
Import Text TestDataReader.

(** [BLANK_LINE_RE]: a line of blanks and tabs that a newline ends. *)
Definition blank_char (c : N) : bool := (c =? 9) || (c =? 32).
Fixpoint blank_piece (ps : list Str) : bool :=
  match ps with
  | [] | [_] => false
  | p :: ps' => forallb blank_char p || blank_piece ps'
  end.
Definition has_blank_line (s : Str) : bool := blank_piece (split (λ c, c =? 10) s).

Section run.
Context {σ : Type} (case : σ → TestData.t → σ * Str).

Definition run_directive (s : σ) (r : t) : outcome (σ * t) :=
  let '(s, actual) := case s (data r) in
  let actual := if negb (bool_decide (actual = [])) && negb (bool_decide (last actual = Some 10))
                then actual ++ [10] else actual in
  match rewrite_buffer r with
  | None => _ ← rassert (bool_decide (actual = TestData.expected (data r))); mret (s, r)
  | Some rb =>
    let rb : option Str := emit (Some rb) sep in
    let rb := if has_blank_line actual then
                let rb := emit rb sep in
                let rb := (λ b, b ++ actual) <$> rb in
                emit (emit (emit rb sep) sep) []
              else emit rb actual in
    mret (s, r <| TestDataReader.rewrite_buffer := rb |>)
  end.

(** The loop; [None] when the rounds do not suffice. *)
Fixpoint run_loop (fuel : nat) (s : σ) (r : t) : outcome (option (σ * t * res Directive.ParseError unit)) :=
  match fuel with
  | 0%nat => mret None
  | S fuel =>
    '(r, b) ← next r;
    match b with
    | Err e => mret (Some (s, r, Err e))
    | Ok false => mret (Some (s, r, Ok ()))
    | Ok true => '(s, r) ← run_directive s r; run_loop fuel s r
    end
  end.

Definition pop_newline (b : Str) : Str :=
  if bool_decide (last b = Some 10) && bool_decide (last (take (length b - 1) b) = Some 10)
  then take (length b - 1) b else b.

(** Every round reads a line. *)
Definition run_test_internal (s : σ) (name content : Str) (rewrite : bool)
    : outcome (option (σ * res Directive.ParseError (option Str))) :=
  r ← run_loop (S (length (lines content))) s (new name content rewrite);
  mret match r with
       | None => None
       | Some (s, r, Ok _) => Some (s, Ok (pop_newline <$> rewrite_buffer r))
       | Some (s, _, Err e) => Some (s, Err e)
       end.

Inductive RunError : Type :=
| Io (path : Str)
| Parse (e : Directive.ParseError).

(** The files that [get_dirs_or_file] finds, on a disk that holds their texts. *)
Fixpoint run_test (s : σ) (disk : gmap Str Str) (files : list Str) (rewrite : bool)
    : outcome (option (σ * gmap Str Str * res RunError unit)) :=
  match files with
  | [] => mret (Some (s, disk, Ok ()))
  | path :: files =>
    match disk !! path with
    | None => mret (Some (s, disk, Err (Io path)))
    | Some content =>
      r ← run_test_internal s path content rewrite;
      match r with
      | None => mret None
      | Some (s, Err e) => mret (Some (s, disk, Err (Parse e)))
      | Some (s, Ok None) => run_test s disk files rewrite
      | Some (s, Ok (Some rewrite_data)) => run_test s (<[path := rewrite_data]> disk) files rewrite
      end
    end
  end.
End run.
End Datadriven.

Import Text Directive TestDataReader Datadriven.

(** ** Lines *)

Abbreviation newline := (λ c : N, c =? 10).

(** The text of lines. *)
Definition unlines (L : list Str) : Str := concat ((λ l, l ++ [10]) <$> L).

Lemma unlines_app L M : unlines (L ++ M) = unlines L ++ unlines M.
Proof. unfold unlines. by rewrite fmap_app, concat_app. Qed.

Lemma push_line_unlines b l : push_line b l = b ++ unlines [l].
Proof. unfold push_line, unlines. simpl. by rewrite app_nil_r. Qed.

(** A line as a file holds it: it has no newline, and no carriage return that
    would count as part of the line's end. *)
Definition proper (l : Str) : Prop := Forall (λ c, newline c = false) l ∧ last l ≠ Some 13.

Lemma proper_nil : proper [].
Proof. by split. Qed.

Lemma split_unlines L : Forall proper L → split newline (unlines L) = L ++ [[]].
Proof.
  induction 1 as [|l L [Hl _] _ IH]; [done|]. change (unlines (l :: L)) with ((l ++ [10]) ++ unlines L).
  rewrite <-app_assoc. simpl. by rewrite split_sep, IH.
Qed.

Lemma chomp_proper l : last l ≠ Some 13 → chomp l = l.
Proof. intros Hl. unfold chomp. by rewrite bool_decide_eq_false_2. Qed.

Lemma lines_unlines L : Forall proper L → lines (unlines L) = L.
Proof.
  intros HL. unfold lines. rewrite split_unlines by done. induction HL as [|l L [_ Hl] _ IH]; [done|].
  cbn [lines_of app]. destruct (L ++ [[]]) as [|p ps] eqn:E; [by destruct L|]. rewrite <-E in IH |- *. by rewrite IH, chomp_proper.
Qed.

Lemma split_pieces p s : Forall (λ l, Forall (λ c, p c = false ∧ c ∈ s) l) (split p s).
Proof.
  induction s as [|c s IH]; simpl; [by repeat constructor|].
  assert (Forall (λ l, Forall (λ c0, p c0 = false ∧ c0 ∈ c :: s) l) (split p s)) as IH'.
  { eapply Forall_impl; [exact IH|]. intros l Hl. eapply Forall_impl; [exact Hl|]. intros d [? ?]. split; [done|by right]. }
  destruct (p c) eqn:Ec; [by repeat constructor|]. destruct IH' as [|t ts Ht Hts].
  - repeat constructor; done.
  - constructor; [constructor; [by split; [|left]|done]|done].
Qed.

Lemma lines_of_proper ps : Forall (λ l, Forall (λ c, newline c = false ∧ c ≠ 13) l) ps → Forall proper (lines_of ps).
Proof.
  assert (∀ l, Forall (λ c, newline c = false ∧ c ≠ 13) l → proper l) as Hp.
  { intros l Hl. split; [eapply Forall_impl; [exact Hl|naive_solver]|]. intros [l' ->]%last_Some.
    apply Forall_app in Hl as [_ [_ ?]%Forall_singleton]. done. }
  induction 1 as [|p ps Hl Hps IH]; [done|]. cbn [lines_of]. destruct ps as [|q ps].
  - case_bool_decide; [done|]. constructor; [by apply Hp|done].
  - constructor; [|done]. apply Hp in Hl as Hp'. by rewrite chomp_proper by apply Hp'.
Qed.

Lemma lines_proper content : 13 ∉ content → Forall proper (lines content).
Proof.
  intros Hn. apply lines_of_proper. eapply Forall_impl; [apply split_pieces|]. intros l Hl.
  eapply Forall_impl; [exact Hl|]. intros c [? ?]. split; [done|]. by intros ->.
Qed.

(** A text that ends in a newline is the text of its lines. *)
Lemma split_terminated s : last s = Some 10 → ∃ L, split newline s = L ++ [[]] ∧ s = unlines L.
Proof.
  induction s as [|c s IH]; [done|]. intros Hl. destruct (decide (s = [])) as [->|Hne].
  - injection Hl as ->. by exists [[]].
  - destruct IH as (L & E & Hs); [by destruct s|]. simpl. rewrite E. destruct (N.eqb_spec c 10) as [->|Hc].
    + exists ([] :: L). split; [done|]. rewrite Hs. done.
    + destruct L as [|l L]; [by rewrite Hs in Hne|]. exists ((c :: l) :: L). split; [done|]. rewrite Hs. done.
Qed.

Lemma has_blank_unlines L : Forall proper L → has_blank_line (unlines L) = existsb (forallb blank_char) L.
Proof.
  intros HL. unfold has_blank_line. rewrite split_unlines by done. clear HL. induction L as [|l L IH]; [done|].
  cbn [app blank_piece existsb]. rewrite <-IH. destruct (L ++ [[]]) eqn:E; [by destruct L|done].
Qed.

Lemma pop_newline_unlines L : Forall proper L → ∃ L', pop_newline (unlines L) = unlines L' ∧ (L' = L ∨ L = L' ++ [[]]).
Proof.
  intros HL. unfold pop_newline. destruct L as [|l L _] using rev_ind; [by exists []; auto|].
  apply Forall_app in HL as [_ [Hl _]%Forall_singleton].
  assert (unlines (L ++ [l]) = (unlines L ++ l) ++ [10]) as E by (rewrite unlines_app, <-app_assoc; unfold unlines; simpl; by rewrite app_nil_r).
  rewrite E, last_snoc, length_app. replace (_ + length [10] - 1)%nat with (length (unlines L ++ l)) by (simpl; lia).
  rewrite take_app_length. destruct l as [|c l _] using rev_ind.
  - rewrite app_nil_r in *. rewrite (bool_decide_eq_true_2 (Some 10 = _)) by done. simpl. case_bool_decide.
    + exists L. auto.
    + rewrite <-E. eauto.
  - apply Forall_app in Hl as [_ Hc]. rewrite Forall_singleton in Hc.
    replace (last (unlines L ++ l ++ [c])) with (Some c) by (by rewrite app_assoc, last_snoc).
    rewrite (bool_decide_eq_false_2 (Some c = _)), andb_false_r by (intros [= ->]; done).
    rewrite <-E. eauto.
Qed.

(** ** Reading what was written *)

(** What is emitted while lines are read. *)
Definition emits (rb : option Str) (L : list Str) : option Str := (λ b, b ++ unlines L) <$> rb.

Lemma emits_nil rb : emits rb [] = rb.
Proof. destruct rb; simpl; [|done]. by rewrite app_nil_r. Qed.

Lemma emits_cons rb l L : emits rb (l :: L) = emits (emit rb l) L.
Proof. destruct rb as [b|]; [|done]. simpl. by rewrite push_line_unlines, <-app_assoc, <-unlines_app. Qed.

Lemma emits_app rb L M : emits rb (L ++ M) = emits (emits rb L) M.
Proof. destruct rb; [|done]. simpl. by rewrite unlines_app, app_assoc. Qed.

Lemma read_wrapped_again ls : ∀ rb pos line n rb' pos' line' sc, read_wrapped rb pos line n ls = Done (rb', pos', line', sc) →
  ∃ E, ls = E ++ rest sc ∧ rb' = emits rb E ∧
  ∀ rb2 pos2 n2 T, ∃ pos3 n3, read_wrapped rb2 pos2 line n2 (E ++ T) = Done (emits rb2 E, pos3, line', mkScanner n3 T).
Proof.
  induction ls as [|l ls IH]; intros rb pos line n rb' pos' line' sc; cbn [read_wrapped]; case_bool_decide as Hb; [done|..].
  - intros [= <- <- <- <-]. exists []. rewrite emits_nil. split_and!; [done|done|]. intros rb2 pos2 n2 T.
    exists pos2, n2. rewrite emits_nil. destruct T; cbn [app read_wrapped]; by rewrite bool_decide_eq_false_2.
  - intros (E & -> & -> & Hr)%IH. exists (l :: E). rewrite emits_cons. split_and!; [done|done|]. intros rb2 pos2 n2 T.
    rewrite emits_cons. cbn [app read_wrapped]. rewrite bool_decide_eq_true_2 by done. apply Hr.
  - intros [= <- <- <- <-]. exists []. rewrite emits_nil. split_and!; [done|done|]. intros rb2 pos2 n2 T.
    exists pos2, n2. rewrite emits_nil. destruct T; cbn [app read_wrapped]; by rewrite bool_decide_eq_false_2.
Qed.

Lemma read_input_emitted ls : ∀ rb buf n rb' buf' b sc, read_input rb buf n ls = (rb', buf', b, sc) →
  ∃ E, ls = E ++ (if b then sep :: rest sc else rest sc) ∧ rb' = emits rb E ∧ buf' = buf ++ unlines E ∧ sep ∉ E ∧
  (b = false → rest sc = []).
Proof.
  induction ls as [|l ls IH]; intros rb buf n rb' buf' b sc; cbn [read_input].
  - intros [= <- <- <- <-]. exists []. rewrite emits_nil. split_and!; [done|done|unfold unlines; simpl; by rewrite app_nil_r|by apply not_elem_of_nil|done].
  - case_bool_decide as Hl.
    + intros [= <- <- <- <-]. exists []. subst l. rewrite emits_nil. split_and!; [done|done|unfold unlines; simpl; by rewrite app_nil_r|by apply not_elem_of_nil|done].
    + intros (E & -> & -> & -> & Hs & Hb)%IH. exists (l :: E). rewrite emits_cons, push_line_unlines, <-app_assoc, <-unlines_app.
      split_and!; try done. by apply not_elem_of_cons.
Qed.

Lemma read_input_again E T : ∀ rb buf n, sep ∉ E →
  ∃ n', read_input rb buf n (E ++ sep :: T) = (emits rb E, buf ++ unlines E, true, mkScanner n' T).
Proof.
  induction E as [|l E IH]; intros rb buf n Hs; cbn [app read_input].
  - rewrite bool_decide_eq_true_2, emits_nil, app_nil_r by done. by eexists.
  - apply not_elem_of_cons in Hs as [Hl Hs]. rewrite bool_decide_eq_false_2 by done.
    destruct (IH (emit rb l) (push_line buf l) (n +w 1) Hs) as [n' ->]. exists n'.
    by rewrite emits_cons, push_line_unlines, <-app_assoc, <-unlines_app.
Qed.

(** Lines that [read_single] takes. *)
Definition solid (l : Str) : Prop := trim l ≠ [].

Lemma read_single_lines L : ∀ e l n T, solid l → Forall solid L → (T = [] ∨ head T = Some []) →
  ∃ n', read_single e l n (L ++ T) = (e ++ unlines (l :: L), mkScanner n' (tail T)).
Proof.
  induction L as [|m L IH]; intros e l n T Hl HL HT.
  - destruct HT as [->|HT]; [|destruct T as [|t T]; [done|injection HT as ->]]; cbn [app read_single tail];
      rewrite bool_decide_eq_false_2, push_line_unlines by done; [by eexists|].
    destruct T; cbn [read_single]; rewrite bool_decide_eq_true_2 by done; by eexists.
  - inv HL. cbn [app read_single]. rewrite bool_decide_eq_false_2, push_line_unlines by done.
    destruct (IH (e ++ unlines [l]) m (n +w 1) T) as [n' ->]; [done..|]. exists n'.
    rewrite <-app_assoc, <-unlines_app. done.
Qed.

Lemma read_double_lines L : ∀ e n T, sep ∉ L → (T = [] ∨ head T = Some []) →
  ∃ n', read_double e n (L ++ sep :: sep :: T) = Done (e ++ unlines L, mkScanner n' (tail T)).
Proof.
  induction L as [|l L IH]; intros e n T Hs HT; cbn [app read_double].
  - rewrite !bool_decide_eq_true_2, app_nil_r by done. destruct T as [|t T]; [by eexists|].
    destruct HT as [|[= ->]]; [done|]. rewrite bool_decide_eq_true_2 by done. by eexists.
  - apply not_elem_of_cons in Hs as [Hl Hs]. rewrite bool_decide_eq_false_2, push_line_unlines by done.
    destruct (IH (e ++ unlines [l]) (n +w 1) T Hs HT) as [n' ->]. exists n'. rewrite <-app_assoc, <-unlines_app. done.
Qed.

(** What a reader has left is a part of what it had. *)
Lemma read_single_rest ls : ∀ e l n, rest (read_single e l n ls).2 `suffix_of` ls.
Proof.
  induction ls as [|m ls IH]; intros e l n; cbn [read_single]; case_bool_decide; try done.
  etrans; [apply IH|]. by apply suffix_cons_r.
Qed.

Lemma read_double_rest ls : ∀ e n e' sc, read_double e n ls = Done (e', sc) → rest sc `suffix_of` ls.
Proof.
  induction ls as [ls IH] using (induction_ltof1 _ length); unfold ltof in IH.
  intros e n e' sc. destruct ls as [|l ls]; [done|]. cbn [read_double]. case_bool_decide.
  - destruct ls as [|l2 ls]; [done|]. case_bool_decide.
    + destruct ls as [|l3 ls]; [intros [= _ <-]; simpl; apply suffix_nil|]. intros Hs. apply outcome_bind_Done in Hs as (u & _ & Hs).
      injection Hs as _ <-. simpl.
      do 3 apply suffix_cons_r. done.
    + intros Hs%IH; [|simpl; lia]. by do 2 apply suffix_cons_r.
  - intros Hs%IH; [|simpl; lia]. by apply suffix_cons_r.
Qed.

Lemma read_expected_rest e sc e' sc' : read_expected e sc = Done (e', sc') → rest sc' `suffix_of` rest sc.
Proof.
  unfold read_expected. destruct (rest sc) as [|l ls]; [intros [= _ <-]; done|]. case_bool_decide.
  - intros Hs%read_double_rest. by apply suffix_cons_r.
  - intros [= Hs]. apply suffix_cons_r. pose proof (read_single_rest ls e l (count sc +w 1)) as Hr. by rewrite Hs in Hr.
Qed.

(** What a test depends on. *)
Definition same_case (d d' : TestData.t) : Prop :=
  TestData.cmd d' = TestData.cmd d ∧ TestData.cmd_args d' = TestData.cmd_args d ∧ TestData.input d' = TestData.input d.

Definition skips (l : Str) : bool := bool_decide (head (trim l) = Some 35) || bool_decide (trim l = []).

(** Reading lines that are expected, whatever the count. *)
Definition expects (Y : list Str) (e : Str) (T : list Str) : Prop :=
  ∀ k, ∃ k', read_expected [] (mkScanner k Y) = Done (e, mkScanner k' T).

(** A directive that was read, once written with new expectations, is read
    again. *)
Lemma read_directive_again r pos line r' : read_directive r pos line = Done (r', Ok true) →
  ∃ E P, rest (scanner r) = E ++ P ++ rest (scanner r') ∧ rewrite_buffer r' = emits (rewrite_buffer r) E ∧
  ∀ r2 pos2 Y e T, expects Y e T → rest (scanner r2) = E ++ sep :: Y →
  ∃ r3, read_directive r2 pos2 line = Done (r3, Ok true) ∧ same_case (data r') (data r3) ∧
    TestData.expected (data r3) = e ∧ rest (scanner r3) = T ∧ rewrite_buffer r3 = emits (rewrite_buffer r2) E.
Proof.
  unfold read_directive. intros Hs. apply outcome_bind_Done in Hs as (p & Hp & Hs). simpl in Hs.
  destruct p as [[[|c cmd] args]|]; [done| |done].
  destruct (read_input _ _ _ _) as [[[rb buf] b] sc] eqn:Hi.
  apply read_input_emitted in Hi as (E & El & -> & -> & Hsep & Hb).
  apply outcome_bind_Done in Hs as ([e' sc'] & He & Hs). injection Hs as <-. simpl.
  assert (∃ P, (if b then sep :: rest sc else rest sc) = P ++ rest sc') as [P EP].
  { destruct b; [|injection He as _ <-; by exists []]. apply read_expected_rest in He as [P EP].
    exists (sep :: P). by rewrite EP. }
  exists E, P. split_and!; [by rewrite El, EP|done|]. intros r2 pos2 Y e T HY Hr2. rewrite Hp. simpl.
  rewrite Hr2. destruct (read_input_again E Y (rewrite_buffer r2) [] (count (scanner r2)) Hsep) as [k ->].
  destruct (HY k) as [k' Hk]. simpl. rewrite Hk. simpl. by eexists.
Qed.

Lemma next_again ls : ∀ r n r', next_loop r n ls = Done (r', Ok true) →
  ∃ E P, E ≠ [] ∧ ls = E ++ P ++ rest (scanner r') ∧ rewrite_buffer r' = emits (rewrite_buffer r) E ∧
  ∀ r2 n2 Y e T, expects Y e T →
  ∃ r3, next_loop r2 n2 (E ++ sep :: Y) = Done (r3, Ok true) ∧ same_case (data r') (data r3) ∧
    TestData.expected (data r3) = e ∧ rest (scanner r3) = T ∧ rewrite_buffer r3 = emits (rewrite_buffer r2) E.
Proof.
  induction ls as [|l ls IH]; intros r n r'; cbn [next_loop]; [done|]. fold (skips l). destruct (skips l) eqn:Hk.
  - intros (E & P & HE & -> & Hrb & Ha)%IH. exists (l :: E), P. simpl in Hrb. rewrite emits_cons.
    split_and!; [done|done|done|]. intros r2 n2 Y e T HY. cbn [app next_loop]. fold (skips l). rewrite Hk, emits_cons.
    eapply Ha in HY. exact HY.
  - intros Hs. apply outcome_bind_Done in Hs as ([[[rb pos] line] sc] & Hw & Hs).
    apply read_wrapped_again in Hw as (E1 & -> & -> & Hw). apply read_directive_again in Hs as (E2 & P & Hr & Hrb & Ha).
    simpl in Hr, Hrb. exists (l :: E1 ++ E2), P.
    split_and!; [done|cbn [app]; by rewrite Hr, <-app_assoc|by rewrite Hrb, emits_cons, emits_app|].
    intros r2 n2 Y e T HY. cbn [app next_loop]. fold (skips l). rewrite Hk, <-app_assoc.
    destruct (Hw (emit (rewrite_buffer r2) l) n2 (n2 +w 1) (E2 ++ sep :: Y)) as (p3 & n3 & Hw2).
    simpl in Hw2 |- *. rewrite Hw2. simpl.
    match goal with |- context [read_directive ?x p3 line] =>
      destruct (Ha x p3 Y e T HY eq_refl) as (r3 & -> & A2 & A3 & A4 & A5) end.
    exists r3. simpl in A5. by rewrite A5, emits_cons, emits_app.
Qed.

(** A file without directives. *)
Lemma next_none ls : ∀ r n r', next_loop r n ls = Done (r', Ok false) →
  Forall (λ l, skips l = true) ls ∧ rewrite_buffer r' = emits (rewrite_buffer r) ls.
Proof.
  induction ls as [|l ls IH]; intros r n r'; cbn [next_loop]; [intros [= <-]; by rewrite emits_nil|].
  fold (skips l). destruct (skips l) eqn:Hk.
  - intros [Hf Hrb]%IH. simpl in Hrb. rewrite emits_cons. by split; [constructor|].
  - intros Hs. apply outcome_bind_Done in Hs as ([[[rb pos] line] sc] & _ & Hs). unfold read_directive in Hs.
    apply outcome_bind_Done in Hs as ([[[|c cmd] args]|e] & _ & Hs); try done.
    destruct (read_input _ _ _ _) as [[[rb' buf] b] sc']. by apply outcome_bind_Done in Hs as ([e' sc2] & _ & Hs).
Qed.

Lemma next_skips ls : ∀ r n, Forall (λ l, skips l = true) ls →
  ∃ r', next_loop r n ls = Done (r', Ok false) ∧ rewrite_buffer r' = emits (rewrite_buffer r) ls.
Proof.
  induction ls as [|l ls IH]; intros r n Hf; cbn [next_loop]; [rewrite emits_nil; by eexists|].
  inv Hf. fold (skips l). rewrite H1, emits_cons. destruct (IH (r <| rewrite_buffer := emit (rewrite_buffer r) l |>) (n +w 1) H2) as (r' & -> & E). by exists r'.
Qed.

(** ** What is written for a result *)

(** Results that a file can hold as they are: no line is a separator, none ends
    in a carriage return, and those that are blank are so to [BLANK_LINE_RE]. *)
Definition tame_line (l : Str) : Prop := l ≠ sep ∧ last l ≠ Some 13 ∧ (trim l = [] → forallb blank_char l = true).
Definition tame (out : Str) : Prop := Forall tame_line (split newline out).

(** The result with its last newline. *)
Definition terminated (out : Str) : Str :=
  if negb (bool_decide (out = [])) && negb (bool_decide (last out = Some 10)) then out ++ [10] else out.

Lemma split_nonempty p s : split p s ≠ [].
Proof. destruct s as [|c s]; simpl; [done|]. destruct (p c); [done|]. by destruct (split p s). Qed.

Lemma split_snoc out : split newline (out ++ [10]) = split newline out ++ [[]].
Proof.
  induction out as [|c out IH]; [done|]. simpl. rewrite IH. destruct (newline c); [done|].
  pose proof (split_nonempty newline out). by destruct (split newline out).
Qed.

Lemma terminated_lines out : tame out →
  ∃ A, terminated out = unlines A ∧ Forall proper A ∧ Forall tame_line A.
Proof.
  intros Ht. assert (∃ A, terminated out = unlines A ∧ Forall tame_line A ∧ Forall (Forall (λ c, newline c = false)) A)
    as (A & E & Ht' & Hn).
  { unfold terminated. case_bool_decide as H1; [exists []; by subst|]. case_bool_decide as H2; simpl.
    - destruct (split_terminated out H2) as (A & E & ->). exists A. unfold tame in Ht. pose proof (split_pieces newline (unlines A)) as Hp.
      rewrite E in Ht, Hp. apply Forall_app in Ht as [? _]. apply Forall_app in Hp as [Hp _]. split_and!; try done.
      eapply Forall_impl; [exact Hp|]. intros l Hl. eapply Forall_impl; [exact Hl|]. naive_solver.
    - destruct (split_terminated (out ++ [10])) as (A & E & Ea); [apply last_snoc|]. exists A. rewrite split_snoc in E.
      apply app_inj_tail in E as [E _]. subst A. split_and!; [done|exact Ht|]. eapply Forall_impl; [apply split_pieces|].
      intros l Hl. eapply Forall_impl; [exact Hl|]. naive_solver. }
  exists A. split_and!; try done. apply Forall_forall. intros l Hl. rewrite Forall_forall in Ht', Hn. split; [by apply Hn|].
  by apply Ht'.
Qed.

(** The lines that a result is written as, before the blank line after them. *)
Definition written (A : list Str) : list Str :=
  if existsb (forallb blank_char) A then sep :: A ++ [sep; sep] else A.

Lemma written_expected A T : Forall tame_line A → (T = [] ∨ head T = Some []) → expects (written A ++ T) (unlines A) (tail T).
Proof.
  intros Ht HT k. unfold written. destruct (existsb _ _) eqn:Ex.
  - cbn [app]. unfold read_expected. cbn [rest count]. rewrite bool_decide_eq_true_2, <-app_assoc by done. cbn [app].
    destruct (read_double_lines A [] (k +w 1) T) as [k' ->]; [|done|by exists k'].
    intros Hin. rewrite Forall_forall in Ht. by apply Ht in Hin as [? _].
  - assert (Forall solid A) as Hs.
    { apply Forall_forall. intros l Hl Hbl. rewrite Forall_forall in Ht. apply Ht in Hl as Hl'. destruct Hl' as (_ & _ & Hb).
      assert (existsb (forallb blank_char) A = true); [|congruence]. apply existsb_exists. exists l. split; [by apply list_elem_of_In|auto]. }
    unfold read_expected. simpl. destruct A as [|a A]; simpl.
    + destruct HT as [->|HT]; [by exists k|]. destruct T as [|t T]; [done|]. injection HT as ->. simpl.
      exists (k +w 1). by destruct T.
    + inv Ht. inv Hs. rewrite bool_decide_eq_false_2 by apply H1.
      destruct (read_single_lines A [] a (k +w 1) T) as [k' ->]; [done..|]. by exists k'.
Qed.

Lemma push_line_text b A : push_line b (unlines A) = b ++ unlines (A ++ [[]]).
Proof. by rewrite unlines_app. Qed.

Section rewriting.
Context {σ : Type} (case : σ → TestData.t → σ * Str).
#[local] Set Default Proof Using "All".
Hypothesis case_text : ∀ s d d', same_case d d' → case s d' = case s d.
Hypothesis case_tame : ∀ s d, tame (case s d).2.

Lemma run_directive_written s r b : rewrite_buffer r = Some b →
  ∃ A, Forall proper A ∧ Forall tame_line A ∧ terminated (case s (data r)).2 = unlines A ∧
  run_directive case s r = Done ((case s (data r)).1, r <| rewrite_buffer := emits (Some b) (sep :: written A ++ [[]]) |>).
Proof.
  intros Hb. destruct (terminated_lines _ (case_tame s (data r))) as (A & E & Hp & Ht). exists A. split_and!; try done.
  unfold run_directive. destruct (case s (data r)) as [s1 out]. simpl in *. rewrite Hb. fold (terminated out). rewrite E.
  rewrite has_blank_unlines by done. unfold written. do 4 f_equal. simpl. destruct (existsb _ _); simpl; do 2 f_equal.
  - rewrite !push_line_unlines, <-!app_assoc. by rewrite <-!unlines_app.
  - rewrite (push_line_unlines b), push_line_text, <-app_assoc. by rewrite <-unlines_app.
Qed.

Lemma run_directive_again s r r2 A : rewrite_buffer r2 = None → same_case (data r) (data r2) →
  terminated (case s (data r)).2 = unlines A → TestData.expected (data r2) = unlines A →
  run_directive case s r2 = Done ((case s (data r)).1, r2).
Proof.
  intros Hrb Hs E Ee. unfold run_directive. rewrite (case_text _ _ _ Hs). destruct (case s (data r)) as [s1 out]. simpl in *.
  rewrite Hrb. fold (terminated out). rewrite E, Ee. by rewrite bool_decide_eq_true_2.
Qed.

(** What rewriting wrote passes, with or without its last blank line. *)
Lemma run_loop_again fuel : ∀ s r b s' r', rewrite_buffer r = Some b → Forall proper (rest (scanner r)) →
  run_loop case fuel s r = Done (Some (s', r', Ok ())) →
  ∃ L, rewrite_buffer r' = Some (b ++ unlines L) ∧ Forall proper L ∧
  ∀ L2 r2 fuel2, L2 = L ∨ L = L2 ++ [[]] → rest (scanner r2) = L2 → rewrite_buffer r2 = None → (length L2 < fuel2)%nat →
  ∃ r3, run_loop case fuel2 s r2 = Done (Some (s', r3, Ok ())) ∧ rewrite_buffer r3 = None.
Proof.
  induction fuel as [|fuel IH]; intros s r b s' r' Hb Hp; cbn [run_loop]; [done|]. intros Hs.
  apply outcome_bind_Done in Hs as ([r1 [[]|]] & Hn & Hs); [..|done]; unfold next in Hn.
  - apply next_again in Hn as (E & P & HE & El & Hrb & Ha). rewrite Hb in Hrb. simpl in Hrb.
    destruct (run_directive_written s r1 _ Hrb) as (A & HpA & HtA & EA & Hd).
    rewrite Hd in Hs. simpl in Hs. rewrite El in Hp. apply Forall_app in Hp as [HpE [_ Hp]%Forall_app].
    apply (IH _ _ (b ++ unlines E ++ unlines (sep :: written A ++ [[]]))) in Hs as (L' & Hrb' & HpL & Hag);
      [|simpl; by rewrite <-app_assoc|done].
    exists ((E ++ sep :: written A) ++ [[]] ++ L'). split_and!.
    + rewrite Hrb', <-!app_assoc, <-!unlines_app. do 4 f_equal. cbn [app]. by rewrite <-!app_assoc.
    + assert (proper sep) as Hsep by (split; [by repeat constructor|done]).
      repeat apply Forall_app_2; try done; [|by repeat constructor]. constructor; [done|].
      unfold written. destruct (existsb _ _); [|done]. constructor; [done|]. apply Forall_app_2; [done|by repeat constructor].
    + intros L2 r2 fuel2 HL Hr2 Hn2 Hf.
      assert (∃ T, L2 = E ++ sep :: written A ++ T ∧ (T = [] ∨ head T = Some []) ∧ (tail T = L' ∨ L' = tail T ++ [[]])) as (T & -> & HT & HL').
      { destruct HL as [->|HL]; [exists ([[]] ++ L'); rewrite <-app_assoc; by auto|].
        destruct L' as [|x L' _] using rev_ind.
        - rewrite app_nil_r in HL. apply app_inj_tail in HL as [<- _]. exists []. rewrite app_nil_r. auto.
        - rewrite !app_assoc in HL. apply app_inj_tail in HL as [<- ->]. exists ([[]] ++ L'). rewrite <-!app_assoc. auto. }
      destruct fuel2 as [|fuel2]; [lia|]. cbn [run_loop]. unfold next. rewrite Hr2.
      destruct (Ha r2 (count (scanner r2)) _ _ _ (written_expected A T HtA HT)) as (r3 & -> & A1 & A2 & A3 & A4).
      rewrite Hn2 in A4. simpl in A4 |- *. rewrite (run_directive_again s r1 r3 A) by done. simpl.
      apply (Hag (tail T)); [destruct HL'; auto|done|done|]. rewrite length_app in Hf. simpl in Hf. rewrite length_app in Hf.
      destruct T; simpl in *; lia.
  - injection Hs as <- <-. apply next_none in Hn as [Hk Hrb]. rewrite Hb in Hrb. exists (rest (scanner r)).
    split_and!; [done|done|]. intros L2 r2 fuel2 HL Hr2 Hn2 Hf. destruct fuel2 as [|fuel2]; [lia|]. cbn [run_loop].
    unfold next. rewrite Hr2. destruct (next_skips L2 r2 (count (scanner r2))) as (r3 & -> & E3).
    { destruct HL as [->|HL]; [done|]. rewrite HL in Hk. by apply Forall_app in Hk as [? _]. }
    simpl. exists r3. by rewrite E3, Hn2.
Qed.

(** Every directive read takes a line. *)
Lemma run_loop_ends fuel : ∀ s r, (length (rest (scanner r)) < fuel)%nat → run_loop case fuel s r ≠ Done None.
Proof using.
  induction fuel as [|fuel IH]; intros s r Hf; [lia|]. cbn [run_loop]. destruct (next r) as [[r1 [[]|]]|] eqn:Hn; simpl; try done.
  destruct (run_directive case s r1) as [[s2 r2]|] eqn:Hd; [|done]. simpl. apply IH.
  apply next_again in Hn as (E & P & HE & El & _). rewrite El, !length_app in Hf.
  assert (scanner r2 = scanner r1) as ->.
  { unfold run_directive in Hd. destruct (case s (data r1)) as [s3 out]. destruct (rewrite_buffer r1).
    - by injection Hd as _ <-.
    - apply outcome_bind_Done in Hd as (u & _ & Hd). by injection Hd as _ <-. }
  destruct E; [done|]. simpl in Hf. lia.
Qed.
End rewriting.

(** ** Arguments *)

Lemma span_app p a b : Forall (λ c, p c = true) a → (∀ c, head b = Some c → p c = false) → span p (a ++ b) = (a, b).
Proof.
  intros Ha Hb. induction Ha as [|c a Hc _ IH]; simpl.
  - destruct b as [|c b]; [done|]. simpl. by rewrite (Hb c).
  - by rewrite Hc, IH.
Qed.

Lemma span_split p s a b : span p s = (a, b) → s = a ++ b.
Proof.
  revert a b. induction s as [|c s IH]; intros a b; simpl; [by intros [= <- <-]|]. destruct (p c); [|by intros [= <- <-]].
  destruct (span p s) as [a' b']. intros [= <- <-]. simpl. by rewrite (IH _ _ eq_refl).
Qed.

Lemma match_end_split m s x : match_end m s = Some x → m ≠ [] → m ++ s = x.1 ++ x.2 ∧ x.1 ≠ [].
Proof.
  unfold match_end. destruct s as [|c s]; [intros [= <-]; done|]. destruct (c =? 32); [|done]. intros [= <-] Hm. simpl.
  rewrite <-app_assoc. split; [done|]. by destruct m.
Qed.

(** A match is a part of the line and not empty. *)
Lemma re_captures_split line x : re_captures line = Some x → line = x.1 ++ x.2 ∧ x.1 ≠ [].
Proof.
  unfold re_captures. destruct (span _ line) as [blank s0] eqn:E0. apply span_split in E0 as ->.
  destruct (span key_char s0) as [k s] eqn:E1. apply span_split in E1 as ->. case_bool_decide as Hk; [done|].
  assert (∀ t, blank ++ k ++ t ≠ []) as Hne by (intros t; destruct blank; [by destruct k|done]).
  assert (match_end (blank ++ k) s = Some x → blank ++ k ++ s = x.1 ++ x.2 ∧ x.1 ≠ []) as Hplain.
  { intros [E ?]%match_end_split; [by rewrite <-app_assoc in E|]. specialize (Hne []). by rewrite app_nil_r in Hne. }
  destruct s as [|c s]; [exact Hplain|].
  destruct (decide (c = 61)) as [->|Hc].
  - destruct (span val_char s) as [v s'] eqn:E2. apply span_split in E2 as Es.
    destruct (match_end (blank ++ k ++ 61 :: v) s') as [y|] eqn:Em.
    + intros [= <-]. apply match_end_split in Em as [E ?]; [|apply Hne]. rewrite Es. split; [|done]. rewrite <-E, <-!app_assoc. done.
    + clear Em E2 Es v s'. destruct s as [|c s]; [done|]. destruct (decide (c = 40)) as [->|Hc].
      * destruct (span _ s) as [v s'] eqn:E2. apply span_split in E2 as ->. destruct s' as [|d s']; [done|].
        destruct (decide (d = 41)) as [->|Hd].
        -- intros [E ?]%match_end_split; [|apply Hne]. split; [|done]. rewrite <-E, <-!app_assoc. cbn [app]. by rewrite <-app_assoc.
        -- intros Hx. exfalso. destruct d as [|p]; [done|]. do 6 (destruct p as [p|p|]; try done).
      * intros Hx. exfalso. destruct c as [|p]; [done|]. do 6 (destruct p as [p|p|]; try done).
  - intros Hx. apply Hplain. destruct c as [|p]; [done|]. do 6 (destruct p as [p|p|]; try done).
Qed.

Lemma split_loop_total fuel : ∀ origin line, (length line ≤ fuel)%nat → is_Some (split_loop fuel origin line).
Proof.
  induction fuel as [|fuel IH]; intros origin [|c line] Hf; cbn [split_loop]; try (by eexists); [simpl in Hf; lia|].
  destruct (re_captures (c :: line)) as [[a b]|] eqn:E; [|by eexists].
  apply re_captures_split in E as [E Ha]. simpl in E, Ha. destruct (IH origin b) as [x ->].
  { apply (f_equal length) in E. rewrite length_app in E. simpl in E, Hf. destruct a; [done|]. simpl in E. lia. }
  by eexists.
Qed.

Lemma parse_line_total line : is_Some (parse_line line).
Proof.
  unfold parse_line, split_directives. destruct (split_loop_total (length line) line line) as [x ->]; [done|]. by eexists.
Qed.

(** Arguments that a line can spell: several values are separated by commas and
    stand in parentheses, a single one does without. *)
Definition plain_key (k : Str) : Prop := k ≠ [] ∧ Forall (λ c, key_char c = true) k.
Definition plain_value (v : Str) : Prop := trim v = v ∧ Forall (λ c, c ≠ 41 ∧ c ≠ 44) v.
Definition plain_arg (a : CmdArg) : Prop :=
  plain_key (key a) ∧
  match vals a with
  | [] => True
  | [v] => Forall (λ c, val_char c = true) v
  | vs => Forall plain_value vs
  end.

(** A directive line. *)
Definition show_line (cmd : Str) (args : list CmdArg) : Str := cmd ++ concat ((λ a, 32 :: show_arg a) <$> args).

Lemma key_char_plain c : key_char c = true → is_whitespace c = false ∧ c ≠ 61 ∧ c ≠ 32 ∧ val_char c = true.
Proof.
  intros Hc. split_and!.
  - unfold key_char, is_alnum, is_whitespace in *. repeat (apply orb_true_iff in Hc as [Hc|Hc]);
      repeat (apply andb_true_iff in Hc as [? Hc]); rewrite ?N.leb_le, ?N.eqb_eq in *;
      rewrite !orb_false_iff, !andb_false_iff, !N.leb_gt, !N.eqb_neq; lia.
  - by intros ->.
  - by intros ->.
  - unfold val_char. by rewrite Hc.
Qed.

Lemma val_char_plain c : val_char c = true → is_whitespace c = false ∧ c ≠ 40 ∧ c ≠ 32.
Proof.
  unfold val_char. intros [[[Hc| ->%N.eqb_eq]%orb_true_iff| ->%N.eqb_eq]%orb_true_iff| ->%N.eqb_eq]%orb_true_iff; try done.
  destruct (key_char_plain c Hc) as (? & _ & ? & _). split_and!; [done| |done]. by intros ->.
Qed.

(** The forms a token has. *)
Inductive token : Str → Prop :=
| tok_key k : plain_key k → token k
| tok_value k v : plain_key k → Forall (λ c, val_char c = true) v → token (k ++ 61 :: v)
| tok_values k v : plain_key k → Forall (λ c, c ≠ 41) v → token (k ++ 61 :: 40 :: v ++ [41]).

Lemma key_span k b : plain_key k → (∀ c, head b = Some c → key_char c = false) →
  span (λ c, c =? 32) (k ++ b) = ([], k ++ b) ∧ span key_char (k ++ b) = (k, b).
Proof.
  intros [Hne Hk] Hb. split; [|by apply span_app]. destruct k as [|c k]; [done|]. simpl. inv Hk.
  destruct (key_char_plain c) as (_ & _ & Hc & _); [done|]. by rewrite (proj2 (N.eqb_neq _ _) Hc).
Qed.

Lemma token_captures t s : token t → s = [] ∨ head s = Some 32 → re_captures (t ++ s) = match_end t s.
Proof.
  intros Ht Hs. assert (∀ p c, p 32 = false → head s = Some c → p c = false) as Hh.
  { intros p c Hp Hc. destruct Hs as [->|Hs]; [done|]. rewrite Hs in Hc. by injection Hc as <-. }
  assert (∀ m, is_Some (match_end m s)) as Hend.
  { intros m. destruct Hs as [->|Hs]; [by eexists|]. destruct s as [|c s]; [done|]. injection Hs as ->. by eexists. }
  unfold re_captures. destruct Ht as [k Hk|k v Hk Hv|k v Hk Hv].
  - destruct (key_span k s Hk) as [-> ->]; [intros c; by apply Hh|]. rewrite bool_decide_eq_false_2 by apply Hk.
    destruct Hs as [->|Hs]; [done|]. destruct s as [|c s]; [done|]. injection Hs as ->. done.
  - rewrite <-app_assoc. cbn [app]. destruct (key_span k (61 :: v ++ s) Hk) as [-> ->]; [by intros c [= <-]|].
    rewrite bool_decide_eq_false_2 by apply Hk. rewrite (span_app val_char v s); [|done|intros c; by apply Hh].
    cbn [app]. destruct (Hend (k ++ 61 :: v)) as [x Hx]. by rewrite Hx.
  - rewrite <-app_assoc. cbn [app]. rewrite <-app_assoc. cbn [app].
    destruct (key_span k (61 :: 40 :: v ++ 41 :: s) Hk) as [-> ->]; [by intros c [= <-]|].
    rewrite bool_decide_eq_false_2 by apply Hk. cbn [span]. change (val_char 40) with false. cbn [app match_end].
    change (40 =? 32) with false. cbv iota. rewrite (span_app _ v (41 :: s)); [done| |by intros c [= <-]].
    eapply Forall_impl; [exact Hv|]. intros c Hc. simpl. by rewrite (proj2 (N.eqb_neq _ _) Hc).
Qed.

Lemma token_ends t : token t → (∃ c, head t = Some c ∧ is_whitespace c = false) ∧ (∀ c, last t = Some c → is_whitespace c = false).
Proof.
  assert (∀ P (l : Str) c, Forall P l → last l = Some c → P c) as Hl.
  { intros P l c Hf [l' ->]%last_Some. apply Forall_app in Hf as [_ Hf]. by rewrite Forall_singleton in Hf. }
  assert (∀ k b, plain_key k → ∃ c, head (k ++ b) = Some c ∧ is_whitespace c = false) as Hh.
  { intros k b [Hne Hk]. destruct k as [|c k]; [done|]. inv Hk. exists c. split; [done|]. by apply key_char_plain. }
  intros [k Hk|k v Hk Hv|k v Hk Hv]; (split; [first [by apply Hh|rewrite <-(app_nil_r k); by apply Hh]|]); intros c Hc.
  - apply (Hl _ _ _ (proj2 Hk)) in Hc. by apply key_char_plain.
  - rewrite last_app_cons in Hc. destruct v as [|d v]; [by injection Hc as <-|].
    change (last (d :: v) = Some c) in Hc. apply (Hl _ _ _ Hv) in Hc. by apply val_char_plain.
  - rewrite app_comm_cons, app_comm_cons, app_assoc, last_snoc in Hc. by injection Hc as <-.
Qed.

Lemma token_trim t : token t → trim t = t ∧ trim (t ++ [32]) = t.
Proof.
  intros [(c & Hh & Hc) Hl]%token_ends. split.
  - apply trim_id; [|done]. intros d Hd. congruence.
  - unfold trim. rewrite (drop_while_stop _ (t ++ [32])) by (destruct t as [|e t]; [done|]; intros d [= <-]; by injection Hh as ->).
    rewrite reverse_snoc. cbn [drop_while]. change (is_whitespace 32) with true. cbv iota.
    rewrite drop_while_stop; [apply reverse_involutive|]. by rewrite head_reverse.
Qed.

Lemma split_loop_step fuel origin line a b : line ≠ [] → re_captures line = Some (a, b) →
  split_loop (S fuel) origin line =
    (r ← split_loop fuel origin b; Some (match r with Ok res => Ok (trim a :: res) | Err e => Err e end)).
Proof. intros Hne E. destruct line as [|c line]; [done|]. cbn [split_loop]. by rewrite E. Qed.

Lemma split_loop_tokens ts fuel origin t : token t → Forall token ts →
  (length (t ++ concat ((λ t, 32%N :: t) <$> ts)) ≤ fuel)%nat →
  split_loop fuel origin (t ++ concat ((λ t, 32 :: t) <$> ts)) = Some (Ok (t :: ts)).
Proof.
  intros Ht Hts. revert fuel t Ht. induction Hts as [|u ts Hu Hts IH]; intros fuel t Ht Hf;
    (assert (t ≠ []) as Hne by (intros ->; by destruct (token_ends [] Ht) as [(? & ? & _) _]));
    (destruct fuel as [|fuel]; [rewrite length_app in Hf; destruct t; [done|simpl in Hf; lia]|]).
  - pose proof (token_captures t [] Ht (or_introl eq_refl)) as Hc. cbn [fmap list_fmap concat]. rewrite app_nil_r in *.
    erewrite split_loop_step by done. destruct fuel; cbn; by rewrite (proj1 (token_trim _ Ht)).
  - rewrite fmap_cons, concat_cons in *. cbn [app] in *.
    erewrite split_loop_step; [|by destruct t|rewrite token_captures by auto; reflexivity].
    rewrite IH; [cbn; by rewrite (proj2 (token_trim _ Ht))|done|].
    rewrite length_app in Hf. cbn [length] in Hf. destruct t; [done|]. cbn [length] in Hf. lia.
Qed.

Lemma split_join vs : vs ≠ [] → Forall plain_value vs → split (λ c, c =? 44) (join vs) = vs.
Proof.
  assert (∀ v, plain_value v → Forall (λ c, (c =? 44) = false) v) as Hp.
  { intros v [_ Hv]. eapply Forall_impl; [exact Hv|]. intros c [_ Hc]. by apply N.eqb_neq. }
  intros Hne Hvs. destruct Hvs as [|v vs Hv Hvs]; [done|]. clear Hne. unfold join.
  revert v Hv. induction Hvs as [|w vs Hw Hvs IH]; intros v Hv; simpl; [rewrite app_nil_r; by apply split_plain, Hp|].
  rewrite split_sep; [|by apply Hp|done]. by rewrite IH.
Qed.

Lemma join_plain vs : Forall plain_value vs → Forall (λ c, c ≠ 41) (join vs).
Proof.
  assert (∀ v, plain_value v → Forall (λ c, c ≠ 41) v) as Hp.
  { intros v [_ Hv]. eapply Forall_impl; [exact Hv|naive_solver]. }
  intros Hvs. destruct Hvs as [|v vs Hv Hvs]; [done|]. simpl. apply Forall_app. split; [by apply Hp|].
  induction Hvs as [|w vs Hw Hvs IH]; simpl; [done|]. constructor; [done|]. apply Forall_app. split; [by apply Hp|done].
Qed.

Lemma show_arg_token a : plain_arg a → token (show_arg a).
Proof.
  unfold plain_arg, show_arg. intros [Hk Hv]. destruct (vals a) as [|v [|w vs]].
  - by constructor.
  - by constructor.
  - apply tok_values; [done|]. by apply join_plain.
Qed.

Lemma splitn2_key k v : plain_key k → splitn2 k = (k, None) ∧ splitn2 (k ++ 61 :: v) = (k, Some v).
Proof.
  intros [_ Hk]. assert (Forall (λ c, negb (c =? 61) = true) k) as Hk'.
  { eapply Forall_impl; [exact Hk|]. intros c Hc. destruct (key_char_plain c Hc) as (_ & Hn & _). by rewrite (proj2 (N.eqb_neq _ _) Hn). }
  unfold splitn2. split; [|by rewrite (span_app _ k (61 :: v)) by (done || by intros c [= <-])].
  rewrite <-(app_nil_r k) at 1. by rewrite (span_app _ k []).
Qed.

Lemma parse_show_arg a : plain_arg a → parse_arg (show_arg a) = a.
Proof.
  unfold plain_arg, show_arg, parse_arg. destruct a as [k vs]. cbn [key vals]. intros [Hk Hv]. destruct vs as [|v [|w vs]].
  - by rewrite (proj1 (splitn2_key k [] Hk)).
  - rewrite (proj2 (splitn2_key k v Hk)). rewrite (bool_decide_eq_false_2 (head v = _)); [done|]. intros Hh.
    destruct v as [|c v]; [done|]. injection Hh as ->. by inv Hv.
  - pose proof (split_join (v :: w :: vs) ltac:(done) Hv) as Hj. set (j := join (v :: w :: vs)) in *.
    rewrite (proj2 (splitn2_key k _ Hk)). rewrite bool_decide_eq_true_2 by done.
    rewrite app_comm_cons, last_snoc, bool_decide_eq_true_2 by done. cbn [andb app drop length]. rewrite length_app, drop_0.
    replace (S (length j + length [41%N]) - 2)%nat with (length j) by (simpl; lia). rewrite take_app_length, Hj.
    f_equal. clear Hk Hj j. induction Hv as [|x xs [Hx _] _ IH]; [done|].
    rewrite fmap_cons. by rewrite Hx, IH.
Qed.

(** Directive lines round trip.  A line made of a command and arguments as
    [Display] writes them (a key alone, with one value, or with several in
    parentheses) is parsed into that command and those arguments. *)
Theorem directive_roundtrip (cmd : Str) (args : list CmdArg) (Hcmd : plain_key cmd) (Hargs : Forall plain_arg args) :
  parse_line (show_line cmd args) = Some (Ok (cmd, args)).
Proof.
  unfold parse_line, split_directives, show_line.
  assert ((λ a, 32 :: show_arg a) <$> args = (λ t, 32 :: t) <$> (show_arg <$> args)) as -> by (rewrite <-list_fmap_compose; done).
  rewrite split_loop_tokens; [|by constructor| |done].
  - cbn. do 3 f_equal. induction Hargs as [|a args Ha _ IH]; [done|]. rewrite !fmap_cons. by rewrite parse_show_arg, IH.
  - apply Forall_fmap. eapply Forall_impl; [exact Hargs|]. apply show_arg_token.
Qed.

(** One file that was rewritten passes. *)
Lemma rewritten_passes {σ} (case : σ → TestData.t → σ * Str) s s' name content text :
  (∀ s d d', same_case d d' → case s d' = case s d) → (∀ s d, tame (case s d).2) → 13 ∉ content →
  run_test_internal case s name content true = Done (Some (s', Ok (Some text))) →
  run_test_internal case s name text false = Done (Some (s', Ok None)).
Proof.
  unfold run_test_internal. intros Htext Htame Hcr Hrun.
  apply outcome_bind_Done in Hrun as ([[[s1 r1] [[]|]]|] & Hl & Hrun); try done.
  injection Hrun as -> Hw. apply (run_loop_again case Htext Htame _ _ _ []) in Hl as (L & Hrb & HpL & Ha);
    [|done|by apply lines_proper]. rewrite Hrb in Hw. simpl in Hw. injection Hw as Hw.
  destruct (pop_newline_unlines L HpL) as (L2 & E & HL2). rewrite E in Hw. subst text.
  assert (Forall proper L2) as HpL2 by (destruct HL2 as [->| ->]; [done|by apply Forall_app in HpL as [? _]]).
  rewrite lines_unlines by done.
  destruct (Ha L2 (new name (unlines L2) false) (S (length L2))) as (r3 & -> & Hn); [done|simpl; by apply lines_unlines|done|lia|].
  simpl. by rewrite Hn.
Qed.

(** Rewriting leaves a text for every file, or an error. *)
Lemma rewriting_writes {σ} (case : σ → TestData.t → σ * Str) s s' name content o :
  run_test_internal case s name content true = Done (Some (s', Ok o)) → is_Some o.
Proof.
  unfold run_test_internal. intros Hrun. apply outcome_bind_Done in Hrun as ([[[s1 r1] [[]|]]|] & Hl & Hrun); try done.
  injection Hrun as -> <-. apply fmap_is_Some.
  assert (∀ fuel s r, is_Some (rewrite_buffer r) → run_loop case fuel s r = Done (Some (s', r1, Ok ())) → is_Some (rewrite_buffer r1)) as Hk.
  { clear Hl. induction fuel as [|fuel IH]; intros s0 r0 Hr; cbn [run_loop]; [done|]. intros Hs.
    apply outcome_bind_Done in Hs as ([r2 [[]|]] & Hn & Hs); [..|done]; unfold next in Hn.
    - apply next_again in Hn as (E & P & _ & _ & Hrb & _). destruct Hr as [b Hb]. rewrite Hb in Hrb. simpl in Hrb.
      apply outcome_bind_Done in Hs as ([s3 r3] & Hd & Hs). eapply IH; [|exact Hs]. unfold run_directive in Hd.
      destruct (case s0 (data r2)) as [s4 out]. rewrite Hrb in Hd. injection Hd as <- <-. simpl. case_match; by eexists.
    - injection Hs as <- <-. apply next_none in Hn as [_ Hrb]. destruct Hr as [b Hb]. rewrite Hrb, Hb. by eexists. }
  eapply Hk; [|exact Hl]. by eexists.
Qed.

Lemma run_test_other {σ} (case : σ → TestData.t → σ * Str) files p : p ∉ files → ∀ s disk rw s' disk' x,
  run_test case s disk files rw = Done (Some (s', disk', x)) → disk' !! p = disk !! p.
Proof.
  induction files as [|q files IH]; intros Hp s disk rw s' disk' x; cbn [run_test]; [by intros [= <- <- <-]|].
  apply not_elem_of_cons in Hp as [Hne Hp]. destruct (disk !! q) as [c|]; [|by intros [= <- <- <-]]. intros Hs.
  apply outcome_bind_Done in Hs as ([[s1 [[t|]|e]]|] & _ & Hs); [| |by injection Hs as <- <- <-|done].
  - apply IH in Hs as ->; [|done]. by rewrite lookup_insert_ne.
  - by apply IH in Hs as ->.
Qed.

(** Runs end within the rounds of the model. *)
Theorem run_test_ends {σ} (case : σ → TestData.t → σ * Str) rewrite files : ∀ s disk, run_test case s disk files rewrite ≠ Done None.
Proof.
  assert (∀ s name content, run_test_internal case s name content rewrite ≠ Done None) as Hi.
  { unfold run_test_internal. intros s name content Hn. apply outcome_bind_Done in Hn as ([[[s3 r3] []]|] & Hl & Hn); try done.
    by apply run_loop_ends in Hl; [|simpl; lia]. }
  induction files as [|p files IH]; intros s disk; cbn [run_test]; [done|]. destruct (disk !! p) as [c|]; [|done].
  destruct (run_test_internal case s p c rewrite) as [[[s1 [[t|]|e]]|]|] eqn:E; simpl; try done; [apply IH..|].
  by destruct (Hi s p c).
Qed.

(** ** Properties *)

(** C34: Rewriting settles what is expected.  When test files are run in rewrite
    mode and the results of the tests depend on their commands, arguments and
    input only, the files that are written pass in test mode, with the same
    results, and stay as they are.  The results must be such that a file can
    hold them ([tame]), and the files have no carriage returns. *)
Theorem rewriting_settles {σ} (case : σ → TestData.t → σ * Str)
    (Htext : ∀ s d d', same_case d d' → case s d' = case s d) (Htame : ∀ s d, tame (case s d).2)
    (files : list Str) (Hfiles : NoDup files) (s s' : σ) (disk disk' : gmap Str Str)
    (Hcr : ∀ p content, p ∈ files → disk !! p = Some content → 13 ∉ content)
    (Hrun : run_test case s disk files true = Done (Some (s', disk', Ok ()))) :
  run_test case s disk' files false = Done (Some (s', disk', Ok ())).
Proof.
  assert (∀ d, (∀ p, p ∈ files → d !! p = disk' !! p) → run_test case s d files false = Done (Some (s', d, Ok ()))) as Hd;
    [|by apply Hd].
  revert s disk Hcr Hrun. induction Hfiles as [|p files Hp Hf IH]; intros s disk Hcr Hrun d Hd; cbn [run_test] in *.
  - by injection Hrun as <- _.
  - destruct (disk !! p) as [c|] eqn:Ep; [|done]. apply outcome_bind_Done in Hrun as ([[s1 [o|e]]|] & Hi & Hrun); try done.
    pose proof (rewriting_writes _ _ _ _ _ _ Hi) as [t ->].
    pose proof (run_test_other case files p Hp _ _ _ _ _ _ Hrun) as E. rewrite lookup_insert_eq in E.
    rewrite (Hd p) by left. rewrite E. rewrite (rewritten_passes case s s1 p c t Htext Htame (Hcr _ _ (list_elem_of_here _ _) Ep) Hi). simpl.
    apply (IH s1 (<[p := t]> disk)); [|done|]; [|intros q Hq; apply Hd; by right].
    intros q content Hq Hl. rewrite lookup_insert_ne in Hl by (by intros ->). apply (Hcr q); [by right|done].
Qed.

(** ** Witnesses of the hypotheses *)

(** The lines of test_parse_line and test_split_directives. *)
Example directive_samples :
  parse_line (lit "cmd a=1 b=(2,3) c= d") =
    Some (Ok (lit "cmd", [mkCmdArg (lit "a") [lit "1"]; mkCmdArg (lit "b") [lit "2"; lit "3"];
                          mkCmdArg (lit "c") [[]]; mkCmdArg (lit "d") []])) ∧
  split_directives (lit "cmd a=1 b=2,2,2 c=(3,33,3333)") =
    Some (Ok [lit "cmd"; lit "a=1"; lit "b=2,2,2"; lit "c=(3,33,3333)"]) ∧
  split_directives (lit "cmd a=1" ++ [10]) = Some (Err (CannotParse 5 (lit "cmd a=1" ++ [10]))) ∧
  split_directives (lit "cmd a=1 ") = Some (Ok [lit "cmd"; lit "a=1"]) ∧
  split_directives (lit "cmd a=1  ") = Some (Err (CannotParse 9 (lit "cmd a=1  "))).
Proof. vm_compute. done. Qed.

(** Tests whose result has a blank line when they have arguments, and a file
    with a comment, a wrapped directive, input and old results. *)
Definition w_case (n : nat) (d : TestData.t) : nat * Str :=
  (S n, match TestData.cmd_args d with [] => lit "plain" | _ => lit "first" ++ [10; 10] ++ lit "last" end).
Definition w_file : Str :=
  unlines [lit "# two tests"; lit "cmd a=1 \"; lit "  b=(2, 3)"; lit "input"; lit "----"; lit "old"; []; lit "other"; lit "----"].
Definition w_rewritten : Str :=
  unlines [lit "# two tests"; lit "cmd a=1 \"; lit "  b=(2, 3)"; lit "input"; lit "----"; lit "----"; lit "first"; []; lit "last";
           lit "----"; lit "----"; []; lit "other"; lit "----"; lit "plain"].

Lemma w_case_tame n d : tame (w_case n d).2.
Proof.
  unfold tame, w_case. simpl. destruct (TestData.cmd_args d); simpl; repeat constructor; try done;
    intros E; vm_compute in E; done.
Qed.

Definition w_test_disk (text : Str) : gmap Str Str := {[lit "f" := text]}.

Lemma w_rewrite_run : run_test w_case 0%nat (w_test_disk w_file) [lit "f"] true = Done (Some (2%nat, w_test_disk w_rewritten, Ok ())).
Proof. vm_compute. reflexivity. Qed.

Lemma rewriting_settles_witness :
  run_test w_case 0%nat (w_test_disk w_rewritten) [lit "f"] false = Done (Some (2%nat, w_test_disk w_rewritten, Ok ())).
Proof.
  apply (rewriting_settles w_case) with (disk := w_test_disk w_file); [|exact w_case_tame| | |exact w_rewrite_run].
  - intros n d d' (_ & E & _). unfold w_case. by rewrite E.
  - apply NoDup_singleton.
  - intros p content Hp Hc. apply list_elem_of_singleton in Hp as ->. vm_compute in Hc. injection Hc as <-.
    intros Hin. apply (bool_decide_pack _) in Hin. vm_compute in Hin. done.
Defined.

(** A result that is a separator is written so that the reader panics. *)
Theorem separator_result_breaks : let case := λ (s : unit) (_ : TestData.t), (s, sep) in
  run_test_internal case () (lit "f") (lit "cmd") true = Done (Some ((), Ok (Some (unlines [lit "cmd"; sep; sep])))) ∧
  run_test_internal case () (lit "f") (unlines [lit "cmd"; sep; sep]) false = Panicked.
Proof. split; vm_compute; reflexivity. Qed.
