(* ===== verification/Util.v ===== *)
(** * Helpers (src/src/util.rs)

    Size limits on entry batches, contiguity of batches, the majority
    function and the union of two voter sets. *)
From S2P Require Import Prelude Errors Eraftpb.

(** [NO_LIMIT]. *)
Definition NO_LIMIT : N := u64_max.

(** [INVALID_ID] and [INVALID_INDEX] (raft.rs). *)
Definition INVALID_ID : N := 0.
Definition INVALID_INDEX : N := 0.

(** The closure given to [take_while] in [limit_size]: it always keeps an
    element while nothing has been counted yet. *)
Fixpoint limit_take `{Proto} (size max : N) (l : list Entry) : list Entry :=
  match l with
  | [] => []
  | e :: l' =>
    if size =? 0 then e :: limit_take (size +w compute_size e) max l'
    else if (size +w compute_size e) <=? max
         then e :: limit_take (size +w compute_size e) max l'
         else []
  end.

Definition limit_size `{Proto} (entries : list Entry) (max : option N) : list Entry :=
  if len entries <=? 1 then entries
  else match max with
       | None => entries
       | Some m => if m =? NO_LIMIT then entries else limit_take 0 m entries
       end.

Definition is_continuous_ents (msg : Message) (ents : list Entry) : bool :=
  match last (m_entries msg), head ents with
  | Some l, Some f => (e_index l +w 1) =? e_index f
  | _, _ => true
  end.

Definition majority (total : N) : N := total / 2 + 1.

(** [Union]: a view of two sets. *)
Record Union_ : Type := mkUnion { u_first : gset N; u_second : gset N }.

Definition union_contains (u : Union_) (id : N) : bool :=
  bool_decide (id ∈ u_first u) || bool_decide (id ∈ u_second u).

Definition union_iter `{HashOrder} (u : Union_) : list N := set_iter (u_first u ∪ u_second u).

Definition union_is_empty (u : Union_) : bool :=
  bool_decide (u_first u = ∅) && bool_decide (u_second u = ∅).

Definition union_len (u : Union_) : N :=
  N.of_nat (size (u_first u)) + N.of_nat (size (u_second u))
    - N.of_nat (size (u_second u ∩ u_first u)).

Definition entry_approximate_size (e : Entry) : N := len (e_data e) +w len (e_context e) +w 12.

(** Total size of a batch, as the limits count it. *)
Definition sum_size `{Proto} (l : list Entry) : N := foldr (λ e n, compute_size e + n) 0 l.

(** ** Facts *)

Lemma majority_pos n : 0 < majority n.
Proof. unfold majority. rewrite N.add_1_r. apply N.lt_0_succ. Qed.

Lemma majority_spec n : majority n + majority n = n + 1 ∨ majority n + majority n = n + 2.
Proof.
  unfold majority. pose proof (N.div_mod n 2 ltac:(lia)).
  pose proof (N.mod_lt n 2 ltac:(lia)).
  generalize dependent (n / 2). generalize dependent (n mod 2). intros. lia.
Qed.

Lemma majority_le n : 0 < n → majority n ≤ n.
Proof.
  intros. destruct (majority_spec n); lia.
Qed.

(** Two majorities of the same set overlap. *)
Lemma majority_overlap n : n < majority n + majority n.
Proof.
  destruct (majority_spec n); lia.
Qed.

Lemma union_len_size u : union_len u = N.of_nat (size (u_first u ∪ u_second u)).
Proof.
  unfold union_len. destruct u as [X Y]; simpl.
  pose proof (size_union_alt X Y). pose proof (size_difference_alt Y X) as Hd.
  assert (size (Y ∩ X) ≤ size Y)%nat by (apply subseteq_size; set_solver).
  lia.
Qed.

Section limit_size.
Context `{Proto}.

Lemma limit_take_prefix size max l : ∃ k, limit_take size max l = take k l.
Proof.
  revert size. induction l as [|e l IH]; intros size; [by exists 0%nat|].
  simpl. destruct (IH (size +w compute_size e)) as [k Hk]. rewrite Hk.
  destruct (size =? 0); [by exists (S k)|].
  destruct (_ <=? max); [by exists (S k) | by exists 0%nat].
Qed.

Lemma limit_size_prefix l max : ∃ k, limit_size l max = take k l ∧ (l ≠ [] → (0 < k)%nat).
Proof.
  unfold limit_size.
  assert (∃ k, l = take k l ∧ (l ≠ [] → (0 < k)%nat)) as Hall.
  { exists (length l). rewrite firstn_all. split; [done|]. destruct l; simpl; [done|lia]. }
  destruct (len l <=? 1) eqn:E; [exact Hall|].
  destruct max as [m|]; [|exact Hall].
  destruct (m =? NO_LIMIT); [exact Hall|].
  destruct (limit_take_prefix 0 m l) as [k Hk]. exists k. split; [done|].
  intros Hl. destruct l as [|e l]; [done|]. simpl in Hk.
  destruct k; [done|lia].
Qed.

Lemma limit_size_nil max : limit_size [] max = [].
Proof. done. Qed.

Lemma limit_size_nonempty l max : l ≠ [] → limit_size l max ≠ [].
Proof.
  intros Hl. destruct (limit_size_prefix l max) as (k & -> & Hk).
  specialize (Hk Hl). destruct l, k; naive_solver lia.
Qed.

Lemma limit_size_length l max : (length (limit_size l max) ≤ length l)%nat.
Proof.
  destruct (limit_size_prefix l max) as (k & -> & _). rewrite length_take. lia.
Qed.

Lemma limit_size_no_limit l : limit_size l None = l.
Proof. unfold limit_size. by destruct (_ <=? _). Qed.

Lemma limit_take_bound size max l :
  0 < size → size + sum_size l < u64_modulus → size ≤ max →
  size + sum_size (limit_take size max l) ≤ max.
Proof.
  revert size. induction l as [|e l IH]; intros size Hs Hb Hm; simpl in *; [lia|].
  destruct (N.eqb_spec size 0); [lia|].
  rewrite u64_add_small by lia.
  destruct (N.leb_spec (size + compute_size e) max); simpl; [|lia].
  specialize (IH (size + compute_size e)). lia.
Qed.
End limit_size.

(** ** Contiguous entries *)

(** [contiguous i l]: the entries of [l] have the indexes [i], [i+1], ... *)
Fixpoint contiguous (i : N) (l : list Entry) : Prop :=
  match l with
  | [] => True
  | e :: l' => e_index e = i ∧ contiguous (i + 1) l'
  end.

#[export] Instance contiguous_dec i l : Decision (contiguous i l).
Proof. revert i. induction l; simpl; apply _. Defined.

Lemma contiguous_app i l k : contiguous i (l ++ k) ↔ contiguous i l ∧ contiguous (i + len l) k.
Proof.
  revert i. induction l as [|e l IH]; intros i; simpl.
  - rewrite len_nil, N.add_0_r. tauto.
  - rewrite IH, len_cons. replace (i + 1 + len l) with (i + (len l + 1)) by lia. tauto.
Qed.

Lemma contiguous_lookup i l k e : contiguous i l → l !! k = Some e → e_index e = i + N.of_nat k.
Proof.
  revert i k. induction l as [|e' l IH]; intros i [|k] Hc Hk; simplify_eq/=; [lia|].
  destruct Hc as [_ Hc]. rewrite (IH (i + 1) k Hc Hk). lia.
Qed.

Lemma contiguous_take i l k : contiguous i l → contiguous i (take k l).
Proof. intros Hc. rewrite <-(take_drop k l) in Hc. by apply contiguous_app in Hc as [? _]. Qed.

Lemma contiguous_drop i l k : (k ≤ length l)%nat → contiguous i l → contiguous (i + N.of_nat k) (drop k l).
Proof.
  intros Hk Hc. rewrite <-(take_drop k l) in Hc. apply contiguous_app in Hc as [_ Hc].
  unfold len in Hc. by rewrite length_take_le in Hc.
Qed.

Lemma contiguous_head i e l : contiguous i (e :: l) → e_index e = i.
Proof. by intros [? _]. Qed.

Lemma contiguous_last i l e : contiguous i l → last l = Some e → e_index e + 1 = i + len l.
Proof.
  rewrite last_lookup. intros Hc He. destruct l as [|e' l]; [done|].
  rewrite (contiguous_lookup _ _ _ _ Hc He). unfold len. simpl. lia.
Qed.
