(* ===== verification/Unstable.v ===== *)
(** * The unstable part of the log (src/src/log_unstable.rs)

    Entries and snapshot not yet written to storage.  The backing buffer's
    capacity ([release_entry_buffer], [maybe_shrink_entries]) is not part of
    the model: it has no effect on the entries. *)
From S2P Require Import Prelude Errors Eraftpb Util.

Module Unstable.
Record t : Type := mk {
  snapshot : option Snapshot;
  entries : list Entry;
  entries_size : N;
  offset : N
}.
#[global] Instance eta : Eta t := λ u, mk (snapshot u) (entries u) (entries_size u) (offset u).

Definition new (off : N) : t := mk None [] 0 off.

Definition maybe_first_index (u : t) : option N :=
  (λ snap, sm_index (s_metadata snap) +w 1) <$> snapshot u.

Definition maybe_last_index (u : t) : option N :=
  match len (entries u) with
  | 0 => (λ snap, sm_index (s_metadata snap)) <$> snapshot u
  | l => Some (offset u +w l -w 1)
  end.

Definition maybe_term (u : t) (idx : N) : outcome (option N) :=
  if idx <? offset u then
    mret match snapshot u with
         | None => None
         | Some snap =>
           if idx =? sm_index (s_metadata snap) then Some (sm_term (s_metadata snap)) else None
         end
  else match maybe_last_index u with
       | None => mret None
       | Some last =>
         if last <? idx then mret None
         else e ← vget (entries u) (idx -w offset u); mret (Some (e_term e))
       end.

(** [fatal!] when the last entry is not the expected one, or absent. *)
Definition stable_entries (u : t) (index term : N) : outcome t :=
  _ ← rassert (bool_decide (snapshot u = None));
  match last (entries u) with
  | Some entry =>
    if negb (e_index entry =? index) || negb (e_term entry =? term) then Panicked
    else mret (u <| offset := e_index entry +w 1 |> <| entries := [] |> <| entries_size := 0 |>)
  | None => Panicked
  end.

Definition stable_snap (u : t) (index : N) : outcome t :=
  match snapshot u with
  | Some snap =>
    if negb (sm_index (s_metadata snap) =? index) then Panicked
    else mret (u <| snapshot := None |>)
  | None => Panicked
  end.

Definition restore (u : t) (snap : Snapshot) : t :=
  u <| entries := [] |> <| entries_size := 0 |>
    <| offset := sm_index (s_metadata snap) +w 1 |> <| snapshot := Some snap |>.

Definition must_check_outofbounds (u : t) (lo hi : N) : outcome unit :=
  if hi <? lo then Panicked
  else
    let upper := offset u +w len (entries u) in
    if (lo <? offset u) || (upper <? hi) then Panicked else mret tt.

(** [ents.iter().map(entry_approximate_size).sum()]. *)
Definition approximate_sizes (ents : list Entry) : N :=
  foldl (λ n e, n +w entry_approximate_size e) 0 ents.

Definition truncate_and_append (u : t) (ents : list Entry) : outcome t :=
  first ← vget ents 0;
  let after := e_index first in
  u ← (if after =? offset u +w len (entries u) then mret u
       else if after <=? offset u then
         mret (u <| offset := after |> <| entries := [] |> <| entries_size := 0 |>)
       else
         let off := offset u in
         _ ← must_check_outofbounds u off after;
         dropped ← vslice (entries u) (after -w off) (len (entries u));
         mret (u <| entries_size ::= λ n, foldl (λ n e, n -w entry_approximate_size e) n dropped |>
                 <| entries ::= take (N.to_nat (after -w off)) |>));
  mret (u <| entries ::= λ l, l ++ ents |>
          <| entries_size ::= λ n, n +w approximate_sizes ents |>).

Definition slice (u : t) (lo hi : N) : outcome (list Entry) :=
  _ ← must_check_outofbounds u lo hi;
  vslice (entries u) (lo -w offset u) (hi -w offset u).

(** ** Invariant *)

(** Entries are contiguous from [offset], a pending snapshot ends right before
    it, and [entries_size] is the (wrapping) total of the entries' sizes. *)
Record wf (u : t) : Prop := mk_wf {
  wf_contiguous : contiguous (offset u) (entries u);
  wf_pos : 0 < offset u;
  wf_bound : offset u + len (entries u) < u64_modulus;
  wf_snapshot snap : snapshot u = Some snap → offset u = sm_index (s_metadata snap) + 1;
  wf_size : entries_size u = approximate_sizes (entries u)
}.
End Unstable.

Import Unstable.

(** ** Sizes *)

Lemma approximate_size_lt e : entry_approximate_size e < u64_modulus.
Proof. apply u64_add_lt. Qed.

Lemma fold_sizes_acc n l : n < u64_modulus →
  foldl (λ n e, n +w entry_approximate_size e) n l = n +w approximate_sizes l.
Proof.
  revert n. induction l as [|e l IH] using rev_ind; intros n Hn.
  - unfold approximate_sizes. simpl. by rewrite u64_add_0_r.
  - unfold approximate_sizes in *. rewrite !foldl_snoc, IH, u64_add_assoc by done. done.
Qed.

Lemma approximate_sizes_lt l : approximate_sizes l < u64_modulus.
Proof. destruct l as [|e l _] using rev_ind; [done|]. unfold approximate_sizes. rewrite foldl_snoc. apply u64_add_lt. Qed.

Lemma approximate_sizes_app l k : approximate_sizes (l ++ k) = approximate_sizes l +w approximate_sizes k.
Proof. unfold approximate_sizes at 1. rewrite foldl_app. apply fold_sizes_acc, approximate_sizes_lt. Qed.

Lemma u64_sub_add_comm a b c : a < u64_modulus → b < u64_modulus → c < u64_modulus →
  a +w (b +w c) -w b = a +w c.
Proof.
  intros. rewrite (u64_add_comm b c), u64_add_assoc. by rewrite u64_add_sub by (try apply u64_add_lt; done).
Qed.

Lemma drop_sizes l k :
  foldl (λ n e, n -w entry_approximate_size e) (approximate_sizes (l ++ k)) k = approximate_sizes l.
Proof.
  rewrite approximate_sizes_app. pose proof (approximate_sizes_lt l) as Hl.
  revert Hl. generalize (approximate_sizes l) as n. intros n Hn.
  induction k as [|e k IH]; simpl; [by rewrite u64_add_0_r|].
  change (e :: k) with ([e] ++ k). rewrite approximate_sizes_app.
  unfold approximate_sizes at 1. simpl. rewrite u64_add_0_l by apply approximate_size_lt.
  rewrite u64_sub_add_comm by eauto using approximate_size_lt, approximate_sizes_lt. done.
Qed.

(** ** Operations *)

Section unstable.
Context (u : Unstable.t) (Hu : wf u).
#[local] Set Default Proof Using "Hu".

Lemma maybe_last_index_wf :
  maybe_last_index u =
  if decide (entries u = []) then sm_index ∘ s_metadata <$> snapshot u
  else Some (offset u + len (entries u) - 1).
Proof.
  unfold maybe_last_index. destruct Hu as [_ ? Hb _ _].
  destruct (decide (entries u = [])) as [->|Hne]; [done|].
  destruct (len (entries u)) as [|p] eqn:E; [destruct (entries u); [done|rewrite len_cons in E; lia]|].
  f_equal. u64_norm. lia.
Qed.

Lemma maybe_term_low idx : idx < offset u →
  maybe_term u idx = Done match snapshot u with
    | Some snap => if idx =? sm_index (s_metadata snap) then Some (sm_term (s_metadata snap)) else None
    | None => None end.
Proof. intros Hi. unfold maybe_term. by rewrite (proj2 (N.ltb_lt _ _) Hi). Qed.

Lemma maybe_term_high idx e : offset u ≤ idx →
  entries u !! N.to_nat (idx - offset u) = Some e → maybe_term u idx = Done (Some (e_term e)).
Proof.
  intros Hi He. unfold maybe_term. rewrite (proj2 (N.ltb_ge _ _) Hi), maybe_last_index_wf.
  pose proof (lookup_lt_Some _ _ _ He) as Hlt. destruct Hu as [_ _ Hb _ _]. unfold len in *.
  destruct (decide (entries u = [])) as [E|_]; [by rewrite E in He|].
  rewrite (proj2 (N.ltb_ge _ _)) by lia. u64_norm. unfold vget. by rewrite He.
Qed.

Lemma maybe_term_above idx : offset u + len (entries u) ≤ idx → maybe_term u idx = Done None.
Proof.
  intros Hi. unfold maybe_term. rewrite (proj2 (N.ltb_ge _ _)) by lia. rewrite maybe_last_index_wf.
  destruct Hu as [_ Hp Hb Hs _].
  destruct (decide (entries u = [])) as [E|_].
  - rewrite E, len_nil in Hi. destruct (snapshot u) as [snap|]; simpl; [|done].
    specialize (Hs snap eq_refl). by rewrite (proj2 (N.ltb_lt _ _)) by lia.
  - by rewrite (proj2 (N.ltb_lt _ _)) by lia.
Qed.

Lemma slice_wf lo hi :
  offset u ≤ lo → lo ≤ hi → hi ≤ offset u + len (entries u) →
  slice u lo hi = Done (take (N.to_nat (hi - lo)) (drop (N.to_nat (lo - offset u)) (entries u))).
Proof.
  intros H1 H2 H3. destruct Hu as [_ _ Hb _ _]. unfold slice, must_check_outofbounds.
  rewrite (proj2 (N.ltb_ge hi lo)) by lia. u64_norm.
  rewrite (proj2 (N.ltb_ge lo (offset u))), (proj2 (N.ltb_ge _ hi)) by lia. simpl.
  unfold vslice. rewrite !(proj2 (N.leb_le _ _)) by lia. simpl. do 2 f_equal. lia.
Qed.

(** Appending a contiguous batch keeps the entries below it and replaces the
    rest; a batch that leaves a gap panics. *)
Lemma truncate_and_append_wf a ents :
  ents ≠ [] → contiguous a ents → 0 < a → a + len ents < u64_modulus →
  a ≤ offset u + len (entries u) →
  (snapshot u ≠ None → offset u ≤ a) →
  ∃ u', truncate_and_append u ents = Done u' ∧ wf u' ∧
    snapshot u' = snapshot u ∧ offset u' = N.min a (offset u) ∧
    entries u' = take (N.to_nat (a - offset u)) (entries u) ++ ents.
Proof.
  intros Hne Hc Ha0 Ha Hle Hsn. destruct ents as [|e0 ents']; [done|]. set (ents := e0 :: ents') in *.
  pose proof (contiguous_head _ _ _ Hc) as He. destruct Hu as [Huc Hup Hub Hus Husz].
  assert (∀ u1, snapshot u1 = snapshot u → offset u1 = N.min a (offset u) →
    entries u1 = take (N.to_nat (a - offset u)) (entries u) →
    entries_size u1 = approximate_sizes (entries u1) →
    let u' := u1 <| entries ::= λ l, l ++ ents |> <| entries_size ::= λ n, n +w approximate_sizes ents |> in
    wf u' ∧ snapshot u' = snapshot u ∧ offset u' = N.min a (offset u) ∧
    entries u' = take (N.to_nat (a - offset u)) (entries u) ++ ents) as Hfin.
  { intros u1 E1 E2 E3 E4. simpl. rewrite E3. split_and!; [|done..]. split; simpl.
    - rewrite E2, E3. destruct (N.le_gt_cases a (offset u)).
      + replace (N.to_nat (a - offset u)) with 0%nat by lia. by rewrite take_0, N.min_l.
      + rewrite N.min_r by lia. apply contiguous_app. split; [by apply contiguous_take|].
        unfold len in *. rewrite length_take_le by lia. replace (offset u + _) with a by lia. done.
    - lia.
    - rewrite E2, E3, len_app. unfold len in *. rewrite length_take. lia.
    - rewrite E1, E2. intros snap Hsnap. specialize (Hsn ltac:(congruence)). rewrite N.min_r by lia. auto.
    - by rewrite E4, approximate_sizes_app. }
  unfold truncate_and_append. simpl. rewrite He. u64_norm.
  destruct (N.eqb_spec a (offset u + len (entries u))) as [E|E]; simpl.
  - eexists. split; [done|]. apply Hfin; [done|lia| |done].
    rewrite take_ge; [done|]. unfold len in *. lia.
  - destruct (N.leb_spec a (offset u)); simpl.
    + eexists. split; [done|]. apply (Hfin (u <| offset := a |> <| entries := [] |> <| entries_size := 0 |>)).
      * done.
      * simpl. lia.
      * simpl. by replace (N.to_nat (a - offset u)) with 0%nat by lia.
      * done.
    + unfold must_check_outofbounds. rewrite !(proj2 (N.ltb_ge _ _)) by u64_solve. simpl.
      unfold vslice. u64_norm. rewrite !(proj2 (N.leb_le _ _)) by lia. simpl.
      eexists. split; [done|].
      match goal with |- context [foldl ?f _ ?k] => set (fd := f); set (dropped := k) end.
      apply (Hfin (u <| entries_size ::= λ n, foldl fd n dropped |>
                     <| entries ::= take (N.to_nat (a - offset u)) |>)); simpl; [done|lia|done|].
      rewrite Husz. unfold dropped. rewrite take_ge by (rewrite length_drop; unfold len in *; lia).
      rewrite <-(take_drop (N.to_nat (a - offset u)) (entries u)) at 1. apply drop_sizes.
Qed.
End unstable.

Lemma truncate_and_append_gap u e ents :
  wf u → offset u + len (entries u) < e_index e → truncate_and_append u (e :: ents) = Panicked.
Proof.
  intros [_ _ Hb _ _] Hgap. unfold truncate_and_append. simpl. u64_norm.
  rewrite (proj2 (N.eqb_neq _ _)), (proj2 (N.leb_gt _ _)) by lia.
  unfold must_check_outofbounds. u64_norm.
  rewrite (proj2 (N.ltb_ge (e_index e) (offset u))), (proj2 (N.ltb_ge (offset u) (offset u))) by lia.
  by rewrite (proj2 (N.ltb_lt _ (e_index e))) by lia.
Qed.

Lemma restore_wf u snap : sm_index (s_metadata snap) + 1 < u64_modulus → wf (restore u snap).
Proof.
  intros Hb. split; simpl; rewrite ?len_nil; u64_norm; try done; try lia. by intros ? [= <-].
Qed.

Lemma stable_entries_wf u u' index term :
  wf u → stable_entries u index term = Done u' →
  wf u' ∧ snapshot u' = None ∧ entries u' = [] ∧ offset u' = offset u + len (entries u) ∧
  index + 1 = offset u + len (entries u).
Proof.
  intros [Hc Hp Hb Hs _]. unfold stable_entries.
  intros (? & Hn%rassert_Done%bool_decide_eq_true & Hd)%outcome_bind_Done. destruct (last (entries u)) as [e|] eqn:E; [|done].
  pose proof (contiguous_last _ _ _ Hc E).
  destruct (N.eqb_spec (e_index e) index) as [<-|]; [|done].
  destruct (N.eqb_spec (e_term e) term) as [<-|]; [|done]. simplify_outcome.
  u64_norm. split_and!; try done. split; simpl; rewrite ?len_nil; u64_norm; try done; try lia. congruence.
Qed.

Lemma stable_snap_wf u u' index :
  wf u → stable_snap u index = Done u' →
  wf u' ∧ snapshot u' = None ∧ entries u' = entries u ∧ offset u' = offset u ∧ offset u = index + 1.
Proof.
  intros [Hc Hp Hb Hs Hsz]. unfold stable_snap. destruct (snapshot u) as [snap|]; [|done].
  destruct (N.eqb_spec (sm_index (s_metadata snap)) index) as [<-|]; [|done]. intros [= <-].
  specialize (Hs snap eq_refl). split_and!; try done.
Qed.
