(* ===== verification/Storage.v ===== *)
(** * Stable storage (src/src/storage.rs)

    The [Storage] trait as a class of operations, the laws clients rely on,
    and [MemStorage], which satisfies them. *)
From S2P Require Import Prelude Errors Eraftpb Util.

(** [RaftState]. *)
Record RaftState : Type := mkRaftState { hard_state : HardState; conf_state : ConfState }.
#[export] Instance eta_RaftState : Eta RaftState := λ r, mkRaftState (hard_state r) (conf_state r).

Definition initialized (r : RaftState) : bool :=
  negb (bool_decide (conf_state r = default_ConfState)).

(** [GetEntriesFor] and [GetEntriesContext]. *)
Inductive GetEntriesFor : Type :=
| SendAppend (to term : N) (aggressively : bool)
| GenReady
| TransferLeader
| CommitByVote
| ForEmpty (can_async : bool).
Abbreviation GetEntriesContext := GetEntriesFor.

Definition can_async (c : GetEntriesContext) : bool :=
  match c with
  | SendAppend _ _ _ => true
  | ForEmpty b => b
  | _ => false
  end.

(** The trait.  [entries] and [snapshot] take a shared reference, but an
    implementation may change behind it (as [MemStorage] does): they return
    the storage they leave. *)
Class Storage (S : Type) := {
  st_initial_state : S → Result RaftState;
  st_entries : S → N → N → option N → GetEntriesContext → outcome (S * Result (list Entry));
  st_term : S → N → outcome (Result N);
  st_first_index : S → Result N;
  st_last_index : S → Result N;
  st_snapshot : S → N → N → outcome (S * Result Snapshot)
}.

(** The log a storage holds: the index before its first entry, the term of
    that index if retained, and the entries. *)
Record stable_view : Type := mkView {
  sv_dummy : N;
  sv_dummy_term : option N;
  sv_ents : list Entry
}.

(** The entries with indexes [lo <= i < hi] of a log starting after [dummy]. *)
Definition sub_entries (dummy : N) (l : list Entry) (lo hi : N) : list Entry :=
  take (N.to_nat (hi - lo)) (drop (N.to_nat (lo - dummy - 1)) l).

(** What a client may rely on: the documented behaviour of the trait's
    methods, in terms of the stored log. *)
Class StorageLaws (S : Type) `{Storage S} `{Proto} := {
  st_wf : S → Prop;
  st_view : S → stable_view;
  st_contiguous s : st_wf s → contiguous (sv_dummy (st_view s) + 1) (sv_ents (st_view s));
  st_bound s : st_wf s → sv_dummy (st_view s) + len (sv_ents (st_view s)) + 1 < u64_modulus;
  st_first_index_law s : st_wf s → st_first_index s = Ok (sv_dummy (st_view s) + 1);
  st_last_index_law s : st_wf s →
    st_last_index s = Ok (sv_dummy (st_view s) + len (sv_ents (st_view s)));
  st_term_law s i e : st_wf s → sv_dummy (st_view s) < i →
    sv_ents (st_view s) !! N.to_nat (i - sv_dummy (st_view s) - 1) = Some e →
    st_term s i = Done (Ok (e_term e));
  st_term_dummy_law s : st_wf s →
    st_term s (sv_dummy (st_view s)) =
    Done match sv_dummy_term (st_view s) with Some t => Ok t | None => Err (Store Compacted) end;
  st_entries_law s lo hi max ctx : st_wf s → sv_dummy (st_view s) < lo → lo < hi →
    hi ≤ sv_dummy (st_view s) + len (sv_ents (st_view s)) + 1 →
    ∃ s' r, st_entries s lo hi max ctx = Done (s', r) ∧ st_wf s' ∧ st_view s' = st_view s ∧
      (r = Ok (limit_size (sub_entries (sv_dummy (st_view s)) (sv_ents (st_view s)) lo hi) max) ∨
       can_async ctx = true ∧ r = Err (Store LogTemporarilyUnavailable));
  st_entries_frame s lo hi max ctx s' r : st_wf s →
    st_entries s lo hi max ctx = Done (s', r) → st_wf s' ∧ st_view s' = st_view s;
  st_snapshot_frame s request to s' r : st_wf s →
    st_snapshot s request to = Done (s', r) → st_wf s' ∧ st_view s' = st_view s
}.

(** ** The in-memory storage *)
Module MemStorage.
Record t : Type := mk {
  raft_state : RaftState;
  entries : list Entry;
  snapshot_metadata : SnapshotMetadata;
  trigger_snap_unavailable : bool;
  trigger_log_unavailable : bool;
  get_entries_context : option GetEntriesContext
}.
#[global] Instance eta : Eta t := λ c,
  mk (raft_state c) (entries c) (snapshot_metadata c) (trigger_snap_unavailable c)
    (trigger_log_unavailable c) (get_entries_context c).

Definition new : t :=
  mk (mkRaftState default_HardState default_ConfState) [] default_SnapshotMetadata false false None.

Definition set_hardstate (c : t) (hs : HardState) : t :=
  c <| raft_state ::= λ r, r <| hard_state := hs |> |>.

Definition first_index (c : t) : N :=
  match head (entries c) with
  | Some e => e_index e
  | None => sm_index (snapshot_metadata c) +w 1
  end.

Definition last_index (c : t) : N :=
  match last (entries c) with
  | Some e => e_index e
  | None => sm_index (snapshot_metadata c)
  end.

Definition has_entry_at (c : t) (index : N) : bool :=
  negb (bool_decide (entries c = [])) && (first_index c <=? index) && (index <=? last_index c).

Definition commit_to (c : t) (index : N) : outcome t :=
  _ ← rassert (has_entry_at c index);
  e0 ← vget (entries c) 0;
  e ← vget (entries c) (index -w e_index e0);
  mret (c <| raft_state ::= λ r, r <| hard_state ::= λ h,
          h <| hs_commit := index |> <| hs_term := e_term e |> |> |>).

Definition set_conf_state (c : t) (cs : ConfState) : t :=
  c <| raft_state ::= λ r, r <| conf_state := cs |> |>.

Definition apply_snapshot (c : t) (snapshot : Snapshot) : t * Result unit :=
  let meta := s_metadata snapshot in
  let index := sm_index meta in
  if index <? first_index c then (c, Err (Store SnapshotOutOfDate))
  else
    (c <| snapshot_metadata := meta |>
       <| raft_state ::= λ r, r <| hard_state ::= λ h,
            h <| hs_term := N.max (hs_term h) (sm_term meta) |> <| hs_commit := index |> |> |>
       <| entries := [] |>
       <| raft_state ::= λ r, r <| conf_state := sm_conf_state meta |> |>, Ok tt).

Definition snapshot (c : t) : outcome Snapshot :=
  let index := hs_commit (hard_state (raft_state c)) in
  term ← match index ?= sm_index (snapshot_metadata c) with
         | Eq => mret (sm_term (snapshot_metadata c))
         | Gt => e0 ← vget (entries c) 0;
                 e ← vget (entries c) (index -w e_index e0);
                 mret (e_term e)
         | Lt => Panicked
         end;
  mret (mkSnapshot [] (mkSnapshotMetadata (conf_state (raft_state c)) index term)).

(** [Vec::drain(..n)] and [Vec::drain(n..)]. *)
Definition drain_front (l : list Entry) (n : N) : outcome (list Entry) :=
  if n <=? len l then Done (drop (N.to_nat n) l) else Panicked.
Definition drain_back (l : list Entry) (n : N) : outcome (list Entry) :=
  if n <=? len l then Done (take (N.to_nat n) l) else Panicked.

Definition compact (c : t) (compact_index : N) : outcome t :=
  if compact_index <=? first_index c then mret c
  else if last_index c +w 1 <? compact_index then Panicked
  else match head (entries c) with
       | Some entry =>
         l ← drain_front (entries c) (compact_index -w e_index entry);
         mret (c <| entries := l |>)
       | None => mret c
       end.

Definition append (c : t) (ents : list Entry) : outcome t :=
  match ents with
  | [] => mret c
  | e0 :: _ =>
    if e_index e0 <? first_index c then Panicked
    else if last_index c +w 1 <? e_index e0 then Panicked
    else
      l ← drain_back (entries c) (e_index e0 -w first_index c);
      mret (c <| entries := l ++ ents |>)
  end.

Definition commit_to_and_set_conf_states (c : t) (idx : N) (cs : option ConfState) : outcome t :=
  c ← commit_to c idx;
  mret match cs with Some cs => set_conf_state c cs | None => c end.

Definition set_trigger_snap_unavailable (c : t) : t := c <| trigger_snap_unavailable := true |>.
Definition set_trigger_log_unavailable (c : t) (v : bool) : t := c <| trigger_log_unavailable := v |>.
Definition take_get_entries_context (c : t) : t * option GetEntriesContext :=
  (c <| get_entries_context := None |>, get_entries_context c).

Definition initialize_with_conf_state (c : t) (cs : ConfState) : outcome t :=
  _ ← rassert (negb (initialized (raft_state c)));
  mret (set_conf_state c cs).

Definition new_with_conf_state (cs : ConfState) : outcome t := initialize_with_conf_state new cs.

(** [impl Storage for MemStorage]. *)
Definition get_entries `{Proto} (c : t) (low high : N) (max_size : option N)
    (context : GetEntriesContext) : outcome (t * Result (list Entry)) :=
  if low <? first_index c then mret (c, Err (Store Compacted))
  else if last_index c +w 1 <? high then Panicked
  else if trigger_log_unavailable c && can_async context then
    mret (c <| get_entries_context := Some context |>, Err (Store LogTemporarilyUnavailable))
  else
    e0 ← vget (entries c) 0;
    ents ← vslice (entries c) (low -w e_index e0) (high -w e_index e0);
    mret (c, Ok (limit_size ents max_size)).

Definition term (c : t) (idx : N) : outcome (Result N) :=
  if idx =? sm_index (snapshot_metadata c) then mret (Ok (sm_term (snapshot_metadata c)))
  else
    let offset := first_index c in
    if idx <? offset then mret (Err (Store Compacted))
    else if last_index c <? idx then mret (Err (Store Unavailable))
    else e ← vget (entries c) (idx -w offset); mret (Ok (e_term e)).

Definition get_snapshot (c : t) (request_index to : N) : outcome (t * Result Snapshot) :=
  if trigger_snap_unavailable c then
    mret (c <| trigger_snap_unavailable := false |>, Err (Store SnapshotTemporarilyUnavailable))
  else
    snap ← snapshot c;
    mret (c, Ok (if sm_index (s_metadata snap) <? request_index
                 then snap <| s_metadata ::= λ m, m <| sm_index := request_index |> |> else snap)).

#[global] Instance storage `{Proto} : Storage t := {|
  st_initial_state c := Ok (raft_state c);
  st_entries := get_entries;
  st_term := term;
  st_first_index c := Ok (first_index c);
  st_last_index c := Ok (last_index c);
  st_snapshot := get_snapshot
|}.

(** ** The log it holds *)

Record wf (c : t) : Prop := mk_wf {
  wf_contiguous : contiguous (first_index c) (entries c);
  wf_first : sm_index (snapshot_metadata c) < first_index c;
  wf_bound : first_index c + len (entries c) < u64_modulus
}.

Definition view (c : t) : stable_view :=
  mkView (first_index c - 1)
    (if sm_index (snapshot_metadata c) =? first_index c - 1
     then Some (sm_term (snapshot_metadata c)) else None)
    (entries c).
End MemStorage.

Section mem_storage.
Context (c : MemStorage.t) (Hc : MemStorage.wf c).
#[local] Set Default Proof Using "Hc".
Import MemStorage.

Lemma mem_last_index : last_index c + 1 = first_index c + len (entries c).
Proof.
  destruct Hc as [Hct Hf Hb]. unfold last_index.
  destruct (last (entries c)) as [e|] eqn:E; [by apply contiguous_last|].
  apply last_None in E. unfold first_index in *. rewrite E in *. rewrite len_nil in *. simpl in *.
  destruct (N.lt_ge_cases (sm_index (snapshot_metadata c) + 1) u64_modulus); [u64_solve|].
  pose proof (u64_add_lt (sm_index (snapshot_metadata c)) 1). lia.
Qed.

Lemma mem_head e l : entries c = e :: l → e_index e = first_index c.
Proof. unfold first_index. by intros ->. Qed.

Lemma mem_term_law i e :
  first_index c - 1 < i → entries c !! N.to_nat (i - (first_index c - 1) - 1) = Some e →
  term c i = Done (Ok (e_term e)).
Proof.
  intros Hi He. pose proof mem_last_index as Hl. destruct Hc as [Hct Hf Hb].
  pose proof (lookup_lt_Some _ _ _ He) as Hlt. unfold term. unfold len in *.
  rewrite (proj2 (N.eqb_neq _ _)), !(proj2 (N.ltb_ge _ _)) by lia. u64_norm. unfold vget.
  replace (i - first_index c) with (i - (first_index c - 1) - 1) by lia. by rewrite He.
Qed.

Lemma mem_term_dummy :
  term c (first_index c - 1) = Done match sv_dummy_term (view c) with
    | Some t => Ok t | None => Err (Store Compacted) end.
Proof.
  destruct Hc as [Hct Hf Hb]. unfold term, view. simpl.
  rewrite (N.eqb_sym (first_index c - 1)). destruct (N.eqb_spec (sm_index (snapshot_metadata c)) (first_index c - 1));
    [done|]. by rewrite (proj2 (N.ltb_lt _ _)) by lia.
Qed.

Lemma mem_entries_law `{Proto} lo hi max ctx :
  first_index c - 1 < lo → lo < hi → hi ≤ first_index c - 1 + len (entries c) + 1 →
  ∃ c' r, get_entries c lo hi max ctx = Done (c', r) ∧ wf c' ∧ view c' = view c ∧
    (r = Ok (limit_size (sub_entries (first_index c - 1) (entries c) lo hi) max) ∨
     can_async ctx = true ∧ r = Err (Store LogTemporarilyUnavailable)).
Proof.
  intros Hlo Hlt Hhi. pose proof mem_last_index as Hl. destruct Hc as [Hct Hf Hb]. unfold get_entries.
  u64_norm. rewrite !(proj2 (N.ltb_ge _ _)) by lia.
  destruct (trigger_log_unavailable c && can_async ctx) eqn:Ea.
  - do 2 eexists. split_and!; [done|by split|done|]. right. split; [by destruct (can_async ctx), (trigger_log_unavailable c)|done].
  - destruct (entries c) as [|e0 l] eqn:E; [rewrite len_nil in *; lia|].
    pose proof (mem_head _ _ E) as He. cbn [vget unwrap mbind outcome_bind]. unfold vget. simpl. rewrite He.
    u64_norm. unfold vslice. rewrite !(proj2 (N.leb_le _ _)) by lia. simpl.
    do 2 eexists. split_and!; [done|by split; rewrite ?E|done|]. left. unfold sub_entries.
    do 3 f_equal; [lia|]. f_equal. lia.
Qed.

Lemma mem_entries_frame `{Proto} lo hi max ctx c' r :
  get_entries c lo hi max ctx = Done (c', r) → wf c' ∧ view c' = view c.
Proof.
  unfold get_entries. destruct (_ <? _); [intros; simplify_outcome; by split|].
  destruct (_ <? _); [done|]. destruct (_ && _); intros; simplify_outcome; [split; [by destruct Hc|done]|by split].
Qed.

Lemma mem_snapshot_frame req to c' r :
  get_snapshot c req to = Done (c', r) → wf c' ∧ view c' = view c.
Proof.
  unfold get_snapshot. destruct (trigger_snap_unavailable c); intros; simplify_outcome;
    [split; [by destruct Hc|done]|by split].
Qed.
End mem_storage.

#[export] Instance mem_storage_laws `{Proto} : StorageLaws MemStorage.t.
Proof.
  refine {| st_wf := MemStorage.wf; st_view := MemStorage.view |}.
  - intros c [Hct Hf Hb]. simpl. by rewrite N.sub_add by lia.
  - intros c [Hct Hf Hb]. simpl. lia.
  - intros c [Hct Hf Hb]. simpl. f_equal. lia.
  - intros c Hc. simpl. pose proof (mem_last_index c Hc). destruct Hc as [Hct Hf Hb]. f_equal. lia.
  - intros c i e Hc Hi He. by apply mem_term_law.
  - intros c Hc. by apply mem_term_dummy.
  - intros c lo hi max ctx Hc Hlo Hlt Hhi. by apply mem_entries_law.
  - intros c lo hi max ctx c' r Hc. by apply mem_entries_frame.
  - intros c req to c' r Hc. by apply mem_snapshot_frame.
Defined.

(** ** Changing the in-memory log *)
Section mem_changes.
Context (c : MemStorage.t) (Hc : MemStorage.wf c).
#[local] Set Default Proof Using "Hc".
Import MemStorage.

Lemma mem_append_wf a ents :
  ents ≠ [] → contiguous a ents → first_index c ≤ a → a ≤ last_index c + 1 →
  a + len ents < u64_modulus →
  ∃ c', append c ents = Done c' ∧ wf c' ∧
    view c' = (mkView (sv_dummy (view c)) (sv_dummy_term (view c))
                (take (N.to_nat (a - first_index c)) (entries c) ++ ents)).
Proof.
  intros Hne Hct Hfa Hal Hb. pose proof (mem_last_index c Hc) as Hl.
  destruct ents as [|e0 ents']; [done|]. set (ents := e0 :: ents') in *.
  pose proof (contiguous_head _ _ _ Hct) as He. destruct Hc as [Hcc Hcf Hcb]. unfold append. simpl.
  fold ents. rewrite He. u64_norm. rewrite !(proj2 (N.ltb_ge _ _)) by lia. unfold drain_back.
  rewrite (proj2 (N.leb_le _ _)) by lia. simpl. eexists. split; [done|].
  set (c' := c <| entries := _ |>).
  assert (first_index c' = first_index c) as Hf.
  { unfold first_index at 1. simpl. destruct (decide (a = first_index c)) as [->|].
    - by rewrite N.sub_diag.
    - destruct (entries c) as [|e l] eqn:E; [rewrite len_nil in *; lia|].
      destruct (N.to_nat (a - first_index c)) eqn:En; [lia|]. simpl. by apply (mem_head c Hc _ l). }
  unfold view. rewrite Hf. split; [|done]. split; rewrite ?Hf; simpl.
  - apply contiguous_app. split; [by apply contiguous_take|].
    unfold len in *. rewrite length_take_le by lia. by replace (first_index c + _) with a by lia.
  - done.
  - rewrite len_app. unfold len in *. rewrite length_take_le by lia. lia.
Qed.

Lemma mem_compact_wf k :
  first_index c < k → k ≤ last_index c →
  ∃ c', compact c k = Done c' ∧ wf c' ∧
    view c' = mkView (k - 1) None (drop (N.to_nat (k - first_index c)) (entries c)).
Proof.
  intros Hk1 Hk2. pose proof (mem_last_index c Hc) as Hl. pose proof Hc as [Hcc Hcf Hcb].
  unfold compact. u64_norm. rewrite (proj2 (N.leb_gt _ _)), (proj2 (N.ltb_ge _ _)) by lia.
  destruct (entries c) as [|e0 l] eqn:E; [rewrite len_nil in *; lia|]. change (head (e0 :: l)) with (Some e0). cbn iota.
  rewrite (mem_head c Hc _ _ E). u64_norm. unfold drain_front. rewrite (proj2 (N.leb_le _ _)) by lia.
  cbn [mbind outcome_bind]. eexists. split; [done|]. rewrite <-E in *. set (c' := c <| entries := _ |>).
  assert (contiguous k (drop (N.to_nat (k - first_index c)) (entries c))) as Hd.
  { replace k with (first_index c + N.of_nat (N.to_nat (k - first_index c))) at 1 by lia.
    apply contiguous_drop; [unfold len in *; lia|done]. }
  assert (first_index c' = k) as Hf.
  { unfold first_index at 1. simpl. destruct (drop _ (entries c)) as [|e l'] eqn:Ed.
    - apply (f_equal length) in Ed. rewrite length_drop in Ed. unfold len in *. simpl in *. lia.
    - simpl. by apply (contiguous_head _ _ l'). }
  unfold view. rewrite Hf. split.
  - split; rewrite ?Hf; simpl; [done|lia|]. unfold len in *. rewrite length_drop. lia.
  - simpl. f_equal. by rewrite (proj2 (N.eqb_neq _ _)) by lia.
Qed.

Lemma mem_apply_snapshot_wf snap :
  first_index c ≤ sm_index (s_metadata snap) → sm_index (s_metadata snap) + 1 < u64_modulus →
  (apply_snapshot c snap).2 = Ok tt ∧ wf (apply_snapshot c snap).1 ∧
  view (apply_snapshot c snap).1 =
    mkView (sm_index (s_metadata snap)) (Some (sm_term (s_metadata snap))) [].
Proof.
  intros Hf Hb. unfold apply_snapshot. rewrite (proj2 (N.ltb_ge _ _)) by lia. cbn [fst snd].
  split; [done|]. split.
  - split; unfold first_index; simpl; rewrite ?len_nil; u64_norm; [done|lia..].
  - unfold view, first_index. simpl. u64_norm. rewrite N.add_sub. by rewrite N.eqb_refl.
Qed.

(** Discarding everything forgets where the log was truncated. *)
Lemma mem_compact_all :
  entries c ≠ [] →
  ∃ c', compact c (last_index c + 1) = Done c' ∧
    first_index c' = sm_index (snapshot_metadata c) + 1 ∧ last_index c' = sm_index (snapshot_metadata c).
Proof.
  intros Hne. pose proof (mem_last_index c Hc) as Hl. pose proof Hc as [Hcc Hcf Hcb]. unfold compact.
  destruct (entries c) as [|e0 l] eqn:E; [done|]. change (head (e0 :: l)) with (Some e0). cbn iota.
  rewrite (mem_head c Hc _ _ E). u64_norm. rewrite len_cons in *.
  rewrite (proj2 (N.leb_gt _ _)), (proj2 (N.ltb_ge _ _)) by lia. unfold drain_front.
  rewrite len_cons, (proj2 (N.leb_le _ _)) by lia. cbn [mbind outcome_bind]. eexists. split; [done|].
  rewrite drop_ge by (unfold len in *; simpl; lia). unfold first_index, last_index. simpl. u64_norm. done.
Qed.
End mem_changes.

(** ** Properties *)

(** Appending a contiguous batch to the in-memory storage succeeds whenever
    it neither overlaps compacted entries nor leaves a gap, and what is read
    back afterwards is the old log up to the batch's first index followed by
    the batch, cut to the size limit. *)
Theorem mem_storage_append_read `{Proto} (c : MemStorage.t) (a : N) (ents : list Entry)
    (lo hi : N) (max : option N)
    (Hc : MemStorage.wf c) (Hne : ents ≠ []) (Hct : contiguous a ents)
    (Hfirst : MemStorage.first_index c ≤ a) (Hlast : a ≤ MemStorage.last_index c + 1)
    (Hb : a + len ents < u64_modulus)
    (Hlo : MemStorage.first_index c ≤ lo) (Hlt : lo < hi) (Hhi : hi ≤ a + len ents) :
  let log := take (N.to_nat (a - MemStorage.first_index c)) (MemStorage.entries c) ++ ents in
  ∃ c', MemStorage.append c ents = Done c' ∧ MemStorage.wf c' ∧
    MemStorage.get_entries c' lo hi max GenReady =
    Done (c', Ok (limit_size (take (N.to_nat (hi - lo)) (drop (N.to_nat (lo - MemStorage.first_index c)) log)) max)).
Proof.
  intros log. destruct (mem_append_wf c Hc a ents Hne Hct Hfirst Hlast Hb) as (c' & Happ & Hwf & Hv).
  exists c'. split_and!; [done..|]. unfold MemStorage.view in Hv. injection Hv as Hd _ He.
  pose proof (mem_last_index c Hc). destruct Hc as [Hcc Hcf Hcb]. pose proof Hwf as [_ Hwf0 _].
  assert (MemStorage.first_index c' = MemStorage.first_index c) as Hfe by lia.
  assert (len (MemStorage.entries c') = a - MemStorage.first_index c + len ents) as Hlen.
  { rewrite He, len_app. unfold len in *. rewrite length_take_le by lia. lia. }
  destruct (mem_entries_law c' Hwf lo hi max GenReady) as (c2 & r & Hg & _ & _ & Hr); [lia..|].
  destruct Hr as [->|[? _]]; [|done].
  assert (c2 = c') as ->.
  { unfold MemStorage.get_entries in Hg. repeat (destruct (_ <? _); [simplify_outcome; done|]).
    rewrite andb_false_r in Hg. by simplify_outcome. }
  rewrite Hg, He, Hfe. unfold sub_entries. do 6 f_equal. lia.
Qed.

(** C32: Compacting the in-memory storage up to [last_index + 1], which the
    documentation of [compact] allows, empties it and forgets the truncation
    point: the storage then reports the log of its last snapshot, whose last
    index is below every entry the storage held. *)
Theorem mem_storage_compact_all_regresses (c : MemStorage.t)
    (Hc : MemStorage.wf c) (Hne : MemStorage.entries c ≠ []) :
  ∃ c', MemStorage.compact c (MemStorage.last_index c + 1) = Done c' ∧
    MemStorage.last_index c' < MemStorage.first_index c ∧
    MemStorage.first_index c' < MemStorage.last_index c + 1.
Proof.
  destruct (mem_compact_all c Hc Hne) as (c' & Hk & Hf & Hl). exists c'. split; [done|].
  rewrite Hf, Hl. pose proof (mem_last_index c Hc). destruct Hc as [Hcc Hcf Hcb].
  destruct (MemStorage.entries c); [done|]. rewrite len_cons in *. lia.
Qed.

(** ** Witnesses *)

Definition w_entry (i t : N) : Entry := mkEntry EntryNormal t i [] [] false 0.
Definition w_proto : Proto := {|
  compute_size e := len (e_data e) + 1;
  decode_conf_change _ := None;
  decode_conf_change_v2 _ := None;
  encode_conf_change _ := Ok [];
  encode_conf_change_v2 _ := Ok [] |}.
Definition w_store : MemStorage.t :=
  MemStorage.new <| MemStorage.entries := [w_entry 3 1; w_entry 4 1; w_entry 5 2] |>
    <| MemStorage.snapshot_metadata := mkSnapshotMetadata default_ConfState 2 1 |>.

Lemma w_store_wf : MemStorage.wf w_store.
Proof. by split. Qed.

Lemma mem_storage_append_read_witness :
  ∃ c', MemStorage.append w_store [w_entry 5 3; w_entry 6 3] = Done c' ∧ MemStorage.wf c' ∧
    @MemStorage.get_entries w_proto c' 4 7 None GenReady =
    Done (c', Ok [w_entry 4 1; w_entry 5 3; w_entry 6 3]).
Proof.
  apply (@mem_storage_append_read w_proto w_store 5 [w_entry 5 3; w_entry 6 3] 4 7 None w_store_wf);
    done.
Defined.

Lemma mem_storage_compact_all_regresses_witness :
  ∃ c', MemStorage.compact w_store (MemStorage.last_index w_store + 1) = Done c' ∧
    MemStorage.last_index c' < MemStorage.first_index w_store ∧
    MemStorage.first_index c' < MemStorage.last_index w_store + 1.
Proof. apply (mem_storage_compact_all_regresses w_store w_store_wf). done. Defined.
