(* ===== verification/RaftLog.v ===== *)
(** * The raft log (src/src/raft_log.rs)

    A log made of a stable part in a [Storage] and an unstable part, with the
    commit, persist and apply indexes.  Operations return the log they leave
    because reading entries may change the storage. *)
From stdpp Require Import pretty.
From S2P Require Import Prelude Errors Eraftpb Util Unstable Storage.

Module RaftLog.
Record t (S : Type) : Type := mk {
  store : S;
  unstable : Unstable.t;
  committed : N;
  persisted : N;
  applied : N;
  max_apply_unpersisted_log_limit : N
}.
Arguments mk {S} _ _ _ _ _ _.
Arguments store {S} _.
Arguments unstable {S} _.
Arguments committed {S} _.
Arguments persisted {S} _.
Arguments applied {S} _.
Arguments max_apply_unpersisted_log_limit {S} _.
#[global] Instance eta S : Eta (t S) := λ l,
  mk (store l) (unstable l) (committed l) (persisted l) (applied l)
    (max_apply_unpersisted_log_limit l).

Section ops.
Context {S : Type} `{Storage S} `{Proto}.
Implicit Types (l : t S).

Definition new (st : S) (max_limit : N) : outcome (t S) :=
  first_index ← unwrap_res (st_first_index st);
  last_index ← unwrap_res (st_last_index st);
  mret (mk st (Unstable.new (last_index +w 1)) (first_index -w 1) last_index (first_index -w 1) max_limit).

Definition first_index l : outcome N :=
  match Unstable.maybe_first_index (unstable l) with
  | Some idx => mret idx
  | None => unwrap_res (st_first_index (store l))
  end.

Definition last_index l : outcome N :=
  match Unstable.maybe_last_index (unstable l) with
  | Some idx => mret idx
  | None => unwrap_res (st_last_index (store l))
  end.

Definition term l (idx : N) : outcome (Result N) :=
  fi ← first_index l;
  let dummy_idx := fi -w 1 in
  li ← last_index l;
  if (idx <? dummy_idx) || (li <? idx) then mret (Ok 0)
  else
    mt ← Unstable.maybe_term (unstable l) idx;
    match mt with
    | Some t => mret (Ok t)
    | None =>
      r ← st_term (store l) idx;
      match r with
      | Ok t => mret (Ok t)
      | Err (Store Compacted) | Err (Store Unavailable) => mret r
      | Err _ => Panicked
      end
    end.

Definition last_term l : outcome N :=
  li ← last_index l; r ← term l li; unwrap_res r.

Definition match_term l (idx tm : N) : outcome bool :=
  r ← term l idx; mret (is_ok_and r (λ t', t' =? tm)).

Fixpoint find_conflict l (ents : list Entry) : outcome N :=
  match ents with
  | [] => mret 0
  | e :: ents' =>
    m ← match_term l (e_index e) (e_term e);
    if (m : bool) then find_conflict l ents' else mret (e_index e)
  end.

(** The loop of [find_conflict_by_term].  Going below index zero wraps to an
    index above the log, whose term is zero, so [index + 2] rounds are enough. *)
Fixpoint find_conflict_loop l (fuel : nat) (conflict_index tm : N) : outcome (N * option N) :=
  match fuel with
  | O => Panicked
  | Datatypes.S fuel' =>
    r ← term l conflict_index;
    match r with
    | Ok t' => if tm <? t' then find_conflict_loop l fuel' (conflict_index -w 1) tm
               else mret (conflict_index, Some t')
    | Err _ => mret (conflict_index, None)
    end
  end.

Definition find_conflict_by_term l (index tm : N) : outcome (N * option N) :=
  li ← last_index l;
  if li <? index then mret (index, None)
  else find_conflict_loop l (Datatypes.S (Datatypes.S (N.to_nat index))) index tm.

Definition commit_to l (to_commit : N) : outcome (t S) :=
  if to_commit <=? committed l then mret l
  else
    li ← last_index l;
    if li <? to_commit then Panicked else mret (l <| committed := to_commit |>).

Definition append l (ents : list Entry) : outcome (t S * N) :=
  match ents with
  | [] => li ← last_index l; mret (l, li)
  | e0 :: _ =>
    if e_index e0 -w 1 <? committed l then Panicked
    else
      u ← Unstable.truncate_and_append (unstable l) ents;
      let l := l <| unstable := u |> in
      li ← last_index l; mret (l, li)
  end.

Definition maybe_append l (idx tm committed_ : N) (ents : list Entry) : outcome (t S * option (N * N)) :=
  m ← match_term l idx tm;
  if (m : bool) then
    conflict_idx ← find_conflict l ents;
    l ← (if conflict_idx =? 0 then mret l
         else if conflict_idx <=? committed l then Panicked
         else
           suffix ← vslice ents (conflict_idx -w (idx +w 1)) (len ents);
           '(l, _) ← append l suffix;
           mret (if conflict_idx -w 1 <? persisted l
                 then l <| persisted := conflict_idx -w 1 |> else l));
    let last_new_index := idx +w len ents in
    l ← commit_to l (N.min committed_ last_new_index);
    mret (l, Some (conflict_idx, last_new_index))
  else mret (l, None).

Definition applied_to_unchecked l (idx : N) : t S := l <| applied := idx |>.

Definition applied_to l (idx : N) : outcome (t S) :=
  if idx =? 0 then mret l
  else if (committed l <? idx) || (idx <? applied l) then Panicked
  else mret (applied_to_unchecked l idx).

Definition stable_entries l (index tm : N) : outcome (t S) :=
  u ← Unstable.stable_entries (unstable l) index tm; mret (l <| unstable := u |>).

Definition stable_snap l (index : N) : outcome (t S) :=
  u ← Unstable.stable_snap (unstable l) index; mret (l <| unstable := u |>).

Definition unstable_entries l : list Entry := Unstable.entries (unstable l).
Definition unstable_snapshot l : option Snapshot := Unstable.snapshot (unstable l).

Definition must_check_outofbounds l (low high : N) : outcome (option Error) :=
  if high <? low then Panicked
  else
    fi ← first_index l;
    if low <? fi then mret (Some (Store Compacted))
    else
      li ← last_index l;
      let length := li +w 1 -w fi in
      if (low <? fi) || (fi +w length <? high) then Panicked else mret None.

Definition slice l (low high : N) (max_size : option N) (context : GetEntriesContext)
    : outcome (t S * Result (list Entry)) :=
  err ← must_check_outofbounds l low high;
  match err with
  | Some e => mret (l, Err e)
  | None =>
    if low =? high then mret (l, Ok [])
    else
      let offset := Unstable.offset (unstable l) in
      (* the part in storage; [inr] is an early return *)
      '(l, part) ← (if low <? offset then
          let unstable_high := N.min high offset in
          '(st, r) ← st_entries (store l) low unstable_high max_size context;
          let l := l <| store := st |> in
          match r with
          | Err (Store Compacted) | Err (Store LogTemporarilyUnavailable)
          | Err (Store Unavailable) => mret (l, inr r)
          | Err _ => Panicked
          | Ok ents =>
            if len ents <? unstable_high -w low then mret (l, inr (Ok ents)) else mret (l, inl ents)
          end
        else mret (l, inl []));
      match part with
      | inr r => mret (l, r)
      | inl ents =>
        ents ← (if offset <? high
                then us ← Unstable.slice (unstable l) (N.max low offset) high; mret (ents ++ us)
                else mret ents);
        mret (l, Ok (limit_size ents max_size))
      end
  end.

Definition entries l (idx : N) (max_size : option N) (context : GetEntriesContext)
    : outcome (t S * Result (list Entry)) :=
  last ← last_index l;
  if last <? idx then mret (l, Ok []) else slice l idx (last +w 1) max_size context.

Definition is_up_to_date l (last_idx tm : N) : outcome bool :=
  lt ← last_term l;
  li ← last_index l;
  mret ((lt <? tm) || ((tm =? lt) && (li <=? last_idx))).

Definition applied_index_upper_bound l : N :=
  N.min (committed l) (persisted l +w max_apply_unpersisted_log_limit l).

Definition next_entries_since l (since_idx : N) (max_size : option N) : outcome (t S * option (list Entry)) :=
  fi ← first_index l;
  let offset := N.max (since_idx +w 1) fi in
  let high := applied_index_upper_bound l +w 1 in
  if offset <? high then
    '(l, r) ← slice l offset high max_size GenReady;
    match r with Ok vec => mret (l, Some vec) | Err _ => Panicked end
  else mret (l, None).

Definition next_entries l (max_size : option N) : outcome (t S * option (list Entry)) :=
  next_entries_since l (applied l) max_size.

Definition has_next_entries_since l (since_idx : N) : outcome bool :=
  fi ← first_index l;
  mret (N.max (since_idx +w 1) fi <? applied_index_upper_bound l +w 1).

Definition has_next_entries l : outcome bool := has_next_entries_since l (applied l).

Definition snapshot l (request_index to : N) : outcome (t S * Result Snapshot) :=
  let from_store :=
    '(st, r) ← st_snapshot (store l) request_index to; mret (l <| store := st |>, r) in
  match Unstable.snapshot (unstable l) with
  | Some snap => if request_index <=? sm_index (s_metadata snap) then mret (l, Ok snap) else from_store
  | None => from_store
  end.

Definition pending_snapshot l : option Snapshot := Unstable.snapshot (unstable l).

Definition maybe_commit l (max_index tm : N) : outcome (t S * bool) :=
  if committed l <? max_index then
    r ← term l max_index;
    if is_ok_and r (λ t', t' =? tm) then l ← commit_to l max_index; mret (l, true)
    else mret (l, false)
  else mret (l, false).

Definition maybe_persist l (index tm : N) : outcome (t S * bool) :=
  let first_update_index := match Unstable.snapshot (unstable l) with
    | Some s => sm_index (s_metadata s) | None => Unstable.offset (unstable l) end in
  if (persisted l <? index) && (index <? first_update_index) then
    r ← st_term (store l) index;
    if is_ok_and r (λ t', t' =? tm) then mret (l <| persisted := index |>, true)
    else mret (l, false)
  else mret (l, false).

Definition maybe_persist_snap l (index : N) : outcome (t S * bool) :=
  if persisted l <? index then
    if committed l <? index then Panicked
    else if Unstable.offset (unstable l) <=? index then Panicked
    else mret (l <| persisted := index |>, true)
  else mret (l, false).

(** [scan]: [v] is the callback with the state it captures.  Every round
    advances [lo], so [hi - lo] rounds are enough. *)
Fixpoint scan_loop {A} l (fuel : nat) (lo hi page_size : N) (context : GetEntriesContext)
    (v : A → list Entry → A * bool) (a : A) : outcome (t S * A * Result unit) :=
  if lo <? hi then
    match fuel with
    | O => Panicked
    | Datatypes.S fuel' =>
      '(l, r) ← slice l lo hi (Some page_size) context;
      match r with
      | Err e => mret (l, a, Err e)
      | Ok [] => mret (l, a, Err (Store (StorageOther ("got 0 entries in [" +:+ pretty lo +:+ ", " +:+ pretty hi +:+ ")"))))
      | Ok ents =>
        let lo := lo +w len ents in
        let '(a, go_on) := v a ents in
        if (go_on : bool) then scan_loop l fuel' lo hi page_size context v a
        else mret (l, a, Ok tt)
      end
    end
  else mret (l, a, Ok tt).

Definition scan {A} l (lo hi page_size : N) (context : GetEntriesContext)
    (v : A → list Entry → A * bool) (a : A) : outcome (t S * A * Result unit) :=
  scan_loop l (N.to_nat (hi - lo)) lo hi page_size context v a.

Definition restore l (snap : Snapshot) : outcome (t S) :=
  let index := sm_index (s_metadata snap) in
  _ ← rassert (committed l <=? index);
  let l := if committed l <? persisted l then l <| persisted := committed l |> else l in
  let l := l <| committed := index |> in
  mret (l <| unstable ::= λ u, Unstable.restore u snap |>).

Definition commit_info l : outcome (N * N) :=
  r ← term l (committed l);
  match r with
  | Ok t =>
    if negb (t =? 0) then mret (committed l, t)
    else
      fi ← first_index l;
      r ← term l (fi - 1);
      mret (committed l, unwrap_or r 0)
  | Err _ => Panicked
  end.
End ops.
End RaftLog.
