(* ===== verification/RaftLogSpec.v ===== *)
(** * The logical log

    A raft log stands for one sequence of entries after a dummy index; this
    file gives that view, the invariant under which it is defined, and the
    refinement of the operations of [raft_log.rs] by functions on the view. *)
From S2P Require Import Prelude Errors Eraftpb Util Unstable Storage RaftLog.

(** ** Views *)

(** The last index of a log. *)
Definition vlast (v : stable_view) : N := sv_dummy v + len (sv_ents v).

(** The entry at an index. *)
Definition vlookup (v : stable_view) (i : N) : option Entry :=
  if sv_dummy v <? i then sv_ents v !! N.to_nat (i - sv_dummy v - 1) else None.

(** The term at an index as [RaftLog::term] reports it: zero outside the log,
    an error where the term was compacted away. *)
Definition vterm (v : stable_view) (i : N) : Result N :=
  if i =? sv_dummy v
  then match sv_dummy_term v with Some t => Ok t | None => Err (Store Compacted) end
  else match vlookup v i with Some e => Ok (e_term e) | None => Ok 0 end.

(** The log with everything from index [a] on replaced by [ents]. *)
Definition vsplice (v : stable_view) (a : N) (ents : list Entry) : stable_view :=
  mkView (sv_dummy v) (sv_dummy_term v) (take (N.to_nat (a - sv_dummy v - 1)) (sv_ents v) ++ ents).

(** The length of the prefix of [ents] whose terms are those of the log. *)
Fixpoint vmatched (v : stable_view) (ents : list Entry) : nat :=
  match ents with
  | [] => 0
  | e :: ents' => if bool_decide (vterm v (e_index e) = Ok (e_term e)) then S (vmatched v ents') else 0
  end.

Definition view_wf (v : stable_view) : Prop :=
  contiguous (sv_dummy v + 1) (sv_ents v) ∧ vlast v + 1 < u64_modulus.

Section log_view.
Context {S : Type} `{StorageLaws S}.
Implicit Types (l : RaftLog.t S).

Definition log_view l : stable_view :=
  match Unstable.snapshot (RaftLog.unstable l) with
  | Some snap => mkView (sm_index (s_metadata snap)) (Some (sm_term (s_metadata snap)))
                   (Unstable.entries (RaftLog.unstable l))
  | None =>
    let v := st_view (RaftLog.store l) in
    mkView (sv_dummy v) (sv_dummy_term v)
      (take (N.to_nat (Unstable.offset (RaftLog.unstable l) - sv_dummy v - 1)) (sv_ents v)
       ++ Unstable.entries (RaftLog.unstable l))
  end.

(** The stable and the unstable part meet at [offset]. *)
Record log_wf l : Prop := mk_log_wf {
  lw_store : st_wf (RaftLog.store l);
  lw_unstable : Unstable.wf (RaftLog.unstable l);
  lw_join : Unstable.snapshot (RaftLog.unstable l) = None →
    sv_dummy (st_view (RaftLog.store l)) + 1 ≤ Unstable.offset (RaftLog.unstable l)
    ≤ vlast (st_view (RaftLog.store l)) + 1;
  lw_empty : Unstable.snapshot (RaftLog.unstable l) = None →
    Unstable.entries (RaftLog.unstable l) = [] →
    Unstable.offset (RaftLog.unstable l) = vlast (st_view (RaftLog.store l)) + 1
}.

(** The order of the indexes a running node keeps. *)
Record index_inv l : Prop := mk_index_inv {
  ix_dummy : sv_dummy (log_view l) ≤ RaftLog.committed l;
  ix_committed : RaftLog.committed l ≤ vlast (log_view l);
  ix_applied : RaftLog.applied l ≤ RaftLog.committed l;
  ix_persisted : RaftLog.persisted l < Unstable.offset (RaftLog.unstable l)
}.

Lemma log_view_offset l : log_wf l →
  vlast (log_view l) + 1 = Unstable.offset (RaftLog.unstable l) + len (Unstable.entries (RaftLog.unstable l)).
Proof.
  intros [Hs Hu Hj He]. unfold log_view, vlast.
  destruct (Unstable.snapshot (RaftLog.unstable l)) as [snap|] eqn:E; simpl.
  - rewrite (Unstable.wf_snapshot _ Hu _ E). lia.
  - specialize (Hj eq_refl). rewrite len_app. unfold vlast, len in *. rewrite length_take. lia.
Qed.

Lemma log_view_wf l : log_wf l → view_wf (log_view l).
Proof.
  intros Hl. pose proof (log_view_offset l Hl) as Ho. destruct Hl as [Hs Hu Hj He].
  pose proof (Unstable.wf_bound _ Hu). split; [|lia]. unfold log_view, vlast in *.
  destruct (Unstable.snapshot (RaftLog.unstable l)) as [snap|] eqn:E; simpl.
  - rewrite <-(Unstable.wf_snapshot _ Hu _ E). apply Hu.
  - specialize (Hj eq_refl). apply contiguous_app. split; [apply contiguous_take, st_contiguous, Hs|].
    unfold len in *. rewrite length_take.
    replace (_ + _) with (Unstable.offset (RaftLog.unstable l)) by lia. apply Hu.
Qed.

Lemma first_index_view l : log_wf l → RaftLog.first_index l = Done (sv_dummy (log_view l) + 1).
Proof.
  intros Hl. pose proof (log_view_wf l Hl) as [_ Hb]. destruct Hl as [Hs Hu Hj He].
  unfold RaftLog.first_index, Unstable.maybe_first_index, log_view, vlast in *.
  destruct (Unstable.snapshot (RaftLog.unstable l)) as [snap|]; simpl in *.
  - u64_norm. done.
  - by rewrite (st_first_index_law _ Hs).
Qed.

Lemma last_index_view l : log_wf l → RaftLog.last_index l = Done (vlast (log_view l)).
Proof.
  intros Hl. pose proof (log_view_offset l Hl) as Ho. destruct Hl as [Hs Hu Hj He].
  unfold RaftLog.last_index. rewrite maybe_last_index_wf by done.
  pose proof (Unstable.wf_pos _ Hu). destruct (decide (_ = [])) as [E|E].
  - rewrite E, len_nil in Ho. destruct (Unstable.snapshot (RaftLog.unstable l)) as [snap|] eqn:Es; simpl.
    + pose proof (Unstable.wf_snapshot _ Hu _ Es). f_equal. lia.
    + rewrite (st_last_index_law _ Hs). simpl. f_equal. specialize (He eq_refl E). unfold vlast in *. lia.
  - unfold mret, outcome_ret. f_equal. lia.
Qed.

(** Lookups below and above the unstable offset. *)
Lemma log_view_high l i : log_wf l → Unstable.offset (RaftLog.unstable l) ≤ i →
  vlookup (log_view l) i =
  Unstable.entries (RaftLog.unstable l) !! N.to_nat (i - Unstable.offset (RaftLog.unstable l)).
Proof.
  intros [Hs Hu Hj He] Hi. unfold vlookup, log_view, vlast in *.
  destruct (Unstable.snapshot (RaftLog.unstable l)) as [snap|] eqn:E; simpl.
  - pose proof (Unstable.wf_snapshot _ Hu _ E). rewrite (proj2 (N.ltb_lt _ _)) by lia. f_equal. lia.
  - specialize (Hj eq_refl). rewrite (proj2 (N.ltb_lt _ _)) by lia.
    unfold len in *. rewrite lookup_app_r by (rewrite length_take; lia). f_equal. rewrite length_take. lia.
Qed.

Lemma log_view_low l i : log_wf l → i < Unstable.offset (RaftLog.unstable l) →
  Unstable.snapshot (RaftLog.unstable l) = None →
  vlookup (log_view l) i = vlookup (st_view (RaftLog.store l)) i ∧
  sv_dummy (log_view l) = sv_dummy (st_view (RaftLog.store l)) ∧
  sv_dummy_term (log_view l) = sv_dummy_term (st_view (RaftLog.store l)).
Proof.
  intros [Hs Hu Hj He] Hi Hn. unfold vlookup, log_view, vlast in *. rewrite Hn. simpl. specialize (Hj Hn).
  split; [|done]. destruct (N.ltb_spec (sv_dummy (st_view (RaftLog.store l))) i); [|done].
  unfold len in *. rewrite lookup_app_l by (rewrite length_take; lia). apply lookup_take_lt. lia.
Qed.

Lemma vlookup_is_Some v i : is_Some (vlookup v i) ↔ sv_dummy v < i ≤ vlast v.
Proof.
  unfold vlookup, vlast, len. destruct (N.ltb_spec (sv_dummy v) i).
  - rewrite lookup_lt_is_Some. lia.
  - split; [by intros [? ?]|lia].
Qed.

Lemma vlookup_None v i : i ≤ sv_dummy v ∨ vlast v < i → vlookup v i = None.
Proof. intros Hi. apply eq_None_not_Some. rewrite vlookup_is_Some. lia. Qed.

Lemma term_view l i : log_wf l → RaftLog.term l i = Done (vterm (log_view l) i).
Proof.
  intros Hl. pose proof (log_view_wf l Hl) as [_ Hb]. unfold RaftLog.term.
  rewrite first_index_view, last_index_view by done. cbn [mbind outcome_bind].
  unfold vlast in Hb. u64_norm. rewrite N.add_sub. unfold vterm.
  destruct (N.eqb_spec i (sv_dummy (log_view l))) as [Hd|Hd].
  - rewrite (proj2 (N.ltb_ge i _)), (proj2 (N.ltb_ge _ i)) by (unfold vlast; lia). simpl. subst i.
    pose proof Hl as [Hs Hu Hj He].
    destruct (Unstable.snapshot (RaftLog.unstable l)) as [snap|] eqn:E.
    + pose proof (Unstable.wf_snapshot _ Hu _ E) as Ho. unfold log_view. rewrite E. simpl.
      rewrite (maybe_term_low _ Hu), E, N.eqb_refl by lia. done.
    + specialize (Hj eq_refl).
      assert (sv_dummy (log_view l) = sv_dummy (st_view (RaftLog.store l))) as Hdd by (unfold log_view; by rewrite E).
      rewrite (maybe_term_low _ Hu), E by lia. simpl. rewrite Hdd, st_term_dummy_law by done. simpl.
      unfold log_view. rewrite E. simpl. by destruct (sv_dummy_term _).
  - destruct (vlookup (log_view l) i) as [e|] eqn:Ev.
    + pose proof (proj1 (vlookup_is_Some (log_view l) i) ltac:(by rewrite Ev)) as Hi.
      rewrite (proj2 (N.ltb_ge i _)), (proj2 (N.ltb_ge _ i)) by lia. simpl.
      destruct (N.lt_ge_cases i (Unstable.offset (RaftLog.unstable l))) as [Hlo|Hhi].
      * pose proof Hl as [Hs Hu Hj He]. rewrite (maybe_term_low _ Hu) by lia.
        destruct (Unstable.snapshot (RaftLog.unstable l)) as [snap|] eqn:E.
        { pose proof (Unstable.wf_snapshot _ Hu _ E). unfold log_view in Hi. rewrite E in Hi. simpl in Hi. lia. }
        simpl. destruct (log_view_low l i Hl Hlo E) as (Hv & Hdd & _). rewrite Hv in Ev.
        unfold vlookup in Ev. rewrite <-Hdd, (proj2 (N.ltb_lt _ _)) in Ev by lia. rewrite Hdd in *.
        by rewrite (st_term_law _ i e Hs) by (done || lia).
      * rewrite log_view_high in Ev by done. by rewrite (maybe_term_high _ (lw_unstable _ Hl) i e).
    + assert (i < sv_dummy (log_view l) ∨ vlast (log_view l) < i) as Hi.
      { destruct (N.lt_ge_cases i (sv_dummy (log_view l))); [by left|right].
        destruct (N.lt_ge_cases (vlast (log_view l)) i); [done|].
        assert (is_Some (vlookup (log_view l) i)) as [? ?] by (apply vlookup_is_Some; lia). congruence. }
      rewrite (proj2 (orb_true_iff (i <? _) (_ <? i))); [done|]. rewrite !N.ltb_lt. done.
Qed.
End log_view.

Section refinement.
Context {S : Type} `{StorageLaws S}.
Implicit Types (l : RaftLog.t S).

Lemma match_term_view l i tm : log_wf l →
  RaftLog.match_term l i tm = Done (bool_decide (vterm (log_view l) i = Ok tm)).
Proof.
  intros Hl. unfold RaftLog.match_term. rewrite term_view by done. simpl. unfold mret, outcome_ret. f_equal.
  destruct (vterm (log_view l) i) as [t|e]; simpl.
  - destruct (N.eqb_spec t tm); symmetry; [apply bool_decide_eq_true_2|apply bool_decide_eq_false_2]; congruence.
  - done.
Qed.

(** [find_conflict] stops at the first entry that is not in the log. *)
Lemma find_conflict_view l ents : log_wf l →
  RaftLog.find_conflict l ents =
  Done match drop (vmatched (log_view l) ents) ents with [] => 0 | e :: _ => e_index e end.
Proof.
  intros Hl. induction ents as [|e ents IH]; [done|]. cbn [RaftLog.find_conflict vmatched].
  rewrite match_term_view by done. cbn [mbind outcome_bind].
  case_bool_decide; [|done]. by rewrite IH.
Qed.

Lemma vmatched_le v ents : (vmatched v ents ≤ length ents)%nat.
Proof. induction ents as [|e ents IH]; simpl; [done|]. case_bool_decide; lia. Qed.

Lemma vmatched_terms v ents j e :
  (j < vmatched v ents)%nat → ents !! j = Some e → vterm v (e_index e) = Ok (e_term e).
Proof.
  revert j. induction ents as [|e' ents IH]; intros j Hj He; [done|]. simpl in Hj.
  case_bool_decide; [|lia]. destruct j; simplify_eq/=; [done|]. apply (IH j); [lia|done].
Qed.

(** A nonzero term is that of an entry, unless it is the dummy's. *)
Lemma vterm_entry v i t : vterm v i = Ok t → t ≠ 0 → sv_dummy v < i →
  ∃ e, vlookup v i = Some e ∧ e_term e = t.
Proof.
  unfold vterm. destruct (N.eqb_spec i (sv_dummy v)); [lia|].
  destruct (vlookup v i) as [e|]; intros [= <-] ? ?; [by exists e|done].
Qed.

Lemma commit_to_view l k : log_wf l → k ≤ vlast (log_view l) →
  RaftLog.commit_to l k = Done (l <| RaftLog.committed ::= λ c, N.max c k |>).
Proof.
  intros Hl Hk. unfold RaftLog.commit_to. destruct (N.leb_spec k (RaftLog.committed l)).
  - unfold upd. rewrite N.max_l by done. by destruct l.
  - rewrite last_index_view by done. simpl. rewrite (proj2 (N.ltb_ge _ _)) by done.
    unfold upd, mret, outcome_ret. by rewrite N.max_r by lia.
Qed.

Lemma commit_to_panics l k : log_wf l → RaftLog.committed l < k → vlast (log_view l) < k →
  RaftLog.commit_to l k = Panicked.
Proof.
  intros Hl Hc Hk. unfold RaftLog.commit_to. rewrite (proj2 (N.leb_gt _ _)), last_index_view by done.
  simpl. by rewrite (proj2 (N.ltb_lt _ _)) by done.
Qed.

(** Looking up a spliced log. *)
Lemma vlookup_splice v a ents i :
  sv_dummy v < a → a ≤ vlast v + 1 → contiguous a ents →
  vlookup (vsplice v a ents) i = if i <? a then vlookup v i else ents !! N.to_nat (i - a).
Proof.
  intros Hd Ha Hc. unfold vlookup, vsplice, vlast, len in *. simpl.
  destruct (N.ltb_spec i a).
  - destruct (N.ltb_spec (sv_dummy v) i); [|done].
    rewrite lookup_app_l by (rewrite length_take; lia). apply lookup_take_lt. lia.
  - rewrite (proj2 (N.ltb_lt _ _)) by lia. rewrite lookup_app_r by (rewrite length_take; lia).
    f_equal. rewrite length_take. lia.
Qed.

Lemma vlast_splice v a ents : sv_dummy v < a → a ≤ vlast v + 1 →
  vlast (vsplice v a ents) + 1 = a + len ents.
Proof.
  intros Hd Ha. unfold vlast, vsplice in *. simpl. rewrite len_app. unfold len in *. rewrite length_take. lia.
Qed.

Lemma append_view l a ents :
  log_wf l → sv_dummy (log_view l) ≤ RaftLog.committed l →
  ents ≠ [] → contiguous a ents → RaftLog.committed l < a → a ≤ vlast (log_view l) + 1 →
  a + len ents < u64_modulus →
  ∃ u', RaftLog.append l ents = Done (l <| RaftLog.unstable := u' |>, a + len ents - 1) ∧
    log_wf (l <| RaftLog.unstable := u' |>) ∧
    log_view (l <| RaftLog.unstable := u' |>) = vsplice (log_view l) a ents ∧
    Unstable.offset u' = N.min a (Unstable.offset (RaftLog.unstable l)).
Proof.
  intros Hl Hdum Hne Hct Hca Hal Hb. pose proof (log_view_offset l Hl) as Hoff.
  pose proof Hl as [Hs Hu Hj He].
  assert (Unstable.snapshot (RaftLog.unstable l) ≠ None → Unstable.offset (RaftLog.unstable l) ≤ a) as Hsn.
  { destruct (Unstable.snapshot (RaftLog.unstable l)) as [snap|] eqn:E; [|done]. intros _.
    rewrite (Unstable.wf_snapshot _ Hu _ E). unfold log_view in Hdum. rewrite E in Hdum. simpl in Hdum. lia. }
  destruct (truncate_and_append_wf _ Hu a ents Hne Hct) as (u' & Happ & Hu' & Hs' & Ho' & He');
    [lia|done|lia|done|].
  set (l' := l <| RaftLog.unstable := u' |>).
  assert (entries_ne : Unstable.entries u' ≠ []) by (rewrite He'; by destruct (take _ _), ents).
  assert (log_wf l') as Hl'.
  { split; [done|done|..].
    - simpl. rewrite Hs', Ho'. intros E. specialize (Hj E). unfold log_view in Hdum. rewrite E in Hdum.
      simpl in Hdum. lia.
    - simpl. done. }
  assert (log_view l' = vsplice (log_view l) a ents) as Hv.
  { unfold log_view, vsplice. simpl. rewrite Hs', Ho', He'.
    destruct (Unstable.snapshot (RaftLog.unstable l)) as [snap|] eqn:E; simpl.
    - rewrite (Unstable.wf_snapshot _ Hu _ E). do 3 f_equal. lia.
    - specialize (Hj eq_refl). unfold log_view in Hdum. rewrite E in Hdum. simpl in Hdum.
      f_equal. rewrite app_assoc. f_equal. unfold vlast, len in *. rewrite take_app, take_take, length_take.
      f_equal; f_equal; lia. }
  exists u'. split_and!; [|done..]. unfold RaftLog.append.
  destruct ents as [|e0 ents']; [done|]. rewrite (contiguous_head _ _ _ Hct).
  pose proof (Unstable.wf_pos _ Hu). u64_norm. rewrite (proj2 (N.ltb_ge _ _)) by lia.
  rewrite Happ. cbn [mbind outcome_bind]. fold l'. rewrite last_index_view, Hv by done. simpl.
  unfold mret, outcome_ret. do 2 f_equal.
  assert (vlast (vsplice (log_view l) a (e0 :: ents')) + 1 = a + len (e0 :: ents')); [|lia].
  apply vlast_splice; lia.
Qed.
End refinement.

Section maybe_append.
Context {S : Type} `{StorageLaws S}.
Implicit Types (l : RaftLog.t S).

(** The log after a batch [ents] that follows index [idx] was received. *)
Definition vreceive (v : stable_view) (idx : N) (ents : list Entry) : stable_view :=
  if decide (vmatched v ents = length ents) then v
  else vsplice v (idx + 1 + N.of_nat (vmatched v ents)) (drop (vmatched v ents) ents).

(** The first index that changes, zero when nothing does. *)
Definition vconflict (v : stable_view) (idx : N) (ents : list Entry) : N :=
  if decide (vmatched v ents = length ents) then 0 else idx + 1 + N.of_nat (vmatched v ents).

Lemma find_conflict_contiguous l idx ents : log_wf l → contiguous (idx + 1) ents →
  RaftLog.find_conflict l ents = Done (vconflict (log_view l) idx ents).
Proof.
  intros Hl Hc. rewrite find_conflict_view by done. unfold vconflict. f_equal.
  pose proof (vmatched_le (log_view l) ents). destruct (decide (vmatched _ ents = length ents)) as [->|].
  - by rewrite drop_all.
  - destruct (drop _ ents) as [|e k] eqn:E.
    + apply (f_equal length) in E. rewrite length_drop in E. simpl in E. lia.
    + assert (ents !! vmatched (log_view l) ents = Some e) as Hlk.
      { rewrite <-(Nat.add_0_r (vmatched _ _)), <-lookup_drop, E. done. }
      rewrite (contiguous_lookup _ _ _ _ Hc Hlk). lia.
Qed.

(** Entries found in the log are there with their terms. *)
Lemma vmatched_lookup v idx ents j e :
  contiguous (idx + 1) ents → Forall (λ e, e_term e ≠ 0) ents → sv_dummy v ≤ idx →
  (j < vmatched v ents)%nat → ents !! j = Some e →
  ∃ e', vlookup v (idx + 1 + N.of_nat j) = Some e' ∧ e_term e' = e_term e.
Proof.
  intros Hc Ht Hd Hj He. pose proof (vmatched_terms v ents j e Hj He) as Hv.
  rewrite (contiguous_lookup _ _ _ _ Hc He) in Hv.
  apply (vterm_entry v); [done|by apply (Forall_lookup_1 _ _ _ _ Ht He)|lia].
Qed.

Lemma vmatched_last v idx ents :
  contiguous (idx + 1) ents → Forall (λ e, e_term e ≠ 0) ents → sv_dummy v ≤ idx → idx ≤ vlast v →
  idx + N.of_nat (vmatched v ents) ≤ vlast v.
Proof.
  intros Hc Ht Hd Hl. destruct (vmatched v ents) as [|k] eqn:E; [lia|].
  pose proof (vmatched_le v ents) as Hle.
  destruct (lookup_lt_is_Some_2 ents k ltac:(lia)) as [e He].
  destruct (vmatched_lookup v idx ents k e Hc Ht Hd) as (e' & Hlk & _); [lia|done|].
  assert (is_Some (vlookup v (idx + 1 + N.of_nat k))) as Hs by by rewrite Hlk.
  apply vlookup_is_Some in Hs. lia.
Qed.

Lemma vreceive_lookup_low v idx ents i :
  contiguous (idx + 1) ents → Forall (λ e, e_term e ≠ 0) ents → sv_dummy v ≤ idx → idx ≤ vlast v →
  i ≤ idx + N.of_nat (vmatched v ents) → vlookup (vreceive v idx ents) i = vlookup v i.
Proof.
  intros Hc Ht Hd Hl Hi. unfold vreceive. case_decide as E; [done|].
  pose proof (vmatched_last v idx ents Hc Ht Hd Hl). pose proof (vmatched_le v ents).
  rewrite vlookup_splice; [|lia|lia|by apply contiguous_drop].
  by rewrite (proj2 (N.ltb_lt _ _)) by lia.
Qed.

Lemma vreceive_lookup v idx ents j e :
  contiguous (idx + 1) ents → Forall (λ e, e_term e ≠ 0) ents → sv_dummy v ≤ idx → idx ≤ vlast v →
  ents !! j = Some e →
  ∃ e', vlookup (vreceive v idx ents) (idx + 1 + N.of_nat j) = Some e' ∧ e_term e' = e_term e.
Proof.
  intros Hc Ht Hd Hl He. pose proof (lookup_lt_Some _ _ _ He).
  destruct (decide (j < vmatched v ents)%nat) as [Hj|Hj].
  - rewrite vreceive_lookup_low by (done || lia). by apply (vmatched_lookup v idx ents).
  - pose proof (vmatched_last v idx ents Hc Ht Hd Hl). pose proof (vmatched_le v ents).
    unfold vreceive. rewrite decide_False by lia. rewrite vlookup_splice; [|lia|lia|by apply contiguous_drop].
    rewrite (proj2 (N.ltb_ge _ _)) by lia. rewrite lookup_drop.
    exists e. split; [|done]. rewrite <-He. f_equal. lia.
Qed.

Lemma vreceive_last v idx ents :
  contiguous (idx + 1) ents → Forall (λ e, e_term e ≠ 0) ents → sv_dummy v ≤ idx → idx ≤ vlast v →
  idx + len ents ≤ vlast (vreceive v idx ents).
Proof.
  intros Hc Ht Hd Hl. pose proof (vmatched_last v idx ents Hc Ht Hd Hl) as Hm. unfold vreceive.
  pose proof (vmatched_le v ents). case_decide as E; [rewrite E in Hm; done|].
  assert (vlast (vsplice v (idx + 1 + N.of_nat (vmatched v ents)) (drop (vmatched v ents) ents)) + 1
    = idx + 1 + N.of_nat (vmatched v ents) + len (drop (vmatched v ents) ents)) as Hv
    by (apply vlast_splice; lia).
  unfold len in *. rewrite length_drop in Hv. lia.
Qed.

Lemma maybe_append_reject l idx tm c ents :
  log_wf l → vterm (log_view l) idx ≠ Ok tm → RaftLog.maybe_append l idx tm c ents = Done (l, None).
Proof.
  intros Hl Ht. unfold RaftLog.maybe_append. rewrite match_term_view by done. simpl.
  by rewrite bool_decide_eq_false_2.
Qed.

Section accept.
Context (l : RaftLog.t S) (idx tm c : N) (ents : list Entry).
Context (Hl : log_wf l) (Hi : index_inv l).
Context (Hct : contiguous (idx + 1) ents) (Ht : Forall (λ e, e_term e ≠ 0) ents).
Context (Hd : sv_dummy (log_view l) ≤ idx) (Hlast : idx ≤ vlast (log_view l)).
Context (Hb : idx + len ents + 1 < u64_modulus) (Hm : vterm (log_view l) idx = Ok tm).
#[local] Set Default Proof Using "All".

Lemma maybe_append_committed :
  vconflict (log_view l) idx ents ≠ 0 → vconflict (log_view l) idx ents ≤ RaftLog.committed l →
  RaftLog.maybe_append l idx tm c ents = Panicked.
Proof.
  intros Hnz Hle. unfold RaftLog.maybe_append. rewrite match_term_view by done. simpl.
  rewrite bool_decide_eq_true_2 by done. rewrite (find_conflict_contiguous l idx ents Hl Hct). simpl.
  rewrite (proj2 (N.eqb_neq _ _)), (proj2 (N.leb_le _ _)) by done. done.
Qed.

(** The part of [maybe_append] that changes the entries. *)
Lemma maybe_append_entries :
  vconflict (log_view l) idx ents = 0 ∨ RaftLog.committed l < vconflict (log_view l) idx ents →
  ∃ l1, log_wf l1 ∧ index_inv l1 ∧ log_view l1 = vreceive (log_view l) idx ents ∧
    RaftLog.committed l1 = RaftLog.committed l ∧ RaftLog.applied l1 = RaftLog.applied l ∧
    RaftLog.maybe_append l idx tm c ents =
    (l2 ← RaftLog.commit_to l1 (N.min c (idx + len ents));
     mret (l2, Some (vconflict (log_view l) idx ents, idx + len ents))).
Proof.
  intros Hcf. unfold RaftLog.maybe_append. rewrite match_term_view by done. cbn [mbind outcome_bind].
  rewrite bool_decide_eq_true_2 by done. rewrite (find_conflict_contiguous l idx ents Hl Hct).
  cbn [mbind outcome_bind]. u64_norm.
  pose proof (vmatched_last _ _ _ Hct Ht Hd Hlast) as Hml. pose proof (vmatched_le (log_view l) ents).
  unfold vconflict, vreceive in *. destruct (decide (vmatched (log_view l) ents = length ents)) as [E|E].
  { exists l. split_and!; done. }
  destruct Hcf as [|Hcf]; [lia|]. set (k := vmatched (log_view l) ents) in *.
  set (a := idx + 1 + N.of_nat k) in *. rewrite (proj2 (N.eqb_neq a 0)), (proj2 (N.leb_gt _ _)) by lia.
  unfold vslice. unfold len in Hb. u64_norm. replace (a - (idx + 1)) with (N.of_nat k) by lia.
  rewrite !(proj2 (N.leb_le _ _)) by (unfold len; lia). cbn [andb mbind outcome_bind].
  rewrite Nat2N.id, take_ge by (rewrite length_drop; unfold len; lia).
  destruct (append_view l a (drop k ents)) as (u' & Happ & Hl' & Hv' & Ho'); [done|apply Hi|..].
  { intros E'. apply (f_equal length) in E'. rewrite length_drop in E'. simpl in E'. lia. }
  { by apply contiguous_drop. }
  { done. } { lia. } { unfold len in *. rewrite length_drop. lia. }
  rewrite Happ. cbn [mbind outcome_bind]. set (l1 := l <| RaftLog.unstable := u' |>) in *.
  assert (vlast (log_view l1) + 1 = a + len (drop k ents)) as Hvl.
  { rewrite Hv'. apply vlast_splice; lia. }
  unfold len in Hvl. rewrite length_drop in Hvl.
  destruct Hi as [Hi1 Hi2 Hi3 Hi4].
  destruct (N.ltb_spec (a - 1) (RaftLog.persisted l1)) as [Hp|Hp]; simpl in Hp.
  - exists (l1 <| RaftLog.persisted := a - 1 |>). split_and!; try done.
    + by destruct Hl'.
    + split; simpl; [change (log_view (l1 <| RaftLog.persisted := a - 1 |>)) with (log_view l1)..| |];
        rewrite ?Hv', ?Ho'; simpl; [done| |done|lia]. rewrite <-Hv'. lia.
  - exists l1. split_and!; try done. split; simpl; rewrite ?Hv', ?Ho'; simpl; [done| |done|].
    + rewrite <-Hv'. lia.
    + lia.
Qed.

Lemma maybe_append_accept :
  vconflict (log_view l) idx ents = 0 ∨ RaftLog.committed l < vconflict (log_view l) idx ents →
  ∃ l', RaftLog.maybe_append l idx tm c ents =
      Done (l', Some (vconflict (log_view l) idx ents, idx + len ents)) ∧
    log_wf l' ∧ index_inv l' ∧ log_view l' = vreceive (log_view l) idx ents ∧
    RaftLog.committed l' = N.max (RaftLog.committed l) (N.min c (idx + len ents)) ∧
    RaftLog.applied l' = RaftLog.applied l.
Proof.
  intros Hcf. destruct (maybe_append_entries Hcf) as (l1 & Hl1 & Hi1 & Hv1 & Hc1 & Ha1 & Heq).
  pose proof (vreceive_last _ _ _ Hct Ht Hd Hlast) as Hlst. rewrite <-Hv1 in Hlst.
  rewrite Heq, commit_to_view by (done || lia). cbn [mbind outcome_bind].
  eexists. split; [done|]. split_and!; [by destruct Hl1| |done|simpl; by rewrite Hc1|done].
  destruct Hi1 as [? ? ? ?]. set (l2 := l1 <| RaftLog.committed ::= _ |>).
  assert (log_view l2 = log_view l1) as Hv2 by done. split; rewrite ?Hv2; simpl; lia.
Qed.
End accept.
End maybe_append.

(** ** Size limits and concatenation *)
Section limits.
Context `{Proto}.

Lemma limit_take_app size max a b :
  (length (limit_take size max a) < length a)%nat → limit_take size max (a ++ b) = limit_take size max a.
Proof.
  revert size. induction a as [|e a IH]; intros size Hlt; simpl in *; [lia|].
  destruct (size =? 0); simpl in *; [f_equal; apply IH; lia|].
  destruct (_ <=? max); simpl in *; [f_equal; apply IH; lia|done].
Qed.

(** A batch the limit already cut is not changed by what follows it. *)
Lemma limit_size_app a b max :
  (length (limit_size a max) < length a)%nat → limit_size (a ++ b) max = limit_size a max.
Proof.
  unfold limit_size. rewrite len_app. destruct (N.leb_spec (len a) 1); [lia|].
  rewrite (proj2 (N.leb_gt _ _)) by lia. destruct max as [m|]; [|lia].
  destruct (m =? NO_LIMIT); [lia|]. apply limit_take_app.
Qed.

Lemma limit_size_full a max : (length a ≤ length (limit_size a max))%nat → limit_size a max = a.
Proof.
  intros Hl. destruct (limit_size_prefix a max) as (k & Hk & _). rewrite Hk in *. apply take_ge.
  rewrite length_take in Hl. lia.
Qed.
End limits.

Section slices.
Context {S : Type} `{StorageLaws S}.
Implicit Types (l : RaftLog.t S).

Lemma sub_entries_split d (se ue : list Entry) off lo hi :
  d < lo → lo < off → off ≤ d + len se + 1 → off ≤ hi →
  sub_entries d (take (N.to_nat (off - d - 1)) se ++ ue) lo hi =
  sub_entries d se lo off ++ take (N.to_nat (hi - off)) ue.
Proof.
  intros Hd Hlo Hoff Hhi. unfold sub_entries, len in *.
  assert (length (take (N.to_nat (off - d - 1)) se) = N.to_nat (off - d - 1)) as Hlen
    by (rewrite length_take; lia).
  rewrite drop_app_le by lia. rewrite take_app, length_drop, Hlen.
  f_equal; [|f_equal; lia].
  rewrite take_ge by (rewrite length_drop, Hlen; lia).
  rewrite skipn_firstn_comm. f_equal. lia.
Qed.

Lemma sub_entries_low d (se ue : list Entry) off lo hi :
  d < lo → lo < hi → hi ≤ off → off ≤ d + len se + 1 →
  sub_entries d (take (N.to_nat (off - d - 1)) se ++ ue) lo hi = sub_entries d se lo hi.
Proof.
  intros Hd Hlo Hhi Hoff. unfold sub_entries, len in *.
  assert (length (take (N.to_nat (off - d - 1)) se) = N.to_nat (off - d - 1)) as Hlen
    by (rewrite length_take; lia).
  rewrite drop_app_le by lia. rewrite take_app_le by (rewrite length_drop, Hlen; lia).
  rewrite skipn_firstn_comm, take_take. f_equal. lia.
Qed.

Lemma sub_entries_high d (se ue : list Entry) off lo hi :
  d < off → off ≤ lo → off ≤ d + len se + 1 →
  sub_entries d (take (N.to_nat (off - d - 1)) se ++ ue) lo hi =
  take (N.to_nat (hi - lo)) (drop (N.to_nat (lo - off)) ue).
Proof.
  intros Hd Hlo Hoff. unfold sub_entries, len in *.
  rewrite drop_app_ge by (rewrite length_take; lia). rewrite length_take. do 2 f_equal. lia.
Qed.

Lemma must_check_view l low high : log_wf l →
  sv_dummy (log_view l) < low → low ≤ high → high ≤ vlast (log_view l) + 1 →
  RaftLog.must_check_outofbounds l low high = Done None.
Proof.
  intros Hl Hlo Hlh Hhi. pose proof (log_view_wf l Hl) as [_ Hb]. unfold RaftLog.must_check_outofbounds.
  rewrite first_index_view, last_index_view by done. cbn [mbind outcome_bind].
  unfold vlast in *. rewrite !(proj2 (N.ltb_ge _ _)) by u64_solve. done.
Qed.

(** What a slice returns: the log's entries cut to the size limit, or, where the
    caller allows it, an indication that the storage is still fetching them. *)
Definition slice_result l low high max ctx (out : outcome (RaftLog.t S * Result (list Entry))) : Prop :=
  ∃ st r, out = Done (l <| RaftLog.store := st |>, r) ∧
    st_wf st ∧ st_view st = st_view (RaftLog.store l) ∧
    (r = Ok (limit_size (sub_entries (sv_dummy (log_view l)) (sv_ents (log_view l)) low high) max) ∨
     can_async ctx = true ∧ r = Err (Store LogTemporarilyUnavailable)).

Lemma store_self l : l <| RaftLog.store := RaftLog.store l |> = l.
Proof. by destruct l. Qed.

(** The whole slice lies in the unstable part. *)
Lemma slice_unstable l low high max ctx : log_wf l →
  sv_dummy (log_view l) < low → low < high → high ≤ vlast (log_view l) + 1 →
  Unstable.offset (RaftLog.unstable l) ≤ low →
  slice_result l low high max ctx (RaftLog.slice l low high max ctx).
Proof.
  intros Hl Hlo Hlh Hhi Hlow. pose proof (log_view_offset l Hl) as Hoff. unfold RaftLog.slice.
  rewrite must_check_view by (done || lia). rewrite Hoff in Hhi. pose proof Hl as [Hs Hu Hj He].
  set (off := Unstable.offset (RaftLog.unstable l)) in *. cbn [mbind outcome_bind mret outcome_ret].
  rewrite (proj2 (N.eqb_neq _ _)), (proj2 (N.ltb_ge low off)), (proj2 (N.ltb_lt off high)) by lia.
  cbn [mbind outcome_bind mret outcome_ret].
  rewrite (slice_wf _ Hu) by (fold off; lia). cbn [mbind outcome_bind mret outcome_ret]. rewrite N.max_l by lia.
  exists (RaftLog.store l). eexists. rewrite store_self.
  split_and!; [done|done|done|left]. f_equal. f_equal. fold off. symmetry.
  unfold log_view in *. destruct (Unstable.snapshot (RaftLog.unstable l)) as [snap|] eqn:E; simpl in *.
  - pose proof (Unstable.wf_snapshot _ Hu _ E). unfold sub_entries. do 2 f_equal. lia.
  - specialize (Hj eq_refl). unfold vlast in Hj. fold off. by rewrite sub_entries_high by lia.
Qed.

(** The storage's part of a slice that starts below the unstable offset. *)
Lemma slice_stable l low high max ctx : log_wf l →
  sv_dummy (log_view l) < low → low < high → high ≤ vlast (log_view l) + 1 →
  low < Unstable.offset (RaftLog.unstable l) →
  slice_result l low high max ctx (RaftLog.slice l low high max ctx).
Proof.
  intros Hl Hlo Hlh Hhi Hlow. pose proof (log_view_offset l Hl) as Hoff. unfold RaftLog.slice.
  rewrite must_check_view by (done || lia). rewrite Hoff in Hhi. pose proof Hl as [Hs Hu Hj He].
  pose proof (Unstable.wf_bound _ Hu) as Hub.
  set (off := Unstable.offset (RaftLog.unstable l)) in *. cbn [mbind outcome_bind mret outcome_ret].
  rewrite (proj2 (N.eqb_neq _ _)), (proj2 (N.ltb_lt low off)) by lia.
  destruct (Unstable.snapshot (RaftLog.unstable l)) as [snap|] eqn:E.
  { pose proof (Unstable.wf_snapshot _ Hu _ E). unfold log_view in Hlo. rewrite E in Hlo. simpl in Hlo. lia. }
  specialize (Hj eq_refl). unfold slice_result, log_view in *. rewrite E in *. cbn [sv_dummy sv_ents] in *.
  fold off. set (v := st_view (RaftLog.store l)) in *. unfold vlast in Hj. clear Hoff.
  destruct (st_entries_law (RaftLog.store l) low (N.min high off) max ctx Hs) as (st & r & Hent & Hst & Hv & Hr);
    [done|lia|unfold v in *; lia|].
  rewrite Hent. cbn [mbind outcome_bind]. exists st.
  destruct Hr as [->|[Ha ->]]; [|eexists; split_and!; [done|done|done|by right]].
  fold v. set (a := sub_entries (sv_dummy v) (sv_ents v) low (N.min high off)).
  assert (len a = N.min high off - low) as Hla.
  { unfold a, sub_entries, len in *. rewrite length_take, length_drop. lia. }
  pose proof (limit_size_length a max) as Hlim. u64_norm.
  destruct (N.ltb_spec (len (limit_size a max)) (N.min high off - low)) as [Hcut|Hcut].
  - eexists. split_and!; [done|done|done|left]. f_equal. symmetry.
    destruct (N.le_gt_cases high off) as [Hho|Hho].
    + rewrite sub_entries_low by lia. unfold a. by rewrite N.min_l.
    + rewrite sub_entries_split by lia. replace off with (N.min high off) at 1 by lia. fold a.
      apply limit_size_app. unfold len in *. lia.
  - rewrite (limit_size_full a max) by (unfold len in *; lia). cbn [mbind outcome_bind mret outcome_ret].
    change (RaftLog.unstable (l <| RaftLog.store := st |>)) with (RaftLog.unstable l).
    destruct (N.ltb_spec off high) as [Hho|Hho].
    + rewrite (slice_wf _ Hu) by (fold off; lia). cbn [mbind outcome_bind mret outcome_ret]. fold off.
      eexists. split_and!; [done|done|done|left]. f_equal. f_equal. rewrite sub_entries_split by lia.
      unfold a. rewrite N.min_r by lia. f_equal. by rewrite N.max_r, N.sub_diag by lia.
    + eexists. split_and!; [done|done|done|left]. do 2 f_equal. rewrite sub_entries_low by lia.
      unfold a. by rewrite N.min_l.
Qed.

(** A slice of the log, cut to the size limit: the storage's part and the
    unstable part put together. *)
Lemma slice_view l low high max ctx : log_wf l →
  sv_dummy (log_view l) < low → low ≤ high → high ≤ vlast (log_view l) + 1 →
  slice_result l low high max ctx (RaftLog.slice l low high max ctx).
Proof.
  intros Hl Hlo Hlh Hhi. destruct (decide (low = high)) as [->|Hne].
  - unfold RaftLog.slice. rewrite must_check_view by done. cbn [mbind outcome_bind]. rewrite N.eqb_refl.
    exists (RaftLog.store l), (Ok []). rewrite store_self. split_and!; [done|apply Hl|done|left].
    unfold sub_entries. by rewrite N.sub_diag.
  - destruct (N.lt_ge_cases low (Unstable.offset (RaftLog.unstable l)));
      [apply slice_stable|apply slice_unstable]; done || lia.
Qed.

(** Reading does not change the log. *)
Lemma log_wf_store l st : log_wf l → st_wf st → st_view st = st_view (RaftLog.store l) →
  log_wf (l <| RaftLog.store := st |>) ∧ log_view (l <| RaftLog.store := st |>) = log_view l.
Proof.
  intros [Hs Hu Hj He] Hst Hv. split; [split; simpl; rewrite ?Hv; done|].
  unfold log_view. simpl. by rewrite Hv.
Qed.
End slices.

Section more_ops.
Context {S : Type} `{StorageLaws S}.
Implicit Types (l : RaftLog.t S).

(** The search of [find_conflict_by_term] ends within its rounds. *)
Lemma find_conflict_loop_spec l tm index : log_wf l →
  index ≤ vlast (log_view l) →
  (sv_dummy (log_view l) = 0 → sv_dummy_term (log_view l) = Some 0) →
  ∀ fuel, (N.to_nat index < fuel)%nat →
  ∃ i r, RaftLog.find_conflict_loop l fuel index tm = Done (i, r) ∧ i ≤ index ∧
    (∀ j, i < j → j ≤ index → ∃ t, vterm (log_view l) j = Ok t ∧ tm < t) ∧
    match r with Some t => vterm (log_view l) i = Ok t ∧ t ≤ tm
               | None => vterm (log_view l) i = Err (Store Compacted) end.
Proof.
  intros Hl Hi Hz. induction index as [|index IH] using N.peano_ind; intros fuel Hf;
    (destruct fuel as [|fuel]; [lia|]); cbn [RaftLog.find_conflict_loop];
    rewrite term_view by done; cbn [mbind outcome_bind].
  - assert (vterm (log_view l) 0 = Ok 0) as Hv0.
    { unfold vterm. destruct (N.eqb_spec 0 (sv_dummy (log_view l))) as [E|E]; [by rewrite Hz by done|].
      by rewrite vlookup_None by lia. }
    rewrite Hv0, (proj2 (N.ltb_ge _ _)) by lia. exists 0, (Some 0). split_and!; [done|done|lia|done|lia].
  - destruct (vterm (log_view l) (N.succ index)) as [t|e] eqn:E.
    + destruct (N.ltb_spec tm t) as [Ht|Ht].
      * pose proof (log_view_wf l Hl) as [_ Hb]. rewrite u64_sub_small by (unfold u64_modulus in *; lia).
        replace (N.succ index - 1) with index by lia.
        destruct (IH ltac:(lia) fuel ltac:(lia)) as (i & r & Hr & Hle & Hgt & Hm).
        exists i, r. split_and!; [done|lia| |done]. intros j Hij Hj.
        destruct (decide (j = N.succ index)) as [->|]; [by exists t|]. apply Hgt; lia.
      * exists (N.succ index), (Some t). split_and!; [done|done|lia|done|done].
    + exists (N.succ index), None. split_and!; [done|done|lia|]. revert E. unfold vterm.
      repeat case_match; naive_solver.
Qed.

Lemma maybe_commit_view l k tm : log_wf l → k ≤ vlast (log_view l) →
  RaftLog.maybe_commit l k tm =
  if decide (RaftLog.committed l < k ∧ vterm (log_view l) k = Ok tm)
  then Done (l <| RaftLog.committed := k |>, true) else Done (l, false).
Proof.
  intros Hl Hk. unfold RaftLog.maybe_commit. destruct (N.ltb_spec (RaftLog.committed l) k) as [Hc|Hc];
    [|by rewrite decide_False by lia].
  rewrite term_view by done. cbn [mbind outcome_bind].
  destruct (vterm (log_view l) k) as [t|e] eqn:E; simpl; [|by rewrite decide_False by naive_solver].
  destruct (N.eqb_spec t tm) as [->|Hne]; [|by rewrite decide_False by naive_solver].
  rewrite decide_True, commit_to_view by done. simpl. unfold mret, outcome_ret, upd.
  by rewrite N.max_r by lia.
Qed.

(** [maybe_persist] only moves [persisted] forward, below the unstable part. *)
Lemma maybe_persist_view l i tm l' b : log_wf l →
  RaftLog.maybe_persist l i tm = Done (l', b) →
  log_wf l' ∧ log_view l' = log_view l ∧
  RaftLog.persisted l' = (if b then i else RaftLog.persisted l) ∧ RaftLog.persisted l ≤ RaftLog.persisted l' ∧
  (b = true → i < Unstable.offset (RaftLog.unstable l)).
Proof.
  intros Hl. unfold RaftLog.maybe_persist.
  destruct (_ && _) eqn:E; intros Hr; simplify_outcome; [|split_and!; done].
  apply andb_true_iff in E as [E1%N.ltb_lt E2%N.ltb_lt].
  assert (i < Unstable.offset (RaftLog.unstable l)) as Hlt.
  { destruct (Unstable.snapshot (RaftLog.unstable l)) as [snap|] eqn:Es; [|done].
    pose proof (Unstable.wf_snapshot _ (lw_unstable _ Hl) _ Es). lia. }
  destruct (is_ok_and _ _); simplify_outcome; split_and!; try done; [by destruct Hl|lia].
Qed.

Lemma restore_view l snap : log_wf l → index_inv l →
  sm_index (s_metadata snap) + 1 < u64_modulus →
  RaftLog.committed l ≤ sm_index (s_metadata snap) →
  ∃ l', RaftLog.restore l snap = Done l' ∧ log_wf l' ∧ index_inv l' ∧
    log_view l' = mkView (sm_index (s_metadata snap)) (Some (sm_term (s_metadata snap))) [] ∧
    RaftLog.committed l' = sm_index (s_metadata snap) ∧
    RaftLog.persisted l' = N.min (RaftLog.persisted l) (RaftLog.committed l).
Proof.
  intros Hl Hi Hb Hc. unfold RaftLog.restore. rewrite (proj2 (N.leb_le _ _)) by done. simpl.
  eexists. split; [done|]. pose proof (restore_wf (RaftLog.unstable l) snap Hb) as Hu.
  destruct Hl as [Hs Hu0 Hj He], Hi as [Hi1 Hi2 Hi3 Hi4].
  destruct (N.ltb_spec (RaftLog.committed l) (RaftLog.persisted l)); simpl;
    (split_and!; [split; done| |done|done|simpl; lia]); (split; simpl; u64_norm; rewrite ?len_nil; unfold vlast; simpl; lia).
Qed.

Lemma next_entries_since_view l since max : log_wf l → index_inv l → since + 1 < u64_modulus →
  let hi := N.min (RaftLog.committed l) (RaftLog.persisted l +w RaftLog.max_apply_unpersisted_log_limit l) + 1 in
  let lo := N.max (since + 1) (sv_dummy (log_view l) + 1) in
  ∃ l' r, RaftLog.next_entries_since l since max = Done (l', r) ∧ log_wf l' ∧ log_view l' = log_view l ∧
    r = if decide (lo < hi)
        then Some (limit_size (sub_entries (sv_dummy (log_view l)) (sv_ents (log_view l)) lo hi) max) else None.
Proof.
  intros Hl Hi Hsb hi lo. unfold RaftLog.next_entries_since, RaftLog.applied_index_upper_bound.
  rewrite first_index_view by done. cbn [mbind outcome_bind]. pose proof (log_view_wf l Hl) as [_ Hvb].
  destruct Hi as [Hi1 Hi2 Hi3 Hi4]. rewrite (u64_add_small since), (u64_add_small (N.min _ _)) by lia. fold hi lo.
  destruct (N.ltb_spec lo hi) as [Hlt|Hlt].
  - destruct (slice_view l lo hi max GenReady) as (st & r & Hr & Hst & Hv & [->|[? _]]); [done|lia..| |done].
    rewrite Hr. cbn [mbind outcome_bind mret outcome_ret]. do 2 eexists. split; [done|].
    destruct (log_wf_store l st Hl Hst Hv) as [? ?]. by rewrite decide_True.
  - do 2 eexists. split; [done|]. by rewrite decide_False by lia.
Qed.
End more_ops.

(** ** Properties *)

(** C9: [maybe_append] on a contiguous batch that follows an index of the log.
    It rejects exactly when the term at the preceding index differs; it panics
    exactly when the first entry that differs from the log is already
    committed; otherwise the log keeps its prefix up to the first difference,
    takes the rest from the batch (and is untouched when there is none), then
    contains every entry of the batch, keeps every committed entry, and its
    commit index moves to the leader's, capped by the last new entry, never
    backwards. *)
Theorem maybe_append_refines {S} `{StorageLaws S} (l : RaftLog.t S) (idx tm c : N) (ents : list Entry)
    (Hl : log_wf l) (Hi : index_inv l)
    (Hct : contiguous (idx + 1) ents) (Ht : Forall (λ e, e_term e ≠ 0) ents)
    (Hd : sv_dummy (log_view l) ≤ idx) (Hlast : idx ≤ vlast (log_view l))
    (Hb : idx + len ents + 1 < u64_modulus) :
  match RaftLog.maybe_append l idx tm c ents with
  | Done (l', None) => vterm (log_view l) idx ≠ Ok tm ∧ l' = l
  | Panicked => vterm (log_view l) idx = Ok tm ∧
      0 < vconflict (log_view l) idx ents ≤ RaftLog.committed l
  | Done (l', Some (conflict, last_new)) =>
      vterm (log_view l) idx = Ok tm ∧
      conflict = vconflict (log_view l) idx ents ∧ last_new = idx + len ents ∧
      log_wf l' ∧ index_inv l' ∧ log_view l' = vreceive (log_view l) idx ents ∧
      (∀ j e, ents !! j = Some e →
        ∃ e', vlookup (log_view l') (idx + 1 + N.of_nat j) = Some e' ∧ e_term e' = e_term e) ∧
      (∀ i, i ≤ RaftLog.committed l → vlookup (log_view l') i = vlookup (log_view l) i) ∧
      RaftLog.committed l' = N.max (RaftLog.committed l) (N.min c (idx + len ents))
  end.
Proof.
  destruct (decide (vterm (log_view l) idx = Ok tm)) as [Hm|Hm]; [|by rewrite maybe_append_reject].
  destruct (decide (0 < vconflict (log_view l) idx ents ≤ RaftLog.committed l)) as [Hp|Hp].
  { rewrite maybe_append_committed by (done || lia). done. }
  destruct (maybe_append_accept l idx tm c ents) as (l' & -> & Hl' & Hi' & Hv' & Hc' & _); [done..|lia|].
  split_and!; try done.
  - intros j e He. rewrite Hv'. by apply vreceive_lookup.
  - intros i Hic. rewrite Hv'. unfold vconflict in Hp. destruct (decide (vmatched _ ents = length ents)) as [E|E].
    + unfold vreceive. by rewrite decide_True.
    + apply vreceive_lookup_low; [done..|lia].
Qed.

(** C24: [find_conflict_by_term] always returns.  Up to the last index of the
    log it goes down from the given index past the entries of larger terms: it
    stops at the largest index whose term is at most the given one, with that
    term, or, when all the terms it can see are larger, at the first index whose
    term is compacted away, without a term; beyond the last index it answers
    the index itself without a term.  A log that starts at zero has term zero
    there. *)
Theorem find_conflict_by_term_spec {S} `{StorageLaws S} (l : RaftLog.t S) (index tm : N)
    (Hl : log_wf l) (Hz : sv_dummy (log_view l) = 0 → sv_dummy_term (log_view l) = Some 0) :
  ∃ i r, RaftLog.find_conflict_by_term l index tm = Done (i, r) ∧
    if decide (index ≤ vlast (log_view l)) then
      i ≤ index ∧ (∀ j, i < j → j ≤ index → ∃ t, vterm (log_view l) j = Ok t ∧ tm < t) ∧
      match r with Some t => vterm (log_view l) i = Ok t ∧ t ≤ tm
                 | None => vterm (log_view l) i = Err (Store Compacted) end
    else i = index ∧ r = None.
Proof.
  unfold RaftLog.find_conflict_by_term. rewrite last_index_view by done. cbn [mbind outcome_bind]. case_decide as Hi.
  - rewrite (proj2 (N.ltb_ge _ _)) by done. apply find_conflict_loop_spec; [done..|lia].
  - rewrite (proj2 (N.ltb_lt _ _)) by lia. by exists index, None.
Qed.

(** C22: A slice of the log, whose entries may lie in storage, in the unstable
    part or across both, is the corresponding part of the logical log cut to
    the size limit; only where the caller accepts it may the storage answer
    that it is still fetching.  Reading leaves the logical log as it was. *)
Theorem raft_log_slice_refines {S} `{StorageLaws S} (l : RaftLog.t S) (low high : N) (max : option N)
    (ctx : GetEntriesContext)
    (Hl : log_wf l) (Hlo : sv_dummy (log_view l) < low) (Hlh : low ≤ high)
    (Hhi : high ≤ vlast (log_view l) + 1) :
  ∃ l' r, RaftLog.slice l low high max ctx = Done (l', r) ∧ log_wf l' ∧ log_view l' = log_view l ∧
    (r = Ok (limit_size (sub_entries (sv_dummy (log_view l)) (sv_ents (log_view l)) low high) max) ∨
     can_async ctx = true ∧ r = Err (Store LogTemporarilyUnavailable)).
Proof.
  destruct (slice_view l low high max ctx) as (st & r & Hr & Hst & Hv & Hres); [done..|].
  destruct (log_wf_store l st Hl Hst Hv). by exists (l <| RaftLog.store := st |>), r.
Qed.

(** C23: [next_entries] hands out exactly the entries after the applied index up
    to the commit index, and no further than the persisted index plus the
    configured allowance, in order and cut to the size limit. *)
Theorem next_entries_spec {S} `{StorageLaws S} (l : RaftLog.t S) (max : option N)
    (Hl : log_wf l) (Hi : index_inv l) (Hd : sv_dummy (log_view l) ≤ RaftLog.applied l)
    (Hb : RaftLog.persisted l + RaftLog.max_apply_unpersisted_log_limit l < u64_modulus) :
  let hi := N.min (RaftLog.committed l) (RaftLog.persisted l + RaftLog.max_apply_unpersisted_log_limit l) + 1 in
  ∃ l' r, RaftLog.next_entries l max = Done (l', r) ∧ log_wf l' ∧ log_view l' = log_view l ∧
    r = if decide (RaftLog.applied l + 1 < hi)
        then Some (limit_size (sub_entries (sv_dummy (log_view l)) (sv_ents (log_view l))
                                 (RaftLog.applied l + 1) hi) max)
        else None.
Proof.
  intros hi. pose proof (log_view_wf l Hl) as [_ Hvb]. pose proof Hi as [Hi1 Hi2 Hi3 Hi4].
  destruct (next_entries_since_view l (RaftLog.applied l) max Hl Hi ltac:(lia)) as (l' & r & Hr & ? & ? & ->).
  unfold RaftLog.next_entries. rewrite Hr. exists l'. eexists. split; [done|]. split_and!; [done..|].
  rewrite u64_add_small by done. fold hi. by rewrite N.max_l by lia.
Qed.

(** C25: Restoring a snapshot at or beyond the commit index replaces the whole
    log by the snapshot, commits its index, and lowers [persisted] to what is
    known to agree with the snapshot; below the commit index it panics. *)
Theorem raft_log_restore_spec {S} `{StorageLaws S} (l : RaftLog.t S) (snap : Snapshot)
    (Hl : log_wf l) (Hi : index_inv l) (Hb : sm_index (s_metadata snap) + 1 < u64_modulus) :
  match RaftLog.restore l snap with
  | Done l' => RaftLog.committed l ≤ sm_index (s_metadata snap) ∧ log_wf l' ∧ index_inv l' ∧
      log_view l' = mkView (sm_index (s_metadata snap)) (Some (sm_term (s_metadata snap))) [] ∧
      RaftLog.committed l' = sm_index (s_metadata snap) ∧
      RaftLog.persisted l' = N.min (RaftLog.persisted l) (RaftLog.committed l)
  | Panicked => sm_index (s_metadata snap) < RaftLog.committed l
  end.
Proof.
  destruct (N.le_gt_cases (RaftLog.committed l) (sm_index (s_metadata snap))) as [Hc|Hc].
  - by destruct (restore_view l snap Hl Hi Hb Hc) as (l' & -> & Hrest).
  - unfold RaftLog.restore. by rewrite (proj2 (N.leb_gt _ _)).
Qed.

(** ** Witnesses *)

Definition w_log : RaftLog.t MemStorage.t :=
  RaftLog.mk w_store (Unstable.mk None [w_entry 5 2; w_entry 6 2] 24 5) 4 4 3 0.

Lemma w_log_wf : @log_wf _ _ _ (@mem_storage_laws w_proto) w_log.
Proof. split; [exact w_store_wf|split; done|done|done]. Qed.

Lemma w_log_index : @index_inv _ _ _ (@mem_storage_laws w_proto) w_log.
Proof. by split. Qed.

Abbreviation w_view l := (@log_view _ _ _ (@mem_storage_laws w_proto) l) (only parsing).

Lemma maybe_append_refines_witness :
  match @RaftLog.maybe_append _ (@MemStorage.storage w_proto) w_log 4 1 9 [w_entry 5 2; w_entry 6 3] with
  | Done (l', Some (conflict, last_new)) =>
      conflict = 6 ∧ last_new = 6 ∧ RaftLog.committed l' = 6 ∧
      ∃ e, vlookup (w_view l') 6 = Some e ∧ e_term e = 3
  | _ => False
  end.
Proof.
  pose proof (@maybe_append_refines _ _ _ (@mem_storage_laws w_proto) w_log 4 1 9 [w_entry 5 2; w_entry 6 3]
    w_log_wf w_log_index ltac:(done) ltac:(by repeat constructor) ltac:(done) ltac:(done) ltac:(done)) as Hr.
  destruct (RaftLog.maybe_append _ _ _ _ _) as [[l' [[ci ln]|]]|].
  - destruct Hr as (_ & -> & -> & _ & _ & _ & Hents & _ & ->). split_and!; [done..|].
    destruct (Hents 1%nat (w_entry 6 3) eq_refl) as (e & He & Ht). by exists e.
  - destruct Hr as [Hr _]. by apply Hr.
  - destruct Hr as (_ & _ & Hle). by vm_compute in Hle.
Defined.

Lemma find_conflict_by_term_spec_witness :
  ∃ i r, @RaftLog.find_conflict_by_term _ (@MemStorage.storage w_proto) w_log 6 1 = Done (i, r) ∧ i ≤ 6 ∧
    (∀ j, i < j → j ≤ 6 → ∃ t, vterm (w_view w_log) j = Ok t ∧ 1 < t) ∧
    match r with Some t => vterm (w_view w_log) i = Ok t ∧ t ≤ 1
               | None => vterm (w_view w_log) i = Err (Store Compacted) end.
Proof.
  pose proof (@find_conflict_by_term_spec _ _ _ (@mem_storage_laws w_proto) w_log 6 1 w_log_wf ltac:(done)) as (i & r & E & Hf).
  rewrite decide_True in Hf by done. exists i, r. split; [exact E|exact Hf].
Defined.

Lemma raft_log_slice_refines_witness :
  ∃ l' r, @RaftLog.slice _ (@MemStorage.storage w_proto) w_proto w_log 3 7 None GenReady = Done (l', r) ∧
    @log_wf _ _ _ (@mem_storage_laws w_proto) l' ∧ w_view l' = w_view w_log ∧
    (r = Ok [w_entry 3 1; w_entry 4 1; w_entry 5 2; w_entry 6 2] ∨
     can_async GenReady = true ∧ r = Err (Store LogTemporarilyUnavailable)).
Proof.
  apply (@raft_log_slice_refines _ _ _ (@mem_storage_laws w_proto) w_log 3 7 None GenReady w_log_wf); done.
Defined.

Lemma next_entries_spec_witness :
  ∃ l' r, @RaftLog.next_entries _ (@MemStorage.storage w_proto) w_proto w_log None = Done (l', r) ∧
    @log_wf _ _ _ (@mem_storage_laws w_proto) l' ∧ w_view l' = w_view w_log ∧
    r = Some [w_entry 4 1].
Proof.
  apply (@next_entries_spec _ _ _ (@mem_storage_laws w_proto) w_log None w_log_wf w_log_index); done.
Defined.

Definition w_snap : Snapshot := mkSnapshot [] (mkSnapshotMetadata default_ConfState 9 3).

Lemma raft_log_restore_spec_witness :
  match RaftLog.restore w_log w_snap with
  | Done l' => RaftLog.committed l' = 9 ∧ RaftLog.persisted l' = 4
  | Panicked => False
  end.
Proof.
  pose proof (@raft_log_restore_spec _ _ _ (@mem_storage_laws w_proto) w_log w_snap
    w_log_wf w_log_index ltac:(done)) as Hr.
  destruct (RaftLog.restore w_log w_snap) as [l'|]; [|by vm_compute in Hr].
  by destruct Hr as (_ & _ & _ & _ & -> & ->).
Defined.
