(* ===== verification/Quorum.v ===== *)
(** * Quorums (src/src/quorum.rs, quorum/majority.rs, quorum/joint.rs)

    Vote counting and commit-index computation over a majority configuration
    and over a joint pair of them. *)
From S2P Require Import Prelude Errors Eraftpb Util.

Inductive VoteResult : Type :=
| Pending
| Lost
| Won.
#[export] Instance VoteResult_eq_dec : EqDecision VoteResult.
Proof. solve_decision. Defined.

Record Index : Type := mkIndex { i_index : N; i_group_id : N }.
Definition default_Index : Index := mkIndex 0 0.

(** The trait [AckedIndexer]. *)
Class AckedIndexer (L : Type) := acked_index : L → N → option Index.

(** [AckIndexer] is a hash map from voters to indexes. *)
#[export] Instance AckIndexer_acked : AckedIndexer (gmap N Index) := λ l voter, l !! voter.

(** [sort_by_key(|b| Reverse(b.index))]: a stable sort, largest index first. *)
Fixpoint insert_desc (x : Index) (l : list Index) : list Index :=
  match l with
  | [] => [x]
  | y :: l' => if i_index y <=? i_index x then x :: y :: l' else y :: insert_desc x l'
  end.
Definition sort_desc (l : list Index) : list Index := foldr insert_desc [] l.

(** ** Majority configurations *)
Module Majority.

(** A majority configuration is its set of voters. *)
Abbreviation Configuration := (gset N).

Section majority.
Context `{HashOrder} {L : Type} `{AckedIndexer L}.

(** [slice]: the voters in increasing order. *)
Definition raw_slice (c : Configuration) : list N := set_iter c.
Definition slice (c : Configuration) : list N := merge_sort N.le (raw_slice c).

(** What a voter has acknowledged, zero when nothing is known of it. *)
Definition acked (l : L) (v : N) : Index := default default_Index (acked_index l v).

(** The acknowledged indexes of the voters, in decreasing order. *)
Definition matched (c : Configuration) (l : L) : list Index :=
  sort_desc (acked l <$> set_iter c).

(** The loop of [committed_index] over groups; [None] when it falls through,
    with the final value of [single_group]. *)
Fixpoint group_scan (ms : list Index) (quorum_commit_index checked_group_id : N)
    (single_group : bool) : option (N * bool) * bool :=
  match ms with
  | [] => (None, single_group)
  | m :: ms' =>
    if i_group_id m =? 0 then group_scan ms' quorum_commit_index checked_group_id false
    else if checked_group_id =? 0
      then group_scan ms' quorum_commit_index (i_group_id m) single_group
    else if checked_group_id =? i_group_id m
      then group_scan ms' quorum_commit_index checked_group_id single_group
    else (Some (N.min (i_index m) quorum_commit_index, true), single_group)
  end.

Definition committed_index (c : Configuration) (use_group_commit : bool) (l : L) : N * bool :=
  if bool_decide (c = ∅) then (u64_max, true)
  else
    let ms := matched c l in
    let quorum := majority (len ms) in
    let quorum_index := default default_Index (ms !! N.to_nat (quorum - 1)) in
    if negb use_group_commit then (i_index quorum_index, false)
    else match group_scan ms (i_index quorum_index) (i_group_id quorum_index) true with
         | (Some r, _) => r
         | (None, true) => (i_index quorum_index, false)
         | (None, false) => (i_index (default default_Index (last ms)), false)
         end.

Definition one_less_than_quorum (c : Configuration) (l : L) : N :=
  let n := N.of_nat (size c) in
  if n =? 0 then u64_max
  else
    let ms := matched c l in
    let pos := if n <=? 2 then 0 else n / 2 - 1 in
    i_index (default default_Index (ms !! N.to_nat pos)).

(** The counting loop shared by [vote_result] and [vote_result_with_diff]:
    the numbers of yes votes and of missing votes. *)
Fixpoint count_votes (check : N → option bool) (vs : list N) (yes missing : N) : N * N :=
  match vs with
  | [] => (yes, missing)
  | v :: vs' =>
    match check v with
    | Some true => count_votes check vs' (yes + 1) missing
    | None => count_votes check vs' yes (missing + 1)
    | Some false => count_votes check vs' yes missing
    end
  end.

Definition vote_result_with_diff (c : Configuration) (check : N → option bool) : VoteResult * N :=
  if bool_decide (c = ∅) then (Won, 0)
  else
    let '(yes, missing) := count_votes check (set_iter c) 0 0 in
    let q := majority (N.of_nat (size c)) in
    if q <=? yes then (Won, 0)
    else if q <=? yes + missing then (Pending, q - yes)
    else (Lost, 0).

Definition vote_result (c : Configuration) (check : N → option bool) : VoteResult :=
  if bool_decide (c = ∅) then Won
  else
    let '(yes, missing) := count_votes check (set_iter c) 0 0 in
    let q := majority (N.of_nat (size c)) in
    if q <=? yes then Won
    else if q <=? yes + missing then Pending
    else Lost.

End majority.
End Majority.

(** ** Joint configurations *)
Module Joint.

Record Configuration : Type := mkJoint { incoming : gset N; outgoing : gset N }.
#[global] Instance eta_Configuration : Eta Configuration := λ c,
  mkJoint (incoming c) (outgoing c).
#[global] Instance Configuration_eq_dec : EqDecision Configuration.
Proof. solve_decision. Defined.

Definition new (voters : gset N) : Configuration := mkJoint voters ∅.

Definition combine (i o : VoteResult) : VoteResult :=
  match i, o with
  | Won, Won => Won
  | Lost, _ | _, Lost => Lost
  | _, _ => Pending
  end.

Section joint.
Context `{HashOrder} {L : Type} `{AckedIndexer L}.

Definition committed_index (c : Configuration) (use_group_commit : bool) (l : L) : N * bool :=
  let '(i_idx, i_use_gc) := Majority.committed_index (incoming c) use_group_commit l in
  let '(o_idx, o_use_gc) := Majority.committed_index (outgoing c) use_group_commit l in
  (N.min i_idx o_idx, i_use_gc && o_use_gc).

Definition vote_result (c : Configuration) (check : N → option bool) : VoteResult :=
  combine (Majority.vote_result (incoming c) check) (Majority.vote_result (outgoing c) check).

Definition one_less_than_quorum (c : Configuration) (l : L) : N :=
  N.min (Majority.one_less_than_quorum (incoming c) l)
        (Majority.one_less_than_quorum (outgoing c) l).

Definition vote_result_with_diff (c : Configuration) (check : N → option bool)
    : VoteResult * (N * N) :=
  let '(i, i_diff) := Majority.vote_result_with_diff (incoming c) check in
  let '(o, o_diff) := Majority.vote_result_with_diff (outgoing c) check in
  (combine i o, (i_diff, o_diff)).

Definition clear (c : Configuration) : Configuration := mkJoint ∅ ∅.

Definition is_singleton (c : Configuration) : bool :=
  bool_decide (outgoing c = ∅) && (N.of_nat (size (incoming c)) =? 1).

Definition ids (c : Configuration) : list N := union_iter (mkUnion (incoming c) (outgoing c)).

Definition contains (c : Configuration) (id : N) : bool :=
  bool_decide (id ∈ incoming c) || bool_decide (id ∈ outgoing c).

End joint.
End Joint.

(** ** Counting *)

(** [quorate c P]: the voters of [c] satisfying [P] form a majority; by
    convention the empty configuration is always quorate. *)
Definition quorate (c : gset N) (P : N → Prop) `{∀ v, Decision (P v)} : Prop :=
  c = ∅ ∨ majority (N.of_nat (size c)) ≤ N.of_nat (size (filter P c)).

Definition quorate_joint (c : Joint.Configuration) (P : N → Prop) `{∀ v, Decision (P v)} : Prop :=
  quorate (Joint.incoming c) P ∧ quorate (Joint.outgoing c) P.

#[export] Instance quorate_dec c P `{∀ v, Decision (P v)} : Decision (quorate c P).
Proof. unfold quorate. apply _. Defined.

Lemma length_filter_set_iter `{HashOrder} c P `{∀ v, Decision (P v)} :
  length (filter P (set_iter c)) = size (filter P c).
Proof.
  unfold size, set_size. simpl. apply Permutation_length.
  rewrite set_iter_perm. apply NoDup_Permutation.
  - apply NoDup_filter, NoDup_elements.
  - apply NoDup_elements.
  - intros x. rewrite list_elem_of_filter, !elem_of_elements, elem_of_filter. done.
Qed.

Lemma length_filter_fmap {A B} (f : A → B) (P : B → Prop) `{∀ b, Decision (P b)} l :
  length (filter P (f <$> l)) = length (filter (λ a, P (f a)) l).
Proof.
  induction l as [|a l IH]; [done|]. csimpl. rewrite !filter_cons.
  destruct (decide (P (f a))); simpl; by rewrite IH.
Qed.

Lemma quorate_mono c P Q `{∀ v, Decision (P v)} `{∀ v, Decision (Q v)} :
  (∀ v, v ∈ c → P v → Q v) → quorate c P → quorate c Q.
Proof.
  intros HPQ [->|Hq]; [by left|right].
  assert (size (filter P c) ≤ size (filter Q c))%nat; [|lia].
  apply subseteq_size. intros v. rewrite !elem_of_filter. naive_solver.
Qed.

Lemma quorate_iff c P Q `{∀ v, Decision (P v)} `{∀ v, Decision (Q v)} :
  (∀ v, v ∈ c → P v ↔ Q v) → quorate c P ↔ quorate c Q.
Proof. intros HPQ. split; apply quorate_mono; naive_solver. Qed.

(** Two quorums of one configuration share a voter. *)
Lemma quorate_overlap c P Q `{∀ v, Decision (P v)} `{∀ v, Decision (Q v)} :
  c ≠ ∅ → quorate c P → quorate c Q → ∃ v, v ∈ c ∧ P v ∧ Q v.
Proof.
  intros Hne [?|HP] [?|HQ]; try done.
  pose proof (majority_overlap (N.of_nat (size c))) as Hov.
  destruct (decide (filter P c ∩ filter Q c = ∅)) as [He|He].
  - exfalso. assert (size (filter P c ∪ filter Q c) ≤ size c)%nat.
    { apply subseteq_size. intros v. rewrite elem_of_union, !elem_of_filter. naive_solver. }
    rewrite size_union in H1 by set_solver. lia.
  - apply set_choose_L in He as [v Hv]. rewrite elem_of_intersection, !elem_of_filter in Hv.
    naive_solver.
Qed.

(** Not being a quorum: the rest blocks. *)
Lemma size_filter_split (c : gset N) P `{∀ v, Decision (P v)} :
  (size (filter P c) + size (filter (λ v, ¬ P v) c) = size c)%nat.
Proof.
  rewrite <-size_union; [|intros v; rewrite !elem_of_filter; naive_solver].
  f_equal. apply set_eq. intros v. rewrite elem_of_union, !elem_of_filter.
  destruct (decide (P v)); naive_solver.
Qed.

(** ** Sorting *)
Section sort_desc.

Lemma insert_desc_perm x l : insert_desc x l ≡ₚ x :: l.
Proof.
  induction l as [|y l IH]; [done|]. simpl. destruct (_ <=? _); [done|].
  rewrite IH. apply Permutation_swap.
Qed.

Lemma sort_desc_perm l : sort_desc l ≡ₚ l.
Proof. induction l as [|x l IH]; [done|]. simpl. by rewrite insert_desc_perm, IH. Qed.

Lemma insert_desc_sorted x l :
  StronglySorted (λ a b, i_index b ≤ i_index a) l →
  StronglySorted (λ a b, i_index b ≤ i_index a) (insert_desc x l).
Proof.
  induction 1 as [|y l Hl IH Hy]; simpl; [repeat constructor|].
  destruct (N.leb_spec (i_index y) (i_index x)).
  - constructor; [by constructor|]. constructor; [done|].
    eapply Forall_impl; [exact Hy|]. simpl. lia.
  - constructor; [done|]. rewrite insert_desc_perm. constructor; [lia|done].
Qed.

Lemma sort_desc_sorted l : StronglySorted (λ a b, i_index b ≤ i_index a) (sort_desc l).
Proof. induction l; simpl; [constructor|]. by apply insert_desc_sorted. Qed.

(** Position [k] of a decreasing list is at least [n] exactly when more than
    [k] elements are. *)
Lemma sorted_desc_nth (l : list Index) k a n :
  StronglySorted (λ a b, i_index b ≤ i_index a) l → l !! k = Some a →
  n ≤ i_index a ↔ (k < length (filter (λ x, (n ≤ i_index x)%N) l))%nat.
Proof.
  intros Hs. revert k. induction Hs as [|x l Hl IH Hx]; intros k Hk; [done|].
  rewrite Forall_forall in Hx. rewrite filter_cons. destruct k as [|k]; simpl in Hk.
  - simplify_eq. destruct (decide (n ≤ i_index a)); simpl; [naive_solver lia|].
    split; [done|]. intros Hlt. exfalso.
    destruct (filter _ l) as [|y l'] eqn:E; [simpl in Hlt; lia|].
    assert (y ∈ filter (λ x, n ≤ i_index x) l) as Hy by (rewrite E; left).
    apply list_elem_of_filter in Hy as [? Hy]. specialize (Hx y Hy). lia.
  - specialize (IH k Hk). assert (i_index a ≤ i_index x) as Hax.
    { apply Hx. by eapply list_elem_of_lookup_2. }
    destruct (decide (n ≤ i_index x)); simpl; [lia|].
    split; [lia|]. intros Hlt. assert (n ≤ i_index a) by (apply IH; lia). lia.
Qed.
End sort_desc.

(** ** What the computations decide *)
Section majority_facts.
Context `{HashOrder} {L : Type} `{AckedIndexer L}.
Implicit Types (c : gset N) (l : L).

Lemma length_matched c l : length (Majority.matched c l) = size c.
Proof.
  unfold Majority.matched. rewrite sort_desc_perm, length_fmap. apply length_set_iter.
Qed.

Lemma matched_sorted c l :
  StronglySorted (λ a b, i_index b ≤ i_index a) (Majority.matched c l).
Proof. apply sort_desc_sorted. Qed.

(** The quorum position is inside the array the code indexes. *)
Lemma matched_quorum_in_range c l :
  c ≠ ∅ → is_Some (Majority.matched c l !! N.to_nat (majority (len (Majority.matched c l)) - 1)).
Proof.
  intros Hc. apply lookup_lt_is_Some. unfold len. rewrite length_matched.
  assert (size c ≠ 0%nat) by (intros ?%size_empty_inv; set_solver).
  pose proof (majority_le (N.of_nat (size c))). pose proof (majority_pos (N.of_nat (size c))). lia.
Qed.

Lemma count_matched c l n :
  length (filter (λ x, (n ≤ i_index x)%N) (Majority.matched c l))
  = size (filter (λ v, n ≤ i_index (Majority.acked l v)) c).
Proof.
  unfold Majority.matched.
  rewrite (filter_Permutation _ _ _ (sort_desc_perm _)), length_filter_fmap.
  apply length_filter_set_iter.
Qed.

Lemma matched_nth c l k n :
  (N.to_nat k < size c)%nat →
  n ≤ i_index (default default_Index (Majority.matched c l !! N.to_nat k)) ↔
  k + 1 ≤ N.of_nat (size (filter (λ v, n ≤ i_index (Majority.acked l v)) c)).
Proof.
  intros Hk. rewrite <-(length_matched c l) in Hk.
  apply lookup_lt_is_Some in Hk as [a Ha]. rewrite Ha. simpl.
  rewrite (sorted_desc_nth _ _ _ n (matched_sorted c l) Ha), count_matched. lia.
Qed.

Lemma majority_committed_index_spec c l n :
  c ≠ ∅ →
  n ≤ (Majority.committed_index c false l).1 ↔
  quorate c (λ v, n ≤ i_index (Majority.acked l v)).
Proof.
  intros Hc. unfold Majority.committed_index. rewrite bool_decide_eq_false_2 by done. simpl.
  assert (size c ≠ 0%nat) by (intros ?%size_empty_inv; set_solver).
  unfold len. rewrite length_matched.
  pose proof (majority_le (N.of_nat (size c))). pose proof (majority_pos (N.of_nat (size c))).
  rewrite matched_nth by lia. unfold quorate.
  replace (majority (N.of_nat (size c)) - 1 + 1) with (majority (N.of_nat (size c))) by lia.
  naive_solver.
Qed.

Lemma committed_index_total c l n :
  n ≤ u64_max →
  n ≤ (Majority.committed_index c false l).1 ↔
  quorate c (λ v, n ≤ i_index (Majority.acked l v)).
Proof.
  intros Hn. destruct (decide (c = ∅)) as [->|Hc]; [|by apply majority_committed_index_spec].
  unfold Majority.committed_index. rewrite bool_decide_eq_true_2 by done. simpl.
  split; [by left|done].
Qed.

Lemma group_scan_le ms q g b i f b' :
  Majority.group_scan ms q g b = (Some (i, f), b') → i ≤ q ∧ f = true.
Proof.
  revert g b. induction ms as [|m ms IH]; intros g b; simpl; [done|].
  repeat case_match; eauto. intros; simplify_eq. split; [lia|done].
Qed.

Lemma last_matched_le c l k :
  c ≠ ∅ → (N.to_nat k < size c)%nat →
  i_index (default default_Index (last (Majority.matched c l)))
  ≤ i_index (default default_Index (Majority.matched c l !! N.to_nat k)).
Proof.
  intros Hc Hk. apply matched_nth; [done|].
  assert (size c ≠ 0%nat) by (intros ?%size_empty_inv; set_solver).
  rewrite last_lookup, length_matched.
  assert (N.of_nat (size c) - 1 + 1 ≤ N.of_nat (size (filter
    (λ v, i_index (default default_Index (Majority.matched c l !! N.to_nat (N.of_nat (size c) - 1)))
      ≤ i_index (Majority.acked l v)) c))) as Hall by (apply matched_nth; lia).
  replace (N.to_nat (N.of_nat (size c) - 1)) with (pred (size c)) in Hall by lia. lia.
Qed.

Lemma group_commit_le c l :
  (Majority.committed_index c true l).1 ≤ (Majority.committed_index c false l).1.
Proof.
  unfold Majority.committed_index. case_bool_decide as Hc; [done|]. simpl.
  assert (size c ≠ 0%nat) by (intros ?%size_empty_inv; set_solver).
  pose proof (majority_le (N.of_nat (size c))). pose proof (majority_pos (N.of_nat (size c))).
  destruct (Majority.group_scan _ _ _ _) as [[[i f]|] b] eqn:E.
  - by apply group_scan_le in E as [? _].
  - destruct b; simpl; [done|]. apply last_matched_le; [done|].
    unfold len. rewrite length_matched. lia.
Qed.

Lemma one_less_than_quorum_spec c l n :
  c ≠ ∅ →
  n ≤ Majority.one_less_than_quorum c l ↔
  N.max 1 (N.of_nat (size c) / 2) ≤ N.of_nat (size (filter (λ v, n ≤ i_index (Majority.acked l v)) c)).
Proof.
  intros Hc. assert (size c ≠ 0%nat) by (intros ?%size_empty_inv; set_solver).
  unfold Majority.one_less_than_quorum. set (k := N.of_nat (size c)).
  destruct (N.eqb_spec k 0); [lia|].
  pose proof (N.div_mod k 2 ltac:(lia)) as Hdm. pose proof (N.mod_lt k 2 ltac:(lia)) as Hmod.
  generalize dependent (k mod 2). generalize dependent (k / 2). intros h r Hr Hmod.
  destruct (N.leb_spec k 2).
  - rewrite matched_nth by lia. replace (N.max 1 h) with 1 by lia. lia.
  - rewrite matched_nth by lia. replace (N.max 1 h) with (h - 1 + 1) by lia. lia.
Qed.

Lemma count_votes_spec check vs y m :
  Majority.count_votes check vs y m =
  (y + N.of_nat (length (filter (λ v, check v = Some true) vs)),
   m + N.of_nat (length (filter (λ v, check v = None) vs))).
Proof.
  revert y m. induction vs as [|v vs IH]; intros y m; simpl; [f_equal; lia|].
  rewrite !filter_cons. destruct (check v) as [[]|] eqn:E; rewrite IH;
    repeat case_decide; simplify_eq; simpl; f_equal; lia.
Qed.

Lemma votes_partition c check :
  (size (filter (λ v, check v = Some true) c) + size (filter (λ v, check v = None) c)
   + size (filter (λ v, check v = Some false) c) = size c)%nat.
Proof.
  rewrite <-(size_filter_split c (λ v, check v = Some true)).
  rewrite <-(size_filter_split (filter (λ v, check v ≠ Some true) c) (λ v, check v = None)).
  rewrite <-Nat.add_assoc. f_equal. f_equal; f_equal; apply set_eq; intros v;
    rewrite !elem_of_filter; destruct (check v) as [[]|]; naive_solver.
Qed.

Lemma vote_result_fst_diff c check :
  (Majority.vote_result_with_diff c check).1 = Majority.vote_result c check.
Proof.
  unfold Majority.vote_result_with_diff, Majority.vote_result.
  repeat case_match; naive_solver.
Qed.

Lemma vote_result_Won c check :
  Majority.vote_result c check = Won ↔ quorate c (λ v, check v = Some true).
Proof.
  unfold Majority.vote_result, quorate. case_bool_decide as Hc; [naive_solver|].
  rewrite count_votes_spec, !length_filter_set_iter, !N.add_0_l.
  destruct (N.leb_spec (majority (N.of_nat (size c)))
    (N.of_nat (size (filter (λ v, check v = Some true) c)))); [naive_solver|].
  split; [case_match; done|]. intros [?|?]; [done|lia].
Qed.

Lemma vote_result_Lost c check :
  Majority.vote_result c check = Lost ↔ ¬ quorate c (λ v, check v ≠ Some false).
Proof.
  assert (size (filter (λ v, check v ≠ Some false) c) =
    size (filter (λ v, check v = Some true) c) + size (filter (λ v, check v = None) c))%nat as Hs.
  { pose proof (votes_partition c check).
    pose proof (size_filter_split c (λ v, check v = Some false)). lia. }
  unfold Majority.vote_result, quorate. case_bool_decide as Hc; [naive_solver|].
  rewrite count_votes_spec, !length_filter_set_iter, !N.add_0_l, Hs.
  destruct (N.leb_spec (majority (N.of_nat (size c)))
    (N.of_nat (size (filter (λ v, check v = Some true) c)))) as [Hw|Hw];
    [split; [done|intros []; right; lia]|].
  destruct (N.leb_spec (majority (N.of_nat (size c)))
    (N.of_nat (size (filter (λ v, check v = Some true) c))
     + N.of_nat (size (filter (λ v, check v = None) c)))) as [Hp|Hp];
    (split; [try done; try (intros _ [?|?]; [done|lia])|]); [intros []; right; lia|done].
Qed.

Lemma joint_combine i o :
  (Joint.combine i o = Won ↔ i = Won ∧ o = Won) ∧
  (Joint.combine i o = Lost ↔ i = Lost ∨ o = Lost).
Proof. destruct i, o; naive_solver. Qed.
End majority_facts.

(** ** Properties *)
Section properties.
Context `{HashOrder} {L : Type} `{AckedIndexer L}.

Lemma joint_Won (c : Joint.Configuration) (check : N → option bool) :
  Joint.vote_result c check = Won ↔ quorate_joint c (λ v, check v = Some true).
Proof.
  unfold Joint.vote_result, quorate_joint.
  by rewrite (proj1 (joint_combine _ _)), !vote_result_Won.
Qed.

Lemma joint_Lost (c : Joint.Configuration) (check : N → option bool) :
  Joint.vote_result c check = Lost ↔ ¬ quorate_joint c (λ v, check v ≠ Some false).
Proof.
  unfold Joint.vote_result, quorate_joint.
  rewrite (proj2 (joint_combine _ _)), !vote_result_Lost.
  destruct (decide (quorate (Joint.incoming c) (λ v, check v ≠ Some false))); naive_solver.
Qed.

Lemma vote_diff_pending c check d :
  Majority.vote_result_with_diff c check = (Pending, d) →
  c ≠ ∅ ∧ N.of_nat (size (filter (λ v, check v = Some true) c)) < majority (N.of_nat (size c)) ∧
  d = majority (N.of_nat (size c)) - N.of_nat (size (filter (λ v, check v = Some true) c)).
Proof.
  unfold Majority.vote_result_with_diff. case_bool_decide; [done|].
  rewrite count_votes_spec, !length_filter_set_iter, !N.add_0_l.
  destruct (N.leb_spec (majority (N.of_nat (size c)))
    (N.of_nat (size (filter (λ v, check v = Some true) c)))); [done|].
  case_match; naive_solver.
Qed.

Lemma joint_committed_index_quorate (c : Joint.Configuration) (l : L) (n : N) :
  n ≤ u64_max →
  n ≤ (Joint.committed_index c false l).1 ↔
  quorate_joint c (λ v, n ≤ i_index (Majority.acked l v)).
Proof.
  intros Hn. unfold Joint.committed_index, quorate_joint.
  rewrite <-!committed_index_total by done.
  destruct (Majority.committed_index (Joint.incoming c) false l).
  destruct (Majority.committed_index (Joint.outgoing c) false l). simpl. lia.
Qed.

Lemma joint_group_commit_le (c : Joint.Configuration) (l : L) :
  (Joint.committed_index c true l).1 ≤ (Joint.committed_index c false l).1.
Proof.
  unfold Joint.committed_index.
  pose proof (group_commit_le (Joint.incoming c) l). pose proof (group_commit_le (Joint.outgoing c) l).
  repeat case_match; simpl in *; lia.
Qed.

(** C19: The commit index of a joint configuration (without group commit) is the
    largest index acknowledged by a majority of each half: an index [n] is at
    most the computed one exactly when, in both halves, the voters whose
    acknowledged index is at least [n] form a quorum. *)
Theorem joint_committed_index_spec (c : Joint.Configuration) (l : L) (n : N)
    (Hn : n ≤ u64_max) :
  n ≤ (Joint.committed_index c false l).1 ↔
  quorate_joint c (λ v, n ≤ i_index (Majority.acked l v)).
Proof. by apply joint_committed_index_quorate. Qed.

(** C21: An election is won exactly when the granted votes form a quorum of both
    halves, and lost exactly when the votes not refused (granted or still
    missing) can no longer form a quorum of one of them. *)
Theorem joint_vote_result_spec (c : Joint.Configuration) (check : N → option bool) :
  (Joint.vote_result c check = Won ↔ quorate_joint c (λ v, check v = Some true)) ∧
  (Joint.vote_result c check = Lost ↔ ¬ quorate_joint c (λ v, check v ≠ Some false)).
Proof. split; [apply joint_Won|apply joint_Lost]. Qed.

(** Any two elections won under one joint configuration share a voter that
    granted both: the overlap on which at most one leader per term rests. *)
Lemma joint_elections_overlap (c : Joint.Configuration) (check1 check2 : N → option bool)
    (Hne : Joint.incoming c ≠ ∅)
    (H1 : Joint.vote_result c check1 = Won) (H2 : Joint.vote_result c check2 = Won) :
  ∃ v, v ∈ Joint.incoming c ∧ check1 v = Some true ∧ check2 v = Some true.
Proof.
  apply joint_Won in H1 as [H1 _]. apply joint_Won in H2 as [H2 _].
  exact (quorate_overlap _ _ _ Hne H1 H2).
Qed.

(** C20: Whatever index the leader computes as committed, with or without group
    commit, every election won under the same configuration was granted by a
    voter that had acknowledged at least that index. *)
Theorem commit_election_overlap (c : Joint.Configuration) (use_group_commit : bool) (l : L)
    (check : N → option bool)
    (Hne : Joint.incoming c ≠ ∅)
    (Hw : Joint.vote_result c check = Won)
    (Hmax : (Joint.committed_index c use_group_commit l).1 ≤ u64_max) :
  ∃ v, v ∈ Joint.incoming c ∧ check v = Some true ∧
    (Joint.committed_index c use_group_commit l).1 ≤ i_index (Majority.acked l v).
Proof.
  apply joint_Won in Hw as [Hw _].
  assert ((Joint.committed_index c use_group_commit l).1 ≤ (Joint.committed_index c false l).1)
    as Hle by (destruct use_group_commit; [apply joint_group_commit_le|done]).
  apply joint_committed_index_quorate in Hle as [Hq _]; [|done].
  exact (quorate_overlap _ _ _ Hne Hw Hq).
Qed.

(** Votes only accumulate: once an election is decided, answers from voters
    that had not voted yet cannot change the outcome. *)
Theorem vote_result_stable (c : Joint.Configuration) (check check' : N → option bool)
    (Hext : ∀ v b, check v = Some b → check' v = Some b)
    (Hdecided : Joint.vote_result c check ≠ Pending) :
  Joint.vote_result c check' = Joint.vote_result c check.
Proof.
  destruct (Joint.vote_result c check) eqn:E; [done| |].
  - apply joint_Lost. apply joint_Lost in E. intros [Hi Ho]. apply E.
    split; [eapply quorate_mono; [|exact Hi]|eapply quorate_mono; [|exact Ho]]; naive_solver.
  - apply joint_Won. apply joint_Won in E as [Hi Ho].
    split; [eapply quorate_mono; [|exact Hi]|eapply quorate_mono; [|exact Ho]]; naive_solver.
Qed.

(** [vote_result_with_diff] reports the same outcome as [vote_result], and the
    number it gives for a pending half is exactly how many of the missing votes
    must still be granted: with granted votes from the voters of [more], all of
    them still missing, the half is won if and only if [more] has at least
    that many voters. *)
Theorem vote_diff_exact (c : gset N) (check : N → option bool) (d : N) (more : gset N)
    (Hd : Majority.vote_result_with_diff c check = (Pending, d))
    (Hsub : more ⊆ c) (Hmiss : ∀ v, v ∈ more → check v = None) :
  Majority.vote_result c check = Pending ∧
  (Majority.vote_result c (λ v, if decide (v ∈ more) then Some true else check v) = Won
   ↔ d ≤ N.of_nat (size more)).
Proof.
  split; [by rewrite <-vote_result_fst_diff, Hd|].
  apply vote_diff_pending in Hd as (Hc & Hlt & ->). rewrite vote_result_Won.
  assert (size (filter (λ v, (if decide (v ∈ more) then Some true else check v) = Some true) c)
    = size (filter (λ v, check v = Some true) c) + size more)%nat as Hs.
  { rewrite <-size_union.
    - f_equal. apply set_eq. intros v. rewrite elem_of_union, !elem_of_filter. case_decide; set_solver.
    - intros v. rewrite elem_of_filter. intros [Hv _] Hm. apply Hmiss in Hm. congruence. }
  unfold quorate. rewrite Hs. split; [intros [?|?]; [done|lia]|right; lia].
Qed.
End properties.

(** ** Witnesses

    The configuration [{1,2,3}] entered jointly with [{3,4,5}]. *)
Definition w_joint : Joint.Configuration := Joint.mkJoint {[1; 2; 3]} {[3; 4; 5]}.
Definition w_acks : gmap N Index :=
  {[1 := mkIndex 7 1; 2 := mkIndex 5 2; 3 := mkIndex 4 1; 4 := mkIndex 9 2]}.
Definition w_votes (yes : gset N) (v : N) : option bool :=
  if decide (v ∈ yes) then Some true else None.

Lemma joint_committed_index_spec_witness :
  4 ≤ (@Joint.committed_index elements_order _ _ w_joint false w_acks).1 ↔
  quorate_joint w_joint (λ v, 4 ≤ i_index (Majority.acked w_acks v)).
Proof. apply (@joint_committed_index_spec elements_order _ _ w_joint w_acks 4). done. Defined.

Lemma commit_election_overlap_witness :
  ∃ v, v ∈ Joint.incoming w_joint ∧ w_votes {[1; 3; 4]} v = Some true ∧
    (@Joint.committed_index elements_order _ _ w_joint true w_acks).1 ≤ i_index (Majority.acked w_acks v).
Proof.
  apply (@commit_election_overlap elements_order _ _ w_joint true w_acks (w_votes {[1; 3; 4]}));
    [done|vm_compute; reflexivity|vm_compute; discriminate].
Defined.

Lemma vote_result_stable_witness :
  @Joint.vote_result elements_order w_joint (w_votes {[1; 3; 4; 2]}) =
  @Joint.vote_result elements_order w_joint (w_votes {[1; 3; 4]}).
Proof.
  apply (@vote_result_stable elements_order w_joint (w_votes {[1; 3; 4]}) (w_votes {[1; 3; 4; 2]})).
  - intros v b. unfold w_votes. repeat case_decide; set_solver.
  - vm_compute. discriminate.
Defined.

Lemma vote_diff_exact_witness :
  @Majority.vote_result elements_order {[1; 2; 3]} (w_votes {[1]}) = Pending ∧
  (@Majority.vote_result elements_order {[1; 2; 3]}
     (λ v, if decide (v ∈ ({[2]} : gset N)) then Some true else w_votes {[1]} v) = Won
   ↔ 1 ≤ N.of_nat (size ({[2]} : gset N))).
Proof.
  apply (@vote_diff_exact elements_order {[1; 2; 3]} (w_votes {[1]}) 1 {[2]}).
  - vm_compute. reflexivity.
  - set_solver.
  - intros v ->%elem_of_singleton. reflexivity.
Defined.
