(* ===== verification/Inflights.v ===== *)
(** * The window of in-flight messages (src/src/tracker/inflights.rs)

    A ring buffer of indexes with a capacity that can be changed while entries
    are in flight, and its refinement to a bounded queue.  The allocation of
    the backing vector ([Vec::capacity], [reserve]) is not part of the state:
    it does not change the contents. *)
From S2P Require Import Prelude Errors Eraftpb Util.

Module Inflights.

Record t : Type := mk {
  start : N;
  count : N;
  buffer : list N;
  cap : N;
  incoming_cap : option N
}.
#[global] Instance eta_t : Eta t := λ i,
  mk (start i) (count i) (buffer i) (cap i) (incoming_cap i).
#[global] Instance t_eq_dec : EqDecision t.
Proof. solve_decision. Defined.

Definition new (c : N) : t := mk 0 0 [] c None.

Definition set_cap (i : t) (c : N) : outcome t :=
  match cap i ?= c with
  | Eq => Done (i <| incoming_cap := None |>)
  | Lt =>
    i' ← (if (start i +w count i) <=? cap i then Done i
          else
            b1 ← vslice (buffer i) (start i) (len (buffer i));
            b2 ← vslice (buffer i) 0 (count i -w (cap i -w start i));
            Done (i <| buffer := b1 ++ b2 |> <| start := 0 |>));
    Done (i' <| cap := c |> <| incoming_cap := None |>)
  | Gt =>
    if count i =? 0
    then Done (i <| cap := c |> <| incoming_cap := None |> <| start := 0 |> <| buffer := [] |>)
    else Done (i <| incoming_cap := Some c |>)
  end.

Definition full (i : t) : bool :=
  (count i =? cap i) || match incoming_cap i with Some c => c <=? count i | None => false end.

Definition add (i : t) (inflight : N) : outcome t :=
  if full i then Panicked
  else
    let next := start i +w count i in
    let next := if cap i <=? next then next -w cap i else next in
    _ ← rassert (next <=? len (buffer i));
    let b := if next =? len (buffer i) then buffer i ++ [inflight]
             else <[N.to_nat next := inflight]> (buffer i) in
    Done (i <| buffer := b |> <| count := count i +w 1 |>).

(** The [while] loop of [free_to]: [fuel] is what is left of [count - i]. *)
Fixpoint free_scan (fuel : nat) (to c : N) (b : list N) (i idx : N) : outcome (N * N) :=
  match fuel with
  | O => Done (i, idx)
  | S fuel' =>
    x ← vget b idx;
    if to <? x then Done (i, idx)
    else
      let idx := idx +w 1 in
      let idx := if c <=? idx then idx -w c else idx in
      free_scan fuel' to c b (i +w 1) idx
  end.

Definition free_to (i : t) (to : N) : outcome t :=
  if count i =? 0 then Done i
  else
    x ← vget (buffer i) (start i);
    if to <? x then Done i
    else
      '(n, idx) ← free_scan (N.to_nat (count i)) to (cap i) (buffer i) 0 (start i);
      let i := i <| count := count i -w n |> <| start := idx |> in
      match incoming_cap i with
      | Some c =>
        if count i =? 0
        then Done (i <| incoming_cap := None |> <| start := 0 |> <| cap := c |> <| buffer := [] |>)
        else Done i
      | None => Done i
      end.

Definition free_first_one (i : t) : outcome t :=
  if 0 <? count i then
    x ← vget (buffer i) (start i);
    free_to i x
  else Done i.

Definition reset (i : t) : t :=
  i <| count := 0 |> <| start := 0 |> <| buffer := [] |>
    <| cap := default (cap i) (incoming_cap i) |> <| incoming_cap := None |>.

Definition maybe_free_buffer (i : t) : t :=
  if count i =? 0 then i <| start := 0 |> <| buffer := [] |> else i.

(** ** The abstract window: a queue of indexes with a limit. *)
Record window : Type := mkWindow { w_limit : N; w_items : list N }.

Definition w_full (w : window) : bool := w_limit w <=? len (w_items w).
Definition w_add (w : window) (x : N) : window := mkWindow (w_limit w) (w_items w ++ [x]).
Fixpoint drop_le (to : N) (l : list N) : list N :=
  match l with
  | [] => []
  | x :: l' => if to <? x then x :: l' else drop_le to l'
  end.
Definition w_free_to (w : window) (to : N) : window := mkWindow (w_limit w) (drop_le to (w_items w)).

(** The window a ring buffer stands for: [count] items from [start], wrapping. *)
Definition items (i : t) : list N :=
  take (N.to_nat (count i)) (drop (N.to_nat (start i)) (buffer i) ++ buffer i).
Definition view (i : t) : window := mkWindow (default (cap i) (incoming_cap i)) (items i).

(** Well-formedness: live slots are initialised, positions are in range, and
    a pending capacity is smaller than the current one. *)
Record wf (i : t) : Prop := mk_wf {
  wf_cap : 2 * cap i < u64_modulus;
  wf_count : count i ≤ cap i;
  wf_start : start i < cap i ∨ start i = 0;
  wf_buffer : len (buffer i) ≤ cap i;
  wf_live : start i + count i ≤ len (buffer i) ∨ len (buffer i) = cap i;
  wf_pending c : incoming_cap i = Some c → c < cap i ∧ 0 < count i
}.

End Inflights.

(** ** Ring-buffer lemmas *)
Section facts.
Import Inflights.

(** The buffer position of the [k]-th live item. *)
Definition slot (i : Inflights.t) (k : N) : N :=
  if start i + k <? cap i then start i + k else start i + k - cap i.

Lemma items_lookup i k :
  wf i → k < count i → items i !! N.to_nat k = buffer i !! N.to_nat (slot i k).
Proof.
  intros [] Hk. unfold items, slot. rewrite lookup_take_lt by lia.
  unfold len in *. destruct (N.ltb_spec (start i + k) (N.of_nat (length (buffer i)))).
  - rewrite lookup_app_l by (rewrite length_drop; lia). rewrite lookup_drop.
    destruct (N.ltb_spec (start i + k) (cap i)); [f_equal; lia|lia].
  - rewrite lookup_app_r by (rewrite length_drop; lia). rewrite length_drop.
    destruct (N.ltb_spec (start i + k) (cap i)); [lia|f_equal; lia].
Qed.

Lemma slot_lt_len i k : wf i → k < count i → slot i k < len (buffer i).
Proof.
  intros [] Hk. unfold slot, len in *. destruct (N.ltb_spec (start i + k) (cap i)); lia.
Qed.

Lemma length_items i : wf i → len (items i) = count i.
Proof.
  intros []. unfold items, len in *. rewrite length_take, length_app, length_drop. lia.
Qed.

Lemma items_lookup_ge i k : wf i → count i ≤ k → items i !! N.to_nat k = None.
Proof.
  intros Hwf Hk. apply lookup_ge_None. pose proof (length_items i Hwf). unfold len in *. lia.
Qed.

Lemma list_ext_N {A} (l k : list A) :
  (∀ n : N, l !! N.to_nat n = k !! N.to_nat n) → l = k.
Proof.
  intros Hl. apply list_eq. intros n. rewrite <-(Nat2N.id n). apply Hl.
Qed.

Lemma full_view i : wf i → full i = w_full (view i).
Proof.
  intros Hwf. unfold full, w_full, view. simpl. rewrite (length_items i Hwf).
  destruct Hwf. destruct (incoming_cap i) as [c|] eqn:E; simpl.
  - specialize (wf_pending0 c eq_refl).
    destruct (N.eqb_spec (count i) (cap i)), (N.leb_spec c (count i)); simpl; (done || lia).
  - destruct (N.eqb_spec (count i) (cap i)), (N.leb_spec (cap i) (count i)); simpl; (done || lia).
Qed.

Lemma slot_inj i j k : wf i → j ≤ count i → k < count i → slot i j = slot i k →
  j = k ∨ j = count i ∧ count i = cap i.
Proof.
  intros [] ??. unfold slot.
  destruct (N.ltb_spec (start i + j) (cap i)), (N.ltb_spec (start i + k) (cap i)); lia.
Qed.

(** The position [add] writes to, and that it passes the assertion. *)
Lemma add_next i : wf i → count i < cap i →
  (if cap i <=? start i +w count i then (start i +w count i) -w cap i else start i +w count i)
  = slot i (count i) ∧ slot i (count i) ≤ len (buffer i).
Proof.
  intros [] Hc. rewrite u64_add_small by lia. unfold slot.
  destruct (N.leb_spec (cap i) (start i + count i)), (N.ltb_spec (start i + count i) (cap i)); try lia.
  rewrite u64_sub_small by lia. split; [done|lia].
Qed.

(** Writing at a position up to the end of the buffer, as [add] does. *)
Lemma ring_write (l : list N) k x :
  k ≤ len l →
  let b := if k =? len l then l ++ [x] else <[N.to_nat k := x]> l in
  len b = N.max (len l) (k + 1) ∧ b !! N.to_nat k = Some x ∧
  ∀ j, j < len l → j ≠ k → b !! N.to_nat j = l !! N.to_nat j.
Proof.
  intros Hk b. unfold b, len in *. destruct (N.eqb_spec k (N.of_nat (length l))) as [Heq|Hne].
  - rewrite length_app. simpl. split_and!; [lia| |].
    + rewrite lookup_app_r by lia. by replace (_ - _)%nat with 0%nat by lia.
    + intros. by rewrite lookup_app_l by lia.
  - rewrite length_insert. split_and!; [lia| |].
    + apply list_lookup_insert_eq. lia.
    + intros. apply list_lookup_insert_ne. lia.
Qed.

(** One more slot filled after the live ones appends one item. *)
Lemma items_extend i b x :
  let i' := i <| buffer := b |> <| count := count i + 1 |> in
  wf i → wf i' → b !! N.to_nat (slot i (count i)) = Some x →
  (∀ k, k < len (buffer i) → k ≠ slot i (count i) → b !! N.to_nat k = buffer i !! N.to_nat k) →
  items i' = items i ++ [x].
Proof.
  intros i' Hwf Hwf' Hnew Hold. pose proof (length_items i Hwf) as Hl. unfold len in Hl.
  apply list_ext_N. intros k. destruct (N.lt_ge_cases k (count i)) as [Hk|Hk].
  - rewrite (items_lookup _ k Hwf') by (simpl; lia). rewrite lookup_app_l by lia.
    rewrite (items_lookup i k Hwf Hk). change (slot i' k) with (slot i k).
    apply Hold; [by apply slot_lt_len|]. intros E. symmetry in E.
    apply slot_inj in E; [destruct Hwf'; simpl in *; lia|done|lia|done].
  - rewrite lookup_app_r by lia. destruct (decide (k = count i)) as [->|].
    + rewrite (items_lookup _ _ Hwf') by (simpl; lia).
      change (slot i' (count i)) with (slot i (count i)). simpl. rewrite Hnew.
      by replace (_ - _)%nat with 0%nat by lia.
    + rewrite (items_lookup_ge _ _ Hwf') by (simpl; lia).
      symmetry. apply lookup_ge_None. simpl. lia.
Qed.

Lemma add_view i x : wf i → full i = false →
  ∃ i', add i x = Done i' ∧ wf i' ∧ view i' = w_add (view i) x.
Proof.
  intros Hwf Hf. unfold add. rewrite Hf.
  assert (count i < cap i) as Hc.
  { unfold full in Hf. destruct Hwf. destruct (N.eqb_spec (count i) (cap i)); [done|lia]. }
  destruct (add_next i Hwf Hc) as [-> Hn].
  assert (count i + 1 < u64_modulus) by (destruct Hwf; lia).
  rewrite (proj2 (N.leb_le _ _) Hn). simpl. rewrite (u64_add_small (count i)) by done.
  destruct (ring_write (buffer i) (slot i (count i)) x Hn) as (Hlen & Hnew & Hold).
  eexists. split; [done|].
  set (b := if slot i (count i) =? len (buffer i) then _ else _) in *. clearbody b.
  assert (wf (i <| buffer := b |> <| count := count i + 1 |>)) as Hwf'.
  { unfold slot in *. destruct Hwf; split; simpl; try lia.
    1,2: destruct (N.ltb_spec (start i + count i) (cap i)); lia.
    intros c Hp. apply wf_pending0 in Hp. lia. }
  split; [done|]. unfold view, w_add. simpl. f_equal. by apply items_extend.
Qed.

(** ** Freeing *)

Lemma slot_succ i k : wf i → k < count i →
  (if cap i <=? slot i k +w 1 then (slot i k +w 1) -w cap i else slot i k +w 1) = slot i (k + 1).
Proof.
  intros [] Hk. unfold slot.
  destruct (N.ltb_spec (start i + k) (cap i)), (N.ltb_spec (start i + (k + 1)) (cap i)); try lia;
    rewrite u64_add_small by lia;
    match goal with |- context [?a <=? ?b] => destruct (N.leb_spec a b) end; try lia;
    rewrite u64_sub_small by lia; lia.
Qed.

Lemma free_scan_spec i to fuel k : wf i → k + N.of_nat fuel = count i →
  ∃ n, free_scan fuel to (cap i) (buffer i) k (slot i k) = Done (n, slot i n) ∧
    k ≤ n ≤ count i ∧ drop_le to (drop (N.to_nat k) (items i)) = drop (N.to_nat n) (items i).
Proof.
  intros Hwf. pose proof (length_items i Hwf) as Hl. unfold len in Hl.
  revert k. induction fuel as [|fuel IH]; intros k Hk.
  - exists k. split_and!; [done|lia|lia|]. by rewrite drop_ge by lia.
  - simpl. pose proof (items_lookup i k Hwf ltac:(lia)) as Hi.
    assert (k < count i) as Hkc by lia.
    destruct (lookup_lt_is_Some_2 (items i) (N.to_nat k)) as [x Hx]; [lia|].
    rewrite Hx in Hi. symmetry in Hi. unfold vget. rewrite Hi. simpl.
    rewrite (drop_S _ x (N.to_nat k)) by done. simpl.
    destruct (to <? x) eqn:E.
    + exists k. split_and!; [done|lia|lia|]. by rewrite (drop_S _ x (N.to_nat k)) by done.
    + rewrite (slot_succ i k Hwf Hkc), u64_add_small by (destruct Hwf; lia).
      destruct (IH (k + 1)) as (n & -> & Hn & Hd); [lia|].
      exists n. split_and!; [done|lia|lia|].
      by replace (S (N.to_nat k)) with (N.to_nat (k + 1)) by lia.
Qed.

Lemma wf_drop i n : wf i → n ≤ count i → (n < count i ∨ incoming_cap i = None) →
  wf (i <| count := count i - n |> <| start := slot i n |>).
Proof.
  intros [] Hn Hp. unfold slot. split; simpl; try lia.
  1,2: destruct (N.ltb_spec (start i + n) (cap i)); lia.
  intros c Hc. destruct Hp as [|Hp]; [|congruence]. apply wf_pending0 in Hc. lia.
Qed.

Lemma items_drop i n : wf i → wf (i <| count := count i - n |> <| start := slot i n |>) → n ≤ count i →
  items (i <| count := count i - n |> <| start := slot i n |>) = drop (N.to_nat n) (items i).
Proof.
  intros Hwf Hwf' Hn. pose proof (length_items i Hwf) as Hl. unfold len in Hl.
  apply list_ext_N. intros k. rewrite lookup_drop.
  destruct (N.lt_ge_cases k (count i - n)) as [Hk|Hk].
  - rewrite (items_lookup _ k Hwf') by done.
    replace (N.to_nat n + N.to_nat k)%nat with (N.to_nat (n + k)) by lia.
    rewrite (items_lookup i (n + k) Hwf) by lia. simpl. f_equal. f_equal.
    unfold slot. destruct Hwf. simpl.
    destruct (N.ltb_spec (start i + n) (cap i)), (N.ltb_spec (start i + (n + k)) (cap i));
      match goal with |- context [?a <? ?b] => destruct (N.ltb_spec a b) end; lia.
  - rewrite (items_lookup_ge _ k Hwf') by done. symmetry. apply lookup_ge_None. lia.
Qed.

Lemma free_to_view i to : wf i →
  ∃ i', free_to i to = Done i' ∧ wf i' ∧ view i' = w_free_to (view i) to.
Proof.
  intros Hwf. unfold free_to. pose proof (length_items i Hwf) as Hl. unfold len in Hl.
  destruct (N.eqb_spec (count i) 0) as [Hz|Hz].
  { exists i. split_and!; [done|done|]. unfold w_free_to, view. simpl.
    destruct (items i); [done|simpl in *; lia]. }
  pose proof (items_lookup i 0 Hwf ltac:(lia)) as Hi.
  destruct (lookup_lt_is_Some_2 (items i) 0) as [x Hx]; [lia|].
  replace (slot i 0) with (start i) in Hi by (unfold slot; destruct Hwf;
    destruct (N.ltb_spec (start i + 0) (cap i)); lia).
  change (N.to_nat 0) with 0%nat in Hi. rewrite Hx in Hi. unfold vget. rewrite <-Hi. simpl.
  destruct (to <? x) eqn:E.
  { exists i. split_and!; [done|done|]. unfold w_free_to, view. simpl.
    destruct (items i) as [|y its]; [done|]. simpl in *. simplify_eq. by rewrite E. }
  destruct (free_scan_spec i to (N.to_nat (count i)) 0 Hwf ltac:(lia)) as (n & Hs & Hn & Hd).
  replace (slot i 0) with (start i) in Hs by (unfold slot; destruct Hwf;
    destruct (N.ltb_spec (start i + 0) (cap i)); lia).
  rewrite Hs. simpl. rewrite u64_sub_small by (destruct Hwf; lia).
  change (drop (N.to_nat 0) (items i)) with (items i) in Hd.
  unfold w_free_to, view. simpl. rewrite Hd.
  destruct (incoming_cap i) as [c|] eqn:Ec; simpl.
  - destruct (N.eqb_spec (count i - n) 0).
    + eexists. split; [done|]. destruct Hwf. specialize (wf_pending0 c Ec).
      split; [|rewrite (drop_ge (items i)) by lia; unfold items; simpl; by rewrite take_nil].
      split; simpl; unfold len; simpl; try lia; done.
    + assert (wf (i <| count := count i - n |> <| start := slot i n |>)) as Hwf'
        by (apply wf_drop; [done|lia|left; lia]).
      eexists. split_and!; [done|done|]. simpl. rewrite Ec. simpl. f_equal. apply items_drop; [done|done|lia].
  - assert (wf (i <| count := count i - n |> <| start := slot i n |>)) as Hwf'
      by (apply wf_drop; [done|lia|by right]).
    eexists. split_and!; [done|done|]. simpl. rewrite Ec. simpl. f_equal. apply items_drop; [done|done|lia].
Qed.

(** ** Capacity changes *)

(** Growing while the window wraps around unrolls the ring. *)
Lemma unroll_items i : wf i → cap i < start i + count i →
  ∃ b, b = items i ∧
    vslice (buffer i) (start i) (len (buffer i)) = Done (drop (N.to_nat (start i)) (buffer i)) ∧
    vslice (buffer i) 0 (count i -w (cap i -w start i))
      = Done (take (N.to_nat (count i - (cap i - start i))) (buffer i)) ∧
    drop (N.to_nat (start i)) (buffer i)
      ++ take (N.to_nat (count i - (cap i - start i))) (buffer i) = b.
Proof.
  intros [] Hw. exists (items i). split; [done|]. unfold vslice, items, len in *.
  rewrite !u64_sub_small by (rewrite ?u64_sub_small by lia; lia).
  repeat match goal with |- context [?a <=? ?b] => rewrite (proj2 (N.leb_le a b)) by lia end. simpl.
  split_and!.
  - f_equal. rewrite take_ge; [done|]. rewrite length_drop. lia.
  - rewrite drop_0, N.sub_0_r. done.
  - rewrite take_app, length_drop. f_equal; [rewrite take_ge; [done|rewrite length_drop; lia]|].
    f_equal. lia.
Qed.

Lemma set_cap_view i c : wf i → 2 * c < u64_modulus →
  ∃ i', set_cap i c = Done i' ∧ wf i' ∧ view i' = mkWindow c (items i).
Proof.
  intros Hwf Hc. pose proof (length_items i Hwf) as Hl. unfold set_cap.
  destruct (N.compare_spec (cap i) c) as [<-|Hlt|Hgt].
  - eexists. split; [done|]. split; [|done]. by destruct Hwf.
  - assert (start i + count i < u64_modulus) by (destruct Hwf; lia).
    rewrite u64_add_small by done. destruct (N.leb_spec (start i + count i) (cap i)) as [Hle|Hgt]; simpl.
    + eexists. split; [done|]. split; [|done]. destruct Hwf; split; simpl; try lia; done.
    + destruct (unroll_items i Hwf Hgt) as (b & Hb & -> & -> & Happ). simpl. rewrite Happ.
      eexists. split; [done|]. rewrite <-Hb in *. unfold len in *. split.
      * destruct Hwf; split; simpl; unfold len; try lia; done.
      * unfold view, items. simpl. f_equal. rewrite drop_0, take_app_le by lia. apply take_ge. lia.
  - destruct (N.eqb_spec (count i) 0) as [Hz|Hz].
    + eexists. split; [done|]. split.
      * destruct Hwf; split; simpl; unfold len; simpl; try lia; done.
      * unfold view. simpl. f_equal. unfold items at 1. simpl. rewrite take_nil.
        destruct (items i); [done|unfold len in *; simpl in *; lia].
    + eexists. split; [done|]. split; [|done]. destruct Hwf; split; simpl; try lia; try done.
      intros ??. simplify_eq. lia.
Qed.

Lemma reset_view i : wf i → wf (reset i) ∧ view (reset i) = mkWindow (w_limit (view i)) [].
Proof.
  intros []. unfold reset. split; [|done].
  destruct (incoming_cap i) as [c|] eqn:E; [specialize (wf_pending0 c eq_refl)|];
    split; simpl; unfold len; simpl; try lia; done.
Qed.

Lemma maybe_free_buffer_view i : wf i → wf (maybe_free_buffer i) ∧ view (maybe_free_buffer i) = view i.
Proof.
  intros Hwf. unfold maybe_free_buffer. pose proof (length_items i Hwf) as Hl.
  destruct (N.eqb_spec (count i) 0) as [Hz|]; [|done]. split.
  - destruct Hwf; split; simpl; unfold len; simpl; try lia; done.
  - unfold view. simpl. f_equal. unfold items at 1. simpl. rewrite take_nil.
    destruct (items i); [done|unfold len in *; simpl in *; lia].
Qed.

Lemma free_first_one_view i : wf i →
  ∃ i', free_first_one i = Done i' ∧ wf i' ∧
    view i' = match items i with [] => view i | x :: _ => w_free_to (view i) x end.
Proof.
  intros Hwf. pose proof (length_items i Hwf) as Hl. unfold free_first_one.
  destruct (N.ltb_spec 0 (count i)) as [Hlt|Hge].
  - pose proof (items_lookup i 0 Hwf Hlt) as Hi.
    replace (slot i 0) with (start i) in Hi by (unfold slot; destruct Hwf;
      destruct (N.ltb_spec (start i + 0) (cap i)); lia).
    destruct (items i) as [|x its] eqn:E; [unfold len in *; simpl in *; lia|].
    change (N.to_nat 0) with 0%nat in Hi. simpl in Hi. unfold vget. rewrite <-Hi. simpl.
    by apply free_to_view.
  - exists i. destruct (items i); [done|unfold len in *; simpl in *; lia].
Qed.

Lemma new_view c : 2 * c < u64_modulus → wf (new c) ∧ view (new c) = mkWindow c [].
Proof. intros. split; [|done]. split; simpl; unfold len; simpl; try lia; done. Qed.
End facts.

(** ** Refinement: the ring buffer implements the bounded queue *)
Section refinement.
Import Inflights.

Inductive op : Type :=
| OpAdd (x : N)
| OpFreeTo (to : N)
| OpFreeFirst
| OpSetCap (c : N)
| OpReset
| OpFreeBuffer.

Definition step (i : Inflights.t) (o : op) : outcome Inflights.t :=
  match o with
  | OpAdd x => add i x
  | OpFreeTo to => free_to i to
  | OpFreeFirst => free_first_one i
  | OpSetCap c => set_cap i c
  | OpReset => Done (reset i)
  | OpFreeBuffer => Done (maybe_free_buffer i)
  end.

(** The queue's operations: adding to a full window is the only failure, and a
    capacity change takes effect on the limit at once. *)
Definition w_step (w : window) (o : op) : outcome window :=
  match o with
  | OpAdd x => if w_full w then Panicked else Done (w_add w x)
  | OpFreeTo to => Done (w_free_to w to)
  | OpFreeFirst => Done (match w_items w with [] => w | x :: _ => w_free_to w x end)
  | OpSetCap c => Done (mkWindow c (w_items w))
  | OpReset => Done (mkWindow (w_limit w) [])
  | OpFreeBuffer => Done w
  end.

Definition op_ok (o : op) : bool :=
  match o with OpSetCap c => 2 * c <? u64_modulus | _ => true end.

Fixpoint run {S : Type} (f : S → op → outcome S) (s : S) (os : list op) : outcome S :=
  match os with [] => Done s | o :: os' => s' ← f s o; run f s' os' end.

Lemma step_refines i o : wf i → op_ok o = true →
  match w_step (view i) o with
  | Done w => ∃ i', step i o = Done i' ∧ wf i' ∧ view i' = w
  | Panicked => step i o = Panicked
  end.
Proof.
  intros Hwf Ho. destruct o as [x|to| |c| |]; cbn [op_ok step w_step] in *.
  - rewrite <-(full_view i Hwf). destruct (full i) eqn:E; [by unfold add; rewrite E|by apply add_view].
  - by apply free_to_view.
  - by apply free_first_one_view.
  - apply set_cap_view; [done|by apply N.ltb_lt].
  - eexists. split; [done|]. by apply reset_view.
  - eexists. split; [done|]. by apply maybe_free_buffer_view.
Qed.

(** C26: Starting from an empty window of any capacity, every sequence of window
    operations behaves as on the bounded queue: the ring buffer panics exactly
    when the queue refuses an addition to a full window, and otherwise holds
    the queue's items in order, whatever wrapping and resizing happened. *)
Theorem inflights_refine_queue (c : N) (os : list op)
    (Hc : 2 * c < u64_modulus) (Hos : forallb op_ok os = true) :
  view <$> run step (new c) os = run w_step (mkWindow c []) os.
Proof.
  destruct (new_view c Hc) as [Hwf Hv]. rewrite <-Hv. clear Hv.
  revert Hwf Hos. generalize (new c) as i. induction os as [|o os IH]; intros i Hwf Hos; [done|].
  simpl in Hos. apply andb_prop in Hos as [Ho Hos]. simpl.
  pose proof (step_refines i o Hwf Ho) as Hs.
  destruct (w_step (view i) o) as [w|].
  - destruct Hs as (i' & -> & Hwf' & <-). simpl. by apply IH.
  - by rewrite Hs.
Qed.

Lemma inflights_refine_queue_witness :
  view <$> run step (new 3) [OpAdd 1; OpAdd 2; OpAdd 3; OpFreeTo 2; OpAdd 4; OpSetCap 5; OpAdd 5]
  = Done (mkWindow 5 [3; 4; 5]).
Proof.
  rewrite (inflights_refine_queue 3
    [OpAdd 1; OpAdd 2; OpAdd 3; OpFreeTo 2; OpAdd 4; OpSetCap 5; OpAdd 5]); vm_compute; reflexivity.
Defined.
End refinement.
