(* ===== verification/Progress.v ===== *)
(** * The leader's view of a follower (src/src/tracker/progress.rs, state.rs) *)
From S2P Require Import Prelude Errors Eraftpb Util Inflights.

(** [ProgressState]. *)
Inductive ProgressState : Type :=
| Probe
| Replicate
| PSnapshot.
#[export] Instance ProgressState_eq_dec : EqDecision ProgressState.
Proof. solve_decision. Defined.

Module Progress.

Record t : Type := mk {
  matched : N;
  next_idx : N;
  state : ProgressState;
  paused : bool;
  pending_snapshot : N;
  pending_request_snapshot : N;
  recent_active : bool;
  ins : Inflights.t;
  commit_group_id : N;
  committed_index : N;
  is_witness : bool
}.
#[global] Instance eta_t : Eta t := λ p,
  mk (matched p) (next_idx p) (state p) (paused p) (pending_snapshot p)
    (pending_request_snapshot p) (recent_active p) (ins p) (commit_group_id p)
    (committed_index p) (is_witness p).
#[global] Instance t_eq_dec : EqDecision t.
Proof. solve_decision. Defined.

Definition new (next ins_size : N) : t :=
  mk 0 next Probe false 0 0 false (Inflights.new ins_size) 0 0 false.

Definition reset_state (p : t) (s : ProgressState) : t :=
  p <| paused := false |> <| pending_snapshot := 0 |> <| state := s |>
    <| ins := Inflights.reset (ins p) |>.

Definition reset (p : t) (next : N) : t :=
  p <| matched := 0 |> <| next_idx := next |> <| state := Probe |> <| paused := false |>
    <| pending_snapshot := 0 |> <| pending_request_snapshot := INVALID_INDEX |>
    <| recent_active := false |> <| ins := Inflights.reset (ins p) |>.

Definition become_probe (p : t) : t :=
  if bool_decide (state p = PSnapshot) then
    let pending := pending_snapshot p in
    let p := reset_state p Probe in
    p <| next_idx := N.max (matched p +w 1) (pending +w 1) |>
  else
    let p := reset_state p Probe in
    p <| next_idx := matched p +w 1 |>.

Definition become_replicate (p : t) : t :=
  let p := reset_state p Replicate in
  p <| next_idx := matched p +w 1 |>.

Definition become_snapshot (p : t) (snapshot_idx : N) : t :=
  (reset_state p PSnapshot) <| pending_snapshot := snapshot_idx |>.

Definition snapshot_failure (p : t) : t := p <| pending_snapshot := 0 |>.

Definition is_snapshot_caught_up (p : t) : bool :=
  bool_decide (state p = PSnapshot) && (pending_snapshot p <=? matched p).

Definition resume (p : t) : t := p <| paused := false |>.
Definition pause (p : t) : t := p <| paused := true |>.

Definition maybe_update (p : t) (n : N) : t * bool :=
  let need_update := matched p <? n in
  let p := if need_update then resume (p <| matched := n |>) else p in
  let p := if next_idx p <? n +w 1 then p <| next_idx := n +w 1 |> else p in
  (p, need_update).

Definition update_committed (p : t) (c : N) : t :=
  if committed_index p <? c then p <| committed_index := c |> else p.

Definition optimistic_update (p : t) (n : N) : t := p <| next_idx := n +w 1 |>.

Definition maybe_decr_to (p : t) (rejected match_hint request_snapshot : N) : t * bool :=
  if bool_decide (state p = Replicate) then
    if (rejected <? matched p)
       || ((rejected =? matched p) && (request_snapshot =? INVALID_INDEX))
    then (p, false)
    else if request_snapshot =? INVALID_INDEX
      then (p <| next_idx := matched p +w 1 |>, true)
      else (p <| pending_request_snapshot := request_snapshot |>, true)
  else if ((next_idx p =? 0) || negb (next_idx p -w 1 =? rejected))
          && (request_snapshot =? INVALID_INDEX)
  then (p, false)
  else
    let p :=
      if request_snapshot =? INVALID_INDEX then
        let p := p <| next_idx := N.min rejected (match_hint +w 1) |> in
        if next_idx p <? matched p +w 1 then p <| next_idx := matched p +w 1 |> else p
      else if pending_request_snapshot p =? INVALID_INDEX
        then p <| pending_request_snapshot := request_snapshot |>
        else p in
    (resume p, true).

Definition is_paused (p : t) : bool :=
  match state p with
  | Probe => paused p
  | Replicate => Inflights.full (ins p)
  | PSnapshot => true
  end.

Definition update_state (p : t) (last : N) : outcome t :=
  match state p with
  | Replicate =>
    let p := optimistic_update p last in
    i ← Inflights.add (ins p) last;
    Done (p <| ins := i |>)
  | Probe => Done (pause p)
  | PSnapshot => Panicked
  end.

(** ** Invariant

    The next index to send lies beyond what is known to match, the window is
    well formed, and only a replicating peer has messages in flight. *)
Record wf (p : t) : Prop := mk_wf {
  wf_next : matched p < next_idx p;
  wf_bound : next_idx p < u64_modulus;
  wf_pending : pending_snapshot p < u64_max;
  wf_ins : Inflights.wf (ins p);
  wf_flight : state p ≠ Replicate → Inflights.items (ins p) = []
}.

(** The calls the leader makes on a [Progress]. *)
Inductive op : Type :=
| BecomeProbe
| BecomeReplicate
| BecomeSnapshot (idx : N)
| SnapshotFailure
| MaybeUpdate (n : N)
| MaybeDecrTo (rejected match_hint request_snapshot : N)
| UpdateState (last : N)
| OptimisticUpdate (n : N)
| UpdateCommitted (c : N)
| FreeTo (to : N)
| FreeFirstOne
| SetCap (c : N)
| Reset (next : N)
| Resume
| Pause.

Definition step (p : t) (o : op) : outcome t :=
  match o with
  | BecomeProbe => Done (become_probe p)
  | BecomeReplicate => Done (become_replicate p)
  | BecomeSnapshot idx => Done (become_snapshot p idx)
  | SnapshotFailure => Done (snapshot_failure p)
  | MaybeUpdate n => Done (maybe_update p n).1
  | MaybeDecrTo r h s => Done (maybe_decr_to p r h s).1
  | UpdateState last => update_state p last
  | OptimisticUpdate n => Done (optimistic_update p n)
  | UpdateCommitted c => Done (update_committed p c)
  | FreeTo to => i ← Inflights.free_to (ins p) to; Done (p <| ins := i |>)
  | FreeFirstOne => i ← Inflights.free_first_one (ins p); Done (p <| ins := i |>)
  | SetCap c => i ← Inflights.set_cap (ins p) c; Done (p <| ins := i |>)
  | Reset next => Done (reset p next)
  | Resume => Done (resume p)
  | Pause => Done (pause p)
  end.

(** Ranges of the arguments: log indexes below the last representable one, a
    restart position past zero, and sent entries past the matched index. *)
Definition op_ok (p : t) (o : op) : Prop :=
  match o with
  | BecomeSnapshot n | MaybeUpdate n => n < u64_max
  | UpdateState n | OptimisticUpdate n => matched p ≤ n < u64_max
  | Reset next => 0 < next < u64_modulus
  | SetCap c => 2 * c < u64_modulus
  | MaybeDecrTo r h s => h < u64_max
  | _ => True
  end.

(** The calls that panic: noting sent entries for a peer that waits for a
    snapshot, or that has no room in its window. *)
Definition refuses (p : t) (o : op) : bool :=
  match o with
  | UpdateState _ =>
    match state p with Probe => false | Replicate => Inflights.full (ins p) | PSnapshot => true end
  | _ => false
  end.
End Progress.

Section facts.
Import Progress.

Lemma reset_state_wf_ins p s : wf p →
  Inflights.wf (ins (reset_state p s)) ∧ Inflights.items (ins (reset_state p s)) = [].
Proof.
  intros []. simpl. destruct (reset_view (ins p) wf_ins0) as [? Hv]. split; [done|].
  by apply (f_equal Inflights.w_items) in Hv.
Qed.

Lemma become_probe_wf p : wf p → wf (become_probe p).
Proof.
  intros Hwf. destruct (reset_state_wf_ins p Probe Hwf) as [Hi He]. destruct Hwf.
  unfold become_probe. case_bool_decide; split; simpl in *; try done; u64_solve.
Qed.

Lemma become_replicate_wf p : wf p → wf (become_replicate p).
Proof.
  intros Hwf. destruct (reset_state_wf_ins p Replicate Hwf) as [Hi He]. destruct Hwf.
  unfold become_replicate. split; simpl in *; try done; u64_solve.
Qed.

Lemma become_snapshot_wf p n : wf p → n < u64_max → wf (become_snapshot p n).
Proof.
  intros Hwf Hn. destruct (reset_state_wf_ins p PSnapshot Hwf) as [Hi He]. destruct Hwf.
  unfold become_snapshot. split; simpl in *; done.
Qed.

Lemma maybe_update_wf p n : wf p → n < u64_max → wf (maybe_update p n).1.
Proof.
  intros [] Hn. unfold maybe_update. rewrite u64_add_small by (unfold u64_modulus, u64_max in *; lia).
  destruct (N.ltb_spec (matched p) n); simpl;
    destruct (N.ltb_spec (next_idx p) (n + 1)); split; simpl; try done; u64_solve.
Qed.

Lemma maybe_decr_to_wf p r h s : wf p → h < u64_max → wf (maybe_decr_to p r h s).1.
Proof.
  intros Hwf Hh. destruct Hwf. unfold maybe_decr_to, resume.
  rewrite (u64_add_small h) by (unfold u64_modulus, u64_max in *; lia).
  rewrite (u64_add_small (matched p)) by (unfold u64_modulus, u64_max in *; lia).
  rewrite (u64_sub_small (next_idx p)) by lia.
  repeat (case_match; simpl); split; simpl in *; try done;
    rewrite ?N.ltb_lt, ?N.ltb_ge in *; u64_solve.
Qed.

Lemma free_to_empty i to : Inflights.wf i → Inflights.items i = [] →
  ∃ i', Inflights.free_to i to = Done i' ∧ Inflights.wf i' ∧ Inflights.items i' = [].
Proof.
  intros Hwf He. destruct (free_to_view i to Hwf) as (i' & ? & ? & Hv).
  apply (f_equal Inflights.w_items) in Hv. simpl in Hv. rewrite He in Hv. eauto.
Qed.

Lemma update_state_wf p last : wf p → matched p ≤ last < u64_max →
  match update_state p last with
  | Done p' => refuses p (UpdateState last) = false ∧ wf p'
  | Panicked => refuses p (UpdateState last) = true
  end.
Proof.
  intros [] [Hl Hm]. unfold update_state, refuses. destruct (state p) eqn:Es; [| |done].
  - split; [done|]. split; simpl; try done. by rewrite Es.
  - destruct (Inflights.full (ins p)) eqn:Ef.
    + simpl. unfold Inflights.add. by rewrite Ef.
    + destruct (add_view (ins p) last) as (i' & Hi & ? & _); [done|done|]. simpl. rewrite Hi. simpl.
      split; [done|]. split; simpl; try done; try u64_solve; by rewrite Es.
Qed.

Lemma window_items_nil i i' (f : Inflights.window → Inflights.window) :
  Inflights.view i' = f (Inflights.view i) → Inflights.items i = [] →
  (∀ w, Inflights.w_items w = [] → Inflights.w_items (f w) = []) → Inflights.items i' = [].
Proof. intros Hv He Hf. apply (f_equal Inflights.w_items) in Hv. simpl in Hv. rewrite Hv. by apply Hf. Qed.

(** The calls that never panic. *)
Lemma step_wf p o : wf p → op_ok p o → (∀ last, o ≠ UpdateState last) → ∃ p', step p o = Done p' ∧ wf p'.
Proof.
  intros Hwf Ho Hne. pose proof Hwf as [].
  destruct o as [| |n| |n|r h s|last|n|c|to| |c|next| |]; cbn [step op_ok] in *.
  - eauto using become_probe_wf.
  - eauto using become_replicate_wf.
  - eauto using become_snapshot_wf.
  - eexists. split; [done|]. by split.
  - eauto using maybe_update_wf.
  - eauto using maybe_decr_to_wf.
  - by destruct (Hne last).
  - eexists. split; [done|]. unfold optimistic_update. split; simpl; try done; u64_solve.
  - eexists. split; [done|]. unfold update_committed. case_match; by split.
  - destruct (free_to_view (ins p) to wf_ins0) as (i' & -> & ? & Hv). simpl.
    eexists. split; [done|]. split; try done. intros Hs. simpl.
    apply (window_items_nil _ _ (λ w, Inflights.w_free_to w to) Hv); [by apply wf_flight0|].
    intros w Hw. simpl. by rewrite Hw.
  - destruct (free_first_one_view (ins p) wf_ins0) as (i' & -> & ? & Hv). simpl.
    eexists. split; [done|]. split; try done. intros Hs. simpl.
    rewrite (wf_flight0 Hs) in Hv. apply (window_items_nil _ _ id Hv); [by apply wf_flight0|done].
  - destruct (set_cap_view (ins p) c wf_ins0 Ho) as (i' & -> & ? & Hv). simpl.
    eexists. split; [done|]. split; try done. intros Hs. simpl.
    rewrite (wf_flight0 Hs) in Hv. by apply (f_equal Inflights.w_items) in Hv.
  - eexists. split; [done|]. destruct (reset_view (ins p) wf_ins0) as [? Hv].
    split; simpl; try done; try lia; intros _; by apply (f_equal Inflights.w_items) in Hv.
  - eexists. split; [done|]. by split.
  - eexists. split; [done|]. by split.
Qed.
End facts.

(** ** Properties *)
Section properties.
Import Progress.

(** C27: The leader's view of a follower keeps its invariant (the next index to
    send is past the matched one, messages are in flight only when replicating,
    the window is well formed) through every call, with arguments in range and
    sent entries past the matched index; and a call panics exactly when it notes
    sent entries ([update_state]) for a peer that waits for a snapshot or whose
    window is full. *)
Theorem progress_invariant (p : Progress.t) (o : op) (Hwf : wf p) (Ho : op_ok p o) :
  match step p o with
  | Done p' => refuses p o = false ∧ wf p'
  | Panicked => refuses p o = true
  end.
Proof.
  assert ((∃ last, o = UpdateState last) ∨ refuses p o = false ∧ ∀ last, o ≠ UpdateState last) as [[last ->]|[-> Hne]]
    by (destruct o; eauto).
  - by apply update_state_wf.
  - by destruct (step_wf p o Hwf Ho Hne) as (p' & -> & ?).
Qed.


(** An acknowledgement raises what is known of the follower monotonically:
    it is reported as news exactly when the index is above the matched one,
    after which the matched index is the maximum of both and the next index is
    past it; stale acknowledgements leave the matched index and the pause. *)
Lemma maybe_update_spec (p : Progress.t) (n : N) (Hwf : wf p) (Hn : n < u64_max) :
  let '(p', fresh) := maybe_update p n in
  fresh = (matched p <? n) ∧ matched p' = N.max (matched p) n ∧
  next_idx p' = N.max (next_idx p) (n + 1) ∧
  paused p' = (if fresh then false else paused p) ∧
  state p' = state p ∧ ins p' = ins p.
Proof.
  destruct Hwf. unfold maybe_update. rewrite u64_add_small by (unfold u64_modulus, u64_max in *; lia).
  destruct (N.ltb_spec (matched p) n); simpl;
    destruct (N.ltb_spec (next_idx p) (n + 1)); simpl; split_and!; try done; lia.
Qed.

(** A probed peer with entries 1..5 matched, next to be sent 10. *)
Definition w_progress : Progress.t :=
  (new 10 4) <| matched := 5 |> <| state := Probe |> <| paused := true |>.

Lemma w_progress_wf : wf w_progress.
Proof. by repeat split; simpl; try (unfold len; simpl); try lia; try done; right. Qed.

Lemma w_waiting_wf : wf (become_snapshot w_progress 9).
Proof. by apply become_snapshot_wf; [exact w_progress_wf|]. Qed.

Lemma progress_invariant_witness :
  (∃ p', step w_progress (MaybeDecrTo 9 7 0) = Done p' ∧ wf p') ∧ refuses (become_snapshot w_progress 9) (UpdateState 9) = true.
Proof.
  split.
  - pose proof (progress_invariant w_progress (MaybeDecrTo 9 7 0) w_progress_wf ltac:(done)) as Hp.
    destruct (step w_progress (MaybeDecrTo 9 7 0)) as [p'|] eqn:E; [exists p'; by destruct Hp|by vm_compute in E].
  - exact (progress_invariant (become_snapshot w_progress 9) (UpdateState 9) w_waiting_wf ltac:(done)).
Defined.

End properties.
