(* ===== verification/Tracker.v ===== *)
(** * The progress tracker (src/src/tracker.rs)

    The configuration in force, the progress of every peer, the votes of the
    running election, and the replication sets of the witness extension. *)
From S2P Require Import Prelude Errors Eraftpb Util Quorum Inflights Progress.

(** The two halves of a joint configuration index Rust's [[T; 2]] arrays. *)
Inductive half : Type := Incoming | Outgoing.
#[export] Instance half_eq_dec : EqDecision half.
Proof. solve_decision. Defined.
Abbreviation arr2 A := (A * A)%type.
Definition get2 {A} (a : arr2 A) (h : half) : A :=
  match h with Incoming => a.1 | Outgoing => a.2 end.
Definition set2 {A} (a : arr2 A) (h : half) (x : A) : arr2 A :=
  match h with Incoming => (x, a.2) | Outgoing => (a.1, x) end.

Module Configuration.
Record t : Type := mk {
  voters : Joint.Configuration;
  learners : gset N;
  learners_next : gset N;
  auto_leave : bool;
  witnesses : arr2 N
}.
#[global] Instance eta_t : Eta t := λ c,
  mk (voters c) (learners c) (learners_next c) (auto_leave c) (witnesses c).
#[global] Instance t_eq_dec : EqDecision t.
Proof. solve_decision. Defined.

Definition new (vs ls : list N) : t :=
  mk (Joint.new (list_to_set vs)) (list_to_set ls) ∅ false (0, 0).

Definition with_capacity : t := mk (Joint.mkJoint ∅ ∅) ∅ ∅ false (0, 0).

Definition to_conf_state `{HashOrder} (c : t) : ConfState :=
  mkConfState (Majority.raw_slice (Joint.incoming (voters c)))
    (set_iter (learners c))
    (Majority.raw_slice (Joint.outgoing (voters c)))
    (set_iter (learners_next c))
    (auto_leave c) (get2 (witnesses c) Incoming) (get2 (witnesses c) Outgoing).

Definition clear (c : t) : t :=
  c <| voters := Joint.clear (voters c) |> <| learners := ∅ |> <| learners_next := ∅ |>
    <| auto_leave := false |> <| witnesses := (0, 0) |>.

(** The voters of one half. *)
Definition half_voters (c : t) (h : half) : gset N :=
  match h with Incoming => Joint.incoming (voters c) | Outgoing => Joint.outgoing (voters c) end.
End Configuration.

Record ReplicationSet : Type := mkReplicationSet {
  rs_witness : N;
  rs_excluded : N;
  rs_non_witness_voters : gset N
}.
#[export] Instance eta_ReplicationSet : Eta ReplicationSet := λ r,
  mkReplicationSet (rs_witness r) (rs_excluded r) (rs_non_witness_voters r).
#[export] Instance ReplicationSet_eq_dec : EqDecision ReplicationSet.
Proof. solve_decision. Defined.
Definition default_ReplicationSet : ReplicationSet := mkReplicationSet 0 0 ∅.

Record Epoch : Type := mkEpoch {
  subterm : N;
  replication_sets : arr2 ReplicationSet;
  witness_subterm : arr2 N;
  witness_pending_subterm : arr2 N
}.
#[export] Instance eta_Epoch : Eta Epoch := λ e,
  mkEpoch (subterm e) (replication_sets e) (witness_subterm e) (witness_pending_subterm e).
Definition default_Epoch : Epoch :=
  mkEpoch 0 (default_ReplicationSet, default_ReplicationSet) (0, 0) (0, 0).

Definition epoch_has_witness (e : Epoch) : bool :=
  negb (rs_witness (get2 (replication_sets e) Incoming) =? 0)
  || negb (rs_witness (get2 (replication_sets e) Outgoing) =? 0).

Definition replicate_to_witness (e : Epoch) : bool * bool :=
  let r0 := get2 (replication_sets e) Incoming in
  let r1 := get2 (replication_sets e) Outgoing in
  (negb (rs_witness r0 =? 0) && negb (rs_excluded r0 =? rs_witness r0),
   negb (rs_witness r1 =? 0) && negb (rs_excluded r1 =? rs_witness r1)).

(** [ProgressMap] and its indexers. *)
Abbreviation ProgressMap := (gmap N Progress.t).

#[export] Instance ProgressMap_acked : AckedIndexer ProgressMap := λ m voter_id,
  (λ p, mkIndex (Progress.matched p) (Progress.commit_group_id p)) <$> m !! voter_id.

Record ScopedAckIndexer : Type := mkScoped { sc_indexer : ProgressMap; sc_scope : gset N }.
#[export] Instance ScopedAckIndexer_acked : AckedIndexer ScopedAckIndexer := λ s voter_id,
  if bool_decide (voter_id ∈ sc_scope s) then acked_index (sc_indexer s) voter_id else None.

(** [MapChange] (confchange/changer.rs). *)
Inductive MapChangeType : Type := MapAdd | MapRemove.
#[export] Instance MapChangeType_eq_dec : EqDecision MapChangeType.
Proof. solve_decision. Defined.
Abbreviation MapChange := (list (N * MapChangeType)).

Module Tracker.
Record t : Type := mk {
  progress : ProgressMap;
  conf : Configuration.t;
  votes : gmap N bool;
  max_inflight : N;
  group_commit : bool;
  epoch : Epoch
}.
#[global] Instance eta_t : Eta t := λ p,
  mk (progress p) (conf p) (votes p) (max_inflight p) (group_commit p) (epoch p).

Definition with_capacity (max : N) : t :=
  mk ∅ Configuration.with_capacity ∅ max false default_Epoch.
Definition new (max : N) : t := with_capacity max.

Definition enable_group_commit (p : t) (enable : bool) : t := p <| group_commit := enable |>.

Definition clear (p : t) : t :=
  p <| progress := ∅ |> <| conf := Configuration.clear (conf p) |> <| votes := ∅ |>.

Definition is_singleton (p : t) : bool := Joint.is_singleton (Configuration.voters (conf p)).

Definition get (p : t) (id : N) : option Progress.t := progress p !! id.

(** [get_mut] followed by an update in place. *)
Definition set_progress (p : t) (id : N) (pr : Progress.t) : t :=
  p <| progress := <[id := pr]> (progress p) |>.

Section tracker.
Context `{HashOrder}.

Definition maximal_committed_index (p : t) : N * bool :=
  Joint.committed_index (Configuration.voters (conf p)) (group_commit p) (progress p).

Definition reset_votes (p : t) : t := p <| votes := ∅ |>.

Definition record_vote (p : t) (id : N) (vote : bool) : t :=
  match votes p !! id with
  | Some _ => p
  | None => p <| votes := <[id := vote]> (votes p) |>
  end.

(** The counting loop of the tallies. *)
Fixpoint count_tally (c : Joint.Configuration) (vs : list (N * bool)) (granted rejected : N) : N * N :=
  match vs with
  | [] => (granted, rejected)
  | (id, vote) :: vs' =>
    if negb (Joint.contains c id) then count_tally c vs' granted rejected
    else if (vote : bool) then count_tally c vs' (granted + 1) rejected
    else count_tally c vs' granted (rejected + 1)
  end.

Definition vote_result (p : t) (vs : gmap N bool) : VoteResult :=
  Joint.vote_result (Configuration.voters (conf p)) (λ id, vs !! id).

Definition tally_votes (p : t) : N * N * VoteResult :=
  let '(granted, rejected) := count_tally (Configuration.voters (conf p)) (map_iter (votes p)) 0 0 in
  (granted, rejected, vote_result p (votes p)).

Definition tally_votes_with_diff (p : t) : N * N * VoteResult * arr2 N :=
  let '(granted, rejected) := count_tally (Configuration.voters (conf p)) (map_iter (votes p)) 0 0 in
  let '(result, diff) :=
    Joint.vote_result_with_diff (Configuration.voters (conf p)) (λ id, votes p !! id) in
  (granted, rejected, result, diff).

Definition has_quorum (p : t) (potential_quorum : gset N) : bool :=
  bool_decide (Joint.vote_result (Configuration.voters (conf p))
    (λ id, if bool_decide (id ∈ potential_quorum) then Some true else None) = Won).

(** One iteration of the loop of [quorum_recently_active]: the new flag of the
    peer and whether it counts as active. *)
Definition active_visit (perspective_of id : N) (pr : Progress.t) : Progress.t * bool :=
  if id =? perspective_of then (pr <| Progress.recent_active := true |>, true)
  else if Progress.is_witness pr then (pr <| Progress.recent_active := true |>, true)
  else if Progress.recent_active pr then (pr <| Progress.recent_active := false |>, true)
  else (pr, false).

Definition quorum_recently_active (p : t) (perspective_of : N) : t * bool :=
  let active := dom (filter (λ kv, (active_visit perspective_of kv.1 kv.2).2 = true) (progress p)) in
  let p := p <| progress :=
    map_imap (λ id pr, Some (active_visit perspective_of id pr).1) (progress p) |> in
  (p, has_quorum p active).

Definition apply_change (next_idx : N) (p : t) (change : N * MapChangeType) : t :=
  let '(id, change_type) := change in
  match change_type with
  | MapAdd =>
    let w := Configuration.witnesses (conf p) in
    let pr := (Progress.new next_idx (max_inflight p))
      <| Progress.recent_active := true |>
      <| Progress.is_witness := (get2 w Incoming =? id) || (get2 w Outgoing =? id) |> in
    p <| progress := <[id := pr]> (progress p) |>
  | MapRemove => p <| progress := delete id (progress p) |>
  end.

Definition apply_conf (p : t) (c : Configuration.t) (changes : MapChange) (next_idx : N) : t :=
  foldl (apply_change next_idx) (p <| conf := c |>) changes.

(** The loop of [reset_replication_set] over the voters of a half. *)
Definition scan_voter (w : N) (acc : ReplicationSet * N) (id : N) : ReplicationSet * N :=
  let '(set, non_witness_count) := acc in
  if w =? id then (set <| rs_witness := id |>, non_witness_count)
  else (set <| rs_non_witness_voters := {[id]} ∪ rs_non_witness_voters set |>,
        non_witness_count + 1).

Definition reset_half (w : N) (vs : gset N) : ReplicationSet :=
  let '(set, non_witness_count) := foldl (scan_voter w) (default_ReplicationSet, 0) (set_iter vs) in
  let set := if (rs_witness set =? 0) && negb (w =? 0) then set <| rs_witness := w |> else set in
  if negb (rs_witness set =? 0) && (2 <=? non_witness_count)
  then set <| rs_excluded := rs_witness set |>
  else if negb (rs_witness set =? 0)
  then set <| rs_non_witness_voters := {[rs_witness set]} ∪ rs_non_witness_voters set |>
  else set.

Definition reset_replication_set (p : t) (reset_subterm : bool) : t :=
  let sub := if reset_subterm then 0 else subterm (epoch p) +w 1 in
  let rs h := reset_half (get2 (Configuration.witnesses (conf p)) h)
                (Configuration.half_voters (conf p) h) in
  p <| epoch := mkEpoch sub (rs Incoming, rs Outgoing) (0, 0) (0, 0) |>.

(** [change_replication_set], first case: the excluded node is back. *)
Definition find_inactive (p : t) (set : ReplicationSet) (leader_id : N) : N :=
  match find (λ kv : N * Progress.t,
      negb (Progress.recent_active kv.2) && negb (kv.1 =? leader_id)
      && (bool_decide (kv.1 ∈ rs_non_witness_voters set) || (kv.1 =? rs_witness set)))
    (map_iter (progress p)) with
  | Some kv => kv.1
  | None => 0
  end.

Definition recover_half (p : t) (set : ReplicationSet) (leader_id : N) : option ReplicationSet :=
  if rs_excluded set =? 0 then None
  else match progress p !! rs_excluded set with
  | None => None
  | Some excluded_pr =>
    let is_excluded_ready := Progress.recent_active excluded_pr
      && ((rs_excluded set =? rs_witness set)
          || bool_decide (Progress.state excluded_pr = Replicate)) in
    if is_excluded_ready then
      let inactive_id := find_inactive p set leader_id in
      if (0 <? inactive_id) || negb (rs_excluded set =? rs_witness set) then
        let kept := if 0 <? inactive_id
          then rs_non_witness_voters set ∖ {[inactive_id]}
          else rs_non_witness_voters set ∖ {[rs_witness set]} in
        Some (mkReplicationSet (rs_witness set)
          (if 0 <? inactive_id then inactive_id else rs_witness set)
          ({[rs_excluded set]} ∪ kept))
      else None
    else None
  end.

(** Second case: swap an unreachable voter with the witness. *)
Definition degrade_half (p : t) (set : ReplicationSet) (leader_id : N) : option ReplicationSet :=
  if negb (rs_witness set =? 0) && negb (bool_decide (rs_witness set ∈ rs_non_witness_voters set))
  then match find (λ id,
      match progress p !! id with
      | Some pr => negb (Progress.recent_active pr) && negb (id =? leader_id)
      | None => false
      end) (set_iter (rs_non_witness_voters set)) with
    | Some id =>
      Some (mkReplicationSet (rs_witness set) id
        ({[rs_witness set]} ∪ rs_non_witness_voters set ∖ {[id]}))
    | None => None
    end
  else None.

Definition change_half (p : t) (set : ReplicationSet) (leader_id : N) : option ReplicationSet :=
  match recover_half p set leader_id with
  | Some s => Some s
  | None => degrade_half p set leader_id
  end.

Definition change_replication_set (p : t) (leader_id : N) : t * bool :=
  let old_epoch := epoch p in
  let change h := change_half p (get2 (replication_sets old_epoch) h) leader_id in
  let new_set h := default default_ReplicationSet (change h) in
  let new_epoch := mkEpoch (subterm old_epoch +w 1) (new_set Incoming, new_set Outgoing) (0, 0) (0, 0) in
  let changed := bool_decide (is_Some (change Incoming)) || bool_decide (is_Some (change Outgoing)) in
  if changed then (p <| epoch := new_epoch |>, true) else (p, false).

Definition one_less_than_quorum_in_replication_set (p : t) : gmap N N :=
  let '(w0, w1) := replicate_to_witness (epoch p) in
  let visit (h : half) (needs_witness : bool) (result : gmap N N) :=
    if needs_witness then
      let set := get2 (replication_sets (epoch p)) h in
      let scoped := mkScoped (progress p) (rs_non_witness_voters set) in
      let idx := Majority.one_less_than_quorum (Configuration.half_voters (conf p) h) scoped in
      <[rs_witness set := idx]> result
    else result in
  visit Outgoing w1 (visit Incoming w0 ∅).

End tracker.
End Tracker.

(** ** Replication sets *)

(** With a witness configured, exactly one member of the replication group
    (the voters and the witness) is outside the replication set, or none when
    there is a single regular voter; the witness is a member either way. *)
Definition rs_members (s : ReplicationSet) : gset N :=
  if rs_excluded s =? 0 then rs_non_witness_voters s
  else {[rs_excluded s]} ∪ rs_non_witness_voters s.


Section replication_sets.
Context `{HashOrder}.
Import Tracker.

Lemma scan_voter_fold w (vs : list N) s n :
  NoDup vs → vs ## elements (rs_non_witness_voters s) →
  foldl (scan_voter w) (s, n) vs =
  (s <| rs_witness := if decide (w ∈ vs) then w else rs_witness s |>
     <| rs_non_witness_voters := rs_non_witness_voters s ∪ (list_to_set vs ∖ {[w]}) |>,
   n + N.of_nat (size (list_to_set vs ∖ {[w]} : gset N))).
Proof.
  revert s n. induction vs as [|v vs IH]; intros s n Hnd Hdis.
  - replace (list_to_set [] ∖ {[w]} : gset N) with (∅ : gset N) by set_solver.
    rewrite size_empty, decide_False by (apply not_elem_of_nil). cbn [foldl].
    f_equal; [|lia]. destruct s as [a b c]. unfold upd. cbn. f_equal. set_solver.
  - apply NoDup_cons in Hnd as [Hv Hnd]. cbn [foldl scan_voter]. rewrite list_to_set_cons.
    destruct (N.eqb_spec w v) as [->|Hne].
    + rewrite IH by (try done; cbn; set_solver).
      rewrite (decide_False (P := v ∈ vs)) by done. rewrite decide_True by set_solver.
      replace (({[v]} ∪ list_to_set vs) ∖ {[v]} : gset N) with (list_to_set vs ∖ {[v]} : gset N) by set_solver.
      done.
    + rewrite IH; [|done|cbn; intros x Hx; rewrite elem_of_elements; set_solver].
      replace (({[v]} ∪ list_to_set vs) ∖ {[w]} : gset N)
        with ({[v]} ∪ (list_to_set vs ∖ {[w]}) : gset N) by set_solver.
      rewrite (size_union ({[v]} : gset N) (list_to_set vs ∖ {[w]})), size_singleton by set_solver.
      f_equal; [|lia]. unfold upd. cbn. f_equal; [|set_solver].
      destruct (decide (w ∈ vs)); [rewrite decide_True by set_solver|rewrite decide_False by set_solver]; done.
Qed.

(** What [reset_replication_set] installs for a half with witness [w]: with at
    least two regular voters the witness is left out, otherwise it replicates
    as a regular voter. *)
Lemma reset_half_spec w (vs : gset N) : w ≠ 0 →
  reset_half w vs =
  if 2 <=? N.of_nat (size (vs ∖ {[w]}))
  then mkReplicationSet w w (vs ∖ {[w]})
  else mkReplicationSet w 0 ({[w]} ∪ vs).
Proof.
  intros Hw. unfold reset_half.
  rewrite scan_voter_fold by (try apply NoDup_set_iter; simpl; rewrite elements_empty; set_solver).
  assert (list_to_set (set_iter vs) = vs) as -> by (apply set_eq; intros x; rewrite elem_of_list_to_set; apply elem_of_set_iter).
  rewrite (proj2 (N.eqb_neq w 0) Hw). rewrite N.add_0_l. simpl.
  assert ((if decide (w ∈ set_iter vs) then w else 0) = w ∨
          (if decide (w ∈ set_iter vs) then w else 0) = 0) as Hd by (case_decide; auto).
  set (x := if decide (w ∈ set_iter vs) then w else 0) in *. clearbody x.
  destruct Hd as [->| ->]; simpl.
  all: rewrite ?(proj2 (N.eqb_neq w 0) Hw); simpl; rewrite ?(proj2 (N.eqb_neq w 0) Hw); simpl.
  all: destruct (2 <=? _); cbv [upd]; cbn; f_equal; apply set_eq; intros y; destruct (decide (y = w)); set_solver.
Qed.





End replication_sets.

(** ** Quorum activity *)
Section activity.
Context `{HashOrder}.
Import Tracker.

Lemma has_quorum_spec p (s : gset N) :
  has_quorum p s = true ↔ quorate_joint (Configuration.voters (conf p)) (λ v, v ∈ s).
Proof.
  unfold has_quorum. rewrite bool_decide_eq_true, joint_Won. unfold quorate_joint.
  rewrite !(quorate_iff _ (λ v, (if bool_decide (v ∈ s) then Some true else None) = Some true) (λ v, v ∈ s));
    [done|intros v _; case_bool_decide; naive_solver..].
Qed.

(** A peer counts as active for the leader [self]: itself, a witness, or heard
    of since the last check. *)
Definition counts_active (p : Tracker.t) (self v : N) : Prop :=
  ∃ pr, progress p !! v = Some pr ∧
    (v = self ∨ Progress.is_witness pr = true ∨ Progress.recent_active pr = true).

#[export] Instance counts_active_dec p self v : Decision (counts_active p self v).
Proof.
  destruct (progress p !! v) as [pr|] eqn:E.
  - destruct (decide (v = self ∨ Progress.is_witness pr = true ∨ Progress.recent_active pr = true)).
    + left. by exists pr.
    + right. intros (pr' & ? & ?). naive_solver.
  - right. intros (pr & ? & ?). congruence.
Defined.

Lemma active_visit_counts self id pr :
  (active_visit self id pr).2 = true ↔
  (id = self ∨ Progress.is_witness pr = true ∨ Progress.recent_active pr = true).
Proof.
  unfold active_visit. destruct (N.eqb_spec id self); [naive_solver|].
  destruct (Progress.is_witness pr); [naive_solver|].
  destruct (Progress.recent_active pr); naive_solver.
Qed.
End activity.

(** ** Properties *)
Section properties.
Context `{HashOrder}.
Import Tracker.

(** The leader's quorum check succeeds exactly when the peers it counts as
    active (itself, witnesses, and those heard of since the last check) are a
    quorum of the configuration, and it starts a new observation period: every
    other peer's activity flag is cleared while nothing else about it changes. *)
Theorem quorum_recently_active_spec (p : Tracker.t) (self : N) :
  let '(p', ok) := quorum_recently_active p self in
  (ok = true ↔ quorate_joint (Configuration.voters (conf p)) (counts_active p self)) ∧
  conf p' = conf p ∧
  ∀ v, progress p' !! v =
    (λ pr, pr <| Progress.recent_active := (v =? self) || Progress.is_witness pr |>) <$> progress p !! v.
Proof.
  unfold quorum_recently_active. rewrite has_quorum_spec. split_and!; [|done|].
  - cbn [conf]. unfold quorate_joint.
    assert (∀ v, v ∈ dom (filter (λ kv, (active_visit self kv.1 kv.2).2 = true) (progress p))
      ↔ counts_active p self v) as Hd.
    { intros v. rewrite elem_of_dom. unfold is_Some, counts_active.
      setoid_rewrite map_lookup_filter_Some. simpl. setoid_rewrite active_visit_counts. done. }
    rewrite !(quorate_iff _ _ (counts_active p self) (λ v _, Hd v)). done.
  - intros v. simpl. rewrite map_lookup_imap. destruct (progress p !! v) as [pr|]; [|done]. simpl.
    f_equal. unfold active_visit. destruct pr as [? ? ? ? ? ? ra ? ? ? w]. simpl.
    destruct (v =? self), w, ra; done.
Qed.


(** The set installed for a half with a witness: with two regular voters or
    more the witness is the one member left out; with a single one it
    replicates like a voter and nobody is left out. *)
Theorem reset_replication_set_spec (p : Tracker.t) (new_term : bool) (h : half)
    (Hw : get2 (Configuration.witnesses (conf p)) h ≠ 0) :
  let w := get2 (Configuration.witnesses (conf p)) h in
  let vs := Configuration.half_voters (conf p) h in
  let new := get2 (replication_sets (epoch (reset_replication_set p new_term))) h in
  rs_witness new = w ∧ rs_members new = {[w]} ∪ vs ∧
  rs_excluded new = (if decide (2 ≤ N.of_nat (size (vs ∖ {[w]}))) then w else 0).
Proof.
  intros w vs new.
  assert (new = reset_half w vs) as -> by (unfold new; destruct h; done).
  rewrite (reset_half_spec w vs Hw).
  destruct (N.leb_spec 2 (N.of_nat (size (vs ∖ {[w]}))));
    [rewrite decide_True by done|rewrite decide_False by lia];
    unfold rs_members; simpl; split_and!; try done.
  rewrite (proj2 (N.eqb_neq w 0) Hw). apply set_eq. intros x. destruct (decide (x = w)); set_solver.
Qed.
End properties.

(** ** Witnesses *)

(** Voters 1, 2 and witness 3 jointly with voters 4, 5 and witness 6; peer 2 is
    unreachable. *)
Definition w_peer (active : bool) (witness : bool) : Progress.t :=
  (Progress.new 5 8) <| Progress.recent_active := active |> <| Progress.is_witness := witness |>.
Definition w_tracker : Tracker.t :=
  @Tracker.reset_replication_set elements_order
    (Tracker.mk
      {[1 := w_peer true false; 2 := w_peer false false; 3 := w_peer true true;
        4 := w_peer true false; 5 := w_peer true false; 6 := w_peer true true]}
      (Configuration.mk (Joint.mkJoint {[1; 2; 3]} {[4; 5; 6]}) ∅ ∅ false (3, 6))
      ∅ 8 false default_Epoch) true.


Lemma reset_replication_set_spec_witness :
  rs_excluded (get2 (replication_sets (Tracker.epoch
    (@Tracker.reset_replication_set elements_order w_tracker false))) Incoming) = 3.
Proof.
  destruct (@reset_replication_set_spec elements_order w_tracker false Incoming) as (_ & _ & ->); [done|].
  vm_compute. reflexivity.
Defined.

(** Adjusting the set of one half of a joint configuration discards the set
    of the other: here both halves have a witness, only the incoming half has
    an unreachable voter, and after the adjustment the outgoing half has no
    witness and no replication set at all. *)
Theorem change_replication_set_drops_other_half :
  let '(p', changed) := @Tracker.change_replication_set elements_order w_tracker 1 in
  changed = true ∧
  rs_witness (get2 (replication_sets (Tracker.epoch w_tracker)) Outgoing) = 6 ∧
  get2 (replication_sets (Tracker.epoch p')) Outgoing = default_ReplicationSet ∧
  Configuration.witnesses (Tracker.conf p') = (3, 6).
Proof. vm_compute. done. Qed.
