(* ===== verification/ConfChange.v ===== *)
(** * Membership changes (src/src/confchange.rs, confchange/changer.rs,
    confchange/restore.rs)

    The changer computes, from the tracker's configuration and a list of
    changes, the next configuration and the additions and removals of peers;
    [restore] replays a [ConfState]. *)
From stdpp Require Import pretty.
From S2P Require Import Prelude Errors Eraftpb ProtoConf Util Quorum Inflights Progress Tracker.

(** [confchange::joint]. *)
Definition joint (c : Configuration.t) : bool :=
  negb (bool_decide (Joint.outgoing (Configuration.voters c) = ∅)).

(** Setters for the incoming and outgoing voters of a configuration. *)
Definition upd_incoming (f : gset N → gset N) (c : Configuration.t) : Configuration.t :=
  c <| Configuration.voters ::= λ v, v <| Joint.incoming ::= f |> |>.
Definition upd_outgoing (f : gset N → gset N) (c : Configuration.t) : Configuration.t :=
  c <| Configuration.voters ::= λ v, v <| Joint.outgoing ::= f |> |>.

Module Changer.

(** [IncrChangeMap]: pending additions and removals on top of the tracker's
    progress map. *)
Record IncrChangeMap : Type := mkIncr { changes : MapChange; base : ProgressMap }.
#[global] Instance eta_IncrChangeMap : Eta IncrChangeMap := λ m, mkIncr (changes m) (base m).

Definition contains (m : IncrChangeMap) (id : N) : bool :=
  match find (λ c : N * MapChangeType, c.1 =? id) (reverse (changes m)) with
  | Some (_, MapRemove) => false
  | Some (_, MapAdd) => true
  | None => bool_decide (is_Some (base m !! id))
  end.

Definition push (m : IncrChangeMap) (id : N) (ty : MapChangeType) : IncrChangeMap :=
  m <| changes ::= λ l, l ++ [(id, ty)] |>.

Section changer.
Context `{HashOrder}.

Abbreviation st := (Configuration.t * IncrChangeMap)%type.

Definition init_progress (s : st) (id : N) (is_learner : bool) : st :=
  let '(cfg, prs) := s in
  let cfg := if negb is_learner then upd_incoming (λ v, {[id]} ∪ v) cfg
             else cfg <| Configuration.learners ::= λ l, {[id]} ∪ l |> in
  (cfg, push prs id MapAdd).

(** [learners.remove(id); learners_next.remove(id)]. *)
Definition drop_learner (cfg : Configuration.t) (id : N) : Configuration.t :=
  cfg <| Configuration.learners ::= λ l, l ∖ {[id]} |>
      <| Configuration.learners_next ::= λ l, l ∖ {[id]} |>.

Definition make_voter (s : st) (id : N) : st :=
  let '(cfg, prs) := s in
  if negb (contains prs id) then init_progress s id false
  else (drop_learner (upd_incoming (λ v, {[id]} ∪ v) cfg) id, prs).

Definition make_learner (s : st) (id : N) : st :=
  let '(cfg, prs) := s in
  if negb (contains prs id) then init_progress s id true
  else if bool_decide (id ∈ Configuration.learners cfg) then s
  else
    let cfg := drop_learner (upd_incoming (λ v, v ∖ {[id]}) cfg) id in
    if bool_decide (id ∈ Joint.outgoing (Configuration.voters cfg))
    then (cfg <| Configuration.learners_next ::= λ l, {[id]} ∪ l |>, prs)
    else (cfg <| Configuration.learners ::= λ l, {[id]} ∪ l |>, prs).

Definition make_witness (s : st) (id : N) : st :=
  let '(cfg, prs) := s in
  let cfg := drop_learner (upd_incoming (λ v, {[id]} ∪ v) cfg) id in
  let cfg := cfg <| Configuration.witnesses ::= λ w, set2 w Incoming id |> in
  if negb (contains prs id) then init_progress (cfg, prs) id false else (cfg, prs).

Definition remove (s : st) (id : N) : st :=
  let '(cfg, prs) := s in
  if negb (contains prs id) then s
  else
    let cfg := drop_learner (upd_incoming (λ v, v ∖ {[id]}) cfg) id in
    let cfg := if get2 (Configuration.witnesses cfg) Incoming =? id
               then cfg <| Configuration.witnesses ::= λ w, set2 w Incoming 0 |> else cfg in
    if negb (bool_decide (id ∈ Joint.outgoing (Configuration.voters cfg)))
    then (cfg, push prs id MapRemove)
    else (cfg, prs).

Definition apply_one (s : st) (cc : ConfChangeSingle) : st :=
  if ccs_node_id cc =? 0 then s
  else match ccs_change_type cc with
       | AddNode => make_voter s (ccs_node_id cc)
       | AddLearnerNode => make_learner s (ccs_node_id cc)
       | RemoveNode => remove s (ccs_node_id cc)
       | AddWitness => make_witness s (ccs_node_id cc)
       end.

Definition apply (s : st) (ccs : list ConfChangeSingle) : Result st :=
  let s := foldl apply_one s ccs in
  if bool_decide (Joint.incoming (Configuration.voters s.1) = ∅)
  then Err (ConfChangeError "removed all voters") else Ok s.

(** A [for] loop that returns at the first error. *)
Fixpoint for_each (l : list N) (f : N → Result unit) : Result unit :=
  match l with
  | [] => Ok tt
  | x :: l' => _ ← f x; for_each l' f
  end.

Definition guard_err (b : bool) (msg : string) : Result unit :=
  if b then Err (ConfChangeError msg) else Ok tt.

Definition check_invariants (cfg : Configuration.t) (prs : IncrChangeMap) : Result unit :=
  let vs := Configuration.voters cfg in
  _ ← for_each (Joint.ids vs) (λ id,
        guard_err (negb (contains prs id)) ("no progress for voter " +:+ pretty id));
  _ ← for_each (set_iter (Configuration.learners cfg)) (λ id,
        _ ← guard_err (negb (contains prs id)) ("no progress for learner " +:+ pretty id);
        _ ← guard_err (bool_decide (id ∈ Joint.outgoing vs))
              (pretty id +:+ " is in learners and outgoing voters");
        guard_err (bool_decide (id ∈ Joint.incoming vs))
              (pretty id +:+ " is in learners and incoming voters"));
  _ ← for_each (set_iter (Configuration.learners_next cfg)) (λ id,
        _ ← guard_err (negb (contains prs id)) ("no progress for learner(next) " +:+ pretty id);
        guard_err (negb (bool_decide (id ∈ Joint.outgoing vs)))
              (pretty id +:+ " is in learners_next and outgoing voters"));
  _ ← (if negb (joint cfg) then
         _ ← guard_err (negb (bool_decide (Configuration.learners_next cfg = ∅)))
               "learners_next must be empty when not joint";
         guard_err (Configuration.auto_leave cfg) "auto_leave must be false when not joint"
       else Ok tt);
  let check_witness h i :=
    let w := get2 (Configuration.witnesses cfg) h in
    guard_err ((0 <? w) && negb (bool_decide (w ∈ Configuration.half_voters cfg h)))
      (pretty w +:+ " is in Witnesses[" +:+ i +:+ "] but not in Voters[" +:+ i +:+ "]") in
  _ ← check_witness Incoming "0";
  check_witness Outgoing "1".

Definition check_and_copy (p : Tracker.t) : Result st :=
  let prs := mkIncr [] (Tracker.progress p) in
  _ ← check_invariants (Tracker.conf p) prs;
  Ok (Tracker.conf p, prs).

Definition enter_joint (p : Tracker.t) (auto_leave : bool) (ccs : list ConfChangeSingle)
    : Result (Configuration.t * MapChange) :=
  if joint (Tracker.conf p) then Err (ConfChangeError "config is already joint")
  else
    '(cfg, prs) ← check_and_copy p;
    if bool_decide (Joint.incoming (Configuration.voters cfg) = ∅)
    then Err (ConfChangeError "can't make a zero-voter config joint")
    else
      let cfg := upd_outgoing (λ o, o ∪ Joint.incoming (Configuration.voters cfg)) cfg in
      let cfg := cfg <| Configuration.witnesses ::= λ w, set2 w Outgoing (get2 w Incoming) |> in
      '(cfg, prs) ← apply (cfg, prs) ccs;
      let cfg := cfg <| Configuration.auto_leave := auto_leave |> in
      _ ← check_invariants cfg prs;
      Ok (cfg, changes prs).

(** The loop of [leave_joint] over the outgoing voters. *)
Definition drop_outgoing (cfg : Configuration.t) (prs : IncrChangeMap) (id : N) : IncrChangeMap :=
  if negb (bool_decide (id ∈ Joint.incoming (Configuration.voters cfg)))
     && negb (bool_decide (id ∈ Configuration.learners cfg))
     && negb (get2 (Configuration.witnesses cfg) Incoming =? id)
  then push prs id MapRemove else prs.

Definition leave_joint (p : Tracker.t) : Result (Configuration.t * MapChange) :=
  if negb (joint (Tracker.conf p)) then Err (ConfChangeError "can't leave a non-joint config")
  else
    '(cfg, prs) ← check_and_copy p;
    if bool_decide (Joint.outgoing (Configuration.voters cfg) = ∅)
    then Err (ConfChangeError "configuration is not joint")
    else
      let cfg := cfg <| Configuration.learners ::= λ l, l ∪ Configuration.learners_next cfg |>
                     <| Configuration.learners_next := ∅ |> in
      let prs := foldl (drop_outgoing cfg) prs
                   (set_iter (Joint.outgoing (Configuration.voters cfg))) in
      let cfg := upd_outgoing (λ _, ∅) cfg in
      let cfg := cfg <| Configuration.witnesses ::= λ w, set2 w Outgoing 0 |>
                     <| Configuration.auto_leave := false |> in
      _ ← check_invariants cfg prs;
      Ok (cfg, changes prs).

(** Size of the symmetric difference of two voter sets. *)
Definition symmetric_difference_count (a b : gset N) : N :=
  N.of_nat (size ((a ∖ b) ∪ (b ∖ a))).

Definition simple (p : Tracker.t) (ccs : list ConfChangeSingle)
    : Result (Configuration.t * MapChange) :=
  if joint (Tracker.conf p)
  then Err (ConfChangeError "can't apply simple config change in joint config")
  else
    '(cfg, prs) ← check_and_copy p;
    '(cfg, prs) ← apply (cfg, prs) ccs;
    if 1 <? symmetric_difference_count (Joint.incoming (Configuration.voters cfg))
              (Joint.incoming (Configuration.voters (Tracker.conf p)))
    then Err (ConfChangeError "more than one voter changed without entering joint config")
    else
      _ ← check_invariants cfg prs;
      Ok (cfg, changes prs).

(** ** Restoring a configuration (restore.rs) *)

Definition to_conf_change_single (cs : ConfState)
    : list ConfChangeSingle * list ConfChangeSingle :=
  let outgoing := (λ id, new_conf_change_single id
      (if id =? cs_witness_outgoing cs then AddWitness else AddNode)) <$> cs_voters_outgoing cs in
  let removes := (λ id, new_conf_change_single id RemoveNode) <$> cs_voters_outgoing cs in
  let adds := (λ id, new_conf_change_single id
      (if id =? cs_witness cs then AddWitness else AddNode)) <$> cs_voters cs in
  let learners := (λ id, new_conf_change_single id AddLearnerNode) <$> cs_learners cs in
  let learners_next := (λ id, new_conf_change_single id AddLearnerNode) <$> cs_learners_next cs in
  (outgoing, removes ++ adds ++ learners ++ learners_next).

Fixpoint restore_simple (p : Tracker.t) (next_idx : N) (ccs : list ConfChangeSingle)
    : Tracker.t * Result unit :=
  match ccs with
  | [] => (p, Ok tt)
  | i :: ccs' =>
    match simple p [i] with
    | Err e => (p, Err e)
    | Ok (cfg, chg) => restore_simple (Tracker.apply_conf p cfg chg next_idx) next_idx ccs'
    end
  end.

Definition restore (p : Tracker.t) (next_idx : N) (cs : ConfState) : Tracker.t * Result unit :=
  let '(outgoing, incoming) := to_conf_change_single cs in
  match outgoing with
  | [] => restore_simple p next_idx incoming
  | _ =>
    match restore_simple p next_idx outgoing with
    | (p, Err e) => (p, Err e)
    | (p, Ok _) =>
      match enter_joint p (cs_auto_leave cs) incoming with
      | Err e => (p, Err e)
      | Ok (cfg, chg) => (Tracker.apply_conf p cfg chg next_idx, Ok tt)
      end
    end
  end.

End changer.
End Changer.

(** ** The keys a pending change map stands for *)
Definition key_change (ks : gset N) (c : N * MapChangeType) : gset N :=
  match c.2 with MapAdd => {[c.1]} ∪ ks | MapRemove => ks ∖ {[c.1]} end.
Definition keys (m : Changer.IncrChangeMap) : gset N :=
  foldl key_change (dom (Changer.base m)) (Changer.changes m).

Lemma contains_keys m id : Changer.contains m id = bool_decide (id ∈ keys m).
Proof.
  unfold Changer.contains, keys. destruct m as [chg bs]; simpl.
  induction chg as [|[k ty] chg IH] using rev_ind.
  - simpl. apply bool_decide_ext. by rewrite elem_of_dom.
  - rewrite reverse_snoc, foldl_snoc. unfold key_change at 1. simpl.
    destruct (N.eqb_spec k id) as [->|Hne].
    + destruct ty; symmetry; [apply bool_decide_eq_true|apply bool_decide_eq_false]; set_solver.
    + rewrite IH. apply bool_decide_ext. destruct ty; simpl; set_solver.
Qed.

Lemma keys_push m id ty : keys (Changer.push m id ty) = key_change (keys m) (id, ty).
Proof. unfold keys, Changer.push. simpl. by rewrite foldl_snoc. Qed.

Lemma dom_apply_conf p c chg n :
  dom (Tracker.progress (Tracker.apply_conf p c chg n)) = foldl key_change (dom (Tracker.progress p)) chg.
Proof.
  unfold Tracker.apply_conf.
  change (dom (Tracker.progress p)) with (dom (Tracker.progress (p <| Tracker.conf := c |>))).
  generalize (p <| Tracker.conf := c |>) as q. induction chg as [|[id ty] chg IH]; intros q; [done|].
  cbn [foldl]. rewrite IH. f_equal. unfold Tracker.apply_change, key_change. simpl.
  destruct ty; simpl; [apply dom_insert_L|apply dom_delete_L].
Qed.

Lemma conf_apply_conf p c chg n : Tracker.conf (Tracker.apply_conf p c chg n) = c.
Proof.
  unfold Tracker.apply_conf.
  assert (Tracker.conf (p <| Tracker.conf := c |>) = c) as Hc by done. revert Hc.
  generalize (p <| Tracker.conf := c |>) as q. induction chg as [|[id []] chg IH]; intros q Hq; [done|..];
    cbn [foldl]; by apply IH.
Qed.

(** ** The configuration invariant

    [ids] are the peers that have a progress entry. *)
Record conf_inv (c : Configuration.t) (ids : gset N) : Prop := mk_conf_inv {
  ci_ids : Joint.incoming (Configuration.voters c) ∪ Joint.outgoing (Configuration.voters c)
           ∪ Configuration.learners c = ids;
  ci_zero : 0 ∉ ids;
  ci_learners : Configuration.learners c
    ## Joint.incoming (Configuration.voters c) ∪ Joint.outgoing (Configuration.voters c);
  ci_next : Configuration.learners_next c
    ⊆ Joint.outgoing (Configuration.voters c) ∖ Joint.incoming (Configuration.voters c);
  ci_auto : joint c = false → Configuration.auto_leave c = false;
  ci_witness h : get2 (Configuration.witnesses c) h ≠ 0 →
    get2 (Configuration.witnesses c) h ∈ Configuration.half_voters c h
}.

(** The part of it a single change preserves on its own. *)
Record shape_inv (c : Configuration.t) (ids : gset N) : Prop := mk_shape_inv {
  si_ids : Joint.incoming (Configuration.voters c) ∪ Joint.outgoing (Configuration.voters c)
           ∪ Configuration.learners c = ids;
  si_zero : 0 ∉ ids;
  si_learners : Configuration.learners c
    ## Joint.incoming (Configuration.voters c) ∪ Joint.outgoing (Configuration.voters c);
  si_next : Configuration.learners_next c
    ⊆ Joint.outgoing (Configuration.voters c) ∖ Joint.incoming (Configuration.voters c)
}.

(** What [check_invariants] verifies. *)
Record checked (c : Configuration.t) (ids : gset N) : Prop := mk_checked {
  ck_voters : Joint.incoming (Configuration.voters c) ∪ Joint.outgoing (Configuration.voters c) ⊆ ids;
  ck_learners : Configuration.learners c ⊆ ids;
  ck_disj : Configuration.learners c
    ## Joint.incoming (Configuration.voters c) ∪ Joint.outgoing (Configuration.voters c);
  ck_next : Configuration.learners_next c ⊆ ids ∩ Joint.outgoing (Configuration.voters c);
  ck_plain : joint c = false → Configuration.learners_next c = ∅ ∧ Configuration.auto_leave c = false;
  ck_witness h : get2 (Configuration.witnesses c) h ≠ 0 →
    get2 (Configuration.witnesses c) h ∈ Configuration.half_voters c h
}.

Section changer_facts.
Context `{HashOrder}.
Import Changer.

Lemma bind_unit_Ok (m k : Result unit) : (m ≫= λ _, k) = Ok tt ↔ m = Ok tt ∧ k = Ok tt.
Proof. rewrite res_bind_Ok. split; [intros ([] & ? & ?)|]; naive_solver. Qed.

Lemma for_each_Ok l f : for_each l f = Ok tt ↔ ∀ x, x ∈ l → f x = Ok tt.
Proof.
  induction l as [|x l IH]; simpl; [set_solver|]. rewrite bind_unit_Ok, IH. split.
  - intros [Hx Hl] y [->|Hy]%elem_of_cons; auto.
  - intros Hall. split; [apply Hall; set_solver|]. intros y Hy. apply Hall. set_solver.
Qed.

Lemma guard_err_Ok b msg : guard_err b msg = Ok tt ↔ b = false.
Proof. destruct b; naive_solver. Qed.

Lemma guard_not_Ok P `{Decision P} msg : guard_err (bool_decide P) msg = Ok tt ↔ ¬ P.
Proof. by rewrite guard_err_Ok, bool_decide_eq_false. Qed.

Lemma guard_in_Ok P `{Decision P} msg : guard_err (negb (bool_decide P)) msg = Ok tt ↔ P.
Proof. by rewrite guard_err_Ok, negb_false_iff, bool_decide_eq_true. Qed.

Lemma guard_contains_Ok m id msg : guard_err (negb (contains m id)) msg = Ok tt ↔ id ∈ keys m.
Proof. by rewrite contains_keys, guard_in_Ok. Qed.

Lemma guard_learner_Ok m x (o i : gset N) m1 m2 m3 :
  (_ ← guard_err (negb (contains m x)) m1; _ ← guard_err (bool_decide (x ∈ o)) m2;
   guard_err (bool_decide (x ∈ i)) m3) = Ok tt ↔ x ∈ keys m ∧ x ∉ o ∧ x ∉ i.
Proof. by rewrite !bind_unit_Ok, guard_contains_Ok, !guard_not_Ok. Qed.

Lemma guard_next_Ok m x (o : gset N) m1 m2 :
  (_ ← guard_err (negb (contains m x)) m1; guard_err (negb (bool_decide (x ∈ o))) m2) = Ok tt
  ↔ x ∈ keys m ∧ x ∈ o.
Proof. by rewrite !bind_unit_Ok, guard_contains_Ok, guard_in_Ok. Qed.

Lemma joint_false c : joint c = false ↔ Joint.outgoing (Configuration.voters c) = ∅.
Proof. unfold joint. rewrite negb_false_iff, bool_decide_eq_true. done. Qed.

Lemma check_invariants_Ok c m : check_invariants c m = Ok tt ↔ checked c (keys m).
Proof.
  unfold check_invariants. rewrite !bind_unit_Ok, !for_each_Ok. cbv beta zeta.
  setoid_rewrite guard_learner_Ok. setoid_rewrite guard_next_Ok.
  setoid_rewrite guard_contains_Ok. rewrite !guard_err_Ok.
  unfold Joint.ids, union_iter. setoid_rewrite elem_of_set_iter. simpl.
  assert (∀ h, ((0 <? get2 (Configuration.witnesses c) h) &&
      negb (bool_decide (get2 (Configuration.witnesses c) h ∈ Configuration.half_voters c h)) = false) ↔
    (get2 (Configuration.witnesses c) h ≠ 0 →
     get2 (Configuration.witnesses c) h ∈ Configuration.half_voters c h)) as Hw.
  { intros h. rewrite andb_false_iff, N.ltb_ge, negb_false_iff, bool_decide_eq_true.
    destruct (decide (get2 (Configuration.witnesses c) h = 0)) as [->|]; naive_solver lia. }
  rewrite (Hw Incoming), (Hw Outgoing).
  assert (((if negb (joint c)
    then _ ← guard_err (negb (bool_decide (Configuration.learners_next c = ∅)))
      "learners_next must be empty when not joint";
      guard_err (Configuration.auto_leave c) "auto_leave must be false when not joint"
    else Ok tt) = Ok tt) ↔
    (joint c = false → Configuration.learners_next c = ∅ ∧ Configuration.auto_leave c = false)) as ->.
  { destruct (joint c); simpl; [naive_solver|].
    rewrite bind_unit_Ok, !guard_err_Ok, negb_false_iff, bool_decide_eq_true. naive_solver. }
  split.
  - intros (H1 & H2 & H3 & H4 & H5 & H6). split; [done|..|done|by intros []].
    + intros x Hx. by destruct (H2 x Hx).
    + intros x Hx. destruct (H2 x Hx) as (_ & Ho & Hi). by rewrite elem_of_union; intros [|].
    + intros x Hx. by apply elem_of_intersection, H3.
  - intros [H1 H2 H3 H4 H5 H6]. split_and!; [done|..|done|apply H6|apply H6].
    + intros x Hx. split; [auto|]. pose proof (H3 x Hx) as Hn. rewrite elem_of_union in Hn. tauto.
    + intros x Hx. by apply elem_of_intersection, H4.
Qed.

Lemma conf_inv_checked c ids : conf_inv c ids → checked c ids.
Proof.
  intros [<- ? ? ? ? ?]. split; try done; try set_solver.
  intros Hj. split; [|auto]. apply joint_false in Hj. rewrite Hj in *. set_solver.
Qed.

Lemma shape_checked_inv c ids : shape_inv c ids → checked c ids → conf_inv c ids.
Proof. intros [] []. split; try done. naive_solver. Qed.

Lemma conf_inv_shape c ids : conf_inv c ids → shape_inv c ids.
Proof. by intros []. Qed.
End changer_facts.

(** [shape_inv] on the bare sets. *)
Definition shape (inc out lrn nxt ids : gset N) : Prop :=
  inc ∪ out ∪ lrn = ids ∧ 0 ∉ ids ∧ lrn ## inc ∪ out ∧ nxt ⊆ out ∖ inc.

Lemma shape_inv_shape c ids :
  shape_inv c ids ↔ shape (Joint.incoming (Configuration.voters c)) (Joint.outgoing (Configuration.voters c))
                      (Configuration.learners c) (Configuration.learners_next c) ids.
Proof. split; [by intros []|intros (? & ? & ? & ?); by split]. Qed.

Section shape_facts.
#[local] Set Default Proof Using "All".
Context (inc out lrn nxt ids : gset N) (id : N) (Hs : shape inc out lrn nxt ids) (Hid : id ≠ 0).

Lemma shape_add_voter : id ∉ ids → shape ({[id]} ∪ inc) out lrn nxt ({[id]} ∪ ids).
Proof. destruct Hs as (<- & ? & ? & ?). intros. split_and!; set_solver. Qed.

Lemma shape_add_learner : id ∉ ids → shape inc out ({[id]} ∪ lrn) nxt ({[id]} ∪ ids).
Proof. destruct Hs as (<- & ? & ? & ?). intros. split_and!; set_solver. Qed.

Lemma shape_promote : id ∈ ids → shape ({[id]} ∪ inc) out (lrn ∖ {[id]}) (nxt ∖ {[id]}) ids.
Proof.
  destruct Hs as (Hi & ? & ? & ?). intros Hin. split_and!; [|set_solver..].
  apply set_eq. intros x. destruct (decide (x = id)) as [->|]; set_solver.
Qed.

Lemma shape_add_witness : id ∉ ids →
  shape ({[id]} ∪ ({[id]} ∪ inc)) out (lrn ∖ {[id]}) (nxt ∖ {[id]}) ({[id]} ∪ ids).
Proof.
  destruct Hs as (<- & ? & ? & ?). intros. split_and!; [|set_solver..].
  apply set_eq. intros x. destruct (decide (x = id)) as [->|]; set_solver.
Qed.

Lemma shape_demote_next : id ∈ out →
  shape (inc ∖ {[id]}) out (lrn ∖ {[id]}) ({[id]} ∪ nxt ∖ {[id]}) ids.
Proof.
  destruct Hs as (<- & ? & ? & ?). intros. split_and!; [|set_solver..].
  apply set_eq. intros x. destruct (decide (x = id)) as [->|]; set_solver.
Qed.

Lemma shape_demote : id ∈ ids → id ∉ out →
  shape (inc ∖ {[id]}) out ({[id]} ∪ lrn ∖ {[id]}) (nxt ∖ {[id]}) ids.
Proof.
  destruct Hs as (<- & ? & ? & ?). intros. split_and!; [|set_solver..].
  apply set_eq. intros x. destruct (decide (x = id)) as [->|]; set_solver.
Qed.

Lemma shape_remove : id ∉ out →
  shape (inc ∖ {[id]}) out (lrn ∖ {[id]}) (nxt ∖ {[id]}) (ids ∖ {[id]}).
Proof.
  destruct Hs as (<- & ? & ? & ?). intros. split_and!; [|set_solver..].
  apply set_eq. intros x. destruct (decide (x = id)) as [->|]; set_solver.
Qed.

Lemma shape_remove_kept : id ∈ out → shape (inc ∖ {[id]}) out (lrn ∖ {[id]}) (nxt ∖ {[id]}) ids.
Proof.
  destruct Hs as (<- & ? & ? & ?). intros. split_and!; [|set_solver..].
  apply set_eq. intros x. destruct (decide (x = id)) as [->|]; set_solver.
Qed.
End shape_facts.

(** What a change leaves alone, and the shape it keeps. *)
Definition shape_step (s s' : Configuration.t * Changer.IncrChangeMap) : Prop :=
  shape_inv s'.1 (keys s'.2) ∧
  Joint.outgoing (Configuration.voters s'.1) = Joint.outgoing (Configuration.voters s.1) ∧
  Configuration.auto_leave s'.1 = Configuration.auto_leave s.1 ∧
  get2 (Configuration.witnesses s'.1) Outgoing = get2 (Configuration.witnesses s.1) Outgoing ∧
  Changer.base s'.2 = Changer.base s.2.

Ltac shape_tac := unfold shape_step; repeat case_bool_decide; simpl;
  (split_and!; [apply shape_inv_shape; rewrite ?keys_push; unfold key_change, upd_incoming, upd; simpl|done..]).

Section apply_shape.
#[local] Set Default Proof Using "All".
Context (c : Configuration.t) (m : Changer.IncrChangeMap) (id : N).
Context (Hs : shape_inv c (keys m)) (Hid : id ≠ 0).
Import Changer.

Lemma make_voter_shape : shape_step (c, m) (make_voter (c, m) id).
Proof.
  apply shape_inv_shape in Hs. unfold make_voter. rewrite contains_keys. shape_tac.
  - by apply shape_promote.
  - by apply shape_add_voter.
Qed.

Lemma make_learner_shape : shape_step (c, m) (make_learner (c, m) id).
Proof.
  apply shape_inv_shape in Hs. unfold make_learner. rewrite contains_keys. shape_tac.
  - done.
  - by apply shape_demote_next.
  - by apply shape_demote.
  - by apply shape_add_learner.
  - by apply shape_add_learner.
  - by apply shape_add_learner.
Qed.

Lemma make_witness_shape : shape_step (c, m) (make_witness (c, m) id).
Proof.
  apply shape_inv_shape in Hs. unfold make_witness. rewrite contains_keys. shape_tac.
  - by apply shape_promote.
  - by apply shape_add_witness.
Qed.

Lemma remove_shape : shape_step (c, m) (remove (c, m) id).
Proof.
  apply shape_inv_shape in Hs. unfold remove. rewrite contains_keys.
  case_bool_decide; simpl; [|split_and!; [by apply shape_inv_shape|done..]].
  destruct (_ =? id); shape_tac;
    first [by apply shape_remove_kept|by apply shape_remove].
Qed.
End apply_shape.

Lemma shape_step_refl s : shape_inv s.1 (keys s.2) → shape_step s s.
Proof. intros. by split_and!. Qed.

Lemma shape_step_trans s1 s2 s3 : shape_step s1 s2 → shape_step s2 s3 → shape_step s1 s3.
Proof. intros (? & ? & ? & ? & ?) (? & ? & ? & ? & ?). split_and!; congruence. Qed.

Lemma apply_one_shape s cc :
  shape_inv s.1 (keys s.2) → shape_step s (Changer.apply_one s cc).
Proof.
  destruct s as [c m]. intros Hs. unfold Changer.apply_one.
  destruct (N.eqb_spec (ccs_node_id cc) 0) as [E|Hid]; [by apply shape_step_refl|].
  destruct (ccs_change_type cc);
    auto using make_voter_shape, make_learner_shape, make_witness_shape, remove_shape.
Qed.

Lemma fold_apply_shape ccs s :
  shape_inv s.1 (keys s.2) → shape_step s (foldl Changer.apply_one s ccs).
Proof.
  revert s. induction ccs as [|cc ccs IH]; intros s Hs; [by apply shape_step_refl|].
  pose proof (apply_one_shape s cc Hs) as Hstep. simpl.
  eapply shape_step_trans; [done|]. apply IH, Hstep.
Qed.

Lemma apply_shape ccs s s' :
  Changer.apply s ccs = Ok s' → shape_inv s.1 (keys s.2) →
  shape_step s s' ∧ Joint.incoming (Configuration.voters s'.1) ≠ ∅.
Proof.
  unfold Changer.apply. case_bool_decide; [done|]. intros [= <-] Hs.
  split; [by apply fold_apply_shape|done].
Qed.
