(* ===== verification/ConfChangeSteps.v ===== *)
(** * Accepted membership changes

    The steps [Changer::simple], [enter_joint] and [leave_joint] take on the
    tracker, the invariant they keep, the quorums consecutive configurations
    share, and the restoration of a configuration from its [ConfState]. *)
From S2P Require Import Prelude Errors Eraftpb ProtoConf Util Quorum Inflights Progress Tracker ConfChange.

(** ** Configuration steps *)

(** Every voter or learner has a progress entry, and nobody else has. *)
Definition tracker_inv (p : Tracker.t) : Prop :=
  conf_inv (Tracker.conf p) (dom (Tracker.progress p)).

Section conf_steps.
Context `{HashOrder}.
Import Changer.

(** The tracker after an accepted change, as [apply_conf_change] installs it. *)
Inductive conf_step : Tracker.t → Tracker.t → Prop :=
| simple_step p n ccs c chg :
    simple p ccs = Ok (c, chg) → conf_step p (Tracker.apply_conf p c chg n)
| enter_joint_step p n auto ccs c chg :
    enter_joint p auto ccs = Ok (c, chg) → conf_step p (Tracker.apply_conf p c chg n)
| leave_joint_step p n c chg :
    leave_joint p = Ok (c, chg) → conf_step p (Tracker.apply_conf p c chg n).

Lemma tracker_inv_apply p c m n :
  base m = Tracker.progress p → conf_inv c (keys m) →
  tracker_inv (Tracker.apply_conf p c (changes m) n).
Proof.
  intros Hb Hc. unfold tracker_inv. rewrite conf_apply_conf, dom_apply_conf.
  unfold keys in Hc. by rewrite Hb in Hc.
Qed.

Lemma check_and_copy_Ok p s :
  check_and_copy p = Ok s → s = (Tracker.conf p, mkIncr [] (Tracker.progress p)).
Proof. unfold check_and_copy. intros ([] & ? & [= <-])%res_bind_Ok. done. Qed.

Lemma check_and_copy_inv p :
  tracker_inv p → check_and_copy p = Ok (Tracker.conf p, mkIncr [] (Tracker.progress p)).
Proof.
  intros Hp. unfold check_and_copy.
  by rewrite (proj2 (check_invariants_Ok _ (mkIncr [] _)) (conf_inv_checked _ _ Hp)).
Qed.

(** What an accepted simple change computed. *)
Lemma simple_Ok p ccs c chg :
  simple p ccs = Ok (c, chg) → tracker_inv p →
  ∃ m, chg = changes m ∧ base m = Tracker.progress p ∧ conf_inv c (keys m) ∧
    Joint.incoming (Configuration.voters c) ≠ ∅ ∧
    joint c = false ∧ joint (Tracker.conf p) = false ∧
    symmetric_difference_count (Joint.incoming (Configuration.voters c))
      (Joint.incoming (Configuration.voters (Tracker.conf p))) ≤ 1.
Proof.
  unfold simple. destruct (joint _) eqn:Hj; [done|].
  intros ([c0 m0] & Hcopy & Hs)%res_bind_Ok Hinv. apply check_and_copy_Ok in Hcopy. simplify_eq.
  apply res_bind_Ok in Hs as ([c1 m1] & Happ & Hs).
  apply apply_shape in Happ as [(Hsh & Ho & _ & _ & Hb) Hne]; [|by apply conf_inv_shape].
  simpl in *. destruct (N.ltb_spec 1 (symmetric_difference_count
    (Joint.incoming (Configuration.voters c1))
    (Joint.incoming (Configuration.voters (Tracker.conf p))))); [done|].
  apply res_bind_Ok in Hs as ([] & Hck & [= <- <-]).
  apply check_invariants_Ok in Hck. exists m1. split_and!; auto using shape_checked_inv.
  by rewrite joint_false, Ho, <-joint_false.
Qed.

Lemma conf_inv_joint_copy c ids :
  conf_inv c ids → joint c = false →
  shape_inv ((upd_outgoing (λ o, o ∪ Joint.incoming (Configuration.voters c)) c)
    <| Configuration.witnesses ::= λ w, set2 w Outgoing (get2 w Incoming) |>) ids.
Proof.
  intros [<- ? Hl Hn ? ?] Hj%joint_false. apply shape_inv_shape. unfold upd_outgoing, upd. simpl.
  rewrite Hj in *. split_and!; [|done|..]; set_solver.
Qed.

Lemma enter_joint_Ok p auto ccs c chg :
  enter_joint p auto ccs = Ok (c, chg) → tracker_inv p →
  ∃ m, chg = changes m ∧ base m = Tracker.progress p ∧ conf_inv c (keys m) ∧
    Joint.incoming (Configuration.voters c) ≠ ∅ ∧
    Joint.incoming (Configuration.voters (Tracker.conf p)) ≠ ∅ ∧
    Joint.outgoing (Configuration.voters c) = Joint.incoming (Configuration.voters (Tracker.conf p)) ∧
    get2 (Configuration.witnesses c) Outgoing = get2 (Configuration.witnesses (Tracker.conf p)) Incoming ∧
    Configuration.auto_leave c = auto.
Proof.
  unfold enter_joint. destruct (joint _) eqn:Hj; [done|].
  intros ([c0 m0] & Hcopy & Hs)%res_bind_Ok Hinv. apply check_and_copy_Ok in Hcopy. simplify_eq.
  case_bool_decide as Hne0; [done|].
  apply res_bind_Ok in Hs as ([c1 m1] & Happ & Hs).
  apply apply_shape in Happ as [(Hsh & Ho & _ & Hw & Hb) Hne]; [|by apply conf_inv_joint_copy].
  apply res_bind_Ok in Hs as ([] & Hck & [= <- <-]). apply check_invariants_Ok in Hck.
  exists m1. apply joint_false in Hj. simpl in *. split_and!; auto.
  - apply shape_checked_inv; [|done]. by destruct Hsh.
  - rewrite Ho, Hj. apply set_eq. set_solver.
Qed.

Lemma base_drop_outgoing c l m : base (foldl (drop_outgoing c) m l) = base m.
Proof.
  revert m. induction l as [|x l IH]; intros m; [done|]. simpl. rewrite IH.
  unfold drop_outgoing. by destruct (_ && _).
Qed.

Lemma keys_drop_outgoing c l m x :
  x ∈ keys (foldl (drop_outgoing c) m l) ↔
  x ∈ keys m ∧ (x ∈ l → x ∈ Joint.incoming (Configuration.voters c) ∨ x ∈ Configuration.learners c
                        ∨ get2 (Configuration.witnesses c) Incoming = x).
Proof.
  revert m. induction l as [|y l IH]; intros m; [simpl; set_solver|].
  cbn [foldl]. rewrite IH, elem_of_cons. unfold drop_outgoing.
  case_bool_decide; [cbn [negb andb]; destruct (decide (x = y)); naive_solver|].
  case_bool_decide; [cbn [negb andb]; destruct (decide (x = y)); naive_solver|].
  destruct (N.eqb_spec (get2 (Configuration.witnesses c) Incoming) y);
    [cbn [negb andb]; destruct (decide (x = y)); naive_solver|].
  cbn [negb andb]. rewrite keys_push. unfold key_change. cbn [fst snd].
  rewrite elem_of_difference, elem_of_singleton. destruct (decide (x = y)); naive_solver.
Qed.

(** The configuration [leave_joint] moves to. *)
Definition left_conf (c : Configuration.t) : Configuration.t :=
  Configuration.mk (Joint.mkJoint (Joint.incoming (Configuration.voters c)) ∅)
    (Configuration.learners c ∪ Configuration.learners_next c) ∅ false
    (get2 (Configuration.witnesses c) Incoming, 0).

Lemma left_conf_inv c ids m :
  conf_inv c ids →
  (∀ x, x ∈ keys m ↔ x ∈ ids ∧ (x ∈ Joint.outgoing (Configuration.voters c) →
     x ∈ Joint.incoming (Configuration.voters c) ∨
     x ∈ Configuration.learners c ∪ Configuration.learners_next c ∨
     get2 (Configuration.witnesses c) Incoming = x)) →
  conf_inv (left_conf c) (keys m).
Proof.
  intros [Hi Hz Hl Hn Ha Hw] Hk. split; simpl; [|..|done|].
  - apply set_eq. intros x. rewrite Hk, <-Hi, !elem_of_union.
    assert (get2 (Configuration.witnesses c) Incoming = x → x ∈ ids →
            x ∈ Joint.incoming (Configuration.voters c)) as Hwx.
    { intros <- Hx. apply (Hw Incoming). intros E. by rewrite E in Hx. }
    rewrite <-Hi, !elem_of_union in Hwx. pose proof (not_elem_of_empty (C:=gset N) x).
    pose proof (Hn x) as Hnx. rewrite elem_of_difference in Hnx. tauto.
  - rewrite Hk. tauto.
  - intros x Hx Hv. rewrite !elem_of_union in *. pose proof (not_elem_of_empty (C:=gset N) x).
    pose proof (Hl x) as Hlx. rewrite elem_of_union in Hlx.
    pose proof (Hn x) as Hnx. rewrite elem_of_difference in Hnx. tauto.
  - apply empty_subseteq.
  - intros []; simpl; [apply (Hw Incoming)|done].
Qed.

Lemma leave_joint_Ok p :
  tracker_inv p → joint (Tracker.conf p) = true →
  ∃ m, leave_joint p = Ok (left_conf (Tracker.conf p), changes m) ∧
    base m = Tracker.progress p ∧ conf_inv (left_conf (Tracker.conf p)) (keys m).
Proof.
  intros Hp Hj. unfold leave_joint. rewrite Hj, check_and_copy_inv by done. cbn [negb mbind res_bind].
  unfold joint in Hj. case_bool_decide; [done|].
  match goal with |- context [foldl ?f ?a ?l] => set (m := foldl f a l) end.
  assert (conf_inv (left_conf (Tracker.conf p)) (keys m)) as Hinv.
  { apply (left_conf_inv _ _ _ Hp). intros x. unfold m. rewrite keys_drop_outgoing.
    unfold keys. simpl. by rewrite elem_of_set_iter. }
  exists m. split_and!; [|by unfold m; rewrite base_drop_outgoing|done].
  change (upd _ _ _) with (left_conf (Tracker.conf p)).
  by rewrite (proj2 (check_invariants_Ok _ m) (conf_inv_checked _ _ Hinv)).
Qed.

Lemma leave_joint_conf p c chg :
  tracker_inv p → leave_joint p = Ok (c, chg) → joint (Tracker.conf p) = true.
Proof. intros _. unfold leave_joint. by destruct (joint _). Qed.

Lemma conf_step_inv p p' : conf_step p p' → tracker_inv p → tracker_inv p'.
Proof.
  intros [p0 n ccs c chg Hs|p0 n auto ccs c chg Hs|p0 n c chg Hs] Hp.
  - destruct (simple_Ok _ _ _ _ Hs Hp) as (m & -> & ? & ? & _). by apply tracker_inv_apply.
  - destruct (enter_joint_Ok _ _ _ _ _ Hs Hp) as (m & -> & ? & ? & _). by apply tracker_inv_apply.
  - destruct (leave_joint_Ok p0 Hp (leave_joint_conf _ _ _ Hp Hs)) as (m & Hm & ? & ?).
    rewrite Hs in Hm. simplify_eq. by apply tracker_inv_apply.
Qed.

Lemma tracker_inv_new max : tracker_inv (Tracker.new max).
Proof. split; simpl; try set_solver. by intros []. Qed.
End conf_steps.

(** ** Quorums of consecutive configurations *)

(** Majorities of two voter sets that differ in at most one member meet. *)
Lemma quorate_overlap_neighbours (a b : gset N) P Q `{∀ v, Decision (P v)} `{∀ v, Decision (Q v)} :
  a ≠ ∅ → b ≠ ∅ → Changer.symmetric_difference_count a b ≤ 1 →
  quorate a P → quorate b Q → ∃ v, v ∈ a ∧ v ∈ b ∧ P v ∧ Q v.
Proof.
  intros Ha Hb Hd [?|HP] [?|HQ]; try done. unfold Changer.symmetric_difference_count in Hd.
  rewrite size_union in Hd by set_solver.
  pose proof (majority_spec (N.of_nat (size a))). pose proof (majority_spec (N.of_nat (size b))).
  destruct (decide (filter P a ∩ filter Q b = ∅)) as [He|He].
  - exfalso.
    assert (size (filter P a ∪ filter Q b) ≤ size (a ∪ b))%nat as Hle.
    { apply subseteq_size. intros v. rewrite !elem_of_union, !elem_of_filter. naive_solver. }
    rewrite size_union in Hle by set_solver.
    assert (size (a ∪ b) = size a + size (b ∖ a))%nat as Hu1.
    { rewrite (union_difference_L a (a ∪ b)) at 1 by set_solver.
      rewrite size_union by set_solver. do 2 f_equal. apply set_eq. set_solver. }
    assert (size (a ∪ b) = size b + size (a ∖ b))%nat as Hu2.
    { rewrite (union_difference_L b (a ∪ b)) at 1 by set_solver.
      rewrite size_union by set_solver. do 2 f_equal. apply set_eq. set_solver. }
    lia.
  - apply set_choose_L in He as [v Hv]. rewrite elem_of_intersection, !elem_of_filter in Hv. naive_solver.
Qed.

(** Extensional equality of finite sets, with membership unfolded. *)
Ltac set_ext x := apply set_eq; intros x;
  repeat first [rewrite elem_of_union|rewrite elem_of_difference|rewrite elem_of_list_to_set
    |rewrite elem_of_cons|rewrite elem_of_singleton|rewrite elem_of_nil|rewrite elem_of_empty].

Section restore_facts.
Context `{HashOrder}.
Import Changer.

Lemma conf_step_overlap p p' P Q `{∀ v, Decision (P v)} `{∀ v, Decision (Q v)} :
  conf_step p p' → tracker_inv p →
  Joint.incoming (Configuration.voters (Tracker.conf p)) ≠ ∅ →
  quorate_joint (Configuration.voters (Tracker.conf p)) P →
  quorate_joint (Configuration.voters (Tracker.conf p')) Q →
  ∃ v, v ∈ Joint.incoming (Configuration.voters (Tracker.conf p)) ∧ P v ∧ Q v.
Proof.
  intros [p0 n ccs c chg Hs|p0 n auto ccs c chg Hs|p0 n c chg Hs] Hp Hne [HPi HPo] [HQi HQo];
    rewrite conf_apply_conf in *.
  - destruct (simple_Ok _ _ _ _ Hs Hp) as (m & _ & _ & _ & Hne' & _ & _ & Hd).
    destruct (quorate_overlap_neighbours _ _ Q P Hne' Hne Hd HQi HPi) as (v & ? & ? & ? & ?).
    by exists v.
  - destruct (enter_joint_Ok _ _ _ _ _ Hs Hp) as (m & _ & _ & _ & _ & _ & Ho & _).
    rewrite Ho in HQo. exact (quorate_overlap _ _ _ Hne HPi HQo).
  - destruct (leave_joint_Ok p0 Hp (leave_joint_conf _ _ _ Hp Hs)) as (m & Hm & _).
    rewrite Hs in Hm. simplify_eq. exact (quorate_overlap _ _ _ Hne HPi HQi).
Qed.

(** *** The effect of a change on the configuration and its peers *)

Definition add_voter_change (w id : N) : ConfChangeSingle :=
  new_conf_change_single id (if id =? w then AddWitness else AddNode).
Definition learner_change (id : N) : ConfChangeSingle := new_conf_change_single id AddLearnerNode.
Definition remove_change (id : N) : ConfChangeSingle := new_conf_change_single id RemoveNode.

Lemma conf_eq (c d : Configuration.t) :
  Joint.incoming (Configuration.voters c) = Joint.incoming (Configuration.voters d) →
  Joint.outgoing (Configuration.voters c) = Joint.outgoing (Configuration.voters d) →
  Configuration.learners c = Configuration.learners d →
  Configuration.learners_next c = Configuration.learners_next d →
  Configuration.auto_leave c = Configuration.auto_leave d →
  Configuration.witnesses c = Configuration.witnesses d → c = d.
Proof. destruct c as [[] ? ? ? ?], d as [[] ? ? ? ?]; simpl; intros; by subst. Qed.

(** The configuration once the peers [l] are voters ([w] the witness). *)
Definition voters_added (w : N) (l : list N) (c : Configuration.t) : Configuration.t :=
  Configuration.mk (Joint.mkJoint (list_to_set l ∪ Joint.incoming (Configuration.voters c))
                      (Joint.outgoing (Configuration.voters c)))
    (Configuration.learners c ∖ list_to_set l) (Configuration.learners_next c ∖ list_to_set l)
    (Configuration.auto_leave c)
    (if bool_decide (w ∈ l) then w else get2 (Configuration.witnesses c) Incoming,
     get2 (Configuration.witnesses c) Outgoing).

(** The configuration once the peers [l] are removed. *)
Definition voters_removed (l : list N) (c : Configuration.t) : Configuration.t :=
  Configuration.mk (Joint.mkJoint (Joint.incoming (Configuration.voters c) ∖ list_to_set l)
                      (Joint.outgoing (Configuration.voters c)))
    (Configuration.learners c ∖ list_to_set l) (Configuration.learners_next c ∖ list_to_set l)
    (Configuration.auto_leave c)
    (if bool_decide (get2 (Configuration.witnesses c) Incoming ∈ l) then 0
     else get2 (Configuration.witnesses c) Incoming,
     get2 (Configuration.witnesses c) Outgoing).

(** The configuration once the peers [l], not voters of the outgoing half, are
    learners. *)
Definition learners_added (l : list N) (c : Configuration.t) : Configuration.t :=
  Configuration.mk (Joint.mkJoint (Joint.incoming (Configuration.voters c) ∖ list_to_set l)
                      (Joint.outgoing (Configuration.voters c)))
    (list_to_set l ∪ Configuration.learners c) (Configuration.learners_next c ∖ list_to_set l)
    (Configuration.auto_leave c) (Configuration.witnesses c).

(** The configuration once the outgoing voters [l] are to become learners. *)
Definition next_added (l : list N) (c : Configuration.t) : Configuration.t :=
  Configuration.mk (Joint.mkJoint (Joint.incoming (Configuration.voters c) ∖ list_to_set l)
                      (Joint.outgoing (Configuration.voters c)))
    (Configuration.learners c ∖ list_to_set l) (list_to_set l ∪ Configuration.learners_next c)
    (Configuration.auto_leave c) (Configuration.witnesses c).

Section one_change.
#[local] Set Default Proof Using "All".
Context (c : Configuration.t) (m : IncrChangeMap) (id : N).
Context (Hs : shape_inv c (keys m)) (Hid : id ≠ 0).

Lemma not_key_not_in : id ∉ keys m →
  id ∉ Joint.incoming (Configuration.voters c) ∧ id ∉ Joint.outgoing (Configuration.voters c) ∧
  id ∉ Configuration.learners c ∧ id ∉ Configuration.learners_next c.
Proof. destruct Hs as [<- _ _ Hn]. specialize (Hn id). set_solver. Qed.

Lemma apply_one_voter w :
  (apply_one (c, m) (add_voter_change w id)).1 = voters_added w [id] c ∧
  keys (apply_one (c, m) (add_voter_change w id)).2 = {[id]} ∪ keys m.
Proof.
  unfold apply_one, add_voter_change. simpl. rewrite (proj2 (N.eqb_neq _ _) Hid).
  assert (id ∈ keys m → keys m = {[id]} ∪ keys m) by set_solver.
  destruct (N.eqb_spec id w) as [->|Hw]; cbn [ccs_change_type].
  - unfold make_witness. rewrite contains_keys. case_bool_decide as Hk; simpl; rewrite ?keys_push;
      (split; [|by auto]); apply conf_eq; simpl; try done.
    all: try (rewrite bool_decide_eq_true_2 by set_solver; by destruct (Configuration.witnesses c)).
    all: set_ext x; tauto.
  - unfold make_voter. rewrite contains_keys. case_bool_decide as Hk; simpl; rewrite ?keys_push;
      (split; [|by auto]); apply conf_eq; simpl; try done.
    all: try (rewrite bool_decide_eq_false_2 by set_solver; by destruct (Configuration.witnesses c)).
    all: try destruct (not_key_not_in Hk) as (? & ? & ? & ?).
    all: set_ext x; destruct (decide (x = id)) as [->|]; tauto.
Qed.

Lemma apply_one_remove : id ∈ Joint.outgoing (Configuration.voters c) →
  (apply_one (c, m) (remove_change id)).1 = voters_removed [id] c ∧
  keys (apply_one (c, m) (remove_change id)).2 = keys m.
Proof.
  intros Ho. unfold apply_one, remove_change. simpl. rewrite (proj2 (N.eqb_neq _ _) Hid).
  assert (id ∈ keys m) as Hk by (destruct Hs as [<- _ _ _]; set_solver).
  unfold remove. rewrite contains_keys, bool_decide_eq_true_2 by done. cbn [negb].
  simpl. destruct (N.eqb_spec (Configuration.witnesses c).1 id) as [E|E]; simpl;
    rewrite bool_decide_eq_true_2 by done;
    simpl; (split; [|done]); apply conf_eq; simpl; try done.
  all: try (first [rewrite bool_decide_eq_true_2 by set_solver|rewrite bool_decide_eq_false_2 by set_solver];
            by destruct (Configuration.witnesses c)).
  all: set_ext x; tauto.
Qed.

Lemma apply_one_learner : id ∉ Configuration.learners c → id ∉ Joint.outgoing (Configuration.voters c) →
  (apply_one (c, m) (learner_change id)).1 = learners_added [id] c ∧
  keys (apply_one (c, m) (learner_change id)).2 = {[id]} ∪ keys m.
Proof.
  intros Hl Ho. unfold apply_one, learner_change. simpl. rewrite (proj2 (N.eqb_neq _ _) Hid).
  assert (id ∈ keys m → keys m = {[id]} ∪ keys m) by set_solver.
  unfold make_learner. rewrite contains_keys. case_bool_decide as Hk; cbn [negb].
  - rewrite bool_decide_eq_false_2 by done. simpl. rewrite bool_decide_eq_false_2 by done. simpl.
    split; [|auto]. apply conf_eq; simpl; try done; set_ext x; destruct (decide (x = id)) as [->|]; tauto.
  - simpl. rewrite keys_push. split; [|done]. destruct (not_key_not_in Hk) as (? & ? & ? & ?).
    apply conf_eq; simpl; try done; set_ext x; destruct (decide (x = id)) as [->|]; tauto.
Qed.

Lemma apply_one_next : id ∉ Configuration.learners c → id ∈ Joint.outgoing (Configuration.voters c) →
  (apply_one (c, m) (learner_change id)).1 = next_added [id] c ∧
  keys (apply_one (c, m) (learner_change id)).2 = {[id]} ∪ keys m.
Proof.
  intros Hl Ho. unfold apply_one, learner_change. simpl. rewrite (proj2 (N.eqb_neq _ _) Hid).
  assert (id ∈ keys m) as Hk by (destruct Hs as [<- _ _ _]; set_solver).
  unfold make_learner. rewrite contains_keys, bool_decide_eq_true_2 by done. cbn [negb].
  rewrite bool_decide_eq_false_2 by done. simpl. rewrite bool_decide_eq_true_2 by done. simpl.
  split; [|set_solver]. apply conf_eq; simpl; try done; set_ext x; destruct (decide (x = id)) as [->|]; tauto.
Qed.
End one_change.
End restore_facts.

Section restore_fold.
#[local] Set Default Proof Using "All".
Context `{HashOrder}.
Import Changer.

Abbreviation run c m ccs := (foldl apply_one (c, m) ccs) (only parsing).

Lemma run_split {c m cc ccs c' ks} :
  (apply_one (c, m) cc).1 = c' → keys (apply_one (c, m) cc).2 = ks →
  ∃ m', keys m' = ks ∧ base m' = base (apply_one (c, m) cc).2 ∧ run c m (cc :: ccs) = run c' m' ccs.
Proof. intros <- <-. eexists. split_and!; [done..|]. simpl. f_equal. by destruct (apply_one _ _). Qed.

Lemma run_shape c m cc : shape_inv c (keys m) →
  shape_inv (apply_one (c, m) cc).1 (keys (apply_one (c, m) cc).2).
Proof. intros Hs. by apply (apply_one_shape (c, m)). Qed.

Lemma run_voters w l c m :
  shape_inv c (keys m) → 0 ∉ l →
  (run c m (add_voter_change w <$> l)).1 = voters_added w l c ∧
  keys (run c m (add_voter_change w <$> l)).2 = list_to_set l ∪ keys m.
Proof.
  revert c m. induction l as [|x l IH]; intros c m Hs Hz.
  - simpl. split; [|set_solver]. symmetry. apply conf_eq; simpl; try set_solver.
    by destruct (Configuration.witnesses c).
  - assert (x ≠ 0) as Hx by set_solver.
    destruct (apply_one_voter c m x Hs Hx w) as [E1 E2].
    pose proof (run_shape _ _ (add_voter_change w x) Hs) as Hs'. rewrite E1, E2 in Hs'.
    rewrite fmap_cons. destruct (run_split (ccs := add_voter_change w <$> l) E1 E2) as (m' & Hm' & _ & ->).
    rewrite <-Hm' in Hs'. destruct (IH _ _ Hs') as [-> ->]; [set_solver|]. rewrite Hm'.
    split; [|set_ext y; tauto]. apply conf_eq; simpl; try done; try (set_ext y; tauto).
    f_equal. repeat case_bool_decide; set_solver.
Qed.

Lemma run_removes l c m :
  shape_inv c (keys m) → 0 ∉ l → (∀ x, x ∈ l → x ∈ Joint.outgoing (Configuration.voters c)) →
  (run c m (remove_change <$> l)).1 = voters_removed l c ∧ keys (run c m (remove_change <$> l)).2 = keys m.
Proof.
  revert c m. induction l as [|x l IH]; intros c m Hs Hz Ho.
  - simpl. split; [|done]. symmetry. apply conf_eq; simpl; try set_solver.
    by destruct (Configuration.witnesses c).
  - assert (x ≠ 0) as Hx by set_solver.
    destruct (apply_one_remove c m x Hs Hx) as [E1 E2]; [set_solver|].
    pose proof (run_shape _ _ (remove_change x) Hs) as Hs'. rewrite E1, E2 in Hs'.
    rewrite fmap_cons. destruct (run_split (ccs := remove_change <$> l) E1 E2) as (m' & Hm' & _ & ->).
    rewrite <-Hm' in Hs'. destruct (IH _ _ Hs') as [-> ->]; [set_solver..|]. rewrite Hm'.
    split; [|done]. apply conf_eq; simpl; try done; try (set_ext y; tauto).
    f_equal. repeat case_bool_decide; set_solver.
Qed.

Lemma run_learners l c m :
  shape_inv c (keys m) → 0 ∉ l → NoDup l →
  (∀ x, x ∈ l → x ∉ Configuration.learners c ∧ x ∉ Joint.outgoing (Configuration.voters c)) →
  (run c m (learner_change <$> l)).1 = learners_added l c ∧
  keys (run c m (learner_change <$> l)).2 = list_to_set l ∪ keys m.
Proof.
  revert c m. induction l as [|x l IH]; intros c m Hs Hz Hnd Ho.
  - simpl. split; [|set_solver]. symmetry. apply conf_eq; simpl; try done; set_solver.
  - assert (x ≠ 0) as Hx by set_solver.
    destruct (Ho x) as [Hl Hout]; [set_solver|].
    destruct (apply_one_learner c m x Hs Hx Hl Hout) as [E1 E2].
    pose proof (run_shape _ _ (learner_change x) Hs) as Hs'. rewrite E1, E2 in Hs'.
    rewrite fmap_cons. destruct (run_split (ccs := learner_change <$> l) E1 E2) as (m' & Hm' & _ & ->).
    apply NoDup_cons in Hnd as [Hnin Hnd].
    rewrite <-Hm' in Hs'. destruct (IH _ _ Hs') as [-> ->]; [set_solver|done| |].
    { intros y Hy. simpl. set_solver. }
    rewrite Hm'. split; [|set_ext y; tauto]. apply conf_eq; simpl; try done; set_ext y; tauto.
Qed.

Lemma run_next l c m :
  shape_inv c (keys m) → 0 ∉ l →
  (∀ x, x ∈ l → x ∉ Configuration.learners c ∧ x ∈ Joint.outgoing (Configuration.voters c)) →
  (run c m (learner_change <$> l)).1 = next_added l c ∧
  keys (run c m (learner_change <$> l)).2 = list_to_set l ∪ keys m.
Proof.
  revert c m. induction l as [|x l IH]; intros c m Hs Hz Ho.
  - simpl. split; [|set_solver]. symmetry. apply conf_eq; simpl; try done; set_solver.
  - assert (x ≠ 0) as Hx by set_solver.
    destruct (Ho x) as [Hl Hout]; [set_solver|].
    destruct (apply_one_next c m x Hs Hx Hl Hout) as [E1 E2].
    pose proof (run_shape _ _ (learner_change x) Hs) as Hs'. rewrite E1, E2 in Hs'.
    rewrite fmap_cons. destruct (run_split (ccs := learner_change <$> l) E1 E2) as (m' & Hm' & _ & ->).
    rewrite <-Hm' in Hs'. destruct (IH _ _ Hs') as [-> ->]; [set_solver| |].
    { intros y Hy. simpl. set_solver. }
    rewrite Hm'. split; [|set_ext y; tauto]. apply conf_eq; simpl; try done; set_ext y; tauto.
Qed.
End restore_fold.

Section restore_round.
#[local] Set Default Proof Using "All".
Context `{HashOrder}.
Import Changer.

Lemma plain_checked c ids :
  shape_inv c ids → joint c = false → Configuration.auto_leave c = false →
  (∀ h, get2 (Configuration.witnesses c) h ≠ 0 →
    get2 (Configuration.witnesses c) h ∈ Configuration.half_voters c h) → checked c ids.
Proof. intros [] ? ? ?. apply conf_inv_checked. by split. Qed.

(** A single change is accepted by [simple] when it moves at most one voter. *)
Lemma simple_single p cc c :
  tracker_inv p → joint (Tracker.conf p) = false →
  (apply_one (Tracker.conf p, mkIncr [] (Tracker.progress p)) cc).1 = c →
  Joint.incoming (Configuration.voters c) ≠ ∅ →
  symmetric_difference_count (Joint.incoming (Configuration.voters c))
    (Joint.incoming (Configuration.voters (Tracker.conf p))) ≤ 1 →
  (get2 (Configuration.witnesses c) Incoming ≠ 0 →
    get2 (Configuration.witnesses c) Incoming ∈ Joint.incoming (Configuration.voters c)) →
  ∃ m, simple p [cc] = Ok (c, changes m) ∧ base m = Tracker.progress p ∧ conf_inv c (keys m).
Proof.
  intros Hp Hj Hc Hne Hd Hw. pose proof (conf_inv_shape _ _ Hp) as Hs.
  pose proof (apply_one_shape (_, mkIncr [] (Tracker.progress p)) cc Hs) as (Hs' & Ho & Ha & Hwo & Hb).
  destruct (apply_one _ cc) as [c1 m1] eqn:E. simpl in *. subst c1.
  assert (joint c = false) as Hj' by (rewrite joint_false in *; congruence).
  assert (checked c (keys m1)) as Hck.
  { apply plain_checked; [done|done|by rewrite Ha; apply Hp|].
    intros []; [done|]. intros Hnz. pose proof (ci_witness _ _ Hp Outgoing). simpl in *.
    rewrite Hwo, Ho in *. auto. }
  exists m1. split_and!; [|done|by apply shape_checked_inv].
  unfold simple. rewrite Hj, check_and_copy_inv by done. cbn [mbind res_bind].
  unfold apply. cbn [foldl]. rewrite E. cbn [fst]. rewrite bool_decide_eq_false_2 by done.
  cbn [mbind res_bind]. rewrite (proj2 (N.ltb_ge _ _) Hd).
  by rewrite (proj2 (check_invariants_Ok _ m1) Hck).
Qed.

Lemma restore_simple_step p n cc rest c :
  tracker_inv p → joint (Tracker.conf p) = false →
  (apply_one (Tracker.conf p, mkIncr [] (Tracker.progress p)) cc).1 = c →
  Joint.incoming (Configuration.voters c) ≠ ∅ →
  symmetric_difference_count (Joint.incoming (Configuration.voters c))
    (Joint.incoming (Configuration.voters (Tracker.conf p))) ≤ 1 →
  (get2 (Configuration.witnesses c) Incoming ≠ 0 →
    get2 (Configuration.witnesses c) Incoming ∈ Joint.incoming (Configuration.voters c)) →
  ∃ p', restore_simple p n (cc :: rest) = restore_simple p' n rest ∧ tracker_inv p' ∧ Tracker.conf p' = c.
Proof.
  intros Hp Hj Hc Hne Hd Hw. destruct (simple_single p cc c Hp Hj Hc Hne Hd Hw) as (m & Hm & Hb & Hi).
  eexists. cbn [restore_simple]. rewrite Hm. split_and!; [done|by apply tracker_inv_apply|].
  apply conf_apply_conf.
Qed.

Lemma symdiff_insert (a : gset N) x : symmetric_difference_count (list_to_set [x] ∪ a) a ≤ 1.
Proof.
  unfold symmetric_difference_count. trans (N.of_nat (size ({[x]} : gset N))); [|by rewrite size_singleton].
  assert (∀ s t : gset N, s ⊆ t → N.of_nat (size s) ≤ N.of_nat (size t)) as Hle.
  { intros s t Hst. apply subseteq_size in Hst. lia. }
  apply Hle. set_solver.
Qed.

Lemma restore_voters w l p n rest :
  tracker_inv p → joint (Tracker.conf p) = false → 0 ∉ l →
  ∃ p', restore_simple p n ((add_voter_change w <$> l) ++ rest) = restore_simple p' n rest ∧
    tracker_inv p' ∧ Tracker.conf p' = voters_added w l (Tracker.conf p).
Proof.
  revert p. induction l as [|x l IH]; intros p Hp Hj Hz.
  - exists p. split_and!; [done..|]. apply conf_eq; simpl; try set_solver.
    by destruct (Configuration.witnesses _).
  - assert (x ≠ 0) as Hx by set_solver.
    destruct (apply_one_voter (Tracker.conf p) (mkIncr [] (Tracker.progress p)) x
      (conf_inv_shape _ _ Hp) Hx w) as [E1 _].
    destruct (restore_simple_step p n (add_voter_change w x) ((add_voter_change w <$> l) ++ rest) _ Hp Hj E1)
      as (p1 & E & Hp1 & Hc1).
    + simpl. set_solver.
    + apply symdiff_insert.
    + simpl. case_bool_decide; [set_solver|]. intros ?%(ci_witness _ _ Hp Incoming). set_solver.
    + rewrite fmap_cons. cbn [app]. rewrite E.
      destruct (IH p1 Hp1) as (p2 & -> & Hp2 & Hc2); [by rewrite Hc1|set_solver|].
      exists p2. split_and!; [done..|]. rewrite Hc2, Hc1.
      apply conf_eq; simpl; try done; try (set_ext y; tauto).
      f_equal. repeat case_bool_decide; set_solver.
Qed.

Lemma symdiff_same (a b : gset N) : (∀ x, x ∈ a ↔ x ∈ b) → symmetric_difference_count a b ≤ 1.
Proof.
  intros Hab. assert (a = b) as -> by by apply set_eq.
  unfold symmetric_difference_count. replace (b ∖ b ∪ b ∖ b) with (∅ : gset N) by set_solver. done.
Qed.

Lemma restore_learners l p n :
  tracker_inv p → joint (Tracker.conf p) = false → 0 ∉ l → NoDup l →
  Joint.incoming (Configuration.voters (Tracker.conf p)) ≠ ∅ →
  (∀ x, x ∈ l → x ∉ Configuration.learners (Tracker.conf p) ∧
               x ∉ Joint.incoming (Configuration.voters (Tracker.conf p))) →
  ∃ p', restore_simple p n (learner_change <$> l) = (p', Ok tt) ∧
    tracker_inv p' ∧ Tracker.conf p' = learners_added l (Tracker.conf p).
Proof.
  revert p. induction l as [|x l IH]; intros p Hp Hj Hz Hnd Hne Hl.
  - exists p. split_and!; [done..|]. apply conf_eq; simpl; try done; set_solver.
  - assert (x ≠ 0) as Hx by set_solver. apply NoDup_cons in Hnd as [Hnin Hnd].
    pose proof (proj1 (joint_false _) Hj) as Ho. destruct (Hl x) as [Hxl Hxi]; [set_solver|].
    destruct (apply_one_learner (Tracker.conf p) (mkIncr [] (Tracker.progress p)) x
      (conf_inv_shape _ _ Hp) Hx Hxl) as [E1 _]; [by rewrite Ho|].
    assert (∀ y, y ∈ Joint.incoming (Configuration.voters (Tracker.conf p)) ∖ list_to_set [x] ↔
      y ∈ Joint.incoming (Configuration.voters (Tracker.conf p))) as Hsame by set_solver.
    destruct (restore_simple_step p n (learner_change x) (learner_change <$> l) _ Hp Hj E1)
      as (p1 & E & Hp1 & Hc1).
    + simpl. set_solver.
    + apply symdiff_same, Hsame.
    + intros Hw%(ci_witness _ _ Hp Incoming). by apply Hsame.
    + rewrite fmap_cons, E.
      destruct (IH p1 Hp1) as (p2 & -> & Hp2 & Hc2); rewrite ?Hc1; [done|set_solver|done|set_solver| |].
      { intros y Hy. simpl. set_solver. }
      exists p2. split_and!; [done..|]. rewrite Hc2, Hc1.
      apply conf_eq; simpl; try done; set_ext y; tauto.
Qed.

Lemma to_conf_change_single_spec c :
  to_conf_change_single (Configuration.to_conf_state c) =
  (add_voter_change (get2 (Configuration.witnesses c) Outgoing) <$>
     set_iter (Joint.outgoing (Configuration.voters c)),
   (remove_change <$> set_iter (Joint.outgoing (Configuration.voters c))) ++
   (add_voter_change (get2 (Configuration.witnesses c) Incoming) <$>
     set_iter (Joint.incoming (Configuration.voters c))) ++
   (learner_change <$> set_iter (Configuration.learners c)) ++
   (learner_change <$> set_iter (Configuration.learners_next c))).
Proof. done. Qed.

Section round_trip.
Context (c : Configuration.t) (ids : gset N) (Hc : conf_inv c ids).
Context (Hne : Joint.incoming (Configuration.voters c) ≠ ∅).
Context (max n : N).

Lemma members_nonzero : 0 ∉ set_iter (Joint.incoming (Configuration.voters c)) ∧
  0 ∉ set_iter (Joint.outgoing (Configuration.voters c)) ∧ 0 ∉ set_iter (Configuration.learners c) ∧
  0 ∉ set_iter (Configuration.learners_next c).
Proof.
  destruct Hc as [Hi Hz _ Hn _ _]. rewrite <-Hi in Hz. specialize (Hn 0).
  rewrite !elem_of_set_iter. set_solver.
Qed.

Lemma list_to_set_iter s : list_to_set (set_iter s) = s.
Proof. apply set_eq. intros x. by rewrite elem_of_list_to_set, elem_of_set_iter. Qed.

Lemma witness_restored h w :
  (if bool_decide (get2 (Configuration.witnesses c) h ∈ set_iter (Configuration.half_voters c h))
   then get2 (Configuration.witnesses c) h else w) = get2 (Configuration.witnesses c) h ∨
  get2 (Configuration.witnesses c) h = 0.
Proof.
  destruct (decide (get2 (Configuration.witnesses c) h = 0)) as [->|Hnz]; [by right|left].
  rewrite bool_decide_eq_true_2; [done|]. by apply elem_of_set_iter, (ci_witness _ _ Hc).
Qed.

Lemma witness_restored_0 h :
  (if bool_decide (get2 (Configuration.witnesses c) h ∈ set_iter (Configuration.half_voters c h))
   then get2 (Configuration.witnesses c) h else 0) = get2 (Configuration.witnesses c) h.
Proof. destruct (witness_restored h 0) as [|E]; [done|]. rewrite E. by case_bool_decide. Qed.

Lemma restore_plain : joint c = false →
  ∃ p, restore (Tracker.new max) n (Configuration.to_conf_state c) = (p, Ok tt) ∧
    tracker_inv p ∧ Tracker.conf p = c.
Proof.
  intros Hj. pose proof (proj1 (joint_false _) Hj) as Ho.
  assert (Configuration.learners_next c = ∅) as Hnx.
  { pose proof (ci_next _ _ Hc) as Hn. rewrite Ho in Hn. set_solver. }
  unfold restore. rewrite to_conf_change_single_spec, Ho, Hnx, set_iter_empty. simpl.
  rewrite app_nil_r. destruct members_nonzero as (Hz1 & _ & Hz3 & _).
  destruct (restore_voters (get2 (Configuration.witnesses c) Incoming)
    (set_iter (Joint.incoming (Configuration.voters c))) (Tracker.new max) n
    (learner_change <$> set_iter (Configuration.learners c))) as (p1 & E1 & Hp1 & Hc1);
    [apply tracker_inv_new|done|done|].
  simpl in E1. rewrite E1.
  destruct (restore_learners (set_iter (Configuration.learners c)) p1 n) as (p2 & E2 & Hp2 & Hc2);
    [done|by rewrite Hc1|done|apply NoDup_set_iter|..].
  - rewrite Hc1. simpl. rewrite list_to_set_iter. set_solver.
  - intros x Hx%elem_of_set_iter. rewrite Hc1. simpl. rewrite list_to_set_iter.
    pose proof (ci_learners _ _ Hc x Hx). set_solver.
  - exists p2. split_and!; [done..|]. rewrite Hc2, Hc1. apply conf_eq; simpl; rewrite ?list_to_set_iter; try done.
    + pose proof (ci_learners _ _ Hc). set_solver.
    + set_solver.
    + rewrite Hnx. set_solver.
    + by rewrite (ci_auto _ _ Hc Hj).
    + pose proof (witness_restored_0 Incoming) as Hw. simpl in Hw. rewrite Hw.
      pose proof (ci_witness _ _ Hc Outgoing) as Hw'. simpl in Hw'. rewrite Ho in Hw'.
      destruct (Configuration.witnesses c) as [w0 w1]; simpl in *. f_equal.
      destruct (decide (w1 = 0)) as [|Hnz]; [done|]. set_solver.
Qed.

(** The changes of [to_conf_change_single], applied to the outgoing half alone. *)
Lemma run_incoming c0 m0 :
  shape_inv c0 (keys m0) →
  Joint.outgoing (Configuration.voters c0) = Joint.outgoing (Configuration.voters c) →
  Joint.incoming (Configuration.voters c0) = Joint.outgoing (Configuration.voters c) →
  Configuration.learners c0 = ∅ → Configuration.learners_next c0 = ∅ →
  get2 (Configuration.witnesses c0) Incoming = get2 (Configuration.witnesses c) Outgoing →
  get2 (Configuration.witnesses c0) Outgoing = get2 (Configuration.witnesses c) Outgoing →
  (foldl apply_one (c0, m0) (to_conf_change_single (Configuration.to_conf_state c)).2).1 =
  c <| Configuration.auto_leave := Configuration.auto_leave c0 |>.
Proof.
  intros Hs0 Ho0 Hi0 Hl0 Hn0 Hwi Hwo. destruct members_nonzero as (Hz1 & Hz2 & Hz3 & Hz4).
  rewrite to_conf_change_single_spec. cbn [snd]. rewrite !foldl_app.
  pose proof (fold_apply_shape (remove_change <$> set_iter (Joint.outgoing (Configuration.voters c)))
    (c0, m0) Hs0) as (Hs1 & _).
  destruct (run_removes (set_iter (Joint.outgoing (Configuration.voters c))) c0 m0 Hs0 Hz2) as [E1 K1].
  { intros x. by rewrite elem_of_set_iter, Ho0. }
  destruct (foldl apply_one (c0, m0) _) as [c1 m1]. cbn [fst snd] in *.
  pose proof (fold_apply_shape (add_voter_change (get2 (Configuration.witnesses c) Incoming) <$>
    set_iter (Joint.incoming (Configuration.voters c))) (c1, m1) Hs1) as (Hs2 & _).
  destruct (run_voters (get2 (Configuration.witnesses c) Incoming)
    (set_iter (Joint.incoming (Configuration.voters c))) c1 m1 Hs1 Hz1) as [E2 K2].
  destruct (foldl apply_one (c1, m1) _) as [c2 m2]. cbn [fst snd] in *.
  pose proof (fold_apply_shape (learner_change <$> set_iter (Configuration.learners c))
    (c2, m2) Hs2) as (Hs3 & _).
  destruct (run_learners (set_iter (Configuration.learners c)) c2 m2 Hs2 Hz3 (NoDup_set_iter _)) as [E3 K3].
  { intros x Hx%elem_of_set_iter. pose proof (ci_learners _ _ Hc x Hx).
    subst c2 c1. simpl. rewrite Ho0, Hl0. set_solver. }
  destruct (foldl apply_one (c2, m2) _) as [c3 m3]. cbn [fst snd] in *.
  destruct (run_next (set_iter (Configuration.learners_next c)) c3 m3 Hs3 Hz4) as [E4 K4].
  { intros x Hx%elem_of_set_iter. pose proof (ci_next _ _ Hc x Hx).
    pose proof (ci_learners _ _ Hc x). subst c3 c2 c1. simpl.
    rewrite Ho0, Hl0, !list_to_set_iter. set_solver. }
  rewrite E4, E3, E2, E1. clear E1 E2 E3 E4 K1 K2 K3 K4.
  pose proof (ci_learners _ _ Hc) as Hcl. pose proof (ci_next _ _ Hc) as Hcn.
  apply conf_eq; simpl; rewrite ?list_to_set_iter, ?Ho0, ?Hi0, ?Hl0, ?Hn0; try done.
  - set_ext x. specialize (Hcl x). specialize (Hcn x). set_solver.
  - set_ext x. specialize (Hcl x). specialize (Hcn x). set_solver.
  - set_ext x. specialize (Hcl x). specialize (Hcn x). set_solver.
  - destruct (Configuration.witnesses c) as [w0 w1] eqn:Ew. simpl in *. rewrite Hwo. f_equal.
    pose proof (witness_restored Incoming) as Hr. rewrite Ew in Hr. simpl in Hr.
    rewrite Hwi. case_bool_decide as Hin; [done|].
    assert (w0 = 0) as -> by by destruct (Hr 0).
    destruct (decide (w1 = 0)) as [->|Hnz]; [by case_bool_decide|].
    pose proof (ci_witness _ _ Hc Outgoing) as Hw1. rewrite Ew in Hw1. simpl in Hw1.
    rewrite bool_decide_eq_true_2; [done|]. apply elem_of_set_iter; auto.
Qed.

Lemma restore_joint : joint c = true →
  ∃ p, restore (Tracker.new max) n (Configuration.to_conf_state c) = (p, Ok tt) ∧
    tracker_inv p ∧ Tracker.conf p = c.
Proof.
  intros Hj. assert (Joint.outgoing (Configuration.voters c) ≠ ∅) as Ho.
  { intros Ho. apply joint_false in Ho. congruence. }
  destruct members_nonzero as (Hz1 & Hz2 & _).
  unfold restore. pose proof run_incoming as Hrun. rewrite to_conf_change_single_spec in *.
  cbn [snd] in Hrun. set (incoming := (remove_change <$> _) ++ _) in *. clearbody incoming.
  destruct (restore_voters (get2 (Configuration.witnesses c) Outgoing)
    (set_iter (Joint.outgoing (Configuration.voters c))) (Tracker.new max) n []) as (p1 & E1 & Hp1 & Hc1);
    [apply tracker_inv_new|done|done|]. rewrite app_nil_r in E1.
  pose proof (witness_restored_0 Outgoing) as Hw. simpl in Hw.
  assert (joint (Tracker.conf p1) = false) as Hj1 by by rewrite Hc1.
  pose proof (conf_inv_joint_copy _ _ Hp1 Hj1) as Hs.
  destruct (_ <$> set_iter (Joint.outgoing (Configuration.voters c))) as [|a l] eqn:El.
  { apply fmap_nil_inv in El. apply (f_equal (list_to_set (C:=gset N))) in El. by rewrite list_to_set_iter in El. }
  rewrite E1. cbn [restore_simple]. unfold enter_joint.
  rewrite Hj1, check_and_copy_inv by done. cbn [mbind res_bind].
  rewrite bool_decide_eq_false_2 by (rewrite Hc1; simpl; rewrite list_to_set_iter; set_solver).
  set (c0 := _ <| Configuration.witnesses ::= _ |>) in *.
  pose proof (fold_apply_shape incoming (c0, mkIncr [] (Tracker.progress p1)) Hs) as (Hs' & _ & _ & _ & Hb).
  specialize (Hrun c0 (mkIncr [] (Tracker.progress p1)) Hs).
  unfold apply. destruct (foldl apply_one _ incoming) as [c1 m1]. cbn [fst snd] in *.
  rewrite Hrun; [|subst c0; rewrite Hc1; simpl; rewrite ?list_to_set_iter, ?Hw; set_solver..].
  rewrite bool_decide_eq_false_2 by done. cbn [mbind res_bind].
  assert (keys m1 = ids) as Hk.
  { destruct Hs' as [<- _ _ _]. rewrite Hrun; [apply (ci_ids _ _ Hc)|..];
    subst c0; rewrite Hc1; simpl; rewrite ?list_to_set_iter, ?Hw; set_solver. }
  change (upd Configuration.auto_leave _ _) with (c <| Configuration.auto_leave := Configuration.auto_leave c |>).
  replace (c <| Configuration.auto_leave := Configuration.auto_leave c |>) with c by by destruct c.
  rewrite (proj2 (check_invariants_Ok _ m1)) by (rewrite Hk; by apply conf_inv_checked).
  eexists. split_and!; [done| |apply conf_apply_conf].
  apply tracker_inv_apply; [done|]. by rewrite Hk.
Qed.

Lemma restore_conf_state :
  ∃ p, restore (Tracker.new max) n (Configuration.to_conf_state c) = (p, Ok tt) ∧
    tracker_inv p ∧ Tracker.conf p = c.
Proof. destruct (joint c) eqn:Hj; [by apply restore_joint|by apply restore_plain]. Qed.
End round_trip.
End restore_round.

(** ** Properties *)

(** C16: Every tracker that accepted changes lead to from the empty one gives a
    progress entry to exactly its voters and learners, keeps learners and
    voters apart, keeps [learners_next] inside the outgoing voters, names a
    witness of a half only among the voters of that half, and can leave its
    joint configuration, if it is in one, for the incoming half with the
    staged learners. *)
Theorem conf_changes_invariant `{HashOrder} (max : N) (p : Tracker.t)
    (Hreach : rtc conf_step (Tracker.new max) p) :
  tracker_inv p ∧
  (joint (Tracker.conf p) = true →
   ∃ chg, Changer.leave_joint p = Ok (left_conf (Tracker.conf p), chg)).
Proof.
  assert (tracker_inv p) as Hp.
  { pose proof (tracker_inv_new max) as Hnew. induction Hreach; eauto using conf_step_inv. }
  split; [done|]. intros Hj. destruct (leave_joint_Ok p Hp Hj) as (m & Hm & _). by exists (Changer.changes m).
Qed.

(** C17: Any accepted change, simple, entering or leaving a joint configuration,
    keeps the safety of elections and commits across it: a quorum of the
    configuration before and a quorum of the one after share a voter. *)
Theorem conf_change_quorum_overlap `{HashOrder} (p p' : Tracker.t)
    (P Q : N → Prop) `{∀ v, Decision (P v)} `{∀ v, Decision (Q v)}
    (Hinv : tracker_inv p)
    (Hne : Joint.incoming (Configuration.voters (Tracker.conf p)) ≠ ∅)
    (Hstep : conf_step p p')
    (HP : quorate_joint (Configuration.voters (Tracker.conf p)) P)
    (HQ : quorate_joint (Configuration.voters (Tracker.conf p')) Q) :
  ∃ v, v ∈ Joint.incoming (Configuration.voters (Tracker.conf p)) ∧ P v ∧ Q v.
Proof. exact (conf_step_overlap p p' P Q Hstep Hinv Hne HP HQ). Qed.

(** C18: Restoring the [ConfState] of a configuration that satisfies the
    invariant into an empty tracker succeeds and rebuilds the configuration:
    both voter halves, the learners, the staged learners, the witnesses and
    the auto-leave flag, with a progress entry for exactly its members. *)
Theorem restore_to_conf_state `{HashOrder} (c : Configuration.t) (ids : gset N) (max next_idx : N)
    (Hc : conf_inv c ids) (Hne : Joint.incoming (Configuration.voters c) ≠ ∅) :
  ∃ p, Changer.restore (Tracker.new max) next_idx (Configuration.to_conf_state c) = (p, Ok tt) ∧
    Tracker.conf p = c ∧ dom (Tracker.progress p) = ids.
Proof.
  destruct (restore_conf_state c ids Hc Hne max next_idx) as (p & Hp & Hinv & Hconf).
  exists p. split_and!; [done..|]. rewrite <-(ci_ids _ _ Hc). symmetry.
  rewrite <-Hconf. apply Hinv.
Qed.

(** ** Witnesses *)

(** Three accepted changes: add voter 1; enter a joint configuration with
    voter 2, witness 3 and learner 4; leave it. *)
Definition w_after (p : Tracker.t) (r : Result (Configuration.t * MapChange)) : Tracker.t :=
  match r with Ok (c, chg) => Tracker.apply_conf p c chg 1 | Err _ => p end.
Definition w_p0 : Tracker.t := Tracker.new 8.
Definition w_p1 : Tracker.t :=
  w_after w_p0 (Changer.simple (H := elements_order) w_p0 [new_conf_change_single 1 AddNode]).
Definition w_p2 : Tracker.t :=
  w_after w_p1 (Changer.enter_joint (H := elements_order) w_p1 true
    [new_conf_change_single 2 AddNode; new_conf_change_single 3 AddWitness;
     new_conf_change_single 4 AddLearnerNode]).

Lemma w_step1 : conf_step (H := elements_order) w_p0 w_p1.
Proof.
  unfold w_p1. destruct (Changer.simple (H := elements_order) w_p0 _) as [[c chg]|] eqn:E;
    [|vm_compute in E; discriminate].
  exact (simple_step (H := elements_order) _ 1 _ c chg E).
Qed.

Lemma w_step2 : conf_step (H := elements_order) w_p1 w_p2.
Proof.
  unfold w_p2. destruct (Changer.enter_joint (H := elements_order) w_p1 true _) as [[c chg]|] eqn:E;
    [|vm_compute in E; discriminate].
  exact (enter_joint_step (H := elements_order) _ 1 true _ c chg E).
Qed.

Lemma conf_changes_invariant_witness :
  joint (Tracker.conf w_p2) = true ∧
  tracker_inv w_p2 ∧
  (joint (Tracker.conf w_p2) = true →
   ∃ chg, Changer.leave_joint (H := elements_order) w_p2 = Ok (left_conf (Tracker.conf w_p2), chg)).
Proof.
  split; [by vm_compute|]. apply (@conf_changes_invariant elements_order 8).
  eapply rtc_l; [exact w_step1|]. eapply rtc_l; [exact w_step2|]. apply rtc_refl.
Defined.

Lemma conf_change_quorum_overlap_witness :
  ∃ v, v ∈ Joint.incoming (Configuration.voters (Tracker.conf w_p1)) ∧ v < 3 ∧ v ≠ 2.
Proof.
  apply (@conf_change_quorum_overlap elements_order w_p1 w_p2 (λ v, v < 3) (λ v, v ≠ 2) _ _).
  - apply (conf_step_inv (H := elements_order) w_p0); [exact w_step1|apply tracker_inv_new].
  - by vm_compute.
  - exact w_step2.
  - apply (bool_decide_unpack _). by vm_compute.
  - apply (bool_decide_unpack _). by vm_compute.
Defined.

Definition w_conf : Configuration.t :=
  Configuration.mk (Joint.mkJoint {[1; 2; 3]} {[1; 4; 5]}) {[6]} {[4]} true (3, 5).

Lemma w_conf_inv : conf_inv w_conf {[1; 2; 3; 4; 5; 6]}.
Proof.
  split; [by vm_compute|apply (bool_decide_unpack _); by vm_compute..|done|].
  intros [] _; apply (bool_decide_unpack _); by vm_compute.
Qed.

Lemma restore_to_conf_state_witness :
  ∃ p, Changer.restore (H := elements_order) (Tracker.new 8) 1
         (@Configuration.to_conf_state elements_order w_conf) = (p, Ok tt) ∧
    Tracker.conf p = w_conf ∧ dom (Tracker.progress p) = {[1; 2; 3; 4; 5; 6]}.
Proof.
  apply (@restore_to_conf_state elements_order w_conf _ 8 1 w_conf_inv). by vm_compute.
Defined.
