(* ===== verification/ReadOnly.v ===== *)
(** * Read-only requests (src/src/read_only.rs)

    Pending linearizable reads: a queue of request contexts and, for each,
    the request, the commit index it saw and the peers that acknowledged it. *)
From S2P Require Import Prelude Errors Eraftpb.

Inductive ReadOnlyOption : Type := Safe | LeaseBased.
#[export] Instance ReadOnlyOption_eq_dec : EqDecision ReadOnlyOption.
Proof. solve_decision. Defined.

Record ReadState : Type := mkReadState { rs_index : N; rs_request_ctx : bytes }.
#[export] Instance ReadState_eq_dec : EqDecision ReadState.
Proof. solve_decision. Defined.

Record ReadIndexStatus : Type := mkReadIndexStatus {
  ris_req : Message;
  ris_index : N;
  ris_acks : gset N
}.
#[export] Instance eta_ReadIndexStatus : Eta ReadIndexStatus := λ s,
  mkReadIndexStatus (ris_req s) (ris_index s) (ris_acks s).

Module ReadOnly.
Record t : Type := mk {
  option_ : ReadOnlyOption;
  pending_read_index : gmap bytes ReadIndexStatus;
  read_index_queue : list bytes
}.
#[global] Instance eta : Eta t := λ r, mk (option_ r) (pending_read_index r) (read_index_queue r).

Definition new (o : ReadOnlyOption) : t := mk o ∅ [].

Definition add_request (r : t) (index : N) (req : Message) (self_id : N) : outcome t :=
  e0 ← vget (m_entries req) 0;
  let ctx := e_data e0 in
  match pending_read_index r !! ctx with
  | Some _ => mret r
  | None =>
    mret (r <| pending_read_index ::= λ p, <[ctx := mkReadIndexStatus req index {[self_id]}]> p |>
            <| read_index_queue ::= λ q, q ++ [ctx] |>)
  end.

Definition recv_ack (r : t) (id : N) (ctx : bytes) : t * option (gset N) :=
  match pending_read_index r !! ctx with
  | None => (r, None)
  | Some rs =>
    let rs := rs <| ris_acks ::= λ a, {[id]} ∪ a |> in
    (r <| pending_read_index ::= λ p, <[ctx := rs]> p |>, Some (ris_acks rs))
  end.

(** [position]: [fatal!] at a queued context without a pending state. *)
Fixpoint position (pending : gmap bytes ReadIndexStatus) (q : list bytes) (ctx : bytes)
    : outcome (option nat) :=
  match q with
  | [] => mret None
  | x :: q' =>
    match pending !! x with
    | None => Panicked
    | Some _ => if bool_decide (x = ctx) then mret (Some 0%nat)
                else i ← position pending q' ctx; mret (option_map S i)
    end
  end.

(** The loop that dequeues [n] requests. *)
Fixpoint dequeue (r : t) (n : nat) (rss : list ReadIndexStatus) : outcome (t * list ReadIndexStatus) :=
  match n with
  | O => mret (r, rss)
  | S n' =>
    match read_index_queue r with
    | [] => Panicked
    | rs :: q =>
      status ← unwrap (pending_read_index r !! rs);
      dequeue (r <| read_index_queue := q |> <| pending_read_index ::= delete rs |>) n' (rss ++ [status])
    end
  end.

Definition advance (r : t) (ctx : bytes) : outcome (t * list ReadIndexStatus) :=
  pos ← position (pending_read_index r) (read_index_queue r) ctx;
  match pos with
  | Some i => dequeue r (S i) []
  | None => mret (r, [])
  end.

Definition last_pending_request_ctx (r : t) : option bytes := last (read_index_queue r).
Definition pending_read_count (r : t) : N := len (read_index_queue r).

(** ** Invariant: the queue lists the pending contexts, each once. *)
Record wf (r : t) : Prop := mk_wf {
  wf_nodup : NoDup (read_index_queue r);
  wf_dom : dom (pending_read_index r) =@{gset bytes} list_to_set (read_index_queue r)
}.
End ReadOnly.

Import ReadOnly.

Lemma read_only_pending r ctx : wf r → ctx ∈ read_index_queue r ↔ is_Some (pending_read_index r !! ctx).
Proof. intros [_ Hd]. rewrite <-elem_of_dom, Hd. by rewrite elem_of_list_to_set. Qed.

Lemma new_wf o : wf (new o).
Proof. split; [constructor|]. apply dom_empty_L. Qed.

Lemma add_request_wf r index req self_id r' :
  wf r → add_request r index req self_id = Done r' → wf r'.
Proof.
  intros Hr. unfold add_request. intros (e0 & _ & Hadd)%outcome_bind_Done.
  destruct (pending_read_index r !! e_data e0) eqn:E; simplify_outcome; [done|].
  assert (e_data e0 ∉ read_index_queue r) as Hn.
  { rewrite read_only_pending by done. rewrite E. by intros [? ?]. }
  destruct Hr as [Hn0 Hd]. split; simpl.
  - apply NoDup_app. split; [done|]. split; [|apply NoDup_singleton]. intros x Hx. set_solver.
  - rewrite dom_insert_L, Hd, list_to_set_app_L. set_solver.
Qed.

Lemma recv_ack_wf r id ctx : wf r → wf (recv_ack r id ctx).1.
Proof.
  intros [Hn Hd]. unfold recv_ack. destruct (pending_read_index r !! ctx) eqn:E; [|done].
  split; simpl; [done|]. rewrite dom_insert_L, <-Hd.
  assert (ctx ∈ dom (pending_read_index r)) by (apply elem_of_dom; by rewrite E). set_solver.
Qed.

(** Dequeuing a prefix of the queue. *)
Lemma dequeue_spec r pre post rss :
  wf r → read_index_queue r = pre ++ post →
  ∃ r' ss, dequeue r (length pre) rss = Done (r', rss ++ ss) ∧ wf r' ∧
    read_index_queue r' = post ∧ Forall2 (λ c s, pending_read_index r !! c = Some s) pre ss ∧
    (∀ c, c ∈ post → pending_read_index r' !! c = pending_read_index r !! c).
Proof.
  revert r rss. induction pre as [|c pre IH]; intros r rss Hr Hq.
  - exists r, []. simpl. rewrite app_nil_r. split_and!; try done.
  - assert (is_Some (pending_read_index r !! c)) as [s Hs].
    { apply read_only_pending; [done|]. rewrite Hq. set_solver. }
    simpl. rewrite Hq. simpl. rewrite Hs. cbn [unwrap mbind outcome_bind].
    set (r1 := r <| read_index_queue := pre ++ post |> <| pending_read_index ::= delete c |>).
    pose proof Hr as [Hnd Hd]. rewrite Hq in Hnd, Hd. simpl in Hnd, Hd. apply NoDup_cons in Hnd as [Hc Hnd].
    assert (wf r1) as Hr1.
    { split; simpl; [done|]. rewrite dom_delete_L, Hd. set_solver. }
    destruct (IH r1 (rss ++ [s]) Hr1 eq_refl) as (r' & ss & Hdq & Hr' & Hq' & Hf & Hrest).
    exists r', (s :: ss). rewrite Hdq, <-app_assoc. split_and!; try done.
    + constructor; [done|]. eapply Forall2_impl; [exact Hf|]. intros x y Hx. simpl in Hx.
      apply lookup_delete_Some in Hx as [_ ?]. done.
    + intros x Hx. rewrite Hrest by done. simpl. apply lookup_delete_ne. set_solver.
Qed.

Lemma position_spec r ctx pre post :
  wf r → read_index_queue r = pre ++ ctx :: post →
  position (pending_read_index r) (pre ++ ctx :: post) ctx = Done (Some (length pre)).
Proof.
  intros Hr Hq. assert (∀ c, c ∈ pre ++ ctx :: post → is_Some (pending_read_index r !! c)) as Hp.
  { intros c Hc. apply read_only_pending; [done|]. by rewrite Hq. }
  destruct Hr as [Hnd _]. rewrite Hq in Hnd. clear Hq.
  induction pre as [|c pre IH]; simpl in *.
  - destruct (Hp ctx) as [s ->]; [set_solver|]. by rewrite bool_decide_eq_true_2.
  - destruct (Hp c) as [s ->]; [set_solver|]. apply NoDup_cons in Hnd as [Hc Hnd].
    rewrite bool_decide_eq_false_2 by set_solver. rewrite IH; [done| |]; [done|]. intros x Hx. apply Hp. set_solver.
Qed.

Lemma position_absent r ctx :
  wf r → ctx ∉ read_index_queue r → position (pending_read_index r) (read_index_queue r) ctx = Done None.
Proof.
  intros Hr Hn. assert (∀ c, c ∈ read_index_queue r → is_Some (pending_read_index r !! c)) as Hp.
  { intros c. by apply read_only_pending. }
  induction (read_index_queue r) as [|c q IH]; simpl; [done|].
  destruct (Hp c) as [s ->]; [set_solver|]. rewrite bool_decide_eq_false_2 by set_solver.
  rewrite IH; [done|set_solver|set_solver].
Qed.

(** C31: Advancing the queue to an acknowledged context never fails: it releases
    that request and every one queued before it, in order, each with the state
    recorded for it, keeps the later ones, and does nothing for an unknown
    context. *)
Theorem read_only_advance_spec (r : ReadOnly.t) (ctx : bytes) (Hr : wf r) :
  (ctx ∉ read_index_queue r → advance r ctx = Done (r, [])) ∧
  (∀ pre post, read_index_queue r = pre ++ ctx :: post →
    ∃ r' ss, advance r ctx = Done (r', ss) ∧ wf r' ∧ read_index_queue r' = post ∧
      Forall2 (λ c s, pending_read_index r !! c = Some s) (pre ++ [ctx]) ss ∧
      (∀ c, c ∈ post → pending_read_index r' !! c = pending_read_index r !! c)).
Proof.
  split.
  - intros Hn. unfold advance. by rewrite position_absent.
  - intros pre post Hq. destruct (dequeue_spec r (pre ++ [ctx]) post [] Hr) as (r' & ss & Hd & Hrest).
    { by rewrite Hq, <-app_assoc. }
    exists r', ss. split; [|done]. unfold advance. rewrite Hq, (position_spec r ctx pre post Hr Hq).
    cbn [mbind outcome_bind]. rewrite length_app, Nat.add_1_r in Hd. exact Hd.
Qed.

Definition w_read (c : N) : Message :=
  default_Message <| m_entries := [default_Entry <| e_data := [c] |>] |>.

Definition w_read_only : ReadOnly.t :=
  match (r ← add_request (new Safe) 5 (w_read 1) 1; r ← add_request r 6 (w_read 2) 1;
         add_request r 7 (w_read 3) 1) with Done r => r | Panicked => new Safe end.

Lemma w_read_only_wf : wf w_read_only.
Proof.
  apply (add_request_wf (match (r ← add_request (new Safe) 5 (w_read 1) 1; add_request r 6 (w_read 2) 1)
    with Done r => r | Panicked => new Safe end) 7 (w_read 3) 1); [|reflexivity].
  apply (add_request_wf (match add_request (new Safe) 5 (w_read 1) 1 with Done r => r | Panicked => new Safe end)
    6 (w_read 2) 1); [|reflexivity].
  apply (add_request_wf (new Safe) 5 (w_read 1) 1); [apply new_wf|reflexivity].
Qed.

Lemma read_only_advance_spec_witness :
  ∃ r' ss, advance w_read_only [2] = Done (r', ss) ∧ wf r' ∧ read_index_queue r' = [[3]] ∧
    Forall2 (λ c s, pending_read_index w_read_only !! c = Some s) [[1]; [2]] ss ∧
    (∀ c, c ∈ [[3]] → pending_read_index r' !! c = pending_read_index w_read_only !! c).
Proof.
  apply (proj2 (read_only_advance_spec w_read_only [2] w_read_only_wf) [[1]] [[3]]). reflexivity.
Defined.
