(* ===== verification/Config.v ===== *)
(** * Configuration (src/src/config.rs) *)
From stdpp Require Import pretty.
From S2P Require Import Prelude Errors Eraftpb Util ReadOnly.

Module Config.
Record t : Type := mk {
  id : N;
  election_tick : N;
  heartbeat_tick : N;
  applied : N;
  max_size_per_msg : N;
  max_inflight_msgs : N;
  check_quorum : bool;
  pre_vote : bool;
  min_election_tick_ : N;
  max_election_tick_ : N;
  read_only_option : ReadOnlyOption;
  skip_bcast_commit : bool;
  batch_append : bool;
  priority : Z;
  max_uncommitted_size : N;
  max_committed_size_per_ready : N;
  max_apply_unpersisted_log_limit : N;
  disable_proposal_forwarding : bool
}.
#[global] Instance eta : Eta t := λ c,
  mk (id c) (election_tick c) (heartbeat_tick c) (applied c) (max_size_per_msg c)
    (max_inflight_msgs c) (check_quorum c) (pre_vote c) (min_election_tick_ c) (max_election_tick_ c)
    (read_only_option c) (skip_bcast_commit c) (batch_append c) (priority c)
    (max_uncommitted_size c) (max_committed_size_per_ready c) (max_apply_unpersisted_log_limit c)
    (disable_proposal_forwarding c).

Definition default : t :=
  mk 0 20 2 0 0 256 false false 0 0 Safe false false 0%Z NO_LIMIT NO_LIMIT 0 false.

Definition new (i : N) : t := default <| id := i |>.

Definition min_election_tick (c : t) : N :=
  if min_election_tick_ c =? 0 then election_tick c else min_election_tick_ c.

(** [2 * election_tick] wraps like [election_tick + election_tick]. *)
Definition max_election_tick (c : t) : N :=
  if max_election_tick_ c =? 0 then election_tick c +w election_tick c else max_election_tick_ c.

Definition validate (c : t) : Result unit :=
  if id c =? INVALID_ID then Err (ConfigInvalid "invalid node id")
  else if heartbeat_tick c =? 0 then Err (ConfigInvalid "heartbeat tick must greater than 0")
  else if election_tick c <=? heartbeat_tick c
  then Err (ConfigInvalid "election tick must be greater than heartbeat tick")
  else
    let min_timeout := min_election_tick c in
    let max_timeout := max_election_tick c in
    if min_timeout <? election_tick c
    then Err (ConfigInvalid ("min election tick " +:+ pretty min_timeout +:+
                " must not be less than election_tick " +:+ pretty (election_tick c)))
    else if max_timeout <=? min_timeout
    then Err (ConfigInvalid ("min election tick " +:+ pretty min_timeout +:+
                " should be less than max election tick " +:+ pretty max_timeout))
    else if max_inflight_msgs c =? 0
    then Err (ConfigInvalid "max inflight messages must be greater than 0")
    else if bool_decide (read_only_option c = LeaseBased) && negb (check_quorum c)
    then Err (ConfigInvalid "read_only_option == LeaseBased requires check_quorum == true")
    else if max_uncommitted_size c <? max_size_per_msg c
    then Err (ConfigInvalid "max uncommitted size should greater than max_size_per_msg")
    else Ok tt.
End Config.

(** A configuration is accepted exactly when the node has an identity, the
    ticks are ordered (heartbeat below election, the randomized timeout's
    range non-empty and not below the election tick), the inflight window is
    not empty, lease-based reads come with quorum checks, and a message fits
    in the uncommitted budget. *)
Theorem config_validate_spec (c : Config.t) :
  Config.validate c = Ok tt ↔
  Config.id c ≠ 0 ∧ 0 < Config.heartbeat_tick c ∧ Config.heartbeat_tick c < Config.election_tick c ∧
  Config.election_tick c ≤ Config.min_election_tick c ∧
  Config.min_election_tick c < Config.max_election_tick c ∧
  0 < Config.max_inflight_msgs c ∧
  (Config.read_only_option c = LeaseBased → Config.check_quorum c = true) ∧
  Config.max_size_per_msg c ≤ Config.max_uncommitted_size c.
Proof.
  unfold Config.validate, INVALID_ID.
  destruct (N.eqb_spec (Config.id c) 0); [split; [done|lia]|].
  destruct (N.eqb_spec (Config.heartbeat_tick c) 0); [split; [done|lia]|].
  destruct (N.leb_spec (Config.election_tick c) (Config.heartbeat_tick c)); [split; [done|lia]|].
  destruct (N.ltb_spec (Config.min_election_tick c) (Config.election_tick c)); [split; [done|lia]|].
  destruct (N.leb_spec (Config.max_election_tick c) (Config.min_election_tick c)); [split; [done|lia]|].
  destruct (N.eqb_spec (Config.max_inflight_msgs c) 0); [split; [done|lia]|].
  destruct (decide (Config.read_only_option c = LeaseBased)) as [Hr|Hr].
  - rewrite bool_decide_eq_true_2 by done. destruct (Config.check_quorum c); simpl; [|naive_solver].
    destruct (N.ltb_spec (Config.max_uncommitted_size c) (Config.max_size_per_msg c)); naive_solver lia.
  - rewrite bool_decide_eq_false_2 by done. simpl.
    destruct (N.ltb_spec (Config.max_uncommitted_size c) (Config.max_size_per_msg c)); naive_solver lia.
Qed.
