(* ===== verification/Witness.v ===== *)
(** * The witness (src/src/witness.rs)

    A voter that keeps no log: it records the term, subterm and replication
    set of what the leader sent it, and votes by them.  Its storage and its host are in [WitnessHost]. *)
From S2P Require Import Prelude Errors Eraftpb.

Inductive WitnessResponse : Type :=
| Persist (s : WitnessHardState)
| VoteGrant (grant : bool)
| StaleTerm (term : N).

Module Witness.
Record t : Type := mk {
  id : N;
  term : N;
  vote : N;
  last_log_term : N;
  last_log_subterm : N;
  commit : N;
  committed_log_term : N;
  committed_log_subterm : N;
  lead : N;
  replication_set : gset N
}.
#[global] Instance eta : Eta t := λ w,
  mk (id w) (term w) (vote w) (last_log_term w) (last_log_subterm w) (commit w)
    (committed_log_term w) (committed_log_subterm w) (lead w) (replication_set w).

Definition new (i : N) : t := mk i 0 0 0 0 0 0 0 0 ∅.

Definition restore (w : t) (s : WitnessHardState) : t :=
  w <| term := hs_term (whs_state s) |> <| vote := hs_vote (whs_state s) |>
    <| commit := hs_commit (whs_state s) |>
    <| last_log_term := whs_last_log_term s |> <| last_log_subterm := whs_last_log_subterm s |>
    <| committed_log_term := whs_committed_log_term s |>
    <| committed_log_subterm := whs_committed_log_subterm s |>
    <| lead := whs_lead s |> <| replication_set := list_to_set (whs_replication_set s) |>.

Section witness.
Context `{HashOrder}.

Definition to_hard_state (w : t) : WitnessHardState :=
  mkWitnessHardState (mkHardState (term w) (vote w) (commit w))
    0 (last_log_term w) (last_log_subterm w) (lead w) (set_iter (replication_set w)) []
    (committed_log_term w) (committed_log_subterm w).

Definition handle_append (w : t) (msg : WitnessMessage) : t * option WitnessResponse :=
  if wm_term msg <? term w then (w, Some (StaleTerm (term w)))
  else
    let w := if term w <? wm_term msg then w <| term := wm_term msg |> <| vote := 0 |> else w in
    let w := w <| lead := wm_from msg |>
               <| replication_set := list_to_set (wm_replication_set_incoming msg)
                                     ∪ list_to_set (wm_replication_set_outgoing msg) |> in
    let entries := wm_entries msg in
    let w := match last entries with
             | Some l => w <| last_log_term := e_term l |> <| last_log_subterm := e_subterm l |>
             | None => w
             end in
    let w :=
      if commit w <? wm_commit msg then
        let w := w <| commit := wm_commit msg |> in
        if negb (wm_commit_term msg =? 0) then
          w <| committed_log_term := wm_commit_term msg |>
            <| committed_log_subterm := wm_commit_subterm msg |>
        else match head entries, last entries with
             | Some f, Some l =>
               if (e_index f <=? wm_commit msg) && (wm_commit msg <=? e_index l) then
                 match entries !! N.to_nat (wm_commit msg -w e_index f) with
                 | Some entry => w <| committed_log_term := e_term entry |>
                                   <| committed_log_subterm := e_subterm entry |>
                 | None => w
                 end
               else w
             | _, _ => w
             end
      else w in
    (w, Some (Persist (to_hard_state w))).

Definition handle_vote (w : t) (msg : WitnessMessage) (is_pre_vote : bool) : t * option WitnessResponse :=
  if wm_term msg <? term w then (w, None)
  else
    let w := if (term w <? wm_term msg) && negb is_pre_vote
             then w <| term := wm_term msg |> <| vote := 0 |> else w in
    let replication_set_ok :=
      if negb (bool_decide (replication_set w = ∅))
      then forallb (λ iv : N * bool, bool_decide (iv.1 ∈ replication_set w))
             (filter (λ iv : N * bool, iv.2 = true) (zip (wm_vote_ids msg) (wm_vote_vals msg)))
      else true in
    let log_ok :=
      if last_log_term w <? wm_last_log_term msg then true
      else if wm_last_log_term msg =? last_log_term w then
        if last_log_subterm w <? wm_last_log_subterm msg then true
        else (wm_last_log_subterm msg =? last_log_subterm w) && replication_set_ok
      else false in
    let can_vote := (term w <? wm_term msg) || (vote w =? 0) || (vote w =? wm_from msg) in
    let grant := log_ok && can_vote in
    let w := if grant && negb is_pre_vote then w <| vote := wm_from msg |> else w in
    (w, Some (VoteGrant grant)).

Definition process (w : t) (msg : WitnessMessage) : t * option WitnessResponse :=
  match wm_msg_type msg with
  | MsgAppend => handle_append w msg
  | MsgRequestVote => handle_vote w msg false
  | MsgRequestPreVote => handle_vote w msg true
  | _ => (w, None)
  end.

(** ** Histories *)

(** The votes a witness grants while it processes messages: term and candidate. *)
Fixpoint votes_granted (w : t) (ms : list WitnessMessage) : list (N * N) :=
  match ms with
  | [] => []
  | m :: ms' =>
    let '(w', r) := process w m in
    match wm_msg_type m, r with
    | MsgRequestVote, Some (VoteGrant true) => (wm_term m, wm_from m) :: votes_granted w' ms'
    | _, _ => votes_granted w' ms'
    end
  end.

(** The log condition of the vote: the candidate's last entry is from a later
    (term, subterm), or from the same one while all who granted it are in the
    replication set (when the witness knows one). *)
Definition log_ok (w : t) (msg : WitnessMessage) : Prop :=
  last_log_term w < wm_last_log_term msg ∨
  wm_last_log_term msg = last_log_term w ∧ last_log_subterm w < wm_last_log_subterm msg ∨
  wm_last_log_term msg = last_log_term w ∧ wm_last_log_subterm msg = last_log_subterm w ∧
  (replication_set w = ∅ ∨
   ∀ v, (v, true) ∈ zip (wm_vote_ids msg) (wm_vote_vals msg) → v ∈ replication_set w).

(** Whether the vote of the message's term is still free, or the candidate's. *)
Definition may_vote (w : t) (msg : WitnessMessage) : Prop :=
  term w < wm_term msg ∨ vote w = 0 ∨ vote w = wm_from msg.
End witness.
End Witness.

(** Witnesses with the same fields are equal. *)
Lemma witness_ext (a b : Witness.t) :
  Witness.id a = Witness.id b → Witness.term a = Witness.term b → Witness.vote a = Witness.vote b →
  Witness.last_log_term a = Witness.last_log_term b →
  Witness.last_log_subterm a = Witness.last_log_subterm b → Witness.commit a = Witness.commit b →
  Witness.committed_log_term a = Witness.committed_log_term b →
  Witness.committed_log_subterm a = Witness.committed_log_subterm b → Witness.lead a = Witness.lead b →
  Witness.replication_set a = Witness.replication_set b → a = b.
Proof. destruct a, b; simpl; congruence. Qed.

Section witness_facts.
Context `{HashOrder}.
Import Witness.

Lemma handle_append_state w msg :
  let w' := (handle_append w msg).1 in
  term w' = N.max (term w) (wm_term msg) ∧ commit w ≤ commit w' ∧
  vote w' = (if term w <? wm_term msg then 0 else vote w).
Proof.
  unfold handle_append. destruct (N.ltb_spec (wm_term msg) (term w)) as [Hlt|Hlt]; simpl.
  { rewrite (proj2 (N.ltb_ge _ _)) by lia. split_and!; lia. }
  destruct (N.ltb_spec (term w) (wm_term msg)); destruct (last (wm_entries msg)); simpl;
    (destruct (N.ltb_spec (commit w) (wm_commit msg)); simpl; [|split_and!; lia]);
    repeat case_match; simpl; split_and!; lia.
Qed.

(** The log condition as [handle_vote] computes it. *)
Definition log_ok_b (w : t) (msg : WitnessMessage) : bool :=
  let replication_set_ok :=
    if negb (bool_decide (replication_set w = ∅))
    then forallb (λ iv : N * bool, bool_decide (iv.1 ∈ replication_set w))
           (filter (λ iv : N * bool, iv.2 = true) (zip (wm_vote_ids msg) (wm_vote_vals msg)))
    else true in
  if last_log_term w <? wm_last_log_term msg then true
  else if wm_last_log_term msg =? last_log_term w then
    if last_log_subterm w <? wm_last_log_subterm msg then true
    else (wm_last_log_subterm msg =? last_log_subterm w) && replication_set_ok
  else false.

Lemma log_ok_b_spec w msg : log_ok_b w msg = true ↔ log_ok w msg.
Proof.
  unfold log_ok_b, log_ok.
  destruct (N.ltb_spec (last_log_term w) (wm_last_log_term msg)); [naive_solver|].
  destruct (N.eqb_spec (wm_last_log_term msg) (last_log_term w)) as [E|E]; [|naive_solver lia].
  destruct (N.ltb_spec (last_log_subterm w) (wm_last_log_subterm msg)); [naive_solver|].
  destruct (N.eqb_spec (wm_last_log_subterm msg) (last_log_subterm w)) as [E2|E2]; simpl; [|naive_solver lia].
  case_bool_decide as Hr; simpl; [naive_solver|].
  rewrite forallb_forall. setoid_rewrite <-list_elem_of_In. setoid_rewrite list_elem_of_filter.
  setoid_rewrite bool_decide_eq_true. split.
  - intros Hall. do 2 right. split_and!; [done..|]. right. intros v Hv. by apply (Hall (v, true)).
  - intros [?|[[_ ?]|(_ & _ & [?|Hall])]] [v b] [Hb Hin]; simplify_eq/=; try lia; auto.
Qed.

Lemma handle_vote_spec w msg pre :
  term w ≤ wm_term msg →
  ∃ g, handle_vote w msg pre =
    ((if pre : bool then w else w <| term := wm_term msg |>
        <| vote := if g : bool then wm_from msg else if term w <? wm_term msg then 0 else vote w |>),
     Some (VoteGrant g)) ∧
    (g = true ↔ log_ok w msg ∧ may_vote w msg).
Proof.
  intros Hle.
  assert (∀ w1, last_log_term w1 = last_log_term w → last_log_subterm w1 = last_log_subterm w →
    replication_set w1 = replication_set w → log_ok_b w1 msg = log_ok_b w msg) as Hsame.
  { intros w1 E1 E2 E3. unfold log_ok_b. by rewrite E1, E2, E3. }
  exists (log_ok_b w msg && ((term w <? wm_term msg) || (vote w =? 0) || (vote w =? wm_from msg))).
  split.
  - unfold handle_vote. rewrite (proj2 (N.ltb_ge _ _)) by done.
    destruct (N.ltb_spec (term w) (wm_term msg)) as [Hlt|Hge]; destruct pre; cbn [andb orb negb].
    + fold (log_ok_b w msg). rewrite (proj2 (N.ltb_lt _ _)) by done. cbn [orb].
      by rewrite andb_true_r, andb_false_r.
    + set (w1 := w <| term := wm_term msg |> <| vote := 0 |>). fold (log_ok_b w1 msg).
      rewrite Hsame by done. rewrite (proj2 (N.ltb_ge (term w1) _)) by (simpl; lia). simpl. rewrite !andb_true_r.
      by destruct (log_ok_b w msg).
    + fold (log_ok_b w msg). rewrite (proj2 (N.ltb_ge _ _)) by done. cbn [orb]. by rewrite andb_false_r.
    + fold (log_ok_b w msg). rewrite (proj2 (N.ltb_ge _ _)) by done. cbn [orb]. rewrite andb_true_r.
      assert (wm_term msg = term w) as -> by lia. f_equal. destruct (_ && _); by destruct w.
  - rewrite andb_true_iff, log_ok_b_spec, !orb_true_iff, N.ltb_lt, !N.eqb_eq. unfold may_vote. tauto.
Qed.

Lemma handle_vote_stale w msg pre : wm_term msg < term w → handle_vote w msg pre = (w, None).
Proof. intros Hlt. unfold handle_vote. by rewrite (proj2 (N.ltb_lt _ _)). Qed.

(** What one message does to the term and the vote. *)
Lemma process_term_vote w m :
  let w' := (process w m).1 in
  term w ≤ term w' ∧ commit w ≤ commit w' ∧
  (term w' = term w → vote w ≠ 0 → vote w' = vote w).
Proof.
  unfold process. destruct (wm_msg_type m); simpl; try done.
  - destruct (handle_append_state w m) as (-> & Hc & ->).
    destruct (N.ltb_spec (term w) (wm_term m)); split_and!; lia.
  - destruct (N.le_gt_cases (term w) (wm_term m)) as [Hle|Hlt]; [|by rewrite handle_vote_stale].
    destruct (handle_vote_spec w m false Hle) as (g & -> & Hg). simpl. split_and!; [lia|done|].
    intros E Hnz. destruct (N.ltb_spec (term w) (wm_term m)); [lia|]. destruct g; [|done].
    destruct (proj1 Hg eq_refl) as [_ [|[|]]]; lia.
  - destruct (N.le_gt_cases (term w) (wm_term m)) as [Hle|Hlt]; [|by rewrite handle_vote_stale].
    destruct (handle_vote_spec w m true Hle) as (g & -> & Hg). simpl. split_and!; done.
Qed.

(** Votes granted later are in later terms, or for the candidate already voted for. *)
Lemma votes_granted_from w ms t a :
  (t, a) ∈ votes_granted w ms → term w ≤ t ∧ (t = term w → vote w ≠ 0 → a = vote w).
Proof.
  revert w. induction ms as [|m ms IH]; intros w Hin; [by apply elem_of_nil in Hin|].
  simpl in Hin. pose proof (process_term_vote w m) as (Hterm & _ & Hvote).
  destruct (process w m) as [w' r] eqn:Hp. simpl in *.
  assert ((t, a) ∈ votes_granted w' ms → term w ≤ t ∧ (t = term w → vote w ≠ 0 → a = vote w)) as Hlater.
  { intros Hl. destruct (IH w' Hl) as [H1 H2]. split; [lia|]. intros E Hnz.
    assert (term w' = term w) as E' by lia. rewrite (H2 ltac:(lia)); rewrite Hvote; done. }
  destruct (wm_msg_type m) eqn:Em; try by apply Hlater.
  destruct r as [[| []|]|]; try by apply Hlater.
  apply elem_of_cons in Hin as [[= -> ->]|Hin]; [|by apply Hlater].
  unfold process in Hp. rewrite Em in Hp.
  destruct (N.le_gt_cases (term w) (wm_term m)) as [Hle|Hlt]; [|by rewrite handle_vote_stale in Hp].
  destruct (handle_vote_spec w m false Hle) as (g & Hv & Hg). rewrite Hv in Hp. simplify_eq.
  split; [done|]. intros E Hnz. destruct (proj1 Hg eq_refl) as [_ [|[|]]]; lia.
Qed.
End witness_facts.

(** ** Properties *)

(** Whatever messages a witness processes, in whatever order, it grants its
    vote to at most one candidate in a term (candidates have non-zero ids). *)
Theorem witness_votes_once `{HashOrder} (w : Witness.t) (ms : list WitnessMessage) (t a b : N)
    (Hfrom : Forall (λ m, wm_from m ≠ 0) ms)
    (Ha : (t, a) ∈ Witness.votes_granted w ms) (Hb : (t, b) ∈ Witness.votes_granted w ms) : a = b.
Proof.
  revert w Ha Hb. induction Hfrom as [|m ms Hm _ IH]; intros w Ha Hb; [by apply elem_of_nil in Ha|].
  simpl in Ha, Hb. destruct (Witness.process w m) as [w' r] eqn:Hp.
  destruct (wm_msg_type m) eqn:Em; try by apply (IH w').
  destruct r as [[| []|]|]; try by apply (IH w').
  unfold Witness.process in Hp. rewrite Em in Hp.
  destruct (N.le_gt_cases (Witness.term w) (wm_term m)) as [Hle|Hlt]; [|by rewrite handle_vote_stale in Hp].
  destruct (handle_vote_spec w m false Hle) as (g & Hv & _). rewrite Hv in Hp. simplify_eq.
  apply elem_of_cons in Ha as [Ea|Ha]; apply elem_of_cons in Hb as [Eb|Hb]; simplify_eq; try done.
  - symmetry. by apply (votes_granted_from _ _ _ _ Hb).
  - by apply (votes_granted_from _ _ _ _ Ha).
  - by apply (IH _ Ha Hb).
Qed.

(** The vote of a witness on a request that is not stale: granted exactly
    when the candidate's last (term, subterm) is later, or equal with all its
    grants inside the replication set, and the vote of that term is free or
    the candidate's; a pre-vote changes nothing, a real request moves to the
    request's term. *)
Theorem witness_vote_spec `{HashOrder} (w : Witness.t) (msg : WitnessMessage) (pre : bool)
    (Hterm : Witness.term w ≤ wm_term msg) :
  ∃ g, (Witness.handle_vote w msg pre).2 = Some (VoteGrant g) ∧
    (g = true ↔ Witness.log_ok w msg ∧ Witness.may_vote w msg) ∧
    let w' := (Witness.handle_vote w msg pre).1 in
    if pre then w' = w
    else Witness.term w' = wm_term msg ∧ (g = true → Witness.vote w' = wm_from msg) ∧
         Witness.last_log_term w' = Witness.last_log_term w ∧
         Witness.last_log_subterm w' = Witness.last_log_subterm w.
Proof.
  destruct (handle_vote_spec w msg pre Hterm) as (g & -> & Hg). exists g. simpl.
  split_and!; [done..|]. destruct pre; [done|]. simpl. split_and!; try done. by intros ->.
Qed.

(** A witness restored from the state it persisted is the witness it was. *)
Lemma witness_restore_round_trip `{HashOrder} (w : Witness.t) :
  Witness.restore (Witness.new (Witness.id w)) (Witness.to_hard_state w) = w.
Proof.
  apply witness_ext; try reflexivity. apply list_to_set_set_iter.
Qed.

(** ** Witnesses *)

Definition w_vote_request (t c : N) : WitnessMessage :=
  default_WitnessMessage <| wm_msg_type := MsgRequestVote |> <| wm_term := t |> <| wm_from := c |>
    <| wm_last_log_term := 1 |>.

Lemma witness_votes_once_witness :
  (3, 2) ∈ @Witness.votes_granted elements_order (Witness.new 9)
    [w_vote_request 3 2; w_vote_request 3 4; w_vote_request 3 2] ∧ 2 = 2.
Proof.
  split; [apply (bool_decide_unpack _); by vm_compute|].
  apply (@witness_votes_once elements_order (Witness.new 9)
    [w_vote_request 3 2; w_vote_request 3 4; w_vote_request 3 2] 3 2 2).
  - by repeat constructor.
  - apply (bool_decide_unpack _). by vm_compute.
  - apply (bool_decide_unpack _). by vm_compute.
Defined.

Lemma witness_vote_spec_witness :
  ∃ g, (@Witness.handle_vote (Witness.new 9) (w_vote_request 3 2) false).2 = Some (VoteGrant g) ∧
    (g = true ↔ Witness.log_ok (Witness.new 9) (w_vote_request 3 2) ∧
                Witness.may_vote (Witness.new 9) (w_vote_request 3 2)) ∧
    let w' := (@Witness.handle_vote (Witness.new 9) (w_vote_request 3 2) false).1 in
    Witness.term w' = 3 ∧ (g = true → Witness.vote w' = 2) ∧
    Witness.last_log_term w' = 0 ∧ Witness.last_log_subterm w' = 0.
Proof. apply (@witness_vote_spec elements_order (Witness.new 9) (w_vote_request 3 2) false). done. Defined.
