(* ===== verification/WitnessHost.v ===== *)
(** * The storage of a witness and its host (src/src/witness.rs)

    The trait [WitnessStorage] as a class with its documented behaviour, and
    the hosts that save the state of a witness before they let its answer out.
    Such a host may crash and restart at any time, and its writes may fail. *)
From S2P Require Import Prelude Errors Eraftpb Witness.

(** ** The interface *)

(** [load], [save] and [conditional_save]; the receiver is state passed along. *)
Class WitnessStorage (S : Type) := {
  ws_load : S → Result (option WitnessHardState);
  ws_save : S → WitnessHardState → S * Result unit;
  ws_conditional_save : S → WitnessHardState → N → S * Result bool
}.

(** A write that succeeds is what is loaded next; it is atomic, so that after
    one that fails the old or the new state is loaded; a conditional write that
    was not made leaves the state. *)
Class WitnessStorageLaws (S : Type) `{WitnessStorage S} := {
  ws_save_ok s st s' : ws_save s st = (s', Ok tt) → ws_load s' = Ok (Some st);
  ws_save_atomic s st s' e : ws_save s st = (s', Err e) → ws_load s' = ws_load s ∨ ws_load s' = Ok (Some st);
  ws_conditional_ok s st n s' : ws_conditional_save s st n = (s', Ok true) → ws_load s' = Ok (Some st);
  ws_conditional_unmet s st n s' : ws_conditional_save s st n = (s', Ok false) → ws_load s' = ws_load s;
  ws_conditional_atomic s st n s' e :
    ws_conditional_save s st n = (s', Err e) → ws_load s' = ws_load s ∨ ws_load s' = Ok (Some st)
}.

Section hosts.
Context {S : Type} `{WitnessStorageLaws S} `{HashOrder}.
#[local] Set Default Proof Using "All".
Implicit Types (s : S) (w : Witness.t) (m : WitnessMessage).

Record host : Type := mkHost { h_storage : S; h_witness : Witness.t }.

(** The vote that an answer lets out: term and candidate. *)
Definition vote_out m (resp : option WitnessResponse) : list (N * N) :=
  match wm_msg_type m, resp with
  | MsgRequestVote, Some (VoteGrant true) => [(wm_term m, wm_from m)]
  | _, _ => []
  end.

(** One step of a host of witness [i] and the votes it lets out. *)
Inductive host_step (i : N) : host → list (N * N) → host → Prop :=
| hs_saved s w m w' resp s' :
    wm_from m ≠ 0 → Witness.process w m = (w', resp) → ws_save s (Witness.to_hard_state w') = (s', Ok tt) →
    host_step i (mkHost s w) (vote_out m resp) (mkHost s' w')
| hs_saved_if s w m w' resp s' n :
    wm_from m ≠ 0 → Witness.process w m = (w', resp) → ws_conditional_save s (Witness.to_hard_state w') n = (s', Ok true) →
    host_step i (mkHost s w) (vote_out m resp) (mkHost s' w')
| hs_failed s w m w' resp s' e :
    Witness.process w m = (w', resp) → ws_save s (Witness.to_hard_state w') = (s', Err e) →
    host_step i (mkHost s w) [] (mkHost s' w')
| hs_failed_if s w m w' resp s' n x :
    Witness.process w m = (w', resp) → ws_conditional_save s (Witness.to_hard_state w') n = (s', x) → x ≠ Ok true →
    host_step i (mkHost s w) [] (mkHost s' w')
| hs_restart s w st :
    ws_load s = Ok (Some st) → host_step i (mkHost s w) [] (mkHost s (Witness.restore (Witness.new i) st))
| hs_first_start s w :
    ws_load s = Ok None → host_step i (mkHost s w) [] (mkHost s (Witness.new i)).

Inductive host_run (i : N) : host → list (N * N) → host → Prop :=
| hr_none h : host_run i h [] h
| hr_step h vs h1 vs' h' : host_step i h vs h1 → host_run i h1 vs' h' → host_run i h (vs ++ vs') h'.

(** ** What is remembered *)

Definition remembers w (v : N * N) : Prop := v.1 < Witness.term w ∨ v.1 = Witness.term w ∧ Witness.vote w = v.2.

(** A vote that was let out is remembered in memory and in the storage. *)
Definition kept (h : host) (v : N * N) : Prop := v.2 ≠ 0 ∧ remembers (h_witness h) v ∧
  ∃ st, ws_load (h_storage h) = Ok (Some st) ∧ ∀ i, remembers (Witness.restore (Witness.new i) st) v.

Lemma process_remembers w m w' resp v : Witness.process w m = (w', resp) → v.2 ≠ 0 → remembers w v → remembers w' v.
Proof using.
  intros Hp Hnz Hr. pose proof (process_term_vote w m) as (Ht & _ & Hv). rewrite Hp in Ht, Hv. simpl in Ht, Hv.
  unfold remembers in *. destruct Hr as [|[E1 E2]]; [lia|]. destruct (decide (Witness.term w' = Witness.term w)) as [E|]; [|lia].
  right. split; [lia|]. rewrite Hv; [done|done|by rewrite E2].
Qed.

(** The votes let out agree with what the witness remembers, and it remembers
    them from then on. *)
Lemma vote_out_spec w m w' resp v : wm_from m ≠ 0 → Witness.process w m = (w', resp) → v ∈ vote_out m resp →
  v.2 ≠ 0 ∧ remembers w' v ∧ ∀ u, u.2 ≠ 0 → remembers w u → u.1 = v.1 → u.2 = v.2.
Proof using.
  intros Hf Hp Hin. unfold vote_out in Hin. destruct (wm_msg_type m) eqn:Em; try (by apply elem_of_nil in Hin).
  destruct resp as [[| []|]|]; try (by apply elem_of_nil in Hin). apply list_elem_of_singleton in Hin as ->.
  unfold Witness.process in Hp. rewrite Em in Hp.
  destruct (N.le_gt_cases (Witness.term w) (wm_term m)) as [Hle|Hlt]; [|by rewrite handle_vote_stale in Hp].
  destruct (handle_vote_spec w m false Hle) as (g & Hv & Hg). rewrite Hv in Hp. simplify_eq.
  split_and!; [done|right; by split|]. intros [t a] Hnz Hr E. simpl in *. subst t.
  destruct (proj1 Hg eq_refl) as [_ Hm]. unfold remembers, Witness.may_vote in *. simpl in Hr. lia.
Qed.

Lemma stored_remembers w st v i : remembers w v → st = Witness.to_hard_state w → remembers (Witness.restore (Witness.new i) st) v.
Proof using. by intros Hr ->. Qed.

Lemma host_step_kept i h vs h' v : host_step i h vs h' → kept h v → kept h' v.
Proof.
  intros Hst (Hnz & Hm & st & Hl & Hd).
  assert (∀ s' w', remembers w' v → ws_load s' = ws_load (h_storage h) ∨ ws_load s' = Ok (Some (Witness.to_hard_state w')) →
    kept (mkHost s' w') v) as Hnext.
  { intros s' w' Hr Hs. split; [done|]. split; [done|]. destruct Hs as [E|E]; simpl; rewrite E; [by exists st|].
    eexists. split; [done|]. intros j. by eapply stored_remembers. }
  destruct Hst as [s w m w' resp s' _ Hp Hs|s w m w' resp s' n _ Hp Hs|s w m w' resp s' e Hp Hs|s w m w' resp s' n x Hp Hs Hx
    |s w st' Hl'|s w Hl']; simpl in *;
    try (apply Hnext; [by eapply process_remembers|]).
  - right. by eapply ws_save_ok.
  - right. by eapply ws_conditional_ok.
  - by eapply ws_save_atomic.
  - destruct x as [[]|e]; [done|left; by eapply ws_conditional_unmet|by eapply ws_conditional_atomic].
  - apply Hnext; [|by left]. rewrite Hl in Hl'. injection Hl' as <-. apply Hd.
  - congruence.
Qed.

Lemma host_step_out i h vs h' v : host_step i h vs h' → v ∈ vs →
  kept h' v ∧ ∀ u, kept h u → u.1 = v.1 → u.2 = v.2.
Proof.
  intros Hst Hin.
  assert (∀ s w m w' resp s', wm_from m ≠ 0 → Witness.process w m = (w', resp) → v ∈ vote_out m resp →
    ws_load s' = Ok (Some (Witness.to_hard_state w')) →
    kept (mkHost s' w') v ∧ ∀ u, kept (mkHost s w) u → u.1 = v.1 → u.2 = v.2) as Hout.
  { intros s w m w' resp s' Hf Hp Hv Hl. destruct (vote_out_spec _ _ _ _ _ Hf Hp Hv) as (Hnz & Hr & Hu). split.
    - split; [done|]. split; [done|]. eexists. split; [exact Hl|]. intros j. by eapply stored_remembers.
    - intros u (Hun & Hum & _). by apply Hu. }
  destruct Hst as [s w m w' resp s' Hf Hp Hs|s w m w' resp s' n Hf Hp Hs|s w m w' resp s' e Hp Hs|s w m w' resp s' n x Hp Hs Hx
    |s w st' Hl'|s w Hl']; try (by apply elem_of_nil in Hin).
  - eapply Hout; [done|done|done|by eapply ws_save_ok].
  - eapply Hout; [done|done|done|by eapply ws_conditional_ok].
Qed.

(** Votes let out later agree with those that are kept. *)
Lemma host_run_agrees i h vs h' : host_run i h vs h' → ∀ u v, kept h u → v ∈ vs → u.1 = v.1 → u.2 = v.2.
Proof.
  induction 1 as [h|h vs h1 vs' h' Hst _ IH]; intros u v Hk Hin E; [by apply elem_of_nil in Hin|].
  apply elem_of_app in Hin as [Hin|Hin].
  - destruct (host_step_out _ _ _ _ _ Hst Hin) as [_ Hu]. by apply Hu.
  - eapply IH; [|done|done]. by eapply host_step_kept.
Qed.
End hosts.
Arguments host S : clear implicits.

(** ** Properties *)

(** C30: A witness votes at most once in a term, also across restarts: whatever
    messages it processes, whenever its host crashes and restarts from the
    storage and whichever writes fail, as long as the host saves its state
    before it lets an answer out, the votes it lets out in a term are for one
    candidate. *)
Theorem witness_votes_once_across_restarts {S} `{WitnessStorageLaws S} `{HashOrder} (i : N) (h h' : host S)
    (vs : list (N * N)) (t a b : N)
    (Hrun : host_run i h vs h') (Ha : (t, a) ∈ vs) (Hb : (t, b) ∈ vs) : a = b.
Proof.
  revert Ha Hb. induction Hrun as [h|h vs h1 vs' h' Hst Hrun IH]; intros Ha Hb; [by apply elem_of_nil in Ha|].
  assert (∀ c d, (t, c) ∈ vs → (t, d) ∈ vs' → c = d) as Hlater.
  { intros c d Hc Hd. destruct (host_step_out _ _ _ _ _ Hst Hc) as [Hk _].
    exact (host_run_agrees _ _ _ _ Hrun (t, c) (t, d) Hk Hd eq_refl). }
  apply elem_of_app in Ha as [Ha|Ha], Hb as [Hb|Hb]; [|by apply Hlater|symmetry; by apply Hlater|by apply IH].
  destruct Hst; try (by apply elem_of_nil in Ha); unfold vote_out in Ha, Hb; repeat case_match;
    try (by apply elem_of_nil in Ha); set_solver.
Qed.

(** A vote is never answered with [Persist], the answer whose documentation
    asks the host to save the state: a host that saves only then lets a witness
    vote for two candidates in one term. *)
Lemma votes_do_not_ask_to_persist `{HashOrder} (w : Witness.t) (m : WitnessMessage) (st : WitnessHardState) :
  wm_msg_type m = MsgRequestVote → (Witness.process w m).2 ≠ Some (Persist st).
Proof.
  intros E. unfold Witness.process. rewrite E. destruct (N.le_gt_cases (Witness.term w) (wm_term m)) as [Hle|Hlt].
  - destruct (handle_vote_spec w m false Hle) as (g & -> & _). done.
  - by rewrite handle_vote_stale.
Qed.

(** ** Witnesses *)
Section samples.
#[local] Existing Instance elements_order.

(** One cell of memory. *)
#[local] Instance cell_storage : WitnessStorage (option WitnessHardState) := {|
  ws_load s := Ok s;
  ws_save s st := (Some st, Ok tt);
  ws_conditional_save s st n :=
    if bool_decide (s = None) || bool_decide (whs_last_log_subterm <$> s = Some n) then (Some st, Ok true) else (s, Ok false)
|}.
#[local] Instance cell_laws : WitnessStorageLaws (option WitnessHardState).
Proof.
  split; simpl; try (intros; by simplify_eq); intros s st n s'; [destruct (_ || _)..|intros e; destruct (_ || _)]; intros; by simplify_eq.
Defined.

Abbreviation cell_host := (host (option WitnessHardState)).
Definition h_voted : Witness.t := (Witness.process (Witness.new 9) (w_vote_request 3 2)).1.
Definition h_saved : cell_host := mkHost (Some (Witness.to_hard_state h_voted)) h_voted.
Definition h_restarted : cell_host :=
  mkHost (Some (Witness.to_hard_state h_voted)) (Witness.restore (Witness.new 9) (Witness.to_hard_state h_voted)).

(** The witness votes, its host restarts, it refuses another candidate and
    votes again for the first. *)
Lemma h_votes : ∃ h', host_run 9 (mkHost None (Witness.new 9) : cell_host) [(3, 2); (3, 2)] h'.
Proof.
  eexists. eapply (hr_step 9 _ [(3, 2)] h_saved [(3, 2)]).
  { apply (hs_saved 9 None (Witness.new 9) (w_vote_request 3 2) h_voted (Some (VoteGrant true))); [done|vm_compute; reflexivity|done]. }
  eapply (hr_step 9 _ [] h_restarted [(3, 2)]); [by apply hs_restart|].
  eapply (hr_step 9 _ [] h_restarted [(3, 2)]).
  { apply (hs_saved 9 _ _ (w_vote_request 3 4) _ (Some (VoteGrant false))); [done|vm_compute; reflexivity|done]. }
  eapply (hr_step 9 _ [(3, 2)] h_restarted []); [|apply hr_none].
  apply (hs_saved 9 _ _ (w_vote_request 3 2) _ (Some (VoteGrant true))); [done|vm_compute; reflexivity|done].
Qed.

Lemma witness_votes_once_across_restarts_witness : (3, 2) ∈ [(3, 2); (3, 2)] ∧ 2 = 2.
Proof.
  split; [set_solver|]. destruct h_votes as [h' Hr].
  apply (@witness_votes_once_across_restarts _ cell_storage cell_laws elements_order 9 (mkHost None (Witness.new 9)) h'
    [(3, 2); (3, 2)] 3 2 2 Hr); set_solver.
Defined.

(** Two votes in one term by a witness whose host did not save the first. *)
Example unsaved_vote_is_forgotten :
  (Witness.process (Witness.new 9) (w_vote_request 3 2)).2 = Some (VoteGrant true) ∧
  (Witness.process (Witness.new 9) (w_vote_request 3 4)).2 = Some (VoteGrant true).
Proof. by split; vm_compute. Qed.
End samples.
