(* ===== verification/Raft.v ===== *)
(** * The raft state machine (src/src/raft.rs)

    The state of a node and every operation on it.  An operation takes the
    state and returns the one it leaves, or [Panicked] where the code panics
    ([fatal!], a failed assertion, an [unwrap] of nothing).  Log output is not
    modelled. *)
From S2P Require Import Prelude Errors Eraftpb ProtoConf Util Unstable Storage RaftLog Quorum Inflights Progress.
From S2P Require Import Tracker ConfChange ReadOnly Config.

(** [rand::rng().random_range(lo..hi)]: the [n]-th draw, anywhere in the range. *)
Class Rand := {
  random_range : nat → N → N → N;
  random_range_spec n lo hi : lo < hi → lo ≤ random_range n lo hi < hi
}.

(** The octets of an ASCII literal. *)
Definition bytes_of (s : string) : bytes := Ascii.N_of_ascii <$> String.list_ascii_of_string s.

Definition CAMPAIGN_PRE_ELECTION : bytes := bytes_of "CampaignPreElection".
Definition CAMPAIGN_ELECTION : bytes := bytes_of "CampaignElection".
Definition CAMPAIGN_TRANSFER : bytes := bytes_of "CampaignTransfer".

Inductive StateRole : Type := Follower | Candidate | Leader | PreCandidate.
#[export] Instance StateRole_eq_dec : EqDecision StateRole.
Proof. solve_decision. Defined.

Record SoftState : Type := mkSoftState { ss_leader_id : N; ss_raft_state : StateRole }.
#[export] Instance SoftState_eq_dec : EqDecision SoftState.
Proof. solve_decision. Defined.

Record UncommittedState : Type := mkUncommittedState {
  max_uncommitted_size : N;
  uncommitted_size : N;
  last_log_tail_index : N
}.
#[export] Instance eta_UncommittedState : Eta UncommittedState := λ u,
  mkUncommittedState (max_uncommitted_size u) (uncommitted_size u) (last_log_tail_index u).

Definition is_no_limit (u : UncommittedState) : bool := max_uncommitted_size u =? NO_LIMIT.

(** [ents.iter().map(|ent| ent.get_data().len()).sum()]. *)
Definition data_sizes (ents : list Entry) : N := foldl (λ n e, n +w len (e_data e)) 0 ents.

Definition us_maybe_increase_uncommitted_size (u : UncommittedState) (ents : list Entry)
    : UncommittedState * bool :=
  if is_no_limit u then (u, true)
  else
    let size := data_sizes ents in
    if (size =? 0) || (uncommitted_size u =? 0)
       || (size +w uncommitted_size u <=? max_uncommitted_size u)
    then (u <| uncommitted_size ::= λ n, n +w size |>, true)
    else (u, false).

(** [skip_while(|ent| ent.index <= tail)]. *)
Fixpoint skip_upto (tail : N) (ents : list Entry) : list Entry :=
  match ents with
  | [] => []
  | e :: ents' => if e_index e <=? tail then skip_upto tail ents' else ents
  end.

Definition us_maybe_reduce_uncommitted_size (u : UncommittedState) (ents : list Entry)
    : UncommittedState * bool :=
  if is_no_limit u || bool_decide (ents = []) then (u, true)
  else
    let size := data_sizes (skip_upto (last_log_tail_index u) ents) in
    if uncommitted_size u <? size then (u <| uncommitted_size := 0 |>, false)
    else (u <| uncommitted_size ::= λ n, n -w size |>, true).

Definition new_message (to : N) (field_type : MessageType) (from : option N) : Message :=
  let m := default_Message <| m_to := to |> in
  let m := match from with Some id => m <| m_from := id |> | None => m end in
  m <| m_msg_type := field_type |>.

Definition i64_max : Z := 9223372036854775807.

Definition get_priority (m : Message) : Z :=
  if negb (m_priority m =? 0)%Z then m_priority m
  else if (Z.of_N (m_deprecated_priority m) <=? i64_max)%Z then Z.of_N (m_deprecated_priority m)
  else i64_max.

Definition vote_resp_msg_type (t : MessageType) : outcome MessageType :=
  match t with
  | MsgRequestVote => mret MsgRequestVoteResponse
  | MsgRequestPreVote => mret MsgRequestPreVoteResponse
  | _ => Panicked
  end.

(** Comparison of message types, as the code's [m.get_msg_type() == ...]. *)
Definition is_type (m : Message) (t : MessageType) : bool := bool_decide (m_msg_type m = t).

Module Raft.

(** [Raft] with its [RaftCore] (the former dereferences to the latter);
    [draws] counts the random numbers drawn so far. *)
Record t (S : Type) : Type := mk {
  prs : Tracker.t;
  msgs : list Message;
  witness_msgs : list WitnessMessage;
  term : N;
  vote : N;
  id : N;
  read_states : list ReadState;
  raft_log : RaftLog.t S;
  max_inflight : N;
  max_msg_size : N;
  pending_request_snapshot : N;
  state : StateRole;
  promotable : bool;
  leader_id : N;
  lead_transferee : option N;
  pending_conf_index : N;
  read_only : ReadOnly.t;
  election_elapsed : N;
  heartbeat_elapsed : N;
  check_quorum : bool;
  pre_vote : bool;
  skip_bcast_commit : bool;
  batch_append : bool;
  disable_proposal_forwarding : bool;
  heartbeat_timeout : N;
  election_timeout : N;
  randomized_election_timeout : N;
  min_election_timeout : N;
  max_election_timeout : N;
  priority : Z;
  uncommitted_state : UncommittedState;
  max_committed_size_per_ready : N;
  draws : nat
}.
Arguments mk {S}.
Arguments prs {S}.
Arguments msgs {S}.
Arguments witness_msgs {S}.
Arguments term {S}.
Arguments vote {S}.
Arguments id {S}.
Arguments read_states {S}.
Arguments raft_log {S}.
Arguments max_inflight {S}.
Arguments max_msg_size {S}.
Arguments pending_request_snapshot {S}.
Arguments state {S}.
Arguments promotable {S}.
Arguments leader_id {S}.
Arguments lead_transferee {S}.
Arguments pending_conf_index {S}.
Arguments read_only {S}.
Arguments election_elapsed {S}.
Arguments heartbeat_elapsed {S}.
Arguments check_quorum {S}.
Arguments pre_vote {S}.
Arguments skip_bcast_commit {S}.
Arguments batch_append {S}.
Arguments disable_proposal_forwarding {S}.
Arguments heartbeat_timeout {S}.
Arguments election_timeout {S}.
Arguments randomized_election_timeout {S}.
Arguments min_election_timeout {S}.
Arguments max_election_timeout {S}.
Arguments priority {S}.
Arguments uncommitted_state {S}.
Arguments max_committed_size_per_ready {S}.
Arguments draws {S}.

#[global] Instance eta S : Eta (t S) := λ r,
  mk (prs r) (msgs r) (witness_msgs r) (term r) (vote r) (id r) (read_states r) (raft_log r)
    (max_inflight r) (max_msg_size r) (pending_request_snapshot r) (state r) (promotable r)
    (leader_id r) (lead_transferee r) (pending_conf_index r) (read_only r) (election_elapsed r)
    (heartbeat_elapsed r) (check_quorum r) (pre_vote r) (skip_bcast_commit r) (batch_append r)
    (disable_proposal_forwarding r) (heartbeat_timeout r) (election_timeout r)
    (randomized_election_timeout r) (min_election_timeout r) (max_election_timeout r) (priority r)
    (uncommitted_state r) (max_committed_size_per_ready r) (draws r).

Section raft.
Context {S : Type} `{Storage S} `{Proto} `{HashOrder} `{Rand}.
Implicit Types r : t S.

(** ** Accessors and switches *)
Definition set_priority r (p : Z) : t S := r <| priority := p |>.
Definition snap r : option Snapshot := Unstable.snapshot (RaftLog.unstable (raft_log r)).
Definition pending_read_count r : N := ReadOnly.pending_read_count (read_only r).
Definition ready_read_count r : N := len (read_states r).
Definition soft_state r : SoftState := mkSoftState (leader_id r) (state r).
Definition hard_state r : HardState := mkHardState (term r) (vote r) (RaftLog.committed (raft_log r)).
Definition is_role r (s : StateRole) : bool := bool_decide (state r = s).
Definition in_lease r : bool := is_role r Leader && check_quorum r.
Definition set_randomized_election_timeout r (t : N) : outcome (Raft.t S) :=
  _ ← rassert ((min_election_timeout r <=? t) && (t <? max_election_timeout r));
  mret (r <| randomized_election_timeout := t |>).
Definition set_skip_bcast_commit r (skip : bool) : t S := r <| skip_bcast_commit := skip |>.
Definition set_batch_append r (b : bool) : t S := r <| batch_append := b |>.
Definition group_commit r : bool := Tracker.group_commit (prs r).
Definition set_max_committed_size_per_ready r (size : N) : t S :=
  r <| max_committed_size_per_ready := size |>.
Definition set_check_quorum r (b : bool) : t S := r <| check_quorum := b |>.
Definition set_max_apply_unpersisted_log_limit r (limit : N) : t S :=
  r <| raft_log ::= λ l, l <| RaftLog.max_apply_unpersisted_log_limit := limit |> |>.

Definition clear_commit_group r : t S :=
  r <| prs ::= λ p, p <| Tracker.progress ::= fmap (λ pr, pr <| Progress.commit_group_id := 0 |>) |> |>.

Definition commit_to_current_term r : outcome bool :=
  t ← RaftLog.term (raft_log r) (RaftLog.committed (raft_log r));
  mret (is_ok_and t (λ t, t =? term r)).
Definition apply_to_current_term r : outcome bool :=
  t ← RaftLog.term (raft_log r) (RaftLog.applied (raft_log r));
  mret (is_ok_and t (λ t, t =? term r)).

Definition check_group_commit_consistent r : outcome (option bool) :=
  if negb (is_role r Leader) then mret None
  else
    b ← apply_to_current_term r;
    if negb b then mret None
    else
      let '(index, use_group_commit) := Tracker.maximal_committed_index (prs r) in
      mret (Some (use_group_commit && (index =? RaftLog.committed (raft_log r)))).

Definition has_pending_conf r : bool := RaftLog.applied (raft_log r) <? pending_conf_index r.
Definition should_bcast_commit r : bool := negb (skip_bcast_commit r) || has_pending_conf r.
Definition has_witness r : bool :=
  let w := Configuration.witnesses (Tracker.conf (prs r)) in
  negb (get2 w Incoming =? 0) || negb (get2 w Outgoing =? 0).

(** ** Sending *)

Definition is_campaign_msg (m : Message) : bool :=
  is_type m MsgRequestVote || is_type m MsgRequestPreVote
  || is_type m MsgRequestVoteResponse || is_type m MsgRequestPreVoteResponse.

Definition send r (m : Message) : outcome (t S) :=
  let m := if m_from m =? INVALID_ID then m <| m_from := id r |> else m in
  m ← (if is_campaign_msg m then
         if m_term m =? 0 then Panicked else mret m
       else if negb (m_term m =? 0) then Panicked
       else if negb (is_type m MsgPropose) && negb (is_type m MsgReadIndex)
       then mret (m <| m_term := term r |>) else mret m);
  let m := if is_type m MsgRequestVote || is_type m MsgRequestPreVote then
             let m := if (0 <? priority r)%Z
                      then m <| m_deprecated_priority := Z.to_N (priority r) |> else m in
             m <| m_priority := priority r |>
           else m in
  mret (r <| msgs ::= λ l, l ++ [m] |>).

Definition prepare_send_snapshot r (m : Message) (pr : Progress.t) (to : N)
    : outcome (t S * Message * Progress.t * bool) :=
  if negb (Progress.recent_active pr) then mret (r, m, pr, false)
  else
    let m := m <| m_msg_type := MsgSnapshot |> in
    '(l, snapshot_r) ← RaftLog.snapshot (raft_log r) (Progress.pending_request_snapshot pr) to;
    let r := r <| raft_log := l |> in
    match snapshot_r with
    | Err e => if bool_decide (e = Store SnapshotTemporarilyUnavailable)
               then mret (r, m, pr, false) else Panicked
    | Ok snapshot =>
      if sm_index (s_metadata snapshot) =? 0 then Panicked
      else
        let m := m <| m_snapshot := snapshot |> in
        mret (r, m, Progress.become_snapshot pr (sm_index (s_metadata snapshot)), true)
    end.

Definition prepare_send_entries r (m : Message) (pr : Progress.t) (tm : N) (ents : list Entry)
    : outcome (Message * Progress.t) :=
  let m := m <| m_msg_type := MsgAppend |> <| m_index := Progress.next_idx pr -w 1 |>
             <| m_log_term := tm |> <| m_entries := ents |>
             <| m_commit := RaftLog.committed (raft_log r) |> in
  match last (m_entries m) with
  | Some l => pr ← Progress.update_state pr (e_index l); mret (m, pr)
  | None => mret (m, pr)
  end.

(** The loop of [try_batching] over the queued messages: [None] when nothing
    was batched. *)
Fixpoint batch_into (committed to : N) (ms : list Message) (pr : Progress.t) (ents : list Entry)
    : outcome (option (list Message * Progress.t)) :=
  match ms with
  | [] => mret None
  | msg :: ms' =>
    if is_type msg MsgAppend && (m_to msg =? to) then
      if bool_decide (ents = []) then mret (Some ((msg <| m_commit := committed |>) :: ms', pr))
      else if negb (is_continuous_ents msg ents) then mret None
      else
        let msg := msg <| m_entries ::= λ l, l ++ ents |> in
        lst ← unwrap (last (m_entries msg));
        pr ← Progress.update_state pr (e_index lst);
        mret (Some ((msg <| m_commit := committed |>) :: ms', pr))
    else
      res ← batch_into committed to ms' pr ents;
      mret (match res with Some (ms', pr) => Some (msg :: ms', pr) | None => None end)
  end.

Definition try_batching r (to : N) (pr : Progress.t) (ents : list Entry)
    : outcome (t S * Progress.t * bool) :=
  res ← batch_into (RaftLog.committed (raft_log r)) to (msgs r) pr ents;
  mret match res with
       | Some (ms, pr) => (r <| msgs := ms |>, pr, true)
       | None => (r, pr, false)
       end.

Definition maybe_send_append r (to : N) (pr : Progress.t) (allow_empty : bool)
    : outcome (t S * Progress.t * bool) :=
  if Progress.is_paused pr || Progress.is_witness pr then mret (r, pr, false)
  else
    let m := default_Message <| m_to := to |> in
    let send_snapshot r :=
      '(r, m, pr, ok) ← prepare_send_snapshot r m pr to;
      if negb ok then mret (r, pr, false) else r ← send r m; mret (r, pr, true) in
    if negb (Progress.pending_request_snapshot pr =? INVALID_INDEX) then send_snapshot r
    else
      '(l, ents) ← RaftLog.entries (raft_log r) (Progress.next_idx pr) (Some (max_msg_size r))
                     (SendAppend to (term r) (negb allow_empty));
      let r := r <| raft_log := l |> in
      if negb allow_empty && (match ents with Ok e => bool_decide (e = []) | Err _ => true end)
      then mret (r, pr, false)
      else
        tm ← RaftLog.term (raft_log r) (Progress.next_idx pr -w 1);
        match tm, ents with
        | Ok tm, Ok ents =>
          '(r, pr, batched) ← (if batch_append r then try_batching r to pr ents else mret (r, pr, false));
          if (batched : bool) then mret (r, pr, true)
          else
            '(m, pr) ← prepare_send_entries r m pr tm ents;
            r ← send r m; mret (r, pr, true)
        | _, Err (Store LogTemporarilyUnavailable) => mret (r, pr, false)
        | _, _ => send_snapshot r
        end.

(** [while self.maybe_send_append(to, pr, false, msgs) {}].  Each round but the
    last two sends an entry more, so that many rounds and two are enough. *)
Fixpoint send_append_loop (fuel : nat) r (to : N) (pr : Progress.t) : outcome (t S * Progress.t) :=
  match fuel with
  | O => Panicked
  | Datatypes.S fuel' =>
    '(r, pr, sent) ← maybe_send_append r to pr false;
    if (sent : bool) then send_append_loop fuel' r to pr else mret (r, pr)
  end.

Definition aggressive_fuel (last_index next_idx : N) : nat := N.to_nat (last_index + 1 - next_idx) + 2.

Definition core_send_append_aggressively r (to : N) (pr : Progress.t) : outcome (t S * Progress.t) :=
  li ← RaftLog.last_index (raft_log r);
  send_append_loop (aggressive_fuel li (Progress.next_idx pr)) r to pr.

Definition send_heartbeat r (to : N) (pr : Progress.t) (ctx : option bytes) : outcome (t S) :=
  let m := default_Message <| m_to := to |> <| m_msg_type := MsgHeartbeat |> in
  let m := m <| m_commit := N.min (Progress.matched pr) (RaftLog.committed (raft_log r)) |> in
  let m := match ctx with Some c => m <| m_context := c |> | None => m end in
  send r m.

(** [self.prs.get_mut(to).unwrap()], an operation on it, and the write back. *)
Definition set_pr r (to : N) (pr : Progress.t) : t S := r <| prs ::= λ p, Tracker.set_progress p to pr |>.

Definition send_append r (to : N) : outcome (t S) :=
  pr ← unwrap (Tracker.get (prs r) to);
  '(r, pr, _) ← maybe_send_append r to pr true;
  mret (set_pr r to pr).

Definition send_append_aggressively r (to : N) : outcome (t S) :=
  pr ← unwrap (Tracker.get (prs r) to);
  '(r, pr) ← core_send_append_aggressively r to pr;
  mret (set_pr r to pr).

(** [self.prs.iter_mut().filter(|(id, _)| *id != self_id).for_each(...)]. *)
Fixpoint send_append_each (allow_empty : bool) (ids : list N) r : outcome (t S) :=
  match ids with
  | [] => mret r
  | i :: ids' =>
    if i =? id r then send_append_each allow_empty ids' r
    else
      pr ← unwrap (Tracker.get (prs r) i);
      '(r, pr, _) ← maybe_send_append r i pr allow_empty;
      send_append_each allow_empty ids' (set_pr r i pr)
  end.

Definition peer_ids r : list N := set_iter (dom (Tracker.progress (prs r))).

Definition bcast_append r : outcome (t S) := send_append_each true (peer_ids r) r.

(** ** Reads *)

Definition handle_ready_read_index r (req : Message) (index : N) : outcome (t S * option Message) :=
  if (m_from req =? INVALID_ID) || (m_from req =? id r) then
    e0 ← vget (m_entries req) 0;
    mret (r <| read_states ::= λ l, l ++ [mkReadState index (e_data e0)] |>, None)
  else
    mret (r, Some (default_Message <| m_msg_type := MsgReadIndexResp |> <| m_to := m_from req |>
                     <| m_index := index |> <| m_entries := m_entries req |>)).

(** Answering the requests that [advance] released. *)
Fixpoint respond_reads (rss : list ReadIndexStatus) r : outcome (t S) :=
  match rss with
  | [] => mret r
  | rs :: rss' =>
    '(r, m) ← handle_ready_read_index r (ris_req rs) (ris_index rs);
    r ← (match m with Some m => send r m | None => mret r end);
    respond_reads rss' r
  end.

Definition advance_reads r (ctx : bytes) : outcome (t S) :=
  '(ro, rss) ← ReadOnly.advance (read_only r) ctx;
  respond_reads rss (r <| read_only := ro |>).

Fixpoint heartbeat_each (ctx : option bytes) (ids : list N) r : outcome (t S) :=
  match ids with
  | [] => mret r
  | i :: ids' =>
    if i =? id r then heartbeat_each ctx ids' r
    else
      pr ← unwrap (Tracker.get (prs r) i);
      if Progress.is_witness pr then heartbeat_each ctx ids' r
      else r ← send_heartbeat r i pr ctx; heartbeat_each ctx ids' r
  end.

(** The witnesses acknowledge a read at once. *)
Fixpoint ack_witnesses (ctx : bytes) (ws : list N) r : outcome (t S) :=
  match ws with
  | [] => mret r
  | wid :: ws' =>
    if wid =? 0 then ack_witnesses ctx ws' r
    else
      let '(ro, acks) := ReadOnly.recv_ack (read_only r) wid ctx in
      let r := r <| read_only := ro |> in
      let reached := match acks with Some acks => Tracker.has_quorum (prs r) acks | None => false end in
      if reached then advance_reads r ctx else ack_witnesses ctx ws' r
  end.

Definition bcast_heartbeat_with_ctx r (ctx : option bytes) : outcome (t S) :=
  r ← heartbeat_each ctx (peer_ids r) r;
  match ctx with
  | None => mret r
  | Some ctx =>
    let w := Configuration.witnesses (Tracker.conf (prs r)) in
    ack_witnesses ctx [get2 w Incoming; get2 w Outgoing] r
  end.

Definition bcast_heartbeat r : outcome (t S) :=
  bcast_heartbeat_with_ctx r (ReadOnly.last_pending_request_ctx (read_only r)).

Definition ping r : outcome (t S) := if is_role r Leader then bcast_heartbeat r else mret r.

(** ** Witness replication *)

Definition witness_config_half r (witness_id : N) : option half :=
  let sets := replication_sets (Tracker.epoch (prs r)) in
  if rs_witness (get2 sets Incoming) =? witness_id then Some Incoming
  else if rs_witness (get2 sets Outgoing) =? witness_id then Some Outgoing
  else None.

Definition set_epoch r (f : Epoch → Epoch) : t S :=
  r <| prs ::= λ p, p <| Tracker.epoch ::= f |> |>.

Definition send_append_to_witness r (witness_id : N) : outcome (t S * bool) :=
  let epoch := Tracker.epoch (prs r) in
  log_first ← RaftLog.first_index (raft_log r);
  let next_idx := N.max (match Tracker.get (prs r) witness_id with
                         | Some pr => Progress.matched pr +w 1 | None => 1 end) log_first in
  '(l, entries) ← RaftLog.entries (raft_log r) next_idx (Some NO_LIMIT)
                    (SendAppend witness_id (term r) false);
  let r := r <| raft_log := l |> in
  match entries with
  | Err _ => mret (r, false)
  | Ok [] => mret (r, false)
  | Ok ((first :: _) as entries) =>
    '(_, commit_term) ← RaftLog.commit_info (raft_log r);
    let msg := mkWitnessMessage MsgAppend (id r) witness_id (term r)
      (e_term first) (e_subterm first) (e_index first)
      (set_iter (rs_non_witness_voters (get2 (replication_sets epoch) Incoming)))
      (set_iter (rs_non_witness_voters (get2 (replication_sets epoch) Outgoing)))
      [] [] [] entries (RaftLog.committed (raft_log r)) commit_term (subterm epoch) in
    mret (r <| witness_msgs ::= λ l, l ++ [msg] |>, true)
  end.

Definition send_request_vote_to_witness r (witness_id : N) (vote_msg_type : MessageType) (tm : N)
    : outcome (t S) :=
  last_index ← RaftLog.last_index (raft_log r);
  last_term ← RaftLog.last_term (raft_log r);
  '(l, ents) ← RaftLog.entries (raft_log r) last_index (Some 1) (ForEmpty false);
  let r := r <| raft_log := l |> in
  let last_subterm := match ents with Ok (e :: _) => e_subterm e | _ => 0 end in
  '(_, commit_term) ← RaftLog.commit_info (raft_log r);
  let votes := map_iter (Tracker.votes (prs r)) in
  let msg := mkWitnessMessage vote_msg_type (id r) witness_id tm
    last_term last_subterm 0 [] [] votes.*1 votes.*2 [] []
    (RaftLog.committed (raft_log r)) commit_term 0 in
  mret (r <| witness_msgs ::= λ l, l ++ [msg] |>).

Definition get_witness_vote_request_readiness r (votes_to_win : arr2 N) : gmap N bool :=
  let v1 := get2 votes_to_win Incoming in
  let v2 := get2 votes_to_win Outgoing in
  if (1 <? v1) && (1 <? v2) then ∅
  else
    let w := Configuration.witnesses (Tracker.conf (prs r)) in
    let w1 := get2 w Incoming in
    let w2 := get2 w Outgoing in
    if (w1 =? 0) && (w2 =? 0) then ∅
    else if w1 =? w2 then {[w1 := ((v1 =? 1) && (v2 <=? 1)) || ((v1 <=? 1) && (v2 =? 1))]}
    else
      let result := if 0 <? w1 then {[w1 := (v1 =? 1)]} else ∅ in
      if 0 <? w2 then <[w2 := (v2 =? 1)]> result else result.

(** One witness of the loop of [maybe_commit]. *)
Definition replicate_witness r (current_subterm : N) (wi : N * N) : outcome (t S) :=
  let '(witness_id, idx) := wi in
  if 0 <? idx then
    match witness_config_half r witness_id with
    | None => mret r
    | Some h =>
      if get2 (witness_subterm (Tracker.epoch (prs r))) h =? current_subterm then
        match Tracker.get (prs r) witness_id with
        | Some pr =>
          if Progress.matched pr <? idx
          then mret (set_pr r witness_id
                       (pr <| Progress.matched := idx |> <| Progress.state := Replicate |>))
          else mret r
        | None => mret r
        end
      else if get2 (witness_pending_subterm (Tracker.epoch (prs r))) h =? 0 then
        '(r, sent) ← send_append_to_witness r witness_id;
        if (sent : bool)
        then mret (set_epoch r (λ e, e <| witness_pending_subterm ::= λ a, set2 a h current_subterm |>))
        else mret r
      else mret r
    end
  else mret r.

Fixpoint replicate_witnesses (current_subterm : N) (l : list (N * N)) r : outcome (t S) :=
  match l with
  | [] => mret r
  | wi :: l' => r ← replicate_witness r current_subterm wi; replicate_witnesses current_subterm l' r
  end.

Definition maybe_commit r : outcome (t S * bool) :=
  let witness_indices := Tracker.one_less_than_quorum_in_replication_set (prs r) in
  let current_subterm := subterm (Tracker.epoch (prs r)) in
  r ← replicate_witnesses current_subterm (map_iter witness_indices) r;
  let mci := (Tracker.maximal_committed_index (prs r)).1 in
  '(l, advanced) ← RaftLog.maybe_commit (raft_log r) mci (term r);
  let r := r <| raft_log := l |> in
  if (advanced : bool) then
    pr ← unwrap (Tracker.get (prs r) (id r));
    mret (set_pr r (id r) (Progress.update_committed pr (RaftLog.committed (raft_log r))), true)
  else mret (r, false).

(** [if self.maybe_commit() && self.should_bcast_commit() { self.bcast_append() }]. *)
Definition commit_and_bcast r : outcome (t S) :=
  '(r, advanced) ← maybe_commit r;
  if advanced && should_bcast_commit r then bcast_append r else mret r.

Definition confirm_witness_append r (witness_id : N) : outcome (t S) :=
  match witness_config_half r witness_id with
  | None => mret r
  | Some h =>
    let current_subterm := subterm (Tracker.epoch (prs r)) in
    if negb (get2 (witness_pending_subterm (Tracker.epoch (prs r))) h =? current_subterm) then mret r
    else
      let r := set_epoch r (λ e, e <| witness_subterm ::= λ a, set2 a h current_subterm |>
                                   <| witness_pending_subterm ::= λ a, set2 a h 0 |>) in
      if is_role r Leader then commit_and_bcast r else mret r
  end.

Definition reject_witness_append r (witness_id : N) : t S :=
  match witness_config_half r witness_id with
  | None => r
  | Some h =>
    let current_subterm := subterm (Tracker.epoch (prs r)) in
    if negb (get2 (witness_pending_subterm (Tracker.epoch (prs r))) h =? current_subterm) then r
    else set_epoch r (λ e, e <| witness_pending_subterm ::= λ a, set2 a h 0 |>)
  end.

Definition enable_group_commit r (enable : bool) : outcome (t S) :=
  let r := r <| prs ::= λ p, Tracker.enable_group_commit p enable |> in
  if is_role r Leader && negb enable then
    '(r, advanced) ← maybe_commit r;
    if (advanced : bool) then bcast_append r else mret r
  else mret r.

Fixpoint assign_groups (ids : list (N * N)) r : outcome (t S) :=
  match ids with
  | [] => mret r
  | (peer_id, group_id) :: ids' =>
    _ ← rassert (0 <? group_id);
    assign_groups ids' match Tracker.get (prs r) peer_id with
                       | Some pr => set_pr r peer_id (pr <| Progress.commit_group_id := group_id |>)
                       | None => r
                       end
  end.

Definition assign_commit_groups r (ids : list (N * N)) : outcome (t S) :=
  r ← assign_groups ids r;
  if is_role r Leader && group_commit r then
    '(r, advanced) ← maybe_commit r;
    if (advanced : bool) then bcast_append r else mret r
  else mret r.

(** ** Terms and roles *)

Definition abort_leader_transfer r : t S := r <| lead_transferee := None |>.

(** Sampling an empty range panics. *)
Definition reset_randomized_election_timeout r : outcome (t S) :=
  if min_election_timeout r <? max_election_timeout r then
    mret (r <| randomized_election_timeout :=
                 random_range (draws r) (min_election_timeout r) (max_election_timeout r) |>
            <| draws ::= Datatypes.S |>)
  else Panicked.

(** The loop of [reset] over the peers. *)
Definition reset_peers (self_id last_index committed persisted : N) (p : Tracker.t) : Tracker.t :=
  p <| Tracker.progress ::= map_imap (λ i pr,
    let pr := Progress.reset pr (last_index +w 1) in
    Some (if i =? self_id
          then pr <| Progress.matched := persisted |> <| Progress.committed_index := committed |>
          else pr)) |>.

Definition reset r (tm : N) : outcome (t S) :=
  let r := if negb (term r =? tm) then r <| term := tm |> <| vote := INVALID_ID |> else r in
  let r := r <| leader_id := INVALID_ID |> in
  r ← reset_randomized_election_timeout r;
  let r := r <| election_elapsed := 0 |> <| heartbeat_elapsed := 0 |> in
  let r := abort_leader_transfer r in
  let r := r <| prs ::= Tracker.reset_votes |> in
  let r := r <| pending_conf_index := 0 |>
             <| read_only ::= λ ro, ReadOnly.new (ReadOnly.option_ ro) |>
             <| pending_request_snapshot := INVALID_INDEX |> in
  last_index ← RaftLog.last_index (raft_log r);
  mret (r <| prs ::= reset_peers (id r) last_index (RaftLog.committed (raft_log r))
                       (RaftLog.persisted (raft_log r)) |>).

Definition maybe_increase_uncommitted_size r (ents : list Entry) : t S * bool :=
  let '(u, ok) := us_maybe_increase_uncommitted_size (uncommitted_state r) ents in
  (r <| uncommitted_state := u |>, ok).

Definition reduce_uncommitted_size r (ents : list Entry) : t S :=
  if negb (is_role r Leader) then r
  else r <| uncommitted_state := (us_maybe_reduce_uncommitted_size (uncommitted_state r) ents).1 |>.

(** Numbering new entries: term, index and subterm. *)
Fixpoint number_entries (tm sub idx : N) (es : list Entry) : list Entry :=
  match es with
  | [] => []
  | e :: es' => (e <| e_term := tm |> <| e_index := idx |> <| e_subterm := sub |>)
                :: number_entries tm sub (idx +w 1) es'
  end.

Definition append_entry r (es : list Entry) : outcome (t S * bool) :=
  let '(r, ok) := maybe_increase_uncommitted_size r es in
  if negb ok then mret (r, false)
  else
    li ← RaftLog.last_index (raft_log r);
    let es := number_entries (term r) (subterm (Tracker.epoch (prs r))) (li +w 1) es in
    '(l, _) ← RaftLog.append (raft_log r) es;
    mret (r <| raft_log := l |>, true).

Definition maybe_start_new_subterm r (new_term conf_change : bool) : outcome (t S * bool) :=
  let '(r, go_on) :=
    if new_term || conf_change
    then (r <| prs ::= λ p, Tracker.reset_replication_set p new_term |>, true)
    else
      let '(p, changed) := Tracker.change_replication_set (prs r) (id r) in
      (r <| prs := p |>, changed) in
  if negb go_on then mret (r, false)
  else
    '(r, ok) ← append_entry r [default_Entry];
    if negb ok then Panicked else mret (r, true).

Definition commit_apply_internal r (applied : N) (skip_check : bool) : outcome (t S) :=
  let old_applied := RaftLog.applied (raft_log r) in
  l ← (if negb skip_check then RaftLog.applied_to (raft_log r) applied
       else _ ← rassert (0 <? applied); mret (RaftLog.applied_to_unchecked (raft_log r) applied));
  let r := r <| raft_log := l |> in
  if Configuration.auto_leave (Tracker.conf (prs r)) && (old_applied <=? pending_conf_index r)
     && (pending_conf_index r <=? applied) && is_role r Leader
  then
    '(r, ok) ← append_entry r [default_Entry <| e_entry_type := EntryConfChangeV2 |>];
    if negb ok then Panicked
    else li ← RaftLog.last_index (raft_log r); mret (r <| pending_conf_index := li |>)
  else mret r.

Definition commit_apply r (applied : N) : outcome (t S) := commit_apply_internal r applied false.

Definition on_persist_entries r (index tm : N) : outcome (t S) :=
  '(l, update) ← RaftLog.maybe_persist (raft_log r) index tm;
  let r := r <| raft_log := l |> in
  if update && is_role r Leader then
    pr ← unwrap (Tracker.get (prs r) (id r));
    let '(pr, updated) := Progress.maybe_update pr index in
    let r := set_pr r (id r) pr in
    if (updated : bool) then commit_and_bcast r else mret r
  else mret r.

Definition on_persist_snap r (index : N) : outcome (t S) :=
  '(l, _) ← RaftLog.maybe_persist_snap (raft_log r) index; mret (r <| raft_log := l |>).

Definition become_follower r (tm lead : N) : outcome (t S) :=
  let pending := pending_request_snapshot r in
  r ← reset r tm;
  let r := r <| leader_id := lead |> <| state := Follower |> <| pending_request_snapshot := pending |> in
  mret (r <| raft_log ::= λ l, l <| RaftLog.max_apply_unpersisted_log_limit := 0 |> |>).

Definition become_candidate r : outcome (t S) :=
  _ ← rassert (negb (is_role r Leader));
  r ← reset r (term r +w 1);
  mret (r <| vote := id r |> <| state := Candidate |>).

Definition become_pre_candidate r : outcome (t S) :=
  _ ← rassert (negb (is_role r Leader));
  mret (r <| state := PreCandidate |> <| prs ::= Tracker.reset_votes |> <| leader_id := INVALID_ID |>).

Definition become_leader r : outcome (t S) :=
  _ ← rassert (negb (is_role r Follower));
  r ← reset r (term r);
  let r := r <| leader_id := id r |> <| state := Leader |> in
  last_index ← RaftLog.last_index (raft_log r);
  _ ← rassert (last_index =? RaftLog.persisted (raft_log r));
  let r := r <| uncommitted_state ::= λ u, u <| uncommitted_size := 0 |>
                                             <| last_log_tail_index := last_index |> |> in
  pr ← unwrap (Tracker.get (prs r) (id r));
  let r := set_pr r (id r) (Progress.become_replicate pr) in
  let r := r <| pending_conf_index := last_index |> in
  if has_witness r then '(r, _) ← maybe_start_new_subterm r true false; mret r
  else '(r, _) ← append_entry r [default_Entry]; mret r.

(** ** Elections *)

(** The vote requests of [campaign]. *)
Fixpoint request_votes (vote_msg : MessageType) (tm commit commit_term : N) (campaign_type : bytes)
    (ids : list N) r : outcome (t S) :=
  match ids with
  | [] => mret r
  | i :: ids' =>
    let w := Configuration.witnesses (Tracker.conf (prs r)) in
    if (i =? id r) || (i =? get2 w Incoming) || (i =? get2 w Outgoing)
    then request_votes vote_msg tm commit commit_term campaign_type ids' r
    else
      last_index ← RaftLog.last_index (raft_log r);
      last_term ← RaftLog.last_term (raft_log r);
      let m := (new_message i vote_msg None) <| m_term := tm |> <| m_index := last_index |>
                 <| m_log_term := last_term |> <| m_commit := commit |> <| m_commit_term := commit_term |> in
      let m := if bool_decide (campaign_type = CAMPAIGN_TRANSFER)
               then m <| m_context := campaign_type |> else m in
      r ← send r m;
      request_votes vote_msg tm commit commit_term campaign_type ids' r
  end.

(** [campaign], given the [poll] it calls. *)
Definition campaign_with (poll : t S → N → MessageType → bool → outcome (t S * VoteResult))
    r (campaign_type : bytes) : outcome (t S) :=
  '(r, vote_msg, tm) ← (if bool_decide (campaign_type = CAMPAIGN_PRE_ELECTION)
                        then r ← become_pre_candidate r; mret (r, MsgRequestPreVote, term r +w 1)
                        else r ← become_candidate r; mret (r, MsgRequestVote, term r));
  let self_id := id r in
  '(r, res) ← poll r self_id vote_msg true;
  if bool_decide (res = Won) then mret r
  else
    '(commit, commit_term) ← RaftLog.commit_info (raft_log r);
    request_votes vote_msg tm commit commit_term campaign_type
      (Joint.ids (Configuration.voters (Tracker.conf (prs r)))) r.

(** The witnesses [poll] asks while the election is pending. *)
Fixpoint ask_witnesses (t : MessageType) (l : list (N * bool)) r : outcome (Raft.t S) :=
  match l with
  | [] => mret r
  | (witness_id, ready) :: l' =>
    r ← (if (ready : bool) then
           send_request_vote_to_witness r witness_id t
             (if bool_decide (t = MsgRequestPreVote) then term r +w 1 else term r)
         else mret r);
    ask_witnesses t l' r
  end.

(** [poll]; winning a pre-election starts the election, whose own [poll] runs
    as a candidate and starts no other: two levels are enough. *)
Fixpoint poll_fuel (fuel : nat) r (from : N) (t : MessageType) (vote_ : bool)
    : outcome (Raft.t S * VoteResult) :=
  let r := r <| prs ::= λ p, Tracker.record_vote p from vote_ |> in
  let '(_, _, res, votes_to_win) := Tracker.tally_votes_with_diff (prs r) in
  r ← match res with
      | Won =>
        if is_role r PreCandidate then
          match fuel with
          | O => Panicked
          | Datatypes.S fuel' => campaign_with (poll_fuel fuel') r CAMPAIGN_ELECTION
          end
        else r ← become_leader r; bcast_append r
      | Lost => become_follower r (term r) INVALID_ID
      | Pending => ask_witnesses t (map_iter (get_witness_vote_request_readiness r votes_to_win)) r
      end;
  mret (r, res).

Definition poll r (from : N) (t : MessageType) (vote_ : bool) : outcome (Raft.t S * VoteResult) :=
  poll_fuel 1 r from t vote_.

Definition campaign r (campaign_type : bytes) : outcome (t S) := campaign_with poll r campaign_type.

(** The callback of [has_unapplied_conf_changes]: stop at a change. *)
Definition is_conf_change_entry (e : Entry) : bool :=
  bool_decide (e_entry_type e = EntryConfChange) || bool_decide (e_entry_type e = EntryConfChangeV2).
Definition find_conf_change (found : bool) (ents : list Entry) : bool * bool :=
  if existsb is_conf_change_entry ents then (true, false) else (found, true).

Definition has_unapplied_conf_changes r (lo hi : N) (context : GetEntriesContext) : outcome (t S * bool) :=
  if RaftLog.committed (raft_log r) <=? RaftLog.applied (raft_log r) then mret (r, false)
  else
    '(l, found, res) ← RaftLog.scan (raft_log r) lo hi (max_committed_size_per_ready r) context
                         find_conf_change false;
    let r := r <| raft_log := l |> in
    match res with
    | Ok _ => mret (r, found)
    | Err _ => Panicked
    end.

Definition hup r (transfer_leader : bool) : outcome (t S) :=
  if is_role r Leader then mret r
  else
    let low := match Unstable.maybe_first_index (RaftLog.unstable (raft_log r)) with
               | Some idx => idx
               | None => RaftLog.applied (raft_log r) +w 1 end in
    let high := RaftLog.committed (raft_log r) +w 1 in
    '(r, pending) ← has_unapplied_conf_changes r low high TransferLeader;
    if (pending : bool) then mret r
    else if transfer_leader then campaign r CAMPAIGN_TRANSFER
    else if pre_vote r then campaign r CAMPAIGN_PRE_ELECTION
    else campaign r CAMPAIGN_ELECTION.

(** ** Follower side *)

Definition send_request_snapshot r : outcome (t S) :=
  hint ← RaftLog.last_index (raft_log r);
  tm ← RaftLog.term (raft_log r) hint;
  tm ← unwrap_res tm;
  send r (default_Message <| m_msg_type := MsgAppendResponse |>
            <| m_index := RaftLog.committed (raft_log r) |> <| m_reject := true |>
            <| m_reject_hint := hint |> <| m_to := leader_id r |>
            <| m_request_snapshot := pending_request_snapshot r |> <| m_log_term := tm |>).

Definition request_snapshot r : outcome (t S * Result unit) :=
  if is_role r Leader || (leader_id r =? INVALID_ID) || bool_decide (is_Some (snap r))
     || negb (pending_request_snapshot r =? INVALID_INDEX)
  then mret (r, Err RequestSnapshotDropped)
  else
    request_index ← RaftLog.last_index (raft_log r);
    tm ← RaftLog.term (raft_log r) request_index;
    tm ← unwrap_res tm;
    if term r =? tm then
      r ← send_request_snapshot (r <| pending_request_snapshot := request_index |>);
      mret (r, Ok tt)
    else mret (r, Err RequestSnapshotDropped).

Definition handle_append_entries r (m : Message) : outcome (t S) :=
  if negb (pending_request_snapshot r =? INVALID_INDEX) then send_request_snapshot r
  else if m_index m <? RaftLog.committed (raft_log r) then
    send r (default_Message <| m_msg_type := MsgAppendResponse |> <| m_to := m_from m |>
              <| m_index := RaftLog.committed (raft_log r) |>
              <| m_commit := RaftLog.committed (raft_log r) |>)
  else
    let to_send := default_Message <| m_to := m_from m |> <| m_msg_type := MsgAppendResponse |> in
    '(l, res) ← RaftLog.maybe_append (raft_log r) (m_index m) (m_log_term m) (m_commit m) (m_entries m);
    let r := r <| raft_log := l |> in
    to_send ← match res with
      | Some (_, last_idx) => mret (to_send <| m_index := last_idx |>)
      | None =>
        li ← RaftLog.last_index (raft_log r);
        '(hint_index, hint_term) ←
          RaftLog.find_conflict_by_term (raft_log r) (N.min (m_index m) li) (m_log_term m);
        hint_term ← unwrap hint_term;
        mret (to_send <| m_index := m_index m |> <| m_reject := true |>
                <| m_reject_hint := hint_index |> <| m_log_term := hint_term |>)
      end;
    send r (to_send <| m_commit := RaftLog.committed (raft_log r) |>).

Definition handle_heartbeat r (m : Message) : outcome (t S) :=
  li ← RaftLog.last_index (raft_log r);
  l ← RaftLog.commit_to (raft_log r) (N.min (m_commit m) li);
  let r := r <| raft_log := l |> in
  if negb (pending_request_snapshot r =? INVALID_INDEX) then send_request_snapshot r
  else
    send r (default_Message <| m_msg_type := MsgHeartbeatResponse |> <| m_to := m_from m |>
              <| m_context := m_context m |> <| m_commit := RaftLog.committed (raft_log r) |>).

(** ** Configuration changes *)

Definition send_timeout_now r (to : N) : outcome (t S) := send r (new_message to MsgTimeoutNow None).

(** The reads a smaller quorum releases. *)
Definition release_reads r : outcome (t S) :=
  match ReadOnly.last_pending_request_ctx (read_only r) with
  | None => mret r
  | Some ctx =>
    let '(ro, acks) := ReadOnly.recv_ack (read_only r) (id r) ctx in
    let r := r <| read_only := ro |> in
    match acks with
    | Some acks => if Tracker.has_quorum (prs r) acks then advance_reads r ctx else mret r
    | None => mret r
    end
  end.

Definition post_conf_change r : outcome (t S * ConfState) :=
  let cs := Configuration.to_conf_state (Tracker.conf (prs r)) in
  let is_voter := Joint.contains (Configuration.voters (Tracker.conf (prs r))) (id r) in
  let r := r <| promotable := is_voter |> in
  if (negb is_voter && is_role r Leader) || negb (is_role r Leader) || bool_decide (cs_voters cs = [])
  then mret (r, cs)
  else
    '(r, advanced) ← maybe_commit r;
    r ← (if (advanced : bool) then bcast_append r else send_append_each false (peer_ids r) r);
    r ← release_reads r;
    let r := match lead_transferee r with
             | Some e => if negb (Joint.contains (Configuration.voters (Tracker.conf (prs r))) e)
                         then abort_leader_transfer r else r
             | None => r
             end in
    mret (r, cs).

Definition apply_conf_change r (cc : ConfChangeV2) : outcome (t S * Result ConfState) :=
  let changed :=
    if ProtoConf.leave_joint cc then Changer.leave_joint (prs r)
    else match ProtoConf.enter_joint cc with
         | Some auto_leave => Changer.enter_joint (prs r) auto_leave (ccv_changes cc)
         | None => Changer.simple (prs r) (ccv_changes cc)
         end in
  match changed with
  | Err e => mret (r, Err e)
  | Ok (cfg, changes) =>
    li ← RaftLog.last_index (raft_log r);
    let r := r <| prs ::= λ p, Tracker.apply_conf p cfg changes li |> in
    '(r, new_cs) ← post_conf_change r;
    r ← (if is_role r Leader && has_witness r
         then '(r, _) ← maybe_start_new_subterm r false true; mret r else mret r);
    mret (r, Ok new_cs)
  end.

Definition restore r (sn : Snapshot) : outcome (t S * bool) :=
  let meta := s_metadata sn in
  if sm_index meta <? RaftLog.committed (raft_log r) then mret (r, false)
  else if negb (is_role r Follower) then
    r ← become_follower r (term r +w 1) INVALID_INDEX; mret (r, false)
  else
    let cs := sm_conf_state meta in
    if forallb (λ i, negb (i =? id r)) (cs_voters cs ++ cs_learners cs ++ cs_voters_outgoing cs)
    then mret (r, false)
    else
      matches ← (if pending_request_snapshot r =? INVALID_INDEX
                 then RaftLog.match_term (raft_log r) (sm_index meta) (sm_term meta) else mret false);
      if (matches : bool) then
        l ← RaftLog.commit_to (raft_log r) (sm_index meta); mret (r <| raft_log := l |>, false)
      else
        l ← RaftLog.restore (raft_log r) sn;
        let r := r <| raft_log := l |> <| prs ::= Tracker.clear |> in
        last_index ← RaftLog.last_index (raft_log r);
        let '(p, res) := Changer.restore (prs r) last_index cs in
        let r := r <| prs := p |> in
        match res with
        | Err _ => Panicked
        | Ok _ =>
          '(r, new_cs) ← post_conf_change r;
          if negb (ProtoConf.conf_state_eq cs new_cs) then Panicked
          else
            pr ← unwrap (Tracker.get (prs r) (id r));
            let r := set_pr r (id r) (Progress.maybe_update pr (Progress.next_idx pr -w 1)).1 in
            mret (r <| pending_request_snapshot := INVALID_INDEX |>, true)
        end.

Definition handle_snapshot r (m : Message) : outcome (t S) :=
  '(r, restored) ← restore r (m_snapshot m);
  index ← (if (restored : bool) then RaftLog.last_index (raft_log r)
           else mret (RaftLog.committed (raft_log r)));
  send r (default_Message <| m_msg_type := MsgAppendResponse |> <| m_to := m_from m |> <| m_index := index |>).

(** ** Leader side *)

(** The part of [handle_append_response] after a successful update: the
    window, the commit index, more entries and a pending transfer. *)
Definition after_match r (m : Message) (old_paused : bool) : outcome (t S) :=
  '(r, advanced) ← maybe_commit r;
  r ← (if (advanced : bool) then if should_bcast_commit r then bcast_append r else mret r
       else if old_paused then send_append r (m_from m) else mret r);
  r ← send_append_aggressively r (m_from m);
  if bool_decide (lead_transferee r = Some (m_from m)) then
    last_index ← RaftLog.last_index (raft_log r);
    pr ← unwrap (Tracker.get (prs r) (m_from m));
    if Progress.matched pr =? last_index then send_timeout_now r (m_from m) else mret r
  else mret r.

Definition handle_append_response r (m : Message) : outcome (t S) :=
  next_probe_index ← (if m_reject m && (0 <? m_log_term m)
    then '(i, _) ← RaftLog.find_conflict_by_term (raft_log r) (m_reject_hint m) (m_log_term m); mret i
    else mret (m_reject_hint m));
  match Tracker.get (prs r) (m_from m) with
  | None => mret r
  | Some pr =>
    let pr := pr <| Progress.recent_active := true |> in
    let pr := Progress.update_committed pr (m_commit m) in
    if m_reject m then
      let '(pr, decr) := Progress.maybe_decr_to pr (m_index m) next_probe_index (m_request_snapshot m) in
      if (decr : bool) then
        let pr := if bool_decide (Progress.state pr = Replicate) then Progress.become_probe pr else pr in
        send_append (set_pr r (m_from m) pr) (m_from m)
      else mret (set_pr r (m_from m) pr)
    else
      let old_paused := Progress.is_paused pr in
      let '(pr, updated) := Progress.maybe_update pr (m_index m) in
      if negb updated then mret (set_pr r (m_from m) pr)
      else
        pr ← match Progress.state pr with
             | Probe => mret (Progress.become_replicate pr)
             | PSnapshot =>
               mret (if Progress.is_snapshot_caught_up pr then Progress.become_probe pr else pr)
             | Replicate =>
               i ← Inflights.free_to (Progress.ins pr) (m_index m); mret (pr <| Progress.ins := i |>)
             end;
        after_match (set_pr r (m_from m) pr) m old_paused
  end.

Definition handle_heartbeat_response r (m : Message) : outcome (t S) :=
  match Tracker.get (prs r) (m_from m) with
  | None => mret r
  | Some pr =>
    let pr := Progress.update_committed pr (m_commit m) in
    let pr := Progress.resume (pr <| Progress.recent_active := true |>) in
    pr ← (if bool_decide (Progress.state pr = Replicate) && Inflights.full (Progress.ins pr)
          then i ← Inflights.free_first_one (Progress.ins pr); mret (pr <| Progress.ins := i |>)
          else mret pr);
    last_index ← RaftLog.last_index (raft_log r);
    '(r, pr) ← (if (Progress.matched pr <? last_index)
                   || negb (Progress.pending_request_snapshot pr =? INVALID_INDEX)
                then '(r, pr, _) ← maybe_send_append r (m_from m) pr true; mret (r, pr)
                else mret (r, pr));
    let r := set_pr r (m_from m) pr in
    if negb (bool_decide (ReadOnly.option_ (read_only r) = Safe)) || bool_decide (m_context m = [])
    then mret r
    else
      let '(ro, acks) := ReadOnly.recv_ack (read_only r) (m_from m) (m_context m) in
      let r := r <| read_only := ro |> in
      match acks with
      | Some acks => if Tracker.has_quorum (prs r) acks then advance_reads r (m_context m) else mret r
      | None => mret r
      end
  end.

Definition handle_transfer_leader r (m : Message) : outcome (t S) :=
  let from := m_from m in
  if bool_decide (Tracker.get (prs r) from = None) then mret r
  else if bool_decide (from ∈ Configuration.learners (Tracker.conf (prs r))) then mret r
  else if bool_decide (lead_transferee r = Some from) then mret r
  else
    let r := match lead_transferee r with Some _ => abort_leader_transfer r | None => r end in
    if from =? id r then mret r
    else
      let r := r <| election_elapsed := 0 |> <| lead_transferee := Some from |> in
      pr ← unwrap (Tracker.get (prs r) from);
      last_index ← RaftLog.last_index (raft_log r);
      if Progress.matched pr =? last_index then send_timeout_now r from
      else
        '(r, pr, _) ← maybe_send_append r from pr true;
        mret (set_pr r from pr).

Definition handle_snapshot_status r (m : Message) : t S :=
  match Tracker.get (prs r) (m_from m) with
  | None => r
  | Some pr =>
    if negb (bool_decide (Progress.state pr = PSnapshot)) then r
    else
      let pr := if m_reject m then Progress.become_probe (Progress.snapshot_failure pr)
                else Progress.become_probe pr in
      let pr := Progress.pause pr in
      set_pr r (m_from m) (pr <| Progress.pending_request_snapshot := INVALID_INDEX |>)
  end.

Definition handle_unreachable r (m : Message) : t S :=
  match Tracker.get (prs r) (m_from m) with
  | None => r
  | Some pr =>
    set_pr r (m_from m)
      (if bool_decide (Progress.state pr = Replicate) then Progress.become_probe pr else pr)
  end.

(** The change an entry proposes: [None] for a normal entry, [Some None] when
    it does not decode. *)
Definition proposed_change (e : Entry) : option (option ConfChangeV2) :=
  match e_entry_type e with
  | EntryConfChange => Some (option_map ProtoConf.into_v2 (decode_conf_change (e_data e)))
  | EntryConfChangeV2 => Some (decode_conf_change_v2 (e_data e))
  | EntryNormal => None
  end.

(** Whether a proposed change is refused. *)
Definition refuse_change r (cc : ConfChangeV2) : bool :=
  has_pending_conf r
  || (let already_joint := joint (Tracker.conf (prs r)) in
      let want_leave := bool_decide (ccv_changes cc = []) in
      (already_joint && negb want_leave) || (negb already_joint && want_leave)).

(** The loop over the proposed entries: at most one change is kept, the
    others become empty entries; a change that does not decode drops the
    proposal. *)
Fixpoint check_proposals (i : N) (ents : list Entry) r : outcome (t S * option (list Entry)) :=
  match ents with
  | [] => mret (r, Some [])
  | e :: ents' =>
    match proposed_change e with
    | Some None => mret (r, None)
    | None =>
      '(r, rest) ← check_proposals (i +w 1) ents' r; mret (r, option_map (cons e) rest)
    | Some (Some cc) =>
      '(r, e) ← (if refuse_change r cc then mret (r, default_Entry)
                 else li ← RaftLog.last_index (raft_log r);
                      mret (r <| pending_conf_index := li +w i +w 1 |>, e));
      '(r, rest) ← check_proposals (i +w 1) ents' r; mret (r, option_map (cons e) rest)
    end
  end.

Definition handle_propose r (m : Message) : outcome (t S * Result unit) :=
  if bool_decide (m_entries m = []) then Panicked
  else if bool_decide (Tracker.get (prs r) (id r) = None) || bool_decide (is_Some (lead_transferee r))
  then mret (r, Err ProposalDropped)
  else
    '(r, ents) ← check_proposals 0 (m_entries m) r;
    match ents with
    | None => mret (r, Err ProposalDropped)
    | Some ents =>
      '(r, ok) ← append_entry r ents;
      if negb ok then mret (r, Err ProposalDropped)
      else r ← bcast_append r; mret (r, Ok tt)
    end.

Definition handle_read_index r (m : Message) : outcome (t S) :=
  ready ← commit_to_current_term r;
  if negb ready then mret r
  else
    let respond r :=
      '(r, resp) ← handle_ready_read_index r m (RaftLog.committed (raft_log r));
      match resp with Some resp => send r resp | None => mret r end in
    if Tracker.is_singleton (prs r) then respond r
    else match ReadOnly.option_ (read_only r) with
         | Safe =>
           e0 ← vget (m_entries m) 0;
           ro ← ReadOnly.add_request (read_only r) (RaftLog.committed (raft_log r)) m (id r);
           bcast_heartbeat_with_ctx (r <| read_only := ro |>) (Some (e_data e0))
         | LeaseBased => respond r
         end.

Definition check_quorum_active r : t S * bool :=
  let '(p, active) := Tracker.quorum_recently_active (prs r) (id r) in
  (r <| prs := p |>, active).

Definition handle_check_quorum r : outcome (t S) :=
  '(r, adjusted) ← (if has_witness r then maybe_start_new_subterm r false false else mret (r, false));
  let degraded := if has_witness r
                  then let '(a, b) := replicate_to_witness (Tracker.epoch (prs r)) in a || b
                  else false in
  if negb adjusted && negb degraded then
    let '(r, active) := check_quorum_active r in
    if (active : bool) then mret r else become_follower r (term r) INVALID_ID
  else mret r.

(** A handler that cannot fail. *)
Definition ok (o : outcome (t S)) : outcome (t S * Result unit) := r ← o; mret (r, Ok tt).

Definition step_leader r (m : Message) : outcome (t S * Result unit) :=
  match m_msg_type m with
  | MsgBeat =>
    r ← bcast_heartbeat r;
    ok (if has_witness r then commit_and_bcast r else mret r)
  | MsgCheckQuorum => ok (handle_check_quorum r)
  | MsgPropose => handle_propose r m
  | MsgReadIndex => ok (handle_read_index r m)
  | MsgAppendResponse => ok (handle_append_response r m)
  | MsgHeartbeatResponse => ok (handle_heartbeat_response r m)
  | MsgSnapStatus => ok (mret (handle_snapshot_status r m))
  | MsgUnreachable => ok (mret (handle_unreachable r m))
  | MsgTransferLeader =>
    if match Tracker.get (prs r) (m_from m) with Some pr => Progress.is_witness pr | None => false end
    then mret (r, Ok tt)
    else ok (handle_transfer_leader r m)
  | _ => mret (r, Ok tt)
  end.

(** ** Candidates and followers *)

Definition maybe_commit_by_vote r (m : Message) : outcome (t S) :=
  if (m_commit m =? 0) || (m_commit_term m =? 0) then mret r
  else
    let last_commit := RaftLog.committed (raft_log r) in
    if (m_commit m <=? last_commit) || is_role r Leader then mret r
    else
      '(l, advanced) ← RaftLog.maybe_commit (raft_log r) (m_commit m) (m_commit_term m);
      let r := r <| raft_log := l |> in
      if negb advanced then mret r
      else if negb (is_role r Candidate) && negb (is_role r PreCandidate) then mret r
      else
        '(r, pending) ← has_unapplied_conf_changes r (last_commit +w 1)
                          (RaftLog.committed (raft_log r) +w 1) CommitByVote;
        if (pending : bool) then become_follower r (term r) INVALID_ID else mret r.

Definition step_candidate r (m : Message) : outcome (t S * Result unit) :=
  match m_msg_type m with
  | MsgPropose => mret (r, Err ProposalDropped)
  | MsgAppend => ok (r ← become_follower r (m_term m) (m_from m); handle_append_entries r m)
  | MsgHeartbeat => ok (r ← become_follower r (m_term m) (m_from m); handle_heartbeat r m)
  | MsgSnapshot => ok (r ← become_follower r (m_term m) (m_from m); handle_snapshot r m)
  | MsgRequestPreVoteResponse | MsgRequestVoteResponse =>
    if (is_role r PreCandidate && negb (is_type m MsgRequestPreVoteResponse))
       || (is_role r Candidate && negb (is_type m MsgRequestVoteResponse))
    then mret (r, Ok tt)
    else
      '(r, _) ← poll r (m_from m) (m_msg_type m) (negb (m_reject m));
      ok (maybe_commit_by_vote r m)
  | _ => mret (r, Ok tt)
  end.

Definition step_follower r (m : Message) : outcome (t S * Result unit) :=
  let from_leader := r <| election_elapsed := 0 |> <| leader_id := m_from m |> in
  match m_msg_type m with
  | MsgPropose =>
    if (leader_id r =? INVALID_ID) || disable_proposal_forwarding r then mret (r, Err ProposalDropped)
    else ok (send r (m <| m_to := leader_id r |>))
  | MsgAppend => ok (handle_append_entries from_leader m)
  | MsgHeartbeat => ok (handle_heartbeat from_leader m)
  | MsgSnapshot => ok (handle_snapshot from_leader m)
  | MsgTransferLeader | MsgReadIndex =>
    if leader_id r =? INVALID_ID then mret (r, Ok tt) else ok (send r (m <| m_to := leader_id r |>))
  | MsgTimeoutNow => if promotable r then ok (hup r true) else mret (r, Ok tt)
  | MsgReadIndexResp =>
    match m_entries m with
    | [e0] =>
      let r := r <| read_states ::= λ l, l ++ [mkReadState (m_index m) (e_data e0)] |> in
      '(l, _) ← RaftLog.maybe_commit (raft_log r) (m_index m) (m_term m);
      mret (r <| raft_log := l |>, Ok tt)
    | _ => mret (r, Ok tt)
    end
  | _ => mret (r, Ok tt)
  end.

(** ** The step function *)

(** Votes: real votes and pre-votes. *)
Definition handle_vote_request r (m : Message) : outcome (t S) :=
  let can_vote := (vote r =? m_from m)
    || ((vote r =? INVALID_ID) && (leader_id r =? INVALID_ID))
    || (is_type m MsgRequestPreVote && (term r <? m_term m)) in
  resp_type ← vote_resp_msg_type (m_msg_type m);
  grant ← (if can_vote then
             up_to_date ← RaftLog.is_up_to_date (raft_log r) (m_index m) (m_log_term m);
             if (up_to_date : bool)
             then li ← RaftLog.last_index (raft_log r);
                  mret ((li <? m_index m) || (priority r <=? get_priority m)%Z)
             else mret false
           else mret false);
  if (grant : bool) then
    r ← send r ((new_message (m_from m) resp_type None) <| m_reject := false |> <| m_term := m_term m |>);
    if is_type m MsgRequestVote
    then mret (r <| election_elapsed := 0 |> <| vote := m_from m |>) else mret r
  else
    '(commit, commit_term) ← RaftLog.commit_info (raft_log r);
    r ← send r ((new_message (m_from m) resp_type None) <| m_reject := true |> <| m_term := term r |>
                  <| m_commit := commit |> <| m_commit_term := commit_term |>);
    maybe_commit_by_vote r m.

(** The treatment of the message's term: [false] when the message is not
    processed further. *)
Definition check_term r (m : Message) : outcome (t S * bool) :=
  if m_term m =? 0 then mret (r, true)
  else if term r <? m_term m then
    let is_vote := is_type m MsgRequestVote || is_type m MsgRequestPreVote in
    let force := bool_decide (m_context m = CAMPAIGN_TRANSFER) in
    let lease := check_quorum r && negb (leader_id r =? INVALID_ID)
                 && (election_elapsed r <? election_timeout r) in
    if is_vote && negb force && lease then mret (r, false)
    else if is_type m MsgRequestPreVote || (is_type m MsgRequestPreVoteResponse && negb (m_reject m))
    then mret (r, true)
    else
      r ← become_follower r (m_term m)
            (if is_type m MsgAppend || is_type m MsgHeartbeat || is_type m MsgSnapshot
             then m_from m else INVALID_ID);
      mret (r, true)
  else if m_term m <? term r then
    r ← (if (check_quorum r || pre_vote r) && (is_type m MsgHeartbeat || is_type m MsgAppend)
         then send r (new_message (m_from m) MsgAppendResponse None)
         else if is_type m MsgRequestPreVote
         then send r ((new_message (m_from m) MsgRequestPreVoteResponse None)
                        <| m_term := term r |> <| m_reject := true |>)
         else mret r);
    mret (r, false)
  else mret (r, true).

Definition step r (m : Message) : outcome (t S * Result unit) :=
  '(r, go_on) ← check_term r m;
  if negb go_on then mret (r, Ok tt)
  else match m_msg_type m with
       | MsgHup => ok (hup r false)
       | MsgRequestVote | MsgRequestPreVote => ok (handle_vote_request r m)
       | _ => match state r with
              | PreCandidate | Candidate => step_candidate r m
              | Follower => step_follower r m
              | Leader => step_leader r m
              end
       end.

(** ** Time *)

Definition pass_election_timeout r : bool := randomized_election_timeout r <=? election_elapsed r.

Definition tick_election r : outcome (t S * bool) :=
  let r := r <| election_elapsed ::= λ n, n +w 1 |> in
  if negb (pass_election_timeout r) || negb (promotable r) then mret (r, false)
  else
    let r := r <| election_elapsed := 0 |> in
    '(r, _) ← step r (new_message INVALID_ID MsgHup (Some (id r)));
    mret (r, true).

Definition tick_heartbeat r : outcome (t S * bool) :=
  let r := r <| heartbeat_elapsed ::= λ n, n +w 1 |> <| election_elapsed ::= λ n, n +w 1 |> in
  '(r, has_ready) ← (if election_timeout r <=? election_elapsed r then
      let r := r <| election_elapsed := 0 |> in
      '(r, has_ready) ← (if check_quorum r then
          '(r, _) ← step r (new_message INVALID_ID MsgCheckQuorum (Some (id r))); mret (r, true)
        else mret (r, false));
      mret (if is_role r Leader && bool_decide (is_Some (lead_transferee r))
            then abort_leader_transfer r else r, has_ready)
    else mret (r, false));
  if negb (is_role r Leader) then mret (r, has_ready)
  else if heartbeat_timeout r <=? heartbeat_elapsed r then
    let r := r <| heartbeat_elapsed := 0 |> in
    '(r, _) ← step r (new_message INVALID_ID MsgBeat (Some (id r)));
    mret (r, true)
  else mret (r, has_ready).

Definition tick r : outcome (t S * bool) :=
  match state r with
  | Follower | PreCandidate | Candidate => tick_election r
  | Leader => tick_heartbeat r
  end.

(** ** Creation *)

Definition load_state r (hs : HardState) : outcome (t S) :=
  li ← RaftLog.last_index (raft_log r);
  if (hs_commit hs <? RaftLog.committed (raft_log r)) || (li <? hs_commit hs) then Panicked
  else
    let r := r <| raft_log ::= λ l, l <| RaftLog.committed := hs_commit hs |> |> in
    mret (r <| term := hs_term hs |> <| vote := hs_vote hs |>).

Definition initial (c : Config.t) (l : RaftLog.t S) : t S :=
  mk (Tracker.with_capacity (Config.max_inflight_msgs c)) [] [] 0 0 (Config.id c) [] l
    (Config.max_inflight_msgs c) (Config.max_size_per_msg c) INVALID_INDEX Follower false 0 None 0
    (ReadOnly.new (Config.read_only_option c)) 0 0 (Config.check_quorum c) (Config.pre_vote c)
    (Config.skip_bcast_commit c) (Config.batch_append c) (Config.disable_proposal_forwarding c)
    (Config.heartbeat_tick c) (Config.election_tick c) 0 (Config.min_election_tick c)
    (Config.max_election_tick c) (Config.priority c)
    (mkUncommittedState (Config.max_uncommitted_size c) 0 0)
    (Config.max_committed_size_per_ready c) 0.

Definition new (c : Config.t) (store : S) : outcome (Result (t S)) :=
  match Config.validate c, st_initial_state store with
  | Err e, _ => mret (Err e)
  | Ok _, Err e => mret (Err e)
  | Ok _, Ok raft_state =>
    let cs := Storage.conf_state raft_state in
    l ← RaftLog.new store (Config.max_apply_unpersisted_log_limit c);
    let r := initial c l in
    last_index ← RaftLog.last_index (raft_log r);
    let '(p, res) := Changer.restore (prs r) last_index cs in
    match res with
    | Err e => mret (Err e)
    | Ok _ =>
      let r := r <| prs := p |> in
      '(r, new_cs) ← post_conf_change r;
      if negb (ProtoConf.conf_state_eq new_cs cs) then Panicked
      else
        r ← (if bool_decide (Storage.hard_state raft_state = default_HardState) then mret r
             else load_state r (Storage.hard_state raft_state));
        r ← (if 0 <? Config.applied c then commit_apply_internal r (Config.applied c) true else mret r);
        r ← become_follower r (term r) INVALID_ID;
        mret (Ok r)
    end
  end.

Definition maybe_free_inflight_buffers r : t S :=
  r <| prs ::= λ p, p <| Tracker.progress ::=
         fmap (λ pr, pr <| Progress.ins ::= Inflights.maybe_free_buffer |>) |> |>.

Definition adjust_max_inflight_msgs r (target cap : N) : outcome (t S) :=
  match Tracker.get (prs r) target with
  | Some pr => i ← Inflights.set_cap (Progress.ins pr) cap; mret (set_pr r target (pr <| Progress.ins := i |>))
  | None => mret r
  end.
End raft.
End Raft.
