(* ===== verification/RawNode.v ===== *)
(** * The raw node (src/src/raw_node.rs, src/src/status.rs)

    The interface between a node and the program that hosts it: the host feeds
    messages, ticks and proposals to the node, takes the work to do as a
    [Ready], persists, sends and applies what it holds, and reports back. *)
From S2P Require Import Prelude Errors Eraftpb ProtoConf Util Unstable Storage RaftLog Quorum Inflights Progress.
From S2P Require Import Tracker ConfChange ReadOnly Config Raft.

Inductive SnapshotStatus : Type := Finish | Failure.
#[export] Instance SnapshotStatus_eq_dec : EqDecision SnapshotStatus.
Proof. solve_decision. Defined.

Definition is_local_msg (t : MessageType) : bool :=
  match t with
  | MsgHup | MsgBeat | MsgUnreachable | MsgSnapStatus | MsgCheckQuorum => true
  | _ => false
  end.

Definition is_response_msg (t : MessageType) : bool :=
  match t with
  | MsgAppendResponse | MsgRequestVoteResponse | MsgHeartbeatResponse | MsgUnreachable
  | MsgRequestPreVoteResponse => true
  | _ => false
  end.

(** [Snapshot::is_empty]. *)
Definition snapshot_is_empty (s : Snapshot) : bool := sm_index (s_metadata s) =? 0.

(** A type that implements [ConfChangeI]. *)
Inductive ConfChangeI : Type :=
| V1 (cc : ConfChange)
| V2 (cc : ConfChangeV2).

Definition as_v1 (cc : ConfChangeI) : option ConfChange :=
  match cc with V1 c => Some c | V2 _ => None end.
Definition as_v2 (cc : ConfChangeI) : ConfChangeV2 :=
  match cc with V1 c => ProtoConf.into_v2 c | V2 c => c end.

(** ** Ready *)

Record LightReady : Type := mkLightReady {
  lr_commit_index : option N;
  lr_committed_entries : list Entry;
  lr_messages : list Message
}.
#[export] Instance eta_LightReady : Eta LightReady := λ r,
  mkLightReady (lr_commit_index r) (lr_committed_entries r) (lr_messages r).
Definition default_LightReady : LightReady := mkLightReady None [] [].

Record Ready : Type := mkReady {
  rd_number : N;
  rd_ss : option SoftState;
  rd_hs : option HardState;
  rd_read_states : list ReadState;
  rd_entries : list Entry;
  rd_snapshot : Snapshot;
  rd_is_persisted_msg : bool;
  rd_witness_messages : list WitnessMessage;
  rd_light : LightReady;
  rd_must_sync : bool
}.
#[export] Instance eta_Ready : Eta Ready := λ r,
  mkReady (rd_number r) (rd_ss r) (rd_hs r) (rd_read_states r) (rd_entries r) (rd_snapshot r)
    (rd_is_persisted_msg r) (rd_witness_messages r) (rd_light r) (rd_must_sync r).
Definition default_Ready : Ready := mkReady 0 None None [] [] default_Snapshot false [] default_LightReady false.

Definition rd_committed_entries (rd : Ready) : list Entry := lr_committed_entries (rd_light rd).
Definition rd_messages (rd : Ready) : list Message :=
  if negb (rd_is_persisted_msg rd) then lr_messages (rd_light rd) else [].
Definition rd_persisted_messages (rd : Ready) : list Message :=
  if rd_is_persisted_msg rd then lr_messages (rd_light rd) else [].

Definition take_read_states (rd : Ready) : Ready * list ReadState :=
  (rd <| rd_read_states := [] |>, rd_read_states rd).
Definition take_entries (rd : Ready) : Ready * list Entry := (rd <| rd_entries := [] |>, rd_entries rd).
Definition take_committed_entries (rd : Ready) : Ready * list Entry :=
  (rd <| rd_light ::= λ l, l <| lr_committed_entries := [] |> |>, rd_committed_entries rd).
Definition take_messages (rd : Ready) : Ready * list Message :=
  if negb (rd_is_persisted_msg rd)
  then (rd <| rd_light ::= λ l, l <| lr_messages := [] |> |>, lr_messages (rd_light rd)) else (rd, []).
Definition take_persisted_messages (rd : Ready) : Ready * list Message :=
  if rd_is_persisted_msg rd
  then (rd <| rd_light ::= λ l, l <| lr_messages := [] |> |>, lr_messages (rd_light rd)) else (rd, []).
Definition take_witness_messages (rd : Ready) : Ready * list WitnessMessage :=
  (rd <| rd_witness_messages := [] |>, rd_witness_messages rd).

(** What is remembered of a [Ready] until it is persisted. *)
Record ReadyRecord : Type := mkReadyRecord {
  rr_number : N;
  rr_last_entry : option (N * N);
  rr_snapshot : option (N * N)
}.
#[export] Instance eta_ReadyRecord : Eta ReadyRecord := λ r,
  mkReadyRecord (rr_number r) (rr_last_entry r) (rr_snapshot r).

(** [Status]; [progress] is borrowed from the node. *)
Record Status : Type := mkStatus {
  st_id : N;
  st_hs : HardState;
  st_ss : SoftState;
  st_applied : N;
  st_progress : option Tracker.t
}.

Module RawNode.

Record t (S : Type) : Type := mk {
  raft : Raft.t S;
  prev_ss : SoftState;
  prev_hs : HardState;
  max_number : N;
  records : list ReadyRecord;
  commit_since_index : N
}.
Arguments mk {S} _ _ _ _ _ _.
Arguments raft {S} _.
Arguments prev_ss {S} _.
Arguments prev_hs {S} _.
Arguments max_number {S} _.
Arguments records {S} _.
Arguments commit_since_index {S} _.
#[global] Instance eta_t S : Eta (t S) := λ n,
  mk (raft n) (prev_ss n) (prev_hs n) (max_number n) (records n) (commit_since_index n).

Section raw_node.
Context {S : Type} `{Storage S} `{Proto} `{HashOrder} `{Rand}.
Implicit Types n : t S.

Definition new (c : Config.t) (store : S) : outcome (Result (t S)) :=
  _ ← rassert (negb (Config.id c =? 0));
  r ← Raft.new c store;
  match r with
  | Err e => mret (Err e)
  | Ok r => mret (Ok (mk r (Raft.soft_state r) (Raft.hard_state r) 0 [] (Config.applied c)))
  end.

(** A call to the node whose result is returned, or dropped. *)
Definition on_raft {A} n (o : outcome (Raft.t S * A)) : outcome (t S * A) :=
  '(r, a) ← o; mret (n <| raft := r |>, a).
Definition in_raft n (o : outcome (Raft.t S)) : outcome (t S) := r ← o; mret (n <| raft := r |>).
Definition drop_result n (o : outcome (Raft.t S * Result unit)) : outcome (t S) :=
  '(r, _) ← o; mret (n <| raft := r |>).

Definition set_priority n (p : Z) : t S := n <| raft ::= λ r, Raft.set_priority r p |>.
Definition tick n : outcome (t S * bool) := on_raft n (Raft.tick (raft n)).

Definition campaign n : outcome (t S * Result unit) :=
  on_raft n (Raft.step (raft n) (default_Message <| m_msg_type := MsgHup |>)).

Definition propose n (context data : bytes) : outcome (t S * Result unit) :=
  let e := default_Entry <| e_data := data |> <| e_context := context |> in
  on_raft n (Raft.step (raft n) (default_Message <| m_msg_type := MsgPropose |>
                                  <| m_from := Raft.id (raft n) |> <| m_entries := [e] |>)).

Definition ping n : outcome (t S) := in_raft n (Raft.ping (raft n)).

Definition propose_conf_change n (context : bytes) (cc : ConfChangeI) : outcome (t S * Result unit) :=
  let encoded := match as_v1 cc with
                 | Some cc => data ← encode_conf_change cc; mret (data, EntryConfChange)
                 | None => data ← encode_conf_change_v2 (as_v2 cc); mret (data, EntryConfChangeV2)
                 end in
  match encoded with
  | Err e => mret (n, Err e)
  | Ok (data, ty) =>
    let e := default_Entry <| e_entry_type := ty |> <| e_data := data |> <| e_context := context |> in
    on_raft n (Raft.step (raft n) (default_Message <| m_msg_type := MsgPropose |> <| m_entries := [e] |>))
  end.

Definition apply_conf_change n (cc : ConfChangeI) : outcome (t S * Result ConfState) :=
  on_raft n (Raft.apply_conf_change (raft n) (as_v2 cc)).

Definition step n (m : Message) : outcome (t S * Result unit) :=
  if is_local_msg (m_msg_type m) then mret (n, Err StepLocalMsg)
  else if bool_decide (is_Some (Tracker.get (Raft.prs (raft n)) (m_from m)))
          || negb (is_response_msg (m_msg_type m))
  then on_raft n (Raft.step (raft n) m)
  else mret (n, Err StepPeerNotFound).

Definition confirm_witness_append n (witness_id : N) : outcome (t S) :=
  in_raft n (Raft.confirm_witness_append (raft n) witness_id).
Definition reject_witness_append n (witness_id : N) : t S :=
  n <| raft ::= λ r, Raft.reject_witness_append r witness_id |>.

Definition on_entries_fetched n (context : GetEntriesContext) : outcome (t S) :=
  match context with
  | SendAppend to tm aggressively =>
    if negb (Raft.term (raft n) =? tm) || negb (Raft.is_role (raft n) Leader) then mret n
    else if bool_decide (Tracker.get (Raft.prs (raft n)) to = None) then mret n
    else in_raft n (if (aggressively : bool) then Raft.send_append_aggressively (raft n) to
                    else Raft.send_append (raft n) to)
  | ForEmpty true => mret n
  | _ => Panicked
  end.

(** ** Taking the work *)

Definition gen_light_ready n : outcome (t S * LightReady) :=
  let max_size := Some (Raft.max_committed_size_per_ready (raft n)) in
  '(l, ents) ← RaftLog.next_entries_since (Raft.raft_log (raft n)) (commit_since_index n) max_size;
  let ents := default [] ents in
  let r := Raft.reduce_uncommitted_size ((raft n) <| Raft.raft_log := l |>) ents in
  since ← match last ents with
          | Some e => _ ← rassert (commit_since_index n <? e_index e); mret (e_index e)
          | None => mret (commit_since_index n)
          end;
  mret (n <| raft := r <| Raft.msgs := [] |> |> <| commit_since_index := since |>,
        mkLightReady None ents (Raft.msgs r)).

(** The records left when a node has become leader since the last [Ready]. *)
Definition drain_records n : outcome (t S) :=
  if negb (bool_decide (ss_raft_state (prev_ss n) = Leader)) && Raft.is_role (raft n) Leader then
    _ ← rassert (forallb (λ rr, bool_decide (rr_last_entry rr = None) && bool_decide (rr_snapshot rr = None))
                   (records n));
    mret (n <| records := [] |>)
  else mret n.

(** The snapshot part of [ready]. *)
Definition ready_snapshot n (rd : Ready) (rr : ReadyRecord) : outcome (t S * Ready * ReadyRecord) :=
  match RaftLog.unstable_snapshot (Raft.raft_log (raft n)) with
  | None => mret (n, rd, rr)
  | Some snap =>
    let index := sm_index (s_metadata snap) in
    _ ← rassert (commit_since_index n <=? index);
    let n := n <| commit_since_index := index |> in
    has_next ← RaftLog.has_next_entries_since (Raft.raft_log (raft n)) (commit_since_index n);
    _ ← rassert (negb has_next);
    mret (n, rd <| rd_snapshot := snap |> <| rd_must_sync := true |>,
          rr <| rr_snapshot := Some (index, sm_term (s_metadata snap)) |>)
  end.

Definition ready n : outcome (t S * Ready) :=
  let n := n <| max_number ::= λ k, k +w 1 |> in
  let rd := default_Ready <| rd_number := max_number n |> in
  let rr := mkReadyRecord (max_number n) None None in
  n ← drain_records n;
  let ss := Raft.soft_state (raft n) in
  let rd := if bool_decide (ss = prev_ss n) then rd else rd <| rd_ss := Some ss |> in
  let hs := Raft.hard_state (raft n) in
  let rd := if bool_decide (hs = prev_hs n) then rd
            else rd <| rd_hs := Some hs |>
                    <| rd_must_sync := negb (hs_vote hs =? hs_vote (prev_hs n))
                                       || negb (hs_term hs =? hs_term (prev_hs n)) |> in
  let rd := rd <| rd_read_states := Raft.read_states (raft n) |> in
  let n := n <| raft ::= λ r, r <| Raft.read_states := [] |> |> in
  '(n, rd, rr) ← ready_snapshot n rd rr;
  let ents := RaftLog.unstable_entries (Raft.raft_log (raft n)) in
  let rd := rd <| rd_entries := ents |> in
  let '(rd, rr) := match last ents with
                   | Some e => (rd <| rd_must_sync := true |>,
                                rr <| rr_last_entry := Some (e_index e, e_term e) |>)
                   | None => (rd, rr)
                   end in
  let rd := rd <| rd_is_persisted_msg := negb (Raft.is_role (raft n) Leader) |> in
  let rd := rd <| rd_witness_messages := Raft.witness_msgs (raft n) |> in
  let n := n <| raft ::= λ r, r <| Raft.witness_msgs := [] |> |> in
  '(n, light) ← gen_light_ready n;
  mret (n <| records ::= λ l, l ++ [rr] |>, rd <| rd_light := light |>).

Definition snap n : option Snapshot := Raft.snap (raft n).

Definition has_ready n : outcome bool :=
  let r := raft n in
  if negb (bool_decide (Raft.msgs r = [])) then mret true
  else if negb (bool_decide (Raft.witness_msgs r = [])) then mret true
  else if negb (bool_decide (Raft.soft_state r = prev_ss n)) then mret true
  else if negb (bool_decide (Raft.hard_state r = prev_hs n)) then mret true
  else if negb (bool_decide (Raft.read_states r = [])) then mret true
  else if negb (bool_decide (RaftLog.unstable_entries (Raft.raft_log r) = [])) then mret true
  else if match snap n with Some s => negb (snapshot_is_empty s) | None => false end then mret true
  else RaftLog.has_next_entries_since (Raft.raft_log r) (commit_since_index n).

(** ** Reporting back *)

Definition commit_ready n (rd : Ready) : outcome (t S) :=
  let n := match rd_ss rd with Some ss => n <| prev_ss := ss |> | None => n end in
  let n := match rd_hs rd with Some hs => n <| prev_hs := hs |> | None => n end in
  rr ← unwrap (last (records n));
  _ ← rassert (rr_number rr =? rd_number rd);
  let l := Raft.raft_log (raft n) in
  l ← match rr_snapshot rr with Some (index, _) => RaftLog.stable_snap l index | None => mret l end;
  l ← match rr_last_entry rr with Some (index, tm) => RaftLog.stable_entries l index tm | None => mret l end;
  mret (n <| raft ::= λ r, r <| Raft.raft_log := l |> |>).

Definition commit_apply n (applied : N) : outcome (t S) := in_raft n (Raft.commit_apply (raft n) applied).

(** The records up to [number], and the last snapshot index and the last
    entry's index and term they leave to be persisted. *)
Fixpoint pop_records (number : N) (rrs : list ReadyRecord) (index tm snap_index : N)
    : list ReadyRecord * (N * N * N) :=
  match rrs with
  | [] => ([], (index, tm, snap_index))
  | rr :: rrs' =>
    if number <? rr_number rr then (rrs, (index, tm, snap_index))
    else
      let '(index, tm, snap_index) :=
        match rr_snapshot rr with Some (i, _) => (0, 0, i) | None => (index, tm, snap_index) end in
      let '(index, tm) := match rr_last_entry rr with Some (i, t) => (i, t) | None => (index, tm) end in
      pop_records number rrs' index tm snap_index
  end.

Definition on_persist_ready n (number : N) : outcome (t S) :=
  let '(rrs, (index, tm, snap_index)) := pop_records number (records n) 0 0 0 in
  let n := n <| records := rrs |> in
  n ← (if negb (snap_index =? 0) then in_raft n (Raft.on_persist_snap (raft n) snap_index) else mret n);
  if negb (index =? 0) then in_raft n (Raft.on_persist_entries (raft n) index tm) else mret n.

Definition advance_append n (rd : Ready) : outcome (t S * LightReady) :=
  n ← commit_ready n rd;
  n ← on_persist_ready n (max_number n);
  '(n, light) ← gen_light_ready n;
  if negb (Raft.is_role (raft n) Leader) && negb (bool_decide (lr_messages light = [])) then Panicked
  else
    let hs := Raft.hard_state (raft n) in
    '(n, light) ← (if hs_commit (prev_hs n) <? hs_commit hs
                   then mret (n <| prev_hs ::= λ h, h <| hs_commit := hs_commit hs |> |>,
                              light <| lr_commit_index := Some (hs_commit hs) |>)
                   else _ ← rassert (hs_commit hs =? hs_commit (prev_hs n));
                        mret (n, light <| lr_commit_index := None |>));
    _ ← rassert (bool_decide (hs = prev_hs n));
    mret (n, light).

Definition advance_append_async n (rd : Ready) : outcome (t S) := commit_ready n rd.
Definition advance_apply_to n (applied : N) : outcome (t S) := commit_apply n applied.
Definition advance_apply n : outcome (t S) := commit_apply n (commit_since_index n).

Definition advance n (rd : Ready) : outcome (t S * LightReady) :=
  let applied := commit_since_index n in
  '(n, light) ← advance_append n rd;
  n ← advance_apply_to n applied;
  mret (n, light).

(** [Status::new]. *)
Definition status n : Status :=
  let r := raft n in
  mkStatus (Raft.id r) (Raft.hard_state r) (Raft.soft_state r) (RaftLog.applied (Raft.raft_log r))
    (if Raft.is_role r Leader then Some (Raft.prs r) else None).

Definition report_unreachable n (id : N) : outcome (t S) :=
  drop_result n (Raft.step (raft n) (default_Message <| m_msg_type := MsgUnreachable |> <| m_from := id |>)).
Definition report_snapshot n (id : N) (status : SnapshotStatus) : outcome (t S) :=
  drop_result n (Raft.step (raft n) (default_Message <| m_msg_type := MsgSnapStatus |> <| m_from := id |>
                                      <| m_reject := bool_decide (status = Failure) |>)).
Definition request_snapshot n : outcome (t S * Result unit) := on_raft n (Raft.request_snapshot (raft n)).
Definition transfer_leader n (transferee : N) : outcome (t S) :=
  drop_result n (Raft.step (raft n) (default_Message <| m_msg_type := MsgTransferLeader |>
                                      <| m_from := transferee |>)).
Definition read_index n (rctx : bytes) : outcome (t S) :=
  drop_result n (Raft.step (raft n) (default_Message <| m_msg_type := MsgReadIndex |>
                                      <| m_entries := [default_Entry <| e_data := rctx |>] |>)).
Definition store n : S := RaftLog.store (Raft.raft_log (raft n)).
(** What the host makes of the storage behind [mut_store]. *)
Definition mut_store n (s : S) : t S :=
  n <| raft ::= λ r, r <| Raft.raft_log ::= λ l, l <| RaftLog.store := s |> |> |>.
Definition skip_bcast_commit n (skip : bool) : t S := n <| raft ::= λ r, Raft.set_skip_bcast_commit r skip |>.
Definition set_batch_append n (b : bool) : t S := n <| raft ::= λ r, Raft.set_batch_append r b |>.
End raw_node.
End RawNode.
