(* ===== verification/RaftFrame.v ===== *)
(** * What the operations of a node leave alone

    Relations between the state before and after an operation, closed under
    composition, and the tactics that follow an operation's control flow. *)
From S2P Require Import Prelude Errors Eraftpb ProtoConf Util Unstable Storage RaftLog Quorum Inflights Progress.
From S2P Require Import Tracker ConfChange ReadOnly Config Raft.

(** ** Following the control flow of code that did not panic *)

(** [inv_done H] decomposes [H : code = Done v]: binds, conditionals and
    matches, down to the calls the code made. *)
Ltac inv_done H :=
  cbv beta zeta in H;
  lazymatch type of H with
  | (_ ≫= _) = Done _ =>
    let x := fresh "x" in let H1 := fresh "Hc" in
    apply outcome_bind_Done in H; destruct H as (x & H1 & H); inv_done H1; inv_done H
  | (match ?x with _ => _ end) = Done _ => destruct x eqn:?; inv_done H
  | mret _ = Done _ => unfold mret, outcome_ret in H; inv_done H
  | Done _ = Done _ => injection H; clear H; intros; subst
  | Panicked = Done _ => discriminate H
  | rassert _ = Done _ => apply rassert_Done in H
  | unwrap _ = Done _ => apply unwrap_Done in H
  | _ => idtac
  end.

(** ** Reading the log changes at most the storage *)

Section log_read.
Context {S : Type} `{Storage S} `{Proto}.
Implicit Types l : RaftLog.t S.

(** One read of a storage. *)
Inductive st_read : S → S → Prop :=
| read_entries s lo hi max ctx s' x : st_entries s lo hi max ctx = Done (s', x) → st_read s s'
| read_snapshot s i to s' x : st_snapshot s i to = Done (s', x) → st_read s s'.

Definition log_read l l' : Prop :=
  l' = l <| RaftLog.store := RaftLog.store l' |> ∧ rtc st_read (RaftLog.store l) (RaftLog.store l').

#[export] Instance log_read_preorder : PreOrder log_read.
Proof.
  split.
  - intros l. split; [by destruct l|done].
  - intros l1 l2 l3 [H12 R12] [H23 R23]. split; [rewrite H23, H12; by destruct l1|by etrans].
Qed.

Lemma log_read_store l st : st_read (RaftLog.store l) st → log_read l (l <| RaftLog.store := st |>).
Proof. intros Hr. split; [done|by apply rtc_once]. Qed.

Lemma slice_read l lo hi max ctx l' x : RaftLog.slice l lo hi max ctx = Done (l', x) → log_read l l'.
Proof.
  unfold RaftLog.slice. intros Hs. inv_done Hs; try reflexivity; apply log_read_store; by eapply read_entries.
Qed.
End log_read.

Section log_read_more.
Context {S : Type} `{Storage S} `{Proto}.
Implicit Types l : RaftLog.t S.

Lemma entries_read l i max ctx l' x : RaftLog.entries l i max ctx = Done (l', x) → log_read l l'.
Proof. unfold RaftLog.entries. intros Hs. inv_done Hs; [reflexivity|]. by eapply slice_read. Qed.

Lemma snapshot_read l i to l' x : RaftLog.snapshot l i to = Done (l', x) → log_read l l'.
Proof.
  unfold RaftLog.snapshot. intros Hs. inv_done Hs; try reflexivity; apply log_read_store; by eapply read_snapshot.
Qed.

Lemma scan_loop_read {A} fuel l lo hi page ctx (v : A → list Entry → A * bool) a l' a' x :
  RaftLog.scan_loop l fuel lo hi page ctx v a = Done (l', a', x) → log_read l l'.
Proof.
  revert l lo a. induction fuel as [|fuel IH]; intros l lo a Hs; cbn [RaftLog.scan_loop] in Hs.
  - inv_done Hs. reflexivity.
  - inv_done Hs; try reflexivity; match goal with H : RaftLog.slice _ _ _ _ _ = _ |- _ =>
      apply slice_read in H end; try done. etrans; [done|]. by eapply IH.
Qed.

Lemma log_read_fields l l' : log_read l l' →
  RaftLog.unstable l' = RaftLog.unstable l ∧ RaftLog.committed l' = RaftLog.committed l ∧
  RaftLog.persisted l' = RaftLog.persisted l ∧ RaftLog.applied l' = RaftLog.applied l.
Proof. intros [-> _]. done. Qed.

(** The commit index only advances. *)
Lemma commit_to_mono l k l' : RaftLog.commit_to l k = Done l' →
  RaftLog.committed l ≤ RaftLog.committed l' ∧ l' = l <| RaftLog.committed := RaftLog.committed l' |>.
Proof.
  unfold RaftLog.commit_to. intros Hs. destruct (N.leb_spec k (RaftLog.committed l)).
  - inv_done Hs. split; [done|]. by destruct l'.
  - inv_done Hs. simpl. split; [lia|done].
Qed.

Lemma log_maybe_commit_mono l k tm l' b : RaftLog.maybe_commit l k tm = Done (l', b) →
  RaftLog.committed l ≤ RaftLog.committed l' ∧ l' = l <| RaftLog.committed := RaftLog.committed l' |>.
Proof.
  unfold RaftLog.maybe_commit. intros Hs. inv_done Hs; try (split; [done|by destruct l']).
  by eapply commit_to_mono.
Qed.

Lemma log_append_fields l ents l' x : RaftLog.append l ents = Done (l', x) →
  l' = l <| RaftLog.unstable := RaftLog.unstable l' |>.
Proof. unfold RaftLog.append. intros Hs. inv_done Hs; by try destruct l'. Qed.

Lemma log_append_committed l ents l' x : RaftLog.append l ents = Done (l', x) →
  RaftLog.committed l' = RaftLog.committed l.
Proof. intros Hs. by rewrite (log_append_fields _ _ _ _ Hs). Qed.

Lemma log_maybe_append_mono l idx tm c ents l' x : RaftLog.maybe_append l idx tm c ents = Done (l', x) →
  RaftLog.committed l ≤ RaftLog.committed l'.
Proof.
  unfold RaftLog.maybe_append. intros Hs. inv_done Hs;
    repeat match goal with
    | H : RaftLog.commit_to _ _ = Done _ |- _ => apply commit_to_mono in H as [? _]
    | H : RaftLog.append _ _ = Done _ |- _ => apply log_append_committed in H
    end; try case_match; simpl in *; lia.
Qed.
End log_read_more.

(** ** Operations that only send and read *)
Section quiet.
Context {S : Type} `{Storage S} `{Proto}.
Implicit Types r : Raft.t S.

(** A message that grants a vote. *)
Definition is_grant (m : Message) : bool := is_type m MsgRequestVoteResponse && negb (m_reject m).

(** A message that neither grants a vote nor carries entries. *)
Definition is_plain (m : Message) : bool := negb (is_grant m) && negb (is_type m MsgAppend).

(** No vote was granted between [r] and [r']. *)
Definition no_grants r r' : Prop := ∀ m, m ∈ Raft.msgs r' → is_grant m = true → m ∈ Raft.msgs r.

(** An append message whose content was read from the log between [l0] and [l]. *)
Definition told (l0 l : RaftLog.t S) (m : Message) : Prop :=
  ∃ l1 next max ctx l2, log_read l0 l1 ∧ log_read l2 l ∧ m_index m = next -w 1 ∧
    RaftLog.entries l1 next max ctx = Done (l2, Ok (m_entries m)) ∧
    RaftLog.term l2 (m_index m) = Done (Ok (m_log_term m)).

(** Every append to be sent was to be sent before or was read from the log:
    without batching, appends stay as they were read. *)
Definition tells r r' : Prop := Raft.batch_append r = false →
  ∀ m, m ∈ Raft.msgs r' → m_msg_type m = MsgAppend →
  m ∈ Raft.msgs r ∨ told (Raft.raft_log r) (Raft.raft_log r') m.

Lemma told_read l0 l l0' l' m : told l l' m → log_read l0 l → log_read l' l0' → told l0 l0' m.
Proof.
  intros (l1 & next & max & ctx & l2 & R1 & R2 & E) Ha Hb. exists l1, next, max, ctx, l2.
  split; [by etrans|]. split; [by etrans|done].
Qed.

(** Nothing that concerns terms, votes, roles or the log has changed: only
    messages, progress, pending reads and the storage behind the log may have. *)
Record quiet r r' : Prop := mk_quiet {
  q_term : Raft.term r' = Raft.term r;
  q_vote : Raft.vote r' = Raft.vote r;
  q_id : Raft.id r' = Raft.id r;
  q_state : Raft.state r' = Raft.state r;
  q_leader : Raft.leader_id r' = Raft.leader_id r;
  q_votes : Tracker.votes (Raft.prs r') = Tracker.votes (Raft.prs r);
  q_conf : Tracker.conf (Raft.prs r') = Tracker.conf (Raft.prs r);
  q_grants : no_grants r r';
  q_batch : Raft.batch_append r' = Raft.batch_append r;
  q_tells : tells r r';
  q_log : log_read (Raft.raft_log r) (Raft.raft_log r')
}.

#[export] Instance no_grants_preorder : PreOrder no_grants.
Proof. split; [intros r m; auto|]. intros r1 r2 r3 H12 H23 m Hm Hg. auto. Qed.

#[export] Instance quiet_preorder : PreOrder quiet.
Proof.
  split; [intros r; split; try done; by left|].
  intros r1 r2 r3 [? ? ? ? ? ? ? ? B1 T1 ?] [? ? ? ? ? ? ? ? B2 T2 ?]. split; try congruence; try by etrans.
  intros Hb m Hm Hty. destruct (T2 ltac:(congruence) m Hm Hty) as [Hm2|]; [|by right; eapply told_read].
  destruct (T1 Hb m Hm2 Hty); [by left|right]. by eapply told_read.
Qed.

(** The log may have grown and its commit index advanced. *)
Record advances r r' : Prop := mk_advances {
  adv_id : Raft.id r' = Raft.id r;
  adv_term : Raft.term r ≤ Raft.term r';
  adv_vote : Raft.term r' = Raft.term r → Raft.vote r ≠ 0 → Raft.vote r' = Raft.vote r;
  adv_commit : RaftLog.committed (Raft.raft_log r) ≤ RaftLog.committed (Raft.raft_log r')
}.

#[export] Instance advances_preorder : PreOrder advances.
Proof.
  split; [intros r; by split|].
  intros r1 r2 r3 [I1 T1 V1 C1] [I2 T2 V2 C2]. split; [congruence|lia| |lia].
  intros E Hnz. rewrite V2; [apply V1; [lia|done]|lia|]. by rewrite V1 by (done || lia).
Qed.

(** Besides, no vote was granted and nobody rose to candidate or leader. *)
Record calm r r' : Prop := mk_calm {
  cm_adv : advances r r';
  cm_grants : no_grants r r';
  cm_leader : Raft.state r' = Leader → Raft.state r = Leader ∧ Raft.term r' = Raft.term r;
  cm_cand : Raft.state r' = Candidate → Raft.state r = Candidate ∧ Raft.term r' = Raft.term r ∧
    Tracker.votes (Raft.prs r') = Tracker.votes (Raft.prs r)
}.

#[export] Instance calm_preorder : PreOrder calm.
Proof.
  split; [intros r; split; done|].
  intros r1 r2 r3 [A1 G1 L1 C1] [A2 G2 L2 C2]. split; [by etrans|by etrans| |].
  - intros [Hs Ht]%L2. apply L1 in Hs as [? ?]. split; congruence.
  - intros (Hs & Ht & Hv)%C2. apply C1 in Hs as (? & ? & ?). split_and!; congruence.
Qed.

Lemma quiet_advances r r' : quiet r r' → advances r r'.
Proof. intros [? ? ? ? ? ? ? ? ? _ Hl]. destruct (log_read_fields _ _ Hl) as (_ & ? & _). split; congruence || lia. Qed.

Lemma quiet_calm r r' : quiet r r' → calm r r'.
Proof.
  intros Hq. pose proof (quiet_advances _ _ Hq). destruct Hq. split; [done|done| |]; intros; split_and!; congruence.
Qed.
End quiet.

(** Solving [no_grants a b] when the messages are the same. *)
Ltac same_msgs := let Hin := fresh in intros ? Hin ?; exact Hin.

(** Solving [quiet a b] by the calls between [a] and [b]. *)
(** The same for [tells a b]. *)
Ltac same_appends := let Hm := fresh in intros _ ? Hm _; left; exact Hm.
Ltac quiet_upd := split; simpl; try reflexivity; try assumption; try same_msgs; try same_appends.
Ltac quiet_solve :=
  lazymatch goal with
  | |- quiet ?a ?b =>
    first [ reflexivity
          | assumption
          | match goal with H : quiet ?x b |- _ => etrans; [|exact H]; clear H; quiet_solve end
          | lazymatch b with
            | upd _ _ ?x => apply (transitivity (y := x)); [quiet_solve|solve [quiet_upd]]
            | Raft.set_pr ?x _ _ => apply (transitivity (y := x)); [quiet_solve|solve [quiet_upd]]
            | Raft.set_epoch ?x _ => apply (transitivity (y := x)); [quiet_solve|solve [quiet_upd]]
            end ]
  end.

Section quiet_ops.
Context {S : Type} `{Storage S} `{Proto} `{HashOrder} `{Rand}.
Implicit Types r : Raft.t S.

(** A sent message keeps its type, addressee and answer; the sender is filled
    in, and a campaign message carries the term it was given. *)
Lemma send_spec r m r' : Raft.send r m = Done r' →
  ∃ m', r' = r <| Raft.msgs ::= λ l, l ++ [m'] |> ∧
    m_msg_type m' = m_msg_type m ∧ m_reject m' = m_reject m ∧ m_to m' = m_to m ∧
    m_from m' = (if m_from m =? 0 then Raft.id r else m_from m) ∧
    (Raft.is_campaign_msg m = true → m_term m' = m_term m ∧ m_term m ≠ 0) ∧
    m_index m' = m_index m ∧ m_log_term m' = m_log_term m ∧ m_entries m' = m_entries m.
Proof.
  unfold Raft.send. intros Hs. unfold INVALID_ID in Hs.
  set (m1 := if m_from m =? 0 then m <| m_from := Raft.id r |> else m) in Hs.
  assert (m_msg_type m1 = m_msg_type m ∧ m_reject m1 = m_reject m ∧ m_to m1 = m_to m ∧ m_term m1 = m_term m ∧
    m_from m1 = (if m_from m =? 0 then Raft.id r else m_from m) ∧
    m_index m1 = m_index m ∧ m_log_term m1 = m_log_term m ∧ m_entries m1 = m_entries m)
    as (E1 & E2 & E3 & E4 & E5 & E6 & E7 & E8)
    by (unfold m1; destruct (m_from m =? 0); done).
  assert (Raft.is_campaign_msg m1 = Raft.is_campaign_msg m) as Ec
    by (unfold Raft.is_campaign_msg, is_type; by rewrite E1).
  apply outcome_bind_Done in Hs as (m2 & Hm2 & Hs). inv_done Hs. eexists. split; [reflexivity|].
  assert (m_msg_type m2 = m_msg_type m1 ∧ m_reject m2 = m_reject m1 ∧ m_to m2 = m_to m1 ∧ m_from m2 = m_from m1 ∧
    (Raft.is_campaign_msg m1 = true → m_term m2 = m_term m1 ∧ m_term m1 ≠ 0) ∧
    m_index m2 = m_index m1 ∧ m_log_term m2 = m_log_term m1 ∧ m_entries m2 = m_entries m1)
    as (F1 & F2 & F3 & F4 & F5 & F6 & F7 & F8).
  { inv_done Hm2; simpl; split_and!; try done; intros; try congruence. split; [done|]. by apply N.eqb_neq. }
  rewrite Ec in F5. repeat case_match; simpl; (split_and!; try congruence); intros Hcm;
    destruct (F5 Hcm); split; congruence.
Qed.

(** Sending is quiet unless it grants a vote, for an append if its content was
    read from the log. *)
Lemma send_read_quiet r0 r m r' : quiet r0 r → Raft.send r m = Done r' → is_grant m = false →
  (m_msg_type m = MsgAppend → told (Raft.raft_log r0) (Raft.raft_log r) m) → quiet r0 r'.
Proof.
  intros [] (m' & -> & E1 & E2 & _ & _ & _ & E3 & E4 & E5)%send_spec Hg Ht. split; try done.
  - intros m0 Hin Hg0. simpl in Hin.
    apply elem_of_app in Hin as [|Hin%list_elem_of_singleton]; [auto|]. subst.
    exfalso. revert Hg Hg0. unfold is_grant, is_type. rewrite E1, E2. intros ->. done.
  - intros Hb m0 Hin Hty. simpl in Hin. apply elem_of_app in Hin as [|Hin%list_elem_of_singleton]; [auto|right].
    subst. rewrite E1 in Hty. unfold told. rewrite E3, E4, E5. by apply Ht.
Qed.

Lemma send_quiet r m r' : Raft.send r m = Done r' → is_plain m = true → quiet r r'.
Proof.
  unfold is_plain, is_type. intros Hs [Hg Hty]%andb_true_iff. apply negb_true_iff in Hg, Hty.
  apply bool_decide_eq_false in Hty. by eapply send_read_quiet; [reflexivity|..].
Qed.

Lemma prepare_send_snapshot_quiet r m pr to r' m' pr' b :
  Raft.prepare_send_snapshot r m pr to = Done (r', m', pr', b) →
  quiet r r' ∧ (is_plain m = true → is_plain m' = true).
Proof.
  unfold Raft.prepare_send_snapshot. intros Hs. inv_done Hs; (split; [|by intros]); try reflexivity;
    match goal with H : RaftLog.snapshot _ _ _ = _ |- _ => apply snapshot_read in H end; quiet_upd.
Qed.

Lemma prepare_send_entries_spec r m pr tm ents m' pr' :
  Raft.prepare_send_entries r m pr tm ents = Done (m', pr') →
  is_grant m' = false ∧ m_index m' = Progress.next_idx pr -w 1 ∧ m_log_term m' = tm ∧ m_entries m' = ents.
Proof. unfold Raft.prepare_send_entries. intros Hs. inv_done Hs; done. Qed.

Lemma batch_into_grants c to ms pr ents ms' pr' m :
  Raft.batch_into c to ms pr ents = Done (Some (ms', pr')) → m ∈ ms' → is_grant m = true → m ∈ ms.
Proof.
  revert ms' pr'. induction ms as [|m0 ms IH]; intros ms' pr' Hs Hin Hg; [done|].
  cbn [Raft.batch_into] in Hs.
  assert (is_type m0 MsgAppend = true → ∀ x : Message, m_msg_type x = m_msg_type m0 → m ≠ x) as Hne.
  { intros Hty x Ex ->. unfold is_grant, is_type in *. apply bool_decide_eq_true in Hty.
    by rewrite Ex, Hty in Hg. }
  destruct (is_type m0 MsgAppend && (m_to m0 =? to)) eqn:E.
  - apply andb_true_iff in E as [E _].
    inv_done Hs; simplify_eq; (apply elem_of_cons in Hin as [Heq|Hin]; [by eapply (Hne E) in Heq|by right]).
  - inv_done Hs. destruct x as [[ms1 pr1]|]; simplify_eq. apply elem_of_cons in Hin as [->|Hin]; [by left|].
    right. by eapply IH.
Qed.

Lemma try_batching_quiet r to pr ents r' pr' b :
  Raft.try_batching r to pr ents = Done (r', pr', b) → Raft.batch_append r = true → quiet r r'.
Proof.
  unfold Raft.try_batching. intros Hs Hb. inv_done Hs.
  destruct x as [[ms p]|]; simplify_eq; [|reflexivity]. split; try done.
  - intros m Hin Hg. by eapply batch_into_grants.
  - intros Hb'. congruence.
Qed.

End quiet_ops.

Lemma try_batching_not {S} `{Storage S} (r : Raft.t S) to pr ents r' pr' :
  Raft.try_batching r to pr ents = Done (r', pr', false) → r' = r ∧ pr' = pr.
Proof. unfold Raft.try_batching. intros Hs. inv_done Hs. by destruct x as [[ms p]|]; simplify_eq. Qed.

(** An append prepared from what was just read. *)
Section send_entries.
Context {S : Type} `{Storage S} `{Proto} `{HashOrder} `{Rand}.
Implicit Types r : Raft.t S.

Lemma send_entries_quiet r m0 pr tm ents m pr' r' l max ctx :
  RaftLog.entries (Raft.raft_log r) (Progress.next_idx pr) max ctx = Done (l, Ok ents) →
  RaftLog.term l (Progress.next_idx pr -w 1) = Done (Ok tm) →
  Raft.prepare_send_entries (r <| Raft.raft_log := l |>) m0 pr tm ents = Done (m, pr') →
  Raft.send (r <| Raft.raft_log := l |>) m = Done r' → quiet r r'.
Proof.
  intros He Ht (Hg & E1 & E2 & E3)%prepare_send_entries_spec Hs. pose proof (entries_read _ _ _ _ _ _ He) as Hr.
  eapply send_read_quiet; [|exact Hs|done|].
  - split; simpl; try done; first [same_msgs|same_appends].
  - intros _. exists (Raft.raft_log r), (Progress.next_idx pr), max, ctx, l. rewrite E1, E2, E3. by split_and!.
Qed.
End send_entries.

Lemma vote_resp_type ty ty' : vote_resp_msg_type ty = Done ty' →
  ty' = MsgRequestVoteResponse ∨ ty' = MsgRequestPreVoteResponse.
Proof. unfold vote_resp_msg_type. intros Hs. inv_done Hs; auto. Qed.

(** [quiet_calls] turns each call found by [inv_done] into what it preserves. *)
Ltac not_grant := solve [done | assumption | repeat case_match; done
  | unfold is_plain, is_grant, is_type; simpl; match goal with E : m_msg_type _ = _ |- _ => rewrite E end; done].
Ltac quiet_call H :=
  first [ apply send_quiet in H; [|not_grant]
        | (let Hg := fresh "Hg" in apply prepare_send_snapshot_quiet in H as [H Hg]; specialize (Hg eq_refl))
        | apply entries_read in H | apply snapshot_read in H ].
Ltac quiet_calls := repeat match goal with H : _ = Done _ |- _ => quiet_call H end.
Ltac quiet_op Hs := inv_done Hs; quiet_calls; quiet_solve.

Section quiet_ops2.
Context {S : Type} `{Storage S} `{Proto} `{HashOrder} `{Rand}.
Implicit Types r : Raft.t S.

Lemma maybe_send_append_quiet r to pr allow r' pr' b :
  Raft.maybe_send_append r to pr allow = Done (r', pr', b) → quiet r r'.
Proof.
  unfold Raft.maybe_send_append. intros Hs. inv_done Hs; try (quiet_calls; quiet_solve).
  - apply try_batching_quiet in Hc1; [quiet_calls; quiet_solve|done].
  - apply try_batching_not in Hc1 as [-> ->]. by eapply send_entries_quiet.
  - inv_done Hc1. by eapply send_entries_quiet.
Qed.

Lemma send_append_loop_quiet fuel r to pr r' pr' :
  Raft.send_append_loop fuel r to pr = Done (r', pr') → quiet r r'.
Proof.
  revert r pr. induction fuel as [|fuel IH]; intros r pr Hs; cbn [Raft.send_append_loop] in Hs; [done|].
  inv_done Hs; apply maybe_send_append_quiet in Hc; [|done]. etrans; [done|by eapply IH].
Qed.

Lemma send_append_quiet r to r' : Raft.send_append r to = Done r' → quiet r r'.
Proof. unfold Raft.send_append. intros Hs. inv_done Hs. apply maybe_send_append_quiet in Hc0. quiet_solve. Qed.

Lemma send_append_aggressively_quiet r to r' : Raft.send_append_aggressively r to = Done r' → quiet r r'.
Proof.
  unfold Raft.send_append_aggressively, Raft.core_send_append_aggressively. intros Hs. inv_done Hs.
  apply send_append_loop_quiet in Hc0. quiet_solve.
Qed.

Lemma send_append_each_quiet allow ids r r' : Raft.send_append_each allow ids r = Done r' → quiet r r'.
Proof.
  revert r. induction ids as [|i ids IH]; intros r Hs; cbn [Raft.send_append_each] in Hs.
  - inv_done Hs. reflexivity.
  - inv_done Hs; apply IH in Hs; [done|]. apply maybe_send_append_quiet in Hc0. quiet_solve.
Qed.

Lemma bcast_append_quiet r r' : Raft.bcast_append r = Done r' → quiet r r'.
Proof. apply send_append_each_quiet. Qed.

Lemma handle_ready_read_index_quiet r req i r' x :
  Raft.handle_ready_read_index r req i = Done (r', x) →
  quiet r r' ∧ (∀ m, x = Some m → is_plain m = true).
Proof. unfold Raft.handle_ready_read_index. intros Hs. inv_done Hs; (split; [quiet_solve|by intros; simplify_eq]). Qed.

Lemma respond_reads_quiet rss r r' : Raft.respond_reads rss r = Done r' → quiet r r'.
Proof.
  revert r. induction rss as [|rs rss IH]; intros r Hs; cbn [Raft.respond_reads] in Hs.
  - inv_done Hs. reflexivity.
  - inv_done Hs; apply IH in Hs; apply handle_ready_read_index_quiet in Hc as [? Hg];
      try specialize (Hg _ eq_refl); quiet_calls; quiet_solve.
Qed.

Lemma advance_reads_quiet r ctx r' : Raft.advance_reads r ctx = Done r' → quiet r r'.
Proof. unfold Raft.advance_reads. intros Hs. inv_done Hs. apply respond_reads_quiet in Hs. quiet_solve. Qed.

Lemma heartbeat_each_quiet ctx ids r r' : Raft.heartbeat_each ctx ids r = Done r' → quiet r r'.
Proof.
  revert r. induction ids as [|i ids IH]; intros r Hs; cbn [Raft.heartbeat_each] in Hs.
  - inv_done Hs. reflexivity.
  - inv_done Hs; apply IH in Hs; try done. unfold Raft.send_heartbeat in *. quiet_calls. quiet_solve.
Qed.

Lemma ack_witnesses_quiet ctx ws r r' : Raft.ack_witnesses ctx ws r = Done r' → quiet r r'.
Proof.
  revert r. induction ws as [|w ws IH]; intros r Hs; cbn [Raft.ack_witnesses] in Hs.
  - inv_done Hs. reflexivity.
  - inv_done Hs; [by apply IH|apply advance_reads_quiet in Hs|apply IH in Hs]; quiet_solve.
Qed.

Lemma bcast_heartbeat_with_ctx_quiet r ctx r' : Raft.bcast_heartbeat_with_ctx r ctx = Done r' → quiet r r'.
Proof.
  unfold Raft.bcast_heartbeat_with_ctx. intros Hs. inv_done Hs; apply heartbeat_each_quiet in Hc; [|done].
  apply ack_witnesses_quiet in Hs. quiet_solve.
Qed.

Lemma send_append_to_witness_quiet r w r' b : Raft.send_append_to_witness r w = Done (r', b) → quiet r r'.
Proof. unfold Raft.send_append_to_witness. intros Hs. quiet_op Hs. Qed.

Lemma send_request_vote_to_witness_quiet r w t tm r' :
  Raft.send_request_vote_to_witness r w t tm = Done r' → quiet r r'.
Proof. unfold Raft.send_request_vote_to_witness. intros Hs. quiet_op Hs. Qed.

Lemma replicate_witness_quiet r sub wi r' : Raft.replicate_witness r sub wi = Done r' → quiet r r'.
Proof.
  unfold Raft.replicate_witness. intros Hs. inv_done Hs; try quiet_solve;
    apply send_append_to_witness_quiet in Hc; quiet_solve.
Qed.

Lemma replicate_witnesses_quiet sub l r r' : Raft.replicate_witnesses sub l r = Done r' → quiet r r'.
Proof.
  revert r. induction l as [|wi l IH]; intros r Hs; cbn [Raft.replicate_witnesses] in Hs.
  - inv_done Hs. reflexivity.
  - inv_done Hs. apply IH in Hs. apply replicate_witness_quiet in Hc. quiet_solve.
Qed.

Lemma ask_witnesses_quiet t l r r' : Raft.ask_witnesses t l r = Done r' → quiet r r'.
Proof.
  revert r. induction l as [|[w b] l IH]; intros r Hs; cbn [Raft.ask_witnesses] in Hs.
  - inv_done Hs. reflexivity.
  - inv_done Hs; apply IH in Hs; [|done]. apply send_request_vote_to_witness_quiet in Hc. quiet_solve.
Qed.

Lemma request_votes_quiet vm tm c ct ty ids r r' :
  Raft.request_votes vm tm c ct ty ids r = Done r' → vm = MsgRequestVote ∨ vm = MsgRequestPreVote → quiet r r'.
Proof.
  intros Hs Hvm. revert r Hs. induction ids as [|i ids IH]; intros r Hs; cbn [Raft.request_votes] in Hs.
  - inv_done Hs. reflexivity.
  - inv_done Hs; apply IH in Hs; [done|].
    apply send_quiet in Hc1; [quiet_solve|]. unfold is_plain, is_grant, is_type.
    destruct Hvm as [-> | ->]; case_match; done.
Qed.

Lemma has_unapplied_conf_changes_quiet r lo hi ctx r' b :
  Raft.has_unapplied_conf_changes r lo hi ctx = Done (r', b) → quiet r r'.
Proof.
  unfold Raft.has_unapplied_conf_changes, RaftLog.scan. intros Hs. inv_done Hs; [reflexivity|].
  apply scan_loop_read in Hc. quiet_solve.
Qed.
End quiet_ops2.

(** ** Progress of terms, votes and the commit index *)

(** Solving [advances a b] by the calls between [a] and [b]. *)
Ltac adv_upd := split; simpl; solve [reflexivity | auto | lia].
Ltac adv_solve :=
  lazymatch goal with
  | |- advances ?a ?b =>
    first [ reflexivity
          | assumption
          | match goal with
            | H : advances ?x b |- _ => etrans; [|exact H]; clear H; adv_solve
            | H : quiet ?x b |- _ => etrans; [|apply quiet_advances; exact H]; clear H; adv_solve
            | H : calm ?x b |- _ => etrans; [|apply cm_adv; exact H]; clear H; adv_solve
            end
          | lazymatch b with
            | upd _ _ ?x => apply (transitivity (y := x)); [adv_solve|solve [adv_upd]]
            | Raft.set_pr ?x _ _ => apply (transitivity (y := x)); [adv_solve|solve [adv_upd]]
            | Raft.set_epoch ?x _ => apply (transitivity (y := x)); [adv_solve|solve [adv_upd]]
            | Raft.abort_leader_transfer ?x => apply (transitivity (y := x)); [adv_solve|solve [adv_upd]]
            end ]
  end.

(** The same for [calm a b]. *)
Ltac calm_upd := split; [adv_upd | same_msgs | simpl; auto | simpl in *; auto].
Ltac calm_solve :=
  lazymatch goal with
  | |- calm ?a ?b =>
    first [ reflexivity
          | assumption
          | match goal with
            | H : calm ?x b |- _ => etrans; [|exact H]; clear H; calm_solve
            | H : quiet ?x b |- _ => etrans; [|apply quiet_calm; exact H]; clear H; calm_solve
            end
          | lazymatch b with
            | upd _ _ ?x => apply (transitivity (y := x)); [calm_solve|solve [calm_upd]]
            | Raft.set_pr ?x _ _ => apply (transitivity (y := x)); [calm_solve|solve [calm_upd]]
            | Raft.set_epoch ?x _ => apply (transitivity (y := x)); [calm_solve|solve [calm_upd]]
            | Raft.abort_leader_transfer ?x => apply (transitivity (y := x)); [calm_solve|solve [calm_upd]]
            end ]
  end.

Section advancing.
Context {S : Type} `{Storage S} `{Proto} `{HashOrder} `{Rand}.
Implicit Types r : Raft.t S.

(** Operations that keep the role too. *)
Record same_role r r' : Prop := mk_same_role {
  sr_term : Raft.term r' = Raft.term r;
  sr_vote : Raft.vote r' = Raft.vote r;
  sr_state : Raft.state r' = Raft.state r
}.

Lemma maybe_commit_calm r r' b :
  Raft.maybe_commit r = Done (r', b) →
  calm r r' ∧ same_role r r'.
Proof.
  unfold Raft.maybe_commit. intros Hs.
  inv_done Hs; apply replicate_witnesses_quiet in Hc;
    match goal with H : RaftLog.maybe_commit _ _ _ = _ |- _ => apply log_maybe_commit_mono in H as [? _] end;
    (split; [calm_solve|destruct Hc; split; simpl; congruence]).
Qed.

Lemma commit_and_bcast_calm r r' :
  Raft.commit_and_bcast r = Done r' → calm r r' ∧ same_role r r'.
Proof.
  unfold Raft.commit_and_bcast. intros Hs. inv_done Hs; apply maybe_commit_calm in Hc as [? []].
  - apply bcast_append_quiet in Hs. split; [calm_solve|]. destruct Hs. split; congruence.
  - split; [done|by split].
Qed.

Lemma append_entry_calm r es r' b :
  Raft.append_entry r es = Done (r', b) → calm r r' ∧ same_role r r'.
Proof.
  unfold Raft.append_entry, Raft.maybe_increase_uncommitted_size. intros Hs.
  destruct (us_maybe_increase_uncommitted_size _ _) as [u ok]. inv_done Hs; [split; [calm_solve|by split]|].
  apply log_append_committed in Hc0. simpl in Hc0. split; [|by split].
  split; [split; simpl; auto; lia|same_msgs|simpl; auto|simpl; auto].
Qed.

Lemma change_replication_set_votes (p : Tracker.t) i :
  Tracker.votes (Tracker.change_replication_set p i).1 = Tracker.votes p ∧
  Tracker.conf (Tracker.change_replication_set p i).1 = Tracker.conf p.
Proof. unfold Tracker.change_replication_set. by case_match. Qed.

Lemma maybe_start_new_subterm_calm r a b r' x :
  Raft.maybe_start_new_subterm r a b = Done (r', x) → calm r r' ∧ same_role r r'.
Proof.
  unfold Raft.maybe_start_new_subterm. intros Hs.
  pose proof (change_replication_set_votes (Raft.prs r) (Raft.id r)) as [Hv _].
  destruct (a || b); [|destruct (Tracker.change_replication_set (Raft.prs r) (Raft.id r)) as [p ch]];
    inv_done Hs; try (split; [calm_solve|by split]);
    apply append_entry_calm in Hc as [? []]; (split; [calm_solve|by split]).
Qed.

(** What [reset] leaves: the term asked for, the vote only if it was the term
    already, and the log. *)
Lemma reset_spec r tm r' : Raft.reset r tm = Done r' →
  Raft.term r' = tm ∧ Raft.vote r' = (if Raft.term r =? tm then Raft.vote r else 0) ∧
  Raft.id r' = Raft.id r ∧ Raft.state r' = Raft.state r ∧ Raft.raft_log r' = Raft.raft_log r ∧
  Raft.leader_id r' = 0 ∧ Raft.msgs r' = Raft.msgs r ∧ Tracker.votes (Raft.prs r') = ∅ ∧
  Tracker.conf (Raft.prs r') = Tracker.conf (Raft.prs r).
Proof.
  unfold Raft.reset, Raft.reset_randomized_election_timeout. intros Hs. inv_done Hs.
  simpl. destruct (N.eqb_spec (Raft.term r) tm); simpl; done.
Qed.

Lemma reset_advances r tm r' : Raft.reset r tm = Done r' → Raft.term r ≤ tm → advances r r'.
Proof.
  intros (Ht & Hv & Hi & _ & Hl & _)%reset_spec Hle. split; [done|lia| |by rewrite Hl].
  rewrite Ht, Hv. intros -> _. by rewrite N.eqb_refl.
Qed.

Lemma become_follower_spec r tm lead r' : Raft.become_follower r tm lead = Done r' →
  Raft.term r' = tm ∧ Raft.vote r' = (if Raft.term r =? tm then Raft.vote r else 0) ∧
  Raft.state r' = Follower ∧ Raft.leader_id r' = lead ∧ Raft.id r' = Raft.id r ∧
  Tracker.conf (Raft.prs r') = Tracker.conf (Raft.prs r).
Proof.
  unfold Raft.become_follower. intros Hs. inv_done Hs.
  apply reset_spec in Hc as (? & ? & ? & ? & ? & ? & _ & _ & ?). simpl. split_and!; done.
Qed.

Lemma become_follower_calm r tm lead r' :
  Raft.become_follower r tm lead = Done r' → Raft.term r ≤ tm → calm r r'.
Proof.
  unfold Raft.become_follower. intros Hs Hle. inv_done Hs.
  pose proof (reset_spec _ _ _ Hc) as (_ & _ & _ & _ & _ & _ & Hm & _ & _).
  apply reset_advances in Hc; [|done]. split; [adv_solve| |done|done].
  intros m Hin _. simpl in Hin. by rewrite <-Hm.
Qed.

Lemma become_candidate_spec r r' : Raft.become_candidate r = Done r' → Raft.term r < u64_max →
  Raft.term r' = Raft.term r + 1 ∧ Raft.vote r' = Raft.id r' ∧ Raft.state r' = Candidate ∧
  Raft.id r' = Raft.id r ∧ Raft.raft_log r' = Raft.raft_log r.
Proof.
  unfold Raft.become_candidate. intros Hs Hb. inv_done Hs. apply reset_spec in Hc0 as (Ht & ? & ? & ? & ? & ? & _).
  rewrite u64_add_small in Ht by (unfold u64_max, u64_modulus in *; lia). simpl. split_and!; congruence.
Qed.

Lemma become_candidate_advances r r' :
  Raft.become_candidate r = Done r' → Raft.term r < u64_max → advances r r'.
Proof.
  intros Hs Hb. destruct (become_candidate_spec r r' Hs Hb) as (Ht & _ & _ & Hi & Hl).
  split; [done|lia|lia|by rewrite Hl].
Qed.

Lemma become_pre_candidate_advances r r' : Raft.become_pre_candidate r = Done r' →
  advances r r' ∧ Raft.term r' = Raft.term r.
Proof. unfold Raft.become_pre_candidate. intros Hs. inv_done Hs. split; [adv_solve|done]. Qed.

Lemma become_leader_advances r r' : Raft.become_leader r = Done r' →
  advances r r' ∧ Raft.term r' = Raft.term r ∧ Raft.state r' = Leader.
Proof.
  unfold Raft.become_leader. intros Hs.
  inv_done Hs; match goal with H : Raft.reset _ _ = _ |- _ =>
    pose proof (reset_spec _ _ _ H) as (? & _); apply reset_advances in H; [|done] end;
    match goal with
    | H : Raft.maybe_start_new_subterm _ _ _ = _ |- _ => apply maybe_start_new_subterm_calm in H as [? []]
    | H : Raft.append_entry _ _ = _ |- _ => apply append_entry_calm in H as [? []]
    end; (split; [adv_solve|simpl in *; split; congruence]).
Qed.
End advancing.

Section elections.
Context {S : Type} `{Storage S} `{Proto} `{HashOrder} `{Rand}.
Implicit Types r : Raft.t S.

(** Polling outside of a pre-election. *)
Lemma poll_fuel_candidate fuel r from t v r' res :
  Raft.poll_fuel fuel r from t v = Done (r', res) → Raft.state r ≠ PreCandidate → advances r r'.
Proof.
  intros Hs Hst. destruct fuel; cbn [Raft.poll_fuel] in Hs;
    destruct (Tracker.tally_votes_with_diff _) as [[[g rj] rs] diff];
    inv_done Hs; try (unfold Raft.is_role in *; simpl in *; case_bool_decide; done);
    repeat match goal with
    | H : Raft.become_leader _ = _ |- _ => apply become_leader_advances in H as [? _]
    | H : Raft.bcast_append _ = _ |- _ => apply bcast_append_quiet in H
    | H : Raft.become_follower _ _ _ = _ |- _ => apply become_follower_calm in H; [|done]
    | H : Raft.ask_witnesses _ _ _ = _ |- _ => apply ask_witnesses_quiet in H
    end; adv_solve.
Qed.

(** A campaign whose [poll] is fine for the state it starts from. *)
Lemma campaign_election_advances fuel r ct r' :
  Raft.campaign_with (Raft.poll_fuel fuel) r ct = Done r' → ct ≠ CAMPAIGN_PRE_ELECTION →
  Raft.term r < u64_max → advances r r'.
Proof.
  unfold Raft.campaign_with. intros Hs Hct Hb. rewrite bool_decide_eq_false_2 in Hs by done.
  inv_done Hs;
    match goal with H : Raft.become_candidate _ = _ |- _ =>
      pose proof (become_candidate_spec _ _ H Hb) as (_ & _ & Hst & _);
      apply become_candidate_advances in H; [|done] end;
    match goal with H : Raft.poll_fuel _ _ _ _ _ = _ |- _ => apply poll_fuel_candidate in H; [|congruence] end;
    try adv_solve; (apply request_votes_quiet in Hs; [adv_solve|auto]).
Qed.

Lemma poll_advances r from t v r' res :
  Raft.poll r from t v = Done (r', res) → Raft.term r < u64_max → advances r r'.
Proof.
  intros Hs Hb. destruct (decide (Raft.state r = PreCandidate)) as [Hst|Hst]; [|by eapply poll_fuel_candidate].
  unfold Raft.poll in Hs. cbn [Raft.poll_fuel] in Hs.
  destruct (Tracker.tally_votes_with_diff _) as [[[g rj] rs] diff].
  inv_done Hs;
    repeat match goal with
    | H : Raft.campaign_with _ _ _ = _ |- _ =>
      apply (campaign_election_advances 0) in H; [|done|done]
    | H : Raft.become_leader _ = _ |- _ => apply become_leader_advances in H as [? _]
    | H : Raft.bcast_append _ = _ |- _ => apply bcast_append_quiet in H
    | H : Raft.become_follower _ _ _ = _ |- _ => apply become_follower_calm in H; [|done]
    | H : Raft.ask_witnesses _ _ _ = _ |- _ => apply ask_witnesses_quiet in H
    end; adv_solve.
Qed.

Lemma campaign_advances r ct r' :
  Raft.campaign r ct = Done r' → Raft.term r < u64_max → advances r r'.
Proof.
  intros Hs Hb. destruct (decide (ct = CAMPAIGN_PRE_ELECTION)) as [->|Hct];
    [|by eapply (campaign_election_advances 1)].
  unfold Raft.campaign, Raft.campaign_with in Hs. rewrite bool_decide_eq_true_2 in Hs by done.
  inv_done Hs;
    match goal with H : Raft.become_pre_candidate _ = _ |- _ =>
      apply become_pre_candidate_advances in H as [? Ht] end;
    match goal with H : Raft.poll _ _ _ _ = _ |- _ => apply poll_advances in H; [|congruence] end;
    try adv_solve; (apply request_votes_quiet in Hs; [adv_solve|auto]).
Qed.

Lemma hup_advances r b r' : Raft.hup r b = Done r' → Raft.term r < u64_max → advances r r'.
Proof.
  unfold Raft.hup. intros Hs Hb. inv_done Hs; try reflexivity;
    match goal with H : Raft.has_unapplied_conf_changes _ _ _ _ = _ |- _ =>
      apply has_unapplied_conf_changes_quiet in H; pose proof (q_term _ _ H) end;
    try adv_solve; apply campaign_advances in Hs; try congruence; adv_solve.
Qed.

(** Winning a pre-election calls one campaign, whose own poll calls none: the
    levels of [poll_fuel] beyond one are never reached. *)
Lemma poll_fuel_enough n r from t v :
  Raft.poll_fuel (Datatypes.S n) r from t v = Raft.poll r from t v.
Proof.
  unfold Raft.poll. cbn [Raft.poll_fuel].
  assert (∀ r0, Raft.campaign_with (Raft.poll_fuel n) r0 CAMPAIGN_ELECTION =
                Raft.campaign_with (Raft.poll_fuel 0) r0 CAMPAIGN_ELECTION) as Hc.
  2: { destruct (Tracker.tally_votes_with_diff _) as [[[g rj] rs] diff]. destruct rs; try done.
       destruct (Raft.is_role _ _); [|done]. by rewrite Hc. }
  intros r0. unfold Raft.campaign_with. rewrite bool_decide_eq_false_2 by done.
  destruct (Raft.become_candidate r0) as [r1|] eqn:E; [|done]. cbn [mbind outcome_bind mret outcome_ret].
  assert (Raft.state r1 = Candidate) as Hst by (unfold Raft.become_candidate in E; inv_done E; done).
  assert (Raft.poll_fuel n r1 (Raft.id r1) MsgRequestVote true =
          Raft.poll_fuel 0 r1 (Raft.id r1) MsgRequestVote true) as ->; [|done].
  destruct n; [done|]. cbn [Raft.poll_fuel]. unfold Raft.is_role. simpl. by rewrite Hst.
Qed.
End elections.

(** ** The handlers *)

Ltac adv_call H :=
  first [ apply send_quiet in H; [|not_grant] | apply bcast_append_quiet in H | apply send_append_quiet in H
        | apply send_append_aggressively_quiet in H | apply send_append_each_quiet in H
        | apply maybe_send_append_quiet in H | apply advance_reads_quiet in H
        | (let Hg := fresh "Hg" in apply handle_ready_read_index_quiet in H as [H Hg]; try specialize (Hg _ eq_refl))
        | apply bcast_heartbeat_with_ctx_quiet in H
        | apply has_unapplied_conf_changes_quiet in H
        | apply maybe_commit_calm in H as [H ?] | apply commit_and_bcast_calm in H as [H ?]
        | apply append_entry_calm in H as [H ?]
        | apply maybe_start_new_subterm_calm in H as [H ?]
        | apply become_follower_calm in H; [|done]
        | apply commit_to_mono in H as [H _] | apply log_maybe_commit_mono in H as [H _]
        | apply log_maybe_append_mono in H ].
Ltac adv_calls := repeat match goal with H : _ = Done _ |- _ => adv_call H end.
Ltac calm_op Hs := inv_done Hs; adv_calls; calm_solve.

Section handlers.
Context {S : Type} `{Storage S} `{Proto} `{HashOrder} `{Rand}.
#[local] Set Default Proof Using "All".
Implicit Types r : Raft.t S.

Lemma is_role_spec r ro : Raft.is_role r ro = true ↔ Raft.state r = ro.
Proof. unfold Raft.is_role. by rewrite bool_decide_eq_true. Qed.

Lemma send_request_snapshot_calm r r' : Raft.send_request_snapshot r = Done r' → calm r r'.
Proof. unfold Raft.send_request_snapshot. intros Hs. calm_op Hs. Qed.

Lemma request_snapshot_calm r r' x : Raft.request_snapshot r = Done (r', x) → calm r r'.
Proof.
  unfold Raft.request_snapshot. intros Hs. inv_done Hs; try reflexivity.
  apply send_request_snapshot_calm in Hc2. calm_solve.
Qed.

Lemma handle_append_entries_calm r m r' : Raft.handle_append_entries r m = Done r' → calm r r'.
Proof.
  unfold Raft.handle_append_entries. intros Hs. inv_done Hs; adv_calls; try calm_solve.
  by apply send_request_snapshot_calm.
Qed.

Lemma handle_heartbeat_calm r m r' : Raft.handle_heartbeat r m = Done r' → calm r r'.
Proof.
  unfold Raft.handle_heartbeat. intros Hs. inv_done Hs; adv_calls; try calm_solve.
  apply send_request_snapshot_calm in Hs. calm_solve.
Qed.

Lemma release_reads_calm r r' : Raft.release_reads r = Done r' → calm r r'.
Proof. unfold Raft.release_reads. intros Hs. calm_op Hs. Qed.

Lemma post_conf_change_calm r r' cs : Raft.post_conf_change r = Done (r', cs) → calm r r'.
Proof.
  unfold Raft.post_conf_change. intros Hs. inv_done Hs; adv_calls; try calm_solve;
    apply release_reads_calm in Hc1; repeat case_match; calm_solve.
Qed.

Lemma apply_conf_votes p c ch n : Tracker.votes (Tracker.apply_conf p c ch n) = Tracker.votes p.
Proof.
  unfold Tracker.apply_conf. change (Tracker.votes p) with (Tracker.votes (p <| Tracker.conf := c |>)).
  generalize (p <| Tracker.conf := c |>). induction ch as [|[i [|]] ch IH]; intros q; simpl; [done|..]; by rewrite IH.
Qed.

Lemma apply_conf_change_calm r cc r' x : Raft.apply_conf_change r cc = Done (r', x) → calm r r'.
Proof.
  unfold Raft.apply_conf_change. intros Hs. inv_done Hs; try reflexivity;
    match goal with H : Raft.post_conf_change _ = _ |- _ => apply post_conf_change_calm in H end;
    adv_calls; match goal with H : calm (upd Raft.prs _ _) _ |- _ =>
      etrans; [|etrans; [exact H|calm_solve]] end;
    (split; [adv_solve|same_msgs|simpl; auto|simpl; rewrite apply_conf_votes; auto]).
Qed.

Lemma log_restore_committed (l : RaftLog.t S) sn l' : RaftLog.restore l sn = Done l' →
  RaftLog.committed l ≤ RaftLog.committed l'.
Proof. unfold RaftLog.restore. intros Hs. inv_done Hs. simpl. by apply N.leb_le. Qed.

(** A follower that stays calm ends as no leader or candidate. *)
Lemma calm_follower r r1 r' :
  advances r r1 → no_grants r r1 → Raft.state r1 = Follower → calm r1 r' → calm r r'.
Proof.
  intros Ha Hg Hf [A G L C]. split; [by etrans|by etrans| |].
  - intros [Hl _]%L. congruence.
  - intros [Hl _]%C. congruence.
Qed.

Lemma restore_calm r sn r' b : Raft.restore r sn = Done (r', b) → Raft.term r < u64_max → calm r r'.
Proof.
  unfold Raft.restore. intros Hs Hb. destruct (N.ltb_spec (sm_index (s_metadata sn)) (RaftLog.committed (Raft.raft_log r))).
  { inv_done Hs. reflexivity. }
  inv_done Hs; adv_calls; try calm_solve;
    repeat match goal with
    | H : Raft.become_follower _ _ _ = _ |- _ => apply become_follower_calm in H; [done|u64_solve]
    | H : Raft.post_conf_change _ = _ |- _ => apply post_conf_change_calm in H
    | H : RaftLog.restore _ _ = _ |- _ => apply log_restore_committed in H
    | H : negb (Raft.is_role _ Follower) = false |- _ => apply negb_false_iff, is_role_spec in H
    end.
  all: match goal with H : calm ?x _ |- _ => apply (calm_follower r x); [adv_solve|same_msgs|done|calm_solve] end.
Qed.

Lemma handle_snapshot_calm r m r' : Raft.handle_snapshot r m = Done r' → Raft.term r < u64_max → calm r r'.
Proof.
  unfold Raft.handle_snapshot. intros Hs Hb. inv_done Hs; adv_calls; apply restore_calm in Hc; try done; calm_solve.
Qed.

Lemma after_match_calm r m p r' : Raft.after_match r m p = Done r' → calm r r'.
Proof. unfold Raft.after_match, Raft.send_timeout_now. intros Hs. calm_op Hs. Qed.

Lemma handle_append_response_calm r m r' : Raft.handle_append_response r m = Done r' → calm r r'.
Proof.
  unfold Raft.handle_append_response. intros Hs. inv_done Hs; adv_calls; try calm_solve;
    apply after_match_calm in Hs; calm_solve.
Qed.

Lemma handle_heartbeat_response_calm r m r' : Raft.handle_heartbeat_response r m = Done r' → calm r r'.
Proof. unfold Raft.handle_heartbeat_response. intros Hs. calm_op Hs. Qed.

Lemma handle_transfer_leader_calm r m r' : Raft.handle_transfer_leader r m = Done r' → calm r r'.
Proof.
  unfold Raft.handle_transfer_leader, Raft.send_timeout_now. intros Hs.
  destruct (Raft.lead_transferee r); inv_done Hs; adv_calls; calm_solve.
Qed.

Lemma check_proposals_calm i ents r r' x : Raft.check_proposals i ents r = Done (r', x) → calm r r'.
Proof.
  revert i r x. induction ents as [|e ents IH]; intros i r x Hs; cbn [Raft.check_proposals] in Hs.
  - inv_done Hs. reflexivity.
  - inv_done Hs; try reflexivity;
      match goal with H : Raft.check_proposals _ _ _ = _ |- _ => apply IH in H end; calm_solve.
Qed.

Lemma handle_propose_calm r m r' x : Raft.handle_propose r m = Done (r', x) → calm r r'.
Proof.
  unfold Raft.handle_propose. intros Hs. inv_done Hs; adv_calls; try reflexivity;
    match goal with H : Raft.check_proposals _ _ _ = _ |- _ => apply check_proposals_calm in H end; calm_solve.
Qed.

Lemma handle_read_index_calm r m r' : Raft.handle_read_index r m = Done r' → calm r r'.
Proof. unfold Raft.handle_read_index. intros Hs. calm_op Hs. Qed.

Lemma check_quorum_active_quiet r r' b : Raft.check_quorum_active r = (r', b) → quiet r r'.
Proof.
  unfold Raft.check_quorum_active. destruct (Tracker.quorum_recently_active _ _) as [p a] eqn:E.
  intros [= <- <-]. injection E as <- _. quiet_solve.
Qed.

Lemma handle_check_quorum_calm r r' : Raft.handle_check_quorum r = Done r' → calm r r'.
Proof.
  unfold Raft.handle_check_quorum. intros Hs.
  destruct (Raft.has_witness r); inv_done Hs; adv_calls;
    repeat match goal with H : Raft.check_quorum_active _ = _ |- _ => apply check_quorum_active_quiet in H end;
    calm_solve.
Qed.

Lemma step_leader_calm r m r' x : Raft.step_leader r m = Done (r', x) → calm r r'.
Proof.
  unfold Raft.step_leader, Raft.ok, Raft.bcast_heartbeat. intros Hs.
  destruct (m_msg_type m); inv_done Hs; adv_calls; try calm_solve.
  - by apply handle_propose_calm in Hs.
  - by apply handle_append_response_calm in Hc.
  - by apply handle_heartbeat_response_calm in Hc.
  - unfold Raft.handle_unreachable. case_match; calm_solve.
  - unfold Raft.handle_snapshot_status. repeat case_match; calm_solve.
  - by apply handle_check_quorum_calm in Hc.
  - by apply handle_transfer_leader_calm in Hc.
  - by apply handle_read_index_calm in Hc.
Qed.

Lemma maybe_commit_by_vote_calm r m r' : Raft.maybe_commit_by_vote r m = Done r' → calm r r'.
Proof.
  unfold Raft.maybe_commit_by_vote. intros Hs. inv_done Hs; adv_calls; calm_solve.
Qed.

Lemma step_candidate_advances r m r' x :
  Raft.step_candidate r m = Done (r', x) → Raft.term r < u64_max → m_term m < u64_max →
  (m_msg_type m ∈ [MsgAppend; MsgHeartbeat; MsgSnapshot] → Raft.term r ≤ m_term m) → advances r r'.
Proof.
  unfold Raft.step_candidate, Raft.ok. intros Hs Hb Hbm Hm.
  destruct (m_msg_type m) eqn:E; inv_done Hs; try reflexivity.
  - pose proof (become_follower_spec _ _ _ _ Hc0) as (? & _).
    apply become_follower_calm in Hc0; [|apply Hm; set_solver]. apply handle_append_entries_calm in Hc. adv_solve.
  - apply poll_advances in Hc; [|done]. apply maybe_commit_by_vote_calm in Hc0. adv_solve.
  - pose proof (become_follower_spec _ _ _ _ Hc0) as (? & _).
    apply become_follower_calm in Hc0; [|apply Hm; set_solver].
    apply handle_snapshot_calm in Hc; [|lia]. adv_solve.
  - apply become_follower_calm in Hc0; [|apply Hm; set_solver]. apply handle_heartbeat_calm in Hc. adv_solve.
  - apply poll_advances in Hc; [|done]. apply maybe_commit_by_vote_calm in Hc0. adv_solve.
Qed.

Lemma step_follower_advances r m r' x :
  Raft.step_follower r m = Done (r', x) → Raft.term r < u64_max → advances r r'.
Proof.
  unfold Raft.step_follower, Raft.ok. intros Hs Hb.
  destruct (m_msg_type m) eqn:E; inv_done Hs; try reflexivity; adv_calls; try adv_solve.
  - apply handle_append_entries_calm in Hc. adv_solve.
  - apply handle_snapshot_calm in Hc; [|done]. adv_solve.
  - apply handle_heartbeat_calm in Hc. adv_solve.
  - by apply hup_advances in Hc.
Qed.

(** The condition under which a vote may be cast. *)
Definition can_vote r (m : Message) : bool :=
  (Raft.vote r =? m_from m)
  || ((Raft.vote r =? INVALID_ID) && (Raft.leader_id r =? INVALID_ID))
  || (is_type m MsgRequestPreVote && (Raft.term r <? m_term m)).

Lemma can_vote_real r m : can_vote r m = true → m_msg_type m = MsgRequestVote →
  Raft.vote r = m_from m ∨ Raft.vote r = 0.
Proof.
  unfold can_vote, is_type. intros Hcan E. rewrite E in Hcan.
  rewrite !orb_true_iff, !andb_true_iff, !N.eqb_eq in Hcan. unfold INVALID_ID in Hcan. naive_solver.
Qed.

Lemma handle_vote_request_advances r m r' : Raft.handle_vote_request r m = Done r' → advances r r'.
Proof.
  unfold Raft.handle_vote_request. fold (can_vote r m). intros Hs.
  inv_done Hs;
    repeat match goal with
    | H : Raft.maybe_commit_by_vote _ _ = _ |- _ => apply maybe_commit_by_vote_calm in H
    | H : Raft.send _ _ = _ |- _ => apply send_spec in H as (? & -> & _)
    end; try adv_solve.
  split; simpl; [done|done| |done]. intros _ Hnz.
  match goal with H : is_type m MsgRequestVote = true |- _ =>
    unfold is_type in H; apply bool_decide_eq_true in H; rename H into Hty end.
  destruct (can_vote_real r m) as [|]; congruence.
Qed.

(** The messages that only a leader sends, and which always carry its term. *)
Definition from_leader (m : Message) : Prop := m_msg_type m ∈ [MsgAppend; MsgHeartbeat; MsgSnapshot].

(** Messages whose term a node adopts or refuses: all but those of a pre-vote. *)
Definition carries_term (m : Message) : Prop :=
  m_msg_type m ≠ MsgRequestPreVote ∧ m_msg_type m ≠ MsgRequestPreVoteResponse.

Lemma from_leader_carries m : from_leader m → carries_term m.
Proof. unfold from_leader, carries_term. destruct (m_msg_type m); set_solver. Qed.

Lemma check_term_calm r m r' b :
  Raft.check_term r m = Done (r', b) →
  calm r r' ∧ Tracker.conf (Raft.prs r') = Tracker.conf (Raft.prs r) ∧
  (Raft.term r' = Raft.term r ∨ Raft.term r' = m_term m) ∧
  (b = true → carries_term m → m_term m ≠ 0 → Raft.term r' = m_term m).
Proof.
  unfold Raft.check_term, carries_term, is_type. intros Hs.
  destruct (N.eqb_spec (m_term m) 0); [inv_done Hs; split_and!; [reflexivity|done|by left|done]|].
  destruct (N.ltb_spec (Raft.term r) (m_term m)).
  - inv_done Hs.
    + split_and!; [reflexivity|done|by left|done].
    + split_and!; [reflexivity|done|by left|]. intros _ [? ?].
      match goal with H : _ || _ = true |- _ => revert H end. by destruct (m_msg_type m).
    + pose proof (become_follower_spec _ _ _ _ Hc) as (? & _ & _ & _ & _ & ?).
      apply become_follower_calm in Hc; [|lia]. split_and!; [done|done|by right|done].
  - destruct (N.ltb_spec (m_term m) (Raft.term r)).
    + inv_done Hs; adv_calls; repeat match goal with H : quiet _ _ |- _ =>
        pose proof (q_term _ _ H); pose proof (q_conf _ _ H); apply quiet_calm in H end;
        (split_and!; [first [reflexivity|done]|done|by left|done]).
    + inv_done Hs. split_and!; [reflexivity|done|by left|]. intros. lia.
Qed.

Lemma step_advances r m r' x :
  Raft.step r m = Done (r', x) → Raft.term r < u64_max → m_term m < u64_max →
  (from_leader m → m_term m ≠ 0) → advances r r'.
Proof.
  unfold Raft.step. intros Hs Hb Hbm Hm.
  apply outcome_bind_Done in Hs as ([r1 go] & Hck & Hs).
  apply check_term_calm in Hck as (Hadv%cm_adv & _ & Hterm & Hlead).
  destruct go; simpl in Hs; [|inv_done Hs; done].
  assert (Raft.term r1 < u64_max) as Hb1 by (destruct Hterm; lia).
  assert (∀ x, Raft.step_candidate r1 m = Done (r', x) → advances r1 r') as Hcand.
  { intros y Hy. eapply step_candidate_advances; [done..|]. intros Hin.
    by rewrite Hlead by auto using from_leader_carries. }
  unfold Raft.ok in Hs. etrans; [exact Hadv|].
  destruct (m_msg_type m) eqn:E; try (inv_done Hs;
    eauto using hup_advances, handle_vote_request_advances, step_follower_advances, cm_adv, step_leader_calm; fail).
Qed.

(** A leader handles its own [MsgBeat] and [MsgCheckQuorum] in [step_leader]. *)
Lemma step_leader_local r ty i r' x :
  Raft.step r (new_message INVALID_ID ty (Some i)) = Done (r', x) → Raft.state r = Leader →
  ty ∈ [MsgBeat; MsgCheckQuorum] → calm r r'.
Proof.
  intros Hs Hl Hty.
  assert (Raft.step_leader r (new_message INVALID_ID ty (Some i)) = Done (r', x)) as Hx.
  { set_unfold in Hty. destruct Hty as [->|[->|[]]];
      unfold Raft.step, Raft.check_term in Hs; cbn -[Raft.state Raft.step_leader] in Hs; rewrite Hl in Hs; exact Hs. }
  by eapply step_leader_calm.
Qed.

Lemma tick_election_advances r r' b :
  Raft.tick_election r = Done (r', b) → Raft.term r < u64_max → advances r r'.
Proof.
  unfold Raft.tick_election. intros Hs Hb. inv_done Hs; [adv_solve|].
  match goal with H : Raft.step _ _ = _ |- _ => apply step_advances in H; [|done|done|by unfold from_leader; simpl; set_solver] end.
  adv_solve.
Qed.

Lemma tick_heartbeat_calm r r' b :
  Raft.tick_heartbeat r = Done (r', b) → Raft.state r = Leader → calm r r'.
Proof.
  unfold Raft.tick_heartbeat. intros Hs Hl. inv_done Hs;
    repeat match goal with
    | H : negb (Raft.is_role _ Leader) = false |- _ => apply negb_false_iff, is_role_spec in H
    | H : Raft.step _ (new_message _ MsgCheckQuorum _) = _ |- _ =>
      apply step_leader_local in H; [|done|set_solver]
    | H : Raft.step _ (new_message _ MsgBeat _) = _ |- _ =>
      apply step_leader_local in H; [|by simplify_eq/=|set_solver]
    end; repeat case_match; try calm_solve; repeat (case_match; try calm_solve).
Qed.

Lemma tick_advances r r' b : Raft.tick r = Done (r', b) → Raft.term r < u64_max → advances r r'.
Proof.
  unfold Raft.tick. intros Hs Hb. destruct (Raft.state r) eqn:Hst;
    eauto using tick_election_advances, tick_heartbeat_calm, cm_adv.
Qed.
End handlers.
