(* ===== verification/RaftElection.v ===== *)
(** * Elections

    What one input does to the election a node takes part in: the votes it
    grants, the votes it counts, and the quorum a new leader was elected by. *)
From S2P Require Import Prelude Errors Eraftpb ProtoConf Util Unstable Storage RaftLog Quorum Inflights Progress.
From S2P Require Import Tracker ConfChange ReadOnly Config Raft RaftFrame.

Section elections.
Context {S : Type} `{Storage S} `{Proto} `{HashOrder} `{Rand}.
Implicit Types r : Raft.t S.

(** ** Counting votes *)

(** The votes a node counts at [r'] after [r]: its own, those it had counted
    as a candidate of the same term, and the new ones in [G]. *)
Definition counted (G : N → Prop) r r' (i : N) : Prop :=
  i = Raft.id r ∨
  (Raft.state r = Candidate ∧ Raft.term r = Raft.term r' ∧ Tracker.votes (Raft.prs r) !! i = Some true) ∨ G i.

Definition campaigning r : Prop := Raft.state r = Candidate ∨ Raft.state r = Leader.

(** How a node moves by one input whose granted votes are [G]. *)
Record moves (G : N → Prop) r r' : Prop := mk_moves {
  mv_adv : advances r r';
  mv_grants : ∀ m, m ∈ Raft.msgs r' → is_grant m = true → m ∈ Raft.msgs r ∨
    (m_from m = Raft.id r' ∧ m_to m = Raft.vote r' ∧ m_term m = Raft.term r' ∧ Raft.vote r' ≠ 0);
  mv_self : campaigning r' →
    Raft.vote r' = Raft.id r ∨ (campaigning r ∧ Raft.term r' = Raft.term r);
  mv_cand : Raft.state r' = Candidate → ∀ i, Tracker.votes (Raft.prs r') !! i = Some true → counted G r r' i;
  mv_leader : Raft.state r' = Leader →
    (Raft.state r = Leader ∧ Raft.term r' = Raft.term r) ∨
    ∃ vs, Tracker.vote_result (Raft.prs r) vs = Won ∧ ∀ i, vs !! i = Some true → counted G r r' i
}.

Lemma calm_moves G r r' : calm r r' → moves G r r'.
Proof.
  intros [A Gr L C]. split; [done|by auto| | |].
  - intros [Hs|Hs]; right; [apply C in Hs as (? & ? & _)|apply L in Hs as [? ?]]; (split; [|done]); [by left|by right].
  - intros (? & ? & E)%C i Hi. right. left. by rewrite <-E.
  - intros [? ?]%L. by left.
Qed.

(** Calm operations before and after. *)
Lemma moves_calm G r r1 r' : moves G r r1 → no_grants r r1 → Raft.id r ≠ 0 → calm r1 r' → moves G r r'.
Proof.
  intros [A Gr Se C L] Hng Hid Hc. pose proof Hc as [A2 G2 L2 C2].
  assert (campaigning r' → campaigning r1 ∧ Raft.term r' = Raft.term r1) as Hcamp.
  { intros [Hs|Hs]; [apply C2 in Hs as (? & ? & _)|apply L2 in Hs as [? ?]]; (split; [|done]); [by left|by right]. }
  split; [by etrans|..].
  - intros m Hin Hg. left. apply Hng; [by apply G2|done].
  - intros (Hs & Ht)%Hcamp. destruct (Se Hs) as [Hv|[? ?]]; [left|right; split; [done|congruence]].
    rewrite <-Hv. apply A2; [done|congruence].
  - intros (Hs & Ht & Hv)%C2 i Hi. rewrite Hv in Hi. destruct (C Hs i Hi) as [|[(? & ? & ?)|?]].
    + by left.
    + right. left. split_and!; [done|congruence|done].
    + by right; right.
  - intros (Hs & Ht)%L2. destruct (L Hs) as [[? ?]|(vs & Hw & Hvs)]; [left; split; [done|congruence]|right].
    exists vs. split; [done|]. intros i Hi. unfold counted in *. rewrite Ht. auto.
Qed.

Lemma calm_then_moves G r r1 r' :
  calm r r1 → Tracker.conf (Raft.prs r1) = Tracker.conf (Raft.prs r) → moves G r1 r' → moves G r r'.
Proof.
  intros [A1 G1 L1 C1] Hconf [A Gr Se C L].
  assert (∀ i, counted G r1 r' i → counted G r r' i) as Hcnt.
  { intros i [->|[(Hs & Ht & Hv)|?]]; [left; apply A1| |by right; right].
    apply C1 in Hs as (? & ? & E). right. left. split_and!; [done|congruence|by rewrite <-E]. }
  split; [by etrans|..].
  - intros m Hin Hg. destruct (Gr m Hin Hg) as [|?]; [left; auto|by right].
  - intros [Hv|[[Hs|Hs] Ht]]%Se.
    + left. rewrite Hv. apply A1.
    + apply C1 in Hs as (? & ? & _). right. split; [by left|congruence].
    + apply L1 in Hs as [? ?]. right. split; [by right|congruence].
  - intros Hs i Hi. apply Hcnt. auto.
  - intros Hs. destruct (L Hs) as [[Hl Ht]|(vs & Hw & Hvs)].
    + apply L1 in Hl as [? ?]. left. split; [done|congruence].
    + right. exists vs. split; [|auto]. unfold Tracker.vote_result in *. by rewrite <-Hconf.
Qed.

Lemma moves_weaken (G G' : N → Prop) r r' :
  (campaigning r' → ∀ i, G i → G' i) → moves G r r' → moves G' r r'.
Proof.
  intros HG [A Gr Se C L].
  assert (campaigning r' → ∀ i, counted G r r' i → counted G' r r' i) as Hc.
  { intros Hcm i [|[|]]; [by left|by right; left|right; right; by apply HG]. }
  split; [done|done|done| |].
  - intros Hs i Hi. apply Hc; [by left|auto].
  - intros Hs. destruct (L Hs) as [|(vs & ? & ?)]; [by left|right]. exists vs. split; [done|].
    intros i Hi. apply Hc; [by right|auto].
Qed.

(** ** Roles *)

Lemma become_leader_spec r r' : Raft.become_leader r = Done r' →
  no_grants r r' ∧ Raft.term r' = Raft.term r ∧ Raft.vote r' = Raft.vote r ∧ Raft.state r' = Leader.
Proof.
  unfold Raft.become_leader. intros Hs.
  inv_done Hs; match goal with H : Raft.reset _ _ = _ |- _ =>
    apply reset_spec in H as (Ht & Hv & _ & _ & _ & _ & Hm & _ & _) end;
    match goal with
    | H : Raft.maybe_start_new_subterm _ _ _ = _ |- _ => apply maybe_start_new_subterm_calm in H as [[_ Hg _ _] []]
    | H : Raft.append_entry _ _ = _ |- _ => apply append_entry_calm in H as [[_ Hg _ _] []]
    end; rewrite N.eqb_refl in Hv; (split_and!; [|simpl in *; congruence..]);
    intros m Hin Hgr; specialize (Hg m Hin Hgr); simpl in Hg; by rewrite <-Hm.
Qed.

Lemma become_candidate_fields r r' : Raft.become_candidate r = Done r' →
  Raft.msgs r' = Raft.msgs r ∧ Tracker.votes (Raft.prs r') = ∅ ∧
  Tracker.conf (Raft.prs r') = Tracker.conf (Raft.prs r) ∧ Raft.state r' = Candidate ∧
  Raft.vote r' = Raft.id r ∧ Raft.id r' = Raft.id r ∧ Raft.state r ≠ Leader.
Proof.
  unfold Raft.become_candidate. intros Hs. inv_done Hs.
  match goal with H : Raft.reset _ _ = _ |- _ => apply reset_spec in H as (_ & _ & ? & _ & _ & _ & ? & ? & ?) end.
  apply negb_true_iff in Hc. simpl. split_and!; try done. intros Hl. unfold Raft.is_role in Hc.
  by rewrite bool_decide_eq_true_2 in Hc.
Qed.

(** ** Polling *)

Lemma record_vote_spec p i v j b : Tracker.votes (Tracker.record_vote p i v) !! j = Some b →
  Tracker.votes p !! j = Some b ∨ (j = i ∧ v = b).
Proof.
  unfold Tracker.record_vote. destruct (Tracker.votes p !! i) eqn:E; [by left|].
  simpl. rewrite lookup_insert_Some. naive_solver.
Qed.

Lemma record_vote_conf p i v : Tracker.conf (Tracker.record_vote p i v) = Tracker.conf p.
Proof. unfold Tracker.record_vote. by case_match. Qed.

Lemma tally_result p g rj res d : Tracker.tally_votes_with_diff p = (g, rj, res, d) →
  res = Tracker.vote_result p (Tracker.votes p).
Proof.
  unfold Tracker.tally_votes_with_diff, Tracker.vote_result.
  destruct (Tracker.count_tally _ _ _ _) as [a b].
  unfold Joint.vote_result_with_diff, Joint.vote_result.
  rewrite <-!vote_result_fst_diff.
  destruct (Majority.vote_result_with_diff (Joint.incoming _) _) as [i id].
  destruct (Majority.vote_result_with_diff (Joint.outgoing _) _) as [o od]. by intros [= <- <- <- <-].
Qed.

(** Polling as a candidate. *)
Lemma poll_candidate fuel r from t v r' res :
  Raft.poll_fuel fuel r from t v = Done (r', res) → Raft.state r = Candidate →
  no_grants r r' ∧ moves (λ i, i = from ∧ v = true ∧ Raft.term r' = Raft.term r) r r'.
Proof.
  intros Hs Hst.
  assert (advances r r') as Hadv by (eapply poll_fuel_candidate; [done|congruence]).
  set (r1 := r <| Raft.prs ::= λ p, Tracker.record_vote p from v |>).
  assert (∀ i, Tracker.votes (Raft.prs r1) !! i = Some true → Raft.term r' = Raft.term r →
    counted (λ i, i = from ∧ v = true ∧ Raft.term r' = Raft.term r) r r' i) as Hcnt.
  { intros i Hi Ht. apply record_vote_spec in Hi as [Hi|[-> ->]]; right; [left|right]; done. }
  assert (Raft.poll_fuel fuel r from t v = (
    let '(_, _, res, d) := Tracker.tally_votes_with_diff (Raft.prs r1) in
    r2 ← match res with
      | Won => r2 ← Raft.become_leader r1; Raft.bcast_append r2
      | Lost => Raft.become_follower r1 (Raft.term r1) INVALID_ID
      | Pending => Raft.ask_witnesses t (map_iter (Raft.get_witness_vote_request_readiness r1 d)) r1
      end;
    mret (r2, res))) as E.
  { unfold r1. destruct fuel; cbn [Raft.poll_fuel];
      destruct (Tracker.tally_votes_with_diff _) as [[[? ?] [| |]] ?]; try done;
      unfold Raft.is_role; simpl; by rewrite Hst. }
  rewrite E in Hs. clear E.
  destruct (Tracker.tally_votes_with_diff (Raft.prs r1)) as [[[g rj] rs] d] eqn:Et.
  apply tally_result in Et. apply outcome_bind_Done in Hs as (r2 & Hr2 & Hs). inv_done Hs.
  assert (no_grants r r1) as Hr1 by same_msgs.
  destruct (Tracker.vote_result (Raft.prs r1) (Tracker.votes (Raft.prs r1))) eqn:Er.
  - apply ask_witnesses_quiet in Hr2. pose proof Hr2 as [Ht Hv _ Hrs _ Hvs _ Hg _].
    split; [etrans; [exact Hr1|exact Hg]|]. split; [done|..].
    + intros m Hin Hgr. left. apply Hr1; [by apply Hg|done].
    + intros _. right. split; [by left|done].
    + intros _ i Hi. rewrite Hvs in Hi. by apply Hcnt.
    + intros Hl. rewrite Hrs in Hl. simpl in Hl. congruence.
  - apply become_follower_calm in Hr2 as Hc; [|done]. apply become_follower_spec in Hr2 as (_ & _ & Hf & _).
    split; [etrans; [exact Hr1|apply Hc]|]. split; [done|..].
    + intros m Hin Hgr. left. apply Hr1; [by apply Hc|done].
    + intros [|]; congruence.
    + congruence.
    + congruence.
  - inv_done Hr2. apply become_leader_spec in Hc as (Hg1 & Ht1 & Hv1 & Hl1).
    apply bcast_append_quiet in Hr2. pose proof Hr2 as [Ht Hv _ Hrs _ Hvs _ Hg _].
    assert (no_grants r r') as Hng by (etrans; [exact Hr1|]; etrans; [exact Hg1|exact Hg]).
    split; [done|]. split; [done|..].
    + intros m Hin Hgr. left. by apply Hng.
    + intros _. right. split; [by left|simpl in *; congruence].
    + congruence.
    + intros _. right. exists (Tracker.votes (Raft.prs r1)). split.
      * unfold Tracker.vote_result in *. rewrite <-Er. unfold r1. simpl. by rewrite record_vote_conf.
      * intros i Hi. apply Hcnt; [done|simpl in *; congruence].
Qed.

(** An election started in this step counts only the node's own vote. *)
Lemma campaign_election_moves fuel r ct r' :
  Raft.campaign_with (Raft.poll_fuel fuel) r ct = Done r' → ct ≠ CAMPAIGN_PRE_ELECTION →
  Raft.term r < u64_max → Raft.id r ≠ 0 → no_grants r r' ∧ moves (λ _, False) r r'.
Proof.
  intros Hs Hct Hb Hid. pose proof (campaign_election_advances _ _ _ _ Hs Hct Hb) as Hadv.
  unfold Raft.campaign_with in Hs. rewrite bool_decide_eq_false_2 in Hs by done.
  apply outcome_bind_Done in Hs as ([[r1 vm] tm] & Hb1 & Hs). inv_done Hb1.
  match goal with H : Raft.become_candidate _ = _ |- _ =>
    apply become_candidate_fields in H as (Em & Evs & Ecf & Est & Ev & Eid & Hnl) end.
  apply outcome_bind_Done in Hs as ([r2 res] & Hp & Hs).
  apply poll_candidate in Hp as [Hng Hmv]; [|done].
  assert (no_grants r r1) as Hr1 by (intros m; by rewrite Em).
  assert (no_grants r2 r' ∧ moves (λ i, i = Raft.id r) r1 r') as [Hng2 Hmv2].
  { apply (moves_weaken _ (λ i, i = Raft.id r)) in Hmv; [|intros _ i (? & _); congruence].
    destruct (bool_decide (res = Won)); inv_done Hs; [done|].
    apply request_votes_quiet in Hs; [|auto]. split; [apply Hs|].
    eapply moves_calm; [done|done|by rewrite Eid|by apply quiet_calm]. }
  destruct Hmv2 as [A Gr Se C L].
  assert (∀ i, counted (λ i, i = Raft.id r) r1 r' i → i = Raft.id r) as Hc.
  { intros i [->|[(_ & _ & Hi)| ->]]; [done| |done]. by rewrite Evs in Hi. }
  assert (no_grants r r') as Hall by (etrans; [exact Hr1|]; etrans; [exact Hng|exact Hng2]).
  split; [done|]. split; [done|..].
  - intros m Hin Hg. left. by apply Hall.
  - intros Hcm. left. destruct (Se Hcm) as [->|[_ Ht]]; [done|].
    rewrite <-Ev. apply A; [done|congruence].
  - intros Hs' i Hi. left. by apply Hc, C.
  - intros Hs'. right. destruct (L Hs') as [[? _]|(vs & Hw & Hvs)]; [congruence|].
    exists vs. split; [unfold Tracker.vote_result in *; by rewrite <-Ecf|]. intros i Hi. left. by apply Hc, Hvs.
Qed.

Lemma poll_moves r from t v r' res :
  Raft.poll r from t v = Done (r', res) → Raft.state r = Candidate ∨ Raft.state r = PreCandidate →
  Raft.term r < u64_max → Raft.id r ≠ 0 →
  no_grants r r' ∧ moves (λ i, Raft.state r = Candidate ∧ i = from ∧ v = true ∧ Raft.term r' = Raft.term r) r r'.
Proof.
  intros Hs [Hst|Hst] Hb Hid.
  { destruct (poll_candidate _ _ _ _ _ _ _ Hs Hst) as [? ?]. split; [done|]. eapply moves_weaken; [|done]. naive_solver. }
  unfold Raft.poll in Hs. cbn [Raft.poll_fuel] in Hs.
  set (r1 := r <| Raft.prs ::= λ p, Tracker.record_vote p from v |>) in Hs.
  assert (calm r r1) as Hr1.
  { unfold r1. split; [adv_solve|same_msgs|simpl; congruence..]. }
  assert (Tracker.conf (Raft.prs r1) = Tracker.conf (Raft.prs r)) as Hcf by apply record_vote_conf.
  destruct (Tracker.tally_votes_with_diff (Raft.prs r1)) as [[[g rj] rs] d].
  unfold Raft.is_role in Hs. rewrite bool_decide_eq_true_2 in Hs by done.
  apply outcome_bind_Done in Hs as (r2 & Hr2 & Hs). inv_done Hs. destruct res.
  - apply ask_witnesses_quiet in Hr2. assert (calm r r') as Hc by (etrans; [done|by apply quiet_calm]).
    split; [apply Hc|by apply calm_moves].
  - apply become_follower_calm in Hr2; [|done]. assert (calm r r') as Hc by (by etrans).
    split; [apply Hc|by apply calm_moves].
  - apply (campaign_election_moves 0) in Hr2 as [Hng Hmv]; [|done..].
    split; [etrans; [apply Hr1|done]|]. apply (moves_weaken (λ _, False)); [by intros ? ? []|]. by eapply calm_then_moves.
Qed.

Lemma campaign_moves r ct r' :
  Raft.campaign r ct = Done r' → Raft.term r < u64_max → Raft.id r ≠ 0 →
  no_grants r r' ∧ moves (λ _, False) r r'.
Proof.
  intros Hs Hb Hid. destruct (decide (ct = CAMPAIGN_PRE_ELECTION)) as [->|Hct];
    [|by eapply (campaign_election_moves 1)].
  unfold Raft.campaign, Raft.campaign_with in Hs. rewrite bool_decide_eq_true_2 in Hs by done.
  apply outcome_bind_Done in Hs as ([[r1 vm] tm] & Hb1 & Hs). inv_done Hb1.
  assert (calm r r1 ∧ Tracker.conf (Raft.prs r1) = Tracker.conf (Raft.prs r) ∧
    Raft.state r1 = PreCandidate ∧ Raft.id r1 = Raft.id r ∧ Raft.term r1 = Raft.term r) as (Hr1 & Hcf & Hst & Hi & Ht).
  { match goal with H : Raft.become_pre_candidate _ = _ |- _ =>
      unfold Raft.become_pre_candidate in H; inv_done H end.
    split_and!; try done. split; [adv_solve|same_msgs|done|done]. }
  apply outcome_bind_Done in Hs as ([r2 res] & Hp & Hs).
  apply poll_moves in Hp as [Hng Hmv]; [|by right|congruence|congruence].
  assert (no_grants r1 r' ∧ moves (λ _, False) r1 r') as [Hng2 Hmv2].
  { apply (moves_weaken _ (λ _, False)) in Hmv; [|intros _ i [? _]; congruence].
    destruct (bool_decide (res = Won)); inv_done Hs; [done|].
    apply request_votes_quiet in Hs; [|auto]. split; [etrans; [exact Hng|apply Hs]|].
    eapply moves_calm; [done|done|congruence|by apply quiet_calm]. }
  split; [etrans; [apply Hr1|done]|by eapply calm_then_moves].
Qed.

Lemma hup_moves r b r' : Raft.hup r b = Done r' → Raft.term r < u64_max → Raft.id r ≠ 0 →
  no_grants r r' ∧ moves (λ _, False) r r'.
Proof.
  unfold Raft.hup. intros Hs Hb Hid.
  destruct (Raft.is_role r Leader); [inv_done Hs; split; [done|by apply calm_moves]|].
  apply outcome_bind_Done in Hs as ([r1 pending] & Hp & Hs).
  apply has_unapplied_conf_changes_quiet in Hp. pose proof (quiet_calm _ _ Hp) as Hc.
  destruct pending; [inv_done Hs; split; [apply Hc|by apply calm_moves]|].
  assert (∀ ct, Raft.campaign r1 ct = Done r' → no_grants r r' ∧ moves (λ _, False) r r') as Hcam.
  { intros ct [? ?]%campaign_moves; [|destruct Hp; congruence..].
    split; [etrans; [apply Hp|done]|]. eapply calm_then_moves; [done|apply Hp|done]. }
  destruct b; [by eapply Hcam|]. destruct (Raft.pre_vote r1); by eapply Hcam.
Qed.

(** ** The step function *)

(** The vote a message grants, for the term a node is in after it. *)
Definition grant_from (m : Message) (t : N) (i : N) : Prop := is_grant m = true ∧ i = m_from m ∧ m_term m = t.

Lemma step_candidate_moves r m r' x :
  Raft.step_candidate r m = Done (r', x) →
  Raft.state r = Candidate ∨ Raft.state r = PreCandidate → Raft.term r < u64_max → Raft.id r ≠ 0 →
  m_term m < u64_max → (from_leader m → m_term m ≠ 0) → (is_grant m = true → m_term m ≠ 0) →
  (carries_term m → m_term m ≠ 0 → Raft.term r = m_term m) →
  moves (grant_from m (Raft.term r')) r r'.
Proof.
  intros Hs Hst Hb Hid Hbm Hml Hmv Hm.
  assert (from_leader m → Raft.term r ≤ m_term m) as Hle.
  { intros Hf. rewrite Hm; [done|by apply from_leader_carries|auto]. }
  assert (∀ r2 res r3, Raft.poll r (m_from m) (m_msg_type m) (negb (m_reject m)) = Done (r2, res) →
    (Raft.state r = Candidate → m_msg_type m = MsgRequestVoteResponse) →
    Raft.maybe_commit_by_vote r2 m = Done r3 → moves (grant_from m (Raft.term r3)) r r3) as Hpoll.
  { intros r2 res r3 Hp Hty Hv. apply poll_moves in Hp as [Hng Hpm]; [|done..].
    apply maybe_commit_by_vote_calm in Hv. simpl in Hv.
    eapply moves_weaken; [|by eapply moves_calm]. simpl. intros Hcm i (Hc & -> & Hrj & Ht).
    specialize (Hty Hc).
    assert (is_grant m = true) as Hg by (unfold is_grant, is_type; by rewrite Hty, Hrj).
    split_and!; [done|done|].
    - rewrite <-Hm by (auto || (unfold carries_term; by rewrite Hty)).
      destruct Hv as [_ _ L2 C2]. destruct Hcm as [E|E]; [apply C2 in E as (_ & ? & _)|apply L2 in E as [_ ?]]; congruence. }
  unfold Raft.step_candidate, Raft.ok in Hs.
  destruct (m_msg_type m) eqn:E; inv_done Hs; try by apply calm_moves.
  - pose proof (become_follower_spec _ _ _ _ Hc0) as (? & _).
    apply become_follower_calm in Hc0; [|apply Hle; unfold from_leader; set_solver].
    apply handle_append_entries_calm in Hc. apply calm_moves. calm_solve.
  - eapply Hpoll; [done| |done]. intros _. by destruct Hst as [Hst|Hst].
  - pose proof (become_follower_spec _ _ _ _ Hc0) as (? & _).
    apply become_follower_calm in Hc0; [|apply Hle; unfold from_leader; set_solver].
    apply handle_snapshot_calm in Hc; [|lia]. apply calm_moves. calm_solve.
  - apply become_follower_calm in Hc0; [|apply Hle; unfold from_leader; set_solver].
    apply handle_heartbeat_calm in Hc. apply calm_moves. calm_solve.
  - eapply Hpoll; [done| |done]. intros Hc'. unfold Raft.is_role, is_type in Heqb.
    rewrite Hc' in Heqb. rewrite E in Heqb. done.
Qed.

Lemma step_follower_moves r m r' x :
  Raft.step_follower r m = Done (r', x) → Raft.term r < u64_max → Raft.id r ≠ 0 → moves (λ _, False) r r'.
Proof.
  unfold Raft.step_follower, Raft.ok. intros Hs Hb Hid.
  destruct (m_msg_type m) eqn:E; inv_done Hs; adv_calls; try (apply calm_moves; calm_solve).
  - apply handle_append_entries_calm in Hc. apply calm_moves. calm_solve.
  - apply handle_snapshot_calm in Hc; [|done]. apply calm_moves. calm_solve.
  - apply handle_heartbeat_calm in Hc. apply calm_moves. calm_solve.
  - by apply hup_moves in Hc as [_ ?].
Qed.

(** A granted real vote is sent, at the request's term, to the candidate the
    node now votes for; a pre-vote or a refusal grants nothing. *)
Lemma handle_vote_request_moves r m r' :
  Raft.handle_vote_request r m = Done r' → (m_msg_type m = MsgRequestVote → m_from m ≠ 0) →
  (carries_term m → m_term m ≠ 0 → Raft.term r = m_term m) → moves (λ _, False) r r'.
Proof.
  intros Hs Hf Hm. pose proof (handle_vote_request_advances _ _ _ Hs) as Hadv.
  unfold Raft.handle_vote_request in Hs.
  apply outcome_bind_Done in Hs as (ty & Hty & Hs). apply outcome_bind_Done in Hs as (g & _ & Hs). destruct g.
  - apply outcome_bind_Done in Hs as (r1 & Hsend & Hs).
    apply send_spec in Hsend as (m' & -> & E1 & E2 & E3 & E4 & E5 & _). simpl in *.
    unfold vote_resp_msg_type in Hty. destruct (m_msg_type m) eqn:E; inv_done Hty; rename H3 into Ety.
    + unfold is_type in Hs. rewrite bool_decide_eq_true_2 in Hs by done. inv_done Hs.
      rewrite <-Ety in E5. destruct E5 as [E5 Hnz]; [done|]. split; [done| |by intros ?; right| |].
      * intros m0 Hin Hg. simpl in *. apply elem_of_app in Hin as [|Hin%list_elem_of_singleton]; [by left|].
        subst m0. right. split_and!; [done|done| |by apply Hf]. rewrite E5, Hm; [done|split; congruence|done].
      * intros Hst i Hi. right. by left.
      * intros. by left.
    + unfold is_type in Hs. rewrite bool_decide_eq_false_2 in Hs by congruence. inv_done Hs.
      apply calm_moves. split; try done. intros m0 Hin Hg. simpl in Hin.
      apply elem_of_app in Hin as [|Hin%list_elem_of_singleton]; [done|]. subst m0.
      unfold is_grant, is_type in Hg. by rewrite <-Ety in Hg.
  - apply outcome_bind_Done in Hs as ([c ct] & _ & Hs). apply outcome_bind_Done in Hs as (r1 & Hsend & Hs).
    apply send_quiet in Hsend; [|by destruct (vote_resp_type _ _ Hty) as [-> | ->]].
    apply maybe_commit_by_vote_calm in Hs. apply calm_moves. calm_solve.
Qed.

(** A message a node can be given: terms that still have a successor, a
    sender for those that ask for a vote, and the term of a leader on what only
    a leader sends and of the voter on a vote. *)
Record input_ok r (m : Message) : Prop := mk_input_ok {
  io_term : Raft.term r < u64_max;
  io_bound : m_term m < u64_max;
  io_leader : from_leader m → m_term m ≠ 0;
  io_vote : is_grant m = true → m_term m ≠ 0;
  io_from : m_msg_type m = MsgRequestVote → m_from m ≠ 0
}.

Lemma step_moves r m r' x :
  Raft.step r m = Done (r', x) → Raft.id r ≠ 0 → input_ok r m → moves (grant_from m (Raft.term r')) r r'.
Proof.
  intros Hs Hid [Hb Hbm Hml Hmv Hmf]. unfold Raft.step in Hs.
  apply outcome_bind_Done in Hs as ([r1 go] & Hck & Hs).
  apply check_term_calm in Hck as (Hc & Hcf & Hterm & Hlead).
  destruct go; simpl in Hs; [|inv_done Hs; by apply calm_moves].
  assert (Raft.term r1 < u64_max) as Hb1 by (destruct Hterm; lia).
  assert (Raft.id r1 ≠ 0) as Hid1 by (destruct Hc as [[-> _ _ _] _ _ _]; done).
  eapply calm_then_moves; [done..|]. unfold Raft.ok in Hs.
  assert (∀ r2, moves (λ _, False) r1 r2 → moves (grant_from m (Raft.term r2)) r1 r2) as Hweak
    by (intros r2; by apply moves_weaken).
  assert (match Raft.state r1 with
          | PreCandidate | Candidate => Raft.step_candidate r1 m
          | Follower => Raft.step_follower r1 m
          | Leader => Raft.step_leader r1 m
          end = Done (r', x) → moves (grant_from m (Raft.term r')) r1 r') as Hrest.
  { intros Hr. destruct (Raft.state r1) eqn:Est.
    - apply Hweak. by eapply step_follower_moves.
    - eapply step_candidate_moves; [exact Hr|tauto|done..|auto].
    - apply calm_moves. by eapply step_leader_calm.
    - eapply step_candidate_moves; [exact Hr|tauto|done..|auto]. }
  destruct (m_msg_type m) eqn:E; try (by apply Hrest); inv_done Hs; apply Hweak;
    [by apply hup_moves in Hc0 as [_ ?]|..]; (eapply handle_vote_request_moves; [done|intros ?; apply Hmf; congruence|auto]).
Qed.

Lemma tick_moves r r' b :
  Raft.tick r = Done (r', b) → Raft.id r ≠ 0 → Raft.term r < u64_max → moves (λ _, False) r r'.
Proof.
  unfold Raft.tick. intros Hs Hid Hb.
  assert (Raft.tick_election r = Done (r', b) → moves (λ _, False) r r') as Hel.
  { unfold Raft.tick_election. clear Hs. intros Hs. inv_done Hs; [apply calm_moves; calm_solve|].
    match goal with H : Raft.step ?x _ = _ |- _ =>
      apply step_moves in H; [|done|split; unfold from_leader; simpl; first [done|set_solver]];
      assert (calm r x) as Hc1 by calm_solve; apply (calm_then_moves _ r x); [done|done|] end.
    eapply moves_weaken; [|done]. intros _ i (Hg & _). done. }
  destruct (Raft.state r) eqn:Hst; [by auto|by auto| |by auto].
  apply calm_moves. by eapply tick_heartbeat_calm.
Qed.
End elections.

(** ** The operations of the host *)
Section host.
Context {S : Type} `{Storage S} `{Proto} `{HashOrder} `{Rand}.
#[local] Set Default Proof Using "All".
Implicit Types r : Raft.t S.

(** What the host may ask of a node besides stepping messages and ticking. *)
Inductive host_op : Raft.t S → Raft.t S → Prop :=
| op_persist_entries r i t r' : Raft.on_persist_entries r i t = Done r' → host_op r r'
| op_persist_snap r i r' : Raft.on_persist_snap r i = Done r' → host_op r r'
| op_commit_apply r i r' : Raft.commit_apply r i = Done r' → host_op r r'
| op_apply_conf_change r cc r' x : Raft.apply_conf_change r cc = Done (r', x) → host_op r r'
| op_confirm_witness r w r' : Raft.confirm_witness_append r w = Done r' → host_op r r'
| op_reject_witness r w : host_op r (Raft.reject_witness_append r w)
| op_request_snapshot r r' x : Raft.request_snapshot r = Done (r', x) → host_op r r'
| op_ping r r' : Raft.ping r = Done r' → host_op r r'
| op_enable_group_commit r b r' : Raft.enable_group_commit r b = Done r' → host_op r r'
| op_assign_commit_groups r ids r' : Raft.assign_commit_groups r ids = Done r' → host_op r r'
| op_reduce_uncommitted r es : host_op r (Raft.reduce_uncommitted_size r es)
| op_free_buffers r : host_op r (Raft.maybe_free_inflight_buffers r)
| op_adjust_inflight r t n r' : Raft.adjust_max_inflight_msgs r t n = Done r' → host_op r r'.

Lemma maybe_persist_fields (l : RaftLog.t S) i t l' b : RaftLog.maybe_persist l i t = Done (l', b) →
  RaftLog.committed l' = RaftLog.committed l.
Proof. unfold RaftLog.maybe_persist. intros Hs. inv_done Hs; done. Qed.

Lemma maybe_persist_snap_fields (l : RaftLog.t S) i l' b : RaftLog.maybe_persist_snap l i = Done (l', b) →
  RaftLog.committed l' = RaftLog.committed l.
Proof. unfold RaftLog.maybe_persist_snap. intros Hs. inv_done Hs; done. Qed.

Lemma assign_groups_quiet ids r r' : Raft.assign_groups ids r = Done r' → quiet r r'.
Proof.
  revert r. induction ids as [|[p g] ids IH]; intros r Hs; cbn [Raft.assign_groups] in Hs.
  - inv_done Hs. reflexivity.
  - inv_done Hs. apply IH in Hs. case_match; quiet_solve.
Qed.

Lemma commit_apply_internal_calm r i b r' : Raft.commit_apply_internal r i b = Done r' → calm r r'.
Proof.
  unfold Raft.commit_apply_internal, RaftLog.applied_to. intros Hs.
  inv_done Hs; adv_calls; calm_solve.
Qed.

Lemma host_op_calm r r' : host_op r r' → calm r r'.
Proof.
  intros Hop. destruct Hop as [r i t r' Hs|r i r' Hs|r i r' Hs|r cc r' x Hs|r w r' Hs|r w|r r' x Hs|r r' Hs
    |r b r' Hs|r ids r' Hs|r es|r|r t n r' Hs].
  - unfold Raft.on_persist_entries in Hs. inv_done Hs; adv_calls;
      match goal with H : RaftLog.maybe_persist _ _ _ = _ |- _ => apply maybe_persist_fields in H end; calm_solve.
  - unfold Raft.on_persist_snap in Hs. inv_done Hs. apply maybe_persist_snap_fields in Hc. calm_solve.
  - by eapply commit_apply_internal_calm.
  - by eapply apply_conf_change_calm.
  - unfold Raft.confirm_witness_append in Hs. inv_done Hs; adv_calls; calm_solve.
  - unfold Raft.reject_witness_append. repeat case_match; calm_solve.
  - by eapply request_snapshot_calm.
  - unfold Raft.ping, Raft.bcast_heartbeat in Hs. inv_done Hs; adv_calls; calm_solve.
  - unfold Raft.enable_group_commit in Hs. inv_done Hs; adv_calls; calm_solve.
  - unfold Raft.assign_commit_groups in Hs. inv_done Hs; adv_calls; apply assign_groups_quiet in Hc; calm_solve.
  - unfold Raft.reduce_uncommitted_size. case_match; calm_solve.
  - unfold Raft.maybe_free_inflight_buffers. calm_solve.
  - unfold Raft.adjust_max_inflight_msgs in Hs. inv_done Hs; calm_solve.
Qed.
End host.

Section creation.
Context {S : Type} `{Storage S} `{Proto} `{HashOrder} `{Rand}.
Implicit Types r : Raft.t S.

(** A node starts as a follower of the term it persisted, with the vote it
    persisted and nothing to send. *)
Lemma post_conf_change_follower r r' cs : Raft.post_conf_change r = Done (r', cs) → Raft.state r = Follower →
  quiet r r'.
Proof.
  unfold Raft.post_conf_change. intros Hs Hf. unfold Raft.is_role in Hs. simpl in Hs.
  rewrite Hf, andb_false_r in Hs. simpl in Hs. inv_done Hs. quiet_solve.
Qed.

Lemma commit_apply_internal_follower r i b r' : Raft.commit_apply_internal r i b = Done r' →
  Raft.state r = Follower →
  Raft.term r' = Raft.term r ∧ Raft.vote r' = Raft.vote r ∧ Raft.id r' = Raft.id r ∧ Raft.msgs r' = Raft.msgs r ∧
  Raft.state r' = Follower.
Proof.
  unfold Raft.commit_apply_internal. intros Hs Hf. unfold Raft.is_role in Hs. simpl in Hs.
  rewrite Hf, !andb_false_r in Hs. inv_done Hs; done.
Qed.

Lemma new_spec cfg store rs r :
  Raft.new cfg store = Done (Ok r) → st_initial_state store = Ok rs →
  Raft.id r = Config.id cfg ∧ Raft.term r = hs_term (Storage.hard_state rs) ∧
  Raft.vote r = hs_vote (Storage.hard_state rs) ∧ Raft.state r = Follower ∧
  ∀ m, m ∈ Raft.msgs r → is_grant m = false.
Proof.
  unfold Raft.new. intros Hs Hrs. rewrite Hrs in Hs. destruct (Config.validate cfg); [|by inv_done Hs].
  apply outcome_bind_Done in Hs as (l & _ & Hs). apply outcome_bind_Done in Hs as (li & _ & Hs).
  destruct (Changer.restore _ _ _) as [p [[]|e]]; [|by inv_done Hs].
  apply outcome_bind_Done in Hs as ([r1 cs] & Hp & Hs).
  apply post_conf_change_follower in Hp; [|done]. destruct (negb _); [done|].
  apply outcome_bind_Done in Hs as (r2 & Hl & Hs). apply outcome_bind_Done in Hs as (r3 & Ha & Hs).
  apply outcome_bind_Done in Hs as (r4 & Hf & Hs). inv_done Hs.
  assert (Raft.term r2 = hs_term (Storage.hard_state rs) ∧ Raft.vote r2 = hs_vote (Storage.hard_state rs) ∧
    Raft.id r2 = Config.id cfg ∧ Raft.msgs r2 = Raft.msgs r1 ∧ Raft.state r2 = Follower) as (E1 & E2 & E3 & E4 & E5).
  { case_bool_decide as Ed; unfold Raft.load_state in Hl; inv_done Hl; destruct Hp; simpl in *; [|done].
    rewrite Ed. done. }
  assert (Raft.term r3 = Raft.term r2 ∧ Raft.vote r3 = Raft.vote r2 ∧ Raft.id r3 = Raft.id r2 ∧
    Raft.msgs r3 = Raft.msgs r2 ∧ Raft.state r3 = Follower) as (F1 & F2 & F3 & F4 & F5).
  { destruct (0 <? Config.applied cfg); [by eapply commit_apply_internal_follower|]. inv_done Ha. done. }
  pose proof (become_follower_calm _ _ _ _ Hf ltac:(done)) as [_ Hg _ _].
  apply become_follower_spec in Hf as (G1 & G2 & G3 & _ & G4 & _). rewrite N.eqb_refl in G2.
  split_and!; [congruence..|]. intros m Hin. destruct (is_grant m) eqn:E; [|done].
  specialize (Hg m Hin E). rewrite F4, E4 in Hg. apply (q_grants _ _ Hp m) in Hg; [|done].
  by apply elem_of_nil in Hg.
Qed.
End creation.

(** ** Runs of a node *)

Section runs.
Context {S : Type} `{Storage S} `{Proto} `{HashOrder} `{Rand}.
Implicit Types r : Raft.t S.

(** One input to a node: a message, a tick, a host operation, or the host
    taking the messages to send. *)
Inductive node_step : Raft.t S → Raft.t S → Prop :=
| ns_message r m r' x : Raft.step r m = Done (r', x) → input_ok r m → node_step r r'
| ns_tick r r' b : Raft.tick r = Done (r', b) → Raft.term r < u64_max → node_step r r'
| ns_host r r' : host_op r r' → node_step r r'
| ns_take r : node_step r (r <| Raft.msgs := [] |> <| Raft.witness_msgs := [] |>).

Lemma node_step_advances r r' : node_step r r' → advances r r'.
Proof.
  destruct 1 as [r m r' x Hs []|r r' b Hs Hb|r r' Hop|r].
  - by eapply step_advances.
  - by eapply tick_advances.
  - by apply host_op_calm.
  - adv_solve.
Qed.

Lemma node_run_advances r r' : rtc node_step r r' → advances r r'.
Proof. induction 1 as [|r r1 r' Hs _ IH]; [reflexivity|]. etrans; [by apply node_step_advances|done]. Qed.
End runs.

(** ** Sample nodes *)

Lemma first_of_range (n : nat) (lo hi : N) : lo < hi → lo ≤ lo < hi.
Proof. lia. Qed.

(** The generator that always draws the lower end. *)
Definition w_rand : Rand := {| random_range _ lo _ := lo; random_range_spec := first_of_range |}.

Section samples.
#[local] Existing Instances w_rand w_proto elements_order.

Definition w_members : ConfState := default_ConfState <| cs_voters := [1; 2; 3] |>.
Definition w_disk : MemStorage.t := MemStorage.set_conf_state MemStorage.new w_members.

(** The node [i] of a cluster of three, just started. *)
Definition w_start (i : N) : outcome (Result (Raft.t MemStorage.t)) := Raft.new (Config.new i) w_disk.
Definition w_node (i : N) : Raft.t MemStorage.t :=
  match w_start i with
  | Done (Ok r) => r
  | _ => Raft.initial (Config.new i) (RaftLog.mk w_disk (Unstable.new 1) 0 0 0 0)
  end.

(** The state after a step, and the message it sends last. *)
Definition w_step (r : Raft.t MemStorage.t) (m : Message) : Raft.t MemStorage.t :=
  match Raft.step r m with Done (r', _) => r' | Panicked => r end.
Definition w_hup (i : N) : Message := new_message i MsgHup None.
Definition w_candidate : Raft.t MemStorage.t := w_step (w_node 1) (w_hup 1).
Definition w_request : Message := default default_Message (head (Raft.msgs w_candidate)).
Definition w_voter : Raft.t MemStorage.t := w_step (w_node 2) w_request.
Definition w_grant : Message := default default_Message (head (Raft.msgs w_voter)).
Definition w_leader : Raft.t MemStorage.t := w_step w_candidate w_grant.

Lemma w_started : w_start 1 = Done (Ok (w_node 1)) ∧ w_start 2 = Done (Ok (w_node 2)).
Proof. split; vm_compute; reflexivity. Qed.

Lemma w_elected : Raft.state w_leader = Leader ∧ Raft.term w_leader = 1 ∧ Raft.vote w_leader = 1 ∧
  Raft.vote w_voter = 1 ∧ is_grant w_grant = true.
Proof. split_and!; vm_compute; reflexivity. Qed.
End samples.

(** ** Properties *)

(** C8: Whatever messages, ticks and host operations a node goes through, its
    identity does not change, its term and its commit index never decrease, and
    a vote it has cast stands for as long as it stays in the term. *)
Theorem node_run_monotone {S} `{Storage S} `{Proto} `{HashOrder} `{Rand} (r r' : Raft.t S)
    (Hrun : rtc node_step r r') :
  Raft.id r' = Raft.id r ∧ Raft.term r ≤ Raft.term r' ∧
  RaftLog.committed (Raft.raft_log r) ≤ RaftLog.committed (Raft.raft_log r') ∧
  (Raft.term r' = Raft.term r → Raft.vote r ≠ 0 → Raft.vote r' = Raft.vote r).
Proof. destruct (node_run_advances _ _ Hrun) as [? ? ? ?]. done. Qed.

(** C7: A node becomes a leader by a message only if the votes it counted are a
    quorum of its configuration, and each vote counted is its own, one it had
    counted as a candidate of the same term, or the one the message grants for
    the term it now leads. *)
Theorem leader_elected_by_quorum {S} `{Storage S} `{Proto} `{HashOrder} `{Rand}
    (r : Raft.t S) (m : Message) (r' : Raft.t S) (x : Result unit)
    (Hs : Raft.step r m = Done (r', x)) (Hid : Raft.id r ≠ 0) (Hio : input_ok r m)
    (Hbefore : Raft.state r ≠ Leader) (Hafter : Raft.state r' = Leader) :
  ∃ vs, Tracker.vote_result (Raft.prs r) vs = Won ∧
    ∀ i, vs !! i = Some true →
      i = Raft.id r ∨
      (Raft.state r = Candidate ∧ Raft.term r = Raft.term r' ∧ Tracker.votes (Raft.prs r) !! i = Some true) ∨
      (m_msg_type m = MsgRequestVoteResponse ∧ m_reject m = false ∧ i = m_from m ∧ m_term m = Raft.term r').
Proof.
  destruct (mv_leader _ _ _ (step_moves _ _ _ _ Hs Hid Hio) Hafter) as [[? _]|(vs & Hw & Hvs)]; [done|].
  exists vs. split; [done|]. intros i Hi. destruct (Hvs i Hi) as [?|[?|(Hg & ? & ?)]]; [by left|by right; left|].
  right. right. unfold is_grant, is_type in Hg. apply andb_true_iff in Hg as [Hg ?%negb_true_iff].
  apply bool_decide_eq_true in Hg. done.
Qed.

(** ** Witnesses of the hypotheses *)

Lemma w_input_hup : input_ok (w_node 1) (w_hup 1).
Proof. split; vm_compute; try done. intros Hin. set_solver. Qed.

Lemma w_input_grant : input_ok w_candidate w_grant.
Proof. split; vm_compute; done. Qed.

Lemma w_campaign_step : @Raft.step _ (@MemStorage.storage w_proto) w_proto elements_order w_rand (w_node 1) (w_hup 1)
  = Done (w_candidate, Ok tt).
Proof. vm_compute. reflexivity. Qed.

Lemma w_election_step : @Raft.step _ (@MemStorage.storage w_proto) w_proto elements_order w_rand w_candidate w_grant
  = Done (w_leader, Ok tt).
Proof. vm_compute. reflexivity. Qed.

Lemma node_run_monotone_witness :
  Raft.id w_leader = 1 ∧ Raft.term (w_node 1) ≤ Raft.term w_leader ∧
  RaftLog.committed (Raft.raft_log (w_node 1)) ≤ RaftLog.committed (Raft.raft_log w_leader).
Proof.
  destruct (@node_run_monotone _ (@MemStorage.storage w_proto) w_proto elements_order w_rand (w_node 1) w_leader)
    as (Hi & Ht & Hc & _).
  - eapply rtc_l; [eapply ns_message; [apply w_campaign_step|apply w_input_hup]|].
    eapply rtc_l; [eapply ns_message; [apply w_election_step|apply w_input_grant]|]. reflexivity.
  - split_and!; [rewrite Hi; vm_compute; reflexivity|done|done].
Defined.

Lemma leader_elected_by_quorum_witness :
  ∃ vs, @Tracker.vote_result elements_order (Raft.prs w_candidate) vs = Won ∧
    ∀ i, vs !! i = Some true →
      i = Raft.id w_candidate ∨
      (Raft.state w_candidate = Candidate ∧ Raft.term w_candidate = Raft.term w_leader ∧
       Tracker.votes (Raft.prs w_candidate) !! i = Some true) ∨
      (m_msg_type w_grant = MsgRequestVoteResponse ∧ m_reject w_grant = false ∧ i = m_from w_grant ∧
       m_term w_grant = Raft.term w_leader).
Proof.
  apply (@leader_elected_by_quorum _ (@MemStorage.storage w_proto) w_proto elements_order w_rand
    w_candidate w_grant w_leader (Ok tt) w_election_step); [vm_compute; done|apply w_input_grant|vm_compute; done|].
  vm_compute. reflexivity.
Defined.
