(* ===== verification/Cluster.v ===== *)
(** * A cluster of nodes and witnesses

    Nodes that run the code of [raft.rs] under one voter configuration and
    witnesses that run the code of [witness.rs], connected by a network that
    may lose, repeat, delay and reorder messages and may invent any message
    but a granted vote.  Nodes may restart from the term and vote they
    persisted, and their hosts may rewrite their logs.  The invariant remembers
    who voted for whom in which term. *)
From S2P Require Import Prelude Errors Eraftpb ProtoConf Util Unstable Storage RaftLog Quorum Inflights Progress.
From S2P Require Import Tracker ConfChange ReadOnly Config Witness Raft RaftFrame RaftElection.

Section cluster.
Context {S : Type} `{Storage S} `{Proto} `{HashOrder} `{Rand}.
Implicit Types (r : Raft.t S) (w : Witness.t).

Record cluster : Type := mkCluster {
  nodes : gmap N (Raft.t S);
  witnesses : gmap N Witness.t;
  net : list Message
}.

Definition voters_of r : Joint.Configuration := Configuration.voters (Tracker.conf (Raft.prs r)).

(** The answer of a witness to a real vote request, as its host sends it. *)
Definition witness_answer (i : N) (m : WitnessMessage) (w' : Witness.t) (resp : option WitnessResponse)
    : list Message :=
  match wm_msg_type m, resp with
  | MsgRequestVote, Some (VoteGrant g) =>
    [default_Message <| m_msg_type := MsgRequestVoteResponse |> <| m_from := i |> <| m_to := wm_from m |>
       <| m_term := Witness.term w' |> <| m_reject := negb g |>]
  | _, _ => []
  end.

Definition set_node (cl : cluster) (i : N) r : cluster :=
  mkCluster (<[i := r]> (nodes cl)) (witnesses cl) (net cl).

(** One step of the cluster; [c] is the voter configuration it runs under. *)
Inductive cluster_step (c : Joint.Configuration) (cl : cluster) : cluster → Prop :=
| cs_message i r m r' x :
    nodes cl !! i = Some r → (is_grant m = true → m ∈ net cl ∧ m_to m = i) → input_ok r m →
    Raft.step r m = Done (r', x) → voters_of r' = c → cluster_step c cl (set_node cl i r')
| cs_tick i r r' b :
    nodes cl !! i = Some r → Raft.term r < u64_max →
    Raft.tick r = Done (r', b) → voters_of r' = c → cluster_step c cl (set_node cl i r')
| cs_host i r r' :
    nodes cl !! i = Some r → host_op r r' → voters_of r' = c → cluster_step c cl (set_node cl i r')
| cs_storage i r l :
    nodes cl !! i = Some r → cluster_step c cl (set_node cl i (r <| Raft.raft_log := l |>))
| cs_send i r :
    nodes cl !! i = Some r →
    cluster_step c cl (mkCluster (<[i := r <| Raft.msgs := [] |> <| Raft.witness_msgs := [] |>]> (nodes cl))
                         (witnesses cl) (net cl ++ Raft.msgs r))
| cs_restart i r cfg store rs r' :
    nodes cl !! i = Some r → Config.id cfg = i → st_initial_state store = Ok rs →
    hs_term (Storage.hard_state rs) = Raft.term r → hs_vote (Storage.hard_state rs) = Raft.vote r →
    Raft.new cfg store = Done (Ok r') → voters_of r' = c → cluster_step c cl (set_node cl i r')
| cs_witness i w m w' resp :
    witnesses cl !! i = Some w → wm_from m ≠ 0 → Witness.process w m = (w', resp) →
    cluster_step c cl (mkCluster (nodes cl) (<[i := w']> (witnesses cl))
                         (net cl ++ witness_answer i m w' resp))
| cs_lose ms :
    (∀ m, m ∈ ms → m ∈ net cl) → cluster_step c cl (mkCluster (nodes cl) (witnesses cl) ms).

(** Where a cluster starts: followers, each at a term and with a vote of its
    own, and no vote on its way. *)
Record cluster_init (c : Joint.Configuration) (cl : cluster) : Prop := mk_cluster_init {
  in_voters : Joint.incoming c ≠ ∅;
  in_node : ∀ i r, nodes cl !! i = Some r →
    Raft.id r = i ∧ i ≠ 0 ∧ voters_of r = c ∧ Raft.state r = Follower ∧ witnesses cl !! i = None ∧
    (∀ m, m ∈ Raft.msgs r → is_grant m = false);
  in_net : ∀ m, m ∈ net cl → is_grant m = false
}.

(** ** Who voted for whom *)

(** The candidate a voter voted for in a term. *)
Abbreviation history := (N → N → option N).

Definition extends (h h' : history) : Prop := ∀ k t j, h k t = Some j → h' k t = Some j.

(** The history of voter [i], whose term is [t] and whose vote in it is [v]. *)
Record voter_ok (h : history) (i t v : N) : Prop := mk_voter_ok {
  vo_vote : v ≠ 0 → h i t = Some v;
  vo_free : v = 0 → h i t = None;
  vo_later : ∀ t', t < t' → h i t' = None
}.

Definition remember (h : history) (i t v : N) : history :=
  λ k t', if negb (v =? 0) && (k =? i) && (t' =? t) then Some v else h k t'.

Lemma remember_other h i t v k t' : k ≠ i → remember h i t v k t' = h k t'.
Proof. intros Hne. unfold remember. rewrite (proj2 (N.eqb_neq k i)) by done. by rewrite andb_false_r. Qed.

Lemma remember_later h i t v t' : t < t' → remember h i t v i t' = h i t'.
Proof. intros Hlt. unfold remember. rewrite (proj2 (N.eqb_neq t' t)) by lia. by rewrite andb_false_r. Qed.

Lemma remember_same h i t v : remember h i t v i t = if v =? 0 then h i t else Some v.
Proof. unfold remember. rewrite !N.eqb_refl, !andb_true_r. by destruct (v =? 0). Qed.

Lemma voter_ok_other h i t v k t' v' : k ≠ i → voter_ok h k t' v' → voter_ok (remember h i t v) k t' v'.
Proof. intros Hne [A B C]. split; intros; rewrite remember_other; auto. Qed.

(** A voter whose term does not decrease and who keeps its vote within a term
    only adds to the history. *)
Lemma voter_ok_advance h i t v t' v' :
  voter_ok h i t v → t ≤ t' → (t' = t → v ≠ 0 → v' = v) →
  voter_ok (remember h i t' v') i t' v' ∧ extends h (remember h i t' v').
Proof.
  intros [A B C] Hle Hv.
  assert (h i t' = None ∨ h i t' = Some v') as Hold.
  { destruct (decide (t' = t)) as [->|]; [|left; apply C; lia].
    destruct (decide (v = 0)); [left; auto|right]. rewrite Hv by done. auto. }
  assert (v' = 0 → h i t' = None) as Hfree.
  { intros ->. destruct Hold as [|Hs]; [done|]. destruct (decide (t' = t)) as [->|]; [|rewrite C in Hs; [done|lia]].
    destruct (decide (v = 0)) as [|Hv0]; [rewrite B in Hs; done|]. by specialize (Hv eq_refl Hv0). }
  split; [split|].
  - intros Hnz. rewrite remember_same. by rewrite (proj2 (N.eqb_neq _ _) Hnz).
  - intros E. rewrite remember_same, E. simpl. auto.
  - intros t1 Hlt. rewrite remember_later by done. apply C. lia.
  - intros k T j Hj. unfold remember. destruct (negb (v' =? 0) && (k =? i) && (T =? t')) eqn:E; [|done].
    rewrite !andb_true_iff, !N.eqb_eq in E. destruct E as [[_ ->] ->]. destruct Hold; congruence.
Qed.

(** ** The invariant *)

Definition granted (h : history) (m : Message) : Prop := h (m_from m) (m_term m) = Some (m_to m).

(** Candidate [i] won term [t]: its granted votes are a quorum. *)
Definition won (c : Joint.Configuration) (h : history) (i t : N) : Prop :=
  ∃ vs : gmap N bool, Joint.vote_result c (λ k, vs !! k) = Won ∧ ∀ k, vs !! k = Some true → h k t = Some i.

Lemma won_mono c h h' i t : won c h i t → extends h h' → won c h' i t.
Proof. intros (vs & Hw & Hvs) Hs. exists vs. split; [done|]. intros k Hk. by apply Hs, Hvs. Qed.

Lemma won_unique c h i j t : Joint.incoming c ≠ ∅ → won c h i t → won c h j t → i = j.
Proof.
  intros Hc (v1 & [W1 _]%joint_Won & G1) (v2 & [W2 _]%joint_Won & G2).
  destruct (quorate_overlap _ _ _ Hc W1 W2) as (k & _ & E1 & E2).
  specialize (G1 k E1). specialize (G2 k E2). congruence.
Qed.

Record node_ok (c : Joint.Configuration) (h : history) (i : N) r : Prop := mk_node_ok {
  no_id : Raft.id r = i;
  no_nonzero : i ≠ 0;
  no_conf : voters_of r = c;
  no_voter : voter_ok h i (Raft.term r) (Raft.vote r);
  no_self : campaigning r → Raft.vote r = i;
  no_msgs : ∀ m, m ∈ Raft.msgs r → is_grant m = true → granted h m;
  no_cand : Raft.state r = Candidate → ∀ k, Tracker.votes (Raft.prs r) !! k = Some true →
    h k (Raft.term r) = Some i;
  no_lead : Raft.state r = Leader → won c h i (Raft.term r)
}.

Record cluster_inv (c : Joint.Configuration) (cl : cluster) (h : history) : Prop := mk_cluster_inv {
  ci_node : ∀ i r, nodes cl !! i = Some r → node_ok c h i r ∧ witnesses cl !! i = None;
  ci_witness : ∀ i w, witnesses cl !! i = Some w → voter_ok h i (Witness.term w) (Witness.vote w);
  ci_net : ∀ m, m ∈ net cl → is_grant m = true → granted h m
}.

(** Everything but the voter's own record survives a larger history. *)
Lemma node_ok_mono c h h' i r :
  node_ok c h i r → extends h h' → voter_ok h' i (Raft.term r) (Raft.vote r) → node_ok c h' i r.
Proof.
  intros [A B C D E F G L] Hs Hv.
  split; [done|done|done|done|done|..].
  - intros m Hm Hg. apply Hs. by apply F.
  - intros Hc k Hk. apply Hs. by apply G.
  - intros Hl. eapply won_mono; [by apply L|done].
Qed.

(** A node that moves, with new votes that the history has. *)
Lemma node_moves_ok G c h i r r' :
  node_ok c h i r → moves G r r' → voters_of r' = c → (∀ k, G k → h k (Raft.term r') = Some i) →
  let h' := remember h i (Raft.term r') (Raft.vote r') in node_ok c h' i r' ∧ extends h h'.
Proof.
  intros [A B C D E F Gc L] [Ad Gr Se Ca Le] Hc HG h'.
  pose proof Ad as [Aid At Av _].
  destruct (voter_ok_advance _ _ _ _ _ _ D At Av) as [Hv Hs]. fold h' in Hv, Hs. split; [|done].
  assert (campaigning r' → Raft.vote r' = i) as Hself.
  { intros Hcm. destruct (Se Hcm) as [->|[Hcr Ht]]; [done|]. rewrite <-(E Hcr). apply Av; [done|].
    by rewrite (E Hcr). }
  assert (campaigning r' → ∀ k, counted G r r' k → h' k (Raft.term r') = Some i) as Hcnt.
  { intros Hcm k [->|[(Hst & Ht & Hk)|Hk]]; [|apply Hs; rewrite <-Ht; auto|auto].
    rewrite A. pose proof (Hself Hcm) as Hvi. rewrite (vo_vote _ _ _ _ Hv); congruence. }
  split; [congruence|done|done|done|done|..].
  - intros m Hm Hg. unfold granted. destruct (Gr m Hm Hg) as [Hold|(-> & -> & -> & Hnz)]; [apply Hs; by apply (F m)|].
    replace (Raft.id r') with i by congruence. by apply Hv.
  - intros Hst k Hk. apply Hcnt; [by left|auto].
  - intros Hst. destruct (Le Hst) as [[Hl Ht]|(vs & Hw & Hvs)].
    + rewrite Ht. eapply won_mono; [by apply L|done].
    + exists vs. split; [|intros k Hk; apply Hcnt; [by right|auto]].
      rewrite <-C. exact Hw.
Qed.

Lemma cluster_inv_moved G c cl h i r r' :
  cluster_inv c cl h → nodes cl !! i = Some r → moves G r r' → voters_of r' = c →
  (∀ k, G k → h k (Raft.term r') = Some i) →
  cluster_inv c (set_node cl i r') (remember h i (Raft.term r') (Raft.vote r')) ∧
  extends h (remember h i (Raft.term r') (Raft.vote r')).
Proof.
  intros [Hn Hw Hnet] Hi Hmv Hc HG. destruct (Hn i r Hi) as [Hok Hwi].
  destruct (node_moves_ok G c h i r r' Hok Hmv Hc HG) as [Hok' Hsub].
  split; [split|exact Hsub].
  - intros k rk Hk. simpl in Hk. destruct (decide (k = i)) as [->|Hne].
    + rewrite lookup_insert_eq in Hk. by simplify_eq.
    + rewrite lookup_insert_ne in Hk by done. destruct (Hn k rk Hk) as [Hok1 ?]. split; [|done].
      eapply node_ok_mono; [done|done|]. apply voter_ok_other; [done|apply Hok1].
  - intros k w Hk. apply voter_ok_other; [|by apply Hw]. intros ->. simpl in Hk. congruence.
  - intros m Hm Hg. apply Hsub. by apply Hnet.
Qed.

Lemma cluster_inv_move G c cl h i r r' :
  cluster_inv c cl h → nodes cl !! i = Some r → moves G r r' → voters_of r' = c →
  (∀ k, G k → h k (Raft.term r') = Some i) → ∃ h', cluster_inv c (set_node cl i r') h' ∧ extends h h'.
Proof. intros Hinv Hi Hmv Hc HG. eexists. by apply (cluster_inv_moved G c cl h i r r'). Qed.

(** Histories with the same votes. *)
Lemma cluster_inv_ext c cl h h' : cluster_inv c cl h → (∀ k t, h' k t = h k t) → cluster_inv c cl h'.
Proof.
  intros [A B D] E. assert (∀ j t v, voter_ok h j t v → voter_ok h' j t v) as Hv
    by (intros j t v [? ? ?]; split; intros; rewrite E; auto).
  assert (extends h h') as Hx by (intros k t j; by rewrite E). split.
  - intros j rj Hj. destruct (A j rj Hj) as [Hok ?]. split; [|done]. eapply node_ok_mono; [done|done|apply Hv, Hok].
  - intros j w Hj. apply Hv. auto.
  - intros m' Hm Hg. apply Hx. by apply D.
Qed.

Lemma restart_moves r cfg store rs r' :
  Config.id cfg = Raft.id r → st_initial_state store = Ok rs →
  hs_term (Storage.hard_state rs) = Raft.term r → hs_vote (Storage.hard_state rs) = Raft.vote r →
  Raft.new cfg store = Done (Ok r') →
  Raft.id r' = Raft.id r ∧ Raft.term r' = Raft.term r ∧ Raft.vote r' = Raft.vote r ∧
  Raft.state r' = Follower ∧ ∀ m, m ∈ Raft.msgs r' → is_grant m = false.
Proof.
  intros Hid Hrs Ht Hv Hn. destruct (new_spec _ _ _ _ Hn Hrs) as (? & ? & ? & ? & ?). split_and!; [congruence..|done].
Qed.

(** Replacing a node by one that remembers as much and is calm. *)
Lemma cluster_inv_replace c cl h i r r' ms :
  cluster_inv c cl h → nodes cl !! i = Some r → node_ok c h i r' →
  (∀ m, m ∈ ms → is_grant m = true → granted h m) →
  cluster_inv c (mkCluster (<[i := r']> (nodes cl)) (witnesses cl) ms) h.
Proof.
  intros [Hn Hw Hnet] Hi Hok Hms. destruct (Hn i r Hi) as [_ Hwi]. split; simpl; [|done|done].
  intros k rk Hk. destruct (decide (k = i)) as [->|Hne].
  - rewrite lookup_insert_eq in Hk. by simplify_eq.
  - rewrite lookup_insert_ne in Hk by done. by apply Hn.
Qed.

(** A witness that processes a message. *)
Lemma witness_answer_granted i w m w' resp m' :
  Witness.process w m = (w', resp) → m' ∈ witness_answer i m w' resp → is_grant m' = true →
  m_from m' = i ∧ m_term m' = Witness.term w' ∧ m_to m' = Witness.vote w' ∧ wm_from m = Witness.vote w'.
Proof.
  unfold witness_answer. intros Hp Hin Hg. destruct (wm_msg_type m) eqn:E; try (by apply elem_of_nil in Hin).
  destruct resp as [[| g|]|]; try (by apply elem_of_nil in Hin).
  apply list_elem_of_singleton in Hin as ->. unfold is_grant, is_type in Hg. simpl in Hg.
  destruct g; [|done]. unfold Witness.process in Hp. rewrite E in Hp.
  destruct (N.le_gt_cases (Witness.term w) (wm_term m)) as [Hle|Hlt]; [|by rewrite handle_vote_stale in Hp].
  destruct (handle_vote_spec w m false Hle) as (g & Hv & _). rewrite Hv in Hp. injection Hp as <- ->. done.
Qed.

Lemma cluster_inv_witness c cl h i w m w' resp :
  cluster_inv c cl h → witnesses cl !! i = Some w → wm_from m ≠ 0 → Witness.process w m = (w', resp) →
  ∃ h', cluster_inv c (mkCluster (nodes cl) (<[i := w']> (witnesses cl)) (net cl ++ witness_answer i m w' resp)) h' ∧
    extends h h'.
Proof.
  intros [Hn Hw Hnet] Hi Hf Hp.
  pose proof (process_term_vote w m) as (Ht & _ & Hv). rewrite Hp in Ht, Hv. simpl in Ht, Hv.
  destruct (voter_ok_advance _ _ _ _ _ _ (Hw i w Hi) Ht Hv) as [Hok Hsub].
  eexists. split; [split; simpl|exact Hsub].
  - intros k rk Hk. destruct (Hn k rk Hk) as [Hkok Hkw].
    assert (k ≠ i) as Hne by (intros ->; congruence). split; [|by rewrite lookup_insert_ne].
    eapply node_ok_mono; [done|exact Hsub|]. apply voter_ok_other; [done|apply Hkok].
  - intros k wk Hk. destruct (decide (k = i)) as [->|Hne].
    + rewrite lookup_insert_eq in Hk. by simplify_eq.
    + rewrite lookup_insert_ne in Hk by done. apply voter_ok_other; [done|by apply Hw].
  - intros m' Hm Hg. apply elem_of_app in Hm as [Hm|Hm]; [apply Hsub; by apply Hnet|].
    destruct (witness_answer_granted _ _ _ _ _ _ Hp Hm Hg) as (E1 & E2 & E3 & E4).
    unfold granted. rewrite E1, E2, E3. apply Hok. congruence.
Qed.

Lemma cluster_step_inv c cl cl' h :
  cluster_inv c cl h → cluster_step c cl cl' → ∃ h', cluster_inv c cl' h' ∧ extends h h'.
Proof.
  intros Hinv Hstep. pose proof Hinv as [Hn Hw Hnet].
  assert (∀ cl1, cluster_inv c cl1 h → ∃ h', cluster_inv c cl1 h' ∧ extends h h') as Hsame
    by (intros cl1 ?; exists h; split; [done|by intros k]).
  destruct Hstep as [i r m r' x Hi Hg Hio Hs Hc|i r r' b Hi Hb Hs Hc|i r r' Hi Hop Hc|i r l Hi|i r Hi
    |i r cfg store rs r' Hi Hcfg Hrs Ht Hv Hnew Hc|i w m w' resp Hi Hf Hp|ms Hms].
  - destruct (Hn i r Hi) as [[A B _ _ _ _ _ _] _].
    eapply (cluster_inv_move (grant_from m (Raft.term r'))); [done|done| |done|].
    + eapply step_moves; [done|congruence|done].
    + intros k (Hgr & -> & Htm). destruct (Hg Hgr) as [Hin Hto]. specialize (Hnet m Hin Hgr).
      unfold granted in Hnet. congruence.
  - destruct (Hn i r Hi) as [[A B _ _ _ _ _ _] _].
    eapply (cluster_inv_move (λ _, False)); [done|done| |done|done]. eapply tick_moves; [done|congruence|done].
  - eapply (cluster_inv_move (λ _, False)); [done|done|by apply calm_moves, host_op_calm|done|done].
  - apply Hsame. destruct (Hn i r Hi) as [[A B C D E F G L] _]. eapply cluster_inv_replace; [done|done|by split|done].
  - apply Hsame. destruct (Hn i r Hi) as [[A B C D E F G L] _]. eapply cluster_inv_replace; [done|done| |].
    + split; try done. intros m Hm _. by apply elem_of_nil in Hm.
    + intros m Hm Hg. apply elem_of_app in Hm as [Hm|Hm]; [by apply Hnet|by apply F].
  - apply Hsame. destruct (Hn i r Hi) as [[A B C D E F G L] _].
    destruct (restart_moves r cfg store rs r') as (R1 & R2 & R3 & R4 & R5); [congruence|done..|].
    eapply cluster_inv_replace; [done|done| |done].
    split; [congruence|done|done|by rewrite R2, R3|intros [|]; congruence| |congruence|congruence].
    intros m Hm Hg. by rewrite R5 in Hg.
  - by eapply cluster_inv_witness.
  - apply Hsame. split; simpl; [done|done|]. intros m Hm. by apply Hnet, Hms.
Qed.

(** The history a cluster starts with: the votes its members hold. *)
Definition initial_history (cl : cluster) : history := λ i t,
  let held tm v := if (tm =? t) && negb (v =? 0) then Some v else None in
  match nodes cl !! i with
  | Some r => held (Raft.term r) (Raft.vote r)
  | None => match witnesses cl !! i with
            | Some w => held (Witness.term w) (Witness.vote w)
            | None => None
            end
  end.

Lemma cluster_init_inv c cl : cluster_init c cl → cluster_inv c cl (initial_history cl).
Proof.
  intros [_ Hn Hnet].
  assert (∀ i t v, (∀ t', initial_history cl i t' = if (t =? t') && negb (v =? 0) then Some v else None) →
    voter_ok (initial_history cl) i t v) as Hv.
  { intros i t v Hh. split; [intros Hnz|intros Hz|intros t' Hlt]; rewrite Hh.
    - by rewrite N.eqb_refl, (proj2 (N.eqb_neq _ _) Hnz).
    - by rewrite Hz, andb_false_r.
    - by rewrite (proj2 (N.eqb_neq t t')) by lia. }
  split.
  - intros i r Hi. destruct (Hn i r Hi) as (A & B & C & D & E & F). split; [|done].
    split; try done.
    + apply Hv. intros t'. unfold initial_history. by rewrite Hi.
    + intros [|]; congruence.
    + intros m Hm Hg. by rewrite F in Hg.
    + congruence.
    + congruence.
  - intros i w Hi. apply Hv. intros t'. unfold initial_history.
    destruct (nodes cl !! i) as [r|] eqn:E; [|by rewrite Hi].
    destruct (Hn i r E) as (_ & _ & _ & _ & Hw & _). congruence.
  - intros m Hm Hg. by rewrite Hnet in Hg.
Qed.

Lemma cluster_reachable_inv c cl0 cl :
  cluster_init c cl0 → rtc (cluster_step c) cl0 cl → ∃ h, cluster_inv c cl h.
Proof.
  intros Hi Hr. pose proof (ex_intro _ _ (cluster_init_inv _ _ Hi)) as Hinv. clear Hi.
  induction Hr as [|cl0 cl1 cl Hs _ IH]; [done|]. apply IH. destruct Hinv as [h Hh].
  destruct (cluster_step_inv _ _ _ _ Hh Hs) as (h' & ? & _). by exists h'.
Qed.
End cluster.
Arguments cluster S : clear implicits.

(** ** Properties *)

(** C3: Election safety.  In every state a cluster of nodes and witnesses can
    reach under a fixed voter configuration, whatever the network loses,
    repeats, delays, reorders or invents (granted votes excepted) and whichever
    nodes restart from their persisted term and vote or get their log rewritten
    by the host, two leaders of the same
    term are the same node. *)
Theorem election_safety {S} `{Storage S} `{Proto} `{HashOrder} `{Rand} (c : Joint.Configuration)
    (cl0 cl : cluster S) (i j : N) (r1 r2 : Raft.t S)
    (Hinit : cluster_init c cl0) (Hrun : rtc (cluster_step c) cl0 cl)
    (Hn1 : nodes cl !! i = Some r1) (Hn2 : nodes cl !! j = Some r2)
    (L1 : Raft.state r1 = Leader) (L2 : Raft.state r2 = Leader)
    (Ht : Raft.term r1 = Raft.term r2) : i = j.
Proof.
  destruct (cluster_reachable_inv _ _ _ Hinit Hrun) as [h [Hn _ _]].
  destruct (Hn _ _ Hn1) as [Ok1 _], (Hn _ _ Hn2) as [Ok2 _].
  eapply won_unique; [by eapply in_voters|by apply (no_lead _ _ _ _ Ok1)|].
  rewrite Ht. by apply (no_lead _ _ _ _ Ok2).
Qed.

(** ** Witnesses of the hypotheses *)

Section samples.
#[local] Existing Instances w_rand w_proto elements_order.

Definition w_voters : Joint.Configuration := Joint.new {[1; 2; 3]}.
Definition w_cluster (r1 r2 : Raft.t MemStorage.t) (ms : list Message) : cluster MemStorage.t :=
  mkCluster {[1 := r1; 2 := r2]} {[7 := Witness.new 7]} ms.
Definition w_sent (r : Raft.t MemStorage.t) : Raft.t MemStorage.t :=
  r <| Raft.msgs := [] |> <| Raft.witness_msgs := [] |>.
Definition w_quiet_candidate : Raft.t MemStorage.t := w_sent w_candidate.
Definition w_quiet_leader : Raft.t MemStorage.t := w_step w_quiet_candidate w_grant.

(** Node 1 campaigns, node 2 votes for it, and node 1 leads. *)
Lemma w_cluster_run :
  rtc (cluster_step w_voters) (w_cluster (w_node 1) (w_node 2) [])
    (w_cluster w_quiet_leader (w_sent w_voter) (Raft.msgs w_candidate ++ Raft.msgs w_voter)).
Proof.
  eapply rtc_l.
  { eapply (cs_message _ _ 1 (w_node 1) (w_hup 1) w_candidate (Ok tt)); [reflexivity|done|apply w_input_hup| |].
    - exact w_campaign_step.
    - vm_compute. reflexivity. }
  eapply rtc_l; [apply (cs_send _ _ 1 w_candidate); vm_compute; reflexivity|].
  eapply rtc_l.
  { eapply (cs_message _ _ 2 (w_node 2) w_request w_voter (Ok tt)); [vm_compute; reflexivity|vm_compute; done| | |].
    - split; vm_compute; done.
    - vm_compute. reflexivity.
    - vm_compute. reflexivity. }
  eapply rtc_l; [apply (cs_send _ _ 2 w_voter); vm_compute; reflexivity|].
  eapply rtc_l; [|].
  { eapply (cs_message _ _ 1 w_quiet_candidate w_grant w_quiet_leader (Ok tt)).
    - vm_compute. reflexivity.
    - intros _. split; [|vm_compute; reflexivity]. simpl. apply elem_of_app. right. vm_compute. left.
    - split; vm_compute; done.
    - vm_compute. reflexivity.
    - vm_compute. reflexivity. }
  match goal with |- rtc _ ?a ?b => replace a with b by (vm_compute; reflexivity) end. reflexivity.
Qed.

Lemma w_cluster_init : cluster_init w_voters (w_cluster (w_node 1) (w_node 2) []).
Proof.
  split.
  - done.
  - intros i r Hi. unfold w_cluster in Hi. simpl in Hi.
    apply lookup_insert_Some in Hi as [[<- <-]|[_ Hi]]; [|apply lookup_singleton_Some in Hi as [<- <-]];
      (split_and!; [vm_compute; reflexivity|done|vm_compute; reflexivity|vm_compute; reflexivity|vm_compute; reflexivity|]);
      intros m Hm; vm_compute in Hm; by apply elem_of_nil in Hm.
  - intros m Hm. by apply elem_of_nil in Hm.
Qed.

Lemma election_safety_witness : Raft.state w_quiet_leader = Leader ∧ (1 : N) = 1.
Proof.
  split; [vm_compute; reflexivity|].
  apply (election_safety w_voters (w_cluster (w_node 1) (w_node 2) [])
    (w_cluster w_quiet_leader (w_sent w_voter) (Raft.msgs w_candidate ++ Raft.msgs w_voter)) 1 1
    w_quiet_leader w_quiet_leader w_cluster_init w_cluster_run); vm_compute; reflexivity.
Defined.
End samples.
