(* ===== verification/RaftPromotion.v ===== *)
(** * How a node comes to campaign and to lead

    A node leads a term only if it led it before or campaigned in it, and
    campaigns in a term only if it did before or has just entered the term. *)
From S2P Require Import Prelude Errors Eraftpb ProtoConf Util Unstable Storage RaftLog Quorum Inflights Progress.
From S2P Require Import Tracker ConfChange ReadOnly Config Raft RaftFrame RaftElection.

Section promotion.
Context {S : Type} `{Storage S} `{Proto} `{HashOrder} `{Rand}.
#[local] Set Default Proof Using "All".
Implicit Types r : Raft.t S.

Record promotes r r' : Prop := mk_promotes {
  pm_adv : advances r r';
  pm_leader : Raft.state r' = Leader →
    Raft.state r = Leader ∧ Raft.term r' = Raft.term r ∨
    Raft.state r = Candidate ∧ Raft.term r' = Raft.term r ∨ Raft.term r < Raft.term r';
  pm_cand : Raft.state r' = Candidate →
    Raft.state r = Candidate ∧ Raft.term r' = Raft.term r ∨ Raft.term r < Raft.term r'
}.

#[export] Instance promotes_preorder : PreOrder promotes.
Proof.
  split; [intros r; split; auto; reflexivity|]. intros r1 r2 r3 [A1 L1 C1] [A2 L2 C2].
  pose proof (adv_term _ _ A1). pose proof (adv_term _ _ A2). split; [by etrans|..].
  - intros Hst. destruct (L2 Hst) as [[Hl E]|[[Hc E]|Hlt]].
    + destruct (L1 Hl) as [[? ?]|[[? ?]|?]]; [left|right; left|right; right]; (split; congruence) || lia.
    + destruct (C1 Hc) as [[? ?]|?]; [right; left; split; congruence|right; right; lia].
    + right; right. lia.
  - intros Hst. destruct (C2 Hst) as [[Hc E]|Hlt]; [|right; lia].
    destruct (C1 Hc) as [[? ?]|?]; [left; split; congruence|right; lia].
Qed.

Lemma calm_promotes r r' : calm r r' → promotes r r'.
Proof. intros [A _ L C]. split; [done|auto|]. intros (? & ? & _)%C. by left. Qed.

Lemma quiet_promotes r r' : quiet r r' → promotes r r'.
Proof. intros Hq. by apply calm_promotes, quiet_calm. Qed.

Lemma later_promotes r r' : advances r r' → Raft.term r < Raft.term r' → promotes r r'.
Proof. intros A Hlt. split; [done|auto|auto]. Qed.

Lemma become_leader_promotes r r' : Raft.become_leader r = Done r' → Raft.state r ≠ PreCandidate → promotes r r'.
Proof.
  intros Hs Hst. pose proof (become_leader_advances _ _ Hs) as (A & Ht & Hl). split; [done| |congruence].
  intros _. assert (Raft.state r ≠ Follower) as Hnf.
  { intros E. unfold Raft.become_leader, Raft.is_role in Hs. rewrite E in Hs. by apply outcome_bind_Done in Hs as (? & ? & _). }
  destruct (Raft.state r); try done; auto.
Qed.

Lemma poll_fuel_promotes_candidate fuel r from t v r' res :
  Raft.poll_fuel fuel r from t v = Done (r', res) → Raft.state r ≠ PreCandidate → promotes r r'.
Proof.
  intros Hs Hst. destruct fuel; cbn [Raft.poll_fuel] in Hs;
    destruct (Tracker.tally_votes_with_diff _) as [[[g rj] rs] diff];
    set (r0 := upd Raft.prs _ r) in Hs; assert (promotes r r0) as P0 by (by split; [split|auto|auto]);
    (etrans; [exact P0|]); assert (Raft.state r0 ≠ PreCandidate) as Hst0 by done; clearbody r0;
    inv_done Hs; try (unfold Raft.is_role in *; simpl in *; case_bool_decide; done);
    first [etrans; [by eapply become_leader_promotes|by apply quiet_promotes, bcast_append_quiet]
      |apply calm_promotes; by eapply become_follower_calm
      |apply quiet_promotes; by eapply ask_witnesses_quiet].
Qed.

Lemma campaign_election_promotes fuel r ct r' :
  Raft.campaign_with (Raft.poll_fuel fuel) r ct = Done r' → ct ≠ CAMPAIGN_PRE_ELECTION →
  Raft.term r < u64_max → promotes r r'.
Proof.
  intros Hs Hct Hb. pose proof (campaign_election_advances _ _ _ _ Hs Hct Hb) as Hadv.
  apply later_promotes; [done|]. unfold Raft.campaign_with in Hs. rewrite bool_decide_eq_false_2 in Hs by done.
  inv_done Hs;
    match goal with H : Raft.become_candidate _ = _ |- _ =>
      pose proof (become_candidate_spec _ _ H Hb) as (Ht & _ & Hst & _) end;
    match goal with H : Raft.poll_fuel _ _ _ _ _ = _ |- _ =>
      apply poll_fuel_candidate, adv_term in H; [|congruence] end; try lia.
  apply request_votes_quiet in Hs; [|auto]. pose proof (q_term _ _ Hs). lia.
Qed.

Lemma poll_promotes r from t v r' res :
  Raft.poll r from t v = Done (r', res) → Raft.term r < u64_max → promotes r r'.
Proof.
  intros Hs Hb. destruct (decide (Raft.state r = PreCandidate)) as [Hst|]; [|by eapply poll_fuel_promotes_candidate].
  unfold Raft.poll in Hs. cbn [Raft.poll_fuel] in Hs.
  destruct (Tracker.tally_votes_with_diff _) as [[[g rj] rs] diff].
  set (r0 := upd Raft.prs _ r) in Hs. assert (promotes r r0) as P0 by (by split; [split|auto|auto]).
  etrans; [exact P0|]. assert (Raft.is_role r0 PreCandidate = true) as Hst0 by (by apply is_role_spec).
  assert (Raft.term r0 < u64_max) as Hb0 by done. clearbody r0. rewrite Hst0 in Hs.
  inv_done Hs;
    first [by eapply (campaign_election_promotes 0)
      |apply calm_promotes; by eapply become_follower_calm
      |apply quiet_promotes; by eapply ask_witnesses_quiet].
Qed.

Lemma campaign_promotes r ct r' : Raft.campaign r ct = Done r' → Raft.term r < u64_max → promotes r r'.
Proof.
  intros Hs Hb. destruct (decide (ct = CAMPAIGN_PRE_ELECTION)) as [->|Hct]; [|by eapply (campaign_election_promotes 1)].
  unfold Raft.campaign, Raft.campaign_with in Hs. rewrite bool_decide_eq_true_2 in Hs by done.
  apply outcome_bind_Done in Hs as ([[r1 vm] tm] & Hp & Hs). inv_done Hp.
  pose proof (become_pre_candidate_advances _ _ Hc) as [A Ht].
  assert (promotes r r1) as P1.
  { unfold Raft.become_pre_candidate in Hc. inv_done Hc. by split; [|simpl; congruence|simpl; congruence]. }
  etrans; [exact P1|]. apply outcome_bind_Done in Hs as ([r2 res] & Hp & Hs).
  apply poll_promotes in Hp; [|congruence]. destruct (bool_decide _); inv_done Hs; [done|].
  etrans; [done|]. apply quiet_promotes. eapply request_votes_quiet; [done|auto].
Qed.

Lemma hup_promotes r b r' : Raft.hup r b = Done r' → Raft.term r < u64_max → promotes r r'.
Proof.
  unfold Raft.hup. intros Hs Hb. destruct (Raft.is_role r Leader); [by inv_done Hs|].
  apply outcome_bind_Done in Hs as ([r1 p] & Hu & Hs). apply has_unapplied_conf_changes_quiet in Hu.
  etrans; [by apply quiet_promotes|]. pose proof (q_term _ _ Hu).
  inv_done Hs; try reflexivity; (eapply campaign_promotes; [done|congruence]).
Qed.
(** ** Whole steps *)

Lemma handle_vote_request_promotes r m r' : Raft.handle_vote_request r m = Done r' → promotes r r'.
Proof.
  intros Hs. pose proof (handle_vote_request_advances _ _ _ Hs) as Hadv. unfold Raft.handle_vote_request in Hs.
  apply outcome_bind_Done in Hs as (ty & Hty & Hs). apply outcome_bind_Done in Hs as (g & _ & Hs). destruct g.
  - apply outcome_bind_Done in Hs as (r1 & Hsend & Hs). apply send_spec in Hsend as (m' & -> & _).
    split; [done|..]; inv_done Hs; simpl; auto.
  - apply outcome_bind_Done in Hs as ([c ct] & _ & Hs). apply outcome_bind_Done in Hs as (r1 & Hsend & Hs).
    apply send_quiet in Hsend; [|by destruct (vote_resp_type _ _ Hty) as [-> | ->]].
    apply maybe_commit_by_vote_calm in Hs. etrans; [by apply quiet_promotes|by apply calm_promotes].
Qed.

Lemma step_follower_promotes r m r' x :
  Raft.step_follower r m = Done (r', x) → Raft.term r < u64_max → promotes r r'.
Proof.
  unfold Raft.step_follower, Raft.ok. intros Hs Hb.
  destruct (m_msg_type m) eqn:E; inv_done Hs; adv_calls; try (apply calm_promotes; calm_solve).
  - apply handle_append_entries_calm in Hc. apply calm_promotes. calm_solve.
  - apply handle_snapshot_calm in Hc; [|done]. apply calm_promotes. calm_solve.
  - apply handle_heartbeat_calm in Hc. apply calm_promotes. calm_solve.
  - by eapply hup_promotes.
Qed.

Lemma step_candidate_promotes r m r' x :
  Raft.step_candidate r m = Done (r', x) → Raft.term r < u64_max → m_term m < u64_max →
  (from_leader m → Raft.term r ≤ m_term m) → promotes r r'.
Proof.
  unfold Raft.step_candidate, Raft.ok. intros Hs Hb Hbm Hm.
  assert (∀ ty v r1 res r2, Raft.poll r (m_from m) ty v = Done (r1, res) →
    Raft.maybe_commit_by_vote r1 m = Done r2 → promotes r r2) as Hpoll.
  { intros ty v r1 res r2 Hp Hv. etrans; [by eapply poll_promotes|]. by eapply calm_promotes, maybe_commit_by_vote_calm. }
  destruct (m_msg_type m) eqn:E; inv_done Hs; try reflexivity; eauto; apply calm_promotes.
  - pose proof (become_follower_spec _ _ _ _ Hc0) as (? & _).
    apply become_follower_calm in Hc0; [|apply Hm; unfold from_leader; set_solver].
    apply handle_append_entries_calm in Hc. calm_solve.
  - pose proof (become_follower_spec _ _ _ _ Hc0) as (? & _).
    apply become_follower_calm in Hc0; [|apply Hm; unfold from_leader; set_solver].
    apply handle_snapshot_calm in Hc; [|lia]. calm_solve.
  - apply become_follower_calm in Hc0; [|apply Hm; unfold from_leader; set_solver].
    apply handle_heartbeat_calm in Hc. calm_solve.
Qed.

Lemma step_promotes r m r' x : Raft.step r m = Done (r', x) → input_ok r m → promotes r r'.
Proof.
  intros Hs [Hb Hbm Hml _ _]. unfold Raft.step in Hs.
  apply outcome_bind_Done in Hs as ([r1 go] & Hck & Hs).
  apply check_term_calm in Hck as (Hc & _ & Hterm & Hlead).
  destruct go; simpl in Hs; [|inv_done Hs; by apply calm_promotes].
  assert (Raft.term r1 < u64_max) as Hb1 by (destruct Hterm; lia).
  etrans; [by apply calm_promotes|]. unfold Raft.ok in Hs.
  assert (match Raft.state r1 with
          | PreCandidate | Candidate => Raft.step_candidate r1 m
          | Follower => Raft.step_follower r1 m
          | Leader => Raft.step_leader r1 m
          end = Done (r', x) → promotes r1 r') as Hrest.
  { assert (from_leader m → Raft.term r1 ≤ m_term m) as Hle.
    { intros Hf. rewrite Hlead; [done|done|by apply from_leader_carries|auto]. }
    destruct (Raft.state r1); intros Hr; [by eapply step_follower_promotes| |by eapply calm_promotes, step_leader_calm|];
      by eapply step_candidate_promotes. }
  destruct (m_msg_type m) eqn:E; try (by apply Hrest); inv_done Hs;
    [by eapply hup_promotes|by eapply handle_vote_request_promotes..].
Qed.

Lemma tick_promotes r r' b : Raft.tick r = Done (r', b) → Raft.term r < u64_max → promotes r r'.
Proof.
  unfold Raft.tick. intros Hs Hb.
  assert (Raft.tick_election r = Done (r', b) → promotes r r') as Hel.
  { unfold Raft.tick_election. clear Hs. intros Hs. inv_done Hs; [apply calm_promotes; calm_solve|].
    match goal with H : Raft.step ?x _ = _ |- _ =>
      apply step_promotes in H; [|split; unfold from_leader; simpl; first [done|set_solver]];
      assert (calm r x) as Hc1 by calm_solve; etrans; [apply calm_promotes; exact Hc1|done] end. }
  destruct (Raft.state r) eqn:Est; try (by apply Hel). by eapply calm_promotes, tick_heartbeat_calm.
Qed.

Lemma host_op_promotes r r' : host_op r r' → promotes r r'.
Proof. intros Hop. by apply calm_promotes, host_op_calm. Qed.
End promotion.
