(* ===== verification/RaftReplication.v ===== *)
(** * Replication

    What the operations of a node do to the log it stands for: a leader only
    appends, commits only entries of its own term that a quorum has, and a
    follower takes over what a leader sends.  Stated on the views of
    [RaftLogSpec] for every storage that keeps the laws of the trait. *)
From S2P Require Import Prelude Errors Eraftpb ProtoConf Util Unstable Storage RaftLog RaftLogSpec Quorum Inflights.
From S2P Require Import Progress Tracker ConfChange ReadOnly Config Raft RaftFrame RaftElection.

(** ** Reading keeps the log *)
Section reading.
Context {S : Type} `{StorageLaws S}.
Implicit Types l : RaftLog.t S.

Definition log_ok l : Prop := log_wf l ∧ index_inv l.

Lemma st_read_view s s' : rtc st_read s s' → st_wf s → st_wf s' ∧ st_view s' = st_view s.
Proof.
  induction 1 as [|s s1 s' Hr _ IH]; [done|]. intros Hwf.
  assert (st_wf s1 ∧ st_view s1 = st_view s) as [Hwf1 Hv1].
  { destruct Hr as [s lo hi max ctx s1 x Hs|s i to s1 x Hs].
    - by eapply st_entries_frame.
    - by eapply st_snapshot_frame. }
  destruct (IH Hwf1). split; [done|congruence].
Qed.

Lemma log_read_view l l' : log_read l l' → log_wf l → log_wf l' ∧ log_view l' = log_view l.
Proof.
  intros [E Hr] Hwf. destruct (st_read_view _ _ Hr (lw_store _ Hwf)) as [Hw Hv]. rewrite E.
  by apply log_wf_store.
Qed.

Lemma log_read_ok l l' : log_read l l' → log_ok l → log_ok l' ∧ log_view l' = log_view l.
Proof.
  intros Hr [Hwf [A B C D]]. destruct (log_read_view _ _ Hr Hwf) as [Hw Hv].
  destruct (log_read_fields _ _ Hr) as (E1 & E2 & E3 & E4). split; [|done]. split; [done|].
  split; rewrite ?Hv, ?E1, ?E2, ?E3, ?E4; done.
Qed.

Lemma commit_to_ok l k l' : RaftLog.commit_to l k = Done l' → log_ok l → log_ok l' ∧ log_view l' = log_view l.
Proof.
  intros Hs [Hwf Hix]. unfold RaftLog.commit_to in Hs. destruct (N.leb_spec k (RaftLog.committed l)).
  { inv_done Hs. done. }
  rewrite last_index_view in Hs by done. cbn [mbind outcome_bind] in Hs.
  destruct (N.ltb_spec (vlast (log_view l)) k); inv_done Hs. split; [|done]. split; [by destruct Hwf|].
  destruct Hix as [A B C D]. split; change (log_view (l <| RaftLog.committed := k |>)) with (log_view l); simpl; try done; lia.
Qed.

(** Committing: only past the commit index, and only an entry of the given term. *)
Lemma log_maybe_commit_ok l k t l' b : RaftLog.maybe_commit l k t = Done (l', b) → log_ok l →
  log_ok l' ∧ log_view l' = log_view l ∧
  if b then RaftLog.committed l < k ∧ vterm (log_view l) k = Ok t ∧ RaftLog.committed l' = k else l' = l.
Proof.
  intros Hs Hok. pose proof Hok as [Hwf Hix]. unfold RaftLog.maybe_commit in Hs.
  destruct (N.ltb_spec (RaftLog.committed l) k); [|by inv_done Hs].
  rewrite term_view in Hs by done. cbn [mbind outcome_bind] in Hs.
  destruct (vterm (log_view l) k) as [t'|e] eqn:Et; simpl in Hs; [|by inv_done Hs].
  destruct (N.eqb_spec t' t) as [->|]; [|by inv_done Hs].
  apply outcome_bind_Done in Hs as (l1 & Hc & Hs). inv_done Hs.
  destruct (commit_to_ok _ _ _ Hc Hok) as [Hok' Hv]. split_and!; [done..|].
  unfold RaftLog.commit_to in Hc. rewrite (proj2 (N.leb_gt _ _)) in Hc by done. by inv_done Hc.
Qed.
End reading.

(** ** What an append message says of a log *)

(** The append [m] is a part of the log [v]. *)
Record faithful (v : stable_view) (m : Message) : Prop := mk_faithful {
  fa_term : sv_dummy v ≤ m_index m ≤ vlast v ∧ vterm v (m_index m) = Ok (m_log_term m) ∨
    m_entries m = [] ∧ m_log_term m = 0;
  fa_entries : ∀ k e, m_entries m !! k = Some e → vlookup v (m_index m + 1 + N.of_nat k) = Some e
}.

Lemma vlookup_index v i e : view_wf v → vlookup v i = Some e → e_index e = i.
Proof.
  intros [Hc _] He. pose proof (mk_is_Some _ _ He) as Hs%vlookup_is_Some.
  unfold vlookup in He. rewrite (proj2 (N.ltb_lt _ _)) in He by lia. rewrite (contiguous_lookup _ _ _ _ Hc He). lia.
Qed.

(** The log with [es] appended. *)
Definition vext (v : stable_view) (es : list Entry) : stable_view :=
  mkView (sv_dummy v) (sv_dummy_term v) (sv_ents v ++ es).

Lemma vlookup_vext v es i e : vlookup v i = Some e → vlookup (vext v es) i = Some e.
Proof. unfold vlookup. simpl. destruct (_ <? _); [|done]. apply lookup_app_l_Some. Qed.

Lemma vlast_vext v es : vlast (vext v es) = vlast v + len es.
Proof. unfold vlast, vext. simpl. rewrite len_app. lia. Qed.

Lemma vterm_vext v es i : sv_dummy v ≤ i → i ≤ vlast v → vterm (vext v es) i = vterm v i.
Proof.
  intros Hlo Hhi. unfold vterm. simpl. destruct (N.eqb_spec i (sv_dummy v)); [done|].
  destruct (proj2 (vlookup_is_Some v i)) as [e He]; [lia|]. by rewrite He, (vlookup_vext _ _ _ _ He).
Qed.

Lemma vext_nil v : vext v [] = v.
Proof. unfold vext. rewrite app_nil_r. by destruct v. Qed.

Lemma vext_app v es es' : vext (vext v es) es' = vext v (es ++ es').
Proof. unfold vext. simpl. by rewrite (assoc_L (++)). Qed.

(** A part of a log is a part of every extension of it. *)
Lemma faithful_vext v es m : faithful v m → faithful (vext v es) m.
Proof.
  intros [Ht He]. split; [|intros k e Hk; by apply vlookup_vext, He].
  destruct Ht as [[Hi Ht]|]; [left|by right]. rewrite vlast_vext, vterm_vext by lia. simpl. split; [lia|done].
Qed.

(** ** Operations that keep the log a node stands for *)
Section keeping.
Context {S : Type} `{StorageLaws S} `{HashOrder} `{Rand}.
Implicit Types r : Raft.t S.

Lemma limit_size_lookup es max k e : limit_size es max !! k = Some e → es !! k = Some e.
Proof. destruct (limit_size_prefix es max) as (n & -> & _). by intros [? _]%lookup_take_Some. Qed.

Lemma sub_entries_lookup v lo hi k e : sv_dummy v < lo →
  sub_entries (sv_dummy v) (sv_ents v) lo hi !! k = Some e → vlookup v (lo + N.of_nat k) = Some e.
Proof.
  intros Hlo Hk. unfold sub_entries in Hk. apply lookup_take_Some in Hk as [Hk _]. rewrite lookup_drop in Hk.
  unfold vlookup. destruct (N.ltb_spec (sv_dummy v) (lo + N.of_nat k)); [|lia].
  rewrite <-Hk. f_equal. lia.
Qed.

(** What was read from a log is a part of it. *)
Lemma entries_view l i max ctx l' es : RaftLog.entries l i max ctx = Done (l', Ok es) → log_wf l →
  sv_dummy (log_view l) < i ∧ ∀ k e, es !! k = Some e → vlookup (log_view l) (i + N.of_nat k) = Some e.
Proof.
  unfold RaftLog.entries. intros Hs Hl. rewrite last_index_view in Hs by done. cbn [mbind outcome_bind] in Hs.
  pose proof (log_view_wf l Hl) as [_ Hb]. destruct (N.ltb_spec (vlast (log_view l)) i) as [Hlt|Hle].
  { inv_done Hs. split; [unfold vlast in Hlt; lia|]. by intros k e ?. }
  destruct (N.lt_ge_cases (sv_dummy (log_view l)) i) as [Hlo|Hlo].
  - split; [done|]. rewrite u64_add_small in Hs by lia.
    destruct (slice_view l i (vlast (log_view l) + 1) max ctx Hl) as (s' & r & Hr & _ & _ & Hcase); [lia..|].
    rewrite Hs in Hr. injection Hr as _ Hr. destruct Hcase as [-> |[_ ->]]; [|done]. simplify_eq.
    intros k e Hk. apply limit_size_lookup in Hk. by eapply sub_entries_lookup.
  - unfold RaftLog.slice, RaftLog.must_check_outofbounds in Hs. rewrite u64_add_small in Hs by lia.
    rewrite (proj2 (N.ltb_ge (vlast (log_view l) + 1) i)), first_index_view in Hs by (done || lia).
    cbn [mbind outcome_bind] in Hs. rewrite (proj2 (N.ltb_lt i (sv_dummy (log_view l) + 1))) in Hs by lia. done.
Qed.

Lemma told_faithful l0 l m : told l0 l m → log_wf l0 → faithful (log_view l) m.
Proof.
  intros (l1 & next & max & ctx & l2 & R1 & R2 & Ei & He & Ht) Hw.
  destruct (log_read_view _ _ R1 Hw) as [Hw1 V1].
  pose proof (entries_read _ _ _ _ _ _ He) as R12. destruct (log_read_view _ _ R12 Hw1) as [Hw2 V2].
  destruct (log_read_view _ _ R2 Hw2) as [_ V]. rewrite term_view in Ht by done. injection Ht as Ht.
  destruct (entries_view _ _ _ _ _ _ He Hw1) as [Hlo Hk].
  pose proof (log_view_wf _ Hw1) as [_ Hb]. rewrite V, V2.
  assert (m_entries m ≠ [] → m_index m = next - 1 ∧ 0 < next) as Hi.
  { intros Hne. destruct (m_entries m) as [|e es]; [done|]. specialize (Hk 0%nat e eq_refl).
    apply mk_is_Some in Hk. apply vlookup_is_Some in Hk. rewrite Ei. u64_solve. }
  split.
  - destruct (m_entries m) as [|e es] eqn:Em.
    + rewrite V2 in Ht. destruct (decide (sv_dummy (log_view l1) ≤ m_index m ≤ vlast (log_view l1))) as [|Hout]; [by left|].
      right. split; [done|]. unfold vterm in Ht. destruct (N.eqb_spec (m_index m) (sv_dummy (log_view l1))).
      { unfold vlast in Hout. lia. }
      destruct (vlookup (log_view l1) (m_index m)) eqn:Ev; [|congruence].
      apply mk_is_Some, vlookup_is_Some in Ev. lia.
    + left. destruct Hi as [Hi1 Hi2]; [done|]. specialize (Hk 0%nat e eq_refl).
      apply mk_is_Some in Hk. apply vlookup_is_Some in Hk. rewrite <-V2 at 3. split; [lia|done].
  - intros k e Hke. destruct Hi as [-> ?]; [by destruct (m_entries m)|].
    rewrite <-(Hk k e Hke). f_equal. lia.
Qed.

(** The log is the same and stays well formed; it may be committed further.
    New appends say what is in it. *)
Record same_log r r' : Prop := mk_same_log {
  sl_batch : Raft.batch_append r' = Raft.batch_append r;
  sl_snap : Raft.snap r' = Raft.snap r;
  sl_log : log_ok (Raft.raft_log r) →
    log_ok (Raft.raft_log r') ∧ log_view (Raft.raft_log r') = log_view (Raft.raft_log r);
  sl_told : log_ok (Raft.raft_log r) → Raft.batch_append r = false →
    ∀ m, m ∈ Raft.msgs r' → m_msg_type m = MsgAppend →
    m ∈ Raft.msgs r ∨ faithful (log_view (Raft.raft_log r')) m
}.

#[export] Instance same_log_preorder : PreOrder same_log.
Proof.
  split; [intros r; split; auto|]. intros r1 r2 r3 [B1 N1 L1 T1] [B2 N2 L2 T2]. split; [congruence|congruence|..].
  - intros Hok. destruct (L1 Hok) as [Hok1 V1], (L2 Hok1) as [? V2]. split; [done|congruence].
  - intros Hok Hb m Hm Hty. destruct (L1 Hok) as [Hok1 V1].
    destruct (T2 Hok1 ltac:(congruence) m Hm Hty) as [Hm2|]; [|by right].
    destruct (T1 Hok Hb m Hm2 Hty); [by left|right]. by rewrite (proj2 (L2 Hok1)).
Qed.

Definition keeps r r' : Prop := Raft.term r' = Raft.term r ∧ same_log r r'.

#[export] Instance keeps_preorder : PreOrder keeps.
Proof. split; [by intros r; split|]. intros r1 r2 r3 [T1 L1] [T2 L2]. split; [congruence|by etrans]. Qed.

Lemma quiet_same_log r r' : quiet r r' → same_log r r'.
Proof.
  intros [? ? ? ? ? ? ? ? B T L]. split; [done| |..].
  - unfold Raft.snap. by destruct (log_read_fields _ _ L) as [-> _].
  - intros Hok. by apply (log_read_ok _ _ L).
  - intros Hok Hb m Hm Hty. destruct (T Hb m Hm Hty) as [|Ht]; [by left|right].
    eapply told_faithful; [done|apply Hok].
Qed.

Lemma quiet_keeps r r' : quiet r r' → keeps r r'.
Proof. intros Hq. split; [apply Hq|by apply quiet_same_log]. Qed.

(** An update of the log alone. *)
Lemma same_log_upd r l : Unstable.snapshot (RaftLog.unstable l) = Raft.snap r → (log_ok (Raft.raft_log r) → log_ok l ∧ log_view l = log_view (Raft.raft_log r)) →
  same_log r (r <| Raft.raft_log := l |>).
Proof. intros Hsn Hl. split; [done|done|done|]. intros _ _ m Hm _. by left. Qed.
End keeping.

(** Solving [keeps a b] by the calls between [a] and [b]. *)
Ltac same_log_upd :=
  let Hok := fresh in let Hm := fresh in
  split; [reflexivity | reflexivity | intros Hok; solve [split; [exact Hok | reflexivity]]
         | intros _ _ ? Hm _; left; exact Hm].
Ltac keeps_upd := split; [reflexivity | same_log_upd].
Ltac keeps_solve :=
  lazymatch goal with
  | |- keeps ?a ?b =>
    first [ reflexivity
          | assumption
          | match goal with
            | H : keeps ?x b |- _ => etrans; [|exact H]; clear H; keeps_solve
            | H : quiet ?x b |- _ => etrans; [|apply quiet_keeps; exact H]; clear H; keeps_solve
            end
          | lazymatch b with
            | upd _ _ ?x => apply (transitivity (y := x)); [keeps_solve|solve [keeps_upd]]
            | Raft.set_pr ?x _ _ => apply (transitivity (y := x)); [keeps_solve|solve [keeps_upd]]
            | Raft.set_epoch ?x _ => apply (transitivity (y := x)); [keeps_solve|solve [keeps_upd]]
            | Raft.abort_leader_transfer ?x => apply (transitivity (y := x)); [keeps_solve|solve [keeps_upd]]
            end ]
  end.

Section leader.
Context {S : Type} `{StorageLaws S} `{HashOrder} `{Rand}.
Implicit Types r : Raft.t S.

Lemma maybe_commit_keeps r r' b : Raft.maybe_commit r = Done (r', b) → keeps r r'.
Proof.
  unfold Raft.maybe_commit. intros Hs. apply outcome_bind_Done in Hs as (r1 & Hr1 & Hs).
  apply replicate_witnesses_quiet in Hr1. etrans; [apply quiet_keeps; exact Hr1|].
  apply outcome_bind_Done in Hs as ([l ad] & Hl & Hs).
  assert (keeps r1 (r1 <| Raft.raft_log := l |>)) as Hk.
  { split; [done|]. apply same_log_upd; [by apply log_maybe_commit_mono in Hl as [_ ->]|].
    intros Hok. by destruct (log_maybe_commit_ok _ _ _ _ _ Hl Hok) as (? & ? & _). }
  destruct ad; inv_done Hs; keeps_solve.
Qed.

Lemma commit_and_bcast_keeps r r' : Raft.commit_and_bcast r = Done r' → keeps r r'.
Proof.
  unfold Raft.commit_and_bcast. intros Hs. inv_done Hs; apply maybe_commit_keeps in Hc; [|done].
  apply bcast_append_quiet in Hs. keeps_solve.
Qed.

Lemma reset_same_log r tm r' : Raft.reset r tm = Done r' → same_log r r'.
Proof.
  intros Hs. pose proof (reset_spec _ _ _ Hs) as (_ & _ & _ & _ & Hl & _ & Hm & _).
  assert (Raft.batch_append r' = Raft.batch_append r) as Hb.
  { unfold Raft.reset, Raft.reset_randomized_election_timeout in Hs. inv_done Hs. simpl. by destruct (_ =? _). }
  split; [done|unfold Raft.snap; by rewrite Hl|by rewrite Hl|]. intros _ _ m. rewrite Hm. by left.
Qed.

Lemma become_follower_same_log r tm lead r' : Raft.become_follower r tm lead = Done r' → same_log r r'.
Proof.
  unfold Raft.become_follower. intros Hs. inv_done Hs. etrans; [by eapply reset_same_log|].
  split; [done|done| |].
  - intros [Hwf Hix]. split; [|done]. split; [by destruct Hwf|by destruct Hix].
  - intros _ _ m Hm _. by left.
Qed.

Lemma become_follower_keeps r lead r' : Raft.become_follower r (Raft.term r) lead = Done r' → keeps r r'.
Proof.
  intros Hs. pose proof (become_follower_spec _ _ _ _ Hs) as [Ht _]. split; [done|]. by eapply become_follower_same_log.
Qed.

Lemma check_proposals_keeps i ents r r' x : Raft.check_proposals i ents r = Done (r', x) → keeps r r'.
Proof.
  revert i r x. induction ents as [|e ents IH]; intros i r x Hs; cbn [Raft.check_proposals] in Hs.
  - inv_done Hs. reflexivity.
  - inv_done Hs; try reflexivity;
      match goal with H : Raft.check_proposals _ _ _ = _ |- _ => apply IH in H end; keeps_solve.
Qed.
End leader.

Ltac keeps_call H :=
  first [ apply send_quiet in H; [|not_grant] | apply bcast_append_quiet in H | apply send_append_quiet in H
        | apply send_append_aggressively_quiet in H | apply send_append_each_quiet in H
        | apply maybe_send_append_quiet in H | apply advance_reads_quiet in H
        | (let Hg := fresh "Hg" in apply handle_ready_read_index_quiet in H as [H Hg]; try specialize (Hg _ eq_refl))
        | apply bcast_heartbeat_with_ctx_quiet in H
        | apply maybe_commit_keeps in H | apply commit_and_bcast_keeps in H
        | apply become_follower_keeps in H | apply check_proposals_keeps in H ].
Ltac keeps_op Hs :=
  inv_done Hs; repeat match goal with H : _ = Done _ |- _ => keeps_call H end; keeps_solve.

Section leader_ops.
Context {S : Type} `{StorageLaws S} `{HashOrder} `{Rand}.
Implicit Types r : Raft.t S.

Lemma after_match_keeps r m p r' : Raft.after_match r m p = Done r' → keeps r r'.
Proof. unfold Raft.after_match, Raft.send_timeout_now. intros Hs. keeps_op Hs. Qed.

Lemma handle_append_response_keeps r m r' : Raft.handle_append_response r m = Done r' → keeps r r'.
Proof.
  unfold Raft.handle_append_response. intros Hs.
  inv_done Hs; repeat match goal with H : _ = Done _ |- _ => keeps_call H end; try keeps_solve;
    apply after_match_keeps in Hs; keeps_solve.
Qed.

Lemma handle_heartbeat_response_keeps r m r' : Raft.handle_heartbeat_response r m = Done r' → keeps r r'.
Proof. unfold Raft.handle_heartbeat_response. intros Hs. keeps_op Hs. Qed.

Lemma handle_transfer_leader_keeps r m r' : Raft.handle_transfer_leader r m = Done r' → keeps r r'.
Proof.
  unfold Raft.handle_transfer_leader, Raft.send_timeout_now. intros Hs.
  destruct (Raft.lead_transferee r); keeps_op Hs.
Qed.

Lemma handle_read_index_keeps r m r' : Raft.handle_read_index r m = Done r' → keeps r r'.
Proof. unfold Raft.handle_read_index. intros Hs. keeps_op Hs. Qed.

(** ** Appending *)

Lemma number_entries_len tm sub i es : len (Raft.number_entries tm sub i es) = len es.
Proof. revert i. induction es as [|e es IH]; intros i; [done|]. simpl. rewrite !len_cons. by rewrite IH. Qed.

Lemma number_entries_contiguous tm sub i es :
  i + len es < u64_modulus → contiguous i (Raft.number_entries tm sub i es).
Proof.
  revert i. induction es as [|e es IH]; intros i Hb; simpl; [done|]. rewrite len_cons in Hb.
  split; [done|]. rewrite u64_add_small by lia. apply IH. lia.
Qed.

Lemma number_entries_term tm sub i es : Forall (λ e, e_term e = tm) (Raft.number_entries tm sub i es).
Proof. revert i. induction es as [|e es IH]; intros i; simpl; constructor; [done|apply IH]. Qed.

(** A leader's append extends its log with entries of its term. *)
Lemma append_entry_ext r es r' b : Raft.append_entry r es = Done (r', b) →
  log_ok (Raft.raft_log r) → vlast (log_view (Raft.raft_log r)) + len es + 1 < u64_modulus →
  Raft.term r' = Raft.term r ∧ log_ok (Raft.raft_log r') ∧
  ∃ new, log_view (Raft.raft_log r') = vext (log_view (Raft.raft_log r)) new ∧
    Forall (λ e, e_term e = Raft.term r) new ∧ len new = if b then len es else 0.
Proof.
  unfold Raft.append_entry, Raft.maybe_increase_uncommitted_size. intros Hs Hok Hb.
  destruct (us_maybe_increase_uncommitted_size _ _) as [u ok].
  assert (vext (log_view (Raft.raft_log r)) [] = log_view (Raft.raft_log r)) as Hnil.
  { unfold vext. rewrite app_nil_r. by destruct (log_view _). }
  destruct ok; simpl in Hs; [|inv_done Hs; split_and!; [done|done|]; by exists []].
  pose proof Hok as [Hwf Hix]. rewrite last_index_view in Hs by done. cbn [mbind outcome_bind] in Hs.
  set (v := log_view (Raft.raft_log r)) in *.
  apply outcome_bind_Done in Hs as ([l li] & Ha & Hs). inv_done Hs.
  rewrite u64_add_small in Ha by lia.
  set (new := Raft.number_entries _ _ _ _) in Ha.
  assert (len new = len es) as Hlen by apply number_entries_len.
  simpl. split; [done|]. destruct (decide (new = [])) as [E|E].
  { rewrite E in Ha. simpl in Ha. rewrite last_index_view in Ha by done. inv_done Ha.
    split; [done|]. exists []. rewrite E in Hlen. done. }
  destruct (append_view (Raft.raft_log r) (vlast v + 1) new) as (u' & Ha' & Hwf' & Hv' & Hoff).
  { done. } { apply Hix. } { done. }
  { apply number_entries_contiguous. lia. }
  { destruct Hix. fold v in ix_committed. lia. } { done. } { lia. }
  rewrite Ha in Ha'. injection Ha' as El _. subst l.
  assert (log_view ((Raft.raft_log r) <| RaftLog.unstable := u' |>) = vext v new) as Hview.
  { rewrite Hv'. fold v. unfold vsplice, vext. f_equal. f_equal. apply take_ge. unfold vlast, len. lia. }
  assert (v = log_view (Raft.raft_log r)) as Ev by done.
  split; [|exists new; split_and!; [done|apply number_entries_term|done]].
  split; [done|]. destruct Hix as [A B C D]. split.
  - rewrite Hview. exact A.
  - rewrite Hview. unfold vlast, vext. simpl. rewrite len_app. fold v in B. unfold vlast in B. simpl. lia.
  - exact C.
  - simpl. rewrite Hoff. pose proof (log_view_offset _ Hwf) as Hend. fold v in Hend. lia.
Qed.
End leader_ops.

(** ** The leader only appends *)
Section append_only.
Context {S : Type} `{StorageLaws S} `{HashOrder} `{Rand}.
Implicit Types r : Raft.t S.

(** The log grew by at most [k] entries, all of the node's term; new appends
    say what is in it. *)
Record grown (k : N) r r' : Prop := mk_grown {
  gr_term : Raft.term r' = Raft.term r;
  gr_ok : log_ok (Raft.raft_log r');
  gr_ext : ∃ new, log_view (Raft.raft_log r') = vext (log_view (Raft.raft_log r)) new ∧
    Forall (λ e, e_term e = Raft.term r) new ∧ len new ≤ k;
  gr_batch : Raft.batch_append r' = Raft.batch_append r;
  gr_snap : Raft.snap r' = Raft.snap r;
  gr_told : Raft.batch_append r = false → ∀ m, m ∈ Raft.msgs r' → m_msg_type m = MsgAppend →
    m ∈ Raft.msgs r ∨ faithful (log_view (Raft.raft_log r')) m
}.

Definition grows (k : N) r r' : Prop :=
  log_ok (Raft.raft_log r) → vlast (log_view (Raft.raft_log r)) + k + 1 < u64_modulus → grown k r r'.

Lemma grows_trans k k' r r1 r' : grows k r r1 → grows k' r1 r' → grows (k + k') r r'.
Proof.
  intros G1 G2 Hok Hb. destruct G1 as [T1 O1 (n1 & V1 & F1 & L1) B1 N1 M1]; [done|lia|].
  destruct G2 as [T2 O2 (n2 & V2 & F2 & L2) B2 N2 M2]; [done|rewrite V1, vlast_vext; lia|].
  split; [congruence|done| |congruence|congruence|].
  - exists (n1 ++ n2). rewrite V2, V1, vext_app. split; [done|]. split; [|rewrite len_app; lia].
    apply Forall_app. split; [done|]. by rewrite <-T1.
  - intros Hba m Hm Hty. destruct (M2 ltac:(congruence) m Hm Hty) as [Hm2|]; [|by right].
    destruct (M1 Hba m Hm2 Hty); [by left|right]. rewrite V2. by apply faithful_vext.
Qed.

Lemma grows_le k k' r r' : grows k r r' → k ≤ k' → grows k' r r'.
Proof.
  intros Hg Hle Hok Hb. destruct Hg as [T O (new & V & F & L) B N M]; [done|lia|]. split; try done.
  exists new. split_and!; [done..|lia].
Qed.

Lemma keeps_grows k r r' : keeps r r' → grows k r r'.
Proof.
  intros [Ht [B N L T]] Hok _. destruct (L Hok) as [? E]. split; [done|done| |done|done|auto].
  exists []. rewrite vext_nil. split_and!; [done|done|rewrite len_nil; lia].
Qed.

Lemma keeps_grows_trans k r r1 r' : keeps r r1 → grows k r1 r' → grows k r r'.
Proof. intros Hk Hg. eapply (grows_trans 0 k); [by apply keeps_grows|done]. Qed.

Lemma grows_keeps_trans k r r1 r' : grows k r r1 → keeps r1 r' → grows k r r'.
Proof. intros Hg Hk. rewrite <-(N.add_0_r k). eapply grows_trans; [done|by apply keeps_grows]. Qed.

Lemma log_append_snapshot (l : RaftLog.t S) es l' i : RaftLog.append l es = Done (l', i) →
  Unstable.snapshot (RaftLog.unstable l') = Unstable.snapshot (RaftLog.unstable l).
Proof.
  unfold RaftLog.append, Unstable.truncate_and_append. intros Hs. inv_done Hs; try done; repeat case_match; done.
Qed.

Lemma append_entry_grows k r es r' b : Raft.append_entry r es = Done (r', b) → len es ≤ k → grows k r r'.
Proof.
  intros Hs Hle Hok Hb. destruct (append_entry_ext _ _ _ _ Hs Hok) as (? & ? & new & ? & ? & Hl); [lia|].
  assert (Raft.batch_append r' = Raft.batch_append r ∧ Raft.msgs r' = Raft.msgs r ∧ Raft.snap r' = Raft.snap r)
    as (Hba & Hm & Hsn).
  { unfold Raft.append_entry, Raft.maybe_increase_uncommitted_size in Hs.
    destruct (us_maybe_increase_uncommitted_size _ _) as [u ok]. inv_done Hs; [done|].
    split_and!; [done..|]. by apply log_append_snapshot in Hc0. }
  split; [done|done| |done|done|].
  - exists new. split_and!; [done..|]. destruct b; lia.
  - intros _ m Hin _. left. by rewrite <-Hm.
Qed.

Lemma maybe_start_new_subterm_grows k r a b r' x :
  Raft.maybe_start_new_subterm r a b = Done (r', x) → 1 ≤ k → grows k r r'.
Proof.
  unfold Raft.maybe_start_new_subterm. intros Hs Hk.
  destruct (a || b); [|destruct (Tracker.change_replication_set (Raft.prs r) (Raft.id r)) as [p ch]];
    inv_done Hs; try (apply keeps_grows; keeps_solve);
    (eapply keeps_grows_trans; [|eapply append_entry_grows; [exact Hc|done]]; keeps_solve).
Qed.

Lemma check_proposals_len i ents r r' es :
  Raft.check_proposals i ents r = Done (r', Some es) → len es = len ents.
Proof.
  revert i r es. induction ents as [|e ents IH]; intros i r es Hs; cbn [Raft.check_proposals] in Hs.
  - by inv_done Hs.
  - inv_done Hs; repeat match goal with o : option (list Entry) |- _ => destruct o end; simplify_eq/=;
      match goal with H : Raft.check_proposals _ _ _ = _ |- _ => apply IH in H end; rewrite !len_cons; lia.
Qed.

Lemma handle_propose_grows r m r' x : Raft.handle_propose r m = Done (r', x) → grows (len (m_entries m)) r r'.
Proof.
  unfold Raft.handle_propose. intros Hs. case_bool_decide; [done|].
  destruct (bool_decide _ || bool_decide _); [inv_done Hs; apply keeps_grows; reflexivity|].
  apply outcome_bind_Done in Hs as ([r1 [es|]] & Hc & Hs); [|inv_done Hs; apply keeps_grows; by eapply check_proposals_keeps].
  pose proof (check_proposals_len _ _ _ _ _ Hc) as Hl. apply check_proposals_keeps in Hc.
  eapply keeps_grows_trans; [exact Hc|].
  apply outcome_bind_Done in Hs as ([r2 ok] & Ha & Hs). eapply append_entry_grows in Ha; [|by rewrite Hl].
  destruct ok; cbn [negb] in Hs; inv_done Hs; [|done].
  apply bcast_append_quiet in Hc0. eapply grows_keeps_trans; [done|by apply quiet_keeps].
Qed.

Lemma handle_check_quorum_grows k r r' : Raft.handle_check_quorum r = Done r' → 1 ≤ k → grows k r r'.
Proof.
  unfold Raft.handle_check_quorum. intros Hs Hk. apply outcome_bind_Done in Hs as ([r1 adj] & H1' & Hs).
  assert (grows k r r1) as Hg.
  { destruct (Raft.has_witness r); inv_done H1'; [by eapply maybe_start_new_subterm_grows|apply keeps_grows; reflexivity]. }
  eapply grows_keeps_trans; [exact Hg|].
  inv_done Hs; repeat match goal with H : Raft.check_quorum_active _ = _ |- _ => apply check_quorum_active_quiet in H end;
    try (apply become_follower_keeps in Hs); keeps_solve.
Qed.

Lemma step_leader_grows r m r' x : Raft.step_leader r m = Done (r', x) → grows (1 + len (m_entries m)) r r'.
Proof.
  intros Hs. destruct (decide (m_msg_type m = MsgPropose)) as [E|Hnp].
  { unfold Raft.step_leader in Hs. rewrite E in Hs. apply handle_propose_grows in Hs.
    eapply grows_le; [done|lia]. }
  destruct (decide (m_msg_type m = MsgCheckQuorum)) as [E|Hnq].
  { unfold Raft.step_leader, Raft.ok in Hs. rewrite E in Hs. inv_done Hs.
    eapply handle_check_quorum_grows; [done|lia]. }
  apply keeps_grows. unfold Raft.step_leader, Raft.ok, Raft.bcast_heartbeat in Hs.
  destruct (m_msg_type m); try done; inv_done Hs;
    repeat match goal with H : _ = Done _ |- _ => keeps_call H end; try keeps_solve.
  - by apply handle_append_response_keeps in Hc.
  - by apply handle_heartbeat_response_keeps in Hc.
  - unfold Raft.handle_unreachable. case_match; keeps_solve.
  - unfold Raft.handle_snapshot_status. repeat case_match; keeps_solve.
  - by apply handle_transfer_leader_keeps in Hc.
  - by apply handle_read_index_keeps in Hc.
Qed.
End append_only.

(** ** Committing *)
Section committing.
Context {S : Type} `{StorageLaws S} `{HashOrder} `{Rand}.
Implicit Types r : Raft.t S.

(** The index the leader knows voter [v] to have. *)
Definition matched_of r (v : N) : N :=
  match Tracker.get (Raft.prs r) v with Some pr => Progress.matched pr | None => 0 end.

Lemma matched_of_acked r v : i_index (Majority.acked (Tracker.progress (Raft.prs r)) v) = matched_of r v.
Proof.
  unfold Majority.acked, acked_index, ProgressMap_acked, matched_of, Tracker.get.
  by destruct (Tracker.progress (Raft.prs r) !! v).
Qed.

Lemma maximal_committed_index_quorum r n : n ≤ u64_max →
  n ≤ (Tracker.maximal_committed_index (Raft.prs r)).1 →
  quorate_joint (Configuration.voters (Tracker.conf (Raft.prs r))) (λ v, n ≤ matched_of r v).
Proof.
  intros Hn Hle. unfold Tracker.maximal_committed_index in Hle.
  assert (n ≤ (Joint.committed_index (Configuration.voters (Tracker.conf (Raft.prs r))) false
                 (Tracker.progress (Raft.prs r))).1) as Hq.
  { destruct (Tracker.group_commit _); [|done]. etrans; [done|apply joint_group_commit_le]. }
  apply joint_committed_index_quorate in Hq as [Hi Ho]; [|done].
  split; (eapply quorate_mono; [|eassumption]); intros v _ Hv; cbv beta in *; rewrite <-matched_of_acked; exact Hv.
Qed.

Lemma maybe_commit_rule r r' : Raft.maybe_commit r = Done (r', true) → log_ok (Raft.raft_log r) →
  let c' := RaftLog.committed (Raft.raft_log r') in
  RaftLog.committed (Raft.raft_log r) < c' ∧ vterm (log_view (Raft.raft_log r)) c' = Ok (Raft.term r) ∧
  quorate_joint (Configuration.voters (Tracker.conf (Raft.prs r'))) (λ v, c' ≤ matched_of r' v).
Proof.
  unfold Raft.maybe_commit. intros Hs Hok. apply outcome_bind_Done in Hs as (r1 & Hr1 & Hs).
  apply replicate_witnesses_quiet in Hr1.
  destruct (log_read_ok _ _ (q_log _ _ Hr1) Hok) as [Hok1 Hv1].
  destruct (log_read_fields _ _ (q_log _ _ Hr1)) as (_ & Hc1 & _).
  apply outcome_bind_Done in Hs as ([l ad] & Hl & Hs). destruct ad; [|by inv_done Hs].
  destruct (log_maybe_commit_ok _ _ _ _ _ Hl Hok1) as (Hokl & Hvl & Hlt & Ht & Hc).
  apply outcome_bind_Done in Hs as (pr & Hpr & Hs). apply unwrap_Done in Hpr. injection Hs as Hr'.
  assert (∀ v, matched_of r' v = matched_of r1 v) as Hm.
  { intros v. rewrite <-Hr'. unfold matched_of, Tracker.get. simpl. destruct (decide (v = Raft.id r1)) as [->|Hne].
    - rewrite lookup_insert_eq. unfold Tracker.get in Hpr. simpl in Hpr. rewrite Hpr.
      unfold Progress.update_committed. by case_match.
    - by rewrite lookup_insert_ne. }
  assert (RaftLog.committed (Raft.raft_log r') = (Tracker.maximal_committed_index (Raft.prs r1)).1) as ->
    by (rewrite <-Hr', <-Hc; done).
  assert (Tracker.conf (Raft.prs r') = Tracker.conf (Raft.prs r1)) as -> by (by rewrite <-Hr').
  cbv zeta. rewrite <-Hv1, <-Hc1, <-(q_term _ _ Hr1). split_and!; [done|done|].
  assert (quorate_joint (Configuration.voters (Tracker.conf (Raft.prs r1)))
    (λ v, (Tracker.maximal_committed_index (Raft.prs r1)).1 ≤ matched_of r1 v)) as [Hi Ho].
  { apply maximal_committed_index_quorum; [|done]. rewrite <-Hc.
    destruct Hokl as [Hwf Hix]. pose proof (ix_committed _ Hix). pose proof (log_view_wf _ Hwf) as [_ Hbd].
    unfold u64_max, u64_modulus in *. lia. }
  split; (eapply quorate_mono; [|eassumption]); intros v _ Hle; cbv beta in *; rewrite Hm; exact Hle.
Qed.
End committing.

(** ** A leader's step *)
Section leader_step.
Context {S : Type} `{StorageLaws S} `{HashOrder} `{Rand}.
#[local] Set Default Proof Using "All".
Implicit Types r : Raft.t S.

Lemma send_keeps r m r' : Raft.send r m = Done r' → m_msg_type m ≠ MsgAppend → keeps r r'.
Proof.
  intros (m' & -> & E & _)%send_spec Hty. split; [done|]. split; [done|done|done|]. intros _ _ m0 Hin Hty0. simpl in Hin.
  apply elem_of_app in Hin as [|Hin%list_elem_of_singleton]; [by left|]. congruence.
Qed.

Lemma send_vote_resp_keeps r m ty r' : vote_resp_msg_type (m_msg_type m) = Done ty →
  ∀ m', Raft.send r m' = Done r' → m_msg_type m' = ty → keeps r r'.
Proof. intros Hty m' Hs E. eapply send_keeps; [done|]. destruct (vote_resp_type _ _ Hty); congruence. Qed.

(** A leader refuses every vote of its term. *)
Lemma handle_vote_request_keeps r m r' :
  Raft.handle_vote_request r m = Done r' → Raft.state r = Leader → keeps r r'.
Proof.
  unfold Raft.handle_vote_request. intros Hs Hl.
  apply outcome_bind_Done in Hs as (ty & Hty & Hs). apply outcome_bind_Done in Hs as (g & _ & Hs). destruct g.
  - inv_done Hs; match goal with H : Raft.send _ _ = _ |- _ =>
      eapply send_vote_resp_keeps in H; [|exact Hty|done] end; keeps_solve.
  - apply outcome_bind_Done in Hs as ([c ct] & _ & Hs). apply outcome_bind_Done in Hs as (r1 & Hsend & Hs).
    assert (Raft.state r1 = Leader) as Hl1 by (by apply send_spec in Hsend as (? & -> & _)).
    eapply send_vote_resp_keeps in Hsend; [|exact Hty|done]. unfold Raft.maybe_commit_by_vote in Hs.
    rewrite (proj2 (is_role_spec r1 Leader) Hl1), orb_true_r in Hs. destruct (_ || _); inv_done Hs; done.
Qed.

Lemma step_leader_state r m r' x : Raft.step r m = Done (r', x) → Raft.state r = Leader →
  m_term m ≤ Raft.term r → grows (1 + len (m_entries m)) r r'.
Proof.
  intros Hs Hl Ht. unfold Raft.step in Hs. apply outcome_bind_Done in Hs as ([r1 go] & Hck & Hs).
  assert (keeps r r1 ∧ (go = true → r1 = r)) as [Hk Hgo].
  { unfold Raft.check_term in Hck. destruct (m_term m =? 0); [inv_done Hck; split; [reflexivity|done]|].
    destruct (N.ltb_spec (Raft.term r) (m_term m)); [lia|].
    destruct (m_term m <? Raft.term r); inv_done Hck; (split; [|done]);
      repeat match goal with H : Raft.send _ _ = _ |- _ => apply send_keeps in H; [|done] end; keeps_solve. }
  destruct go; simpl in Hs; [|inv_done Hs; by apply keeps_grows]. rewrite Hgo in Hs by done.
  assert (Raft.step_leader r m = Done (r', x) → grows (1 + len (m_entries m)) r r') as Hlead by apply step_leader_grows.
  rewrite Hl in Hs. unfold Raft.ok in Hs.
  destruct (m_msg_type m) eqn:E; try (by apply Hlead); inv_done Hs; apply keeps_grows;
    try by eapply handle_vote_request_keeps.
  unfold Raft.hup in Hc. rewrite (proj2 (is_role_spec r Leader) Hl) in Hc. inv_done Hc. reflexivity.
Qed.
End leader_step.

(** ** Properties *)

(** C5: Leader append-only.  Whatever message a leader handles that does not
    carry a higher term, the log it stands for afterwards is the log before,
    followed by new entries of the leader's own term. *)
Theorem leader_append_only {S} `{StorageLaws S} `{HashOrder} `{Rand} (r : Raft.t S) (m : Message)
    (r' : Raft.t S) (x : Result unit)
    (Hs : Raft.step r m = Done (r', x)) (Hl : Raft.state r = Leader) (Ht : m_term m ≤ Raft.term r)
    (Hok : log_ok (Raft.raft_log r))
    (Hb : vlast (log_view (Raft.raft_log r)) + len (m_entries m) + 2 < u64_modulus) :
  Raft.term r' = Raft.term r ∧ log_ok (Raft.raft_log r') ∧
  ∃ new, log_view (Raft.raft_log r') = vext (log_view (Raft.raft_log r)) new ∧
    Forall (λ e, e_term e = Raft.term r) new.
Proof.
  destruct (step_leader_state _ _ _ _ Hs Hl Ht Hok ltac:(lia)) as [? ? (new & ? & ? & _) _ _ _].
  split_and!; [done..|]. by exists new.
Qed.

(** C6: The commit rule of a leader.  When [maybe_commit] reports progress, the
    commit index has advanced to an entry of the leader's own term, and the
    matched indexes that the leader has recorded in its tracker reach it for a
    majority of each half of the configuration.  This is about what the leader
    has recorded: whether the members hold the entry depends on what they have
    told it. *)
Theorem leader_commit_rule {S} `{StorageLaws S} `{HashOrder} `{Rand} (r r' : Raft.t S)
    (Hs : Raft.maybe_commit r = Done (r', true)) (Hok : log_ok (Raft.raft_log r)) :
  let c' := RaftLog.committed (Raft.raft_log r') in
  RaftLog.committed (Raft.raft_log r) < c' ∧
  vterm (log_view (Raft.raft_log r)) c' = Ok (Raft.term r) ∧
  log_view (Raft.raft_log r') = log_view (Raft.raft_log r) ∧
  quorate_joint (Configuration.voters (Tracker.conf (Raft.prs r'))) (λ v, c' ≤ matched_of r' v).
Proof.
  destruct (maybe_commit_rule r r' Hs Hok) as (? & ? & ?).
  destruct (maybe_commit_keeps _ _ _ Hs) as [_ [_ _ Hk _]]. by destruct (Hk Hok).
Qed.

(** ** Witnesses of the hypotheses *)

(** The leader of [RaftElection] is offered one entry. *)
Definition w_proposal : Message :=
  (new_message 1 MsgPropose (Some 1)) <| m_entries := [default_Entry <| e_data := [7] |>] |>.
Definition w_proposed : Raft.t MemStorage.t := w_step w_leader w_proposal.
(** The leader when every node has its first entry. *)
Definition w_acked : Raft.t MemStorage.t :=
  w_leader <| Raft.prs ::= λ p, p <| Tracker.progress ::= fmap (λ pr, pr <| Progress.matched := 1 |>) |> |>.
Definition w_committed : Raft.t MemStorage.t :=
  match @Raft.maybe_commit _ (@MemStorage.storage w_proto) w_proto elements_order w_acked with Done (r, _) => r | Panicked => w_acked end.

Lemma w_propose_step : @Raft.step _ (@MemStorage.storage w_proto) w_proto elements_order w_rand w_leader w_proposal
  = Done (w_proposed, Ok tt).
Proof. vm_compute. reflexivity. Qed.

Lemma w_commit_step : @Raft.maybe_commit _ (@MemStorage.storage w_proto) w_proto elements_order w_acked
  = Done (w_committed, true).
Proof. vm_compute. reflexivity. Qed.

Definition w_own_log : RaftLog.t MemStorage.t := Eval vm_compute in Raft.raft_log w_leader.

Lemma w_leader_log : Raft.raft_log w_leader = w_own_log.
Proof. vm_compute. reflexivity. Qed.


Lemma w_log_ok : @log_ok _ (@MemStorage.storage w_proto) w_proto (@mem_storage_laws w_proto) w_own_log.
Proof.
  split; split; simpl; try done.
Qed.

Lemma w_leader_ok : @log_ok _ (@MemStorage.storage w_proto) w_proto (@mem_storage_laws w_proto) (Raft.raft_log w_leader).
Proof. rewrite w_leader_log. apply w_log_ok. Qed.

Lemma w_leader_is : Raft.state w_leader = Leader ∧ m_term w_proposal ≤ Raft.term w_leader.
Proof. split; vm_compute; done. Qed.

Lemma w_leader_room :
  vlast (@log_view _ (@MemStorage.storage w_proto) w_proto (@mem_storage_laws w_proto) (Raft.raft_log w_leader)) +
  len (m_entries w_proposal) + 2 < u64_modulus.
Proof. rewrite w_leader_log. vm_compute. done. Qed.

Lemma w_acked_ok : @log_ok _ (@MemStorage.storage w_proto) w_proto (@mem_storage_laws w_proto) (Raft.raft_log w_acked).
Proof. assert (Raft.raft_log w_acked = w_own_log) as -> by (vm_compute; reflexivity). apply w_log_ok. Qed.

Lemma leader_append_only_witness :
  Raft.term w_proposed = Raft.term w_leader ∧
  @log_ok _ (@MemStorage.storage w_proto) w_proto (@mem_storage_laws w_proto) (Raft.raft_log w_proposed) ∧
  ∃ new, @log_view _ (@MemStorage.storage w_proto) w_proto (@mem_storage_laws w_proto) (Raft.raft_log w_proposed) =
      vext (@log_view _ (@MemStorage.storage w_proto) w_proto (@mem_storage_laws w_proto) (Raft.raft_log w_leader)) new ∧
    Forall (λ e, e_term e = Raft.term w_leader) new.
Proof.
  exact (@leader_append_only _ (@MemStorage.storage w_proto) w_proto (@mem_storage_laws w_proto) elements_order w_rand
    w_leader w_proposal w_proposed (Ok tt) w_propose_step (proj1 w_leader_is) (proj2 w_leader_is) w_leader_ok w_leader_room).
Defined.

Lemma leader_commit_rule_witness :
  RaftLog.committed (Raft.raft_log w_acked) < RaftLog.committed (Raft.raft_log w_committed) ∧
  vterm (@log_view _ (@MemStorage.storage w_proto) w_proto (@mem_storage_laws w_proto) (Raft.raft_log w_acked))
    (RaftLog.committed (Raft.raft_log w_committed)) = Ok (Raft.term w_acked).
Proof.
  pose proof (@leader_commit_rule _ (@MemStorage.storage w_proto) w_proto (@mem_storage_laws w_proto) elements_order
    w_rand w_acked w_committed w_commit_step w_acked_ok) as Hc. split; [exact (proj1 Hc)|exact (proj1 (proj2 Hc))].
Defined.
