(* ===== verification/RaftLogSteps.v ===== *)
(** * The log over a whole step

    What any message or tick does to the log a node stands for: nothing, an
    append by a leader, the receiving of a batch by a follower or the
    replacement of the log by a snapshot; and that every append message a node
    sends says what is in its log. *)
From S2P Require Import Prelude Errors Eraftpb ProtoConf Util Unstable Storage RaftLog RaftLogSpec Quorum.
From S2P Require Import Inflights Progress Tracker ConfChange ReadOnly Config Raft RaftFrame RaftElection.
From S2P Require Import RaftReplication.

(** The log can take [k] more entries. *)
Abbreviation room k r := (vlast (log_view (Raft.raft_log r)) + k + 1 < u64_modulus).

(** ** Becoming a leader *)
Section rising.
Context {S : Type} `{StorageLaws S} `{HashOrder} `{Rand}.
#[local] Set Default Proof Using "All".
Implicit Types r : Raft.t S.

(** What holds of the log and of the appends after any operation. *)
Record sound r r' : Prop := mk_sound {
  so_ok : log_ok (Raft.raft_log r');
  so_batch : Raft.batch_append r' = Raft.batch_append r;
  so_snap : Raft.snap r' = Raft.snap r ∨ is_Some (Raft.snap r');
  so_told : Raft.batch_append r = false → ∀ m, m ∈ Raft.msgs r' → m_msg_type m = MsgAppend →
    m ∈ Raft.msgs r ∨ faithful (log_view (Raft.raft_log r')) m
}.

(** The log is the same, or the node now leads and has appended to it. *)
Definition rises r r' : Prop := log_ok (Raft.raft_log r) → room 1 r →
  sound r r' ∧
  (log_view (Raft.raft_log r') = log_view (Raft.raft_log r) ∨
   Raft.state r' = Leader ∧
   ∃ new, log_view (Raft.raft_log r') = vext (log_view (Raft.raft_log r)) new ∧
     Forall (λ e, e_term e = Raft.term r') new).

Lemma same_log_rises r r' : same_log r r' → rises r r'.
Proof. intros [B N L T] Hok _. destruct (L Hok). split; [split; auto|by left]. Qed.

Lemma same_log_rises_trans r r1 r' : same_log r r1 → rises r1 r' → rises r r'.
Proof.
  intros [B N L T] Hr Hok Hb. destruct (L Hok) as [Hok1 V]. rewrite <-V in Hb |- *.
  destruct (Hr Hok1 Hb) as [[O1 B1 N1 T1] Hcase]. split; [|done]. split; [done|congruence|by rewrite <-N|].
  intros Hba m Hm Hty. destruct (T1 ltac:(congruence) m Hm Hty) as [Hm1|]; [|by right].
  destruct (T Hok Hba m Hm1 Hty) as [|Hf]; [by left|right]. destruct Hcase as [->|(_ & new & -> & _)]; [done|].
  by apply faithful_vext.
Qed.

(** A follow-up that keeps the log, the term and a leader's role. *)
Lemma rises_same_log_trans r r1 r' : rises r r1 → same_log r1 r' → Raft.term r' = Raft.term r1 →
  (Raft.state r1 = Leader → Raft.state r' = Leader) → rises r r'.
Proof.
  intros Hr [B N L T] Ht Hst Hok Hb. destruct (Hr Hok Hb) as [[O1 B1 N1 T1] Hcase].
  destruct (L O1) as [O2 V]. split.
  - split; [done|congruence|by rewrite N|]. intros Hba m Hm Hty.
    destruct (T O1 ltac:(congruence) m Hm Hty) as [Hm1|]; [|by right].
    destruct (T1 Hba m Hm1 Hty); [by left|right]. by rewrite V.
  - rewrite V, Ht. destruct Hcase as [|(? & ?)]; [by left|right; auto].
Qed.

Lemma rises_quiet_trans r r1 r' : rises r r1 → quiet r1 r' → rises r r'.
Proof.
  intros Hr Hq. eapply rises_same_log_trans; [done|by apply quiet_same_log|apply Hq|].
  by rewrite (q_state _ _ Hq).
Qed.

Lemma become_leader_rises r r' : Raft.become_leader r = Done r' → rises r r'.
Proof.
  intros Hs. pose proof (become_leader_advances _ _ Hs) as (_ & Ht & Hst).
  assert (grows 1 r r') as Hg.
  { unfold Raft.become_leader in Hs. inv_done Hs;
      match goal with H : Raft.reset _ _ = _ |- _ =>
        pose proof (reset_spec _ _ _ H) as (? & _); apply reset_same_log in H end;
      (match goal with H : same_log r ?x |- _ => assert (keeps r x) as Hk by done; clear H end);
      eapply keeps_grows_trans; try (eapply maybe_start_new_subterm_grows; [eassumption|lia]);
      try (eapply append_entry_grows; [eassumption|done]); keeps_solve. }
  intros Hok Hb. destruct (Hg Hok Hb) as [T O (new & V & F & _) B N M]. split; [split; auto|right].
  split; [done|]. exists new. by rewrite T.
Qed.

Lemma poll_fuel_rises_candidate fuel r from t v r' res :
  Raft.poll_fuel fuel r from t v = Done (r', res) → Raft.state r ≠ PreCandidate → rises r r'.
Proof.
  intros Hs Hst. destruct fuel; cbn [Raft.poll_fuel] in Hs;
    destruct (Tracker.tally_votes_with_diff _) as [[[g rj] rs] diff];
    inv_done Hs; try (unfold Raft.is_role in *; simpl in *; case_bool_decide; done);
    (eapply same_log_rises_trans; [|first [eapply rises_quiet_trans; [by eapply become_leader_rises|by apply bcast_append_quiet]
      |apply same_log_rises; by eapply become_follower_same_log
      |apply same_log_rises, quiet_same_log; by eapply ask_witnesses_quiet]]); same_log_upd.
Qed.

Lemma become_candidate_same_log r r' : Raft.become_candidate r = Done r' → same_log r r'.
Proof.
  unfold Raft.become_candidate. intros Hs. inv_done Hs. etrans; [by eapply reset_same_log|same_log_upd].
Qed.

Lemma become_pre_candidate_same_log r r' : Raft.become_pre_candidate r = Done r' → same_log r r'.
Proof. unfold Raft.become_pre_candidate. intros Hs. inv_done Hs. same_log_upd. Qed.

(** A campaign, given what its [poll] does. *)
Lemma campaign_with_rises p r ct r' : Raft.campaign_with p r ct = Done r' →
  (∀ r1 t r2 res, p r1 (Raft.id r1) t true = Done (r2, res) →
    (ct ≠ CAMPAIGN_PRE_ELECTION → Raft.state r1 = Candidate) → rises r1 r2) → rises r r'.
Proof.
  unfold Raft.campaign_with. intros Hs Hp.
  apply outcome_bind_Done in Hs as ([[r1 vm] tm] & Hb & Hs).
  assert (same_log r r1 ∧ (vm = MsgRequestVote ∨ vm = MsgRequestPreVote) ∧
    (ct ≠ CAMPAIGN_PRE_ELECTION → Raft.state r1 = Candidate)) as (Hsl & Hvm & Hst).
  { case_bool_decide; inv_done Hb; (split_and!; [|auto|]).
    - by apply become_pre_candidate_same_log.
    - done.
    - by apply become_candidate_same_log.
    - intros _. unfold Raft.become_candidate in *. inv_done Hc. done. }
  apply outcome_bind_Done in Hs as ([r2 res] & Hpl & Hs).
  pose proof (Hp _ _ _ _ Hpl Hst) as Hr. eapply same_log_rises_trans; [exact Hsl|].
  destruct (bool_decide (res = Won)); inv_done Hs; [done|].
  eapply rises_quiet_trans; [exact Hr|]. by eapply request_votes_quiet.
Qed.

Lemma poll_rises r from t v r' res : Raft.poll r from t v = Done (r', res) → rises r r'.
Proof.
  intros Hs. destruct (decide (Raft.state r = PreCandidate)) as [Hst|]; [|by eapply poll_fuel_rises_candidate].
  unfold Raft.poll in Hs. cbn [Raft.poll_fuel] in Hs.
  destruct (Tracker.tally_votes_with_diff _) as [[[g rj] rs] diff].
  inv_done Hs;
    (eapply same_log_rises_trans; [|first
      [eapply campaign_with_rises; [eassumption|]; intros; eapply (poll_fuel_rises_candidate 0); [eassumption|];
       match goal with H : _ → Raft.state _ = Candidate |- _ => rewrite H by done end; done
      |eapply rises_quiet_trans; [by eapply become_leader_rises|by apply bcast_append_quiet]
      |apply same_log_rises; by eapply become_follower_same_log
      |apply same_log_rises, quiet_same_log; by eapply ask_witnesses_quiet]]); same_log_upd.
Qed.

Lemma hup_rises r b r' : Raft.hup r b = Done r' → rises r r'.
Proof.
  unfold Raft.hup. intros Hs. destruct (Raft.is_role r Leader); [inv_done Hs; by apply same_log_rises|].
  apply outcome_bind_Done in Hs as ([r1 p] & Hu & Hs).
  eapply same_log_rises_trans; [eapply quiet_same_log; by eapply has_unapplied_conf_changes_quiet|].
  assert (∀ ct, Raft.campaign r1 ct = Done r' → rises r1 r') as Hc.
  { intros ct Hct. eapply campaign_with_rises; [exact Hct|]. intros; by eapply poll_rises. }
  inv_done Hs; eauto. by apply same_log_rises.
Qed.
End rising.

(** ** Receiving *)

(** An append as a leader sends it: entries that follow [m_index], of real
    terms, after a real term unless they are the first of the log. *)
Record append_ok (m : Message) : Prop := mk_append_ok {
  ao_contiguous : contiguous (m_index m + 1) (m_entries m);
  ao_terms : Forall (λ e, e_term e ≠ 0) (m_entries m);
  ao_prev : m_entries m ≠ [] → m_log_term m = 0 → m_index m = 0;
  ao_bound : m_entries m ≠ [] → m_index m + len (m_entries m) + 1 < u64_modulus
}.

(** The log [v] received the append [m]: its term at [m_index] is the
    message's, and what it drops is not committed. *)
Record received (v : stable_view) (committed : N) (m : Message) (v' : stable_view) : Prop := mk_received {
  rc_index : committed ≤ m_index m ≤ vlast v;
  rc_term : vterm v (m_index m) = Ok (m_log_term m);
  rc_conflict : vconflict v (m_index m) (m_entries m) = 0 ∨ committed < vconflict v (m_index m) (m_entries m);
  rc_view : v' = vreceive v (m_index m) (m_entries m)
}.

Definition snapshot_view (sn : Snapshot) : stable_view :=
  mkView (sm_index (s_metadata sn)) (Some (sm_term (s_metadata sn))) [].

Section receiving.
Context {S : Type} `{StorageLaws S} `{HashOrder} `{Rand}.
#[local] Set Default Proof Using "All".
Implicit Types (r : Raft.t S) (l : RaftLog.t S).

Lemma maybe_append_empty l idx tm c l' x : RaftLog.maybe_append l idx tm c [] = Done (l', x) →
  log_ok l → log_ok l' ∧ log_view l' = log_view l.
Proof.
  unfold RaftLog.maybe_append. intros Hs Hok. apply outcome_bind_Done in Hs as (b & _ & Hs).
  destruct b; [|inv_done Hs; done]. cbn [RaftLog.find_conflict mbind outcome_bind mret outcome_ret] in Hs. simpl in Hs.
  apply outcome_bind_Done in Hs as (l1 & Hc & Hs). inv_done Hs. by eapply commit_to_ok.
Qed.

Lemma maybe_append_received l m c l' x :
  RaftLog.maybe_append l (m_index m) (m_log_term m) c (m_entries m) = Done (l', x) →
  log_ok l → RaftLog.committed l ≤ m_index m → append_ok m →
  log_ok l' ∧ (log_view l' = log_view l ∨ received (log_view l) (RaftLog.committed l) m (log_view l')).
Proof.
  intros Hs Hok Hc [Hct Ht Hp Hb].
  destruct (decide (m_entries m = [])) as [E|Hne].
  { rewrite E in Hs. destruct (maybe_append_empty _ _ _ _ _ _ Hs Hok). by split; [|left]. }
  pose proof Hok as [Hwf Hix]. pose proof Hix as [Hd Hcl _ _].
  destruct (decide (vterm (log_view l) (m_index m) = Ok (m_log_term m))) as [Hm|Hm].
  2: { rewrite maybe_append_reject in Hs by done. inv_done Hs. by split; [|left]. }
  assert (m_index m ≤ vlast (log_view l)) as Hlast.
  { destruct (N.le_gt_cases (m_index m) (vlast (log_view l))) as [|Hgt]; [done|]. exfalso.
    unfold vterm in Hm. unfold vlast in Hgt. rewrite (proj2 (N.eqb_neq _ _)) in Hm by lia.
    destruct (vlookup (log_view l) (m_index m)) eqn:Ev.
    - apply mk_is_Some, vlookup_is_Some in Ev. unfold vlast in Ev. lia.
    - injection Hm as Hm. rewrite Hp in Hgt by done. lia. }
  destruct (decide (vconflict (log_view l) (m_index m) (m_entries m) = 0 ∨
    RaftLog.committed l < vconflict (log_view l) (m_index m) (m_entries m))) as [Hcf|Hcf].
  2: { by rewrite maybe_append_committed in Hs by (auto || lia). }
  destruct (maybe_append_accept l (m_index m) (m_log_term m) c (m_entries m)) as (l2 & E & ? & ? & Hv & _); auto; [lia|].
  rewrite E in Hs. inv_done Hs. split; [done|right]. by split.
Qed.

Lemma send_request_snapshot_keeps r r' : Raft.send_request_snapshot r = Done r' → keeps r r'.
Proof. unfold Raft.send_request_snapshot. intros Hs. inv_done Hs. by eapply send_keeps. Qed.

(** The log after a handler of a leader's message, [m]. *)
Definition takes (m : Message) r r' : Prop := log_ok (Raft.raft_log r) →
  sound r r' ∧
  (log_view (Raft.raft_log r') = log_view (Raft.raft_log r) ∨
   m_msg_type m = MsgAppend ∧ Raft.state r' = Follower ∧
     received (log_view (Raft.raft_log r)) (RaftLog.committed (Raft.raft_log r)) m (log_view (Raft.raft_log r')) ∨
   m_msg_type m = MsgSnapshot ∧ Raft.state r' ≠ Leader ∧ RaftLog.committed (Raft.raft_log r) ≤ sm_index (s_metadata (m_snapshot m)) ∧
     log_view (Raft.raft_log r') = snapshot_view (m_snapshot m) ∧ Raft.snap r' = Some (m_snapshot m)).

Lemma same_log_takes m r r' : same_log r r' → takes m r r'.
Proof. intros [B N L T] Hok. destruct (L Hok). split; [split; auto|by left]. Qed.

Lemma maybe_append_snapshot l idx tm c es l' x : RaftLog.maybe_append l idx tm c es = Done (l', x) →
  Unstable.snapshot (RaftLog.unstable l') = Unstable.snapshot (RaftLog.unstable l).
Proof.
  unfold RaftLog.maybe_append. intros Hs. inv_done Hs; try done;
    match goal with H : RaftLog.commit_to _ _ = _ |- _ => apply commit_to_mono in H as [_ ->] end; simpl; try done;
    match goal with H : RaftLog.append _ _ = _ |- _ => apply log_append_snapshot in H end; try case_match; done.
Qed.

Lemma send_msgs r m r' : Raft.send r m = Done r' → m_msg_type m ≠ MsgAppend →
  Raft.raft_log r' = Raft.raft_log r ∧ Raft.batch_append r' = Raft.batch_append r ∧ Raft.state r' = Raft.state r ∧
  ∀ m0, m0 ∈ Raft.msgs r' → m_msg_type m0 = MsgAppend → m0 ∈ Raft.msgs r.
Proof.
  intros (m' & -> & E & _)%send_spec Hty. split_and!; [done..|]. intros m0 Hin Hty0. simpl in Hin.
  apply elem_of_app in Hin as [|Hin%list_elem_of_singleton]; [done|]. congruence.
Qed.

Lemma handle_append_entries_takes r m r' : Raft.handle_append_entries r m = Done r' →
  m_msg_type m = MsgAppend → append_ok m → Raft.state r = Follower → takes m r r'.
Proof.
  unfold Raft.handle_append_entries. intros Hs Hty Hao Hnl.
  destruct (negb _); [apply same_log_takes; by apply send_request_snapshot_keeps in Hs as [_ ?]|].
  destruct (N.ltb_spec (m_index m) (RaftLog.committed (Raft.raft_log r))) as [|Hge].
  { apply same_log_takes. by eapply send_keeps in Hs as [_ ?]. }
  apply outcome_bind_Done in Hs as ([l res] & Ha & Hs). apply outcome_bind_Done in Hs as (ts & Hts & Hs).
  assert (m_msg_type ts = MsgAppendResponse) as Ets by (destruct res as [[? ?]|]; inv_done Hts; done).
  apply send_msgs in Hs as (El & Eb & Est & Em); [|simpl; congruence]. intros Hok.
  destruct (maybe_append_received _ _ _ _ _ Ha Hok Hge Hao) as [Hok' Hv]. simpl in El.
  split; [split; [by rewrite El|done| |]|].
  - left. unfold Raft.snap. rewrite El. by eapply maybe_append_snapshot.
  - intros _ m0 Hin Hty0. left. by apply Em.
  - rewrite El, Est. destruct Hv; [by left|right; left]. done.
Qed.

Lemma handle_heartbeat_same_log r m r' : Raft.handle_heartbeat r m = Done r' → same_log r r'.
Proof.
  unfold Raft.handle_heartbeat. intros Hs. apply outcome_bind_Done in Hs as (li & _ & Hs).
  apply outcome_bind_Done in Hs as (l & Hl & Hs).
  etrans; [apply (same_log_upd r l); [by apply commit_to_mono in Hl as [_ ->]|intros Hok; by eapply commit_to_ok]|].
  destruct (negb _); [by apply send_request_snapshot_keeps in Hs as [_ ?]|by eapply send_keeps in Hs as [_ ?]].
Qed.

(** The log replaced by a snapshot, in a state that sends nothing new. *)
Lemma restore_takes r r' b m : Raft.restore r (m_snapshot m) = Done (r', b) →
  m_msg_type m = MsgSnapshot → sm_index (s_metadata (m_snapshot m)) + 1 < u64_modulus → takes m r r'.
Proof.
  unfold Raft.restore. intros Hs Hty Hb.
  destruct (N.ltb_spec (sm_index (s_metadata (m_snapshot m))) (RaftLog.committed (Raft.raft_log r))) as [|Hge].
  { inv_done Hs. by apply same_log_takes. }
  destruct (Raft.is_role r Follower) eqn:Hf; cbn [negb] in Hs.
  2: { inv_done Hs. apply same_log_takes. by eapply become_follower_same_log. }
  apply is_role_spec in Hf. destruct (forallb _ _); [inv_done Hs; by apply same_log_takes|].
  apply outcome_bind_Done in Hs as (mt & _ & Hs). destruct mt.
  { apply outcome_bind_Done in Hs as (l & Hl & Hs). inv_done Hs. apply same_log_takes, same_log_upd.
    - by apply commit_to_mono in Hl as [_ ->].
    - intros Hok. by eapply commit_to_ok. }
  apply outcome_bind_Done in Hs as (l & Hl & Hs). apply outcome_bind_Done in Hs as (li & _ & Hs).
  destruct (Changer.restore _ _ _) as [p [[]|e]]; [|done].
  apply outcome_bind_Done in Hs as ([r2 cs] & Hp & Hs). destruct (negb _); [done|].
  apply outcome_bind_Done in Hs as (pr & _ & Hs). inv_done Hs.
  apply post_conf_change_follower in Hp; [|done]. pose proof (q_state _ _ Hp) as Est. apply quiet_same_log in Hp as [Eb En Eq Et]. simpl in Eb, Eq, Et.
  intros Hok. pose proof Hok as [Hwf Hix].
  destruct (restore_view (Raft.raft_log r) (m_snapshot m)) as (l' & El & Hwf' & Hix' & Hv & _); [done..|].
  rewrite Hl in El. injection El as ->. destruct (Eq ltac:(by split)) as [Hok2 Hv2].
  assert (Raft.snap r2 = Some (m_snapshot m)) as Hsn.
  { rewrite En. unfold Raft.snap. simpl. unfold RaftLog.restore in Hl. inv_done Hl. by case_match. }
  split; [split; [exact Hok2|exact Eb| |]|].
  - right. unfold Raft.snap in *. simpl. by rewrite Hsn.
  - intros Hba m0 Hin Hty0. by apply Et.
  - right; right. simpl in Est |- *. split; [done|]. split; [congruence|]. split; [done|].
    split; [by rewrite Hv2, Hv|exact Hsn].
Qed.

Lemma handle_snapshot_takes r m r' : Raft.handle_snapshot r m = Done r' → m_msg_type m = MsgSnapshot →
  sm_index (s_metadata (m_snapshot m)) + 1 < u64_modulus → takes m r r'.
Proof.
  unfold Raft.handle_snapshot. intros Hs Hty Hb. apply outcome_bind_Done in Hs as ([r1 b] & Hr & Hs).
  apply outcome_bind_Done in Hs as (i & _ & Hs). apply send_msgs in Hs as (El & Eb & Est & Em); [|done].
  pose proof (restore_takes _ _ _ m Hr Hty Hb) as Ht. intros Hok. destruct (Ht Hok) as [[O B N T] Hcase].
  assert (Raft.snap r' = Raft.snap r1) as Hsn by (unfold Raft.snap; by rewrite El).
  split; [split; [by rewrite El|congruence|by rewrite Hsn|]|by rewrite El, Hsn, Est].
  intros Hba m0 Hin Hty0. rewrite El. apply T; [done|by apply Em|done].
Qed.
End receiving.

Lemma received_le v c c' m v' : received v c m v' → c' ≤ c → received v c' m v'.
Proof. intros [? ? ? ?] Hle. split; [lia|done| |done]. destruct rc_conflict0; [by left|right; lia]. Qed.

(** ** A step *)

(** The inputs a node can be given: room for what a leader appends in one step,
    and messages as leaders send them. *)
Record log_input_ok {S} `{StorageLaws S} (r : Raft.t S) (m : Message) : Prop := mk_log_input_ok {
  li_room : vlast (log_view (Raft.raft_log r)) + (1 + len (m_entries m)) + 1 < u64_modulus;
  li_append : m_msg_type m = MsgAppend → append_ok m;
  li_snapshot : m_msg_type m = MsgSnapshot → sm_index (s_metadata (m_snapshot m)) + 1 < u64_modulus
}.

(** What a step made of the log. *)
Inductive log_effect {S} `{StorageLaws S} (m : Message) (r r' : Raft.t S) : Prop :=
| le_same : log_view (Raft.raft_log r') = log_view (Raft.raft_log r) → log_effect m r r'
| le_append new :
    Raft.state r = Leader ∧ Raft.term r' = Raft.term r ∨ Raft.state r' = Leader →
    log_view (Raft.raft_log r') = vext (log_view (Raft.raft_log r)) new →
    Forall (λ e, e_term e = Raft.term r') new → log_effect m r r'
| le_receive :
    m_msg_type m = MsgAppend → Raft.state r' = Follower →
    received (log_view (Raft.raft_log r)) (RaftLog.committed (Raft.raft_log r)) m (log_view (Raft.raft_log r')) →
    log_effect m r r'
| le_restore :
    m_msg_type m = MsgSnapshot → Raft.state r' ≠ Leader → RaftLog.committed (Raft.raft_log r) ≤ sm_index (s_metadata (m_snapshot m)) →
    log_view (Raft.raft_log r') = snapshot_view (m_snapshot m) → Raft.snap r' = Some (m_snapshot m) →
    log_effect m r r'.

Section stepping.
Context {S : Type} `{StorageLaws S} `{HashOrder} `{Rand}.
#[local] Set Default Proof Using "All".
Implicit Types (r : Raft.t S) (l : RaftLog.t S).

Definition effect (m : Message) r r' : Prop :=
  log_ok (Raft.raft_log r) → log_input_ok r m → sound r r' ∧ log_effect m r r'.

Lemma same_log_effect m r r' : same_log r r' → effect m r r'.
Proof. intros [B N Hl T] Hok _. destruct (Hl Hok). split; [split; auto|by apply le_same]. Qed.

Lemma rises_effect m r r' : rises r r' → effect m r r'.
Proof.
  intros Hr Hok [Hb _ _]. destruct (Hr Hok ltac:(lia)) as [Hso [|(Hst & new & Hv & Hf)]]; (split; [done|]).
  - by apply le_same.
  - eapply le_append; [by right|done|done].
Qed.

Lemma takes_effect m r r' : takes m r r' → effect m r r'.
Proof.
  intros Ht Hok _. destruct (Ht Hok) as [Hso [|[(? & ? & ?)|(? & ? & ? & ? & ?)]]]; (split; [done|]).
  - by apply le_same.
  - by apply le_receive.
  - by apply le_restore.
Qed.

Lemma grows_effect m r r' : grows (1 + len (m_entries m)) r r' → Raft.state r = Leader → effect m r r'.
Proof.
  intros Hg Hst Hok [Hb _ _]. destruct (Hg Hok Hb) as [T O (new & V & F & _) B N M]. split; [split; auto|].
  eapply le_append; [by left|done|by rewrite T].
Qed.

(** A step that starts calmly, with the log unchanged and nothing sent. *)
Lemma same_log_effect_trans m r r1 r' : calm r r1 → same_log r r1 → Raft.msgs r1 = Raft.msgs r →
  effect m r1 r' → effect m r r'.
Proof.
  intros Hcalm [B N Hl T] Hms He Hok Hio. destruct (Hl Hok) as [Hok1 V].
  destruct He as [[O1 B1 N1 T1] Hcase]; [done|by destruct Hio; split; rewrite ?V|].
  pose proof (adv_commit _ _ (cm_adv _ _ Hcalm)) as Hcm. split.
  - split; [done|congruence|by rewrite <-N|]. intros Hba m0 Hm Hty. rewrite <-Hms. apply T1; [congruence|done..].
  - destruct Hcase as [E|new Hst E Hf|Hty Hnl Hr|Hty Hnl Hle E Hsn]; rewrite V in *.
    + by apply le_same.
    + eapply le_append; [|done|done]. destruct Hst as [[Hst ->]|]; [left|by right]. by apply (cm_leader _ _ Hcalm).
    + apply le_receive; [done|done|]. by eapply received_le.
    + apply le_restore; [done|done|lia|done|done].
Qed.

Lemma become_follower_start r tm lead r' : Raft.become_follower r tm lead = Done r' → Raft.term r ≤ tm →
  calm r r' ∧ same_log r r' ∧ Raft.msgs r' = Raft.msgs r.
Proof.
  intros Hs Hle. split_and!; [by eapply become_follower_calm|by eapply become_follower_same_log|].
  unfold Raft.become_follower in Hs. inv_done Hs. by apply reset_spec in Hc as (_ & _ & _ & _ & _ & _ & ? & _).
Qed.

Lemma log_maybe_commit_same_log r i t l b : RaftLog.maybe_commit (Raft.raft_log r) i t = Done (l, b) →
  same_log r (r <| Raft.raft_log := l |>).
Proof.
  intros Hl. apply same_log_upd; [by apply log_maybe_commit_mono in Hl as [_ ->]|].
  intros Hok. by destruct (log_maybe_commit_ok _ _ _ _ _ Hl Hok) as (? & ? & _).
Qed.

Lemma maybe_commit_by_vote_same_log r m r' : Raft.maybe_commit_by_vote r m = Done r' → same_log r r'.
Proof.
  unfold Raft.maybe_commit_by_vote. intros Hs. destruct (_ || _); [by inv_done Hs|].
  destruct (_ || _); [by inv_done Hs|]. apply outcome_bind_Done in Hs as ([l ad] & Hl & Hs).
  etrans; [by eapply log_maybe_commit_same_log|].
  inv_done Hs; try reflexivity; apply has_unapplied_conf_changes_quiet, quiet_same_log in Hc; [|done].
  etrans; [done|by eapply become_follower_same_log].
Qed.

Lemma handle_vote_request_same_log r m r' : Raft.handle_vote_request r m = Done r' → same_log r r'.
Proof.
  unfold Raft.handle_vote_request. intros Hs.
  apply outcome_bind_Done in Hs as (ty & Hty & Hs). apply outcome_bind_Done in Hs as (g & _ & Hs). destruct g.
  - inv_done Hs; match goal with H : Raft.send _ _ = _ |- _ =>
      eapply send_vote_resp_keeps in H as [_ ?]; [|exact Hty|done] end; [|done]. etrans; [done|same_log_upd].
  - apply outcome_bind_Done in Hs as ([c ct] & _ & Hs). apply outcome_bind_Done in Hs as (r1 & Hsend & Hs).
    eapply send_vote_resp_keeps in Hsend as [_ ?]; [|exact Hty|done].
    etrans; [done|by eapply maybe_commit_by_vote_same_log].
Qed.

Lemma maybe_commit_by_vote_role r m r' : Raft.maybe_commit_by_vote r m = Done r' →
  Raft.term r' = Raft.term r ∧ (Raft.state r = Leader → Raft.state r' = Leader).
Proof.
  unfold Raft.maybe_commit_by_vote. intros Hs. destruct (_ || _); [by inv_done Hs|].
  destruct (_ || _) eqn:E; [by inv_done Hs|]. apply orb_false_iff in E as [_ E].
  assert (Raft.state r ≠ Leader) as Hnl by (intros Hl; by rewrite (proj2 (is_role_spec r Leader) Hl) in E).
  split; [|done]. inv_done Hs; try done; apply has_unapplied_conf_changes_quiet in Hc0 as [? _ _ _ _ _ _ _ _ _ _]; [|done].
  apply become_follower_spec in Hs as [-> _]. done.
Qed.

Lemma step_candidate_effect r m r' x : Raft.step_candidate r m = Done (r', x) →
  (from_leader m → Raft.term r ≤ m_term m) → effect m r r'.
Proof.
  unfold Raft.step_candidate, Raft.ok. intros Hs Ht.
  assert (∀ r1, Raft.become_follower r (m_term m) (m_from m) = Done r1 → from_leader m →
    (Raft.state r1 = Follower → effect m r1 r') → effect m r r') as Hbf.
  { intros r1 Hb Hfl He. pose proof (become_follower_spec _ _ _ _ Hb) as (_ & _ & Hst & _).
    destruct (become_follower_start _ _ _ _ Hb) as (? & ? & ?); [auto|].
    eapply same_log_effect_trans; [done..|]. apply He. congruence. }
  unfold from_leader in Hbf.
  destruct (m_msg_type m) eqn:Ety; inv_done Hs; try (by apply same_log_effect);
    try (eapply Hbf; [eassumption|set_solver|intros Hnl]).
  - intros Hok Hio. eapply takes_effect; [|done|done]. eapply handle_append_entries_takes; [done|done|by apply Hio|done].
  - eapply rises_effect, rises_same_log_trans; [by eapply poll_rises|by eapply maybe_commit_by_vote_same_log|..];
      by eapply maybe_commit_by_vote_role.
  - intros Hok Hio. eapply takes_effect; [|done|done]. eapply handle_snapshot_takes; [done|done|]. by apply Hio.
  - by eapply same_log_effect, handle_heartbeat_same_log.
  - eapply rises_effect, rises_same_log_trans; [by eapply poll_rises|by eapply maybe_commit_by_vote_same_log|..];
      by eapply maybe_commit_by_vote_role.
Qed.

Lemma step_follower_effect r m r' x : Raft.step_follower r m = Done (r', x) → Raft.state r = Follower → effect m r r'.
Proof.
  unfold Raft.step_follower, Raft.ok. intros Hs Hf.
  assert (∀ r1, same_log r r1 → Raft.msgs r1 = Raft.msgs r → calm r r1 → effect m r1 r' → effect m r r') as Hup
    by (intros; by eapply same_log_effect_trans).
  destruct (m_msg_type m) eqn:Ety; inv_done Hs; try (by apply same_log_effect).
  - apply same_log_effect. eapply send_keeps in Hc as [_ ?]; [done|simpl; congruence].
  - eapply Hup; [| | |intros Hok Hio; eapply takes_effect; [eapply handle_append_entries_takes; [done|done|by apply Hio|simpl; congruence]|done|done]];
      [same_log_upd|done|calm_solve].
  - eapply Hup; [| | |intros Hok Hio; eapply takes_effect; [eapply handle_snapshot_takes; [done|done|by apply Hio]|done|done]];
      [same_log_upd|done|calm_solve].
  - eapply Hup; [| | |by eapply same_log_effect, handle_heartbeat_same_log]; [same_log_upd|done|calm_solve].
  - apply same_log_effect. eapply send_keeps in Hc as [_ ?]; [done|simpl; congruence].
  - by eapply rises_effect, hup_rises.
  - apply same_log_effect. eapply send_keeps in Hc as [_ ?]; [done|simpl; congruence].
  - apply same_log_effect. apply (transitivity (y := r <| Raft.read_states ::= λ ss, ss ++ [mkReadState (m_index m) (e_data e)] |>)).
    + same_log_upd.
    + by eapply log_maybe_commit_same_log.
Qed.

Lemma check_term_start r m r' b : Raft.check_term r m = Done (r', b) →
  same_log r r' ∧ (b = true → Raft.msgs r' = Raft.msgs r) ∧ (Raft.state r' = Leader → b = true → r' = r).
Proof.
  unfold Raft.check_term. intros Hs. destruct (m_term m =? 0); [by inv_done Hs|].
  destruct (N.ltb_spec (Raft.term r) (m_term m)) as [Hlt|Hge].
  - destruct (_ && _); [by inv_done Hs|]. destruct (_ || _); [by inv_done Hs|].
    apply outcome_bind_Done in Hs as (r1 & Hb & Hs). inv_done Hs.
    pose proof (become_follower_spec _ _ _ _ Hb) as (_ & _ & Hst & _).
    apply become_follower_start in Hb as (_ & ? & ?); [|lia]. split_and!; [done|done|congruence].
  - destruct (m_term m <? Raft.term r); inv_done Hs; (split; [|done]);
      try (match goal with H : Raft.send _ _ = _ |- _ => eapply send_keeps in H as [_ ?]; [|done] end); done.
Qed.

Lemma step_effect r m r' x : Raft.step r m = Done (r', x) → (from_leader m → m_term m ≠ 0) → effect m r r'.
Proof.
  intros Hs Hfl. unfold Raft.step in Hs. apply outcome_bind_Done in Hs as ([r1 go] & Hck & Hs).
  pose proof (check_term_start _ _ _ _ Hck) as (Hsl & Hms & Hld).
  pose proof (check_term_calm _ _ _ _ Hck) as (Hcalm & _ & _ & Hterm).
  destruct go; simpl in Hs; [|inv_done Hs; by apply same_log_effect].
  assert (from_leader m → Raft.term r1 ≤ m_term m) as Ht.
  { intros Hl. rewrite Hterm; [done|done|by apply from_leader_carries|auto]. }
  eapply same_log_effect_trans; [done|done|auto|]. clear Hck Hsl Hms Hcalm Hterm.
  assert (match Raft.state r1 with PreCandidate | Candidate => Raft.step_candidate r1 m
          | Follower => Raft.step_follower r1 m | Leader => Raft.step_leader r1 m end = Done (r', x) → effect m r1 r') as Hrest.
  { intros Hr. destruct (Raft.state r1) eqn:Hst.
    - by eapply step_follower_effect.
    - by eapply step_candidate_effect.
    - eapply grows_effect; [by eapply step_leader_grows|done].
    - by eapply step_candidate_effect. }
  unfold Raft.ok in Hs. destruct (m_msg_type m); try (by apply Hrest); inv_done Hs.
  - by eapply rises_effect, hup_rises.
  - by eapply same_log_effect, handle_vote_request_same_log.
  - by eapply same_log_effect, handle_vote_request_same_log.
Qed.
End stepping.

(** ** Ticks and host operations *)
Section driving.
Context {S : Type} `{StorageLaws S} `{HashOrder} `{Rand}.
#[local] Set Default Proof Using "All".
Implicit Types (r : Raft.t S) (l : RaftLog.t S).

(** The log is the same, or a leader has appended at most [k] entries to it. *)
Definition drives (k : N) r r' : Prop := log_ok (Raft.raft_log r) → room k r →
  sound r r' ∧ log_effect default_Message r r'.

Lemma same_log_drives k r r' : same_log r r' → drives k r r'.
Proof. intros [B N Hl T] Hok _. destruct (Hl Hok). split; [split; auto|by apply le_same]. Qed.

Lemma grows_drives k r r' : grows k r r' → Raft.state r = Leader → drives k r r'.
Proof.
  intros Hg Hst Hok Hb. destruct (Hg Hok Hb) as [T O (new & V & F & _) B N M]. split; [split; auto|].
  eapply le_append; [by left|done|by rewrite T].
Qed.

Lemma rises_drives k r r' : rises r r' → 1 ≤ k → drives k r r'.
Proof.
  intros Hr Hk Hok Hb. destruct (Hr Hok ltac:(lia)) as [Hso [|(Hst & new & Hv & Hf)]]; (split; [done|]).
  - by apply le_same.
  - eapply le_append; [by right|done|done].
Qed.

Lemma tick_election_rises r r' b : Raft.tick_election r = Done (r', b) → Raft.state r ≠ Leader → rises r r'.
Proof.
  unfold Raft.tick_election. intros Hs Hnl. destruct (_ || _); [inv_done Hs; apply same_log_rises; same_log_upd|].
  apply outcome_bind_Done in Hs as ([r1 x] & Hst & Hs). inv_done Hs.
  unfold Raft.step, Raft.check_term, Raft.ok in Hst. simpl in Hst. inv_done Hst.
  eapply same_log_rises_trans; [|by eapply hup_rises]. same_log_upd.
Qed.

Lemma tick_heartbeat_grows r r' b : Raft.tick_heartbeat r = Done (r', b) → Raft.state r = Leader → grows 2 r r'.
Proof.
  unfold Raft.tick_heartbeat. intros Hs Hl. apply outcome_bind_Done in Hs as ([r1 hr] & H1' & Hs).
  assert (grows 1 r r1) as G1.
  { destruct (_ <=? _); [|inv_done H1'; apply keeps_grows; keeps_solve].
    apply outcome_bind_Done in H1' as ([r2 h2] & H2' & H1'). inv_done H1'.
    assert (grows 1 r r2) as G2.
    { inv_done H2'; [|apply keeps_grows; keeps_solve].
      eapply keeps_grows_trans; [|eapply grows_le; [eapply step_leader_state; [eassumption|done|simpl; lia]|done]]. keeps_solve. }
    destruct (_ && _); [|done]. eapply grows_keeps_trans; [done|keeps_solve]. }
  destruct (Raft.is_role r1 Leader) eqn:Hl1; cbn [negb] in Hs; [|inv_done Hs; eapply grows_le; [done|lia]].
  apply is_role_spec in Hl1. apply (grows_trans 1 1 _ r1); [done|].
  inv_done Hs; [|by apply keeps_grows].
  eapply keeps_grows_trans; [|eapply grows_le; [eapply step_leader_state; [eassumption|done|simpl; lia]|done]]. keeps_solve.
Qed.

Lemma tick_drives r r' b : Raft.tick r = Done (r', b) → drives 2 r r'.
Proof.
  unfold Raft.tick. intros Hs. destruct (Raft.state r) eqn:Hst;
    try (eapply rises_drives; [eapply tick_election_rises; [done|congruence]|lia]).
  eapply grows_drives; [by eapply tick_heartbeat_grows|done].
Qed.

Lemma maybe_persist_same_log r i t l b : RaftLog.maybe_persist (Raft.raft_log r) i t = Done (l, b) →
  same_log r (r <| Raft.raft_log := l |>).
Proof.
  intros Hs. apply same_log_upd; [by unfold RaftLog.maybe_persist in Hs; inv_done Hs|]. intros [Hwf Hix].
  destruct (maybe_persist_view _ _ _ _ _ Hwf Hs) as (Hwf' & Hv & Hp & _ & Hlt).
  assert (RaftLog.committed l = RaftLog.committed (Raft.raft_log r) ∧ RaftLog.applied l = RaftLog.applied (Raft.raft_log r) ∧
    RaftLog.unstable l = RaftLog.unstable (Raft.raft_log r)) as (E1 & E2 & E3).
  { unfold RaftLog.maybe_persist in Hs. inv_done Hs; done. }
  split; [|done]. split; [done|]. destruct Hix as [? ? ? ?]. split; rewrite ?Hv, ?E1, ?E2, ?E3, ?Hp; try done.
  destruct b; auto.
Qed.

Lemma on_persist_entries_same_log r i t r' : Raft.on_persist_entries r i t = Done r' → same_log r r'.
Proof.
  unfold Raft.on_persist_entries. intros Hs. apply outcome_bind_Done in Hs as ([l b] & Hp & Hs).
  etrans; [by eapply maybe_persist_same_log|]. inv_done Hs; try reflexivity; try (by same_log_upd).
  apply commit_and_bcast_keeps in Hs as [_ Hk]. etrans; [|exact Hk]. same_log_upd.
Qed.

Lemma on_persist_snap_same_log r i r' : Raft.on_persist_snap r i = Done r' → same_log r r'.
Proof.
  unfold Raft.on_persist_snap, RaftLog.maybe_persist_snap. intros Hs. inv_done Hs; (apply same_log_upd; [done|]); [|done].
  intros [Hwf [? ? ? ?]]. split; [|done]. split; [by destruct Hwf|]. split; simpl; try done. by apply N.leb_gt.
Qed.

Lemma applied_to_same_log r i l : RaftLog.applied_to (Raft.raft_log r) i = Done l →
  same_log r (r <| Raft.raft_log := l |>).
Proof.
  unfold RaftLog.applied_to, RaftLog.applied_to_unchecked. intros Hs.
  apply same_log_upd; [by inv_done Hs|]. intros [Hwf [? ? ? ?]]. destruct (i =? 0); [by inv_done Hs|]. destruct (_ || _) eqn:E; [done|]. inv_done Hs.
  apply orb_false_iff in E as [E%N.ltb_ge _]. split; [|done]. split; [by destruct Hwf|]. by split.
Qed.

(** The log is the same, or a leader has appended at most one entry to it. *)
Definition modest r r' : Prop := same_log r r' ∨ Raft.state r = Leader ∧ grows 1 r r'.

Lemma modest_drives r r' : modest r r' → drives 1 r r'.
Proof. intros [Hs|[Hl Hg]]; [by apply same_log_drives|by apply grows_drives]. Qed.

Lemma modest_last r r' : modest r r' → log_ok (Raft.raft_log r) → room 1 r →
  vlast (log_view (Raft.raft_log r')) ≤ vlast (log_view (Raft.raft_log r)) + 1.
Proof.
  intros [[_ _ Hl _]|[_ Hg]] Hok Hr; [destruct (Hl Hok) as [_ ->]; lia|].
  destruct (Hg Hok Hr) as [_ _ (new & -> & _ & Hn) _ _ _]. rewrite vlast_vext. lia.
Qed.

Lemma commit_apply_modest r i r' : Raft.commit_apply r i = Done r' → modest r r'.
Proof.
  unfold Raft.commit_apply, Raft.commit_apply_internal. intros Hs. cbn [negb] in Hs.
  apply outcome_bind_Done in Hs as (l & Hl & Hs). apply applied_to_same_log in Hl.
  destruct (_ && Raft.is_role _ Leader) eqn:E; [|inv_done Hs; by left].
  apply andb_true_iff in E as [_ E%is_role_spec]. inv_done Hs.
  right. split; [done|]. eapply keeps_grows_trans; [split; [|exact Hl]; done|].
  eapply grows_keeps_trans; [eapply append_entry_grows; [eassumption|done]|]. keeps_solve.
Qed.

Lemma commit_apply_drives r i r' : Raft.commit_apply r i = Done r' → drives 1 r r'.
Proof. intros Hs. by eapply modest_drives, commit_apply_modest. Qed.

Lemma release_reads_keeps r r' : Raft.release_reads r = Done r' → keeps r r'.
Proof. unfold Raft.release_reads. intros Hs. keeps_op Hs. Qed.

Lemma post_conf_change_keeps r r' cs : Raft.post_conf_change r = Done (r', cs) → keeps r r'.
Proof.
  unfold Raft.post_conf_change. intros Hs. inv_done Hs; try keeps_solve;
    repeat match goal with H : _ = Done _ |- _ => first [keeps_call H | apply release_reads_keeps in H] end;
    repeat case_match; keeps_solve.
Qed.

Lemma apply_conf_change_modest r cc r' x : Raft.apply_conf_change r cc = Done (r', x) → modest r r'.
Proof.
  unfold Raft.apply_conf_change. intros Hs.
  destruct (if ProtoConf.leave_joint cc then _ else _) as [[cfg ch]|e]; [|inv_done Hs; by left].
  apply outcome_bind_Done in Hs as (li & _ & Hs). apply outcome_bind_Done in Hs as ([r1 cs] & Hp & Hs).
  apply outcome_bind_Done in Hs as (r2 & Hm & Hs). inv_done Hs.
  pose proof (cm_leader _ _ (post_conf_change_calm _ _ _ Hp)) as Hl. apply post_conf_change_keeps in Hp.
  destruct (Raft.is_role r1 Leader) eqn:E; simpl in Hm; [|inv_done Hm; left; etrans; [|apply Hp]; same_log_upd].
  apply is_role_spec in E. right. split; [by apply Hl|].
  eapply keeps_grows_trans; [etrans; [|exact Hp]; keeps_solve|].
  inv_done Hm; [by eapply maybe_start_new_subterm_grows|by apply keeps_grows].
Qed.

Lemma apply_conf_change_drives r cc r' x : Raft.apply_conf_change r cc = Done (r', x) → drives 1 r r'.
Proof. intros Hs. by eapply modest_drives, apply_conf_change_modest. Qed.

Lemma assign_groups_same_log ids r r' : Raft.assign_groups ids r = Done r' → same_log r r'.
Proof. intros Hs. by eapply quiet_same_log, assign_groups_quiet. Qed.

(** Everything a host may ask of a node leaves its log or lets a leader append
    one entry to it. *)
Lemma host_op_drives r r' : host_op r r' → drives 1 r r'.
Proof.
  intros Hop. destruct Hop as [r i t r' Hs|r i r' Hs|r i r' Hs|r cc r' x Hs|r w r' Hs|r w|r r' x Hs|r r' Hs
    |r b r' Hs|r ids r' Hs|r es|r|r t n r' Hs].
  - by eapply same_log_drives, on_persist_entries_same_log.
  - by eapply same_log_drives, on_persist_snap_same_log.
  - by eapply commit_apply_drives.
  - by eapply apply_conf_change_drives.
  - apply same_log_drives. unfold Raft.confirm_witness_append in Hs. inv_done Hs; try reflexivity; [|same_log_upd].
    apply commit_and_bcast_keeps in Hs as [_ Hk]. etrans; [|exact Hk]. same_log_upd.
  - apply same_log_drives. unfold Raft.reject_witness_append. repeat case_match; try reflexivity; same_log_upd.
  - apply same_log_drives. unfold Raft.request_snapshot in Hs. inv_done Hs; try reflexivity.
    apply send_request_snapshot_keeps in Hc2 as [_ Hk]. etrans; [|exact Hk]. same_log_upd.
  - apply same_log_drives. unfold Raft.ping, Raft.bcast_heartbeat in Hs. inv_done Hs; [|reflexivity].
    by eapply quiet_same_log, bcast_heartbeat_with_ctx_quiet.
  - apply same_log_drives. unfold Raft.enable_group_commit in Hs. inv_done Hs;
      repeat match goal with H : _ = Done _ |- _ => keeps_call H end; try same_log_upd;
      match goal with H : keeps (upd _ _ _) _ |- _ => destruct H as [_ Hk] end.
    + etrans; [|by apply quiet_same_log]. etrans; [|exact Hk]. same_log_upd.
    + etrans; [|exact Hk]. same_log_upd.
  - apply same_log_drives. unfold Raft.assign_commit_groups in Hs. apply outcome_bind_Done in Hs as (r1 & Hg & Hs).
    apply assign_groups_same_log in Hg. inv_done Hs; repeat match goal with H : _ = Done _ |- _ => keeps_call H end;
      [|by destruct Hc as [_ ?]; etrans|done]. destruct Hc as [_ ?]. etrans; [done|]. etrans; [done|by apply quiet_same_log].
  - apply same_log_drives. unfold Raft.reduce_uncommitted_size. case_match; first [reflexivity|same_log_upd].
  - apply same_log_drives. unfold Raft.maybe_free_inflight_buffers. same_log_upd.
  - apply same_log_drives. unfold Raft.adjust_max_inflight_msgs in Hs. inv_done Hs; try reflexivity; same_log_upd.
Qed.
End driving.

(** ** What is committed stays *)

(** Up to [c], the log [v'] has what [v] has, from its own dummy index on. *)
Record preserved (c : N) (v v' : stable_view) : Prop := mk_preserved {
  pv_dummy : sv_dummy v ≤ sv_dummy v';
  pv_lookup : ∀ i, i ≤ c → sv_dummy v' < i → vlookup v' i = vlookup v i
}.

Lemma preserved_refl c v : preserved c v v.
Proof. by split. Qed.

Lemma preserved_trans c c' v v1 v' : preserved c v v1 → preserved c' v1 v' → c ≤ c' → preserved c v v'.
Proof. intros [D1 L1] [D2 L2] Hle. split; [lia|]. intros i Hi Hd. rewrite L2, L1 by lia. done. Qed.

Lemma vext_preserved c v new : c ≤ vlast v → preserved c v (vext v new).
Proof.
  intros Hc. split; [done|]. intros i Hi Hd. simpl in Hd.
  destruct (proj2 (vlookup_is_Some v i)) as [e He]; [lia|]. rewrite He. by apply vlookup_vext.
Qed.

Lemma received_preserved v c m v' : received v c m v' → append_ok m → sv_dummy v ≤ c → preserved c v v'.
Proof.
  intros [Hi Ht Hcf ->] [Hct Hts _ _] Hd. unfold vreceive. split; [by case_decide|]. intros i Hic Hdi.
  change (vlookup (vreceive v (m_index m) (m_entries m)) i = vlookup v i).
  destruct (decide (vmatched v (m_entries m) = length (m_entries m))) as [E|E].
  - unfold vreceive. by rewrite decide_True.
  - unfold vconflict in Hcf. rewrite decide_False in Hcf by done. apply vreceive_lookup_low; try done; lia.
Qed.

Lemma log_effect_preserved {S} `{StorageLaws S} m (r r' : Raft.t S) :
  log_effect m r r' → log_ok (Raft.raft_log r) → (m_msg_type m = MsgAppend → append_ok m) →
  preserved (RaftLog.committed (Raft.raft_log r)) (log_view (Raft.raft_log r)) (log_view (Raft.raft_log r')).
Proof.
  intros He [Hwf [Hd Hc _ _]] Ha. destruct He as [E|new _ E _|Hty _ Hr|Hty _ Hle E _]; rewrite ?E.
  - apply preserved_refl.
  - by apply vext_preserved.
  - by eapply received_preserved; [|auto|].
  - split; simpl; lia.
Qed.

(** ** The storage *)
Section runs.
Context {S : Type} `{StorageLaws S} `{HashOrder} `{Rand}.
#[local] Set Default Proof Using "All".
Implicit Types (r : Raft.t S) (l : RaftLog.t S).

(** The host wrote to the storage or marked entries as persisted: the log is
    the same, but for what was compacted. *)
Record rehosted l l' : Prop := mk_rehosted {
  rh_ok : log_ok l → log_ok l';
  rh_committed : RaftLog.committed l' = RaftLog.committed l;
  rh_view : log_ok l → preserved (vlast (log_view l)) (log_view l) (log_view l')
}.
End runs.

(** ** Properties *)

(** C13: What a message does to the log.  Whatever message a node handles, its
    log stays well formed and is afterwards the log before, that log extended
    by a leader with entries of its term, the log a follower gets by receiving
    the message's batch after a matching entry without touching what is
    committed, or the message's snapshot; and every append message it has to
    send since is a part of its log. *)
Theorem step_log_effect {S} `{StorageLaws S} `{HashOrder} `{Rand} (r : Raft.t S) (m : Message)
    (r' : Raft.t S) (x : Result unit)
    (Hs : Raft.step r m = Done (r', x)) (Hl : from_leader m → m_term m ≠ 0)
    (Hok : log_ok (Raft.raft_log r)) (Hio : log_input_ok r m) :
  log_ok (Raft.raft_log r') ∧ log_effect m r r' ∧
  (Raft.batch_append r = false → ∀ m', m' ∈ Raft.msgs r' → m_msg_type m' = MsgAppend →
    m' ∈ Raft.msgs r ∨ faithful (log_view (Raft.raft_log r')) m').
Proof. by destruct (step_effect _ _ _ _ Hs Hl Hok Hio) as [[O _ _ T] He]. Qed.

(** ** Witnesses of the hypotheses *)

Lemma w_proposal_input : @log_input_ok _ (@MemStorage.storage w_proto) w_proto (@mem_storage_laws w_proto) w_leader w_proposal.
Proof.
  split; [|by intros..]. pose proof w_leader_room as Hr.
  replace (1 + len (m_entries w_proposal)) with (len (m_entries w_proposal) + 1) by lia.
  rewrite N.add_assoc, <-(N.add_assoc _ 1 1). exact Hr.
Qed.

Lemma w_proposal_ok : input_ok w_leader w_proposal.
Proof. split; vm_compute; try done. intros Hin. set_solver. Qed.

Lemma w_proposal_from : from_leader w_proposal → m_term w_proposal ≠ 0.
Proof. exact (io_leader _ _ w_proposal_ok). Qed.

Lemma step_log_effect_witness :
  @log_ok _ (@MemStorage.storage w_proto) w_proto (@mem_storage_laws w_proto) (Raft.raft_log w_proposed) ∧
  @log_effect _ (@MemStorage.storage w_proto) w_proto (@mem_storage_laws w_proto) w_proposal w_leader w_proposed ∧
  (Raft.batch_append w_leader = false → ∀ m', m' ∈ Raft.msgs w_proposed → m_msg_type m' = MsgAppend →
    m' ∈ Raft.msgs w_leader ∨
    faithful (@log_view _ (@MemStorage.storage w_proto) w_proto (@mem_storage_laws w_proto) (Raft.raft_log w_proposed)) m').
Proof.
  exact (@step_log_effect _ (@MemStorage.storage w_proto) w_proto (@mem_storage_laws w_proto) elements_order w_rand
    w_leader w_proposal w_proposed (Ok tt) w_propose_step w_proposal_from w_leader_ok w_proposal_input).
Defined.
