(* ===== verification/RaftCommit.v ===== *)
(** * Where a commit index comes from

    Sending keeps what a leader knows its voters to have; and over a whole
    step, tick or host operation a commit index moves only for a reason: a
    quorum has an entry of the leader's own term, or the message that is
    handled says so. *)
From S2P Require Import Prelude Errors Eraftpb ProtoConf Util Unstable Storage RaftLog RaftLogSpec Quorum.
From S2P Require Import Inflights Progress Tracker ConfChange ReadOnly Config Raft RaftFrame RaftElection.
From S2P Require Import RaftReplication RaftLogSteps.

(** ** Sending keeps the matched indexes *)
Section matching.
Context {S : Type} `{Storage S} `{Proto} `{HashOrder} `{Rand}.
#[local] Set Default Proof Using "All".
Implicit Types r : Raft.t S.

Definition same_match r r' : Prop := ∀ v, matched_of r' v = matched_of r v.

#[export] Instance same_match_preorder : PreOrder same_match.
Proof. split; [by intros r v|]. intros r1 r2 r3 E1 E2 v. by rewrite E2, E1. Qed.

Lemma same_prs_match r r' : Raft.prs r' = Raft.prs r → same_match r r'.
Proof. intros E v. unfold matched_of. by rewrite E. Qed.

Lemma matched_set_pr r to pr v :
  matched_of (Raft.set_pr r to pr) v = if decide (v = to) then Progress.matched pr else matched_of r v.
Proof.
  unfold matched_of, Tracker.get. simpl. destruct (decide (v = to)) as [->|Hne].
  - by rewrite lookup_insert_eq.
  - by rewrite lookup_insert_ne.
Qed.

Lemma set_pr_match r to pr : Progress.matched pr = matched_of r to → same_match r (Raft.set_pr r to pr).
Proof. intros E v. rewrite matched_set_pr. by destruct (decide (v = to)) as [->|]. Qed.

Lemma matched_get r v pr : Tracker.get (Raft.prs r) v = Some pr → matched_of r v = Progress.matched pr.
Proof. unfold matched_of. by intros ->. Qed.

Lemma send_prs r m r' : Raft.send r m = Done r' → Raft.prs r' = Raft.prs r.
Proof. by intros (m' & -> & _)%send_spec. Qed.

Lemma update_state_matched p k p' : Progress.update_state p k = Done p' → Progress.matched p' = Progress.matched p.
Proof. unfold Progress.update_state. intros Hs. destruct (Progress.state p); inv_done Hs; done. Qed.

Lemma become_probe_matched p : Progress.matched (Progress.become_probe p) = Progress.matched p.
Proof. unfold Progress.become_probe. by case_bool_decide. Qed.

Lemma update_committed_matched p c : Progress.matched (Progress.update_committed p c) = Progress.matched p.
Proof. unfold Progress.update_committed. by case_match. Qed.

Lemma maybe_decr_to_matched p a b c : Progress.matched (Progress.maybe_decr_to p a b c).1 = Progress.matched p.
Proof. unfold Progress.maybe_decr_to. repeat case_match; done. Qed.

Lemma maybe_update_matched p n : Progress.matched (Progress.maybe_update p n).1 =
  if Progress.matched p <? n then n else Progress.matched p.
Proof. unfold Progress.maybe_update. simpl. destruct (_ <? n); repeat case_match; done. Qed.

Lemma prepare_send_entries_matched r m pr tm ents m' pr' :
  Raft.prepare_send_entries r m pr tm ents = Done (m', pr') → Progress.matched pr' = Progress.matched pr.
Proof.
  unfold Raft.prepare_send_entries. intros Hs. inv_done Hs; [|done]. by eapply update_state_matched.
Qed.

Lemma batch_into_matched c to ms pr ents ms' pr' :
  Raft.batch_into c to ms pr ents = Done (Some (ms', pr')) → Progress.matched pr' = Progress.matched pr.
Proof.
  revert ms' pr'. induction ms as [|m0 ms IH]; intros ms' pr' Hs; [done|]. cbn [Raft.batch_into] in Hs.
  inv_done Hs; simplify_eq; try done; [by eapply update_state_matched|].
  destruct x as [[ms1 pr1]|]; simplify_eq. by eapply IH.
Qed.

Lemma prepare_send_snapshot_prs r m pr to r' m' pr' b :
  Raft.prepare_send_snapshot r m pr to = Done (r', m', pr', b) →
  Raft.prs r' = Raft.prs r ∧ Progress.matched pr' = Progress.matched pr.
Proof. unfold Raft.prepare_send_snapshot. intros Hs. inv_done Hs; done. Qed.

Lemma try_batching_prs r to pr ents r' pr' b : Raft.try_batching r to pr ents = Done (r', pr', b) →
  Raft.prs r' = Raft.prs r ∧ Progress.matched pr' = Progress.matched pr.
Proof.
  unfold Raft.try_batching. intros Hs. inv_done Hs. destruct x as [[ms p]|]; simplify_eq; [|done].
  split; [done|by eapply batch_into_matched].
Qed.

Lemma maybe_send_append_prs r to pr allow r' pr' b :
  Raft.maybe_send_append r to pr allow = Done (r', pr', b) →
  Raft.prs r' = Raft.prs r ∧ Progress.matched pr' = Progress.matched pr.
Proof.
  unfold Raft.maybe_send_append. intros Hs. inv_done Hs;
    repeat match goal with
    | H : Raft.send _ _ = _ |- _ => apply send_prs in H
    | H : Raft.prepare_send_snapshot _ _ _ _ = _ |- _ => apply prepare_send_snapshot_prs in H as [? ?]
    | H : Raft.prepare_send_entries _ _ _ _ _ = _ |- _ => apply prepare_send_entries_matched in H
    | H : (if ?b then Raft.try_batching _ _ _ _ else _) = Done _ |- _ => destruct b; inv_done H
    | H : Raft.try_batching _ _ _ _ = _ |- _ => apply try_batching_prs in H as [? ?]
    end; simpl in *; split; congruence.
Qed.

Lemma send_append_loop_prs fuel r to pr r' pr' : Raft.send_append_loop fuel r to pr = Done (r', pr') →
  Raft.prs r' = Raft.prs r ∧ Progress.matched pr' = Progress.matched pr.
Proof.
  revert r pr. induction fuel as [|fuel IH]; intros r pr Hs; cbn [Raft.send_append_loop] in Hs; [done|].
  inv_done Hs; apply maybe_send_append_prs in Hc as [E1 E2]; [|done]. apply IH in Hs as [E3 E4]. split; congruence.
Qed.

(** A progress taken from the tracker and written back with the same index. *)
Lemma write_back_match r r1 to pr pr' : Tracker.get (Raft.prs r) to = Some pr →
  Raft.prs r1 = Raft.prs r → Progress.matched pr' = Progress.matched pr → same_match r (Raft.set_pr r1 to pr').
Proof.
  intros Hg E Em. etrans; [by apply same_prs_match|]. apply set_pr_match. unfold matched_of. by rewrite E, Hg.
Qed.

Lemma send_append_match r to r' : Raft.send_append r to = Done r' → same_match r r'.
Proof.
  unfold Raft.send_append. intros Hs. inv_done Hs. apply maybe_send_append_prs in Hc0 as [? ?].
  by eapply write_back_match.
Qed.

Lemma send_append_aggressively_match r to r' : Raft.send_append_aggressively r to = Done r' → same_match r r'.
Proof.
  unfold Raft.send_append_aggressively, Raft.core_send_append_aggressively. intros Hs. inv_done Hs.
  apply send_append_loop_prs in Hc0 as [? ?]. by eapply write_back_match.
Qed.

Lemma send_append_each_match allow ids r r' : Raft.send_append_each allow ids r = Done r' → same_match r r'.
Proof.
  revert r. induction ids as [|i ids IH]; intros r Hs; cbn [Raft.send_append_each] in Hs.
  - inv_done Hs. reflexivity.
  - inv_done Hs; apply IH in Hs; [done|]. apply maybe_send_append_prs in Hc0 as [? ?].
    etrans; [by eapply write_back_match|done].
Qed.

Lemma bcast_append_match r r' : Raft.bcast_append r = Done r' → same_match r r'.
Proof. apply send_append_each_match. Qed.

Lemma respond_reads_prs rss r r' : Raft.respond_reads rss r = Done r' → Raft.prs r' = Raft.prs r.
Proof.
  revert r. induction rss as [|rs rss IH]; intros r Hs; cbn [Raft.respond_reads] in Hs.
  - by inv_done Hs.
  - inv_done Hs; apply IH in Hs; unfold Raft.handle_ready_read_index in Hc; inv_done Hc; simplify_eq;
      repeat match goal with H : Raft.send _ _ = _ |- _ => apply send_prs in H end; simpl in *; congruence.
Qed.

Lemma advance_reads_prs r ctx r' : Raft.advance_reads r ctx = Done r' → Raft.prs r' = Raft.prs r.
Proof. unfold Raft.advance_reads. intros Hs. inv_done Hs. by apply respond_reads_prs in Hs. Qed.

Lemma release_reads_prs r r' : Raft.release_reads r = Done r' → Raft.prs r' = Raft.prs r.
Proof.
  unfold Raft.release_reads. intros Hs. inv_done Hs; try done. by apply advance_reads_prs in Hs.
Qed.
End matching.

(** ** Committing as a leader *)
Section backing.
Context {S : Type} `{StorageLaws S} `{HashOrder} `{Rand}.
#[local] Set Default Proof Using "All".
Implicit Types r : Raft.t S.

Abbreviation committed r := (RaftLog.committed (Raft.raft_log r)).

(** The commit index of a leader is that of an entry of its own term, and the
    leader knows a majority of each half of the configuration to have it. *)
Record quorum_commit r : Prop := mk_quorum_commit {
  qc_leader : Raft.state r = Leader;
  qc_term : vterm (log_view (Raft.raft_log r)) (committed r) = Ok (Raft.term r);
  qc_quorum : quorate_joint (Configuration.voters (Tracker.conf (Raft.prs r))) (λ v, committed r ≤ matched_of r v)
}.

(** Nothing was committed, or a quorum has what was. *)
Definition backed r r' : Prop := log_ok (Raft.raft_log r) → committed r' = committed r ∨ quorum_commit r'.

(** What is known of the voters, the log and the role is kept. *)
Record secure r r' : Prop := mk_secure {
  se_commit : committed r' = committed r;
  se_state : Raft.state r' = Raft.state r;
  se_term : Raft.term r' = Raft.term r;
  se_conf : Tracker.conf (Raft.prs r') = Tracker.conf (Raft.prs r);
  se_match : same_match r r';
  se_log : log_ok (Raft.raft_log r) → log_ok (Raft.raft_log r') ∧
    log_view (Raft.raft_log r') = log_view (Raft.raft_log r)
}.

Lemma quiet_secure r r' : quiet r r' → same_match r r' → secure r r'.
Proof.
  intros Hq Hm. destruct (log_read_fields _ _ (q_log _ _ Hq)) as (_ & Ec & _).
  pose proof (sl_log _ _ (quiet_same_log _ _ Hq)) as Hl. by destruct Hq.
Qed.

(** A leader that keeps its term, its knowledge of the voters and the committed
    part of its log keeps its reason. *)
Lemma quorum_commit_kept r r' : quorum_commit r → committed r' = committed r → Raft.state r' = Raft.state r →
  Raft.term r' = Raft.term r → Tracker.conf (Raft.prs r') = Tracker.conf (Raft.prs r) → same_match r r' →
  vterm (log_view (Raft.raft_log r')) (committed r) = vterm (log_view (Raft.raft_log r)) (committed r) →
  quorum_commit r'.
Proof.
  intros [L T [Q1 Q2]] Ec Es Et Ef Em Ev. split; [congruence|by rewrite Ec, Ev, Et|]. rewrite Ef, Ec.
  split; (eapply quorate_mono; [|eassumption]); intros v _ Hv; cbv beta in *; by rewrite Em.
Qed.

Lemma quorum_commit_secure r r' : quorum_commit r → secure r r' → log_ok (Raft.raft_log r) → quorum_commit r'.
Proof.
  intros Hq [Ec Es Et Ef Em El] Hok. destruct (El Hok) as [_ Ev]. eapply quorum_commit_kept; [done..|].
  by rewrite Ev.
Qed.

Lemma unmoved_backed r r' : committed r' = committed r → backed r r'.
Proof. by left. Qed.

Lemma backed_pre r r1 r' : committed r1 = committed r → (log_ok (Raft.raft_log r) → log_ok (Raft.raft_log r1)) →
  backed r1 r' → backed r r'.
Proof. intros E Hl Hb Hok. rewrite <-E. auto. Qed.

Lemma backed_post r r1 r' : backed r r1 → (log_ok (Raft.raft_log r) → log_ok (Raft.raft_log r1)) →
  secure r1 r' → backed r r'.
Proof.
  intros Hb Hl Hs Hok. destruct (Hb Hok) as [E|Hq].
  - left. by rewrite (se_commit _ _ Hs).
  - right. eapply quorum_commit_secure; [done|done|auto].
Qed.

Lemma keeps_log_ok r r' : keeps r r' → log_ok (Raft.raft_log r) → log_ok (Raft.raft_log r').
Proof. intros [_ [_ _ Hl _]] Hok. by apply Hl. Qed.

Lemma maybe_commit_backed r r' b : Raft.maybe_commit r = Done (r', b) → Raft.state r = Leader → backed r r'.
Proof.
  intros Hs Hst Hok. pose proof (maybe_commit_calm _ _ _ Hs) as [_ [Et _ Es]]. destruct b.
  - right. destruct (maybe_commit_rule _ _ Hs Hok) as (_ & Ht & Hq).
    destruct (maybe_commit_keeps _ _ _ Hs) as [_ [_ _ Hk _]]. destruct (Hk Hok) as [_ Ev].
    split; [congruence|by rewrite Ev, Et|done].
  - left. unfold Raft.maybe_commit in Hs. apply outcome_bind_Done in Hs as (r1 & Hr1 & Hs).
    apply replicate_witnesses_quiet in Hr1. destruct (log_read_fields _ _ (q_log _ _ Hr1)) as (_ & <- & _).
    apply outcome_bind_Done in Hs as ([l ad] & Hl & Hs). destruct ad; [by inv_done Hs|]. inv_done Hs. simpl.
    unfold RaftLog.maybe_commit in Hl. by inv_done Hl.
Qed.

Lemma bcast_append_secure r r' : Raft.bcast_append r = Done r' → secure r r'.
Proof. intros Hs. apply quiet_secure; [by apply bcast_append_quiet|by apply bcast_append_match]. Qed.

Lemma commit_and_bcast_backed r r' : Raft.commit_and_bcast r = Done r' → Raft.state r = Leader → backed r r'.
Proof.
  unfold Raft.commit_and_bcast. intros Hs Hst. apply outcome_bind_Done in Hs as ([r1 b] & Hm & Hs).
  pose proof (maybe_commit_backed _ _ _ Hm Hst) as Hb. apply maybe_commit_keeps in Hm.
  destruct (_ && _); inv_done Hs; [|done]. eapply backed_post; [done|by apply keeps_log_ok|by apply bcast_append_secure].
Qed.

Lemma after_match_backed r m p r' : Raft.after_match r m p = Done r' → Raft.state r = Leader → backed r r'.
Proof.
  unfold Raft.after_match, Raft.send_timeout_now. intros Hs Hst. apply outcome_bind_Done in Hs as ([r1 b] & Hm & Hs).
  pose proof (maybe_commit_backed _ _ _ Hm Hst) as Hb. apply maybe_commit_keeps in Hm.
  eapply backed_post; [done|by apply keeps_log_ok|]. clear Hb Hm.
  apply outcome_bind_Done in Hs as (r2 & H2' & Hs). apply outcome_bind_Done in Hs as (r3 & H3' & Hs).
  assert (quiet r1 r2 ∧ same_match r1 r2) as [Q2 M2].
  { inv_done H2'; try (split; reflexivity);
      [by split; [apply bcast_append_quiet|apply bcast_append_match]|].
    split; [by eapply send_append_quiet|by eapply send_append_match]. }
  pose proof (send_append_aggressively_match _ _ _ H3') as M3. apply send_append_aggressively_quiet in H3'.
  assert (quiet r3 r' ∧ same_match r3 r') as [Q4 M4].
  { inv_done Hs; try (split; reflexivity). split; [by eapply send_quiet|]. by eapply same_prs_match, send_prs. }
  apply quiet_secure; (etrans; [exact Q2|etrans; [exact H3'|done]]) || (etrans; [exact M2|etrans; [exact M3|done]]).
Qed.

(** Operations that commit nothing. *)
Definition unmoved r r' : Prop := committed r' = committed r.

#[export] Instance unmoved_preorder : PreOrder unmoved.
Proof. split; [done|]. unfold unmoved. congruence. Qed.

Lemma quiet_unmoved r r' : quiet r r' → unmoved r r'.
Proof. intros Hq. unfold unmoved. by destruct (log_read_fields _ _ (q_log _ _ Hq)) as (_ & -> & _). Qed.
End backing.

(** Solving [unmoved a b] by the calls between [a] and [b]. *)
Ltac unmoved_solve :=
  lazymatch goal with
  | |- unmoved ?a ?b =>
    first [ reflexivity
          | assumption
          | match goal with
            | H : unmoved ?x b |- _ => etrans; [|exact H]; clear H; unmoved_solve
            | H : quiet ?x b |- _ => etrans; [|apply quiet_unmoved; exact H]; clear H; unmoved_solve
            end
          | lazymatch b with
            | upd _ _ ?x => apply (transitivity (y := x)); [unmoved_solve|solve [reflexivity]]
            | Raft.set_pr ?x _ _ => apply (transitivity (y := x)); [unmoved_solve|solve [reflexivity]]
            | Raft.set_epoch ?x _ => apply (transitivity (y := x)); [unmoved_solve|solve [reflexivity]]
            | Raft.abort_leader_transfer ?x => apply (transitivity (y := x)); [unmoved_solve|solve [reflexivity]]
            end ]
  end.

Section leading.
Context {S : Type} `{StorageLaws S} `{HashOrder} `{Rand}.
#[local] Set Default Proof Using "All".
Implicit Types r : Raft.t S.

Abbreviation committed r := (RaftLog.committed (Raft.raft_log r)).

Lemma append_entry_unmoved r es r' b : Raft.append_entry r es = Done (r', b) → unmoved r r' ∧ same_match r r'.
Proof.
  unfold Raft.append_entry, Raft.maybe_increase_uncommitted_size, unmoved. intros Hs.
  destruct (us_maybe_increase_uncommitted_size _ _) as [u ok]. inv_done Hs; [by split; [|apply same_prs_match]|].
  split; [by apply log_append_committed in Hc0|by apply same_prs_match].
Qed.

Lemma reset_unmoved r tm r' : Raft.reset r tm = Done r' → unmoved r r'.
Proof. intros (_ & _ & _ & _ & E & _)%reset_spec. unfold unmoved. by rewrite E. Qed.

Lemma become_follower_unmoved r tm lead r' : Raft.become_follower r tm lead = Done r' → unmoved r r'.
Proof. unfold Raft.become_follower. intros Hs. inv_done Hs. apply reset_unmoved in Hc. unmoved_solve. Qed.

Lemma check_proposals_unmoved i ents r r' x : Raft.check_proposals i ents r = Done (r', x) → unmoved r r'.
Proof.
  revert i r x. induction ents as [|e ents IH]; intros i r x Hs; cbn [Raft.check_proposals] in Hs.
  - inv_done Hs. reflexivity.
  - inv_done Hs; try reflexivity;
      match goal with H : Raft.check_proposals _ _ _ = _ |- _ => apply IH in H end; unmoved_solve.
Qed.

Lemma maybe_start_new_subterm_unmoved r a b r' x : Raft.maybe_start_new_subterm r a b = Done (r', x) → unmoved r r'.
Proof.
  unfold Raft.maybe_start_new_subterm. intros Hs.
  destruct (a || b); [|destruct (Tracker.change_replication_set (Raft.prs r) (Raft.id r)) as [p ch]];
    inv_done Hs; try reflexivity; apply append_entry_unmoved in Hc as [? _]; unmoved_solve.
Qed.

Lemma handle_propose_unmoved r m r' x : Raft.handle_propose r m = Done (r', x) → unmoved r r'.
Proof.
  unfold Raft.handle_propose. intros Hs. inv_done Hs; try reflexivity; apply check_proposals_unmoved in Hc;
    try unmoved_solve; apply append_entry_unmoved in Hc0 as [? _]; try unmoved_solve.
  apply bcast_append_quiet in Hc1. unmoved_solve.
Qed.

Lemma handle_check_quorum_unmoved r r' : Raft.handle_check_quorum r = Done r' → unmoved r r'.
Proof.
  unfold Raft.handle_check_quorum. intros Hs. destruct (Raft.has_witness r); inv_done Hs;
    repeat match goal with
    | H : Raft.maybe_start_new_subterm _ _ _ = _ |- _ => apply maybe_start_new_subterm_unmoved in H
    | H : Raft.check_quorum_active _ = _ |- _ => apply check_quorum_active_quiet in H
    | H : Raft.become_follower _ _ _ = _ |- _ => apply become_follower_unmoved in H
    end; unmoved_solve.
Qed.

Lemma handle_append_response_backed r m r' : Raft.handle_append_response r m = Done r' → Raft.state r = Leader →
  backed r r'.
Proof.
  unfold Raft.handle_append_response. intros Hs Hst.
  inv_done Hs; try (apply unmoved_backed; reflexivity);
    first [apply send_append_quiet in Hs; apply unmoved_backed; exact (quiet_unmoved _ _ Hs)
          |apply after_match_backed in Hs; [by eapply backed_pre; [| |exact Hs]|done]].
Qed.

Ltac quiet_unmoved_op Hs :=
  inv_done Hs; repeat match goal with H : _ = Done _ |- _ => keeps_call H end; unmoved_solve.

Lemma handle_heartbeat_response_unmoved r m r' : Raft.handle_heartbeat_response r m = Done r' → unmoved r r'.
Proof. unfold Raft.handle_heartbeat_response. intros Hs. quiet_unmoved_op Hs. Qed.

Lemma handle_transfer_leader_unmoved r m r' : Raft.handle_transfer_leader r m = Done r' → unmoved r r'.
Proof.
  unfold Raft.handle_transfer_leader, Raft.send_timeout_now. intros Hs.
  destruct (Raft.lead_transferee r); quiet_unmoved_op Hs.
Qed.

Lemma handle_read_index_unmoved r m r' : Raft.handle_read_index r m = Done r' → unmoved r r'.
Proof. unfold Raft.handle_read_index. intros Hs. quiet_unmoved_op Hs. Qed.

Lemma step_leader_backed r m r' x : Raft.step_leader r m = Done (r', x) → Raft.state r = Leader → backed r r'.
Proof.
  intros Hs Hst. unfold Raft.step_leader, Raft.ok in Hs.
  destruct (m_msg_type m); inv_done Hs; try (apply unmoved_backed; reflexivity).
  - apply bcast_heartbeat_with_ctx_quiet in Hc. eapply backed_pre; [by apply quiet_unmoved|by apply keeps_log_ok, quiet_keeps|].
    eapply commit_and_bcast_backed; [done|]. by rewrite (q_state _ _ Hc).
  - apply unmoved_backed. apply bcast_heartbeat_with_ctx_quiet in Hc. by apply quiet_unmoved.
  - apply unmoved_backed. by eapply handle_propose_unmoved.
  - by eapply handle_append_response_backed.
  - apply unmoved_backed. by eapply handle_heartbeat_response_unmoved.
  - apply unmoved_backed. unfold Raft.handle_unreachable. by case_match.
  - apply unmoved_backed. unfold Raft.handle_snapshot_status. by repeat case_match.
  - apply unmoved_backed. by eapply handle_check_quorum_unmoved.
  - apply unmoved_backed. by eapply handle_transfer_leader_unmoved.
  - apply unmoved_backed. by eapply handle_read_index_unmoved.
Qed.
End leading.

(** ** Elections commit nothing *)
Section electing.
Context {S : Type} `{StorageLaws S} `{HashOrder} `{Rand}.
#[local] Set Default Proof Using "All".
Implicit Types r : Raft.t S.

Lemma become_leader_unmoved r r' : Raft.become_leader r = Done r' → unmoved r r'.
Proof.
  unfold Raft.become_leader. intros Hs. inv_done Hs;
    repeat match goal with
    | H : Raft.reset _ _ = _ |- _ => apply reset_unmoved in H
    | H : Raft.maybe_start_new_subterm _ _ _ = _ |- _ => apply maybe_start_new_subterm_unmoved in H
    | H : Raft.append_entry _ _ = _ |- _ => apply append_entry_unmoved in H as [? _]
    end; unmoved_solve.
Qed.

Lemma campaign_with_unmoved p r ct r' :
  (∀ r1 f t v r2 res, p r1 f t v = Done (r2, res) → unmoved r1 r2) →
  Raft.campaign_with p r ct = Done r' → unmoved r r'.
Proof.
  unfold Raft.campaign_with, Raft.become_pre_candidate, Raft.become_candidate. intros Hp Hs.
  apply outcome_bind_Done in Hs as ([[r1 vm] tm] & Hb & Hs). apply outcome_bind_Done in Hs as ([r2 res] & Hpl & Hs).
  apply Hp in Hpl. assert (unmoved r r1 ∧ (vm = MsgRequestVote ∨ vm = MsgRequestPreVote)) as [H1' Hvm].
  { clear Hs. case_bool_decide; inv_done Hb; (split; [|auto]); [reflexivity|].
    match goal with H : Raft.reset _ _ = _ |- _ => apply reset_unmoved in H end. unmoved_solve. }
  inv_done Hs; [by etrans|]. apply request_votes_quiet, quiet_unmoved in Hs; [|done]. by etrans; [|etrans].
Qed.

Lemma poll_fuel_unmoved fuel r from t v r' res : Raft.poll_fuel fuel r from t v = Done (r', res) → unmoved r r'.
Proof.
  revert r from t v r' res. induction fuel as [|fuel IH]; intros r from t v r' res Hs; cbn [Raft.poll_fuel] in Hs;
    destruct (Tracker.tally_votes_with_diff _) as [[[g rj] rs] diff]; inv_done Hs;
    repeat match goal with
    | H : Raft.campaign_with _ _ _ = _ |- _ => apply campaign_with_unmoved in H; [|exact IH]
    | H : Raft.become_leader _ = _ |- _ => apply become_leader_unmoved in H
    | H : Raft.bcast_append _ = _ |- _ => apply bcast_append_quiet in H
    | H : Raft.become_follower _ _ _ = _ |- _ => apply become_follower_unmoved in H
    | H : Raft.ask_witnesses _ _ _ = _ |- _ => apply ask_witnesses_quiet in H
    end; unmoved_solve.
Qed.

Lemma poll_unmoved r from t v r' res : Raft.poll r from t v = Done (r', res) → unmoved r r'.
Proof. apply poll_fuel_unmoved. Qed.

Lemma hup_unmoved r b r' : Raft.hup r b = Done r' → unmoved r r'.
Proof.
  unfold Raft.hup, Raft.campaign. intros Hs. inv_done Hs; try reflexivity; apply has_unapplied_conf_changes_quiet in Hc;
    repeat match goal with
    | H : Raft.campaign_with _ _ _ = _ |- _ => apply campaign_with_unmoved in H; [|exact poll_unmoved]
    end; unmoved_solve.
Qed.
End electing.

(** ** Committing on a message's word *)

Definition vote_message (m : Message) : Prop := m_msg_type m ∈
  [MsgRequestVote; MsgRequestPreVote; MsgRequestVoteResponse; MsgRequestPreVoteResponse].

(** Why the commit index is what it is after a step. *)
Inductive commit_effect {S} `{StorageLaws S} (m : Message) (r r' : Raft.t S) : Prop :=
| ce_same : unmoved r r' → commit_effect m r r'
| ce_quorum : quorum_commit r' → commit_effect m r r'
| ce_append : m_msg_type m = MsgAppend →
    RaftLog.committed (Raft.raft_log r') ≤ N.min (m_commit m) (m_index m + len (m_entries m)) → commit_effect m r r'
| ce_heartbeat : m_msg_type m = MsgHeartbeat →
    RaftLog.committed (Raft.raft_log r') ≤ m_commit m → commit_effect m r r'
| ce_vote : vote_message m → RaftLog.committed (Raft.raft_log r') = m_commit m →
    vterm (log_view (Raft.raft_log r')) (m_commit m) = Ok (m_commit_term m) → commit_effect m r r'
| ce_read : m_msg_type m = MsgReadIndexResp → RaftLog.committed (Raft.raft_log r') = m_index m →
    vterm (log_view (Raft.raft_log r')) (m_index m) = Ok (m_term m) → commit_effect m r r'
| ce_snapshot : m_msg_type m = MsgSnapshot →
    RaftLog.committed (Raft.raft_log r') = sm_index (s_metadata (m_snapshot m)) → commit_effect m r r'.

Section following.
Context {S : Type} `{StorageLaws S} `{HashOrder} `{Rand}.
#[local] Set Default Proof Using "All".
Implicit Types (r : Raft.t S) (l : RaftLog.t S).

Lemma commit_effect_pre m r r1 r' : unmoved r r1 → commit_effect m r1 r' → commit_effect m r r'.
Proof.
  intros Hu He. destruct He; [by apply ce_same; etrans|by apply ce_quorum|by apply ce_append|by apply ce_heartbeat
    |by apply ce_vote|by apply ce_read|by apply ce_snapshot].
Qed.

Lemma commit_to_le l k l' : RaftLog.commit_to l k = Done l' →
  RaftLog.committed l' = RaftLog.committed l ∨ RaftLog.committed l' = k.
Proof. unfold RaftLog.commit_to. intros Hs. inv_done Hs; [by left|by right]. Qed.

Lemma maybe_append_committed_le l i t c es l' x : RaftLog.maybe_append l i t c es = Done (l', x) →
  RaftLog.committed l' = RaftLog.committed l ∨ RaftLog.committed l' ≤ N.min c (i + len es).
Proof.
  unfold RaftLog.maybe_append. intros Hs. apply outcome_bind_Done in Hs as (b & _ & Hs).
  destruct b; [|inv_done Hs; by left]. apply outcome_bind_Done in Hs as (cf & _ & Hs).
  apply outcome_bind_Done in Hs as (l1 & Ha & Hs). apply outcome_bind_Done in Hs as (l2 & Hl & Hs). inv_done Hs.
  apply commit_to_le in Hl as [-> | ->].
  - left. inv_done Ha; try done; match goal with H : RaftLog.append _ _ = _ |- _ => apply log_append_committed in H end;
      by repeat case_match.
  - right. pose proof (u64_add_le i (len es)). lia.
Qed.

Lemma handle_append_entries_commit r m r' : Raft.handle_append_entries r m = Done r' →
  m_msg_type m = MsgAppend → commit_effect m r r'.
Proof.
  unfold Raft.handle_append_entries, Raft.send_request_snapshot. intros Hs Hty.
  destruct (negb _); [inv_done Hs; apply send_quiet in Hs; [|done]; by apply ce_same, quiet_unmoved|].
  destruct (_ <? _); [apply send_quiet in Hs; [|done]; by apply ce_same, quiet_unmoved|].
  apply outcome_bind_Done in Hs as ([l res] & Ha & Hs). apply outcome_bind_Done in Hs as (ts & Hts & Hs).
  apply send_spec in Hs as (m' & -> & _). apply maybe_append_committed_le in Ha as [E|Hle].
  - by apply ce_same.
  - by apply ce_append.
Qed.

Lemma handle_heartbeat_commit r m r' : Raft.handle_heartbeat r m = Done r' →
  m_msg_type m = MsgHeartbeat → commit_effect m r r'.
Proof.
  unfold Raft.handle_heartbeat, Raft.send_request_snapshot. intros Hs Hty.
  apply outcome_bind_Done in Hs as (li & _ & Hs). apply outcome_bind_Done in Hs as (l & Hl & Hs).
  assert (RaftLog.committed (Raft.raft_log r') = RaftLog.committed l) as E.
  { inv_done Hs; apply send_quiet, quiet_unmoved in Hs; done. }
  apply commit_to_le in Hl as [E'|E']; [apply ce_same; unfold unmoved; congruence|].
  apply ce_heartbeat; [done|]. rewrite E, E'. lia.
Qed.
End following.

(** ** A step *)
Section commit_steps.
Context {S : Type} `{StorageLaws S} `{HashOrder} `{Rand}.
#[local] Set Default Proof Using "All".
Implicit Types (r : Raft.t S) (l : RaftLog.t S).

Lemma maybe_commit_by_vote_commit r m r' : Raft.maybe_commit_by_vote r m = Done r' → log_ok (Raft.raft_log r) →
  vote_message m → commit_effect m r r'.
Proof.
  intros Hs Hok Hv. pose proof (maybe_commit_by_vote_same_log _ _ _ Hs) as [_ _ Hl _].
  destruct (Hl Hok) as [_ Ev]. unfold Raft.maybe_commit_by_vote in Hs.
  destruct (_ || _); [inv_done Hs; by apply ce_same|]. destruct (_ || _); [inv_done Hs; by apply ce_same|].
  apply outcome_bind_Done in Hs as ([l ad] & Hm & Hs). destruct (log_maybe_commit_ok _ _ _ _ _ Hm Hok) as (_ & _ & Hc).
  assert (unmoved (r <| Raft.raft_log := l |>) r') as Hu.
  { inv_done Hs; try reflexivity; apply has_unapplied_conf_changes_quiet in Hc0; try unmoved_solve.
    apply become_follower_unmoved in Hs. unmoved_solve. }
  unfold unmoved in Hu. simpl in Hu. destruct ad.
  - destruct Hc as (_ & Ht & Ec). apply ce_vote; [done|congruence|by rewrite Ev].
  - apply ce_same. unfold unmoved. by rewrite Hu, Hc.
Qed.

Lemma handle_vote_request_commit r m r' : Raft.handle_vote_request r m = Done r' → log_ok (Raft.raft_log r) →
  vote_message m → commit_effect m r r'.
Proof.
  unfold Raft.handle_vote_request. intros Hs Hok Hv.
  apply outcome_bind_Done in Hs as (ty & _ & Hs). apply outcome_bind_Done in Hs as (g & _ & Hs). destruct g.
  - inv_done Hs; match goal with H : Raft.send _ _ = _ |- _ => apply send_spec in H as (? & -> & _) end; by apply ce_same.
  - apply outcome_bind_Done in Hs as ([c ct] & _ & Hs). apply outcome_bind_Done in Hs as (r1 & Hsend & Hs).
    apply send_spec in Hsend as (m' & -> & _). apply maybe_commit_by_vote_commit in Hs; [|done|done].
    by eapply commit_effect_pre; [|exact Hs].
Qed.

Lemma restore_commit r sn r' b : Raft.restore r sn = Done (r', b) →
  unmoved r r' ∨ RaftLog.committed (Raft.raft_log r') = sm_index (s_metadata sn).
Proof.
  unfold Raft.restore. intros Hs. destruct (_ <? _); [inv_done Hs; by left|].
  destruct (negb _) eqn:Hf; [inv_done Hs; left; by eapply become_follower_unmoved|].
  apply negb_false_iff, is_role_spec in Hf. destruct (forallb _ _); [inv_done Hs; by left|].
  apply outcome_bind_Done in Hs as (mt & _ & Hs). destruct mt.
  { apply outcome_bind_Done in Hs as (l & Hl & Hs). inv_done Hs. by apply commit_to_le in Hl. }
  apply outcome_bind_Done in Hs as (l & Hl & Hs). apply outcome_bind_Done in Hs as (li & _ & Hs).
  destruct (Changer.restore _ _ _) as [p [[]|e]]; [|done].
  apply outcome_bind_Done in Hs as ([r2 cs] & Hp & Hs). destruct (negb _); [done|].
  apply outcome_bind_Done in Hs as (pr & _ & Hs). inv_done Hs.
  apply post_conf_change_follower, quiet_unmoved in Hp; [|done]. unfold unmoved in Hp. simpl in Hp.
  right. simpl. rewrite Hp. unfold RaftLog.restore in Hl. by inv_done Hl.
Qed.

Lemma handle_snapshot_commit r m r' : Raft.handle_snapshot r m = Done r' → m_msg_type m = MsgSnapshot →
  commit_effect m r r'.
Proof.
  unfold Raft.handle_snapshot. intros Hs Hty. apply outcome_bind_Done in Hs as ([r1 b] & Hr & Hs).
  apply outcome_bind_Done in Hs as (i & _ & Hs). apply send_spec in Hs as (m' & -> & _).
  apply restore_commit in Hr as [|]; [by apply ce_same|by apply ce_snapshot].
Qed.

Lemma step_candidate_commit r m r' x : Raft.step_candidate r m = Done (r', x) → log_ok (Raft.raft_log r) →
  room 1 r → commit_effect m r r'.
Proof.
  unfold Raft.step_candidate, Raft.ok. intros Hs Hok Hr.
  assert (∀ p ty res r1, vote_message m → Raft.poll r (m_from m) ty p = Done (r1, res) →
    Raft.maybe_commit_by_vote r1 m = Done r' → commit_effect m r r') as Hpoll.
  { intros p ty res r1 Hv Hp Hm. destruct (poll_rises _ _ _ _ _ _ Hp Hok Hr) as [[Hok1 _ _ _] _].
    eapply commit_effect_pre; [by eapply poll_unmoved|]. by apply maybe_commit_by_vote_commit. }
  unfold vote_message in Hpoll.
  destruct (m_msg_type m) eqn:Ety; inv_done Hs; try (by apply ce_same);
    try (eapply commit_effect_pre; [eapply become_follower_unmoved; eassumption|]).
  - by eapply handle_append_entries_commit.
  - eapply Hpoll; [set_solver|eassumption|done].
  - by eapply handle_snapshot_commit.
  - by eapply handle_heartbeat_commit.
  - eapply Hpoll; [set_solver|eassumption|done].
Qed.

Lemma step_follower_commit r m r' x : Raft.step_follower r m = Done (r', x) → log_ok (Raft.raft_log r) →
  commit_effect m r r'.
Proof.
  unfold Raft.step_follower, Raft.ok. intros Hs Hok.
  destruct (m_msg_type m) eqn:Ety; inv_done Hs; try (by apply ce_same);
    try (match goal with H : Raft.send _ _ = _ |- _ => apply send_spec in H as (? & -> & _) end; by apply ce_same).
  - eapply commit_effect_pre; [|by eapply handle_append_entries_commit]. done.
  - eapply commit_effect_pre; [|by eapply handle_snapshot_commit]. done.
  - eapply commit_effect_pre; [|by eapply handle_heartbeat_commit]. done.
  - by eapply ce_same, hup_unmoved.
  - destruct (log_maybe_commit_ok _ _ _ _ _ Hc Hok) as (_ & Ev & Hcase). destruct b.
    + destruct Hcase as (_ & Ht & Ec). apply ce_read; [done|done|]. rewrite <-Ht. f_equal. exact Ev.
    + apply ce_same. unfold unmoved. simpl. by rewrite Hcase.
Qed.

Lemma check_term_unmoved r m r' b : Raft.check_term r m = Done (r', b) → unmoved r r'.
Proof.
  unfold Raft.check_term. intros Hs. inv_done Hs; try reflexivity;
    repeat match goal with
    | H : Raft.become_follower _ _ _ = _ |- _ => apply become_follower_unmoved in H
    | H : Raft.send _ _ = _ |- _ => apply send_spec in H as (? & -> & _)
    end; unmoved_solve.
Qed.

Lemma step_commit r m r' x : Raft.step r m = Done (r', x) → log_ok (Raft.raft_log r) → room 1 r →
  commit_effect m r r'.
Proof.
  intros Hs Hok Hr. unfold Raft.step in Hs. apply outcome_bind_Done in Hs as ([r1 go] & Hck & Hs).
  pose proof (check_term_start _ _ _ _ Hck) as ([_ _ Hl _] & _ & _). destruct (Hl Hok) as [Hok1 Ev].
  apply check_term_unmoved in Hck. eapply commit_effect_pre; [exact Hck|]. rewrite <-Ev in Hr.
  destruct go; simpl in Hs; [|inv_done Hs; by apply ce_same].
  assert (match Raft.state r1 with PreCandidate | Candidate => Raft.step_candidate r1 m
          | Follower => Raft.step_follower r1 m | Leader => Raft.step_leader r1 m end = Done (r', x) → commit_effect m r1 r') as Hrest.
  { intros Hx. destruct (Raft.state r1) eqn:Hst.
    - by eapply step_follower_commit.
    - by eapply step_candidate_commit.
    - destruct (step_leader_backed _ _ _ _ Hx Hst Hok1); [by apply ce_same|by apply ce_quorum].
    - by eapply step_candidate_commit. }
  unfold Raft.ok in Hs. destruct (m_msg_type m) eqn:Ety; try (by apply Hrest); inv_done Hs.
  - by eapply ce_same, hup_unmoved.
  - apply handle_vote_request_commit; [done|done|unfold vote_message; set_solver].
  - apply handle_vote_request_commit; [done|done|unfold vote_message; set_solver].
Qed.
End commit_steps.

(** ** Ticks and host operations *)
Section commit_driving.
Context {S : Type} `{StorageLaws S} `{HashOrder} `{Rand}.
#[local] Set Default Proof Using "All".
Implicit Types (r : Raft.t S) (l : RaftLog.t S).

(** A leader handles its own timers in [step_leader]. *)
Lemma step_local r ty i : Raft.state r = Leader → ty ∈ [MsgBeat; MsgCheckQuorum] →
  Raft.step r (new_message INVALID_ID ty (Some i)) = Raft.step_leader r (new_message INVALID_ID ty (Some i)).
Proof.
  intros Hl Hty. unfold Raft.step, Raft.check_term. set_unfold in Hty.
  destruct Hty as [->|[->|[]]]; cbn -[Raft.state Raft.step_leader]; by rewrite Hl.
Qed.

Lemma tick_backed r r' b : Raft.tick r = Done (r', b) → room 2 r → backed r r'.
Proof.
  unfold Raft.tick. intros Hs Hr.
  assert (Raft.tick_election r = Done (r', b) → backed r r') as Hel.
  { clear Hs. unfold Raft.tick_election, Raft.step, Raft.check_term, Raft.ok. simpl. intros Hs.
    inv_done Hs; [by apply unmoved_backed|]. apply unmoved_backed. apply hup_unmoved in Hc0. etrans; [|exact Hc0]. done. }
  destruct (Raft.state r) eqn:Hl; [by auto|by auto| |by auto]. clear Hel. intros Hok.
  unfold Raft.tick_heartbeat in Hs. apply outcome_bind_Done in Hs as ([r1 hr] & H1' & Hs).
  assert (unmoved r r1 ∧ log_ok (Raft.raft_log r1)) as [Hu Hok1].
  { destruct (_ <=? _); [|inv_done H1'; by split].
    apply outcome_bind_Done in H1' as ([r2 h2] & H2' & H1'). inv_done H1'.
    assert (unmoved r r2 ∧ log_ok (Raft.raft_log r2)) as [Hu2 Hok2].
    { inv_done H2'; [|by split].
      match goal with H : Raft.step ?x _ = Done (?y, ?z) |- _ =>
        rewrite step_local in H by (done || set_solver); pose proof (step_leader_grows _ _ _ _ H) as Hg;
        assert (log_ok (Raft.raft_log x)) as Hokx by exact Hok end.
      split.
      - unfold Raft.step_leader, Raft.ok in Hc. simpl in Hc. inv_done Hc. by apply handle_check_quorum_unmoved in Hc0.
      - apply Hg; [exact Hok|]. simpl. rewrite len_nil. lia. }
    by destruct (_ && _). }
  rewrite <-Hu. inv_done Hs; try (by left).
  match goal with H : negb (Raft.is_role r1 Leader) = false |- _ => apply negb_false_iff, is_role_spec in H end.
  rewrite step_local in Hc by (done || set_solver). apply step_leader_backed in Hc; [|done]. by apply Hc.
Qed.
End commit_driving.

Section commit_host.
Context {S : Type} `{StorageLaws S} `{HashOrder} `{Rand}.
#[local] Set Default Proof Using "All".
Implicit Types (r : Raft.t S) (l : RaftLog.t S).

(** Committing and telling everybody at once. *)
Lemma commit_then_bcast_backed r r1 b r' : Raft.maybe_commit r = Done (r1, b) → Raft.state r = Leader →
  (r' = r1 ∨ Raft.bcast_append r1 = Done r') → backed r r'.
Proof.
  intros Hm Hst Hr. pose proof (maybe_commit_backed _ _ _ Hm Hst) as Hb. apply maybe_commit_keeps in Hm.
  destruct Hr as [->|Hr]; [done|]. eapply backed_post; [done|by apply keeps_log_ok|by apply bcast_append_secure].
Qed.

Lemma post_conf_change_backed r r' cs : Raft.post_conf_change r = Done (r', cs) → backed r r'.
Proof.
  unfold Raft.post_conf_change. intros Hs. destruct (_ || _) eqn:E; [inv_done Hs; by apply unmoved_backed|].
  apply orb_false_iff in E as [[_ E%negb_false_iff%is_role_spec]%orb_false_iff _]. simpl in E.
  apply outcome_bind_Done in Hs as ([r1 b] & Hm & Hs). apply outcome_bind_Done in Hs as (r2 & H2' & Hs).
  apply outcome_bind_Done in Hs as (r3 & H3' & Hs).
  apply (backed_pre r (r <| Raft.promotable := Joint.contains (Configuration.voters (Tracker.conf (Raft.prs r))) (Raft.id r) |>));
    [done|done|]. pose proof (maybe_commit_backed _ _ _ Hm E) as Hb. apply maybe_commit_keeps in Hm.
  eapply backed_post; [done|by apply keeps_log_ok|].
  assert (quiet r1 r2 ∧ same_match r1 r2) as [Q2 M2].
  { destruct b; (split; [by eapply send_append_each_quiet|by eapply send_append_each_match]). }
  assert (quiet r2 r3) as Q3 by (unfold Raft.release_reads in H3'; clear -H3'; inv_done H3';
    repeat match goal with H : _ = Done _ |- _ => keeps_call H end; quiet_solve).
  apply release_reads_prs in H3'.
  assert (quiet r3 r' ∧ same_match r3 r') as [Q4 M4].
  { inv_done Hs. unfold Raft.abort_leader_transfer. repeat case_match; (split; [quiet_solve|by apply same_prs_match]). }
  apply quiet_secure; [by etrans; [|etrans]|]. etrans; [done|]. etrans; [by apply same_prs_match|done].
Qed.

Lemma append_entry_prs r es r' b : Raft.append_entry r es = Done (r', b) → Raft.prs r' = Raft.prs r.
Proof.
  unfold Raft.append_entry, Raft.maybe_increase_uncommitted_size. intros Hs.
  destruct (us_maybe_increase_uncommitted_size _ _) as [u ok]. by inv_done Hs.
Qed.

Lemma maybe_start_new_subterm_match r a b r' x : Raft.maybe_start_new_subterm r a b = Done (r', x) →
  same_match r r' ∧ Tracker.conf (Raft.prs r') = Tracker.conf (Raft.prs r).
Proof.
  unfold Raft.maybe_start_new_subterm. intros Hs.
  pose proof (change_replication_set_votes (Raft.prs r) (Raft.id r)) as [_ Ec].
  assert (Tracker.progress (Tracker.change_replication_set (Raft.prs r) (Raft.id r)).1 = Tracker.progress (Raft.prs r))
    as Ep by (unfold Tracker.change_replication_set; by destruct (bool_decide _ || bool_decide _)).
  unfold same_match, matched_of, Tracker.get.
  destruct (a || b); [|destruct (Tracker.change_replication_set (Raft.prs r) (Raft.id r)) as [p ch]];
    inv_done Hs; repeat match goal with H : Raft.append_entry _ _ = _ |- _ => apply append_entry_prs in H as -> end;
    simpl in *; rewrite ?Ep, ?Ec; done.
Qed.

Lemma apply_conf_change_backed r cc r' x : Raft.apply_conf_change r cc = Done (r', x) → room 1 r → backed r r'.
Proof.
  unfold Raft.apply_conf_change. intros Hs Hr Hok.
  destruct (if ProtoConf.leave_joint cc then _ else _) as [[cfg ch]|e]; [|inv_done Hs; by left].
  apply outcome_bind_Done in Hs as (li & _ & Hs). apply outcome_bind_Done in Hs as ([r1 cs] & Hp & Hs).
  apply outcome_bind_Done in Hs as (r2 & Hm & Hs). inv_done Hs.
  pose proof (post_conf_change_backed _ _ _ Hp Hok) as Hb. simpl in Hb.
  apply post_conf_change_keeps in Hp as [_ [_ _ Hl _]]. destruct (Hl Hok) as [Hok1 Ev]. simpl in Ev.
  inv_done Hm; [|done]. pose proof (maybe_start_new_subterm_match _ _ _ _ _ Hc) as [Em Ec].
  pose proof (maybe_start_new_subterm_unmoved _ _ _ _ _ Hc) as Hu.
  pose proof (maybe_start_new_subterm_calm _ _ _ _ _ Hc) as [_ [Et _ Es]].
  destruct (maybe_start_new_subterm_grows 1 _ _ _ _ _ Hc ltac:(done) Hok1) as [_ _ (new & V & _) _ _ _]; [by rewrite Ev|].
  destruct Hb as [E|Hq]; [left; by rewrite Hu|right]. eapply quorum_commit_kept; [done..|].
  rewrite V. apply vterm_vext; apply Hok1.
Qed.

Lemma on_persist_entries_backed r i t r' : Raft.on_persist_entries r i t = Done r' → backed r r'.
Proof.
  unfold Raft.on_persist_entries. intros Hs Hok. apply outcome_bind_Done in Hs as ([l b] & Hp & Hs).
  pose proof (maybe_persist_same_log r i t l b Hp) as [_ _ Hl _]. destruct (Hl Hok) as [Hok1 _].
  pose proof (maybe_persist_fields _ _ _ _ _ Hp) as Ec. cbv zeta in Hs.
  destruct (b && _) eqn:E; [|inv_done Hs; by left]. apply andb_true_iff in E as [_ E%is_role_spec]. simpl in E.
  inv_done Hs; [|by left]. apply commit_and_bcast_backed in Hs; [|done]. simpl in Hs.
  destruct (Hs Hok1) as [E'|]; [|by right]. left. rewrite E'. exact Ec.
Qed.

(** Whatever a host asks of a node, it commits only as a leader and with a
    quorum. *)
Lemma host_op_backed r r' : host_op r r' → room 1 r → backed r r'.
Proof.
  intros Hop Hr. destruct Hop as [r i t r' Hs|r i r' Hs|r i r' Hs|r cc r' x Hs|r w r' Hs|r w|r r' x Hs|r r' Hs
    |r b r' Hs|r ids r' Hs|r es|r|r t n r' Hs].
  - by eapply on_persist_entries_backed.
  - apply unmoved_backed. unfold Raft.on_persist_snap in Hs. inv_done Hs. by apply maybe_persist_snap_fields in Hc.
  - apply unmoved_backed. unfold Raft.commit_apply, Raft.commit_apply_internal, RaftLog.applied_to in Hs. inv_done Hs; try done;
      match goal with H : Raft.append_entry _ _ = _ |- _ => by apply append_entry_unmoved in H as [? _] end.
  - by eapply apply_conf_change_backed.
  - unfold Raft.confirm_witness_append in Hs. inv_done Hs; try (by apply unmoved_backed).
    eapply backed_pre; [| |eapply commit_and_bcast_backed; [exact Hs|by apply is_role_spec]]; done.
  - apply unmoved_backed. unfold Raft.reject_witness_append. by repeat case_match.
  - apply unmoved_backed. unfold Raft.request_snapshot, Raft.send_request_snapshot in Hs. inv_done Hs; try done;
      match goal with H : Raft.send _ _ = _ |- _ => by apply send_spec in H as (? & -> & _) end.
  - apply unmoved_backed. unfold Raft.ping, Raft.bcast_heartbeat in Hs. inv_done Hs; [|done].
    by apply bcast_heartbeat_with_ctx_quiet, quiet_unmoved in Hs.
  - unfold Raft.enable_group_commit in Hs. cbv zeta in Hs. destruct (_ && _) eqn:E; [|inv_done Hs; by apply unmoved_backed].
    apply andb_true_iff in E as [E%is_role_spec _]. apply outcome_bind_Done in Hs as ([r1 ad] & Hm & Hs).
    eapply backed_pre; [| |eapply commit_then_bcast_backed; [exact Hm|done|]]; [done|done|].
    inv_done Hs; [by right|by left].
  - unfold Raft.assign_commit_groups in Hs. apply outcome_bind_Done in Hs as (r0 & Hg & Hs).
    apply assign_groups_quiet in Hg. eapply backed_pre; [by apply quiet_unmoved|by apply keeps_log_ok, quiet_keeps|].
    destruct (_ && _) eqn:E; [|inv_done Hs; by apply unmoved_backed].
    apply andb_true_iff in E as [E%is_role_spec _]. apply outcome_bind_Done in Hs as ([r1 ad] & Hm & Hs).
    eapply commit_then_bcast_backed; [exact Hm|done|]. inv_done Hs; [by right|by left].
  - apply unmoved_backed. unfold Raft.reduce_uncommitted_size. by case_match.
  - by apply unmoved_backed.
  - apply unmoved_backed. unfold Raft.adjust_max_inflight_msgs in Hs. by inv_done Hs.
Qed.
End commit_host.

(** ** Properties *)

(** C14: Where a commit index comes from.  Whatever message a node handles, its
    commit index afterwards is the one before, or that of an entry of its own
    term which it knows, as a leader, a majority of each half of the
    configuration to have; or the message said so: the commit index of an
    append (no further than its entries reach) or of a heartbeat, the commit
    index and term of a vote that agree with the node's own log, the read
    index of an entry of the leader's term, or the index of a snapshot. *)
Theorem commit_provenance {S} `{StorageLaws S} `{HashOrder} `{Rand} (r : Raft.t S) (m : Message)
    (r' : Raft.t S) (x : Result unit)
    (Hs : Raft.step r m = Done (r', x)) (Hok : log_ok (Raft.raft_log r)) (Hr : room 1 r) :
  commit_effect m r r'.
Proof. by eapply step_commit. Qed.

(** ** Witnesses of the hypotheses *)

Lemma w_leader_room1 :
  vlast (@log_view _ (@MemStorage.storage w_proto) w_proto (@mem_storage_laws w_proto) (Raft.raft_log w_leader)) +
  1 + 1 < u64_modulus.
Proof. rewrite w_leader_log. vm_compute. done. Qed.

Lemma commit_provenance_witness :
  @commit_effect _ (@MemStorage.storage w_proto) w_proto (@mem_storage_laws w_proto) w_proposal w_leader w_proposed.
Proof.
  exact (@commit_provenance _ (@MemStorage.storage w_proto) w_proto (@mem_storage_laws w_proto) elements_order w_rand
    w_leader w_proposal w_proposed (Ok tt) w_propose_step w_leader_ok w_leader_room1).
Defined.
