(* ===== verification/ClusterLog.v ===== *)
(** * Log matching

    The logs of a cluster over a network that may lose, repeat, delay and
    reorder messages and invent all but votes and appends, with nodes that
    write to their storage, compact it and restart from it: two logs that have
    an entry of the same index and term agree on every entry up to it.  The
    invariant remembers every entry a leader has ever created. *)
From S2P Require Import Prelude Errors Eraftpb ProtoConf Util Unstable Storage RaftLog RaftLogSpec Quorum.
From S2P Require Import Inflights Progress Tracker ConfChange ReadOnly Config Witness Raft RaftFrame RaftElection.
From S2P Require Import Cluster RaftPromotion RaftReplication RaftLogSteps.

(** ** The entries that were ever created *)

(** The entry created at an index in a term, with the term before it. *)
Abbreviation creation := (N → N → option (Entry * N)).

Definition creates (g g' : creation) : Prop := ∀ k t x, g k t = Some x → g' k t = Some x.

(** The log [v] is a path through the created entries: each of its entries
    was created after the entry before it. *)
Record path (g : creation) (v : stable_view) : Prop := mk_path {
  pa_entry : ∀ i e, vlookup v i = Some e → ∃ p, g i (e_term e) = Some (e, p) ∧ ∀ t, vterm v (i - 1) = Ok t → t = p;
  pa_zero : sv_dummy_term v = Some 0 → sv_dummy v = 0
}.

(** The entries of the append [m] are such a path. *)
Definition append_path (g : creation) (m : Message) : Prop := ∀ k e, m_entries m !! k = Some e →
  ∃ p, g (m_index m + 1 + N.of_nat k) (e_term e) = Some (e, p) ∧
    match k with O => p = m_log_term m | Datatypes.S k' => ∀ e', m_entries m !! k' = Some e' → p = e_term e' end.

(** The log [v'] is the log [v] cut at either end. *)
Record vsub (v' v : stable_view) : Prop := mk_vsub {
  vs_dummy : sv_dummy v ≤ sv_dummy v' ≤ vlast v;
  vs_lookup : ∀ i e, vlookup v' i = Some e → vlookup v i = Some e;
  vs_term : ∀ t, sv_dummy_term v' = Some t → vterm v (sv_dummy v') = Ok t
}.

Lemma vterm_lookup v i e : vlookup v i = Some e → vterm v i = Ok (e_term e).
Proof.
  intros He. unfold vterm. pose proof (mk_is_Some _ _ He) as Hs%vlookup_is_Some.
  by rewrite (proj2 (N.eqb_neq _ _)), He by lia.
Qed.

Lemma vterm_dummy v t : vterm v (sv_dummy v) = Ok t → sv_dummy_term v = Some t.
Proof. unfold vterm. rewrite N.eqb_refl. destruct (sv_dummy_term v); [congruence|done]. Qed.

Section paths.
Implicit Types (g : creation) (v : stable_view) (m : Message).

Lemma path_mono g g' v : path g v → creates g g' → path g' v.
Proof. intros [He Hz] Hs. split; [|done]. intros i e (p & Hp & Ht)%He. exists p. auto. Qed.

Lemma append_path_mono g g' m : append_path g m → creates g g' → append_path g' m.
Proof. intros Hm Hs k e (p & Hp & Ht)%Hm. exists p. auto. Qed.

Lemma path_empty g v : sv_ents v = [] → (sv_dummy_term v = Some 0 → sv_dummy v = 0) → path g v.
Proof. intros E Hz. split; [|done]. intros i e He. unfold vlookup in He. rewrite E in He. by case_match. Qed.

Lemma path_term g v i t : path g v → (∀ k, g k 0 = None) → vterm v i = Ok t → sv_dummy v ≤ i ≤ vlast v →
  t = 0 → i = 0.
Proof.
  intros [He Hz] Hg Ht Hi ->. destruct (decide (i = sv_dummy v)) as [->|Hne]; [by apply Hz, vterm_dummy|].
  destruct (proj2 (vlookup_is_Some v i)) as [e Hl]; [lia|]. rewrite (vterm_lookup _ _ _ Hl) in Ht.
  destruct (He i e Hl) as (p & Hp & _). injection Ht as Ht. by rewrite Ht, Hg in Hp.
Qed.

Lemma vsub_path g v v' : path g v → (∀ k, g k 0 = None) → vsub v' v → path g v'.
Proof.
  intros Hp Hg [Hd Hl Ht]. split.
  - intros i e He. destruct (pa_entry _ _ Hp i e (Hl i e He)) as (p & Hgp & Hprev). exists p. split; [done|].
    intros t Hvt. apply Hprev. pose proof (mk_is_Some _ _ He) as Hs%vlookup_is_Some.
    destruct (decide (i - 1 = sv_dummy v')) as [E|Hne]; [rewrite E in *; by apply Ht, vterm_dummy|].
    destruct (proj2 (vlookup_is_Some v' (i - 1))) as [e' He']; [lia|].
    rewrite (vterm_lookup _ _ _ He') in Hvt. rewrite (vterm_lookup _ _ _ (Hl _ _ He')). done.
  - intros Hz. by apply (path_term g v _ 0 Hp Hg); [apply Ht|..].
Qed.

(** What a part of a path says is a path, and an append as leaders send it. *)
Lemma faithful_append_path g v m : path g v → faithful v m → append_path g m.
Proof.
  intros [He _] [Hft Hfe] k e Hk. destruct (He _ _ (Hfe _ _ Hk)) as (p & Hp & Ht). exists p. split; [done|].
  destruct k as [|k].
  - destruct Hft as [[_ Hft]|[E _]]; [|by rewrite E in Hk]. symmetry. apply Ht. rewrite <-Hft. f_equal. lia.
  - intros e' Hk'. symmetry. apply Ht. rewrite <-(vterm_lookup _ _ _ (Hfe _ _ Hk')). f_equal. lia.
Qed.

Lemma contiguous_intro i (es : list Entry) :
  (∀ k e, es !! k = Some e → e_index e = i + N.of_nat k) → contiguous i es.
Proof.
  revert i. induction es as [|e es IH]; intros i Hi; simpl; [done|].
  split; [rewrite (Hi 0%nat e eq_refl); lia|]. apply IH. intros k e' Hk. rewrite (Hi (Datatypes.S k) e' Hk). lia.
Qed.

Lemma faithful_append_ok g v m : path g v → (∀ k, g k 0 = None) → view_wf v → faithful v m → append_ok m.
Proof.
  intros Hp Hg Hwf [Hft Hfe]. split.
  - apply contiguous_intro. intros k e Hk. by apply (vlookup_index v); [|apply Hfe].
  - apply Forall_lookup_2. intros k e Hk Hz. destruct (pa_entry _ _ Hp _ _ (Hfe _ _ Hk)) as (p & Hgp & _).
    by rewrite Hz, Hg in Hgp.
  - intros Hne Hz. destruct Hft as [[Hi Hft]|[? _]]; [|done]. by eapply path_term.
  - intros Hne. destruct (lookup_lt_is_Some_2 (m_entries m) (length (m_entries m) - 1)) as [e He].
    { destruct (m_entries m); [done|simpl; lia]. }
    apply Hfe, mk_is_Some, vlookup_is_Some in He. destruct Hwf as [_ Hb]. unfold len in *.
    destruct (m_entries m); [done|]. simpl in *. lia.
Qed.
End paths.

(** ** Creating and receiving entries *)
Section creating.
Implicit Types (g : creation) (v : stable_view) (m : Message).

(** A leader of term [t] with the log [v] creates [new]. *)
Definition create g v (t : N) (new : list Entry) : creation := λ k t',
  if decide (t' = t ∧ vlast v < k) then
    (λ e, (e, match vterm (vext v new) (k - 1) with Ok p => p | Err _ => 0 end)) <$> vlookup (vext v new) k
  else g k t'.

Lemma create_mono g v t new : (∀ k, vlast v < k → g k t = None) → creates g (create g v t new).
Proof. intros Hn k t' x Hx. unfold create. rewrite decide_False; [done|]. intros [-> Hk]. by rewrite Hn in Hx. Qed.

Lemma create_inv g v t new k t' x : create g v t new k t' = Some x →
  g k t' = Some x ∨ t' = t ∧ k ≤ vlast (vext v new).
Proof.
  unfold create. case_decide as E; [|by left]. intros Hx. right. destruct E as [-> E]. split; [done|].
  destruct (vlookup (vext v new) k) eqn:Ev; [|done]. apply mk_is_Some, vlookup_is_Some in Ev. lia.
Qed.

Lemma vlookup_vext_inv v new i e : vlookup (vext v new) i = Some e →
  i ≤ vlast v ∧ vlookup v i = Some e ∨ vlast v < i ∧ e ∈ new.
Proof.
  unfold vlookup, vlast. simpl. destruct (N.ltb_spec (sv_dummy v) i); [|done].
  intros [Hl|[Hge Hl]]%lookup_app_Some; [left|right].
  - split; [|done]. apply lookup_lt_Some in Hl. unfold len. lia.
  - split; [unfold len; lia|]. exact (list_elem_of_lookup_2 _ _ _ Hl).
Qed.

Lemma create_path g v t new : path g v → Forall (λ e, e_term e = t) new →
  (∀ k, vlast v < k → g k t = None) → path (create g v t new) (vext v new).
Proof.
  intros Hp Hf Hn. split; [|apply Hp]. intros i e He.
  destruct (vlookup_vext_inv _ _ _ _ He) as [[Hi Hv]|[Hi Hv]].
  - destruct (pa_entry _ _ Hp _ _ Hv) as (p & Hgp & Hprev). exists p. split; [by apply create_mono|].
    pose proof (mk_is_Some _ _ Hv) as Hs%vlookup_is_Some. by rewrite vterm_vext by lia.
  - rewrite Forall_forall in Hf. rewrite (Hf e Hv). unfold create. rewrite decide_True by done. rewrite He.
    eexists. split; [reflexivity|]. by intros p ->.
Qed.

(** Below the splice, the log is the old one; above, the batch. *)
Lemma vterm_splice v a ents i : sv_dummy v < a → a ≤ vlast v + 1 → contiguous a ents → i < a →
  vterm (vsplice v a ents) i = vterm v i.
Proof.
  intros Hd Ha Hc Hi. unfold vterm. rewrite vlookup_splice by done. rewrite (proj2 (N.ltb_lt _ _)) by done. done.
Qed.

Lemma receive_path g v c m v' : path g v → append_path g m → append_ok m → received v c m v' → sv_dummy v ≤ c →
  path g v'.
Proof.
  intros Hp Hm [Hct Hts _ _] [Hi Ht _ ->] Hd. unfold vreceive. set (k := vmatched v (m_entries m)).
  destruct (decide (k = length (m_entries m))) as [|Hk]; [done|].
  pose proof (vmatched_last v _ _ Hct Hts ltac:(lia) ltac:(lia)) as Hlast. fold k in Hlast.
  set (a := m_index m + 1 + N.of_nat k). assert (contiguous a (drop k (m_entries m))) as Hca
    by (apply contiguous_drop; [apply vmatched_le|done]).
  split; [|apply Hp]. intros i e He. rewrite vlookup_splice in He by (done || lia).
  destruct (N.ltb_spec i a) as [Hlt|Hge].
  - destruct (pa_entry _ _ Hp _ _ He) as (p & Hgp & Hprev). exists p. split; [done|]. by rewrite vterm_splice by (done || lia).
  - rewrite lookup_drop in He. destruct (Hm _ _ He) as (p & Hgp & Hprev).
    assert (i = m_index m + 1 + N.of_nat (k + N.to_nat (i - a))) as Ei by lia. rewrite <-Ei in Hgp.
    exists p. split; [done|]. intros t Hvt. destruct (k + N.to_nat (i - a))%nat as [|j] eqn:Ej.
    + rewrite vterm_splice in Hvt by (done || lia). replace (i - 1) with (m_index m) in Hvt by lia. congruence.
    + destruct (lookup_lt_is_Some_2 (m_entries m) j) as [e' He']; [apply lookup_lt_Some in He; lia|].
      rewrite (Hprev _ He'). destruct (decide (j < k)%nat) as [Hjk|Hjk].
      * rewrite vterm_splice in Hvt by (done || lia). pose proof (vmatched_terms v _ _ _ Hjk He') as Hv.
        rewrite (contiguous_lookup _ _ _ _ Hct He') in Hv. replace (i - 1) with (m_index m + 1 + N.of_nat j) in Hvt by lia.
        congruence.
      * assert (vlookup (vsplice v a (drop k (m_entries m))) (i - 1) = Some e') as Hl.
        { rewrite vlookup_splice, (proj2 (N.ltb_ge _ _)), lookup_drop by (done || lia). rewrite <-He'. f_equal. lia. }
        apply vterm_lookup in Hl. congruence.
Qed.

(** ** Paths agree *)
Lemma paths_agree g v1 v2 (n : nat) i e1 e2 : path g v1 → path g v2 →
  vlookup v1 i = Some e1 → vlookup v2 i = Some e2 → e_term e1 = e_term e2 →
  sv_dummy v1 < i - N.of_nat n → sv_dummy v2 < i - N.of_nat n → vlookup v1 (i - N.of_nat n) = vlookup v2 (i - N.of_nat n).
Proof.
  intros Hp1 Hp2. revert i e1 e2. induction n as [|n IH]; intros i e1 e2 H1 H2 Ht D1 D2;
    destruct (pa_entry _ _ Hp1 _ _ H1) as (p1 & G1 & T1), (pa_entry _ _ Hp2 _ _ H2) as (p2 & G2 & T2);
    rewrite Ht, G2 in G1; injection G1 as -> ->.
  - by rewrite N.sub_0_r, H1, H2.
  - pose proof (mk_is_Some _ _ H1) as [_ L1]%vlookup_is_Some. pose proof (mk_is_Some _ _ H2) as [_ L2]%vlookup_is_Some.
    destruct (proj2 (vlookup_is_Some v1 (i - 1))) as [f1 F1]; [lia|].
    destruct (proj2 (vlookup_is_Some v2 (i - 1))) as [f2 F2]; [lia|].
    replace (i - N.of_nat (Datatypes.S n)) with (i - 1 - N.of_nat n) in * by lia.
    eapply IH; [done..| |done|done]. rewrite (T1 _ (vterm_lookup _ _ _ F1)). symmetry. apply T2. by apply vterm_lookup.
Qed.
End creating.

(** ** Restarting *)
Section restarting.
Context {S : Type} `{StorageLaws S} `{HashOrder} `{Rand}.
#[local] Set Default Proof Using "All".
Implicit Types (r : Raft.t S) (l : RaftLog.t S).

Lemma raft_log_new_view store lim l : RaftLog.new store lim = Done l → st_wf store →
  log_ok l ∧ log_view l = st_view store.
Proof.
  intros Hs Hwf. unfold RaftLog.new in Hs.
  rewrite (st_first_index_law _ Hwf), (st_last_index_law _ Hwf) in Hs. cbn [unwrap_res mbind outcome_bind] in Hs.
  inv_done Hs. pose proof (st_bound _ Hwf) as Hb. pose proof (st_contiguous _ Hwf) as Hc.
  set (v := st_view store) in *. fold (vlast v) in *.
  assert (sv_dummy v ≤ vlast v) as Hd by (unfold vlast; lia). u64_norm.
  replace (sv_dummy v + 1 - 1) with (sv_dummy v) by lia.
  assert (∀ c p a x, log_view (RaftLog.mk store (Unstable.new (vlast v + 1)) c p a x) = v) as Hv.
  { intros. unfold log_view. simpl. fold v. rewrite take_ge, app_nil_r by (unfold vlast, len; lia). by destruct v. }
  rewrite Hv. split; [|done]. split; split; rewrite ?Hv; simpl; fold v; try done; try lia.
  split; simpl; [done|lia|rewrite len_nil; lia|done|done].
Qed.

(** A node restarted from [store] has the log that is stored. *)
Lemma new_log cfg store r' : Raft.new cfg store = Done (Ok r') → st_wf store →
  RaftLog.applied (Raft.raft_log r') ≤ RaftLog.committed (Raft.raft_log r') →
  log_ok (Raft.raft_log r') ∧ log_view (Raft.raft_log r') = st_view store ∧
  Raft.batch_append r' = Config.batch_append cfg ∧
  (Config.batch_append cfg = false → ∀ m, m ∈ Raft.msgs r' → m_msg_type m = MsgAppend → faithful (st_view store) m).
Proof.
  unfold Raft.new. intros Hs Hwf Hap. destruct (Config.validate cfg), (st_initial_state store) as [rs|];
    try (by inv_done Hs). apply outcome_bind_Done in Hs as (l & Hl & Hs).
  apply outcome_bind_Done in Hs as (li & _ & Hs). destruct (raft_log_new_view _ _ _ Hl Hwf) as [Hok Hv].
  destruct (Changer.restore _ _ _) as [p [[]|e]]; [|by inv_done Hs].
  apply outcome_bind_Done in Hs as ([r1 cs] & Hp & Hs). destruct (negb _); [done|].
  apply post_conf_change_follower in Hp; [|done]. pose proof (q_state _ _ Hp) as Hst1.
  apply quiet_same_log in Hp as [B1 _ L1 T1]. destruct (L1 Hok) as [Hok1 V1]. simpl in B1, V1, Hst1.
  apply outcome_bind_Done in Hs as (r2 & H2' & Hs). apply outcome_bind_Done in Hs as (r3 & H3' & Hs).
  apply outcome_bind_Done in Hs as (r4 & H4' & Hs). inv_done Hs.
  assert (log_ok (Raft.raft_log r2) ∧ log_view (Raft.raft_log r2) = st_view store ∧
    Raft.batch_append r2 = Config.batch_append cfg ∧ Raft.msgs r2 = Raft.msgs r1 ∧ Raft.state r2 = Follower) as (O2 & V2 & B2 & M2 & S2).
  { case_bool_decide; [inv_done H2'; split_and!; [done|congruence|done..]|]. unfold Raft.load_state in H2'.
    destruct Hok1 as [W1 [D1 C1 A1 P1]]. rewrite last_index_view in H2' by done. cbn [mbind outcome_bind] in H2'.
    destruct (_ || _) eqn:E; inv_done H2'. apply orb_false_iff in E as [E1%N.ltb_ge E2%N.ltb_ge].
    split_and!; [|simpl; rewrite <-Hv, <-V1; done|done..]. split; [by destruct W1|].
    split; [exact (N.le_trans _ _ _ D1 E1)|exact E2|exact (N.le_trans _ _ _ A1 E1)|exact P1]. }
  assert (log_wf (Raft.raft_log r3) ∧ log_view (Raft.raft_log r3) = st_view store ∧
    Raft.batch_append r3 = Config.batch_append cfg ∧ Raft.msgs r3 = Raft.msgs r1 ∧
    RaftLog.committed (Raft.raft_log r3) = RaftLog.committed (Raft.raft_log r2) ∧
    RaftLog.persisted (Raft.raft_log r3) = RaftLog.persisted (Raft.raft_log r2) ∧
    RaftLog.unstable (Raft.raft_log r3) = RaftLog.unstable (Raft.raft_log r2)) as (W3 & V3 & B3 & M3 & C3 & P3 & U3).
  { destruct (0 <? Config.applied cfg); [|inv_done H3'; split_and!; [apply O2|done..]].
    unfold Raft.commit_apply_internal, Raft.is_role in H3'. simpl in H3'. rewrite S2, !andb_false_r in H3'.
    inv_done H3'. split_and!; [|done..]. destruct O2 as [[] _]. done. }
  unfold Raft.become_follower in H4'. apply outcome_bind_Done in H4' as (r5 & Hr & E).
  pose proof (reset_same_log _ _ _ Hr) as [B5 _ _ _]. apply reset_spec in Hr as (_ & _ & _ & _ & L5 & _ & M5 & _).
  inv_done E. cbn [Raft.raft_log Raft.batch_append Raft.msgs upd] in *. rewrite L5 in *.
  destruct O2 as [_ [D2 C2 _ P2]]. rewrite V2 in D2, C2.
  split_and!; [split; [by destruct W3|]|exact V3|congruence|].
  - split; [exact (eq_ind_r (λ v, sv_dummy v ≤ _) (eq_ind_r _ D2 C3) V3)|exact (eq_ind_r (λ v, _ ≤ vlast v) (eq_ind_r (λ c, c ≤ _) C2 C3) V3)|exact Hap|].
    simpl. by rewrite P3, U3.
  - intros Hb m Hin Hty. simpl in Hin. rewrite M5, M3 in Hin. destruct (T1 Hok Hb m Hin Hty) as [Hin'|Hf].
    + by apply elem_of_nil in Hin'.
    + by rewrite V1, Hv in Hf.
Qed.
End restarting.

(** ** The cluster and its disks *)
Section log_cluster.
Context {S : Type} `{StorageLaws S} `{HashOrder} `{Rand}.
#[local] Set Default Proof Using "All".
Implicit Types (r : Raft.t S) (l : RaftLog.t S) (g : creation).

(** The members of a cluster and what each node's host has written to disk. *)
Record log_cluster : Type := mkLogCluster {
  members : cluster S;
  disks : gmap N S
}.

Definition on_member (x : log_cluster) (i : N) r : log_cluster :=
  mkLogCluster (set_node (members x) i r) (disks x).

(** The host wrote entries or dropped compacted ones: the log a node stands
    for keeps its end. *)
Record stored l l' : Prop := mk_stored {
  sd_ok : log_ok l';
  sd_sub : vsub (log_view l') (log_view l);
  sd_last : vlast (log_view l') = vlast (log_view l)
}.

(** A snapshot of a real term, unless it is empty. *)
Definition snapshot_ok (m : Message) : Prop :=
  let meta := s_metadata (m_snapshot m) in sm_index meta + 1 < u64_modulus ∧ (sm_term meta = 0 → sm_index meta = 0).

(** One step, under the voter configuration [c].  Appends and granted votes
    are those that were sent; every other message may be invented. *)
Inductive log_step (c : Joint.Configuration) (x : log_cluster) : log_cluster → Prop :=
| ls_message i r m r' y :
    nodes (members x) !! i = Some r → (is_grant m = true → m ∈ net (members x) ∧ m_to m = i) →
    (m_msg_type m = MsgAppend → m ∈ net (members x)) → (m_msg_type m = MsgSnapshot → snapshot_ok m) →
    input_ok r m → room (1 + len (m_entries m)) r →
    Raft.step r m = Done (r', y) → voters_of r' = c → log_step c x (on_member x i r')
| ls_tick i r r' b :
    nodes (members x) !! i = Some r → Raft.term r < u64_max → room 2 r →
    Raft.tick r = Done (r', b) → voters_of r' = c → log_step c x (on_member x i r')
| ls_host i r r' :
    nodes (members x) !! i = Some r → room 1 r → host_op r r' → voters_of r' = c → log_step c x (on_member x i r')
| ls_store i r l :
    nodes (members x) !! i = Some r → stored (Raft.raft_log r) l →
    log_step c x (on_member x i (r <| Raft.raft_log := l |>))
| ls_write i r s :
    nodes (members x) !! i = Some r → st_wf s →
    vsub (st_view s) (log_view (Raft.raft_log r)) ∨ (∃ s0, disks x !! i = Some s0 ∧ vsub (st_view s) (st_view s0)) →
    log_step c x (mkLogCluster (members x) (<[i := s]> (disks x)))
| ls_send i r :
    nodes (members x) !! i = Some r →
    log_step c x (mkLogCluster (mkCluster (<[i := r <| Raft.msgs := [] |> <| Raft.witness_msgs := [] |>]> (nodes (members x)))
                    (witnesses (members x)) (net (members x) ++ Raft.msgs r)) (disks x))
| ls_restart i r cfg store rs r' :
    nodes (members x) !! i = Some r → disks x !! i = Some store →
    Config.id cfg = i → Config.batch_append cfg = false → st_initial_state store = Ok rs →
    hs_term (Storage.hard_state rs) = Raft.term r → hs_vote (Storage.hard_state rs) = Raft.vote r →
    Raft.new cfg store = Done (Ok r') → voters_of r' = c →
    RaftLog.applied (Raft.raft_log r') ≤ RaftLog.committed (Raft.raft_log r') → log_step c x (on_member x i r')
| ls_witness i w m w' resp :
    witnesses (members x) !! i = Some w → wm_from m ≠ 0 → Witness.process w m = (w', resp) →
    log_step c x (mkLogCluster (mkCluster (nodes (members x)) (<[i := w']> (witnesses (members x)))
                    (net (members x) ++ witness_answer i m w' resp)) (disks x))
| ls_lose ms :
    (∀ m, m ∈ ms → m ∈ net (members x)) →
    log_step c x (mkLogCluster (mkCluster (nodes (members x)) (witnesses (members x)) ms) (disks x)).

(** Every step is one of the cluster, or none. *)
Lemma log_step_cluster c x x' : log_step c x x' → cluster_step c (members x) (members x') ∨ members x' = members x.
Proof.
  intros Hs. destruct Hs as [i r m r' y|i r r' b|i r r'|i r l|i r s|i r|i r cfg store rs r'|i w m w' resp|ms];
    [left|left|left|left|by right|left|left|left|left].
  - by eapply cs_message.
  - by eapply cs_tick.
  - by eapply cs_host.
  - by eapply cs_storage.
  - by eapply cs_send.
  - by eapply cs_restart.
  - by eapply cs_witness.
  - by eapply cs_lose.
Qed.

(** ** The invariant *)

Definition appends_ok g (ms : list Message) : Prop :=
  ∀ m, m ∈ ms → m_msg_type m = MsgAppend → append_path g m ∧ append_ok m.

Record member_ok g r : Prop := mk_member_ok {
  mo_log : log_ok (Raft.raft_log r);
  mo_batch : Raft.batch_append r = false;
  mo_path : path g (log_view (Raft.raft_log r));
  mo_msgs : appends_ok g (Raft.msgs r);
  mo_term : campaigning r → Raft.term r ≠ 0
}.

(** The entry of index [k] and term [t] was created by the node that won [t],
    which has it while it leads and cannot win the term again. *)
Definition owned c h (ns : gmap N (Raft.t S)) (k t : N) : Prop := ∃ i r, ns !! i = Some r ∧ won c h i t ∧
  t ≤ Raft.term r ∧ (Raft.term r = t →
    Raft.state r ≠ Candidate ∧ (Raft.state r = Leader → k ≤ vlast (log_view (Raft.raft_log r)))).

Record log_inv c h (x : log_cluster) g : Prop := mk_log_inv {
  lv_cluster : cluster_inv c (members x) h;
  lv_zero : ∀ k, g k 0 = None;
  lv_member : ∀ i r, nodes (members x) !! i = Some r → member_ok g r;
  lv_net : appends_ok g (net (members x));
  lv_disk : ∀ i s, disks x !! i = Some s → st_wf s ∧ path g (st_view s);
  lv_owner : ∀ k t e, g k t = Some e → owned c h (nodes (members x)) k t
}.

Lemma appends_ok_mono g g' ms : appends_ok g ms → creates g g' → appends_ok g' ms.
Proof. intros Ha Hs m Hm Hty. destruct (Ha m Hm Hty). split; [by eapply append_path_mono|done]. Qed.

Lemma member_ok_mono g g' r : member_ok g r → creates g g' → member_ok g' r.
Proof. intros [? ? ? ? ?] Hs. split; [done|done|by eapply path_mono|by eapply appends_ok_mono|done]. Qed.

Lemma owned_mono c h h' ns k t : owned c h ns k t → extends h h' → owned c h' ns k t.
Proof. intros (i & r & Hi & Hw & Hr) Hs. exists i, r. split_and!; [done|by eapply won_mono|apply Hr..]. Qed.

(** A new leader's term has no entries yet; a leader has all of its own. *)
Lemma leader_room c h h' x g i r r' :
  Joint.incoming c ≠ ∅ → log_inv c h x g → nodes (members x) !! i = Some r → promotes r r' →
  cluster_inv c (set_node (members x) i r') h' → extends h h' →
  Raft.state r = Leader ∧ Raft.term r' = Raft.term r ∨ Raft.state r' = Leader →
  ∀ k, vlast (log_view (Raft.raft_log r)) < k → g k (Raft.term r') = None.
Proof.
  intros Hc [Hci _ Hm _ _ Ho] Hi [Ad Pl _] Hci' Hs Hlead k Hk.
  destruct (g k (Raft.term r')) as [e|] eqn:E; [exfalso|done].
  destruct (Ho _ _ _ E) as (j & rj & Hj & Hwj & Htj & Hrj).
  assert (won c h' i (Raft.term r')) as Hwi.
  { destruct Hlead as [[Hl Ht]|Hl].
    - destruct (ci_node _ _ _ Hci i r Hi) as [Hok _]. rewrite Ht. by eapply won_mono; [apply (no_lead _ _ _ _ Hok)|].
    - destruct (ci_node _ _ _ Hci' i r') as [Hok _]; [by apply lookup_insert_eq|]. by apply (no_lead _ _ _ _ Hok). }
  assert (i = j) as -> by (eapply won_unique; [done|done|by eapply won_mono]). simplify_eq.
  assert (Raft.state r = Leader ∧ Raft.term r' = Raft.term r → False) as Hold.
  { intros [Hl Ht]. destruct Hrj as [_ Hrj]; [done|]. specialize (Hrj Hl). lia. }
  destruct Hlead as [|Hl]; [done|]. destruct (Pl Hl) as [|[[Hcand Ht]|Hlt]]; [done| |lia].
  by destruct Hrj as [? _].
Qed.

(** The node [r] has become [r'] by the input [m]. *)
Record moved g (m : Message) r r' : Prop := mk_moved {
  mv_promotes : promotes r r';
  mv_sound : sound r r';
  mv_effect : log_effect m r r';
  mv_append : m_msg_type m = MsgAppend → append_path g m ∧ append_ok m;
  mv_snapshot : m_msg_type m = MsgSnapshot → snapshot_ok m
}.

(** The entries created by a move. *)
Lemma moved_creates g m r r' : member_ok g r → moved g m r r' → (∀ k, g k 0 = None) →
  (Raft.state r = Leader ∧ Raft.term r' = Raft.term r ∨ Raft.state r' = Leader →
    ∀ k, vlast (log_view (Raft.raft_log r)) < k → g k (Raft.term r') = None) →
  ∃ g', creates g g' ∧ (∀ k, g' k 0 = None) ∧ path g' (log_view (Raft.raft_log r')) ∧
    ∀ k t e, g' k t = Some e → g k t = Some e ∨
      t = Raft.term r' ∧ k ≤ vlast (log_view (Raft.raft_log r')) ∧
      (Raft.state r = Leader ∧ Raft.term r' = Raft.term r ∨ Raft.state r' = Leader).
Proof.
  intros [Hok Hb Hp Hms Hnz] [Hpr Hso He Ha Hsn] Hz Hroom.
  assert (path g (log_view (Raft.raft_log r')) → ∃ g', creates g g' ∧ (∀ k, g' k 0 = None) ∧
    path g' (log_view (Raft.raft_log r')) ∧ ∀ k t e, g' k t = Some e → g k t = Some e ∨
      t = Raft.term r' ∧ k ≤ vlast (log_view (Raft.raft_log r')) ∧
      (Raft.state r = Leader ∧ Raft.term r' = Raft.term r ∨ Raft.state r' = Leader)) as Hsame.
  { intros Hp'. exists g. split_and!; [by intros k|done|done|by left]. }
  destruct He as [E|new Hst E Hf|Hty Hnl Hr|Hty Hnl Hle E _].
  - apply Hsame. by rewrite E.
  - specialize (Hroom Hst). exists (create g (log_view (Raft.raft_log r)) (Raft.term r') new).
    assert (Raft.term r' ≠ 0) as Hne.
    { destruct Hst as [[Hl ->]|Hl]; [apply Hnz; by right|].
      destruct (pm_leader _ _ Hpr Hl) as [[? ->]|[[? ->]|?]]; [apply Hnz; by right|apply Hnz; by left|lia]. }
    split_and!.
    + by apply create_mono.
    + intros k. unfold create. rewrite decide_False; [done|]. by intros [? _].
    + rewrite E. by apply create_path.
    + intros k t e [|[-> Hk]]%create_inv; [by left|right]. by rewrite E.
  - destruct (Ha Hty). apply Hsame. eapply receive_path; [done|done|done|exact Hr|apply Hok].
  - apply Hsame. rewrite E. destruct (Hsn Hty) as [_ Ht]. apply path_empty; [done|]. simpl. intros [= Hz0]. auto.
Qed.

Lemma effect_last m r r' : log_effect m r r' → Raft.state r' = Leader →
  vlast (log_view (Raft.raft_log r)) ≤ vlast (log_view (Raft.raft_log r')).
Proof. intros [-> |new _ -> _|_ ? _|_ ? _ _] Hl; [done|rewrite vlast_vext; lia|congruence..]. Qed.

(** The creator of an entry keeps it through its moves. *)
Lemma owned_moved c h g m ns i r r' k t : owned c h ns k t → ns !! i = Some r → moved g m r r' →
  owned c h (<[i := r']> ns) k t.
Proof.
  intros (j & rj & Hj & Hw & Ht & Hr) Hi [[Ad Pl Pc] _ He _ _].
  destruct (decide (j = i)) as [->|Hne]; [|exists j, rj; by rewrite lookup_insert_ne].
  simplify_eq. exists i, r'. rewrite lookup_insert_eq. pose proof (adv_term _ _ Ad) as Hle.
  split_and!; [done|done|lia|]. intros E. destruct Hr as [Hnc Hl]; [lia|]. split.
  - intros Hc. destruct (Pc Hc) as [[? _]|?]; [done|lia].
  - intros Hld. pose proof (effect_last _ _ _ He Hld).
    destruct (Pl Hld) as [[? _]|[[? _]|?]]; [|done|lia]. etrans; [by apply Hl|done].
Qed.

Lemma member_ok_moved g g' m r r' : member_ok g r → moved g m r r' → creates g g' → (∀ k, g' k 0 = None) →
  path g' (log_view (Raft.raft_log r')) → member_ok g' r'.
Proof.
  intros [Hok Hb Hp Hms Hnz] [Hpr [So Sb _ St] _ _ _] Hs Hz Hp'. split; [done|congruence|done|..].
  - intros m' Hin Hty. destruct (St Hb m' Hin Hty) as [Hold|Hf].
    + by eapply appends_ok_mono.
    + split; [by eapply faithful_append_path|]. eapply faithful_append_ok; [done|done|apply log_view_wf, So|done].
  - intros [Hc|Hl].
    + destruct (pm_cand _ _ Hpr Hc) as [[? ->]|?]; [apply Hnz; by left|lia].
    + destruct (pm_leader _ _ Hpr Hl) as [[? ->]|[[? ->]|?]]; [apply Hnz; by right|apply Hnz; by left|lia].
Qed.

(** A cluster in which one node has moved. *)
Lemma log_inv_move c h h' x g m i r r' :
  Joint.incoming c ≠ ∅ → log_inv c h x g → nodes (members x) !! i = Some r → moved g m r r' →
  cluster_inv c (set_node (members x) i r') h' → extends h h' →
  ∃ g', log_inv c h' (on_member x i r') g'.
Proof.
  intros Hc Hinv Hi Hmv Hci Hs. pose proof Hinv as [Hci0 Hz Hm Hnet Hd Ho]. pose proof (Hm i r Hi) as Hok.
  destruct (moved_creates g m r r' Hok Hmv Hz) as (g' & Hg & Hz' & Hp' & Hnew).
  { by apply (leader_room c h h' x g i r r'); [..|apply Hmv| |]. }
  exists g'. split; [done|done| | | |].
  - intros k rk Hk. simpl in Hk. destruct (decide (k = i)) as [->|Hne].
    + rewrite lookup_insert_eq in Hk. injection Hk as <-. by eapply member_ok_moved.
    + rewrite lookup_insert_ne in Hk by done. eapply member_ok_mono; [by eapply Hm|done].
  - by eapply appends_ok_mono.
  - intros k s Hk. destruct (Hd k s Hk). split; [done|by eapply path_mono].
  - intros k t e He. destruct (Hnew _ _ _ He) as [Hold|(-> & Hk & Hl)].
    + eapply owned_moved; [|done|done]. by eapply owned_mono; [eapply Ho|].
    + exists i, r'. simpl. rewrite lookup_insert_eq. destruct (ci_node _ _ _ Hci i r') as [Hok' _]; [by apply lookup_insert_eq|].
      destruct (ci_node _ _ _ Hci0 i r Hi) as [Hok0 _].
      destruct Hl as [[Hl Ht]|Hl]; (split_and!; [done| |done|intros _; split; [|done]]); try congruence.
      * rewrite Ht. by eapply won_mono; [apply (no_lead _ _ _ _ Hok0)|].
      * intros Hcd. destruct (pm_cand _ _ (mv_promotes _ _ _ _ Hmv) Hcd) as [[? _]|?]; [congruence|lia].
      * by apply (no_lead _ _ _ _ Hok').
Qed.

(** A node that keeps its term, and its role and the end of its log unless it
    now follows. *)
Definition kept r r' : Prop := Raft.term r' = Raft.term r ∧
  (Raft.state r' = Follower ∨
   Raft.state r' = Raft.state r ∧ vlast (log_view (Raft.raft_log r')) = vlast (log_view (Raft.raft_log r))).

Lemma owned_kept c h ns i r r' k t : owned c h ns k t → ns !! i = Some r → kept r r' →
  owned c h (<[i := r']> ns) k t.
Proof.
  intros (j & rj & Hj & Hw & Ht & Hr) Hi [Et Hk].
  destruct (decide (j = i)) as [->|Hne]; [|exists j, rj; by rewrite lookup_insert_ne].
  simplify_eq. exists i, r'. rewrite lookup_insert_eq. split_and!; [done|done|by rewrite Et|]. rewrite Et. intros E.
  destruct (Hr E). destruct Hk as [->|[-> ->]]; [split; congruence|done].
Qed.

Lemma log_inv_replace c h h' x g i r r' ms ds :
  log_inv c h x g → extends h h' → nodes (members x) !! i = Some r → kept r r' → member_ok g r' →
  cluster_inv c (mkCluster (<[i := r']> (nodes (members x))) (witnesses (members x)) ms) h' →
  appends_ok g ms → (∀ j s, ds !! j = Some s → st_wf s ∧ path g (st_view s)) →
  log_inv c h' (mkLogCluster (mkCluster (<[i := r']> (nodes (members x))) (witnesses (members x)) ms) ds) g.
Proof.
  intros [_ Hz Hm _ _ Ho] Hs Hi Hk Hok Hci Hms Hd. split; simpl; [done|done| |done|done|].
  - intros j rj Hj. destruct (decide (j = i)) as [->|Hne].
    + rewrite lookup_insert_eq in Hj. by injection Hj as <-.
    + rewrite lookup_insert_ne in Hj by done. by eapply Hm.
  - intros k t e He. eapply owned_kept; [|done|done]. by eapply owned_mono; [eapply Ho|].
Qed.

Lemma appends_ok_app g ms ms' : appends_ok g ms → appends_ok g ms' → appends_ok g (ms ++ ms').
Proof. intros A B m [|]%elem_of_app; auto. Qed.

Lemma witness_answer_plain i m w resp m' : m' ∈ witness_answer i m w resp → m_msg_type m' ≠ MsgAppend.
Proof.
  unfold witness_answer. repeat case_match; intros Hin; try (by apply elem_of_nil in Hin).
  by apply list_elem_of_singleton in Hin as ->.
Qed.

Lemma cluster_step_same c x x' h : log_step c x x' → cluster_inv c (members x) h →
  ∃ h', cluster_inv c (members x') h' ∧ extends h h'.
Proof.
  intros Hs Hci. destruct (log_step_cluster _ _ _ Hs) as [Hcs| ->]; [by eapply cluster_step_inv|].
  exists h. split; [done|by intros k].
Qed.

(** Other traffic: the nodes are the same, no append is new. *)
Lemma log_inv_net c h h' x g ws ms ds : log_inv c h x g → extends h h' →
  cluster_inv c (mkCluster (nodes (members x)) ws ms) h' → appends_ok g ms →
  (∀ j s, ds !! j = Some s → st_wf s ∧ path g (st_view s)) →
  log_inv c h' (mkLogCluster (mkCluster (nodes (members x)) ws ms) ds) g.
Proof.
  intros [_ Hz Hm _ _ Ho] Hs Hci Hms Hd. split; simpl; try done. intros k t e He. by eapply owned_mono; [eapply Ho|].
Qed.

Lemma step_moved g r m r' y : Raft.step r m = Done (r', y) → input_ok r m → room (1 + len (m_entries m)) r →
  member_ok g r → (m_msg_type m = MsgAppend → append_path g m ∧ append_ok m) →
  (m_msg_type m = MsgSnapshot → snapshot_ok m) → moved g m r r'.
Proof.
  intros Hs Hio Hr [Hok _ _ _ _] Ha Hsn.
  destruct (step_effect _ _ _ _ Hs (io_leader _ _ Hio) Hok) as [Hso He].
  { split; [done|intros Hty; by apply Ha|intros Hty; by apply Hsn]. }
  split; [by eapply step_promotes|done..].
Qed.

Lemma log_step_inv c x x' h g : Joint.incoming c ≠ ∅ → log_inv c h x g → log_step c x x' →
  ∃ h' g', log_inv c h' x' g'.
Proof.
  intros Hc Hinv Hstep. pose proof Hinv as [Hci Hz Hm Hnet Hd Ho].
  destruct (cluster_step_same _ _ _ _ Hstep Hci) as (h' & Hci' & Hs). exists h'.
  destruct Hstep as [i r m r' y Hi Hg Ha Hsn Hio Hr Hst Hv|i r r' b Hi Hb Hr Hst Hv|i r r' Hi Hr Hop Hv|i r l Hi Hsd
    |i r s Hi Hwf Hsub|i r Hi|i r cfg store rs r' Hi Hds Hcfg Hba Hrs Ht Hvo Hnew Hv Hap|i w m w' resp Hi Hf Hp|ms Hms].
  - eapply log_inv_move; [done|done|done| |done|done]. eapply step_moved; eauto.
  - pose proof (Hm i r Hi) as [Hok _ _ _ _]. destruct (tick_drives _ _ _ Hst Hok Hr) as [Hso He].
    eapply log_inv_move; [done|done|done| |done|done]. split; [by eapply tick_promotes|done|exact He|done|done].
  - pose proof (Hm i r Hi) as [Hok _ _ _ _]. destruct (host_op_drives _ _ Hop Hok Hr) as [Hso He].
    eapply log_inv_move; [done|done|done| |done|done]. split; [by eapply host_op_promotes|done|exact He|done|done].
  - exists g. destruct (Hm i r Hi) as [Hok Hb Hp Hms Hnz]. destruct Hsd as [So Ss Sl].
    eapply log_inv_replace; [done|done|done|by split; [|right]| |done|done|done].
    split; [done|done|by eapply vsub_path|done|done].
  - exists g. split; simpl; [done|done|done|done| |].
    + intros j s' Hj. destruct (decide (j = i)) as [->|Hne].
      * rewrite lookup_insert_eq in Hj. injection Hj as <-. split; [done|].
        destruct Hsub as [Hsub|(s0 & Hs0 & Hsub)]; eapply vsub_path; [by eapply Hm|done|done|by eapply Hd|done|done].
      * rewrite lookup_insert_ne in Hj by done. by eapply Hd.
    + intros k t e He. by eapply owned_mono; [eapply Ho|].
  - exists g. destruct (Hm i r Hi) as [Hok Hb Hp Hms Hnz].
    eapply log_inv_replace; [done|done|done|by split; [|right]| |done| |done].
    + split; [done|done|done| |done]. intros m Hin. by apply elem_of_nil in Hin.
    + by apply appends_ok_app.
  - exists g. destruct (Hd i store Hds) as [Hwf Hp].
    destruct (new_log _ _ _ Hnew Hwf Hap) as (Hok & Hview & Hb & Hms).
    destruct (new_spec _ _ _ _ Hnew Hrs) as (_ & Et & _ & Est & _).
    eapply log_inv_replace; [done|done|done| | |done|done|done].
    + split; [congruence|by left].
    + split; [done|congruence|by rewrite Hview| |intros [|]; congruence].
      intros m Hin Hty. specialize (Hms Hba m Hin Hty). split; [by eapply faithful_append_path|].
      eapply faithful_append_ok; [done|done| |done]. rewrite <-Hview. apply log_view_wf, Hok.
  - exists g. eapply log_inv_net; [done|done|done| |done]. apply appends_ok_app; [done|].
    intros m' Hin Hty. by apply witness_answer_plain in Hin.
  - exists g. eapply log_inv_net; [done|done|done| |done]. intros m' Hin. by apply Hnet, Hms.
Qed.
End log_cluster.

(** ** Runs *)
Section log_runs.
Context {S : Type} `{StorageLaws S} `{HashOrder} `{Rand}.
#[local] Set Default Proof Using "All".

(** An empty log; its dummy term is real unless it starts at zero. *)
Definition empty_log (v : stable_view) : Prop :=
  sv_ents v = [] ∧ (sv_dummy_term v = Some 0 → sv_dummy v = 0).

(** Where a cluster starts: empty logs, no append on its way. *)
Record log_init c (x : log_cluster (S := S)) : Prop := mk_log_init {
  ln_cluster : cluster_init c (members x);
  ln_node : ∀ i r, nodes (members x) !! i = Some r → log_ok (Raft.raft_log r) ∧ Raft.batch_append r = false ∧
    empty_log (log_view (Raft.raft_log r)) ∧ ∀ m, m ∈ Raft.msgs r → m_msg_type m ≠ MsgAppend;
  ln_net : ∀ m, m ∈ net (members x) → m_msg_type m ≠ MsgAppend;
  ln_disk : ∀ i s, disks x !! i = Some s → st_wf s ∧ empty_log (st_view s)
}.

Lemma log_init_inv c x : log_init c x → log_inv c (initial_history (members x)) x (λ _ _, None).
Proof.
  intros [Hci Hn Hnet Hd]. split; [by apply cluster_init_inv|done| | | |done].
  - intros i r Hi. destruct (Hn i r Hi) as (Hok & Hb & [He Hz] & Hms).
    destruct (in_node _ _ Hci i r Hi) as (_ & _ & _ & Hst & _).
    split; [done|done|by apply path_empty| |intros [|]; congruence]. intros m Hm Hty. by specialize (Hms m Hm).
  - intros m Hm Hty. by specialize (Hnet m Hm).
  - intros i s Hs. destruct (Hd i s Hs) as [Hwf [He Hz]]. split; [done|by apply path_empty].
Qed.

Lemma log_reachable_inv c x0 x : log_init c x0 → rtc (log_step c) x0 x → ∃ h g, log_inv c h x g.
Proof.
  intros Hi Hr. pose proof (in_voters _ _ (ln_cluster _ _ Hi)) as Hc.
  assert (∃ h g, log_inv c h x0 g) as Hinv by (eexists _, _; by apply log_init_inv). clear Hi.
  induction Hr as [|x0 x1 x Hs _ IH]; [done|]. apply IH. destruct Hinv as (h & g & Hh). by eapply log_step_inv.
Qed.
End log_runs.
Arguments log_cluster S : clear implicits.

(** ** Properties *)

(** C4: Log matching.  In every state a cluster of nodes that do not batch
    appends ([batch_append] is off) can reach from empty logs, over a network that loses, repeats, delays, reorders messages and invents any
    but votes and appends, with hosts that write, compact and restart from
    their disks: if the logs of two nodes have entries of the same term at one
    index, then they have the same entries at that index and at every earlier
    index that neither has compacted. *)
Theorem log_matching {S} `{StorageLaws S} `{HashOrder} `{Rand} (c : Joint.Configuration)
    (x0 x : log_cluster S) (i j : N) (r1 r2 : Raft.t S) (k k' : N) (e1 e2 : Entry)
    (Hinit : log_init c x0) (Hrun : rtc (log_step c) x0 x)
    (Hn1 : nodes (members x) !! i = Some r1) (Hn2 : nodes (members x) !! j = Some r2)
    (He1 : vlookup (log_view (Raft.raft_log r1)) k = Some e1)
    (He2 : vlookup (log_view (Raft.raft_log r2)) k = Some e2)
    (Ht : e_term e1 = e_term e2) (Hk : k' ≤ k)
    (Hd1 : sv_dummy (log_view (Raft.raft_log r1)) < k') (Hd2 : sv_dummy (log_view (Raft.raft_log r2)) < k') :
  vlookup (log_view (Raft.raft_log r1)) k' = vlookup (log_view (Raft.raft_log r2)) k'.
Proof.
  destruct (log_reachable_inv _ _ _ Hinit Hrun) as (h & g & Hinv).
  replace k' with (k - N.of_nat (N.to_nat (k - k'))) in * by lia.
  eapply paths_agree; [|..|done|done]; [by eapply lv_member..|done|done|done].
Qed.

(** ** Witnesses of the hypotheses *)

(** Node 1 campaigns, node 2 votes for it, node 1 leads and node 2 takes over
    its first entry. *)
Section samples.
#[local] Existing Instances w_rand w_proto elements_order.

Definition w_append_msg : Message :=
  default default_Message (head (filter (λ m, m_to m = 2) (Raft.msgs w_quiet_leader))).
Definition w_taker : Raft.t MemStorage.t := w_step (w_sent w_voter) w_append_msg.
Definition w_new_log : RaftLog.t MemStorage.t := Eval vm_compute in Raft.raft_log (w_node 1).
Definition w_taken_log : RaftLog.t MemStorage.t := Eval vm_compute in Raft.raft_log w_taker.

Abbreviation w_log_step := (@log_step _ (@MemStorage.storage w_proto) w_proto (@mem_storage_laws w_proto) elements_order w_rand w_voters).
Abbreviation w_log_view := (@log_view _ (@MemStorage.storage w_proto) w_proto (@mem_storage_laws w_proto)).

Lemma w_new_room r k : Raft.raft_log r = w_new_log → k ≤ 3 → vlast (w_log_view (Raft.raft_log r)) + k + 1 < u64_modulus.
Proof. intros -> Hk. change (vlast _) with 0. unfold u64_modulus. lia. Qed.

Lemma w_log_run :
  rtc w_log_step (mkLogCluster (w_cluster (w_node 1) (w_node 2) []) ∅)
    (mkLogCluster (w_cluster (w_sent w_quiet_leader) w_taker
       (Raft.msgs w_candidate ++ Raft.msgs w_voter ++ Raft.msgs w_quiet_leader)) ∅).
Proof.
  eapply rtc_l.
  { eapply (ls_message _ _ 1 (w_node 1) (w_hup 1) w_candidate (Ok tt)); [reflexivity|done|done|done|apply w_input_hup| | |].
    - apply w_new_room; [vm_compute; reflexivity|vm_compute; done].
    - exact w_campaign_step.
    - vm_compute. reflexivity. }
  eapply rtc_l; [apply (ls_send _ _ 1 w_candidate); vm_compute; reflexivity|].
  eapply rtc_l.
  { eapply (ls_message _ _ 2 (w_node 2) w_request w_voter (Ok tt));
      [vm_compute; reflexivity|vm_compute; done|vm_compute; done|vm_compute; done|split; vm_compute; done| | |].
    - apply w_new_room; [vm_compute; reflexivity|vm_compute; done].
    - vm_compute. reflexivity.
    - vm_compute. reflexivity. }
  eapply rtc_l; [apply (ls_send _ _ 2 w_voter); vm_compute; reflexivity|].
  eapply rtc_l.
  { eapply (ls_message _ _ 1 w_quiet_candidate w_grant w_quiet_leader (Ok tt));
      [vm_compute; reflexivity| |vm_compute; done|vm_compute; done|split; vm_compute; done| | |].
    - intros _. split; [|vm_compute; reflexivity]. cbn [members net]. apply elem_of_app. right. vm_compute. left.
    - apply w_new_room; [vm_compute; reflexivity|vm_compute; done].
    - vm_compute. reflexivity.
    - vm_compute. reflexivity. }
  eapply rtc_l; [apply (ls_send _ _ 1 w_quiet_leader); vm_compute; reflexivity|].
  eapply rtc_l.
  { eapply (ls_message _ _ 2 (w_sent w_voter) w_append_msg w_taker (Ok tt));
      [vm_compute; reflexivity|vm_compute; done| |vm_compute; done|split; vm_compute; done| | |].
    - intros _. cbn [members net]. rewrite elem_of_app. right. vm_compute. left.
    - apply w_new_room; [vm_compute; reflexivity|vm_compute; done].
    - vm_compute. reflexivity.
    - vm_compute. reflexivity. }
  match goal with |- rtc _ ?a ?b => replace a with b by (vm_compute; reflexivity) end. reflexivity.
Qed.

Lemma w_log_init : @log_init _ (@MemStorage.storage w_proto) w_proto (@mem_storage_laws w_proto) w_voters
  (mkLogCluster (w_cluster (w_node 1) (w_node 2) []) ∅).
Proof.
  assert (@log_ok _ (@MemStorage.storage w_proto) w_proto (@mem_storage_laws w_proto) w_new_log) as Hok
    by (split; split; simpl; try done).
  split; [exact w_cluster_init| |intros m Hm; by apply elem_of_nil in Hm|done].
  intros i r Hi. simpl in Hi.
  assert (Raft.raft_log r = w_new_log ∧ Raft.batch_append r = false ∧ Raft.msgs r = []) as (-> & -> & ->).
  { apply lookup_insert_Some in Hi as [[_ <-]|[_ Hi]]; [|apply lookup_singleton_Some in Hi as [_ <-]];
      split_and!; vm_compute; reflexivity. }
  split_and!; [exact Hok|done|done|]. intros m Hm. by apply elem_of_nil in Hm.
Qed.

Lemma log_matching_witness : ∃ e, vlookup (w_log_view w_own_log) 1 = Some e ∧ vlookup (w_log_view w_taken_log) 1 = Some e.
Proof.
  exists (default default_Entry (head (Unstable.entries (RaftLog.unstable w_own_log)))). split; [vm_compute; reflexivity|].
  assert (Raft.raft_log (w_sent w_quiet_leader) = w_own_log) as E1 by (vm_compute; reflexivity).
  assert (Raft.raft_log w_taker = w_taken_log) as E2 by (vm_compute; reflexivity).
  pose proof (@log_matching _ (@MemStorage.storage w_proto) w_proto (@mem_storage_laws w_proto) elements_order w_rand
    w_voters _ _ 2 1 w_taker (w_sent w_quiet_leader) 1 1
    (default default_Entry (head (Unstable.entries (RaftLog.unstable w_taken_log))))
    (default default_Entry (head (Unstable.entries (RaftLog.unstable w_own_log)))) w_log_init w_log_run) as Hm.
  rewrite E1, E2 in Hm. rewrite Hm; vm_compute; try reflexivity; done.
Defined.
End samples.
