(* ===== verification/RaftVoices.v ===== *)
(** * What a node says

    Every message a node has to send after an operation was there before or is
    backed by what the node knows: an append and a heartbeat by its commit
    index and what it knows the addressee to have, an acknowledgement by its
    log, a vote by its term and the end of its log.  And the leader's knowledge
    of its peers changes only by their acknowledgements and by its own writes. *)
From S2P Require Import Prelude Errors Eraftpb ProtoConf Util Unstable Storage RaftLog RaftLogSpec Quorum.
From S2P Require Import Inflights Progress Tracker ConfChange ReadOnly Config Raft RaftFrame RaftElection.
From S2P Require Import RaftReplication RaftLogSteps RaftCommit.

(** The progress of a peer, for a log that ends at [n]. *)
Definition fits (n : N) (p : Progress.t) : Prop :=
  1 ≤ Progress.next_idx p ∧ Progress.next_idx p ≤ n + 1 ∧ Progress.matched p ≤ n.

(** Messages that speak of votes or acknowledge an append. *)
Definition is_answer (m : Message) : bool :=
  Raft.is_campaign_msg m || is_type m MsgAppendResponse.

Section voices.
Context {S : Type} `{StorageLaws S} `{HashOrder} `{Rand}.
#[local] Set Default Proof Using "All".
Implicit Types r : Raft.t S.

Abbreviation committed r := (RaftLog.committed (Raft.raft_log r)).
Abbreviation last_of r := (vlast (log_view (Raft.raft_log r))).

Definition all_fit r : Prop := ∀ v p, Tracker.get (Raft.prs r) v = Some p → fits (last_of r) p.

(** The append [m] follows an entry of the log [v]. *)
Definition placed (v : stable_view) (m : Message) : Prop :=
  sv_dummy v ≤ m_index m ≤ vlast v ∧ vterm v (m_index m) = Ok (m_log_term m).

Lemma placed_vext v new m : placed v m → placed (vext v new) m.
Proof. intros [Hi Ht]. unfold placed. rewrite vlast_vext, vterm_vext by lia. simpl. split; [lia|done]. Qed.

(** A message of a leader: it carries its term and no more of a commit index
    than it has; an append follows an index of its log; a heartbeat goes to
    another node, which is known to have what it is told to commit. *)
Definition voiced r (m : Message) : Prop :=
  is_answer m = false ∧
  (m_msg_type m = MsgAppend → m_term m = Raft.term r ∧ m_commit m ≤ committed r ∧ placed (log_view (Raft.raft_log r)) m) ∧
  (m_msg_type m = MsgHeartbeat → m_term m = Raft.term r ∧ m_commit m ≤ committed r ∧
    m_commit m ≤ matched_of r (m_to m) ∧ m_to m ≠ Raft.id r).

(** The same peers, known to have the same. *)
Definition same_peers (n : N) r r' : Prop := ∀ v,
  option_Forall2 (λ p p', Progress.matched p' = Progress.matched p ∧ (fits n p → fits n p'))
    (Tracker.get (Raft.prs r) v) (Tracker.get (Raft.prs r') v).

(** Operations that only send, as a leader does. *)
Record sends r r' : Prop := mk_sends {
  ss_quiet : quiet r r';
  ss_peers : log_ok (Raft.raft_log r) → same_peers (last_of r) r r';
  ss_match : same_match r r';
  ss_said : Raft.batch_append r = false → log_ok (Raft.raft_log r) → all_fit r →
    ∀ m, m ∈ Raft.msgs r' → m ∈ Raft.msgs r ∨ voiced r' m
}.

Lemma same_peers_refl n r r' : Raft.prs r' = Raft.prs r → same_peers n r r'.
Proof. intros E v. rewrite E. destruct (Tracker.get _ v); by constructor. Qed.

Lemma same_peers_trans n r r1 r' : same_peers n r r1 → same_peers n r1 r' → same_peers n r r'.
Proof.
  intros P1 P2 v. specialize (P1 v). specialize (P2 v).
  destruct P1 as [p p1 [E1 F1]|]; inversion P2 as [? p2 [E2 F2]|]; subst; constructor.
  split; [congruence|auto].
Qed.

Lemma voiced_kept r r' m : voiced r m → Raft.term r' = Raft.term r → Raft.id r' = Raft.id r →
  committed r ≤ committed r' → (∃ new, log_view (Raft.raft_log r') = vext (log_view (Raft.raft_log r)) new) →
  (∀ v, matched_of r v ≤ matched_of r' v) → voiced r' m.
Proof.
  intros (Ha & Hp & Hh) Et Ei Hc [new Hl] Hm. split_and!; [done|..].
  - intros (? & ? & ?)%Hp. split_and!; [congruence|lia|rewrite Hl; by apply placed_vext].
  - intros (? & ? & ? & ?)%Hh. specialize (Hm (m_to m)). split_and!; [congruence|lia|lia|congruence].
Qed.

Lemma quiet_last r r' : quiet r r' → log_ok (Raft.raft_log r) →
  log_ok (Raft.raft_log r') ∧ log_view (Raft.raft_log r') = log_view (Raft.raft_log r).
Proof. intros Hq Hok. by apply (sl_log _ _ (quiet_same_log _ _ Hq)). Qed.

Lemma same_peers_fit r r' : same_peers (last_of r) r r' → log_view (Raft.raft_log r') = log_view (Raft.raft_log r) →
  all_fit r → all_fit r'.
Proof.
  intros P E Hf v p' Hg. specialize (P v). rewrite Hg in P. rewrite E. inversion P as [p ? [_ Hp] Ep|]; subst.
  apply Hp. by eapply Hf.
Qed.

#[export] Instance sends_preorder : PreOrder sends.
Proof.
  split.
  - intros r. split; [reflexivity|intros _; by apply same_peers_refl|reflexivity|by left].
  - intros r1 r2 r3 [Q1 P1 M1 S1] [Q2 P2 M2 S2]. split; [by etrans| |by etrans|].
    + intros Hok. destruct (quiet_last _ _ Q1 Hok) as [Hok2 E2]. specialize (P2 Hok2). rewrite E2 in P2.
      eapply same_peers_trans; [by apply P1|exact P2].
    + intros Hb Hok Hf m Hm. pose proof (q_batch _ _ Q1) as Eb. destruct (quiet_last _ _ Q1 Hok) as [Hok2 E2].
      destruct (S2 ltac:(congruence) Hok2 (same_peers_fit _ _ (P1 Hok) E2 Hf) m Hm) as [Hm2|]; [|by right].
      destruct (S1 Hb Hok Hf m Hm2) as [|Hv]; [by left|right]. pose proof (quiet_unmoved _ _ Q2) as Hu. unfold unmoved in Hu.
      destruct (quiet_last _ _ Q2 Hok2) as [_ E3].
      eapply voiced_kept; [done|apply Q2|apply Q2|by rewrite Hu|exists []; by rewrite E3, vext_nil|intros v; by rewrite (M2 v)].
Qed.

(** What [send] puts in the queue. *)
Lemma send_msg r m r' : Raft.send r m = Done r' → ∃ m', r' = r <| Raft.msgs ::= λ l, l ++ [m'] |> ∧
  m_msg_type m' = m_msg_type m ∧ m_reject m' = m_reject m ∧ m_to m' = m_to m ∧
  m_from m' = (if m_from m =? 0 then Raft.id r else m_from m) ∧ m_index m' = m_index m ∧
  m_log_term m' = m_log_term m ∧ m_entries m' = m_entries m ∧ m_commit m' = m_commit m ∧
  m_commit_term m' = m_commit_term m ∧
  (if Raft.is_campaign_msg m then m_term m' = m_term m
   else is_type m MsgPropose || is_type m MsgReadIndex = false → m_term m' = Raft.term r).
Proof.
  unfold Raft.send. intros Hs. unfold INVALID_ID in Hs.
  set (m1 := if m_from m =? 0 then m <| m_from := Raft.id r |> else m) in Hs.
  assert (∃ f, m1 = m <| m_from := f |> ∧ f = (if m_from m =? 0 then Raft.id r else m_from m)) as (f & E1 & Ef).
  { unfold m1. destruct (m_from m =? 0); eexists; (split; [|reflexivity]); [done|by destruct m]. }
  clearbody m1. subst m1. apply outcome_bind_Done in Hs as (m2 & Hm2 & Hs). injection Hs as <-. eexists. split; [reflexivity|].
  assert (∃ t, m2 = m <| m_from := f |> <| m_term := t |> ∧
    (if Raft.is_campaign_msg m then t = m_term m
     else is_type m MsgPropose || is_type m MsgReadIndex = false → t = Raft.term r)) as (t & -> & Ht).
  { change (Raft.is_campaign_msg (m <| m_from := f |>)) with (Raft.is_campaign_msg m) in Hm2.
    destruct (Raft.is_campaign_msg m).
    - destruct (_ =? 0); [done|]. injection Hm2 as <-. exists (m_term m). split; [by destruct m|done].
    - change (is_type (m <| m_from := f |>)) with (is_type m) in Hm2.
      destruct (is_type m MsgPropose), (is_type m MsgReadIndex), (negb (m_term (m <| m_from := f |>) =? 0)); try done;
        injection Hm2 as <-; simpl;
        first [exists (Raft.term r); by split|exists (m_term m); split; [by destruct m|done]]. }
  repeat case_match; simpl; split_and!; done.
Qed.

(** Sending one message of a leader. *)
Lemma send_sends r m r' : Raft.send r m = Done r' → is_answer m = false →
  (m_msg_type m = MsgAppend → m_commit m ≤ committed r ∧ placed (log_view (Raft.raft_log r)) m) →
  (m_msg_type m = MsgHeartbeat → m_commit m ≤ committed r ∧ m_commit m ≤ matched_of r (m_to m) ∧ m_to m ≠ Raft.id r) →
  ∀ m', m' ∈ Raft.msgs r' → m' ∈ Raft.msgs r ∨ voiced r' m'.
Proof.
  intros (m1 & -> & E1 & E2 & E3 & E4 & E5 & E6 & E7 & E8 & E9 & Et)%send_msg Ha Hp Hh m' Hin.
  simpl in Hin. apply elem_of_app in Hin as [|Hin%list_elem_of_singleton]; [by left|right]. subst m'.
  unfold is_answer in Ha. apply orb_false_iff in Ha as [Hc Hr]. rewrite Hc in Et.
  assert (Raft.is_campaign_msg m1 = Raft.is_campaign_msg m ∧ is_type m1 MsgAppendResponse = is_type m MsgAppendResponse) as [F1 F2]
    by (unfold Raft.is_campaign_msg, is_type; by rewrite E1).
  split_and!.
  - unfold is_answer. by rewrite F1, F2, Hc, Hr.
  - rewrite E1. intros Hty. destruct (Hp Hty). unfold placed. rewrite E8, E5, E6.
    split; [apply Et; unfold is_type; by rewrite Hty|split; [done|done]].
  - rewrite E1. intros Hty. destruct (Hh Hty) as (? & ? & ?). rewrite E8, E3.
    split_and!; [apply Et; unfold is_type; by rewrite Hty|done..].
Qed.
End voices.

(** ** Sending *)
Section sending.
Context {S : Type} `{StorageLaws S} `{HashOrder} `{Rand}.
#[local] Set Default Proof Using "All".
Implicit Types r : Raft.t S.

Abbreviation committed r := (RaftLog.committed (Raft.raft_log r)).
Abbreviation last_of r := (vlast (log_view (Raft.raft_log r))).

Lemma update_state_fits n p k p' : Progress.update_state p k = Done p' → k ≤ n → n + 1 < u64_modulus →
  fits n p → fits n p'.
Proof.
  unfold Progress.update_state. intros Hs Hk Hn (H1' & H2' & H3'). destruct (Progress.state p); inv_done Hs.
  - by split_and!.
  - unfold fits, Progress.optimistic_update. simpl. rewrite u64_add_small by lia. split_and!; [lia|lia|done].
Qed.

Lemma read_bound l i max ctx l' es e : RaftLog.entries l i max ctx = Done (l', Ok es) → log_ok l →
  last es = Some e → e_index e ≤ vlast (log_view l) ∧ vlast (log_view l) + 1 < u64_modulus.
Proof.
  intros He [Hwf _] Hl. rewrite last_lookup in Hl. destruct (entries_view _ _ _ _ _ _ He Hwf) as [_ Hk].
  specialize (Hk _ _ Hl). pose proof (log_view_wf _ Hwf) as Hv. rewrite (vlookup_index _ _ _ Hv Hk).
  apply mk_is_Some, vlookup_is_Some in Hk. split; [lia|apply Hv].
Qed.

Lemma prepare_send_entries_fits r m pr tm ents m' pr' n :
  Raft.prepare_send_entries r m pr tm ents = Done (m', pr') →
  (∀ e, last ents = Some e → e_index e ≤ n ∧ n + 1 < u64_modulus) → fits n pr → fits n pr'.
Proof.
  unfold Raft.prepare_send_entries. intros Hs He Hf. inv_done Hs; [|done].
  destruct (He e) as [? ?]; [done|]. by eapply update_state_fits.
Qed.

Lemma batch_into_fits cm to ms pr ents ms' pr' n :
  Raft.batch_into cm to ms pr ents = Done (Some (ms', pr')) →
  (∀ e, last ents = Some e → e_index e ≤ n ∧ n + 1 < u64_modulus) → fits n pr → fits n pr'.
Proof.
  revert ms' pr'. induction ms as [|m0 ms IH]; intros ms' pr' Hs He Hf; [done|]. cbn [Raft.batch_into] in Hs.
  inv_done Hs; simplify_eq; [done| |].
  - assert (last (m_entries m0 ++ ents) = last ents) as El.
    { case_bool_decide; [done|]. destruct (last ents) eqn:E; [by rewrite last_app, E|by apply last_None in E]. }
    simpl in *. match goal with H : last (_ ++ _) = Some ?y |- _ => rewrite El in H; destruct (He y H) end.
    by eapply update_state_fits.
  - destruct x as [[ms1 pr1]|]; simplify_eq. by eapply IH.
Qed.

(** What sending to one peer does. *)
Record sent_one r pr r' pr' : Prop := mk_sent_one {
  so_quiet : quiet r r';
  so_prs : Raft.prs r' = Raft.prs r;
  so_matched : Progress.matched pr' = Progress.matched pr;
  so_fits : log_ok (Raft.raft_log r) → fits (last_of r) pr → fits (last_of r) pr';
  so_said : Raft.batch_append r = false → log_ok (Raft.raft_log r) → fits (last_of r) pr →
    ∀ m, m ∈ Raft.msgs r' → m ∈ Raft.msgs r ∨ voiced r' m
}.

Lemma prepare_send_entries_msg r m pr tm ents m' pr' : Raft.prepare_send_entries r m pr tm ents = Done (m', pr') →
  m_msg_type m' = MsgAppend ∧ m_commit m' = committed r ∧ m_index m' = Progress.next_idx pr -w 1 ∧ m_log_term m' = tm.
Proof. unfold Raft.prepare_send_entries. intros Hs. inv_done Hs; done. Qed.

Lemma prepare_send_snapshot_said r m pr to r' m' pr' b :
  Raft.prepare_send_snapshot r m pr to = Done (r', m', pr', b) →
  (b = true → m_msg_type m' = MsgSnapshot) ∧ Raft.msgs r' = Raft.msgs r ∧ ∀ n, fits n pr → fits n pr'.
Proof. unfold Raft.prepare_send_snapshot. intros Hs. inv_done Hs; done. Qed.

Lemma try_batching_fits r to pr ents r' pr' b n : Raft.try_batching r to pr ents = Done (r', pr', b) →
  (∀ e, last ents = Some e → e_index e ≤ n ∧ n + 1 < u64_modulus) → fits n pr → fits n pr'.
Proof.
  unfold Raft.try_batching. intros Hs He Hf. inv_done Hs. destruct x as [[ms p]|]; simplify_eq; [|done].
  by eapply batch_into_fits.
Qed.

Lemma maybe_send_append_fits r to pr allow r' pr' b :
  Raft.maybe_send_append r to pr allow = Done (r', pr', b) → log_ok (Raft.raft_log r) →
  fits (last_of r) pr → fits (last_of r) pr'.
Proof.
  intros Hs Hok Hf. unfold Raft.maybe_send_append in Hs. inv_done Hs; try done;
    repeat match goal with
    | H : Raft.prepare_send_snapshot _ _ _ _ = Done _ |- _ => apply prepare_send_snapshot_said in H as (_ & _ & Hx); by apply Hx
    | H : RaftLog.entries _ _ _ _ = Done (_, Ok ?es) |- _ =>
      assert (∀ e, last es = Some e → e_index e ≤ last_of r ∧ last_of r + 1 < u64_modulus) as He
        by (intros e El; by eapply read_bound); clear H
    | H : Raft.try_batching _ _ _ _ = Done (_, _, true) |- _ => by eapply try_batching_fits
    | H : Raft.try_batching _ _ _ _ = Done (_, _, false) |- _ => apply try_batching_not in H as [-> ->]
    | H : Raft.prepare_send_entries _ _ _ _ _ = Done _ |- _ => by eapply prepare_send_entries_fits
    | H : mret _ = Done _ |- _ => inv_done H
    end.
Qed.

Lemma send_snapshot_said r m pr to r1 m1 pr1 b r' : Raft.prepare_send_snapshot r m pr to = Done (r1, m1, pr1, b) →
  negb b = false → Raft.send r1 m1 = Done r' → ∀ m, m ∈ Raft.msgs r' → m ∈ Raft.msgs r ∨ voiced r' m.
Proof.
  intros (Hty & <- & _)%prepare_send_snapshot_said Hb%negb_false_iff Hs. specialize (Hty Hb).
  eapply (send_sends _ _ _ Hs); [unfold is_answer, Raft.is_campaign_msg, is_type; by rewrite Hty|congruence..].
Qed.

Lemma send_entries_said r m pr tm ents m1 pr1 r' : Raft.prepare_send_entries r m pr tm ents = Done (m1, pr1) →
  Raft.send r m1 = Done r' → RaftLog.term (Raft.raft_log r) (Progress.next_idx pr -w 1) = Done (Ok tm) →
  sv_dummy (log_view (Raft.raft_log r)) < Progress.next_idx pr → log_ok (Raft.raft_log r) → fits (last_of r) pr →
  ∀ m, m ∈ Raft.msgs r' → m ∈ Raft.msgs r ∨ voiced r' m.
Proof.
  intros (Hty & Hcm & Hix & Htm)%prepare_send_entries_msg Hs Ht Hlo Hok (F1 & F2 & _). rewrite term_view in Ht by apply Hok.
  pose proof (log_view_wf _ (proj1 Hok)) as [_ Hb].
  eapply (send_sends _ _ _ Hs); [unfold is_answer, Raft.is_campaign_msg, is_type; by rewrite Hty| |congruence].
  intros _. injection Ht as Ht. unfold placed. rewrite Hcm, Htm, Hix, Ht, u64_sub_small; [split_and!; [done|lia|lia|done]|lia|unfold vlast in *; lia].
Qed.

Lemma maybe_send_append_said r to pr allow r' pr' b :
  Raft.maybe_send_append r to pr allow = Done (r', pr', b) → Raft.batch_append r = false →
  log_ok (Raft.raft_log r) → fits (last_of r) pr → ∀ m, m ∈ Raft.msgs r' → m ∈ Raft.msgs r ∨ voiced r' m.
Proof.
  intros Hs Hb Hok Hf. unfold Raft.maybe_send_append in Hs. inv_done Hs; simpl in *; try (by left); try congruence;
    repeat match goal with H : mret _ = Done _ |- _ => inv_done H end;
    try match goal with H : RaftLog.entries _ _ _ _ = Done _ |- _ =>
      destruct (log_read_ok _ _ (entries_read _ _ _ _ _ _ H) Hok) as [Hok' Hv'];
      try (apply entries_view in H as [Hlo _]; [|apply Hok]; rewrite <-Hv' in Hlo) end;
    first [ match goal with H : Raft.prepare_send_snapshot ?x _ _ _ = _ |- _ => change (Raft.msgs r) with (Raft.msgs x) end;
            first [by eapply send_snapshot_said|match goal with H : Raft.prepare_send_snapshot _ _ _ _ = _ |- _ =>
              apply prepare_send_snapshot_said in H as (_ & <- & _) end; by left]
          | match goal with H : Raft.prepare_send_entries ?x _ _ _ _ = _ |- _ => change (Raft.msgs r) with (Raft.msgs x) end;
            eapply send_entries_said; [eassumption|eassumption|eassumption|exact Hlo|exact Hok'|simpl; by rewrite Hv'|eassumption] ].
Qed.

Lemma maybe_send_append_one r to pr allow r' pr' b :
  Raft.maybe_send_append r to pr allow = Done (r', pr', b) → sent_one r pr r' pr'.
Proof.
  intros Hs. destruct (maybe_send_append_prs _ _ _ _ _ _ _ Hs) as [Ep Em].
  split; [by eapply maybe_send_append_quiet|done|done|by eapply maybe_send_append_fits|by eapply maybe_send_append_said].
Qed.

Lemma sent_one_trans r pr r1 pr1 r' pr' : sent_one r pr r1 pr1 → sent_one r1 pr1 r' pr' → sent_one r pr r' pr'.
Proof.
  intros [Q1 P1 M1 F1 S1] [Q2 P2 M2 F2 S2]. split; [by etrans|congruence|congruence|..].
  - intros Hok Hf. destruct (quiet_last _ _ Q1 Hok) as [Hok1 E]. rewrite E in F2. auto.
  - intros Hb Hok Hf m Hm. pose proof (q_batch _ _ Q1) as Eb. destruct (quiet_last _ _ Q1 Hok) as [Hok1 E].
    rewrite E in S2. destruct (S2 ltac:(congruence) Hok1 (F1 Hok Hf) m Hm) as [Hm1|]; [|by right].
    destruct (S1 Hb Hok Hf m Hm1) as [|Hv]; [by left|right]. pose proof (quiet_unmoved _ _ Q2) as Hu. unfold unmoved in Hu.
    destruct (quiet_last _ _ Q2 Hok1) as [_ E2].
    eapply voiced_kept; [done|apply Q2|apply Q2|by rewrite Hu|exists []; by rewrite E2, vext_nil|]. intros v. unfold matched_of. by rewrite P2.
Qed.

Lemma write_back_sends r to pr0 pr r1 pr' : Tracker.get (Raft.prs r) to = Some pr0 →
  Progress.matched pr = Progress.matched pr0 → (∀ n, fits n pr0 → fits n pr) → sent_one r pr r1 pr' →
  sends r (Raft.set_pr r1 to pr').
Proof.
  intros Hg E0 F0 [Q P M F Sd]. assert (same_match r1 (Raft.set_pr r1 to pr')) as Hm.
  { apply set_pr_match. unfold matched_of. rewrite P, Hg. congruence. }
  split.
  - etrans; [exact Q|quiet_upd].
  - intros Hok v. unfold Tracker.get in *. simpl. rewrite P. destruct (decide (v = to)) as [->|Hne].
    + rewrite lookup_insert_eq, Hg. constructor. split; [congruence|auto].
    + rewrite lookup_insert_ne by done. destruct (Tracker.progress _ !! v); by constructor.
  - etrans; [by apply same_prs_match|done].
  - intros Hb Hok Hf m Hin. destruct (Sd Hb Hok (F0 _ (Hf _ _ Hg)) m Hin) as [|Hv]; [by left|right].
    eapply voiced_kept; [done|done|done|done|exists []; by rewrite vext_nil|]. intros v. by rewrite (Hm v).
Qed.

Lemma send_append_sends r to r' : Raft.send_append r to = Done r' → sends r r'.
Proof.
  unfold Raft.send_append. intros Hs. inv_done Hs. apply maybe_send_append_one in Hc0. by eapply write_back_sends; [..|eassumption].
Qed.

Lemma send_append_loop_one fuel r to pr r' pr' : Raft.send_append_loop fuel r to pr = Done (r', pr') →
  sent_one r pr r' pr'.
Proof.
  revert r pr. induction fuel as [|fuel IH]; intros r pr Hs; cbn [Raft.send_append_loop] in Hs; [done|].
  inv_done Hs; apply maybe_send_append_one in Hc; [|done]. apply IH in Hs. by eapply sent_one_trans.
Qed.

Lemma send_append_aggressively_sends r to r' : Raft.send_append_aggressively r to = Done r' → sends r r'.
Proof.
  unfold Raft.send_append_aggressively, Raft.core_send_append_aggressively. intros Hs. inv_done Hs.
  apply send_append_loop_one in Hc0. by eapply write_back_sends; [..|eassumption].
Qed.

Lemma send_append_each_sends allow ids r r' : Raft.send_append_each allow ids r = Done r' → sends r r'.
Proof.
  revert r. induction ids as [|i ids IH]; intros r Hs; cbn [Raft.send_append_each] in Hs.
  - inv_done Hs. reflexivity.
  - inv_done Hs; apply IH in Hs; [done|]. apply maybe_send_append_one in Hc0. etrans; [by eapply write_back_sends; [..|eassumption]|done].
Qed.

Lemma bcast_append_sends r r' : Raft.bcast_append r = Done r' → sends r r'.
Proof. apply send_append_each_sends. Qed.

(** Operations that say nothing and keep what is known of the peers. *)
Lemma silent_sends r r' : quiet r r' → Raft.prs r' = Raft.prs r → Raft.msgs r' = Raft.msgs r → sends r r'.
Proof.
  intros Hq Hp Hm. split; [done|intros _; by apply same_peers_refl|by apply same_prs_match|].
  intros _ _ _ m. rewrite Hm. by left.
Qed.

(** Sending a message that makes no claim. *)
Lemma send_plain_sends r m r' : Raft.send r m = Done r' → is_answer m = false →
  m_msg_type m ≠ MsgAppend → m_msg_type m ≠ MsgHeartbeat → sends r r'.
Proof.
  intros Hs Ha Hp Hh. pose proof (send_sends _ _ _ Hs Ha ltac:(done) ltac:(done)) as Hsaid.
  split; [|intros _; apply same_peers_refl; by eapply send_prs|apply same_prs_match; by eapply send_prs|done].
  eapply send_quiet; [done|]. unfold is_answer, Raft.is_campaign_msg, is_type in Ha. unfold is_plain, is_grant, is_type.
  destruct (m_msg_type m); done.
Qed.

Lemma send_heartbeat_sends r to pr ctx r' : Raft.send_heartbeat r to pr ctx = Done r' →
  Tracker.get (Raft.prs r) to = Some pr → to ≠ Raft.id r → sends r r'.
Proof.
  unfold Raft.send_heartbeat. intros Hs Hg Hne. set (m := match ctx with Some _ => _ | None => _ end) in Hs.
  assert (m_msg_type m = MsgHeartbeat ∧ m_to m = to ∧ m_commit m = N.min (Progress.matched pr) (committed r)) as (E1 & E2 & E3)
    by (unfold m; by destruct ctx).
  clearbody m. split.
  - eapply send_quiet; [done|]. unfold is_plain, is_grant, is_type. by rewrite E1.
  - intros _. apply same_peers_refl. by eapply send_prs.
  - apply same_prs_match. by eapply send_prs.
  - intros _ _ _. eapply (send_sends _ _ _ Hs); [unfold is_answer, Raft.is_campaign_msg, is_type; by rewrite E1|congruence|].
    intros _. rewrite E2, E3, (matched_get _ _ _ Hg). split_and!; [lia|lia|done].
Qed.

Lemma respond_reads_sends rss r r' : Raft.respond_reads rss r = Done r' → sends r r'.
Proof.
  revert r. induction rss as [|rs rss IH]; intros r Hs; cbn [Raft.respond_reads] in Hs.
  - inv_done Hs. reflexivity.
  - inv_done Hs; apply IH in Hs; unfold Raft.handle_ready_read_index in Hc; inv_done Hc; simplify_eq;
      (etrans; [|exact Hs]); first [by eapply send_plain_sends|apply silent_sends; [quiet_solve|done|done]].
Qed.

Lemma advance_reads_sends r ctx r' : Raft.advance_reads r ctx = Done r' → sends r r'.
Proof.
  unfold Raft.advance_reads. intros Hs. inv_done Hs. apply respond_reads_sends in Hs.
  etrans; [|exact Hs]. apply silent_sends; [quiet_solve|done|done].
Qed.

Lemma heartbeat_each_sends ctx ids r r' : Raft.heartbeat_each ctx ids r = Done r' → sends r r'.
Proof.
  revert r. induction ids as [|i ids IH]; intros r Hs; cbn [Raft.heartbeat_each] in Hs.
  - inv_done Hs. reflexivity.
  - destruct (N.eqb_spec i (Raft.id r)); [by apply IH|]. inv_done Hs; [by apply IH|]. apply IH in Hs.
    etrans; [by eapply send_heartbeat_sends|done].
Qed.

Lemma ack_witnesses_sends ctx ws r r' : Raft.ack_witnesses ctx ws r = Done r' → sends r r'.
Proof.
  revert r. induction ws as [|w ws IH]; intros r Hs; cbn [Raft.ack_witnesses] in Hs.
  - inv_done Hs. reflexivity.
  - inv_done Hs; [by apply IH|apply advance_reads_sends in Hs|apply IH in Hs];
      (etrans; [|exact Hs]; apply silent_sends; [quiet_solve|done|done]).
Qed.

Lemma bcast_heartbeat_with_ctx_sends r ctx r' : Raft.bcast_heartbeat_with_ctx r ctx = Done r' → sends r r'.
Proof.
  unfold Raft.bcast_heartbeat_with_ctx. intros Hs. inv_done Hs; apply heartbeat_each_sends in Hc; [|done].
  apply ack_witnesses_sends in Hs. by etrans.
Qed.
End sending.

(** ** A leader's operations *)
Section knowing.
Context {S : Type} `{StorageLaws S} `{HashOrder} `{Rand}.
#[local] Set Default Proof Using "All".
Implicit Types r : Raft.t S.

Abbreviation committed r := (RaftLog.committed (Raft.raft_log r)).
Abbreviation last_of r := (vlast (log_view (Raft.raft_log r))).

(** A node whose configuration has no witness. *)
Definition witness_free r : Prop :=
  replicate_to_witness (Tracker.epoch (Raft.prs r)) = (false, false) ∧ Raft.has_witness r = false.

(** What a leader's operations rely on: peers that fit its log, room for [k]
    more entries, and acknowledgements [A] of what it has. *)
Record able (k : N) (A : N → N → Prop) r : Prop := mk_able {
  ab_log : log_ok (Raft.raft_log r);
  ab_room : room k r;
  ab_acks : ∀ v j, A v j → j ≤ last_of r;
  ab_fit : all_fit r;
  ab_batch : Raft.batch_append r = false
}.

(** A leader stays what it is, appends at most [k] entries, says only what it
    knows, and learns of its peers only what [A] tells. *)
Record known (k : N) (A : N → N → Prop) r r' : Prop := mk_known {
  kn_id : Raft.id r' = Raft.id r;
  kn_commit : committed r ≤ committed r';
  kn_said : ∀ m, m ∈ Raft.msgs r' → m ∈ Raft.msgs r ∨ voiced r' m;
  kn_match : ∀ v, matched_of r v ≤ matched_of r' v ∧ (matched_of r' v = matched_of r v ∨ A v (matched_of r' v));
  kn_log : grown k r r';
  kn_fit : all_fit r'
}.
Definition knows (k : N) (A : N → N → Prop) r r' : Prop := able k A r → known k A r r'.

Lemma fits_mono n n' p : fits n p → n ≤ n' → fits n' p.
Proof. intros (? & ? & ?) Hle. split_and!; lia. Qed.

Lemma grown_last k r r' : grown k r r' → last_of r ≤ last_of r' ∧ last_of r' ≤ last_of r + k.
Proof. intros [_ _ (new & -> & _ & Hl) _ _ _]. rewrite vlast_vext. lia. Qed.

Lemma known_able k k' A r r' : able (k + k') A r → known k A r r' → able k' A r'.
Proof.
  intros [Ho Hr HA _ Hb] [_ _ _ _ G F]. destruct (grown_last _ _ _ G).
  split; [apply G|lia| |done|rewrite (gr_batch _ _ _ G); done]. intros v j Hj. specialize (HA v j Hj). lia.
Qed.

Lemma able_le k k' A r : able k' A r → k ≤ k' → able k A r.
Proof. intros [? Hr ? ? ?] Hle. split; try done. lia. Qed.

Lemma knows_trans k k' A r r1 r' : knows k A r r1 → knows k' A r1 r' → knows (k + k') A r r'.
Proof.
  intros K1 K2 Ha. pose proof (K1 (able_le k (k + k') A r Ha ltac:(lia))) as K1'.
  pose proof (K2 (known_able k k' A r r1 Ha K1')) as K2'. pose proof (ab_log _ _ _ Ha) as Hok. pose proof (ab_room _ _ _ Ha) as Hr.
  pose proof K1' as [I1 C1 S1 M1 L1 F1]. pose proof K2' as [I2 C2 S2 M2 L2 F2]. split; [congruence|lia|..|done].
  - intros m Hm. destruct (S2 m Hm) as [Hm1|]; [|by right]. destruct (S1 m Hm1) as [|Hv]; [by left|right].
    destruct (gr_ext _ _ _ L2) as (new & Hnew & _).
    eapply voiced_kept; [done|apply (gr_term _ _ _ L2)|done|done|by exists new|]. intros v. apply M2.
  - intros v. destruct (M1 v) as [? [E1|HA1]], (M2 v) as [? [E2|HA2]]; (split; [lia|]).
    + left. congruence.
    + by right.
    + right. by rewrite E2.
    + by right.
  - apply (grows_trans k k' r r1 r'); [by intros _ _|by intros _ _|done|done].
Qed.

Lemma knows_trans0 A r r1 r' : knows 0 A r r1 → knows 0 A r1 r' → knows 0 A r r'.
Proof. intros K1 K2. exact (knows_trans 0 0 A r r1 r' K1 K2). Qed.

Lemma grown_le k k' r r' : grown k r r' → k ≤ k' → grown k' r r'.
Proof. intros [A B (new & E & F & L) C D G] Hk. split; try done. exists new. split_and!; [done|done|lia]. Qed.

Lemma knows_weaken k k' (A A' : N → N → Prop) r r' : knows k A r r' → k ≤ k' → (∀ v j, A v j → A' v j) → knows k' A' r r'.
Proof.
  intros K Hk HA [Ho Hr Hb Hf Hba]. destruct K as [I C Sd M L F]; [split; [done|lia|eauto|done..]|].
  split; [done|done|done| |by eapply grown_le|done].
  intros v. destruct (M v) as [? [?|?]]; (split; [done|]); [by left|right; auto].
Qed.

Lemma keeps_grown k r r' : keeps r r' → log_ok (Raft.raft_log r) → room k r → grown k r r'.
Proof. intros Hk. by apply keeps_grows. Qed.

Lemma sends_knows A r r' : sends r r' → knows 0 A r r'.
Proof.
  intros [Q P M Sd] [Ho Hr HA Hf Hb]. pose proof (quiet_unmoved _ _ Q) as Hu. unfold unmoved in Hu.
  destruct (quiet_last _ _ Q Ho) as [_ Ev].
  split; [apply Q|by rewrite Hu|by apply Sd| |by apply keeps_grown; [apply quiet_keeps|..]|by apply (same_peers_fit r); [apply P|..]].
  intros v. rewrite (M v). split; [done|by left].
Qed.

(** The fields a leader's knowledge does not depend on. *)
Lemma upd_knows A r r' : keeps r r' → Raft.id r' = Raft.id r → unmoved r r' → Raft.prs r' = Raft.prs r →
  Raft.msgs r' = Raft.msgs r → knows 0 A r r'.
Proof.
  intros Hk Hi Hu Hp Hm [Ho Hr HA Hf Hb]. unfold unmoved in Hu. destruct (sl_log _ _ (proj2 Hk) Ho) as [_ Ev].
  split; [done|by rewrite Hu|intros m; rewrite Hm; by left| |by apply keeps_grown|].
  - intros v. unfold matched_of. rewrite Hp. split; [done|by left].
  - intros v p. rewrite Hp, Ev. apply Hf.
Qed.

(** Writing back the progress of one peer. *)
Lemma set_pr_knows (A : N → N → Prop) r to p p' : Tracker.get (Raft.prs r) to = Some p →
  (Progress.matched p' = Progress.matched p ∨ Progress.matched p ≤ Progress.matched p' ∧ A to (Progress.matched p')) →
  (∀ n, n + 1 < u64_modulus → (∀ v j, A v j → j ≤ n) → fits n p → fits n p') → knows 0 A r (Raft.set_pr r to p').
Proof.
  intros Hg Hm Hf [Hok Hr HA Hall Hb]. pose proof (matched_get _ _ _ Hg) as Em. split; [done|done|intros m Hin; by left| | |].
  - intros v. rewrite matched_set_pr. destruct (decide (v = to)) as [->|]; [|split; [done|by left]].
    rewrite Em. destruct Hm as [->|[? ?]]; split; try done; auto.
  - apply keeps_grown; [|done|done]. split; [done|]. split; [done|done|done|]. intros _ _ m Hin _. by left.
  - intros v q Hq. change (last_of (Raft.set_pr r to p')) with (last_of r). unfold Tracker.get in Hq. simpl in Hq.
    destruct (decide (v = to)) as [->|Hne].
    + rewrite lookup_insert_eq in Hq. injection Hq as <-. apply Hf; [|done|by eapply Hall].
      pose proof (log_view_wf _ (proj1 Hok)) as [_ Hbd]. unfold vlast. unfold vlast in Hbd. lia.
    + rewrite lookup_insert_ne in Hq by done. by eapply Hall.
Qed.

Lemma replicate_none r : witness_free r →
  Raft.replicate_witnesses (subterm (Tracker.epoch (Raft.prs r)))
    (map_iter (Tracker.one_less_than_quorum_in_replication_set (Raft.prs r))) r = Done r.
Proof.
  intros [Hw _]. unfold Tracker.one_less_than_quorum_in_replication_set. rewrite Hw.
  assert (map_iter (∅ : gmap N N) = []) as ->; [|done].
  destruct (map_iter (∅ : gmap N N)) as [|[k x] l] eqn:E; [done|]. exfalso.
  assert ((k, x) ∈ map_iter (∅ : gmap N N)) as Hin by (rewrite E; left). by apply elem_of_map_iter in Hin.
Qed.

Lemma maybe_commit_knows A r r' b : Raft.maybe_commit r = Done (r', b) → witness_free r → knows 0 A r r'.
Proof.
  intros Hs Hw. pose proof (maybe_commit_keeps _ _ _ Hs) as Hk. pose proof (maybe_commit_calm _ _ _ Hs) as [Hcm _].
  unfold Raft.maybe_commit in Hs. rewrite replicate_none in Hs by done. cbn [mbind outcome_bind] in Hs.
  apply outcome_bind_Done in Hs as ([l ad] & Hl & Hs). apply log_maybe_commit_mono in Hl as [Hle El].
  assert ((∃ p p', Tracker.get (Raft.prs r) (Raft.id r) = Some p ∧ Progress.matched p' = Progress.matched p ∧
      Progress.next_idx p' = Progress.next_idx p ∧ r' = Raft.set_pr (r <| Raft.raft_log := l |>) (Raft.id r) p') ∨
    r' = r <| Raft.raft_log := l |>) as Hcase.
  { destruct ad; inv_done Hs; [left|by right]. eexists _, (Progress.update_committed _ _). split; [eassumption|].
    split_and!; [by apply update_committed_matched| |reflexivity]. unfold Progress.update_committed. by destruct (_ <? _). }
  assert (∀ v, matched_of r' v = matched_of r v) as Hm.
  { destruct Hcase as [(p & p' & Hg & Em & _ & ->)|Hr]; [|by rewrite Hr].
    intros v. rewrite matched_set_pr. case_decide as E; [|done]. subst v. by rewrite (matched_get r _ p Hg). }
  intros [Hok Hr HA Hf Hb]. destruct (sl_log _ _ (proj2 Hk) Hok) as [_ Ev]. split.
  - apply Hcm.
  - apply Hcm.
  - intros m. assert (Raft.msgs r' = Raft.msgs r) as ->; [|by left]. by destruct Hcase as [(? & ? & _ & _ & _ & ->)| ->].
  - intros v. rewrite Hm. split; [done|by left].
  - by apply keeps_grown.
  - intros v q Hq. rewrite Ev. destruct Hcase as [(p & p' & Hg & Em & En & ->)|Hr']; [|subst r'; by eapply Hf].
    unfold Tracker.get in Hq. simpl in Hq. destruct (decide (v = Raft.id r)) as [->|Hne].
    + rewrite lookup_insert_eq in Hq. injection Hq as <-. destruct (Hf _ _ Hg) as (? & ? & ?).
      unfold fits. rewrite Em, En. done.
    + rewrite lookup_insert_ne in Hq by done. by eapply Hf.
Qed.
End knowing.

(** ** What the operations on a peer's progress keep *)
Lemma become_probe_fits n p : n + 1 < u64_modulus → (Progress.state p = PSnapshot → Progress.pending_snapshot p ≤ Progress.matched p) →
  fits n p → fits n (Progress.become_probe p).
Proof.
  intros Hn Hs (H1 & H2 & H3). unfold Progress.become_probe. case_bool_decide as E; unfold fits; simpl; [specialize (Hs E)|];
    rewrite ?u64_add_small by lia; split_and!; lia.
Qed.

Lemma become_replicate_fits n p : n + 1 < u64_modulus → fits n p → fits n (Progress.become_replicate p).
Proof. intros Hn (H1 & H2 & H3). unfold fits. simpl. rewrite u64_add_small by lia. split_and!; lia. Qed.

Lemma update_committed_fits n p k : fits n p → fits n (Progress.update_committed p k).
Proof. unfold Progress.update_committed. by case_match. Qed.

Lemma maybe_decr_to_fits n p a b k : n + 1 < u64_modulus → fits n p → fits n (Progress.maybe_decr_to p a b k).1.
Proof.
  intros Hn (H1 & H2 & H3). unfold Progress.maybe_decr_to. case_bool_decide; [repeat case_match; unfold fits; simpl; rewrite ?u64_add_small by lia; split_and!; lia|].
  destruct (_ && _) eqn:E; [by split_and!|]. simpl. destruct (k =? INVALID_INDEX) eqn:Ek.
  - rewrite andb_true_r in E. apply orb_false_iff in E as [_ E%negb_false_iff%N.eqb_eq].
    rewrite u64_sub_small in E by lia.
    destruct (N.ltb_spec (N.min a (b +w 1)) (Progress.matched p +w 1)); unfold fits; simpl;
      rewrite ?(u64_add_small (Progress.matched p)) in * by lia; split_and!; lia.
  - destruct (Progress.pending_request_snapshot p =? INVALID_INDEX); unfold fits; simpl; split_and!; lia.
Qed.

Lemma maybe_update_fits n p k : n + 1 < u64_modulus → k ≤ n → fits n p → fits n (Progress.maybe_update p k).1.
Proof.
  intros Hn Hk (H1 & H2 & H3). unfold Progress.maybe_update. simpl. rewrite u64_add_small by lia.
  destruct (Progress.matched p <? k); simpl; destruct (_ <? _); unfold fits; simpl; split_and!; lia.
Qed.

(** What an acknowledgement tells. *)
Definition ack (m : Message) (v k : N) : Prop :=
  m_msg_type m = MsgAppendResponse ∧ m_reject m = false ∧ v = m_from m ∧ k = m_index m.

Section leading_ops.
Context {S : Type} `{StorageLaws S} `{HashOrder} `{Rand}.
#[local] Set Default Proof Using "All".
Implicit Types r : Raft.t S.

Abbreviation committed r := (RaftLog.committed (Raft.raft_log r)).
Abbreviation last_of r := (vlast (log_view (Raft.raft_log r))).
Abbreviation nothing := (λ (_ _ : N), False).

Lemma after_match_knows A r m p r' : Raft.after_match r m p = Done r' → witness_free r → knows 0 A r r'.
Proof.
  unfold Raft.after_match, Raft.send_timeout_now. intros Hs Hw. apply outcome_bind_Done in Hs as ([r1 b] & Hm & Hs).
  eapply knows_trans0; [by eapply maybe_commit_knows|]. apply sends_knows.
  apply outcome_bind_Done in Hs as (r2 & H2' & Hs). apply outcome_bind_Done in Hs as (r3 & H3' & Hs).
  apply send_append_aggressively_sends in H3'. apply (transitivity (y := r2)).
  - inv_done H2'; try reflexivity; [by apply bcast_append_sends|by eapply send_append_sends].
  - etrans; [exact H3'|]. inv_done Hs; try reflexivity. by eapply send_plain_sends.
Qed.

Lemma handle_append_response_knows r m r' : Raft.handle_append_response r m = Done r' → witness_free r →
  m_msg_type m = MsgAppendResponse → knows 0 (ack m) r r'.
Proof.
  unfold Raft.handle_append_response. intros Hs Hw Hty. apply outcome_bind_Done in Hs as (np & _ & Hs).
  destruct (Tracker.get (Raft.prs r) (m_from m)) as [p|] eqn:Hg; [|inv_done Hs; apply sends_knows; reflexivity].
  set (p1 := Progress.update_committed (p <| Progress.recent_active := true |>) (m_commit m)) in Hs.
  assert (Progress.matched p1 = Progress.matched p ∧ ∀ n, fits n p → fits n p1) as [Em1 Hf1].
  { split; [exact (update_committed_matched (p <| Progress.recent_active := true |>) _)|]. intros n Hf. by apply update_committed_fits. }
  clearbody p1. cbv zeta in Hs. destruct (m_reject m) eqn:Hrej.
  - pose proof (maybe_decr_to_matched p1 (m_index m) np (m_request_snapshot m)) as Em2.
    pose proof (λ n Hn, maybe_decr_to_fits n p1 (m_index m) np (m_request_snapshot m) Hn) as Hf2.
    destruct (Progress.maybe_decr_to p1 (m_index m) np (m_request_snapshot m)) as [p2 [|]]; simpl in Em2, Hf2.
    + eapply knows_trans0; [|apply sends_knows; by eapply send_append_sends]. eapply set_pr_knows; [done|left|].
      * case_bool_decide; [rewrite become_probe_matched|]; congruence.
      * intros n Hn _ Hf. case_bool_decide as E; [apply become_probe_fits; [done|congruence|]|]; auto.
    + inv_done Hs. eapply set_pr_knows; [done|left; congruence|]. auto.
  - pose proof (maybe_update_matched p1 (m_index m)) as Em2.
    pose proof (λ n Hn Hk, maybe_update_fits n p1 (m_index m) Hn Hk) as Hf2.
    destruct (Progress.maybe_update p1 (m_index m)) as [p2 up] eqn:Eu. simpl in Em2, Hf2.
    assert (Progress.matched p2 = Progress.matched p ∨ Progress.matched p ≤ Progress.matched p2 ∧ ack m (m_from m) (Progress.matched p2)) as Hm2.
    { rewrite Em2, Em1. destruct (N.ltb_spec (Progress.matched p) (m_index m)); [right|by left]. split; [lia|]. by split. }
    assert (∀ n, n + 1 < u64_modulus → (∀ v j, ack m v j → j ≤ n) → fits n p → fits n p2) as Hf3.
    { intros n Hn HA Hf. apply Hf2; [done|by eapply HA|auto]. }
    destruct up; cbn [negb] in Hs; [|inv_done Hs; by eapply set_pr_knows].
    apply outcome_bind_Done in Hs as (p3 & Hp3 & Hs).
    assert (Progress.matched p3 = Progress.matched p2 ∧ ∀ n, n + 1 < u64_modulus → fits n p2 → fits n p3) as [Em3 Hf4].
    { destruct (Progress.state p2); inv_done Hp3; [by split; [|intros; apply become_replicate_fits]|done|].
      destruct (Progress.is_snapshot_caught_up p2) eqn:Ec; [|done]. split; [apply become_probe_matched|].
      intros n Hn. apply become_probe_fits; [done|]. intros _. unfold Progress.is_snapshot_caught_up in Ec.
      by apply andb_true_iff in Ec as [_ Hle%N.leb_le]. }
    eapply knows_trans0; [eapply (set_pr_knows _ _ _ _ p3); [done|rewrite Em3; exact Hm2|auto]|].
    eapply after_match_knows; [exact Hs|]. exact Hw.
Qed.

(** Silent changes of what the peers are known to do. *)
Lemma peers_sends r p : quiet r (r <| Raft.prs := p |>) → same_peers (last_of r) r (r <| Raft.prs := p |>) →
  sends r (r <| Raft.prs := p |>).
Proof.
  intros Hq Hp. split; [done|done| |by left]. intros v. specialize (Hp v). unfold matched_of.
  by destruct Hp as [q q' [E _]|].
Qed.

Lemma handle_heartbeat_response_knows r m r' : Raft.handle_heartbeat_response r m = Done r' → sends r r'.
Proof.
  unfold Raft.handle_heartbeat_response. intros Hs.
  destruct (Tracker.get (Raft.prs r) (m_from m)) as [p|] eqn:Hg; [|inv_done Hs; reflexivity]. cbv zeta in Hs.
  set (p1 := Progress.resume _) in Hs.
  assert (Progress.matched p1 = Progress.matched p ∧ ∀ n, fits n p → fits n p1) as [Em1 Hf1].
  { split; [apply (update_committed_matched p)|]. intros n Hf. by apply (update_committed_fits n p (m_commit m)) in Hf. }
  clearbody p1. apply outcome_bind_Done in Hs as (p2 & Hp2 & Hs).
  assert (Progress.matched p2 = Progress.matched p ∧ ∀ n, fits n p → fits n p2) as [Em2 Hf2].
  { destruct (_ && _); inv_done Hp2; [|done]. split; [done|]. intros n Hf. by apply Hf1 in Hf. }
  clear Hp2. apply outcome_bind_Done in Hs as (li & _ & Hs). apply outcome_bind_Done in Hs as ([r1 p3] & H3' & Hs).
  assert (sends r (Raft.set_pr r1 (m_from m) p3)) as H1'.
  { eapply write_back_sends; [exact Hg|exact Em2|exact Hf2|]. destruct (_ || _).
    - apply outcome_bind_Done in H3' as ([[r2 p4] b] & H4' & [= <- <-]). by eapply maybe_send_append_one.
    - injection H3' as <- <-. split; [reflexivity|done|done|auto|by left]. }
  etrans; [exact H1'|]. clear H1' H3'. set (r2 := Raft.set_pr r1 (m_from m) p3) in *. clearbody r2.
  destruct (_ || _); [inv_done Hs; reflexivity|]. destruct (ReadOnly.recv_ack _ _ _) as [ro acks].
  assert (sends r2 (r2 <| Raft.read_only := ro |>)) as H1' by (apply silent_sends; [quiet_upd|done|done]).
  etrans; [exact H1'|]. destruct acks as [acks|]; [|inv_done Hs; reflexivity].
  destruct (Tracker.has_quorum _ _); [by eapply advance_reads_sends|inv_done Hs; reflexivity].
Qed.

Lemma handle_transfer_leader_sends r m r' : Raft.handle_transfer_leader r m = Done r' → sends r r'.
Proof.
  unfold Raft.handle_transfer_leader. intros Hs. cbv zeta in Hs.
  destruct (bool_decide _); [inv_done Hs; reflexivity|]. destruct (bool_decide _); [inv_done Hs; reflexivity|].
  destruct (bool_decide _); [inv_done Hs; reflexivity|].
  set (r1 := match Raft.lead_transferee r with Some _ => _ | None => _ end) in Hs.
  assert (sends r r1) as H1' by (unfold r1; destruct (Raft.lead_transferee r); [apply silent_sends; [quiet_upd|done|done]|reflexivity]).
  etrans; [exact H1'|]. clearbody r1. clear H1'. destruct (_ =? _); [inv_done Hs; reflexivity|].
  set (r2 := upd _ _ _) in Hs. assert (sends r1 r2) as H1' by (apply silent_sends; [quiet_upd|done|done]).
  etrans; [exact H1'|]. clearbody r2. clear H1'. apply outcome_bind_Done in Hs as (p & Hg & Hs).
  apply outcome_bind_Done in Hs as (li & _ & Hs). destruct (_ =? _); [by eapply send_plain_sends|].
  inv_done Hs. eapply write_back_sends; [|done|done|by eapply maybe_send_append_one].
  unfold unwrap in Hg. by destruct (Tracker.get _ _); inv_done Hg.
Qed.

Lemma handle_read_index_sends r m r' : Raft.handle_read_index r m = Done r' → sends r r'.
Proof.
  unfold Raft.handle_read_index, Raft.handle_ready_read_index. intros Hs.
  inv_done Hs; try reflexivity; repeat match goal with H : mret _ = Done _ |- _ => inv_done H end.
  all: try (apply silent_sends; [quiet_upd|done|done]).
  all: try (by eapply send_plain_sends).
  all: apply bcast_heartbeat_with_ctx_sends in Hs; (etrans; [|exact Hs]); apply silent_sends; [quiet_upd|done|done].
Qed.

Lemma check_proposals_knows A i ents r r' x : Raft.check_proposals i ents r = Done (r', x) → knows 0 A r r'.
Proof.
  revert i r x. induction ents as [|e ents IH]; intros i r x Hs; cbn [Raft.check_proposals] in Hs.
  - inv_done Hs. apply sends_knows. reflexivity.
  - inv_done Hs; try (apply sends_knows; reflexivity);
      match goal with H : Raft.check_proposals _ _ _ = _ |- _ => apply IH in H; first [exact H|
        eapply knows_trans0; [|exact H]] end; apply sends_knows, silent_sends; [quiet_upd|done|done].
Qed.

Lemma append_entry_knows A k r es r' b : Raft.append_entry r es = Done (r', b) → len es ≤ k → knows k A r r'.
Proof.
  intros Hs Hk [Hok Hr HA Hf Hb]. pose proof (append_entry_grows k _ _ _ _ Hs Hk Hok Hr) as G.
  pose proof (append_entry_prs _ _ _ _ Hs) as Ep. destruct (append_entry_unmoved _ _ _ _ Hs) as [Hu Hm].
  assert (Raft.id r' = Raft.id r ∧ Raft.msgs r' = Raft.msgs r) as [Ei Em].
  { unfold Raft.append_entry, Raft.maybe_increase_uncommitted_size in Hs.
    destruct (us_maybe_increase_uncommitted_size _ _) as [u ok]. by inv_done Hs. }
  unfold unmoved in Hu. split; [done|by rewrite Hu|intros m; rewrite Em; by left| |done|].
  - intros v. rewrite (Hm v). split; [done|by left].
  - intros v p. rewrite Ep. intros Hg. eapply fits_mono; [by eapply Hf|]. apply (grown_last _ _ _ G).
Qed.

Lemma handle_propose_knows A r m r' x : Raft.handle_propose r m = Done (r', x) → knows (len (m_entries m)) A r r'.
Proof.
  unfold Raft.handle_propose. intros Hs. case_bool_decide; [done|].
  assert (knows 0 A r r → knows (len (m_entries m)) A r r) as Hw by (intros ?; eapply knows_weaken; [done|lia|done]).
  destruct (bool_decide _ || bool_decide _); [inv_done Hs; apply Hw, sends_knows; reflexivity|].
  apply outcome_bind_Done in Hs as ([r1 [es|]] & Hc & Hs);
    [|inv_done Hs; eapply knows_weaken; [by eapply check_proposals_knows|lia|done]].
  pose proof (check_proposals_len _ _ _ _ _ Hc) as Hl. apply (check_proposals_knows A) in Hc.
  apply outcome_bind_Done in Hs as ([r2 ok] & Ha & Hs). eapply (append_entry_knows A) in Ha; [|by rewrite Hl].
  pose proof (knows_trans _ _ _ _ _ _ Hc Ha) as Hk. rewrite N.add_0_l in Hk.
  destruct ok; cbn [negb] in Hs; inv_done Hs; [|done].
  apply bcast_append_sends, (sends_knows A) in Hc0. pose proof (knows_trans _ _ _ _ _ _ Hk Hc0) as Hk'.
  by rewrite N.add_0_r in Hk'.
Qed.

Lemma handle_unreachable_sends r m : log_ok (Raft.raft_log r) → knows 0 nothing r (Raft.handle_unreachable r m).
Proof.
  intros Hok. unfold Raft.handle_unreachable. destruct (Tracker.get (Raft.prs r) (m_from m)) as [p|] eqn:Hg;
    [|apply sends_knows; reflexivity].
  eapply set_pr_knows; [done|left; by case_bool_decide; [apply become_probe_matched|]|].
  intros n Hn _ Hf. case_bool_decide as E; [|done]. apply become_probe_fits; [done|congruence|done].
Qed.

(** A leader that stands down within its term, without a word. *)
Record stands_down r r' : Prop := mk_stands_down {
  dn_id : Raft.id r' = Raft.id r;
  dn_state : Raft.state r' = Follower;
  dn_term : Raft.term r' = Raft.term r;
  dn_vote : Raft.vote r' = Raft.vote r;
  dn_commit : unmoved r r';
  dn_msgs : Raft.msgs r' = Raft.msgs r;
  dn_view : log_ok (Raft.raft_log r) → log_view (Raft.raft_log r') = log_view (Raft.raft_log r)
}.

Lemma become_follower_down r r1 lead r' : quiet r r1 → Raft.msgs r1 = Raft.msgs r →
  Raft.become_follower r1 (Raft.term r1) lead = Done r' → stands_down r r'.
Proof.
  intros Hq Hm Hs. pose proof (become_follower_unmoved _ _ _ _ Hs) as Hu. apply quiet_unmoved in Hq as Hu1.
  destruct (become_follower_spec _ _ _ _ Hs) as (Ht & Hv & Hst & _ & Hi & _). rewrite N.eqb_refl in Hv.
  pose proof (become_follower_same_log _ _ _ _ Hs) as [_ _ Hl _].
  split; [rewrite Hi; apply Hq|done|rewrite Ht; apply Hq|rewrite Hv; apply Hq|by etrans| |].
  - rewrite <-Hm. unfold Raft.become_follower in Hs. inv_done Hs. by apply reset_spec in Hc as (_ & _ & _ & _ & _ & _ & ? & _).
  - intros Hok. destruct (quiet_last _ _ Hq Hok) as [Hok1 <-]. by apply Hl.
Qed.

Lemma check_quorum_active_sends r r' b : Raft.check_quorum_active r = (r', b) → sends r r'.
Proof.
  intros Hs. pose proof (check_quorum_active_quiet _ _ _ Hs) as Hq. unfold Raft.check_quorum_active in Hs.
  destruct (Tracker.quorum_recently_active (Raft.prs r) (Raft.id r)) as [p active] eqn:E. injection Hs as <- <-.
  apply peers_sends; [done|]. unfold Tracker.quorum_recently_active in E. injection E as <- _.
  intros v. unfold Tracker.get. simpl. rewrite map_lookup_imap. destruct (Tracker.progress (Raft.prs r) !! v) as [p|]; [|constructor].
  simpl. constructor. unfold Tracker.active_visit. repeat case_match; done.
Qed.

Lemma handle_check_quorum_knows r r' : Raft.handle_check_quorum r = Done r' → witness_free r →
  sends r r' ∨ stands_down r r'.
Proof.
  unfold Raft.handle_check_quorum. intros Hs [_ Hw]. rewrite Hw in Hs.
  apply outcome_bind_Done in Hs as ([r0 adj] & [= <- <-] & Hs). rewrite Hw in Hs. cbn [negb andb] in Hs.
  destruct (Raft.check_quorum_active r) as [r1 active] eqn:E. pose proof (check_quorum_active_quiet _ _ _ E) as Hq.
  assert (Raft.msgs r1 = Raft.msgs r) as Hm.
  { unfold Raft.check_quorum_active in E. destruct (Tracker.quorum_recently_active _ _). by simplify_eq. }
  apply check_quorum_active_sends in E. destruct active; [inv_done Hs; by left|right]. by eapply become_follower_down.
Qed.

(** What a leader's step does. *)
Lemma step_leader_knows r m r' x : Raft.step_leader r m = Done (r', x) → witness_free r → m_msg_type m ≠ MsgSnapStatus →
  log_ok (Raft.raft_log r) →
  knows (len (m_entries m)) (ack m) r r' ∨ stands_down r r'.
Proof.
  intros Hs Hw Hns Hok.
  assert (∀ r1 A, knows 0 A r r1 → (∀ v j, A v j → ack m v j) → knows (len (m_entries m)) (ack m) r r1) as Hk
    by (intros r1 A K HA; eapply knows_weaken; [exact K|lia|done]).
  assert (∀ r1, sends r r1 → knows (len (m_entries m)) (ack m) r r1) as Hsd
    by (intros r1 K; apply (Hk _ nothing); [by apply sends_knows|done]).
  unfold Raft.step_leader, Raft.ok, Raft.bcast_heartbeat in Hs.
  destruct (m_msg_type m) eqn:Hty; try done; try (inv_done Hs; left; apply Hsd; reflexivity).
  - inv_done Hs; [|left; apply Hsd; by eapply bcast_heartbeat_with_ctx_sends].
    exfalso. apply bcast_heartbeat_with_ctx_quiet in Hc. destruct Hw as [_ Hw]. unfold Raft.has_witness in *.
    rewrite (q_conf _ _ Hc) in *. congruence.
  - left. by eapply handle_propose_knows.
  - left. inv_done Hs. apply (Hk _ (ack m)); [by eapply handle_append_response_knows|done].
  - left. inv_done Hs. apply Hsd. by eapply handle_heartbeat_response_knows.
  - left. inv_done Hs. apply (Hk _ nothing); [by apply handle_unreachable_sends|done].
  - inv_done Hs. destruct (handle_check_quorum_knows _ _ Hc Hw); [left; auto|by right].
  - left. inv_done Hs; [apply Hsd; reflexivity|]. apply Hsd. by eapply handle_transfer_leader_sends.
  - left. inv_done Hs. apply Hsd. by eapply handle_read_index_sends.
Qed.
End leading_ops.
