(* ===== verification/RaftStore.v ===== *)
(** * The storage is the host's

    Whatever a node does, its storage changes only by being read: entries reach
    it only when the host writes them.  And only a snapshot message leaves a
    snapshot to be stored. *)
From S2P Require Import Prelude Errors Eraftpb ProtoConf Util Unstable Storage RaftLog RaftLogSpec Quorum.
From S2P Require Import Inflights Progress Tracker ConfChange ReadOnly Config Raft RaftFrame RaftElection RaftReplication.

Section reading.
Context {S : Type} `{Storage S} `{Proto} `{HashOrder} `{Rand}.
#[local] Set Default Proof Using "All".
Implicit Types (r : Raft.t S) (l : RaftLog.t S).

Abbreviation store_of r := (RaftLog.store (Raft.raft_log r)).

Definition reads r r' : Prop := rtc st_read (store_of r) (store_of r') ∧ Raft.snap r' = Raft.snap r.

#[export] Instance reads_preorder : PreOrder reads.
Proof.
  split; [intros r; by split|]. intros r1 r2 r3 [R1 S1] [R2 S2]. split; [by etrans|congruence].
Qed.

Lemma quiet_reads r r' : quiet r r' → reads r r'.
Proof.
  intros Hq. split; [apply (q_log _ _ Hq)|]. unfold Raft.snap. by destruct (log_read_fields _ _ (q_log _ _ Hq)) as (-> & _).
Qed.

Abbreviation snapshot_of l := (Unstable.snapshot (RaftLog.unstable l)).

(** Logs with the same storage and no other snapshot. *)
Definition stored_alike l l' : Prop := RaftLog.store l' = RaftLog.store l ∧ snapshot_of l' = snapshot_of l.

Lemma alike_reads r r' : stored_alike (Raft.raft_log r) (Raft.raft_log r') → reads r r'.
Proof. intros [E1 E2]. split; [by rewrite E1|done]. Qed.

Lemma commit_to_store l k l' : RaftLog.commit_to l k = Done l' → stored_alike l l'.
Proof. intros Hs. by apply commit_to_mono in Hs as [_ ->]. Qed.

Lemma log_maybe_commit_store l k t l' b : RaftLog.maybe_commit l k t = Done (l', b) → stored_alike l l'.
Proof. intros Hs. by apply log_maybe_commit_mono in Hs as [_ ->]. Qed.

Lemma log_append_store l es l' i : RaftLog.append l es = Done (l', i) → stored_alike l l'.
Proof.
  intros Hs. split; [by rewrite (log_append_fields _ _ _ _ Hs)|].
  unfold RaftLog.append, Unstable.truncate_and_append in Hs. inv_done Hs; try done; repeat case_match; done.
Qed.

Lemma maybe_append_store l i t c es l' x : RaftLog.maybe_append l i t c es = Done (l', x) → stored_alike l l'.
Proof.
  unfold RaftLog.maybe_append. intros Hs. inv_done Hs; try done;
    match goal with H : RaftLog.commit_to _ _ = _ |- _ => apply commit_to_store in H as [E1 E2] end; try done;
    match goal with H : RaftLog.append _ _ = _ |- _ => apply log_append_store in H as [F1 F2] end;
    unfold stored_alike; rewrite E1, E2, <-F1, <-F2; by repeat case_match.
Qed.

Lemma append_entry_reads r es r' b : Raft.append_entry r es = Done (r', b) → reads r r'.
Proof.
  unfold Raft.append_entry, Raft.maybe_increase_uncommitted_size. intros Hs. apply alike_reads.
  destruct (us_maybe_increase_uncommitted_size _ _) as [u ok]. inv_done Hs; [done|]. by apply log_append_store in Hc0.
Qed.

Lemma maybe_commit_reads r r' b : Raft.maybe_commit r = Done (r', b) → reads r r'.
Proof.
  unfold Raft.maybe_commit. intros Hs. apply outcome_bind_Done in Hs as (r1 & Hw & Hs).
  apply replicate_witnesses_quiet in Hw. etrans; [by apply quiet_reads|]. apply alike_reads.
  inv_done Hs; by apply log_maybe_commit_store in Hc.
Qed.

Lemma reset_reads r tm r' : Raft.reset r tm = Done r' → reads r r'.
Proof. intros (_ & _ & _ & _ & E & _)%reset_spec. apply alike_reads. by rewrite E. Qed.
End reading.

(** Solving [reads a b] by the calls between [a] and [b]. *)
Ltac reads_call H :=
  first [ apply append_entry_reads in H | apply maybe_commit_reads in H | apply reset_reads in H
        | apply quiet_reads in H | keeps_call H ].
Ltac reads_solve :=
  lazymatch goal with
  | |- reads ?a ?b =>
    first [ reflexivity
          | assumption
          | match goal with
            | H : reads ?x b |- _ => etrans; [|exact H]; clear H; reads_solve
            | H : quiet ?x b |- _ => etrans; [|apply quiet_reads; exact H]; clear H; reads_solve
            end
          | lazymatch b with
            | upd _ _ ?x => apply (transitivity (y := x)); [reads_solve|solve [by apply alike_reads]]
            | Raft.set_pr ?x _ _ => apply (transitivity (y := x)); [reads_solve|solve [by apply alike_reads]]
            | Raft.set_epoch ?x _ => apply (transitivity (y := x)); [reads_solve|solve [by apply alike_reads]]
            | Raft.abort_leader_transfer ?x => apply (transitivity (y := x)); [reads_solve|solve [by apply alike_reads]]
            end ]
  end.
Ltac reads_op Hs := inv_done Hs; repeat match goal with H : _ = Done _ |- _ => reads_call H end; reads_solve.

Section reading_ops.
Context {S : Type} `{Storage S} `{Proto} `{HashOrder} `{Rand}.
#[local] Set Default Proof Using "All".
Implicit Types (r : Raft.t S) (l : RaftLog.t S).

Lemma commit_and_bcast_reads r r' : Raft.commit_and_bcast r = Done r' → reads r r'.
Proof. unfold Raft.commit_and_bcast. intros Hs. reads_op Hs. Qed.

Lemma become_follower_reads r tm lead r' : Raft.become_follower r tm lead = Done r' → reads r r'.
Proof. unfold Raft.become_follower. intros Hs. reads_op Hs. Qed.

Lemma check_proposals_reads i ents r r' x : Raft.check_proposals i ents r = Done (r', x) → reads r r'.
Proof.
  revert i r x. induction ents as [|e ents IH]; intros i r x Hs; cbn [Raft.check_proposals] in Hs.
  - inv_done Hs. reflexivity.
  - inv_done Hs; try reflexivity;
      match goal with H : Raft.check_proposals _ _ _ = _ |- _ => apply IH in H end; reads_solve.
Qed.

Lemma maybe_start_new_subterm_reads r a b r' x : Raft.maybe_start_new_subterm r a b = Done (r', x) → reads r r'.
Proof.
  unfold Raft.maybe_start_new_subterm. intros Hs.
  destruct (a || b); [|destruct (Tracker.change_replication_set (Raft.prs r) (Raft.id r)) as [p ch]];
    inv_done Hs; try reads_solve;
    match goal with H : Raft.append_entry _ _ = _ |- _ => apply append_entry_reads in H end; reads_solve.
Qed.

Lemma handle_propose_reads r m r' x : Raft.handle_propose r m = Done (r', x) → reads r r'.
Proof.
  unfold Raft.handle_propose. intros Hs. inv_done Hs; try reflexivity; apply check_proposals_reads in Hc;
    try reads_solve; apply append_entry_reads in Hc0; try reads_solve.
  apply bcast_append_quiet in Hc1. reads_solve.
Qed.

Lemma handle_check_quorum_reads r r' : Raft.handle_check_quorum r = Done r' → reads r r'.
Proof.
  unfold Raft.handle_check_quorum. intros Hs. destruct (Raft.has_witness r); inv_done Hs;
    repeat match goal with
    | H : Raft.maybe_start_new_subterm _ _ _ = _ |- _ => apply maybe_start_new_subterm_reads in H
    | H : Raft.check_quorum_active _ = _ |- _ => apply check_quorum_active_quiet in H
    | H : Raft.become_follower _ _ _ = _ |- _ => apply become_follower_reads in H
    end; reads_solve.
Qed.

Lemma after_match_reads r m p r' : Raft.after_match r m p = Done r' → reads r r'.
Proof. unfold Raft.after_match, Raft.send_timeout_now. intros Hs. reads_op Hs. Qed.

Lemma handle_append_response_reads r m r' : Raft.handle_append_response r m = Done r' → reads r r'.
Proof.
  unfold Raft.handle_append_response. intros Hs.
  inv_done Hs; try reads_solve;
    first [apply send_append_quiet in Hs; reads_solve|apply after_match_reads in Hs; reads_solve].
Qed.

Lemma handle_heartbeat_response_reads r m r' : Raft.handle_heartbeat_response r m = Done r' → reads r r'.
Proof. unfold Raft.handle_heartbeat_response. intros Hs. reads_op Hs. Qed.

Lemma handle_transfer_leader_reads r m r' : Raft.handle_transfer_leader r m = Done r' → reads r r'.
Proof.
  unfold Raft.handle_transfer_leader, Raft.send_timeout_now. intros Hs. destruct (Raft.lead_transferee r); reads_op Hs.
Qed.

Lemma handle_read_index_reads r m r' : Raft.handle_read_index r m = Done r' → reads r r'.
Proof. unfold Raft.handle_read_index. intros Hs. reads_op Hs. Qed.

Lemma step_leader_reads r m r' x : Raft.step_leader r m = Done (r', x) → reads r r'.
Proof.
  intros Hs. unfold Raft.step_leader, Raft.ok in Hs. destruct (m_msg_type m); inv_done Hs; try reflexivity.
  - apply bcast_heartbeat_with_ctx_quiet in Hc. apply commit_and_bcast_reads in Hc0. reads_solve.
  - apply bcast_heartbeat_with_ctx_quiet in Hc. reads_solve.
  - by eapply handle_propose_reads.
  - by eapply handle_append_response_reads.
  - by eapply handle_heartbeat_response_reads.
  - unfold Raft.handle_unreachable. case_match; reads_solve.
  - unfold Raft.handle_snapshot_status. repeat case_match; reads_solve.
  - by eapply handle_check_quorum_reads.
  - by eapply handle_transfer_leader_reads.
  - by eapply handle_read_index_reads.
Qed.
End reading_ops.

Section reading_steps.
Context {S : Type} `{Storage S} `{Proto} `{HashOrder} `{Rand}.
#[local] Set Default Proof Using "All".
Implicit Types (r : Raft.t S) (l : RaftLog.t S).

Lemma become_leader_reads r r' : Raft.become_leader r = Done r' → reads r r'.
Proof.
  unfold Raft.become_leader. intros Hs. inv_done Hs;
    repeat match goal with
    | H : Raft.reset _ _ = _ |- _ => apply reset_reads in H
    | H : Raft.maybe_start_new_subterm _ _ _ = _ |- _ => apply maybe_start_new_subterm_reads in H
    | H : Raft.append_entry _ _ = _ |- _ => apply append_entry_reads in H
    end; reads_solve.
Qed.

Lemma campaign_with_reads p r ct r' :
  (∀ r1 f t v r2 res, p r1 f t v = Done (r2, res) → reads r1 r2) → Raft.campaign_with p r ct = Done r' → reads r r'.
Proof.
  unfold Raft.campaign_with, Raft.become_pre_candidate, Raft.become_candidate. intros Hp Hs.
  apply outcome_bind_Done in Hs as ([[r1 vm] tm] & Hb & Hs). apply outcome_bind_Done in Hs as ([r2 res] & Hpl & Hs).
  apply Hp in Hpl. assert (reads r r1 ∧ (vm = MsgRequestVote ∨ vm = MsgRequestPreVote)) as [H1' Hvm].
  { clear Hs. case_bool_decide; inv_done Hb; (split; [|auto]); [by apply alike_reads|].
    match goal with H : Raft.reset _ _ = _ |- _ => apply reset_reads in H end. reads_solve. }
  inv_done Hs; [by etrans|]. apply request_votes_quiet, quiet_reads in Hs; [|done]. by etrans; [|etrans].
Qed.

Lemma poll_fuel_reads fuel r from t v r' res : Raft.poll_fuel fuel r from t v = Done (r', res) → reads r r'.
Proof.
  revert r from t v r' res. induction fuel as [|fuel IH]; intros r from t v r' res Hs; cbn [Raft.poll_fuel] in Hs;
    destruct (Tracker.tally_votes_with_diff _) as [[[g rj] rs] diff]; inv_done Hs;
    repeat match goal with
    | H : Raft.campaign_with _ _ _ = _ |- _ => apply campaign_with_reads in H; [|exact IH]
    | H : Raft.become_leader _ = _ |- _ => apply become_leader_reads in H
    | H : Raft.bcast_append _ = _ |- _ => apply bcast_append_quiet in H
    | H : Raft.become_follower _ _ _ = _ |- _ => apply become_follower_reads in H
    | H : Raft.ask_witnesses _ _ _ = _ |- _ => apply ask_witnesses_quiet in H
    end; reads_solve.
Qed.

Lemma poll_reads r from t v r' res : Raft.poll r from t v = Done (r', res) → reads r r'.
Proof. apply poll_fuel_reads. Qed.

Lemma hup_reads r b r' : Raft.hup r b = Done r' → reads r r'.
Proof.
  unfold Raft.hup, Raft.campaign. intros Hs. inv_done Hs; try reflexivity; apply has_unapplied_conf_changes_quiet in Hc;
    repeat match goal with
    | H : Raft.campaign_with _ _ _ = _ |- _ => apply campaign_with_reads in H; [|exact poll_reads]
    end; reads_solve.
Qed.

Lemma send_reads r m r' : Raft.send r m = Done r' → reads r r'.
Proof. intros (m' & -> & _)%send_spec. by apply alike_reads. Qed.

Lemma handle_append_entries_reads r m r' : Raft.handle_append_entries r m = Done r' → reads r r'.
Proof.
  unfold Raft.handle_append_entries, Raft.send_request_snapshot. intros Hs.
  destruct (negb _); [inv_done Hs; by eapply send_reads|]. destruct (_ <? _); [by eapply send_reads|].
  apply outcome_bind_Done in Hs as ([l res] & Ha & Hs). apply outcome_bind_Done in Hs as (ts & Hts & Hs).
  apply send_reads in Hs. apply maybe_append_store in Ha. etrans; [|exact Hs]. by apply alike_reads.
Qed.

Lemma handle_heartbeat_reads r m r' : Raft.handle_heartbeat r m = Done r' → reads r r'.
Proof.
  unfold Raft.handle_heartbeat, Raft.send_request_snapshot. intros Hs.
  apply outcome_bind_Done in Hs as (li & _ & Hs). apply outcome_bind_Done in Hs as (l & Hl & Hs).
  apply commit_to_store in Hl. apply (transitivity (y := r <| Raft.raft_log := l |>)); [by apply alike_reads|].
  inv_done Hs; by eapply send_reads.
Qed.

Lemma maybe_commit_by_vote_reads r m r' : Raft.maybe_commit_by_vote r m = Done r' → reads r r'.
Proof.
  unfold Raft.maybe_commit_by_vote. intros Hs. destruct (_ || _); [inv_done Hs; reflexivity|].
  destruct (_ || _); [inv_done Hs; reflexivity|]. apply outcome_bind_Done in Hs as ([l b] & Hl & Hs).
  apply log_maybe_commit_store in Hl. apply (transitivity (y := r <| Raft.raft_log := l |>)); [by apply alike_reads|].
  inv_done Hs; try reflexivity; apply has_unapplied_conf_changes_quiet in Hc; try reads_solve.
  apply become_follower_reads in Hs. reads_solve.
Qed.

Lemma handle_vote_request_reads r m r' : Raft.handle_vote_request r m = Done r' → reads r r'.
Proof.
  unfold Raft.handle_vote_request. intros Hs.
  apply outcome_bind_Done in Hs as (ty & _ & Hs). apply outcome_bind_Done in Hs as (g & _ & Hs). destruct g.
  - inv_done Hs; match goal with H : Raft.send _ _ = _ |- _ => apply send_reads in H end; reads_solve.
  - apply outcome_bind_Done in Hs as ([c ct] & _ & Hs). apply outcome_bind_Done in Hs as (r1 & Hsend & Hs).
    apply send_reads in Hsend. apply maybe_commit_by_vote_reads in Hs. reads_solve.
Qed.

Lemma step_candidate_reads r m r' x : Raft.step_candidate r m = Done (r', x) → m_msg_type m ≠ MsgSnapshot → reads r r'.
Proof.
  unfold Raft.step_candidate, Raft.ok. intros Hs Hns. destruct (m_msg_type m); try done; inv_done Hs; try reflexivity;
    repeat match goal with
    | H : Raft.become_follower _ _ _ = _ |- _ => apply become_follower_reads in H
    | H : Raft.handle_append_entries _ _ = _ |- _ => apply handle_append_entries_reads in H
    | H : Raft.handle_heartbeat _ _ = _ |- _ => apply handle_heartbeat_reads in H
    | H : Raft.poll _ _ _ _ = _ |- _ => apply poll_reads in H
    | H : Raft.maybe_commit_by_vote _ _ = _ |- _ => apply maybe_commit_by_vote_reads in H
    end; reads_solve.
Qed.

Lemma step_follower_reads r m r' x : Raft.step_follower r m = Done (r', x) → m_msg_type m ≠ MsgSnapshot → reads r r'.
Proof.
  unfold Raft.step_follower, Raft.ok. intros Hs Hns. destruct (m_msg_type m); try done; inv_done Hs; try reflexivity;
    repeat match goal with
    | H : Raft.send _ _ = _ |- _ => apply send_reads in H
    | H : Raft.handle_append_entries _ _ = _ |- _ => apply handle_append_entries_reads in H
    | H : Raft.handle_heartbeat _ _ = _ |- _ => apply handle_heartbeat_reads in H
    | H : Raft.hup _ _ = _ |- _ => apply hup_reads in H
    end; try reads_solve.
  apply log_maybe_commit_store in Hc. by apply alike_reads.
Qed.

Lemma step_reads r m r' x : Raft.step r m = Done (r', x) → m_msg_type m ≠ MsgSnapshot → reads r r'.
Proof.
  unfold Raft.step, Raft.ok. intros Hs Hns. apply outcome_bind_Done in Hs as ([r1 go] & Hck & Hs).
  assert (reads r r1) as H1'.
  { unfold Raft.check_term in Hck. inv_done Hck; try reflexivity;
      repeat match goal with
      | H : Raft.become_follower _ _ _ = _ |- _ => apply become_follower_reads in H
      | H : Raft.send _ _ = _ |- _ => apply send_reads in H
      end; reads_solve. }
  etrans; [exact H1'|]. destruct go; cbn [negb] in Hs; [|inv_done Hs; reflexivity].
  destruct (m_msg_type m) eqn:E; try done; destruct (Raft.state r1); first [eapply step_follower_reads; [done|congruence]
    |eapply step_candidate_reads; [done|congruence]|by eapply step_leader_reads|inv_done Hs; first [by eapply hup_reads|by eapply handle_vote_request_reads]].
Qed.

Lemma tick_reads r r' b : Raft.tick r = Done (r', b) → reads r r'.
Proof.
  unfold Raft.tick, Raft.tick_election, Raft.tick_heartbeat. intros Hs. destruct (Raft.state r); inv_done Hs;
    repeat match goal with H : Raft.step _ _ = _ |- _ => apply step_reads in H; [|done] end; try reads_solve;
    repeat case_match; reads_solve.
Qed.

Lemma post_conf_change_reads r r' cs : Raft.post_conf_change r = Done (r', cs) → reads r r'.
Proof.
  unfold Raft.post_conf_change, Raft.release_reads. intros Hs. inv_done Hs;
    repeat match goal with H : _ = Done _ |- _ => reads_call H end; try reads_solve; repeat case_match; reads_solve.
Qed.

Lemma host_op_reads r r' : host_op r r' → reads r r'.
Proof.
  intros Hop. destruct Hop as [r i t r' Hs|r i r' Hs|r i r' Hs|r cc r' x Hs|r w r' Hs|r w|r r' x Hs|r r' Hs
    |r b r' Hs|r ids r' Hs|r es|r|r t n r' Hs].
  - unfold Raft.on_persist_entries in Hs. apply outcome_bind_Done in Hs as ([l b] & Hp & Hs).
    assert (stored_alike (Raft.raft_log r) l) as E by (unfold RaftLog.maybe_persist in Hp; by inv_done Hp).
    apply (transitivity (y := r <| Raft.raft_log := l |>)); [by apply alike_reads|].
    inv_done Hs; try reads_solve. apply commit_and_bcast_reads in Hs. reads_solve.
  - apply alike_reads. unfold Raft.on_persist_snap, RaftLog.maybe_persist_snap in Hs. by inv_done Hs.
  - unfold Raft.commit_apply, Raft.commit_apply_internal, RaftLog.applied_to in Hs. inv_done Hs; try by apply alike_reads.
    all: match goal with H : Raft.append_entry _ _ = _ |- _ => apply append_entry_reads in H end.
    all: match goal with H : reads ?x _ |- _ => apply (transitivity (y := x)); [by apply alike_reads|reads_solve] end.
  - unfold Raft.apply_conf_change in Hs. inv_done Hs;
      repeat match goal with
      | H : Raft.post_conf_change _ = _ |- _ => apply post_conf_change_reads in H
      | H : Raft.maybe_start_new_subterm _ _ _ = _ |- _ => apply maybe_start_new_subterm_reads in H
      end; reads_solve.
  - unfold Raft.confirm_witness_append in Hs. inv_done Hs; try reads_solve. apply commit_and_bcast_reads in Hs. reads_solve.
  - unfold Raft.reject_witness_append. repeat case_match; reads_solve.
  - unfold Raft.request_snapshot, Raft.send_request_snapshot in Hs. inv_done Hs; try reads_solve;
      match goal with H : Raft.send _ _ = _ |- _ => apply send_reads in H end; reads_solve.
  - unfold Raft.ping, Raft.bcast_heartbeat in Hs. reads_op Hs.
  - unfold Raft.enable_group_commit in Hs. reads_op Hs.
  - unfold Raft.assign_commit_groups in Hs. apply outcome_bind_Done in Hs as (r0 & Hg & Hs).
    apply assign_groups_quiet in Hg. reads_op Hs.
  - unfold Raft.reduce_uncommitted_size. case_match; reads_solve.
  - by apply alike_reads.
  - unfold Raft.adjust_max_inflight_msgs in Hs. reads_op Hs.
Qed.
End reading_steps.
