(* ===== verification/RaftSpeech.v ===== *)
(** * What followers and candidates say

    A node that does not lead asks for votes with the end of its log, answers
    with its commit index, and acknowledges only what its log has.  A vote goes
    to the node itself when it campaigns, or to a candidate whose log is up to
    date.  A new leader knows nothing of its peers but what it has stored
    itself. *)
From S2P Require Import Prelude Errors Eraftpb ProtoConf Util Unstable Storage RaftLog RaftLogSpec Quorum.
From S2P Require Import Inflights Progress Tracker ConfChange ReadOnly Config Raft RaftFrame RaftElection.
From S2P Require Import RaftPromotion RaftReplication RaftLogSteps RaftCommit RaftVoices.

Section speech.
Context {S : Type} `{StorageLaws S} `{HashOrder} `{Rand}.
#[local] Set Default Proof Using "All".
Implicit Types r : Raft.t S.

Abbreviation committed r := (RaftLog.committed (Raft.raft_log r)).
Abbreviation view r := (log_view (Raft.raft_log r)).
Abbreviation last_of r := (vlast (log_view (Raft.raft_log r))).

(** The commit index a vote message carries, with its term. *)
Definition informs r (m : Message) : Prop := m_commit m = 0 ∨
  sv_dummy (view r) ≤ m_commit m ≤ committed r ∧ (∃ t, vterm (view r) (m_commit m) = Ok t ∧ (t ≠ 0 → m_commit_term m = t)) ∧
  m_term m = (if is_type m MsgRequestPreVote then Raft.term r + 1 else Raft.term r) ∧
  (m_msg_type m = MsgRequestPreVoteResponse → m_reject m = true).

(** A request for votes in an election, with the end of the log. *)
Record calls r (m : Message) : Prop := mk_calls {
  ca_from : m_from m = Raft.id r;
  ca_term : m_term m = Raft.term r;
  ca_vote : Raft.vote r = Raft.id r;
  ca_index : m_index m = last_of r;
  ca_log_term : vterm (view r) (last_of r) = Ok (m_log_term m)
}.

Record spoken (C : Prop) r (m : Message) : Prop := mk_spoken {
  sk_append : m_msg_type m ≠ MsgAppend;
  sk_heartbeat : m_msg_type m ≠ MsgHeartbeat;
  sk_ack : m_msg_type m = MsgAppendResponse → m_reject m = true ∨ m_index m = 0;
  sk_call : m_msg_type m = MsgRequestVote → C ∧ calls r m;
  sk_info : vote_message m → informs r m
}.

(** New messages; [C] tells whether the node is campaigning. *)
Definition speaks (C : Prop) r r' : Prop := ∀ m, m ∈ Raft.msgs r' → m ∈ Raft.msgs r ∨ spoken C r' m.

(** The node keeps its term, vote and log; it may commit more and speak. *)
Record stay (C : Prop) r r' : Prop := mk_stay {
  sy_id : Raft.id r' = Raft.id r;
  sy_term : Raft.term r' = Raft.term r;
  sy_vote : Raft.vote r' = Raft.vote r;
  sy_conf : Tracker.conf (Raft.prs r') = Tracker.conf (Raft.prs r);
  sy_batch : Raft.batch_append r' = Raft.batch_append r;
  sy_commit : committed r ≤ committed r';
  sy_ok : log_ok (Raft.raft_log r');
  sy_view : view r' = view r;
  sy_state : Raft.state r' = Leader → Raft.state r = Leader;
  sy_said : speaks C r r'
}.
Definition stays (C : Prop) r r' : Prop := log_ok (Raft.raft_log r) → stay C r r'.

Lemma spoken_kept C r r' m : spoken C r m → Raft.id r' = Raft.id r → Raft.term r' = Raft.term r →
  Raft.vote r' = Raft.vote r → committed r ≤ committed r' → view r' = view r → spoken C r' m.
Proof.
  intros [A B K D E] Hi Ht Hv Hc Hl. split; [done|done|done| |].
  - intros [? [? ? ? ? ?]]%D. split; [done|]. split; rewrite ?Hl; congruence.
  - intros [|([? ?] & ? & ? & ?)]%E; [by left|right]. rewrite Hl, Ht. split; [split; [done|lia]|done].
Qed.

#[export] Instance stays_preorder C : PreOrder (stays C).
Proof.
  split.
  - intros r Hok. split; try done. by left.
  - intros r1 r2 r3 S1 S2 Hok. destruct (S1 Hok) as [A1 B1 C1 D1 E1 F1 G1 L1 T1 M1].
    destruct (S2 G1) as [A2 B2 C2 D2 E2 F2 G2 L2 T2 M2]. split; [congruence|congruence|congruence|congruence|congruence|lia|done|congruence|auto|].
    intros m Hm. destruct (M2 m Hm) as [Hm2|]; [|by right]. destruct (M1 m Hm2) as [|Hs]; [by left|right].
    by eapply spoken_kept.
Qed.

Lemma stays_weaken (C C' : Prop) r r' : stays C r r' → (C → C') → stays C' r r'.
Proof.
  intros S1 HC Hok. destruct (S1 Hok) as [A1 B1 C1 D1 E1 F1 G1 L1 T1 M1]. split; try done.
  intros m Hm. destruct (M1 m Hm) as [|[A B K D E]]; [by left|right]. split; [done..| |done]. intros [? ?]%D. auto.
Qed.

Lemma quiet_stays C r r' : quiet r r' → Raft.msgs r' = Raft.msgs r → stays C r r'.
Proof.
  intros Hq Hm Hok. destruct (quiet_last _ _ Hq Hok) as [Hok' Hv]. pose proof (quiet_unmoved _ _ Hq) as Hu. unfold unmoved in Hu.
  split; [apply Hq..|by rewrite Hu|done|done|by rewrite (q_state _ _ Hq)|]. intros m. rewrite Hm. by left.
Qed.

(** Sending one message. *)
Lemma send_stays C r m r' : Raft.send r m = Done r' → m_msg_type m ≠ MsgAppend → m_msg_type m ≠ MsgHeartbeat →
  (m_msg_type m = MsgAppendResponse → m_reject m = true ∨ m_index m = 0) →
  (m_msg_type m = MsgRequestVote → C ∧ m_from m = 0 ∧ m_term m = Raft.term r ∧ Raft.vote r = Raft.id r ∧
    m_index m = last_of r ∧ vterm (view r) (last_of r) = Ok (m_log_term m)) →
  (vote_message m → informs r m) → stays C r r'.
Proof.
  intros (m1 & -> & E1 & E2 & E3 & E4 & E5 & E6 & E7 & E8 & E9 & Et)%send_msg Ha Hh Hk Hv Hi Hok.
  split; try done. intros m' Hin. simpl in Hin. apply elem_of_app in Hin as [|Hin%list_elem_of_singleton]; [by left|right]. subst m'.
  assert (vote_message m → m_term m1 = m_term m) as Htm.
  { intros Hvm. assert (Raft.is_campaign_msg m = true) as Hc; [|by rewrite Hc in Et].
    unfold vote_message in Hvm. unfold Raft.is_campaign_msg, is_type. destruct (m_msg_type m); set_solver. }
  split; [congruence|congruence|rewrite E1, E2, E5; done| |].
  - rewrite E1. intros Hty. destruct (Hv Hty) as (F0 & F1 & F2 & F3 & F4 & F5).
    assert (vote_message m) as Hvm by (unfold vote_message; rewrite Hty; set_solver).
    split; [done|]. split; simpl; [by rewrite E4, F1|rewrite Htm; done|done|congruence|congruence].
  - intros Hvm'. assert (vote_message m) as Hvm by (unfold vote_message in *; by rewrite E1 in Hvm').
    destruct (Hi Hvm) as [?|(? & ? & Ht)]; [left; congruence|right]. unfold is_type in *. simpl. rewrite E1, E2, E8, E9, Htm by done. done.
Qed.

(** Messages that say nothing of votes, entries or the commit index. *)
Lemma send_plain_stays C r m r' : Raft.send r m = Done r' → m_msg_type m ≠ MsgAppend → m_msg_type m ≠ MsgHeartbeat →
  is_answer m = false → stays C r r'.
Proof.
  intros Hs Ha Hh Hn. unfold is_answer, Raft.is_campaign_msg, is_type in Hn.
  eapply send_stays; [done|done|done|..]; unfold vote_message; destruct (m_msg_type m); try done; set_solver.
Qed.

Lemma become_follower_stays C r lead r' : Raft.become_follower r (Raft.term r) lead = Done r' → stays C r r'.
Proof.
  intros Hs Hok. destruct (become_follower_spec _ _ _ _ Hs) as (Ht & Hv & _ & _ & Hi & Hc). rewrite N.eqb_refl in Hv.
  pose proof (become_follower_unmoved _ _ _ _ Hs) as Hu. unfold unmoved in Hu.
  destruct (sl_log _ _ (become_follower_same_log _ _ _ _ Hs) Hok) as [Hok' Hl].
  pose proof (sl_batch _ _ (become_follower_same_log _ _ _ _ Hs)) as Hb.
  destruct (become_follower_spec _ _ _ _ Hs) as (_ & _ & Hst & _).
  split; try done; [by rewrite Hu|congruence|]. intros m Hm. left. unfold Raft.become_follower in Hs. inv_done Hs.
  apply reset_spec in Hc0 as (_ & _ & _ & _ & _ & _ & E & _). by rewrite <-E.
Qed.

Lemma has_unapplied_conf_changes_stays C r lo hi ctx r' b :
  Raft.has_unapplied_conf_changes r lo hi ctx = Done (r', b) → stays C r r'.
Proof.
  intros Hs. apply quiet_stays; [by eapply has_unapplied_conf_changes_quiet|].
  unfold Raft.has_unapplied_conf_changes in Hs. by inv_done Hs.
Qed.

Lemma maybe_commit_by_vote_stays C r m r' : Raft.maybe_commit_by_vote r m = Done r' → stays C r r'.
Proof.
  unfold Raft.maybe_commit_by_vote. intros Hs. destruct (_ || _); [inv_done Hs; reflexivity|].
  destruct (_ || _); [inv_done Hs; reflexivity|]. apply outcome_bind_Done in Hs as ([l b] & Hl & Hs).
  assert (stays C r (r <| Raft.raft_log := l |>)) as H1'.
  { intros Hok. destruct (log_maybe_commit_ok _ _ _ _ _ Hl Hok) as (Hok' & Hv & _).
    apply log_maybe_commit_mono in Hl as [Hle _]. split; try done. by left. }
  etrans; [exact H1'|]. clear H1'. cbv zeta in Hs. set (r1 := r <| Raft.raft_log := l |>) in *. clearbody r1.
  destruct (negb b); [inv_done Hs; reflexivity|]. destruct (_ && _); [inv_done Hs; reflexivity|].
  apply outcome_bind_Done in Hs as ([r2 p] & Hu & Hs). etrans; [by eapply has_unapplied_conf_changes_stays|].
  destruct p; [by eapply become_follower_stays|inv_done Hs; reflexivity].
Qed.

Lemma send_request_vote_to_witness_stays C r w t tm r' : Raft.send_request_vote_to_witness r w t tm = Done r' → stays C r r'.
Proof.
  intros Hs. apply quiet_stays; [by eapply send_request_vote_to_witness_quiet|].
  unfold Raft.send_request_vote_to_witness in Hs. by inv_done Hs.
Qed.

Lemma ask_witnesses_stays C t l r r' : Raft.ask_witnesses t l r = Done r' → stays C r r'.
Proof.
  revert r. induction l as [|[w b] l IH]; intros r Hs; cbn [Raft.ask_witnesses] in Hs.
  - inv_done Hs. reflexivity.
  - inv_done Hs; apply IH in Hs; [|done]. etrans; [by eapply send_request_vote_to_witness_stays|done].
Qed.

Lemma commit_info_view (l : RaftLog.t S) c ct : RaftLog.commit_info l = Done (c, ct) → log_wf l →
  c = RaftLog.committed l ∧ ∃ t, vterm (log_view l) c = Ok t ∧ (t ≠ 0 → ct = t).
Proof.
  unfold RaftLog.commit_info. intros Hs Hwf. rewrite term_view in Hs by done. cbn [mbind outcome_bind] in Hs.
  destruct (vterm (log_view l) (RaftLog.committed l)) as [t|] eqn:E; [|done].
  destruct (N.eqb_spec t 0) as [->|Hne]; cbn [negb] in Hs; inv_done Hs; (split; [done|]); eexists; (split; [exact E|done]).
Qed.

Lemma last_term_view (l : RaftLog.t S) t : RaftLog.last_term l = Done t → log_wf l →
  vterm (log_view l) (vlast (log_view l)) = Ok t.
Proof.
  unfold RaftLog.last_term. intros Hs Hwf. rewrite last_index_view in Hs by done. cbn [mbind outcome_bind] in Hs.
  rewrite term_view in Hs by done. cbn [mbind outcome_bind] in Hs. unfold unwrap_res in Hs.
  by destruct (vterm _ _); inv_done Hs.
Qed.
End speech.

(** ** Elections *)
Section campaigns.
Context {S : Type} `{StorageLaws S} `{HashOrder} `{Rand}.
#[local] Set Default Proof Using "All".
Implicit Types r : Raft.t S.

Abbreviation committed r := (RaftLog.committed (Raft.raft_log r)).
Abbreviation view r := (log_view (Raft.raft_log r)).
Abbreviation last_of r := (vlast (log_view (Raft.raft_log r))).
Abbreviation persisted r := (RaftLog.persisted (Raft.raft_log r)).

(** A new leader: what it says it knows, and of the others it knows nothing. *)
Record elect r r' : Prop := mk_elect {
  el_state : Raft.state r' = Leader;
  el_id : Raft.id r' = Raft.id r;
  el_term : Raft.term r' = Raft.term r;
  el_vote : Raft.vote r' = Raft.vote r;
  el_commit : committed r' = committed r;
  el_said : ∀ m, m ∈ Raft.msgs r' → m ∈ Raft.msgs r ∨ voiced r' m;
  el_match : ∀ v, matched_of r' v = 0 ∨ v = Raft.id r' ∧ matched_of r' v ≤ persisted r';
  el_fit : all_fit r'
}.
Definition elects r r' : Prop := log_ok (Raft.raft_log r) → room 1 r → Raft.batch_append r = false →
  Raft.has_witness r = false → elect r r'.

(** A node that raises its term to campaign in it. *)
Record raises r r' : Prop := mk_raises {
  ra_id : Raft.id r' = Raft.id r;
  ra_term : Raft.term r' = Raft.term r + 1;
  ra_vote : Raft.vote r' = Raft.id r';
  ra_conf : Tracker.conf (Raft.prs r') = Tracker.conf (Raft.prs r);
  ra_batch : Raft.batch_append r' = Raft.batch_append r;
  ra_log : Raft.raft_log r' = Raft.raft_log r;
  ra_msgs : Raft.msgs r' = Raft.msgs r;
  ra_state : Raft.state r' = Candidate
}.

Definition concludes (C : Prop) r r' : Prop := stays C r r' ∨ elects r r'.

(** A campaign, or an attempt at one. *)
Definition runs r r' : Prop := stays False r r' ∨
  ∃ r0 r1, stays False r r0 ∧ Raft.msgs r0 = Raft.msgs r ∧ raises r0 r1 ∧ concludes True r1 r'.

Lemma stays_runs r r1 r' : stays False r r1 → Raft.msgs r1 = Raft.msgs r → runs r1 r' → runs r r'.
Proof.
  intros S1 Em [|(r2 & r3 & ? & ? & ? & ?)]; [left; by etrans|right]. exists r2, r3.
  split_and!; [by etrans|congruence|done|done].
Qed.

Lemma become_candidate_raises r r' : Raft.become_candidate r = Done r' → Raft.term r < u64_max → raises r r'.
Proof.
  intros Hs Hb. destruct (become_candidate_spec _ _ Hs Hb) as (Ht & Hv & Hst & Hi & Hl).
  destruct (become_candidate_fields _ _ Hs) as (Hm & _ & Hc & _).
  pose proof (sl_batch _ _ (become_candidate_same_log _ _ Hs)) as Hba. by split.
Qed.

Lemma become_pre_candidate_stays C r r' : Raft.become_pre_candidate r = Done r' → stays C r r' ∧ Raft.state r' = PreCandidate ∧ Raft.msgs r' = Raft.msgs r.
Proof.
  unfold Raft.become_pre_candidate. intros Hs. inv_done Hs. split; [|done]. intros Hok. split; try done. by left.
Qed.

Lemma request_votes_stays vm tm c ct ty ids r r' : Raft.request_votes vm tm c ct ty ids r = Done r' →
  (vm = MsgRequestVote ∧ tm = Raft.term r ∧ Raft.vote r = Raft.id r ∨ vm = MsgRequestPreVote ∧ tm = Raft.term r + 1) →
  sv_dummy (view r) ≤ c ≤ committed r → (∃ t, vterm (view r) c = Ok t ∧ (t ≠ 0 → ct = t)) → stays (vm = MsgRequestVote) r r'.
Proof.
  revert r. induction ids as [|i ids IH]; intros r Hs Hvm Hc Hct; cbn [Raft.request_votes] in Hs.
  - inv_done Hs. reflexivity.
  - destruct (_ || _); [by apply IH in Hs|].
    apply outcome_bind_Done in Hs as (li & Hli & Hs). apply outcome_bind_Done in Hs as (lt & Hlt & Hs).
    apply outcome_bind_Done in Hs as (r1 & Hsd & Hs). intros Hok. rewrite last_index_view in Hli by apply Hok.
    injection Hli as <-. apply last_term_view in Hlt; [|apply Hok].
    match type of Hsd with Raft.send _ ?x = _ => set (m := x) in Hsd end.
    assert (m_msg_type m = vm ∧ m_from m = 0 ∧ m_term m = tm ∧ m_index m = last_of r ∧ m_log_term m = lt ∧
      m_commit m = c ∧ m_commit_term m = ct) as (E1 & E2 & E3 & E4 & E5 & E6 & E7)
      by (unfold m; case_bool_decide; by rewrite ?E).
    clearbody m. assert (stays (vm = MsgRequestVote) r r1) as S1.
    { eapply send_stays; [exact Hsd|rewrite E1; destruct Hvm as [[-> _]|[-> _]]; done..| |].
      - rewrite E1, E3, E4, E5. intros ->. destruct Hvm as [(_ & ? & ?)|[? _]]; [|done]. split_and!; done.
      - intros _. right. unfold is_type. rewrite E1, E3, E6, E7. split; [done|]. split_and!; [done|..];
        destruct Hvm as [(-> & ? & _)|[-> ?]]; done. }
    destruct (S1 Hok) as [I1 T1 V1 _ _ C1 _ L1 _ _]. refine (transitivity S1 (IH _ Hs _ _ _) Hok).
    + destruct Hvm as [(? & ? & ?)|[? ?]]; [left|right]; split_and!; congruence.
    + rewrite L1. lia.
    + by rewrite L1.
Qed.

(** ** A new leader *)
Lemma reset_peers_get i li c p (t : Tracker.t) v : Tracker.get (Raft.reset_peers i li c p t) v =
  (λ pr, let pr := Progress.reset pr (li +w 1) in
     if v =? i then pr <| Progress.matched := p |> <| Progress.committed_index := c |> else pr) <$> Tracker.get t v.
Proof. unfold Raft.reset_peers, Tracker.get. simpl. rewrite map_lookup_imap. by destruct (Tracker.progress t !! v). Qed.

Lemma reset_knowledge r tm r' : Raft.reset r tm = Done r' → log_ok (Raft.raft_log r) →
  all_fit r' ∧ ∀ v, matched_of r' v = 0 ∨ v = Raft.id r' ∧ matched_of r' v = persisted r'.
Proof.
  intros Hs Hok. pose proof (reset_spec _ _ _ Hs) as (_ & _ & Hi & _ & Hl & _).
  assert (∃ p c, Raft.prs r' = Raft.reset_peers (Raft.id r') (last_of r') c (persisted r') p) as (p & c & Hp).
  { unfold Raft.reset, Raft.reset_randomized_election_timeout in Hs. inv_done Hs; simpl in *;
      (destruct (Raft.term r =? tm); simpl in *; rewrite last_index_view in * by apply Hok; simplify_eq; eauto). }
  rewrite Hl in Hp. pose proof (log_view_wf _ (proj1 Hok)) as [_ Hb]. destruct Hok as [Hwf [_ _ _ Hpo]].
  pose proof (log_view_offset _ Hwf) as Ho.
  assert (persisted r ≤ last_of r) as Hpl by lia.
  split.
  - intros v q. rewrite Hp, reset_peers_get, Hl. destruct (Tracker.get p v) as [q0|]; [|done].
    intros [= <-]. unfold fits. rewrite u64_add_small by (unfold vlast in *; lia).
    destruct (v =? Raft.id r'); simpl; split_and!; lia.
  - intros v. unfold matched_of. rewrite Hp, reset_peers_get, Hl. destruct (Tracker.get p v) as [q0|]; [simpl|by left].
    destruct (N.eqb_spec v (Raft.id r')); [right|left]; done.
Qed.

Lemma become_leader_elects r r1 r' : Raft.become_leader r = Done r1 → Raft.bcast_append r1 = Done r' → elects r r'.
Proof.
  intros Hs Hbc Hok Hr Hba Hnw. pose proof (become_leader_spec _ _ Hs) as (_ & Ht & Hv & Hst).
  pose proof (become_leader_unmoved _ _ Hs) as Hu. unfold unmoved in Hu.
  unfold Raft.become_leader in Hs. apply outcome_bind_Done in Hs as (? & _ & Hs).
  apply outcome_bind_Done in Hs as (ra & Hra & Hs). destruct (reset_knowledge _ _ _ Hra Hok) as [Hf Hm].
  pose proof (sl_batch _ _ (reset_same_log _ _ _ Hra)) as Hba'.
  destruct (reset_spec _ _ _ Hra) as (_ & _ & Hi & _ & Hl & _ & Hms & _ & Hcf). cbv zeta in Hs.
  apply outcome_bind_Done in Hs as (li & _ & Hs). apply outcome_bind_Done in Hs as (? & _ & Hs).
  apply outcome_bind_Done in Hs as (p & Hp%unwrap_Done & Hs).
  match type of Hs with (if Raft.has_witness ?x then _ else _) = _ => set (rb := x) in Hs end.
  assert (Raft.has_witness rb = false) as Hw by (rewrite <-Hnw; unfold Raft.has_witness; by rewrite <-Hcf).
  rewrite Hw in Hs. apply outcome_bind_Done in Hs as ([rc b] & Ha & [= ->]). simpl in Hp.
  assert (Raft.raft_log rb = Raft.raft_log r ∧ Raft.msgs rb = Raft.msgs r ∧ Raft.id rb = Raft.id r) as (Lb & Mb & Ib)
    by (simpl; by rewrite Hl, Hms, Hi).
  assert (able 1 (λ _ _, False) rb) as Hab.
  { split; [by rewrite Lb|by rewrite Lb|done| |simpl; congruence]. intros v q Hq. unfold Tracker.get in Hq. simpl in Hq.
    change (last_of rb) with (last_of ra). destruct (decide (v = Raft.id ra)) as [->|Hne].
    - rewrite lookup_insert_eq in Hq. injection Hq as <-. apply become_replicate_fits; [|by eapply Hf].
      rewrite Hl. pose proof (log_view_wf _ (proj1 Hok)) as [_ Hb]. unfold vlast in *. lia.
    - rewrite lookup_insert_ne in Hq by done. by eapply Hf. }
  pose proof (knows_trans 1 0 (λ _ _, False) rb r1 r' (append_entry_knows _ 1 _ _ _ _ Ha ltac:(done))
    (sends_knows _ _ _ (bcast_append_sends _ _ Hbc))) as Hk. rewrite N.add_0_r in Hk. destruct (Hk Hab) as [Ki _ Ks Km _ Kf].
  apply bcast_append_quiet in Hbc. pose proof (quiet_unmoved _ _ Hbc) as Hu'. unfold unmoved in Hu'.
  assert (persisted r' = persisted r) as Hpe.
  { destruct (log_read_fields _ _ (q_log _ _ Hbc)) as (_ & _ & -> & _). rewrite <-Lb. clear -Ha. unfold Raft.append_entry, Raft.maybe_increase_uncommitted_size in Ha.
    destruct (us_maybe_increase_uncommitted_size _ _) as [u ok]. inv_done Ha; [done|]. apply log_append_fields in Hc0. by rewrite Hc0. }
  split; [by rewrite (q_state _ _ Hbc)|congruence|by rewrite (q_term _ _ Hbc)|by rewrite (q_vote _ _ Hbc)|congruence|by rewrite <-Mb| |done].
  intros v. destruct (Km v) as [_ [->|[]]]. unfold rb. change (Raft.id r) with (Raft.id r).
  assert (matched_of rb v = matched_of ra v) as E.
  { unfold rb, matched_of, Tracker.get. simpl. destruct (decide (v = Raft.id ra)) as [->|Hne];
      [rewrite lookup_insert_eq; unfold Tracker.get in Hp; by rewrite Hp|by rewrite lookup_insert_ne]. }
  fold rb. rewrite E. destruct (Hm v) as [|[-> ->]]; [by left|right]. split; [congruence|]. rewrite Hl. by rewrite Hpe.
Qed.

Lemma record_vote_stays C r f : Tracker.conf (f (Raft.prs r)) = Tracker.conf (Raft.prs r) → stays C r (r <| Raft.prs ::= f |>).
Proof. intros Hc Hok. split; try done. by left. Qed.

Lemma concludes_pre C r r1 r' : (∀ C, stays C r r1) → Raft.msgs r1 = Raft.msgs r → Raft.raft_log r1 = Raft.raft_log r →
  concludes C r1 r' → concludes C r r'.
Proof.
  intros S1 Hm Hl [|He]; [left; etrans; [apply S1|done]|right]. intros Hok Hr Hb Hw. destruct (S1 True Hok) as [I1 T1 V1 K1 B1 _ _ _ _ _].
  destruct He as [A B T V E F G K]; [by rewrite Hl|by rewrite Hl|congruence|unfold Raft.has_witness in *; by rewrite K1|].
  split; try congruence; [|done|done]. intros m Hin. destruct (F m Hin); [left; congruence|by right].
Qed.

(** What [poll] does as a candidate. *)
Lemma poll_concludes C fuel r from t v r' res : Raft.poll_fuel fuel r from t v = Done (r', res) →
  Raft.state r ≠ PreCandidate → concludes C r r' ∧ (res ≠ Won → stays C r r').
Proof.
  intros Hs Hst. destruct fuel; cbn [Raft.poll_fuel] in Hs;
    destruct (Tracker.tally_votes_with_diff _) as [[[g rj] rs] diff];
    set (r0 := upd Raft.prs _ r) in Hs; assert (∀ C', stays C' r r0) as P0 by (intros; apply record_vote_stays, record_vote_conf);
    assert (Raft.msgs r0 = Raft.msgs r ∧ Raft.raft_log r0 = Raft.raft_log r ∧ Raft.state r0 ≠ PreCandidate) as (M0 & L0 & Hst0) by done;
    clearbody r0;
    (assert (concludes C r0 r' ∧ (res ≠ Won → stays C r0 r')) as [Hc Hn];
      [|split; [by eapply concludes_pre|intros ?; etrans; [apply P0|auto]]]);
    inv_done Hs; try (unfold Raft.is_role in *; case_bool_decide; done);
    first [split; [right; by eapply become_leader_elects|done]
      |assert (stays C r0 r') as S1 by first [by eapply become_follower_stays|by eapply ask_witnesses_stays]; split; [by left|done]].
Qed.

Lemma campaign_election_runs fuel r ct r' : Raft.campaign_with (Raft.poll_fuel fuel) r ct = Done r' →
  ct ≠ CAMPAIGN_PRE_ELECTION → Raft.term r < u64_max → runs r r'.
Proof.
  intros Hs Hct Hb. unfold Raft.campaign_with in Hs. rewrite bool_decide_eq_false_2 in Hs by done.
  apply outcome_bind_Done in Hs as ([[r1 vm] tm] & Hp & Hs). inv_done Hp.
  pose proof (become_candidate_spec _ _ Hc Hb) as (_ & _ & Hst & _). apply become_candidate_raises in Hc; [|done].
  apply outcome_bind_Done in Hs as ([r2 res] & Hp & Hs). apply (poll_concludes True) in Hp as [Hcn Hn]; [|congruence].
  right. exists r, r1. split_and!; [reflexivity|done|done|]. case_bool_decide as E; [by inv_done Hs|]. specialize (Hn E).
  left. intros Hok. apply outcome_bind_Done in Hs as ([c0 ct0] & Hci & Hs). pose proof (Hn Hok) as [I1 T1 V1 _ _ _ O1 _ _ _].
  apply commit_info_view in Hci as [-> Hct0]; [|apply O1]. refine (transitivity Hn (stays_weaken _ True _ _ (request_votes_stays _ _ _ _ _ _ _ _ Hs _ _ Hct0) _) Hok).
  - left. destruct Hc as [? ? ? _ _ _ _ _]. split_and!; congruence.
  - split; [apply O1|done].
  - done.
Qed.

Lemma poll_pre_runs r from t v r' res : Raft.poll r from t v = Done (r', res) → Raft.state r = PreCandidate →
  Raft.term r < u64_max → runs r r' ∧ (res ≠ Won → stays False r r').
Proof.
  intros Hs Hst Hb. unfold Raft.poll in Hs. cbn [Raft.poll_fuel] in Hs.
  destruct (Tracker.tally_votes_with_diff _) as [[[g rj] rs] diff].
  set (r0 := upd Raft.prs _ r) in Hs. assert (stays False r r0) as P0 by (apply record_vote_stays, record_vote_conf).
  assert (Raft.is_role r0 PreCandidate = true) as Hst0 by (by apply is_role_spec).
  assert (Raft.term r0 < u64_max) as Hb0 by done. assert (Raft.msgs r0 = Raft.msgs r) as M0 by done. clearbody r0. rewrite Hst0 in Hs.
  inv_done Hs;
    first [split; [eapply stays_runs; [exact P0|exact M0|by eapply (campaign_election_runs 0)]|done]
      |assert (stays False r r') as S1 by (etrans; [exact P0|first [by eapply become_follower_stays|by eapply ask_witnesses_stays]]);
       split; [by left|done]].
Qed.

Lemma campaign_runs r ct r' : Raft.campaign r ct = Done r' → Raft.term r < u64_max → runs r r'.
Proof.
  intros Hs Hb. destruct (decide (ct = CAMPAIGN_PRE_ELECTION)) as [->|Hct]; [|by eapply (campaign_election_runs 1)].
  unfold Raft.campaign, Raft.campaign_with in Hs. rewrite bool_decide_eq_true_2 in Hs by done.
  apply outcome_bind_Done in Hs as ([[r1 vm] tm] & Hp & Hs). inv_done Hp.
  pose proof (become_pre_candidate_advances _ _ Hc) as [_ Ht]. apply (become_pre_candidate_stays False) in Hc as (S1 & Hst & M1).
  apply outcome_bind_Done in Hs as ([r2 res] & Hp & Hs). apply poll_pre_runs in Hp as [Hcn Hn]; [|done|congruence].
  eapply stays_runs; [exact S1|exact M1|]. case_bool_decide as E; [by inv_done Hs|]. specialize (Hn E).
  left. intros Hok. apply outcome_bind_Done in Hs as ([c0 ct0] & Hci & Hs). pose proof (Hn Hok) as [I1 T1 V1 _ _ _ O1 _ _ _].
  apply commit_info_view in Hci as [-> Hct0]; [|apply O1]. refine (transitivity Hn (stays_weaken _ False _ _ (request_votes_stays _ _ _ _ _ _ _ _ Hs _ _ Hct0) _) Hok).
  - right. split; [done|]. rewrite u64_add_small by (unfold u64_modulus, u64_max in *; lia). congruence.
  - split; [apply O1|done].
  - done.
Qed.

Lemma hup_runs r b r' : Raft.hup r b = Done r' → Raft.term r < u64_max → runs r r'.
Proof.
  unfold Raft.hup. intros Hs Hb. destruct (Raft.is_role r Leader); [inv_done Hs; left; reflexivity|].
  apply outcome_bind_Done in Hs as ([r1 p] & Hu & Hs). pose proof (has_unapplied_conf_changes_quiet _ _ _ _ _ _ Hu) as Hq.
  assert (Raft.msgs r1 = Raft.msgs r) as M1 by (clear -Hu; unfold Raft.has_unapplied_conf_changes in Hu; by inv_done Hu).
  apply (has_unapplied_conf_changes_stays False) in Hu. eapply stays_runs; [exact Hu|exact M1|]. pose proof (q_term _ _ Hq).
  inv_done Hs; try (left; reflexivity); (eapply campaign_runs; [done|congruence]).
Qed.

End campaigns.

(** ** Answers to a leader and to candidates *)

(** An append says what it follows, unless it starts the log. *)
Definition anchored (m : Message) : Prop := m_log_term m = 0 → m_index m = 0.

Section answers.
Context {S : Type} `{StorageLaws S} `{HashOrder} `{Rand}.
#[local] Set Default Proof Using "All".
Implicit Types r : Raft.t S.

Abbreviation committed r := (RaftLog.committed (Raft.raft_log r)).
Abbreviation view r := (log_view (Raft.raft_log r)).
Abbreviation last_of r := (vlast (log_view (Raft.raft_log r))).

(** The answer [k] to the append [m]: what is committed already, or all that
    the log now has of it. *)
Definition answer (m : Message) r r' (k : N) : Prop :=
  m_index m < committed r ∧ k = committed r ∧ committed r' = committed r ∧ view r' = view r ∨
  k = m_index m + len (m_entries m) ∧ received (view r) (committed r) m (view r') ∧
    committed r' = N.max (committed r) (N.min (m_commit m) k).

Record answers (m : Message) r r' : Prop := mk_answers {
  aw_id : Raft.id r' = Raft.id r;
  aw_term : Raft.term r' = Raft.term r;
  aw_vote : Raft.vote r' = Raft.vote r;
  aw_state : Raft.state r' = Raft.state r;
  aw_said : ∃ k, answer m r r' k ∧ ∀ m', m' ∈ Raft.msgs r' → m' ∈ Raft.msgs r ∨
    m_msg_type m' = MsgAppendResponse ∧ m_from m' = Raft.id r' ∧ m_term m' = Raft.term r' ∧ m_index m' = k
}.

Lemma send_request_snapshot_stays C r r' : Raft.send_request_snapshot r = Done r' → stays C r r' ∧ unmoved r r'.
Proof.
  unfold Raft.send_request_snapshot. intros Hs. inv_done Hs. split.
  - eapply send_stays; [exact Hs|done|done|intros _; by left|done|]. unfold vote_message. simpl. set_solver.
  - by apply send_spec in Hs as (? & -> & _).
Qed.

Lemma anchored_last l m : anchored m → vterm (log_view l) (m_index m) = Ok (m_log_term m) →
  sv_dummy (log_view l) ≤ m_index m → m_index m ≤ vlast (log_view (l : RaftLog.t S)).
Proof.
  intros Hp Hm Hd. destruct (N.le_gt_cases (m_index m) (vlast (log_view l))) as [|Hgt]; [done|]. exfalso.
  unfold vterm in Hm. unfold vlast in Hgt. rewrite (proj2 (N.eqb_neq _ _)) in Hm by lia.
  destruct (vlookup (log_view l) (m_index m)) eqn:Ev.
  - apply mk_is_Some, vlookup_is_Some in Ev. unfold vlast in Ev. lia.
  - injection Hm as Hm. rewrite Hp in Hgt by done. lia.
Qed.

Lemma send_answer r m k r' : Raft.send r m = Done r' → m_msg_type m = MsgAppendResponse → m_from m = 0 → m_index m = k →
  Raft.id r' = Raft.id r ∧ Raft.term r' = Raft.term r ∧ Raft.vote r' = Raft.vote r ∧ Raft.state r' = Raft.state r ∧ Raft.raft_log r' = Raft.raft_log r ∧
  ∀ m', m' ∈ Raft.msgs r' → m' ∈ Raft.msgs r ∨
    m_msg_type m' = MsgAppendResponse ∧ m_from m' = Raft.id r' ∧ m_term m' = Raft.term r' ∧ m_index m' = k.
Proof.
  intros (m1 & -> & E1 & _ & _ & E4 & E5 & _ & _ & _ & _ & Et)%send_msg Hty Hf Hi. split_and!; [done..|].
  intros m' Hin. simpl in Hin. apply elem_of_app in Hin as [|Hin%list_elem_of_singleton]; [by left|right]. subst m'.
  unfold Raft.is_campaign_msg, is_type in Et. rewrite Hty in Et. rewrite Hf in E4. simpl in *.
  split_and!; [congruence|done|by apply Et|congruence].
Qed.

Lemma handle_append_entries_answers r m r' : Raft.handle_append_entries r m = Done r' → log_ok (Raft.raft_log r) →
  append_ok m → anchored m → stays False r r' ∧ unmoved r r' ∨ answers m r r'.
Proof.
  unfold Raft.handle_append_entries. intros Hs Hok [Hct Ht Hp Hb] Han.
  destruct (negb _); [left; by apply send_request_snapshot_stays|].
  destruct (N.ltb_spec (m_index m) (committed r)) as [Hlt|Hge].
  { right. destruct (send_answer _ _ (committed r) _ Hs) as (? & ? & ? & ? & El & Hsd); [done..|].
    split; [done..|]. exists (committed r). split; [left|done]. by rewrite El. }
  apply outcome_bind_Done in Hs as ([l res] & Ha & Hs). pose proof Hok as [Hwf Hix]. pose proof Hix as [Hd Hcl _ _].
  pose proof (log_view_wf _ Hwf) as [_ Hvb].
  destruct (decide (vterm (view r) (m_index m) = Ok (m_log_term m))) as [Hm|Hm].
  2: { left. rewrite maybe_append_reject in Ha by done. injection Ha as <- <-.
    apply outcome_bind_Done in Hs as (ts & Hts & Hs).
    assert (m_msg_type ts = MsgAppendResponse ∧ m_reject ts = true) as [Ets Erj] by (by inv_done Hts).
    assert (Raft.raft_log r' = Raft.raft_log r) as El by (by apply send_spec in Hs as (? & -> & _)).
    split; [|unfold unmoved; by rewrite El].
    assert (stays False (r <| Raft.raft_log := Raft.raft_log r |>) r') as S1; [|by destruct r].
    eapply send_stays; [exact Hs|simpl; congruence|simpl; congruence|intros _; by left|simpl; congruence|].
    unfold vote_message. simpl. rewrite Ets. set_solver. }
  pose proof (anchored_last _ _ Han Hm ltac:(lia)) as Hlast.
  assert (m_index m + len (m_entries m) + 1 < u64_modulus) as Hb'.
  { destruct (m_entries m) eqn:E; [rewrite len_nil; lia|by apply Hb]. }
  destruct (decide (vconflict (view r) (m_index m) (m_entries m) = 0 ∨
    committed r < vconflict (view r) (m_index m) (m_entries m))) as [Hcf|Hcf].
  2: { by rewrite maybe_append_committed in Ha by (auto || lia). }
  destruct (maybe_append_accept (Raft.raft_log r) (m_index m) (m_log_term m) (m_commit m) (m_entries m))
    as (l2 & E & Hwf2 & Hix2 & Hv & Hc & _); auto; [lia|].
  rewrite E in Ha. injection Ha as <- <-. cbv beta zeta iota in Hs. cbn [mbind outcome_bind mret outcome_ret] in Hs.
  right. destruct (send_answer _ _ (m_index m + len (m_entries m)) _ Hs) as (? & ? & ? & ? & El & Hsd); [done..|].
  split; [done..|]. eexists. split; [right|exact Hsd]. rewrite El. simpl. by split_and!; [|split|].
Qed.

Lemma handle_heartbeat_stays C r m r' : Raft.handle_heartbeat r m = Done r' → stays C r r'.
Proof.
  unfold Raft.handle_heartbeat. intros Hs. apply outcome_bind_Done in Hs as (li & _ & Hs).
  apply outcome_bind_Done in Hs as (l & Hl & Hs).
  assert (stays C r (r <| Raft.raft_log := l |>)) as S1.
  { intros Hok. destruct (commit_to_ok _ _ _ Hl Hok) as [Hok' Hv]. apply commit_to_mono in Hl as [Hle _]. split; try done. by left. }
  etrans; [exact S1|]. destruct (negb _); [by apply send_request_snapshot_stays|]. by eapply send_plain_stays.
Qed.

(** A vote for a candidate whose log is up to date. *)
Record votes_for (m : Message) r r' : Prop := mk_votes_for {
  vf_type : m_msg_type m = MsgRequestVote;
  vf_id : Raft.id r' = Raft.id r;
  vf_term : Raft.term r' = Raft.term r;
  vf_vote : Raft.vote r' = m_from m;
  vf_state : Raft.state r' = Raft.state r;
  vf_prs : Raft.prs r' = Raft.prs r;
  vf_log : Raft.raft_log r' = Raft.raft_log r;
  vf_free : Raft.vote r = m_from m ∨ Raft.vote r = 0;
  vf_upto : ∃ t, vterm (view r) (last_of r) = Ok t ∧ (t < m_log_term m ∨ m_log_term m = t ∧ last_of r ≤ m_index m);
  vf_said : speaks False r r'
}.

Lemma is_up_to_date_view (l : RaftLog.t S) i t : RaftLog.is_up_to_date l i t = Done true → log_wf l →
  ∃ t0, vterm (log_view l) (vlast (log_view l)) = Ok t0 ∧ (t0 < t ∨ t = t0 ∧ vlast (log_view l) ≤ i).
Proof.
  unfold RaftLog.is_up_to_date. intros Hs Hwf. apply outcome_bind_Done in Hs as (lt & Hlt & Hs).
  apply last_term_view in Hlt; [|done]. rewrite last_index_view in Hs by done. cbn [mbind outcome_bind] in Hs.
  injection Hs as Hs. exists lt. split; [done|]. apply orb_true_iff in Hs as [?%N.ltb_lt|[?%N.eqb_eq ?%N.leb_le]%andb_true_iff]; auto.
Qed.

Lemma handle_vote_request_answers r m r' : Raft.handle_vote_request r m = Done r' → log_ok (Raft.raft_log r) →
  stays False r r' ∨ votes_for m r r'.
Proof.
  unfold Raft.handle_vote_request. intros Hs Hok. apply outcome_bind_Done in Hs as (ty & Hty & Hs).
  apply outcome_bind_Done in Hs as (g & Hg & Hs).
  assert (ty = MsgRequestVoteResponse ∨ ty = MsgRequestPreVoteResponse) as Htys by (by apply vote_resp_type in Hty as [-> | ->]; auto).
  destruct g.
  - apply outcome_bind_Done in Hs as (r1 & Hsend & Hs).
    assert (stays False r r1) as S1.
    { eapply send_stays; [exact Hsend|simpl; destruct Htys as [-> | ->]; done..|]. intros _. by left. }
    destruct (is_type m MsgRequestVote) eqn:Hv; [right|left; by inv_done Hs].
    destruct (S1 Hok) as [? ? ? _ _ _ _ _ _ Hsd]. apply send_spec in Hsend as (m' & -> & Em' & _). inv_done Hs.
    unfold is_type in Hv. apply bool_decide_eq_true in Hv.
    destruct (_ || _) eqn:Hcan in Hg; [|by inv_done Hg]. apply outcome_bind_Done in Hg as (u & Hu & Hg).
    destruct u; [|by inv_done Hg]. split; try done.
    + apply (can_vote_real r m); [|done]. exact Hcan.
    + apply is_up_to_date_view; [exact Hu|apply Hok].
    + intros m1 Hm1. destruct (Hsd m1 Hm1) as [|[A B C D E]]; [by left|]. simpl in Hm1.
      apply elem_of_app in Hm1 as [?|Hin%list_elem_of_singleton]; [by left|right]. subst m1. simpl in Em'.
      split; [done..| |exact E]. rewrite Em'. by destruct Htys as [-> | ->].
  - left. apply outcome_bind_Done in Hs as ([c ct] & Hci & Hs). apply outcome_bind_Done in Hs as (r1 & Hsend & Hs).
    apply commit_info_view in Hci as [-> Hct]; [|apply Hok]. etrans; [|by eapply maybe_commit_by_vote_stays].
    eapply send_stays; [exact Hsend|simpl; destruct Htys as [-> | ->]; done..|]. intros _. right. simpl.
    split; [split; [apply Hok|done]|]. split_and!; [done| |done]. unfold is_type. simpl. by destruct Htys as [-> | ->].
Qed.
End answers.

(** ** Turns *)
Section turns.
Context {S : Type} `{StorageLaws S} `{HashOrder} `{Rand}.
#[local] Set Default Proof Using "All".
Implicit Types r : Raft.t S.

Abbreviation committed r := (RaftLog.committed (Raft.raft_log r)).
Abbreviation view r := (log_view (Raft.raft_log r)).
Abbreviation last_of r := (vlast (log_view (Raft.raft_log r))).
Abbreviation persisted r := (RaftLog.persisted (Raft.raft_log r)).

(** What a leader knows of voter [v]. *)
Inductive learned (m : Message) r r' (v : N) : Prop :=
| ln_none : matched_of r' v = 0 → learned m r r' v
| ln_same : Raft.state r = Leader → Raft.term r' = Raft.term r → matched_of r' v = matched_of r v → learned m r r' v
| ln_ack : Raft.state r = Leader → m_term m = Raft.term r' → ack m v (matched_of r' v) → learned m r r' v
| ln_self : v = Raft.id r' → matched_of r' v ≤ persisted r' → learned m r r' v.

(** A message [m'] that the node has to send after handling [m]. *)
Inductive uttered (m : Message) r r' (m' : Message) : Prop :=
| ut_spoken : spoken (Raft.term r < Raft.term r' ∧ view r' = view r) r' m' → uttered m r r' m'
| ut_voiced : voiced r' m' → Raft.state r = Leader ∧ Raft.term r' = Raft.term r ∨ Raft.state r' = Leader →
    (∀ v, learned m r r' v) → uttered m r r' m'
| ut_answer : m_msg_type m = MsgAppend → m_term m = Raft.term r' → m_msg_type m' = MsgAppendResponse →
    m_from m' = Raft.id r' → m_term m' = Raft.term r' → answer m r r' (m_index m') → uttered m r r' m'.

(** Where the node's vote comes from. *)
Inductive voted (m : Message) r r' : Prop :=
| vd_none : Raft.vote r' = 0 → voted m r r'
| vd_same : Raft.term r' = Raft.term r → Raft.vote r' = Raft.vote r → voted m r r'
| vd_self : Raft.term r < Raft.term r' → Raft.vote r' = Raft.id r' → voted m r r'
| vd_other t : m_msg_type m = MsgRequestVote → Raft.vote r' = m_from m → m_term m = 0 ∨ Raft.term r' = m_term m → view r' = view r →
    vterm (view r) (last_of r) = Ok t → t < m_log_term m ∨ m_log_term m = t ∧ last_of r ≤ m_index m → voted m r r'.

Record turn (m : Message) r r' : Prop := mk_turn {
  tu_id : Raft.id r' = Raft.id r;
  tu_said : ∀ m', m' ∈ Raft.msgs r' → m' ∈ Raft.msgs r ∨ uttered m r r' m';
  tu_vote : voted m r r';
  tu_lead : Raft.state r' = Leader → all_fit r' ∧ ∀ v, learned m r r' v;
  tu_heard : m_msg_type m = MsgAppend →
    view r' = view r ∧ committed r' = committed r ∨ m_term m = Raft.term r' ∧ ∃ k, answer m r r' k;
  tu_due : committed r' = committed r ∨ m_msg_type m = MsgRequestPreVote ∨
    m_msg_type m = MsgRequestPreVoteResponse ∧ m_reject m = false ∨ m_term m ≤ Raft.term r';
  tu_due_exact : m_msg_type m = MsgHeartbeat → committed r' = committed r ∨ m_term m = Raft.term r'
}.

(** The message a node can take a turn on. *)
Record ready_for (m : Message) r : Prop := mk_ready_for {
  rf_ok : log_ok (Raft.raft_log r);
  rf_room : room (1 + len (m_entries m)) r;
  rf_batch : Raft.batch_append r = false;
  rf_witness : witness_free r;
  rf_fit : Raft.state r = Leader → all_fit r;
  rf_append : m_msg_type m = MsgAppend → append_ok m ∧ anchored m ∧ m_term m ≠ 0;
  rf_heartbeat : m_msg_type m = MsgHeartbeat → m_term m ≠ 0;
  rf_ack : Raft.state r = Leader → m_msg_type m = MsgAppendResponse → m_reject m = false →
    (m_index m = 0 ∨ m_term m ≠ 0) ∧ (m_term m = Raft.term r → m_index m ≤ last_of r);
  rf_types : m_msg_type m ∉ [MsgSnapshot; MsgSnapStatus; MsgReadIndexResp];
  rf_term : Raft.term r < u64_max;
  rf_bound : m_term m < u64_max
}.

(** The message's term as the node sees it once it goes on with it. *)
Definition timely (m : Message) r : Prop :=
  m_term m ≤ Raft.term r ∨ m_msg_type m = MsgRequestPreVote ∨ m_msg_type m = MsgRequestPreVoteResponse ∧ m_reject m = false.

Definition current (m : Message) r : Prop := m_term m = 0 ∨ m_term m = Raft.term r ∨
  m_msg_type m = MsgRequestPreVote ∨ m_msg_type m = MsgRequestPreVoteResponse.

Lemma stays_turn m r r' : stays False r r' → Raft.state r ≠ Leader → ready_for m r →
  (m_msg_type m = MsgAppend → unmoved r r') → timely m r → current m r → turn m r r'.
Proof.
  intros S1 Hnl Hrf Hu Htm Hcu. destruct (S1 (rf_ok _ _ Hrf)) as [I T V K B C O L Ts Sd]. split.
  - done.
  - intros m' Hm. destruct (Sd m' Hm) as [|[A E F D G]]; [by left|right]. apply ut_spoken. split; [done..| |done]. by intros [[] _]%D.
  - by apply vd_same.
  - intros Hl. by apply Ts in Hl.
  - intros Hty. left. split; [done|by apply Hu].
  - right. rewrite T. destruct Htm as [|[|]]; auto.
  - intros Hty. right. pose proof (rf_heartbeat _ _ Hrf Hty). destruct Hcu as [?|[?|[?|?]]]; congruence.
Qed.

Lemma answers_turn m r r' : answers m r r' → Raft.state r ≠ Leader → m_msg_type m = MsgAppend → m_term m = Raft.term r →
  turn m r r'.
Proof.
  intros [I T V St (k & Ha & Sd)] Hnl Hty Ht. split.
  - done.
  - intros m' Hm. destruct (Sd m' Hm) as [|(E1 & E2 & E3 & E4)]; [by left|right]. apply ut_answer; try done; congruence.
  - by apply vd_same.
  - congruence.
  - intros _. right. split; [congruence|by exists k].
  - right; right; right. rewrite T, Ht. done.
  - congruence.
Qed.

Lemma votes_for_turn m r r' : votes_for m r r' → (Raft.state r = Leader → all_fit r) → timely m r → m_term m = 0 ∨ Raft.term r = m_term m →
  turn m r r'.
Proof.
  intros [Ty I T V St Pr L Fr (t & Ht & Hup) Sd] Hf Htm Hcu. split.
  - done.
  - intros m' Hm. destruct (Sd m' Hm) as [|[A E F D G]]; [by left|right]. apply ut_spoken. split; [done..| |done]. by intros [[] _]%D.
  - eapply vd_other; [done|done|destruct Hcu; [by left|right; congruence]|by rewrite L|done|done].
  - rewrite St. intros Hl. split.
    + intros v p. rewrite Pr, L. by apply Hf.
    + intros v. apply ln_same; [done|done|]. unfold matched_of. by rewrite Pr.
  - congruence.
  - left. by rewrite L.
  - congruence.
Qed.

(** A leader that only answers. *)
Lemma aside_turn m r r' : stays False r r' → unmoved r r' → Raft.prs r' = Raft.prs r → ready_for m r → turn m r r'.
Proof.
  intros S1 Hu Pr Hrf. destruct (S1 (rf_ok _ _ Hrf)) as [I T V K B C O L Ts Sd]. split.
  - done.
  - intros m' Hm. destruct (Sd m' Hm) as [|[A E F D G]]; [by left|right]. apply ut_spoken. split; [done..| |done]. by intros [[] _]%D.
  - by apply vd_same.
  - intros Hl%Ts. split.
    + intros v p. rewrite Pr, L. by apply (rf_fit _ _ Hrf).
    + intros v. apply ln_same; [done|done|]. unfold matched_of. by rewrite Pr.
  - intros _. by left.
  - by left.
  - intros _. by left.
Qed.

(** A turn that ends with an election, or with a part in one. *)
Lemma elects_turn m r r0 r' : elects r0 r' → ready_for m r → timely m r → m_msg_type m ≠ MsgAppend → m_msg_type m ≠ MsgHeartbeat →
  Raft.id r0 = Raft.id r → Raft.term r ≤ Raft.term r0 → Raft.vote r0 = Raft.vote r ∧ Raft.term r0 = Raft.term r ∨ Raft.term r < Raft.term r0 ∧ Raft.vote r0 = Raft.id r0 →
  log_ok (Raft.raft_log r0) → view r0 = view r → Raft.batch_append r0 = Raft.batch_append r →
  Tracker.conf (Raft.prs r0) = Tracker.conf (Raft.prs r) → Raft.msgs r0 = Raft.msgs r → turn m r r'.
Proof.
  intros He Hrf Htm Ha Hh Ei Et Ev Hok El Eb Ec Em. pose proof (rf_room _ _ Hrf) as Hr. destruct He as [St I T V C Sd Ma Fi].
  { done. } { rewrite El. lia. } { rewrite Eb. apply Hrf. }
  { destruct (rf_witness _ _ Hrf) as [_ Hw]. unfold Raft.has_witness in *. by rewrite Ec. }
  assert (∀ v, learned m r r' v) as Hln by (intros v; destruct (Ma v) as [|[? ?]]; [by apply ln_none|by apply ln_self]).
  split.
  - congruence.
  - intros m' Hm. destruct (Sd m' Hm) as [|]; [left; congruence|right]. apply ut_voiced; auto.
  - destruct Ev as [[? ?]|[? ?]]; [apply vd_same|apply vd_self]; congruence.
  - intros _. by split.
  - done.
  - right. rewrite T. destruct Htm as [|[|]]; auto. right; right. lia.
  - done.
Qed.

Lemma polled_turn m r r1 r' : concludes False r r1 → stays False r1 r' → (Raft.state r1 = Leader → r' = r1) →
  (elects r r1 → Raft.state r1 = Leader) → Raft.state r ≠ Leader → ready_for m r → timely m r → current m r →
  m_msg_type m ≠ MsgAppend → m_msg_type m ≠ MsgHeartbeat → turn m r r'.
Proof.
  intros [S1|He] S2 Hl Hel Hnl Hrf Htm Hcu Ha Hh.
  - apply stays_turn; try done. by etrans.
  - rewrite (Hl (Hel He)). apply (elects_turn m r r); try done; [|apply Hrf]. by left.
Qed.

Lemma ran_turn m r r1 r' : runs r r1 → stays False r1 r' → (Raft.state r1 = Leader → r' = r1) →
  Raft.state r ≠ Leader → ready_for m r → timely m r → current m r →
  m_msg_type m ≠ MsgAppend → m_msg_type m ≠ MsgHeartbeat → turn m r r'.
Proof.
  intros [S1|(r0 & ra & S0 & M0 & [Ri Rt Rv Rc Rb Rl Rm Rs] & Hcn)] S2 Hl Hnl Hrf Htm Hcu Ha Hh.
  { apply stays_turn; try done. by etrans. }
  destruct (S0 (rf_ok _ _ Hrf)) as [I T V K B C O L Ts Sd]. destruct Hcn as [S1|He].
  - assert (log_ok (Raft.raft_log ra)) as Oa by (by rewrite Rl).
    assert (stays True ra r') as S3 by (etrans; [exact S1|by eapply stays_weaken]).
    destruct (S3 Oa) as [I' T' V' _ _ _ _ L' Ts' Sd']. rewrite Rl in *. split.
    + congruence.
    + intros m' Hm. destruct (Sd' m' Hm) as [Hm'|[A E F D G]]; [left; congruence|right]. apply ut_spoken. split; [done..| |done].
      intros [_ ?]%D. split; [split; [lia|congruence]|done].
    + apply vd_self; [lia|congruence].
    + intros Hst. exfalso. apply Ts' in Hst. congruence.
    + done.
    + right. destruct Htm as [|[|]]; auto. right; right. lia.
    + done.
  - assert (Raft.state r1 = Leader) as Hst.
    { destruct He as [? _ _ _ _ _ _ _]; [by rewrite Rl|rewrite Rl, L; pose proof (rf_room _ _ Hrf); lia
        |rewrite Rb, B; apply Hrf|destruct (rf_witness _ _ Hrf) as [_ Hw]; unfold Raft.has_witness in *; by rewrite Rc, K|done]. }
    rewrite (Hl Hst). apply (elects_turn m r ra); try done; try congruence; try (rewrite ?Rl; congruence).
    + lia.
    + right. split; [lia|done].
Qed.
End turns.
