(* ===== verification/RaftTurns.v ===== *)
(** * The turns of a node

    What one message, one tick or one request of the host makes of a node: the
    messages it adds, the vote it casts, what a leader knows of its peers and
    what a follower takes over. *)
From S2P Require Import Prelude Errors Eraftpb ProtoConf Util Unstable Storage RaftLog RaftLogSpec Quorum.
From S2P Require Import Inflights Progress Tracker ConfChange ReadOnly Config Raft RaftFrame RaftElection.
From S2P Require Import RaftPromotion RaftReplication RaftLogSteps RaftCommit RaftVoices RaftSpeech.

Section turns.
Context {S : Type} `{StorageLaws S} `{HashOrder} `{Rand}.
#[local] Set Default Proof Using "All".
Implicit Types r : Raft.t S.

Abbreviation committed r := (RaftLog.committed (Raft.raft_log r)).
Abbreviation view r := (log_view (Raft.raft_log r)).
Abbreviation last_of r := (vlast (log_view (Raft.raft_log r))).

(** ** The turns of a leader *)
Lemma knows_turn m k r r' : knows k (ack m) r r' → able k (ack m) r → Raft.state r = Leader →
  (∀ v j, ack m v j → j = 0 ∨ m_term m = Raft.term r) → timely m r → Raft.vote r' = Raft.vote r →
  m_msg_type m ≠ MsgAppend → m_msg_type m ≠ MsgHeartbeat → turn m r r'.
Proof.
  intros K Ha Hl Hack Htm Ev Hna Hnh. destruct (K Ha) as [I C Sd M G F]. pose proof (gr_term _ _ _ G) as T.
  assert (∀ v, learned m r r' v) as Hln.
  { intros v. destruct (M v) as [_ [E|HA]]; [by apply ln_same|].
    destruct (Hack _ _ HA) as [?|?]; [by apply ln_none|apply ln_ack; [done|congruence|done]]. }
  split.
  - done.
  - intros m' Hm. destruct (Sd m' Hm) as [|]; [by left|right]. apply ut_voiced; auto.
  - by apply vd_same.
  - by intros _.
  - done.
  - right. rewrite T. destruct Htm as [|[|]]; auto.
  - done.
Qed.

Lemma down_turn m r r' : stands_down r r' → log_ok (Raft.raft_log r) → turn m r r'.
Proof.
  intros [I St T V C Ms Vi] Hok. split.
  - done.
  - rewrite Ms. by left.
  - by apply vd_same.
  - congruence.
  - intros _. left. auto.
  - by left.
  - intros _. by left.
Qed.

Lemma refl_turn m r : ready_for m r → turn m r r.
Proof. intros Hrf. by apply aside_turn; [reflexivity|..]. Qed.

Lemma ready_types m r : ready_for m r →
  m_msg_type m ≠ MsgSnapshot ∧ m_msg_type m ≠ MsgSnapStatus ∧ m_msg_type m ≠ MsgReadIndexResp.
Proof. intros Hrf. pose proof (rf_types _ _ Hrf) as Hts. rewrite !not_elem_of_cons in Hts. tauto. Qed.

Lemma step_leader_turn r m r' x : Raft.step_leader r m = Done (r', x) → Raft.state r = Leader → ready_for m r →
  timely m r → current m r → Raft.vote r ≠ 0 → turn m r r'.
Proof.
  intros Hs Hl Hrf Htm Hcu Hnz.
  destruct (decide (m_msg_type m = MsgAppend ∨ m_msg_type m = MsgHeartbeat)) as [Hty|Hty].
  { assert (r' = r) as ->; [|by apply refl_turn]. unfold Raft.step_leader in Hs. destruct Hty as [E|E]; rewrite E in Hs; by inv_done Hs. }
  pose proof (step_leader_calm _ _ _ _ Hs) as [[_ Ht Hv _] _ _ _]. destruct (ready_types _ _ Hrf) as (_ & Hns & _).
  pose proof (rf_room _ _ Hrf) as Hr.
  destruct (step_leader_knows _ _ _ _ Hs (rf_witness _ _ Hrf)) as [K|D]; [done|apply Hrf| |by apply down_turn; [|apply Hrf]].
  assert (able (len (m_entries m)) (ack m) r) as Ha.
  { split; [apply Hrf|lia| |by apply Hrf|apply Hrf]. intros v j (Hak & Hrj & _ & ->). destruct (rf_ack _ _ Hrf Hl Hak Hrj) as [H1' H2'].
    destruct Hcu as [?|[?|[?|?]]]; [|auto|congruence|congruence]. destruct H1'; [lia|congruence]. }
  pose proof (K Ha) as [_ _ _ _ G _]. pose proof (gr_term _ _ _ G) as T.
  eapply knows_turn; [exact K|exact Ha|done| |done|auto|tauto|tauto].
  intros v j (Hak & Hrj & _ & ->). destruct (rf_ack _ _ Hrf Hl Hak Hrj) as [H1' _].
  destruct Hcu as [?|[?|[?|?]]]; [|by right|congruence|congruence]. destruct H1'; [by left|congruence].
Qed.

(** ** The turns of the others *)
Lemma maybe_commit_by_vote_leader r m r' : Raft.maybe_commit_by_vote r m = Done r' → Raft.state r = Leader → r' = r.
Proof.
  unfold Raft.maybe_commit_by_vote, Raft.is_role. intros Hs Hl. destruct (_ || _); [by inv_done Hs|].
  rewrite Hl, orb_true_r in Hs. by inv_done Hs.
Qed.

Lemma ready_for_upd (m : Message) r r1 : ready_for m r → Raft.raft_log r1 = Raft.raft_log r → Raft.batch_append r1 = Raft.batch_append r →
  Raft.prs r1 = Raft.prs r → Raft.state r1 = Raft.state r → Raft.term r1 = Raft.term r → ready_for m r1.
Proof.
  intros [A B C [D1 D2] E F G I J K L] El Eb Ep Es Et. split; rewrite ?El, ?Eb, ?Es, ?Et; try done.
  - unfold witness_free, Raft.has_witness. by rewrite Ep.
  - unfold all_fit. rewrite Ep, El. done.
Qed.

Lemma turn_upd (m : Message) r r1 r' : turn m r1 r' → Raft.raft_log r1 = Raft.raft_log r → Raft.prs r1 = Raft.prs r →
  Raft.state r1 = Raft.state r → Raft.term r1 = Raft.term r → Raft.id r1 = Raft.id r → Raft.vote r1 = Raft.vote r →
  Raft.msgs r1 = Raft.msgs r → turn m r r'.
Proof.
  intros [A B C D E F G] El Ep Es Et Ei Ev Em.
  assert (∀ k, answer m r1 r' k → answer m r r' k) as Han by (intros k; unfold answer; by rewrite El).
  assert (∀ v, learned m r1 r' v → learned m r r' v) as Hln.
  { intros v [?|? ? E'|? ? ?|? ?].
    - by apply ln_none.
    - apply ln_same; [congruence|congruence|]. rewrite E'. unfold matched_of. by rewrite Ep.
    - apply ln_ack; [congruence|done|done].
    - by apply ln_self. }
  split; rewrite <-?El; try done; [congruence|..].
  - intros m' Hm. destruct (B m' Hm) as [|[H1'|H1' H2' H3'|]]; [left; congruence|right..].
    + apply ut_spoken. by rewrite <-Et, <-El.
    + apply ut_voiced; [done|by rewrite <-Es, <-Et|auto].
    + apply ut_answer; auto.
  - destruct C as [?|? ?|? ?|t ? ? ? ? ? ?]; [by apply vd_none|apply vd_same; congruence|apply vd_self; congruence|].
    eapply vd_other; rewrite <-?El; eauto.
  - intros Hl. destruct (D Hl) as [? HL]. split; [done|auto].
  - intros Hty. destruct (E Hty) as [|[? [k ?]]]; [by left|right]. split; [done|]. exists k. auto.
Qed.

Lemma step_follower_turn r m r' x : Raft.step_follower r m = Done (r', x) → Raft.state r = Follower → ready_for m r →
  timely m r → current m r → turn m r r'.
Proof.
  intros Hs Hst Hrf Htm Hcu. destruct (ready_types _ _ Hrf) as (Hns & _ & Hnr). pose proof (rf_ok _ _ Hrf) as Hok.
  assert (Raft.state r ≠ Leader) as Hnl by congruence.
  set (r1 := r <| Raft.election_elapsed := 0 |> <| Raft.leader_id := m_from m |>) in Hs.
  assert (ready_for m r1) as Hrf1 by (by eapply ready_for_upd).
  assert (turn m r1 r' → turn m r r') as Hup by (intros Ht; by eapply turn_upd).
  assert (∀ i, Raft.send r (m <| m_to := i |>) = Done r' → m_msg_type m ≠ MsgAppend → m_msg_type m ≠ MsgHeartbeat →
    is_answer m = false → turn m r r') as Hfw.
  { intros i Hsd Ha Hh Hn. eapply stays_turn; try done. by eapply send_plain_stays. }
  unfold Raft.step_follower, Raft.ok in Hs. cbv zeta in Hs. fold r1 in Hs.
  destruct (m_msg_type m) eqn:Ety; try done; inv_done Hs; try (by apply refl_turn).
  - eapply Hfw; [done|done|done|]. unfold is_answer, Raft.is_campaign_msg, is_type. by rewrite Ety.
  - apply Hup. destruct (rf_append _ _ Hrf Ety) as (Hao & Han & Hnz).
    destruct (handle_append_entries_answers _ _ _ Hc Hok Hao Han) as [[S1 Hu]|Haw]; [by eapply stays_turn|].
    eapply answers_turn; [done|done|done|]. change (Raft.term r1) with (Raft.term r). destruct Hcu as [?|[?|[?|?]]]; congruence.
  - apply Hup. eapply stays_turn; try done; [by eapply handle_heartbeat_stays|congruence].
  - eapply Hfw; [done|done|done|]. unfold is_answer, Raft.is_campaign_msg, is_type. by rewrite Ety.
  - eapply ran_turn; [by eapply hup_runs; [|apply Hrf]|reflexivity|done|done|done|done|done|congruence|congruence].
  - eapply Hfw; [done|done|done|]. unfold is_answer, Raft.is_campaign_msg, is_type. by rewrite Ety.
Qed.

(** A turn after falling to a follower, of the same or of a later term. *)
Lemma turn_pre (m : Message) r r1 r' : turn m r1 r' → Raft.state r1 ≠ Leader → view r1 = view r → committed r1 = committed r →
  Raft.msgs r1 = Raft.msgs r → Raft.id r1 = Raft.id r →
  Raft.term r1 = Raft.term r ∧ Raft.vote r1 = Raft.vote r ∨ Raft.term r < Raft.term r1 ∧ Raft.vote r1 = 0 → turn m r r'.
Proof.
  intros [A B C D E F G] Hnl Ev Ec Em Ei Ht. assert (Raft.term r ≤ Raft.term r1) as Hle by (destruct Ht as [[? _]|[? _]]; lia).
  assert (∀ k, answer m r1 r' k → answer m r r' k) as Han by (intros k; unfold answer; by rewrite Ev, Ec).
  assert (∀ v, learned m r1 r' v → learned m r r' v) as Hln by (intros v [?|? ? E'|? ? ?|? ?]; [by apply ln_none|done|done|by apply ln_self]).
  split; rewrite <-?Ev, <-?Ec; try done; [congruence|..].
  - intros m' Hm. destruct (B m' Hm) as [|[[K1 K2 K3 K4 K5]|H1' H2' H3'|]]; [left; congruence|right..].
    + apply ut_spoken. split; [done..| |done]. intros [[? ?] ?]%K4. split; [split; [lia|congruence]|done].
    + apply ut_voiced; [done|destruct H2' as [[? _]|]; [done|by right]|auto].
    + apply ut_answer; auto.
  - destruct C as [?|E1 E2|? ?|t ? ? ? ? ? ?]; [by apply vd_none| |apply vd_self; [lia|done]|].
    + destruct Ht as [[? ?]|[? ?]]; [apply vd_same; congruence|apply vd_none; congruence].
    + eapply vd_other; rewrite <-?Ev; eauto.
  - intros Hl. destruct (D Hl) as [? HL]. split; [done|auto].
  - intros Hty. destruct (E Hty) as [|[? [k ?]]]; [by left|right]. split; [done|]. exists k. auto.
Qed.

Lemma become_follower_fields r tm lead r' : Raft.become_follower r tm lead = Done r' →
  Raft.msgs r' = Raft.msgs r ∧ Raft.batch_append r' = Raft.batch_append r ∧ Tracker.epoch (Raft.prs r') = Tracker.epoch (Raft.prs r).
Proof.
  unfold Raft.become_follower, Raft.reset, Raft.reset_randomized_election_timeout. intros Hs. inv_done Hs; simpl;
    destruct (Raft.term r =? tm); done.
Qed.

Lemma fall_turn (m : Message) r lead r1 r' : Raft.become_follower r (m_term m) lead = Done r1 → Raft.term r ≤ m_term m → ready_for m r →
  (ready_for m r1 → Raft.term r1 = m_term m → Raft.state r1 = Follower → turn m r1 r') → turn m r r'.
Proof.
  intros Hb Hle Hrf Hk. destruct (become_follower_spec _ _ _ _ Hb) as (Ht & Hv & Hst & _ & Hi & Hc).
  pose proof (become_follower_unmoved _ _ _ _ Hb) as Hu. destruct (become_follower_fields _ _ _ _ Hb) as (Em & Eb & Ee).
  destruct (sl_log _ _ (become_follower_same_log _ _ _ _ Hb) (rf_ok _ _ Hrf)) as [Hok Ev].
  assert (ready_for m r1) as Hrf1.
  { destruct Hrf as [A B C [D1 D2] E F G I J K L]. split; rewrite ?Ev, ?Hst; try done; try congruence.
    unfold witness_free, Raft.has_witness. by rewrite Hc, Ee. }
  apply (turn_pre m r r1); [auto|congruence|done|done|done|done|].
  destruct (N.eqb_spec (Raft.term r) (m_term m)); [left; by split; [congruence|]|right; split; [lia|done]].
Qed.

Lemma step_candidate_turn r m r' x : Raft.step_candidate r m = Done (r', x) → Raft.state r = Candidate ∨ Raft.state r = PreCandidate →
  ready_for m r → timely m r → current m r → turn m r r'.
Proof.
  intros Hs Hst Hrf Htm Hcu. destruct (ready_types _ _ Hrf) as (Hns & _ & Hnr). pose proof (rf_ok _ _ Hrf) as Hok.
  assert (Raft.state r ≠ Leader) as Hnl by (destruct Hst; congruence).
  assert (∀ t b r1 res, Raft.poll r (m_from m) t b = Done (r1, res) → Raft.maybe_commit_by_vote r1 m = Done r' →
    m_msg_type m ≠ MsgAppend → m_msg_type m ≠ MsgHeartbeat → turn m r r') as Hpoll.
  { intros t b r1 res Hp Hm Ha Hh. pose proof (maybe_commit_by_vote_leader _ _ _ Hm) as Hlead.
    apply (maybe_commit_by_vote_stays False) in Hm. destruct (decide (Raft.state r = PreCandidate)) as [Hpre|Hpre].
    - apply poll_pre_runs in Hp as [Hr _]; [|done|apply Hrf]. by eapply ran_turn.
    - apply (poll_concludes False) in Hp as [Hc _]; [|done]. eapply polled_turn; try done.
      intros He. apply He; [done|pose proof (rf_room _ _ Hrf); lia|apply Hrf|]. apply (rf_witness _ _ Hrf). }
  unfold Raft.step_candidate, Raft.ok in Hs.
  destruct (m_msg_type m) eqn:Ety; try done; inv_done Hs; try (by apply refl_turn); try (by eapply Hpoll).
  - destruct (rf_append _ _ Hrf Ety) as (Hao & Han & Hnz).
    assert (m_term m = Raft.term r) as Et by (destruct Hcu as [?|[?|[?|?]]]; congruence).
    eapply fall_turn; [exact Hc0|lia|done|]. intros Hrf1 Ht1 Hst1.
    destruct (handle_append_entries_answers _ _ _ Hc (rf_ok _ _ Hrf1) Hao Han) as [[S1 Hu]|Haw].
    + eapply stays_turn; try done; [congruence|left; lia|right; left; congruence].
    + eapply answers_turn; try done. congruence.
  - pose proof (rf_heartbeat _ _ Hrf Ety). assert (m_term m = Raft.term r) as Et by (destruct Hcu as [?|[?|[?|?]]]; congruence).
    eapply fall_turn; [exact Hc0|lia|done|]. intros Hrf1 Ht1 Hst1.
    eapply stays_turn; [by eapply handle_heartbeat_stays|congruence|done|congruence|left; lia|right; left; congruence].
Qed.

(** ** Handling a message *)
Lemma check_term_cases r m r1 b : Raft.check_term r m = Done (r1, b) → log_ok (Raft.raft_log r) →
  b = false ∧ stays False r r1 ∧ unmoved r r1 ∧ Raft.prs r1 = Raft.prs r ∨
  b = true ∧ r1 = r ∧ timely m r ∧ current m r ∨
  b = true ∧ ∃ lead, Raft.become_follower r (m_term m) lead = Done r1 ∧ Raft.term r < m_term m.
Proof.
  unfold Raft.check_term. intros Hs Hok. unfold timely, current.
  destruct (N.eqb_spec (m_term m) 0); [inv_done Hs; right; left; split_and!; [done|done|left; lia|by left]|].
  destruct (N.ltb_spec (Raft.term r) (m_term m)) as [Hlt|Hge].
  - destruct (_ && _ && _); [inv_done Hs; left; by split_and!; [|reflexivity|..]|].
    destruct (_ || _) eqn:Hp.
    + inv_done Hs. right; left. unfold is_type in Hp. apply orb_true_iff in Hp as [Hp|[Hp Hr]%andb_true_iff]; apply bool_decide_eq_true in Hp.
      * by split_and!; auto.
      * apply negb_true_iff in Hr. by split_and!; auto.
    + inv_done Hs. right; right. eauto.
  - destruct (N.ltb_spec (m_term m) (Raft.term r)) as [Hlt|Hge2].
    + inv_done Hs; left; (split_and!; [done|..]); try done; try reflexivity;
        try (by apply send_spec in Hc as (? & -> & _)).
      * eapply send_stays; [exact Hc|done|done|intros _; by right|done|]. unfold vote_message. simpl. set_solver.
      * eapply send_stays; [exact Hc|done|done|done|done|]. intros _. by left.
    + inv_done Hs. right; left. split_and!; [done|done|left; lia|right; left; lia].
Qed.

Lemma handle_vote_request_prs r m r' : Raft.handle_vote_request r m = Done r' → Raft.state r = Leader →
  Raft.prs r' = Raft.prs r ∧ unmoved r r'.
Proof.
  unfold Raft.handle_vote_request. intros Hs Hl. apply outcome_bind_Done in Hs as (ty & _ & Hs).
  apply outcome_bind_Done in Hs as (g & _ & Hs). destruct g.
  - apply outcome_bind_Done in Hs as (r1 & Hsend & Hs). apply send_spec in Hsend as (m' & -> & _). by inv_done Hs.
  - apply outcome_bind_Done in Hs as ([c ct] & _ & Hs). apply outcome_bind_Done in Hs as (r1 & Hsend & Hs).
    apply send_spec in Hsend as (m' & -> & _). by apply maybe_commit_by_vote_leader in Hs as ->.
Qed.

(** The dispatch, once the message's term is settled. *)
Lemma dispatch_turn r m r' x :
  match m_msg_type m with
  | MsgHup => Raft.ok (Raft.hup r false)
  | MsgRequestVote | MsgRequestPreVote => Raft.ok (Raft.handle_vote_request r m)
  | _ => match Raft.state r with
         | PreCandidate | Candidate => Raft.step_candidate r m
         | Follower => Raft.step_follower r m
         | Leader => Raft.step_leader r m
         end
  end = Done (r', x) → ready_for m r → timely m r → current m r → (Raft.state r = Leader → Raft.vote r ≠ 0) → turn m r r'.
Proof.
  intros Hs Hrf Htm Hcu Hnz.
  assert (match Raft.state r with PreCandidate | Candidate => Raft.step_candidate r m
    | Follower => Raft.step_follower r m | Leader => Raft.step_leader r m end = Done (r', x) → turn m r r') as Hrest.
  { intros Hx. destruct (Raft.state r) eqn:Hst; [by eapply step_follower_turn|eapply step_candidate_turn; eauto
      |eapply step_leader_turn; eauto|eapply step_candidate_turn; eauto]. }
  assert (∀ r1, Raft.handle_vote_request r m = Done r1 → r1 = r' → m_msg_type m ≠ MsgAppend → m_msg_type m ≠ MsgHeartbeat →
    (m_msg_type m = MsgRequestVote → m_term m = 0 ∨ Raft.term r = m_term m) → turn m r r') as Hvr.
  { intros r1 Hv -> Ha Hh Ht. destruct (handle_vote_request_answers _ _ _ Hv (rf_ok _ _ Hrf)) as [S1|Hvf].
    - destruct (decide (Raft.state r = Leader)) as [Hl|Hl].
      + destruct (handle_vote_request_prs _ _ _ Hv Hl). by apply aside_turn.
      + by apply stays_turn.
    - apply votes_for_turn; [done|apply Hrf|done|]. apply Ht, Hvf. }
  unfold Raft.ok in Hs. destruct (m_msg_type m) eqn:Ety; try (by apply Hrest); inv_done Hs.
  - destruct (decide (Raft.state r = Leader)) as [Hl|Hl].
    + assert (r' = r) as ->; [|by apply refl_turn]. unfold Raft.hup, Raft.is_role in Hc. rewrite Hl in Hc. by inv_done Hc.
    + eapply ran_turn; [by eapply hup_runs; [|apply Hrf]|reflexivity|done|done|done|done|done|congruence|congruence].
  - eapply Hvr; [done|done|done|done|]. intros _. destruct Hcu as [?|[?|[?|?]]]; [by left|by right|congruence|congruence].
  - eapply Hvr; done.
Qed.

Lemma step_turn r m r' x : Raft.step r m = Done (r', x) → ready_for m r → (Raft.state r = Leader → Raft.vote r ≠ 0) → turn m r r'.
Proof.
  unfold Raft.step. intros Hs Hrf Hnz. apply outcome_bind_Done in Hs as ([r1 b] & Hck & Hs).
  destruct (check_term_cases _ _ _ _ Hck (rf_ok _ _ Hrf)) as [(-> & S1 & Hu & Hp)|[(-> & -> & Htm & Hcu)|(-> & lead & Hb & Hlt)]]; cbn [negb] in Hs.
  - inv_done Hs. by apply aside_turn.
  - by eapply dispatch_turn.
  - eapply fall_turn; [exact Hb|lia|done|]. intros Hrf1 Ht Hst.
    eapply dispatch_turn; [exact Hs|done|left; lia|right; left; lia|congruence].
Qed.
End turns.
