(* ===== verification/RaftHostTurns.v ===== *)
(** * Turns without a message

    What a tick or a request of the host makes of a node, in the terms of
    [RaftTurns].  Requests that change the configuration, ask for a snapshot or
    speak of witnesses are left out. *)
From S2P Require Import Prelude Errors Eraftpb ProtoConf Util Unstable Storage RaftLog RaftLogSpec Quorum.
From S2P Require Import Inflights Progress Tracker ConfChange ReadOnly Config Raft RaftFrame RaftElection.
From S2P Require Import RaftPromotion RaftReplication RaftLogSteps RaftCommit RaftVoices RaftSpeech RaftTurns.

Section host_turns.
Context {S : Type} `{StorageLaws S} `{HashOrder} `{Rand}.
#[local] Set Default Proof Using "All".
Implicit Types r : Raft.t S.

Abbreviation committed r := (RaftLog.committed (Raft.raft_log r)).
Abbreviation view r := (log_view (Raft.raft_log r)).
Abbreviation last_of r := (vlast (log_view (Raft.raft_log r))).
Abbreviation persisted r := (RaftLog.persisted (Raft.raft_log r)).

(** What the host may ask of a node in a cluster of fixed voters. *)
Inductive plain_op : Raft.t S → Raft.t S → Prop :=
| po_persist_entries r i t r' : Raft.on_persist_entries r i t = Done r' → plain_op r r'
| po_persist_snap r i r' : Raft.on_persist_snap r i = Done r' → plain_op r r'
| po_commit_apply r i r' : Raft.commit_apply r i = Done r' → plain_op r r'
| po_ping r r' : Raft.ping r = Done r' → plain_op r r'
| po_enable_group_commit r b r' : Raft.enable_group_commit r b = Done r' → plain_op r r'
| po_assign_commit_groups r ids r' : Raft.assign_commit_groups r ids = Done r' → plain_op r r'
| po_reduce_uncommitted r es : plain_op r (Raft.reduce_uncommitted_size r es)
| po_free_buffers r : plain_op r (Raft.maybe_free_inflight_buffers r)
| po_adjust_inflight r t n r' : Raft.adjust_max_inflight_msgs r t n = Done r' → plain_op r r'.

Lemma plain_host_op r r' : plain_op r r' → host_op r r'.
Proof.
  intros Hop. destruct Hop as [r i t r' Hs|r i r' Hs|r i r' Hs|r r' Hs|r b r' Hs|r ids r' Hs|r es|r|r t n r' Hs].
  - exact (op_persist_entries r i t r' Hs).
  - exact (op_persist_snap r i r' Hs).
  - exact (op_commit_apply r i r' Hs).
  - exact (op_ping r r' Hs).
  - exact (op_enable_group_commit r b r' Hs).
  - exact (op_assign_commit_groups r ids r' Hs).
  - apply op_reduce_uncommitted.
  - apply op_free_buffers.
  - exact (op_adjust_inflight r t n r' Hs).
Qed.

(** Requests without a message. *)
Definition local (m : Message) : Prop := m_msg_type m ∈ [MsgHup; MsgBeat; MsgCheckQuorum] ∧ m_term m = 0 ∧ m_entries m = [].

Lemma local_types m : local m → m_msg_type m ≠ MsgAppend ∧ m_msg_type m ≠ MsgHeartbeat ∧ m_msg_type m ≠ MsgRequestVote ∧
  m_msg_type m ≠ MsgAppendResponse ∧ m_msg_type m ≠ MsgRequestPreVote ∧ m_msg_type m ≠ MsgRequestPreVoteResponse ∧
  m_msg_type m ∉ [MsgSnapshot; MsgSnapStatus; MsgReadIndexResp].
Proof. intros [Hin _]. set_unfold in Hin. destruct Hin as [->|[->|[->|[]]]]; set_solver. Qed.

Lemma local_turn m r r' : local m → turn m r r' → turn default_Message r r'.
Proof.
  intros Hl [A B C D E F G]. destruct (local_types m Hl) as (Na & Nh & Nv & Nk & Np & Nr & _).
  assert (∀ v, learned m r r' v → learned default_Message r r' v) as Hln.
  { intros v [| | ? ? (? & _)|]; [by apply ln_none|by apply ln_same|done|by apply ln_self]. }
  split; try done.
  - intros m' Hm. destruct (B m' Hm) as [|[]]; [by left|right..]; [by apply ut_spoken|apply ut_voiced; auto|done].
  - destruct C; [by apply vd_none|by apply vd_same|by apply vd_self|done].
  - intros Hst. destruct (D Hst) as [? HL]. split; [done|auto].
  - right; right; right. change (m_term default_Message) with 0. lia.
Qed.

Lemma local_ready m r : local m → log_ok (Raft.raft_log r) → room 1 r → Raft.batch_append r = false → witness_free r →
  (Raft.state r = Leader → all_fit r) → Raft.term r < u64_max → ready_for m r.
Proof.
  intros Hl Hok Hr Hb Hw Hf Ht. destruct (local_types m Hl) as (Na & Nh & Nv & Nk & Np & Nr & Nt). destruct Hl as (_ & E0 & E).
  split; try done. by rewrite E, len_nil. unfold u64_max. rewrite E0. lia.
Qed.

(** A leader's turn without a message. *)
Lemma knows_local_turn k (A : N → N → Prop) r r' : knows k A r r' → able k A r → Raft.state r = Leader →
  (∀ v j, A v j → v = Raft.id r ∧ j ≤ persisted r') → Raft.vote r' = Raft.vote r → turn default_Message r r'.
Proof.
  intros K Ha Hl Hack Ev. destruct (K Ha) as [I C Sd M G F]. pose proof (gr_term _ _ _ G) as T.
  assert (∀ v, learned default_Message r r' v) as Hln.
  { intros v. destruct (M v) as [_ [E|HA]]; [by apply ln_same|]. destruct (Hack _ _ HA) as [-> ?]. by apply ln_self. }
  split; try done.
  - intros m' Hm. destruct (Sd m' Hm) as [|]; [by left|right]. apply ut_voiced; auto.
  - by apply vd_same.
  - right; right; right. change (m_term default_Message) with 0. lia.
Qed.

(** A turn in which nothing is said and the log stays. *)
Lemma silent_turn r r' : log_ok (Raft.raft_log r) → view r' = view r → committed r' = committed r →
  Raft.id r' = Raft.id r → Raft.term r' = Raft.term r → Raft.vote r' = Raft.vote r → Raft.msgs r' = Raft.msgs r →
  Raft.state r' ≠ Leader → turn default_Message r r'.
Proof.
  intros Hok V C I T Vo Ms St. split; try done; [rewrite Ms; by left|by apply vd_same|by left].
Qed.

Lemma maybe_persist_index r i t l b : RaftLog.maybe_persist (Raft.raft_log r) i t = Done (l, b) → log_ok (Raft.raft_log r) →
  b = true → RaftLog.persisted l = i ∧ i ≤ last_of r.
Proof.
  intros Hs Hok ->. pose proof (maybe_persist_same_log r i t l true Hs) as [_ _ Hl _]. destruct (Hl Hok) as [[Hwf Hix] Ev]. simpl in *.
  assert (RaftLog.persisted l = i) as Ep by (unfold RaftLog.maybe_persist in Hs; by inv_done Hs). split; [done|].
  pose proof (log_view_offset _ Hwf). destruct Hix as [_ _ _ Hp]. rewrite <-Ev. lia.
Qed.

(** A node that has fallen behind in nothing: what the turns of the host need. *)
Record idle r : Prop := mk_idle {
  id_ok : log_ok (Raft.raft_log r);
  id_room : room 1 r;
  id_batch : Raft.batch_append r = false;
  id_witness : witness_free r;
  id_fit : Raft.state r = Leader → all_fit r
}.

Lemma idle_able k A r : idle r → Raft.state r = Leader → k ≤ 1 → (∀ v j, A v j → j ≤ last_of r) → able k A r.
Proof. intros [? ? ? ? ?] Hl Hk HA. split; try done; [lia|auto]. Qed.

Abbreviation nothing := (λ (_ _ : N), False).

Lemma sends_turn r r' : sends r r' → idle r → Raft.state r = Leader → turn default_Message r r'.
Proof.
  intros Hs Hi Hl. eapply (knows_local_turn 0 nothing); [by apply sends_knows|by apply idle_able|done|done|].
  by destruct Hs as [[] _ _ _].
Qed.

Lemma commit_turn r r1 b r' : Raft.maybe_commit r = Done (r1, b) → r' = r1 ∨ Raft.bcast_append r1 = Done r' →
  witness_free r → knows 0 nothing r r' ∧ Raft.vote r' = Raft.vote r ∧ persisted r' = persisted r.
Proof.
  intros Hm Hr Hw. pose proof (maybe_commit_knows nothing _ _ _ Hm Hw) as K.
  pose proof (maybe_commit_calm _ _ _ Hm) as [_ [? Ev _]].
  assert (persisted r1 = persisted r) as Ep.
  { unfold Raft.maybe_commit in Hm. apply outcome_bind_Done in Hm as (r0 & Hq & Hm). apply replicate_witnesses_quiet in Hq.
    destruct (log_read_fields _ _ (q_log _ _ Hq)) as (_ & _ & <- & _).
    inv_done Hm; apply log_maybe_commit_mono in Hc as [_ ->]; done. }
  destruct Hr as [->|Hbc]; [done|]. pose proof (bcast_append_quiet _ _ Hbc) as Hq. apply bcast_append_sends in Hbc.
  split_and!; [eapply knows_trans0; [exact K|by apply sends_knows]|rewrite (q_vote _ _ Hq); done|].
  destruct (log_read_fields _ _ (q_log _ _ Hq)) as (_ & _ & -> & _). done.
Qed.

Lemma persist_turn r i t r' : Raft.on_persist_entries r i t = Done r' → idle r → turn default_Message r r'.
Proof.
  unfold Raft.on_persist_entries. intros Hs Hi. pose proof (id_ok _ Hi) as Hok.
  apply outcome_bind_Done in Hs as ([l b] & Hp & Hs). cbv zeta in Hs.
  pose proof (maybe_persist_same_log r i t l b Hp) as Hsl. pose proof (sl_log _ _ Hsl Hok) as [Hok1 Ev].
  pose proof (maybe_persist_fields _ _ _ _ _ Hp) as Ec. pose proof (maybe_persist_index _ _ _ _ _ Hp Hok) as Hix.
  set (r1 := r <| Raft.raft_log := l |>) in *.
  assert (knows 0 (λ v j, v = Raft.id r ∧ j = i) r r1) as K1 by (by apply upd_knows).
  destruct (b && _) eqn:E.
  2: { inv_done Hs. destruct (decide (Raft.state r = Leader)) as [Hl|Hl]; [|by apply silent_turn].
    eapply (knows_local_turn 0 nothing); [by apply upd_knows|by apply idle_able|done|done|done]. }
  apply andb_true_iff in E as [-> Hl%is_role_spec]. simpl in Hl. destruct (Hix eq_refl) as [Hpi Hlast].
  apply outcome_bind_Done in Hs as (p & Hg%unwrap_Done & Hs).
  pose proof (maybe_update_matched p i) as Em. pose proof (λ n Hn Hk, maybe_update_fits n p i Hn Hk) as Hfit.
  destruct (Progress.maybe_update p i) as [p2 up]. simpl in Em, Hfit.
  assert (knows 0 (λ v j, v = Raft.id r ∧ j = i) r (Raft.set_pr r1 (Raft.id r1) p2)) as K2.
  { eapply knows_trans0; [exact K1|]. eapply set_pr_knows; [exact Hg| |].
    - rewrite Em. destruct (N.ltb_spec (Progress.matched p) i); [right; split; [lia|done]|by left].
    - intros n Hn HA. apply Hfit; [done|]. by apply (HA (Raft.id r) i). }
  assert (∀ r2, knows 0 (λ v j, v = Raft.id r ∧ j = i) r r2 → persisted r2 = i → Raft.vote r2 = Raft.vote r →
    turn default_Message r r2) as Hk.
  { intros r2 K Hp2 Hv2. eapply knows_local_turn; [exact K|apply idle_able; [done|done|done|]|done| |done].
    - by intros v j [_ ->].
    - intros v j [-> ->]. by rewrite Hp2. }
  destruct up; [|inv_done Hs; by apply Hk]. unfold Raft.commit_and_bcast in Hs.
  apply outcome_bind_Done in Hs as ([r3 ad] & Hm & Hs).
  destruct (commit_turn _ _ _ r' Hm) as (K3 & Ev3 & Ep3).
  { destruct (_ && _); [by right|left; by inv_done Hs]. } { apply (id_witness _ Hi). }
  apply Hk; [|by rewrite Ep3|done]. eapply knows_trans0; [exact K2|]. by eapply knows_weaken.
Qed.

Lemma group_turn r r0 r' (c : bool) : sends r r0 → idle r → Raft.state r = Leader → witness_free r0 →
  (if c then '(r1, ad) ← Raft.maybe_commit r0; if (ad : bool) then Raft.bcast_append r1 else mret r1 else mret r0) = Done r' →
  turn default_Message r r'.
Proof.
  intros Hs Hi Hl Hw Hx. destruct c; [|inv_done Hx; by apply sends_turn].
  apply outcome_bind_Done in Hx as ([r1 ad] & Hm & Hx).
  destruct (commit_turn _ _ _ r' Hm) as (K & Ev & _); [destruct ad; [by right|left; by inv_done Hx]|done|].
  eapply (knows_local_turn 0 nothing); [|by apply idle_able|done|done|].
  - eapply knows_trans0; [by apply sends_knows|exact K].
  - rewrite Ev. by destruct Hs as [[] _ _ _].
Qed.

Lemma assign_groups_sends ids r r' : Raft.assign_groups ids r = Done r' → sends r r' ∧ (witness_free r → witness_free r') ∧
  Raft.msgs r' = Raft.msgs r.
Proof.
  revert r. induction ids as [|[p g] ids IH]; intros r Hs; cbn [Raft.assign_groups] in Hs; [inv_done Hs; by split_and!; [reflexivity|..]|].
  apply outcome_bind_Done in Hs as (? & _ & Hs). apply IH in Hs as (Hs & Hw & Hm).
  assert (sends r match Tracker.get (Raft.prs r) p with
    | Some pr => Raft.set_pr r p (pr <| Progress.commit_group_id := g |>) | None => r end) as Hs1.
  { destruct (Tracker.get (Raft.prs r) p) as [pr|] eqn:Hg; [|reflexivity].
    eapply (write_back_sends r p pr (pr <| Progress.commit_group_id := g |>)); [done|done|done|].
    split; [reflexivity|done|done|auto|by left]. }
  split_and!; [by etrans| |rewrite Hm; by destruct (Tracker.get (Raft.prs r) p)].
  intros Hwf. apply Hw. destruct (Tracker.get (Raft.prs r) p); done.
Qed.

Lemma commit_apply_turn r i r' : Raft.commit_apply r i = Done r' → idle r → turn default_Message r r'.
Proof.
  unfold Raft.commit_apply, Raft.commit_apply_internal. intros Hs Hi. cbn [negb] in Hs. pose proof (id_ok _ Hi) as Hok.
  apply outcome_bind_Done in Hs as (l & Hl & Hs). pose proof (applied_to_same_log r i l Hl) as Hsl.
  pose proof (sl_log _ _ Hsl Hok) as [_ Ev].
  assert (RaftLog.committed l = committed r) as Ec by (unfold RaftLog.applied_to in Hl; by inv_done Hl).
  set (r1 := r <| Raft.raft_log := l |>) in *.
  assert (knows 0 nothing r r1) as K1 by (by apply upd_knows).
  destruct (_ && Raft.is_role _ Leader) eqn:E.
  2: { inv_done Hs. destruct (decide (Raft.state r = Leader)) as [Hld|Hld]; [|by apply silent_turn].
    eapply (knows_local_turn 0 nothing); [exact K1|by apply idle_able|done|done|done]. }
  apply andb_true_iff in E as [_ Hld%is_role_spec]. simpl in Hld.
  apply outcome_bind_Done in Hs as ([r2 b] & Ha & Hs). pose proof (append_entry_calm _ _ _ _ Ha) as [_ [_ Ev2 _]].
  apply (append_entry_knows nothing 1) in Ha; [|done].
  assert (knows 1 nothing r r') as K.
  { pose proof (knows_trans 0 1 _ _ _ _ K1 Ha) as K2. destruct (negb b); [done|].
    inv_done Hs. assert (sends r2 (r2 <| Raft.pending_conf_index := x |>)) as Hsd by (apply silent_sends; [quiet_upd|done|done]).
    exact (knows_trans 1 0 _ _ _ _ K2 (sends_knows _ _ _ Hsd)). }
  eapply (knows_local_turn 1 nothing); [exact K|by apply idle_able|done|done|].
  destruct (negb b); [done|]. inv_done Hs. exact Ev2.
Qed.

Lemma plain_op_turn r r' : plain_op r r' → idle r → turn default_Message r r'.
Proof.
  intros Hop Hi. pose proof (id_ok _ Hi) as Hok.
  destruct Hop as [r i t r' Hs|r i r' Hs|r i r' Hs|r r' Hs|r b r' Hs|r ids r' Hs|r es|r|r t n r' Hs];
    [by eapply persist_turn| |by eapply commit_apply_turn|..].
  - pose proof (on_persist_snap_same_log _ _ _ Hs) as Hsl. pose proof (sl_log _ _ Hsl Hok) as [_ Ev].
    unfold Raft.on_persist_snap in Hs. apply outcome_bind_Done in Hs as ([l b] & Hl & Hs). inv_done Hs.
    pose proof (maybe_persist_snap_fields _ _ _ _ Hl) as Ec.
    destruct (decide (Raft.state r = Leader)) as [Hld|Hld]; [|by apply silent_turn].
    eapply (knows_local_turn 0 nothing); [by apply upd_knows|by apply idle_able|done|done|done].
  - unfold Raft.ping in Hs. destruct (Raft.is_role r Leader) eqn:E.
    + apply is_role_spec in E. apply sends_turn; [|done|done]. by eapply bcast_heartbeat_with_ctx_sends.
    + inv_done Hs. apply silent_turn; try done. intros E'%is_role_spec. congruence.
  - unfold Raft.enable_group_commit in Hs. cbv zeta in Hs. set (r0 := upd Raft.prs _ r) in Hs.
    destruct (decide (Raft.state r = Leader)) as [Hld|Hld].
    + eapply (group_turn r r0 _ (Raft.is_role r0 Leader && negb b)); [|done|done|apply (id_witness _ Hi)|exact Hs].
      apply peers_sends; [quiet_upd|]. intros v. unfold Tracker.get. simpl. destruct (Tracker.progress _ !! v); by constructor.
    + unfold Raft.is_role in Hs. rewrite bool_decide_eq_false_2 in Hs by done. injection Hs as <-. by apply silent_turn.
  - unfold Raft.assign_commit_groups in Hs. apply outcome_bind_Done in Hs as (r0 & Hg & Hs).
    pose proof (assign_groups_quiet _ _ _ Hg) as Hq. apply assign_groups_sends in Hg as (Hsd & Hw & Em).
    destruct (decide (Raft.state r = Leader)) as [Hld|Hld].
    + eapply (group_turn r r0 _ (Raft.is_role r0 Leader && Raft.group_commit r0)); [done|done|done|apply Hw, (id_witness _ Hi)|exact Hs].
    + unfold Raft.is_role in Hs. rewrite bool_decide_eq_false_2 in Hs by (rewrite (q_state _ _ Hq); done). injection Hs as <-.
      destruct (quiet_last _ _ Hq Hok) as [_ Ev]. pose proof (quiet_unmoved _ _ Hq) as Hu. unfold unmoved in Hu.
      apply silent_turn; try done; try apply Hq. by rewrite (q_state _ _ Hq).
  - destruct (decide (Raft.state r = Leader)) as [Hld|Hld].
    + apply sends_turn; [|done|done]. unfold Raft.reduce_uncommitted_size. case_match; [reflexivity|].
      apply silent_sends; [quiet_upd|done|done].
    + assert (Raft.reduce_uncommitted_size r es = r) as ->; [|by apply silent_turn].
      unfold Raft.reduce_uncommitted_size, Raft.is_role. by rewrite bool_decide_eq_false_2.
  - destruct (decide (Raft.state r = Leader)) as [Hld|Hld]; [|by apply silent_turn].
    apply sends_turn; [|done|done]. apply peers_sends; [quiet_upd|]. intros v. unfold Tracker.get. simpl. rewrite lookup_fmap.
    destruct (Tracker.progress _ !! v); by constructor.
  - unfold Raft.adjust_max_inflight_msgs in Hs. destruct (Tracker.get (Raft.prs r) t) as [pr|] eqn:Hg.
    + apply outcome_bind_Done in Hs as (ins & _ & Hs). inv_done Hs.
      destruct (decide (Raft.state r = Leader)) as [Hld|Hld]; [|by apply silent_turn].
      eapply (knows_local_turn 0 nothing); [eapply set_pr_knows; [done|by left|done]|by apply idle_able|done|done|done].
    + inv_done Hs. destruct (decide (Raft.state r' = Leader)) as [Hld|Hld]; [|by apply silent_turn].
      apply sends_turn; [reflexivity|done|done].
Qed.

(** ** Ticks *)
Lemma beat_sends r i r' x : Raft.step_leader r (new_message INVALID_ID MsgBeat (Some i)) = Done (r', x) →
  Raft.has_witness r = false → sends r r'.
Proof.
  unfold Raft.step_leader, Raft.ok, Raft.bcast_heartbeat. simpl. intros Hs Hw. apply outcome_bind_Done in Hs as (r1 & Hb & Hs).
  pose proof (bcast_heartbeat_with_ctx_quiet _ _ _ Hb) as Hq. apply bcast_heartbeat_with_ctx_sends in Hb.
  assert (Raft.has_witness r1 = false) as Hw1 by (unfold Raft.has_witness in *; by rewrite (q_conf _ _ Hq)).
  rewrite Hw1 in Hs. by inv_done Hs.
Qed.

Lemma tick_heartbeat_turn r r' b : Raft.tick_heartbeat r = Done (r', b) → idle r → Raft.state r = Leader →
  turn default_Message r r'.
Proof.
  intros Hs Hi Hl. unfold Raft.tick_heartbeat in Hs. cbv zeta in Hs. set (r0 := upd Raft.election_elapsed _ _) in Hs.
  assert (sends r r0) as S0 by (apply silent_sends; [quiet_upd|done|done]).
  apply outcome_bind_Done in Hs as ([r1 h1] & H1' & Hs).
  assert (∀ r1, sends r r1 → Raft.has_witness r1 = false ∧ Raft.state r1 = Leader) as Hkeep.
  { intros r2 [Q _ _ _]. unfold Raft.has_witness. rewrite (q_conf _ _ Q), (q_state _ _ Q). split; [apply (id_witness _ Hi)|done]. }
  assert (sends r r1 ∨ stands_down r r1) as Hc.
  { destruct (_ <=? _); [|inv_done H1'; by left]. apply outcome_bind_Done in H1' as ([r2 h2] & H2' & H1').
    assert (sends r r2 ∨ stands_down r r2) as Hc.
    { destruct (Raft.check_quorum _); [|inv_done H2'; left; etrans; [exact S0|apply silent_sends; [quiet_upd|done|done]]].
      apply outcome_bind_Done in H2' as ([r3 y] & H3' & H2'). inv_done H2'.
      rewrite step_local in H3' by (done || set_solver). unfold Raft.step_leader, Raft.ok in H3'. simpl in H3'. inv_done H3'.
      set (r4 := upd Raft.election_elapsed _ r0) in *.
      assert (sends r r4) as S4 by (etrans; [exact S0|apply silent_sends; [quiet_upd|done|done]]).
      destruct (handle_check_quorum_knows _ _ Hc) as [S5|[D1 D2 D3 D4 D5 D6 D7]]; [apply (id_witness _ Hi)|left; by etrans|right; by split]. }
    injection H1' as <- <-. destruct (_ && _) eqn:E; [|done].
    apply andb_true_iff in E as [E%is_role_spec _]. destruct Hc as [S2|[_ D _ _ _ _ _]]; [left|congruence].
    etrans; [exact S2|apply silent_sends; [quiet_upd|done|done]]. }
  clear H1'. destruct Hc as [S1|D].
  - destruct (Hkeep _ S1) as [Hw1 Hl1]. unfold Raft.is_role in Hs. rewrite Hl1 in Hs. rewrite bool_decide_eq_true_2 in Hs by done. cbn [negb] in Hs.
    destruct (_ <=? _); [|inv_done Hs; by apply sends_turn]. apply outcome_bind_Done in Hs as ([r2 y] & H2' & Hs). inv_done Hs.
    rewrite step_local in H2' by (done || set_solver). apply beat_sends in H2'; [|done].
    apply sends_turn; [|done|done]. etrans; [exact S1|]. etrans; [|exact H2']. apply silent_sends; [quiet_upd|done|done].
  - pose proof (dn_state _ _ D) as Hf. unfold Raft.is_role in Hs. rewrite Hf in Hs. rewrite bool_decide_eq_false_2 in Hs by done.
    cbn [negb] in Hs. inv_done Hs. by apply down_turn; [|apply Hi].
Qed.

Lemma tick_turn r r' b : Raft.tick r = Done (r', b) → idle r → Raft.term r < u64_max → turn default_Message r r'.
Proof.
  intros Hs Hi Hb. unfold Raft.tick in Hs.
  assert (Raft.state r ≠ Leader → Raft.tick_election r = Done (r', b) → turn default_Message r r') as Hel.
  { clear Hs. intros Hnl Hs. unfold Raft.tick_election in Hs. cbv zeta in Hs.
    destruct (_ || _); [inv_done Hs; by apply silent_turn; [apply Hi|..]|].
    apply outcome_bind_Done in Hs as ([r1 y] & H1' & Hs). inv_done Hs.
    set (m := new_message _ _ _) in H1'. assert (local m) as Hl by (split; [set_solver|done]).
    apply (local_turn m); [done|]. set (r0 := upd Raft.election_elapsed _ _) in H1'.
    assert (turn m r0 r') as Ht.
    { eapply step_turn; [exact H1'| |done]. destruct Hi as [? ? ? ? ?]. by apply local_ready. }
    by eapply turn_upd. }
  destruct (Raft.state r) eqn:E; try (apply Hel; [congruence|done]); by eapply tick_heartbeat_turn.
Qed.
End host_turns.
