(* ===== verification/Agreement.v ===== *)
(** * What a cluster agrees on

    The protocol the nodes follow, without messages, indexes or storage: every
    member has a term and a log, votes for candidates whose log is up to date,
    receives parts of the log of its term's leader, and acknowledges what it
    has safely.  The log a term was won with and the entries its leader
    created are remembered for good.  An entry is chosen when a quorum has
    acknowledged it in its own term; all later leaders then have it, so that
    what is committed anywhere is the same everywhere. *)
From stdpp Require Import functions.
From S2P Require Import Prelude Errors Eraftpb Quorum Cluster.

Section agreement.
Context `{HashOrder} (c : Joint.Configuration).
#[local] Set Default Proof Using "All".

Abbreviation log := (list Entry).

Record astate : Type := mkA {
  a_term : N → N;
  a_log : N → log;
  a_disk : N → log;                  (* what survives a restart *)
  a_commit : N → nat;
  a_hard : N → nat;                  (* the commit index that does *)
  a_votes : N → N → option N;        (* voter, term: its candidate *)
  a_camp : N → N → option log;       (* candidate, term: the log it campaigned with *)
  a_base : N → option log;           (* term: the log it was won with *)
  a_own : N → log;                   (* term: the entries its leader created *)
  a_acks : N → N → nat → Prop;       (* member, term, length: about to be acknowledged *)
  a_sent : N → N → nat → Prop        (* acknowledged *)
}.
#[local] Instance eta_astate : Eta astate := λ s,
  mkA (a_term s) (a_log s) (a_disk s) (a_commit s) (a_hard s) (a_votes s) (a_camp s) (a_base s) (a_own s) (a_acks s) (a_sent s).

Implicit Types (s : astate) (l m : log).

(** The log of the leader of a term. *)
Definition lead s (t : N) : log := default [] (a_base s t) ++ a_own s t.

Definition last_term l : N := match last l with Some e => e_term e | None => 0 end.

(** A vote is for a candidate whose log [m] is not behind one's own, [l]. *)
Definition up_to_date l m : Prop :=
  last_term l < last_term m ∨ last_term m = last_term l ∧ (length l ≤ length m)%nat.

(** Position [k] of the log of term [t] was created in it. *)
Definition own_position s (t : N) (k : nat) : Prop :=
  ∃ b, a_base s t = Some b ∧ (length b < k ≤ length (lead s t))%nat.

(** A quorum has acknowledged position [k] of term [t] in this term. *)
Definition chosen s (t : N) (k : nat) : Prop := own_position s t k ∧
  ∃ q : gset N, quorate_joint c (λ v, v ∈ q) ∧ ∀ v, v ∈ q → ∃ k', (k ≤ k')%nat ∧ a_sent s v t k'.

(** The first [k] entries of [l] are part of what was chosen by term [t]. *)
Definition safe s l (k : nat) (t : N) : Prop := k = 0%nat ∨
  ∃ t0 k0, chosen s t0 k0 ∧ t0 ≤ t ∧ (k ≤ k0)%nat ∧ take k l = take k (lead s t0).

(** [l] and [m] differ at position [p], where [l] may end. *)
Definition diverge l m (p : nat) : Prop := p = length l ∨
  ∃ x y, l !! p = Some x ∧ m !! p = Some y ∧ e_term x ≠ e_term y.

Inductive astep s : astate → Prop :=
| as_term u t : a_term s u ≤ t → astep s (s <| a_term ::= <[u := t]> |>)
| as_campaign u t : a_term s u < t →
    astep s (s <| a_term ::= <[u := t]> |> <| a_camp ::= λ f, <[u := <[t := Some (a_log s u)]> (f u)]> f |>)
| as_vote u j m : a_votes s u (a_term s u) = None → j ≠ 0 → a_camp s j (a_term s u) = Some m →
    up_to_date (a_log s u) m → astep s (s <| a_votes ::= λ h, remember h u (a_term s u) j |>)
| as_win j t m : a_base s t = None → won c (a_votes s) j t → a_camp s j t = Some m →
    astep s (s <| a_base ::= <[t := Some m]> |>)
| as_create u es : is_Some (a_base s (a_term s u)) → a_log s u = lead s (a_term s u) →
    Forall (λ e, e_term e = a_term s u) es →
    astep s (s <| a_own ::= λ f, <[a_term s u := f (a_term s u) ++ es]> f |> <| a_log ::= λ f, <[u := f u ++ es]> f |>)
| as_receive u n p : is_Some (a_base s (a_term s u)) → (p < n ≤ length (lead s (a_term s u)))%nat →
    take p (a_log s u) = take p (lead s (a_term s u)) → (p ≤ length (a_log s u))%nat →
    diverge (a_log s u) (lead s (a_term s u)) p →
    astep s (s <| a_log ::= <[u := take n (lead s (a_term s u))]> |>)
| as_write u n : (n ≤ length (a_log s u))%nat →
    (∀ k, take k (a_disk s u) = take k (a_log s u) → (k ≤ length (a_disk s u))%nat → (k ≤ length (a_log s u))%nat → (k ≤ n)%nat) →
    astep s (s <| a_disk ::= <[u := take n (a_log s u)]> |> <| a_hard ::= <[u := Nat.min (a_commit s u) n]> |>)
| as_restart u k : (k ≤ a_hard s u)%nat →
    astep s (s <| a_log ::= <[u := a_disk s u]> |> <| a_commit ::= <[u := k]> |> <| a_acks ::= <[u := a_sent s u]> |>)
| as_ack u k : is_Some (a_base s (a_term s u)) → (k ≤ length (lead s (a_term s u)))%nat →
    take k (a_log s u) = take k (lead s (a_term s u)) →
    astep s (s <| a_acks ::= λ f v t k', f v t k' ∨ v = u ∧ t = a_term s u ∧ k' = k |>)
| as_send u t k : a_acks s u t k → take k (a_disk s u) = take k (a_log s u) →
    astep s (s <| a_sent ::= λ f v t' k', f v t' k' ∨ v = u ∧ t' = t ∧ k' = k |>)
| as_commit u k : safe s (a_log s u) k (a_term s u) → astep s (s <| a_commit ::= <[u := k]> |>).

(** ** The invariant *)

(** Every entry of [l] was created by the leader of its term, after the
    entries that precede it in [l]. *)
Definition legal s l : Prop := ∀ k e, l !! k = Some e →
  own_position s (e_term e) (S k) ∧ take (S k) l = take (S k) (lead s (e_term e)).

(** The leader of [t1] lacks the first [k] entries of that of [t]. *)
Definition lacks s (t1 t : N) (k : nat) : Prop := ∃ b, a_base s t1 = Some b ∧ take k b ≠ take k (lead s t).

(** The log [l] of a member in term [tm] still has what it acknowledged, [A],
    or it was overwritten by a later leader that lacks it. *)
Definition held s (A : N → nat → Prop) l (tm : N) : Prop := ∀ t k, A t k →
  (t = tm → take k l = take k (lead s t)) ∧
  ∀ k', own_position s t k' → (k' ≤ k)%nat →
    take k' l = take k' (lead s t) ∨ ∃ t1, t < t1 ∧ t1 ≤ tm ∧ lacks s t1 t k'.

(** The log [m] has what [u] acknowledged in terms before [t'], or an earlier
    leader lacks it. *)
Definition informed s (u t' : N) m : Prop := ∀ t k, a_acks s u t k → t < t' →
  ∀ k', own_position s t k' → (k' ≤ k)%nat →
    take k' m = take k' (lead s t) ∨ ∃ t1, t < t1 ∧ t1 < t' ∧ lacks s t1 t k'.

Definition below (t : N) l : Prop := 0 < t ∧ ∀ e, e ∈ l → e_term e < t.
Definition upto (t : N) l : Prop := ∀ e, e ∈ l → e_term e ≤ t.

Record ainv s : Prop := mk_ainv {
  ai_log : ∀ u, legal s (a_log s u) ∧ upto (a_term s u) (a_log s u);
  ai_disk : ∀ u, legal s (a_disk s u) ∧ upto (a_term s u) (a_disk s u);
  ai_camp : ∀ j t m, a_camp s j t = Some m → legal s m ∧ below t m ∧ t ≤ a_term s j;
  ai_base : ∀ t b, a_base s t = Some b → legal s b ∧ below t b ∧
    ∃ vs : gmap N bool, Joint.vote_result c (λ k, vs !! k) = Won ∧
      ∀ u, vs !! u = Some true → t ≤ a_term s u ∧ informed s u t b;
  ai_own : ∀ t e, e ∈ a_own s t → is_Some (a_base s t) ∧ e_term e = t;
  ai_vote : ∀ u t j, a_votes s u t = Some j → t ≤ a_term s u ∧
    (a_base s t = None → ∃ m, a_camp s j t = Some m ∧ informed s u t m);
  ai_ack : ∀ u t k, a_acks s u t k → t ≤ a_term s u ∧ is_Some (a_base s t) ∧ (k ≤ length (lead s t))%nat;
  ai_sent : ∀ u t k, a_sent s u t k → a_acks s u t k;
  ai_held : ∀ u, held s (a_acks s u) (a_log s u) (a_term s u) ∧ held s (a_sent s u) (a_disk s u) (a_term s u);
  ai_safe : ∀ u, safe s (a_log s u) (a_commit s u) (a_term s u) ∧ safe s (a_disk s u) (a_hard s u) (a_term s u)
}.


(** ** Later states remember *)
Record aext s s' : Prop := mk_aext {
  ax_base : ∀ t b, a_base s t = Some b → a_base s' t = Some b;
  ax_own : ∀ t, is_Some (a_base s t) → ∃ es, a_own s' t = a_own s t ++ es;
  ax_sent : ∀ u t k, a_sent s u t k → a_sent s' u t k
}.

Lemma lead_ext s s' t : aext s s' → is_Some (a_base s t) → ∃ es, lead s' t = lead s t ++ es.
Proof.
  intros [B O _] [b Hb]. destruct (O t ltac:(eauto)) as [es E]. exists es. unfold lead.
  rewrite Hb, (B _ _ Hb), E. simpl. by rewrite (assoc_L (++)).
Qed.

Lemma lead_take s s' t k : aext s s' → is_Some (a_base s t) → (k ≤ length (lead s t))%nat →
  take k (lead s' t) = take k (lead s t).
Proof. intros Hx Hb Hk. destruct (lead_ext _ _ _ Hx Hb) as [es ->]. by apply take_app_le. Qed.

Lemma lead_length s s' t : aext s s' → is_Some (a_base s t) → (length (lead s t) ≤ length (lead s' t))%nat.
Proof. intros Hx Hb. destruct (lead_ext _ _ _ Hx Hb) as [es ->]. rewrite length_app. lia. Qed.

Lemma own_position_base s t k : own_position s t k → is_Some (a_base s t) ∧ (k ≤ length (lead s t))%nat.
Proof. intros (b & Hb & Hk). split; [eauto|lia]. Qed.

Lemma own_position_ext s s' t k : aext s s' → own_position s t k → own_position s' t k.
Proof.
  intros Hx Ho. pose proof (lead_length _ _ _ Hx (proj1 (own_position_base _ _ _ Ho))).
  destruct Ho as (b & Hb & Hk). exists b. split; [by apply Hx|lia].
Qed.

Lemma own_position_back s s' t k : aext s s' → is_Some (a_base s t) → own_position s' t k →
  (k ≤ length (lead s t))%nat → own_position s t k.
Proof.
  intros Hx [b Hb] (b' & Hb' & Hk) Hle. exists b. pose proof (ax_base _ _ Hx _ _ Hb). split; [done|].
  replace b' with b in Hk by congruence. lia.
Qed.

Lemma legal_ext s s' l : aext s s' → legal s l → legal s' l.
Proof.
  intros Hx Hl k e [Ho Ht]%Hl. split; [by eapply own_position_ext|]. rewrite Ht. symmetry.
  destruct (own_position_base _ _ _ Ho). by apply lead_take.
Qed.

Lemma lacks_ext s s' t1 t k : aext s s' → is_Some (a_base s t) → (k ≤ length (lead s t))%nat →
  lacks s t1 t k → lacks s' t1 t k.
Proof.
  intros Hx Hb Hk (b & Hb1 & Hne). exists b. split; [by apply Hx|]. by rewrite (lead_take s).
Qed.

Lemma chosen_ext s s' t k : aext s s' → chosen s t k → chosen s' t k.
Proof.
  intros Hx [Ho (q & Hq & Ha)]. split; [by eapply own_position_ext|]. exists q. split; [done|].
  intros v (k' & ? & ?)%Ha. exists k'. split; [done|by apply Hx].
Qed.

Lemma safe_ext s s' l k t t' : aext s s' → t ≤ t' → safe s l k t → safe s' l k t'.
Proof.
  intros Hx Ht [?|(t0 & k0 & Hc & ? & ? & E)]; [by left|right]. exists t0, k0.
  split_and!; [by eapply chosen_ext|lia|done|]. rewrite E. symmetry.
  destruct Hc as [Ho _]. destruct (own_position_base _ _ _ Ho). apply lead_take; [done|done|lia].
Qed.

(** No acknowledgement of [u] is new. *)
Definition same_acks s s' (u : N) : Prop := ∀ t k, a_acks s' u t k → a_acks s u t k.

Lemma held_ext s s' u A l tm tm' : aext s s' → ainv s → (∀ t k, A t k → a_acks s u t k) → tm ≤ tm' → a_term s u ≤ tm →
  held s A l tm → held s' A l tm'.
Proof.
  intros Hx Hi Hs Hle Htm Hh t k HA. pose proof (Hs _ _ HA) as Ha. destruct (ai_ack _ Hi _ _ _ Ha) as (Ht & Hb & Hk).
  destruct (Hh _ _ HA) as [H1' H2']. split.
  - intros ->. rewrite (lead_take s) by done. apply H1'. lia.
  - intros k' Ho Hk'. destruct (H2' k') as [E|(t1 & ? & ? & Hl)]; [by eapply own_position_back; [..|lia]|done|left|right].
    + rewrite (lead_take s) by (done || lia). done.
    + exists t1. split_and!; [done|lia|]. eapply lacks_ext; [done|done|lia|done].
Qed.

Lemma informed_ext s s' u t' m : aext s s' → ainv s → same_acks s s' u → informed s u t' m → informed s' u t' m.
Proof.
  intros Hx Hi Hs Hn t k Ha%Hs Hlt k' Ho Hk'. destruct (ai_ack _ Hi _ _ _ Ha) as (Ht & Hb & Hk).
  destruct (Hn _ _ Ha Hlt k') as [E|(t1 & ? & ? & Hl)]; [by eapply own_position_back; [..|lia]|done|left|right].
  - rewrite (lead_take s) by (done || lia). done.
  - exists t1. split_and!; [done|done|]. eapply lacks_ext; [done|done|lia|done].
Qed.

(** ** Logs *)
Lemma take_less l (k k' : nat) : (k' ≤ k)%nat → take k' (take k l) = take k' l.
Proof using. intros Hle. rewrite take_take. f_equal. lia. Qed.

Lemma take_shorter l m (k k' : nat) : take k l = take k m → (k' ≤ k)%nat → take k' l = take k' m.
Proof using.
  intros E Hle. rewrite <-(take_less l k k'), <-(take_less m k k') by done. by rewrite E.
Qed.

Lemma take_same_length l m (k : nat) : take k l = take k m → (k ≤ length m)%nat → (k ≤ length l)%nat.
Proof using. intros E Hk. apply (f_equal length) in E. rewrite !length_take in E. lia. Qed.

Lemma take_same_lookup l m (k i : nat) : take k l = take k m → (i < k)%nat → l !! i = m !! i.
Proof using. intros E Hi. rewrite <-(lookup_take_lt l k i), <-(lookup_take_lt m k i) by done. by rewrite E. Qed.

Lemma diverge_le l m p k : diverge l m p → take k l = take k m → (k ≤ length m)%nat → (k ≤ p)%nat.
Proof.
  intros Hd E Hk. destruct (decide (k ≤ p)%nat) as [|Hgt]; [done|exfalso].
  destruct Hd as [->|(x & y & Hx & Hy & Hne)]; [by pose proof (take_same_length _ _ _ E Hk)|].
  rewrite (take_same_lookup _ _ _ p E ltac:(lia)), Hy in Hx. congruence.
Qed.

Lemma last_lookup_pred l : last l = l !! (length l - 1)%nat.
Proof. rewrite last_lookup. f_equal. lia. Qed.

Lemma safe_length s l k t : safe s l k t → (k ≤ length l)%nat.
Proof.
  intros [->|(t0 & k0 & [Ho _] & _ & Hk & E)]; [lia|]. destruct (own_position_base _ _ _ Ho) as [_ Hl].
  eapply take_same_length; [done|lia].
Qed.

Section facts.
Context (s : astate) (Hi : ainv s).

Lemma lead_lookup t i x : lead s t !! i = Some x → ∃ b, a_base s t = Some b ∧
  ((i < length b)%nat ∧ e_term x < t ∨ (length b ≤ i)%nat ∧ e_term x = t).
Proof.
  unfold lead. intros Hx. destruct (a_base s t) as [b|] eqn:Hb; simpl in Hx.
  - exists b. split; [done|]. apply lookup_app_Some in Hx as [Hx|[Hge Hx]].
    + left. split; [by eapply lookup_lt_Some|]. destruct (ai_base _ Hi _ _ Hb) as (_ & [_ Hbl] & _).
      apply Hbl. by eapply list_elem_of_lookup_2.
    + right. split; [done|]. by apply list_elem_of_lookup_2, (ai_own _ Hi) in Hx as [_ ?].
  - apply list_elem_of_lookup_2, (ai_own _ Hi) in Hx as [[? ?] _]. congruence.
Qed.

Lemma own_position_term t k : own_position s t (S k) → ∃ e, lead s t !! k = Some e ∧ e_term e = t.
Proof.
  intros (b & Hb & Hk). destruct (lookup_lt_is_Some_2 (lead s t) k) as [e He]; [lia|]. exists e. split; [done|].
  destruct (lead_lookup _ _ _ He) as (b' & Hb' & [[? _]|[_ ?]]); [|done]. simplify_eq. lia.
Qed.

Lemma lead_legal t : legal s (lead s t).
Proof.
  intros k e He. destruct (lead_lookup _ _ _ He) as (b & Hb & [[Hk Hlt]|[Hk <-]]).
  - destruct (ai_base _ Hi _ _ Hb) as (Hl & _). unfold lead in He |- *. rewrite Hb in He |- *. simpl in He |- *.
    rewrite lookup_app_l in He by done. destruct (Hl _ _ He) as [Ho E]. split; [done|].
    rewrite take_app_le by lia. exact E.
  - split; [|done]. exists b. split; [done|]. apply lookup_lt_Some in He. lia.
Qed.

Lemma lead_upto t : upto t (lead s t).
Proof.
  intros e [k Hk]%list_elem_of_lookup. destruct (lead_lookup _ _ _ Hk) as (b & _ & [[_ ?]|[_ ?]]); lia.
Qed.

Lemma legal_take l n : legal s l → legal s (take n l).
Proof.
  intros Hl k e [He Hk]%lookup_take_Some. destruct (Hl _ _ He) as [Ho E]. split; [done|].
  by rewrite take_less by lia.
Qed.

(** A log is a part of the log of the leader of its last term. *)
Lemma legal_whole l : legal s l → l ≠ [] →
  own_position s (last_term l) (length l) ∧ l = take (length l) (lead s (last_term l)) ∧
  ∀ e, e ∈ l → e_term e ≤ last_term l.
Proof.
  intros Hl Hne. assert (∃ e, last l = Some e) as [e He] by (by apply last_is_Some).
  unfold last_term. rewrite He. rewrite last_lookup_pred in He. destruct (Hl _ _ He) as [Ho E].
  assert (S (length l - 1) = length l)%nat as En by (destruct l; [done|simpl; lia]). rewrite En in Ho, E.
  rewrite take_ge in E by done. split_and!; [done|done|]. intros x Hx. rewrite E in Hx.
  apply (lead_upto (e_term e)). by apply (elem_of_submseteq _ _ _ Hx), sublist_submseteq, sublist_take.
Qed.

(** A candidate whose log is up to date has what its voter holds. *)
Lemma up_to_date_informed u l m t' : legal s l → legal s m → below t' m → held s (a_acks s u) l t' → a_base s t' = None →
  up_to_date l m → informed s u t' m.
Proof.
  intros Hl Hm Hb Hh Hn Hu t k Ha Hlt k' Ho Hk'. destruct (proj2 (Hh t k Ha) k' Ho Hk') as [E|(t1 & ? & Hle & b & Hb1 & Hne)].
  2: { right. exists t1. split_and!; [done| |by exists b]. destruct (decide (t1 = t')) as [->|]; [congruence|lia]. }
  destruct (own_position_base _ _ _ Ho) as [_ Hkl]. pose proof (take_same_length _ _ _ E Hkl) as Hkl'.
  assert (∃ k0, k' = S k0) as [k0 ->] by (destruct Ho as (? & _ & ?); exists (k' - 1)%nat; lia).
  destruct (own_position_term _ _ Ho) as (e & He & Et).
  assert (e ∈ l) as Hin by (eapply list_elem_of_lookup_2; rewrite (take_same_lookup _ _ _ k0 E ltac:(lia)); exact He).
  destruct (legal_whole l Hl) as (_ & _ & Hup); [by intros ->; apply elem_of_nil in Hin|]. specialize (Hup e Hin).
  assert (m ≠ []) as Hne.
  { intros ->. unfold up_to_date, last_term at 2 3 in Hu. simpl in Hu. destruct Hu as [|[? ?]]; lia. }
  destruct (legal_whole m Hm Hne) as (Hom & Em & _). destruct Hom as (b & Hbm & Hbl).
  assert (last_term m < t') as Hlt'.
  { unfold last_term. destruct (last m) as [x|] eqn:Ex; [|by apply last_None in Ex].
    apply (proj2 Hb). rewrite last_lookup_pred in Ex. by eapply list_elem_of_lookup_2. }
  destruct (decide (last_term m = t)) as [Etm|Htm].
  - left. destruct Hu as [|[_ Hlen]]; [lia|]. rewrite Em, Etm, take_less by lia. done.
  - assert (t < last_term m) by (destruct Hu as [|[? _]]; lia).
    destruct (decide (take (S k0) b = take (S k0) (lead s t))) as [Eb|Hnb]; [left|right; exists (last_term m); split_and!; [done|done|by exists b]].
    pose proof (take_same_length _ _ _ Eb Hkl). rewrite <-Eb, Em, take_less by lia.
    unfold lead. rewrite Hbm. simpl. apply take_app_le. lia.
Qed.

(** ** Leader completeness *)
Lemma leader_complete (Hc : Joint.incoming c ≠ ∅) t k t' b : chosen s t k → a_base s t' = Some b → t < t' →
  take k b = take k (lead s t).
Proof.
  intros [Ho (q & [Hq _] & Hacks)]. revert b. induction (N.lt_wf_0 t') as [t' _ IH]. intros b Hb Hlt.
  destruct (ai_base _ Hi _ _ Hb) as (_ & _ & vs & [Hw _]%joint_Won & Hvs).
  destruct (quorate_overlap _ _ _ Hc Hw Hq) as (v & _ & Hv & Hvq). destruct (Hvs v Hv) as [_ Hin].
  destruct (Hacks v Hvq) as (k' & Hk & Ha). apply (ai_sent _ Hi) in Ha. destruct (Hin t k' Ha Hlt k Ho Hk) as [|(t1 & ? & ? & b1 & Hb1 & Hne)]; [done|].
  destruct Hne. by apply (IH t1).
Qed.

Lemma chosen_lead (Hc : Joint.incoming c ≠ ∅) t k t' : chosen s t k → is_Some (a_base s t') → t ≤ t' →
  take k (lead s t') = take k (lead s t).
Proof.
  intros Hch [b Hb] Hle. destruct (decide (t = t')) as [->|]; [done|].
  pose proof (leader_complete Hc t k t' b Hch Hb ltac:(lia)) as E. destruct Hch as [Ho _].
  destruct (own_position_base _ _ _ Ho) as [_ Hk]. pose proof (take_same_length _ _ _ E Hk).
  rewrite <-E. unfold lead. rewrite Hb. simpl. apply take_app_le. lia.
Qed.

Lemma safe_lead (Hc : Joint.incoming c ≠ ∅) l k t : safe s l k t → is_Some (a_base s t) →
  take k l = take k (lead s t) ∧ (k ≤ length (lead s t))%nat ∧ (k ≤ length l)%nat.
Proof.
  intros [->|(t0 & k0 & Hch & Ht & Hk & E)] Hb; [rewrite !take_0; split_and!; [done|lia|lia]|].
  pose proof (chosen_lead Hc _ _ _ Hch Hb Ht) as El. destruct (own_position_base _ _ _ (proj1 Hch)) as [_ Hl].
  pose proof (take_same_length _ _ _ El Hl). pose proof (take_same_length _ _ _ E ltac:(lia)).
  split_and!; [|lia|lia]. rewrite E. symmetry. by eapply take_shorter.
Qed.

Lemma safe_agree (Hc : Joint.incoming c ≠ ∅) l1 l2 k1 k2 t1 t2 : safe s l1 k1 t1 → safe s l2 k2 t2 →
  take (k1 `min` k2) l1 = take (k1 `min` k2) l2.
Proof.
  intros [->|(u1 & j1 & C1 & _ & K1 & E1)] [->|(u2 & j2 & C2 & _ & K2 & E2)];
    rewrite ?Nat.min_0_l, ?Nat.min_0_r, ?take_0; try done.
  eapply take_shorter in E1; [|apply Nat.le_min_l]. eapply take_shorter in E2; [|apply Nat.le_min_r].
  rewrite E1, E2. destruct (N.le_ge_cases u1 u2) as [Hle|Hle].
  - symmetry. eapply take_shorter; [eapply chosen_lead; [done|exact C1|apply (own_position_base _ _ _ (proj1 C2))|done]|lia].
  - eapply take_shorter; [eapply chosen_lead; [done|exact C2|apply (own_position_base _ _ _ (proj1 C1))|done]|lia].
Qed.
End facts.

(** ** Every step keeps the invariant *)
Lemma held_app s u l es tm : ainv s → held s (a_acks s u) l tm → held s (a_acks s u) (l ++ es) tm.
Proof.
  intros Hi Hh t k Ha. destruct (ai_ack _ Hi _ _ _ Ha) as (_ & _ & Hk). destruct (Hh t k Ha) as [H1' H2'].
  assert (∀ k0, take k0 l = take k0 (lead s t) → (k0 ≤ length (lead s t))%nat → take k0 (l ++ es) = take k0 (lead s t)) as Hl.
  { intros k0 E Hk0. rewrite take_app_le; [done|]. by eapply take_same_length. }
  split; [auto|]. intros k' Ho Hk'. destruct (H2' k' Ho Hk') as [E|]; [left|by right]. apply Hl; [done|lia].
Qed.

Lemma safe_app s l k t es : safe s l k t → safe s (l ++ es) k t.
Proof.
  intros Hs. pose proof (safe_length _ _ _ _ Hs). destruct Hs as [|(t0 & k0 & ? & ? & ? & E)]; [by left|right].
  exists t0, k0. split_and!; [done..|]. by rewrite take_app_le.
Qed.

Lemma safe_le s l k k' t : safe s l k t → (k' ≤ k)%nat → safe s l k' t.
Proof.
  intros [->|(t0 & k0 & ? & ? & ? & E)] Hle; [left; lia|right].
  exists t0, k0. split_and!; [done|done|lia|]. by eapply take_shorter.
Qed.

(** Receiving a part of the leader's log. *)
Lemma held_receive s u n p : ainv s → is_Some (a_base s (a_term s u)) →
  (p < n ≤ length (lead s (a_term s u)))%nat → take p (a_log s u) = take p (lead s (a_term s u)) →
  diverge (a_log s u) (lead s (a_term s u)) p → held s (a_acks s u) (take n (lead s (a_term s u))) (a_term s u).
Proof.
  intros Hi [b Hb] Hn Hp Hd. set (t' := a_term s u) in *. destruct (ai_held _ Hi u) as [Hh _]. fold t' in Hh.
  intros t k Ha. destruct (ai_ack _ Hi _ _ _ Ha) as (Ht & Hbt & Hk). fold t' in Ht. destruct (Hh t k Ha) as [H1' H2'].
  assert (∀ k0, take k0 (a_log s u) = take k0 (lead s t') → (k0 ≤ length (lead s t'))%nat →
    take k0 (take n (lead s t')) = take k0 (lead s t')) as Hkeep.
  { intros k0 E Hk0. pose proof (diverge_le _ _ _ _ Hd E Hk0). rewrite take_take. f_equal. lia. }
  split; [intros ->; by apply Hkeep; [apply H1'|]|]. intros k' Ho Hk'.
  destruct (decide (t = t')) as [->|Hne].
  { left. apply Hkeep; [|lia]. by eapply take_shorter; [apply H1'|]. }
  destruct (H2' k' Ho Hk') as [E|]; [|by right].
  destruct (decide (take k' b = take k' (lead s t))) as [Eb|Hnb].
  - left. pose proof (take_same_length _ _ _ Eb ltac:(lia)) as Hkb.
    assert (take k' (lead s t') = take k' b) as Eb' by (unfold lead; rewrite Hb; simpl; by apply take_app_le).
    rewrite Hkeep; [congruence|congruence|]. unfold lead. rewrite Hb. simpl. rewrite length_app. lia.
  - right. exists t'. split_and!; [lia|done|by exists b].
Qed.

Lemma safe_receive s u n p : Joint.incoming c ≠ ∅ → ainv s → is_Some (a_base s (a_term s u)) →
  (p < n ≤ length (lead s (a_term s u)))%nat → diverge (a_log s u) (lead s (a_term s u)) p →
  safe s (take n (lead s (a_term s u))) (a_commit s u) (a_term s u).
Proof.
  intros Hc Hi Hb Hn Hd. destruct (ai_safe _ Hi u) as [Hs _].
  destruct (safe_lead _ Hi Hc _ _ _ Hs Hb) as (E & Hk & _). pose proof (diverge_le _ _ _ _ Hd E Hk).
  destruct Hs as [->|(t0 & k0 & ? & ? & ? & E0)]; [by left|right]. exists t0, k0. split_and!; [done..|].
  rewrite take_less by lia. congruence.
Qed.

(** Steps that change nothing the others look at. *)
Lemma aext_refl s s' : (∀ t b, a_base s t = Some b → a_base s' t = Some b) → (∀ t, a_own s' t = a_own s t) →
  (∀ u t k, a_sent s u t k → a_sent s' u t k) → aext s s'.
Proof. intros HB HO HA. split; [done| |done]. intros t _. exists []. by rewrite app_nil_r. Qed.

(** What a step must show: the members' own logs, and whatever is new. *)
Lemma ainv_next s s' : ainv s → aext s s' →
  (∀ u, a_term s u ≤ a_term s' u) →
  (∀ u, legal s' (a_log s' u) ∧ upto (a_term s' u) (a_log s' u)) →
  (∀ u, legal s' (a_disk s' u) ∧ upto (a_term s' u) (a_disk s' u)) →
  (∀ j t m, a_camp s' j t = Some m → a_camp s j t = Some m ∨ legal s' m ∧ below t m ∧ t ≤ a_term s' j) →
  (∀ t b, a_base s' t = Some b → a_base s t = Some b ∨ legal s' b ∧ below t b ∧
    ∃ vs : gmap N bool, Joint.vote_result c (λ k, vs !! k) = Won ∧
      ∀ u, vs !! u = Some true → t ≤ a_term s' u ∧ informed s' u t b) →
  (∀ t e, e ∈ a_own s' t → is_Some (a_base s' t) ∧ e_term e = t) →
  (∀ u t j, a_votes s' u t = Some j → a_votes s u t = Some j ∨ t ≤ a_term s' u ∧
    (a_base s' t = None → ∃ m, a_camp s' j t = Some m ∧ informed s' u t m)) →
  (∀ j t m, a_camp s j t = Some m → a_camp s' j t = Some m) →
  (∀ u t k, a_acks s' u t k → a_acks s u t k ∨ t = a_term s' u ∧ is_Some (a_base s' t) ∧ (k ≤ length (lead s' t))%nat) →
  (∀ u t k, a_sent s' u t k → a_acks s' u t k) →
  (∀ u, held s' (a_acks s' u) (a_log s' u) (a_term s' u) ∧ held s' (a_sent s' u) (a_disk s' u) (a_term s' u)) →
  (∀ u, safe s' (a_log s' u) (a_commit s' u) (a_term s' u) ∧ safe s' (a_disk s' u) (a_hard s' u) (a_term s' u)) →
  ainv s'.
Proof.
  intros Hi Hx Ht Hl Hd Hcm Hb Ho Hv Hck Ha Hse Hh Hs.
  assert (∀ u t m, t ≤ a_term s u → informed s u t m → informed s' u t m) as Hin.
  { intros u t m Hle Hn t0 k Hak Hlt k' Ho' Hk'. destruct (Ha _ _ _ Hak) as [Hak0|(-> & _)].
    - assert (informed (s' <| a_acks := a_acks s |>) u t m) as Hn'.
      { eapply (informed_ext s); [|done|by intros ? ?|done]. destruct Hx. by split. }
      exact (Hn' t0 k Hak0 Hlt k' Ho' Hk').
    - specialize (Ht u). lia. }
  split; [done|done| | |done| | |done|done|done].
  - intros j t m Hm. destruct (Hcm _ _ _ Hm) as [Hm0|]; [|done]. destruct (ai_camp _ Hi _ _ _ Hm0) as (? & ? & ?).
    split_and!; [by eapply legal_ext|done|]. specialize (Ht j). lia.
  - intros t b Hbs. destruct (Hb _ _ Hbs) as [Hb0|]; [|done].
    destruct (ai_base _ Hi _ _ Hb0) as (? & ? & vs & Hw & Hvs). split_and!; [by eapply legal_ext|done|].
    exists vs. split; [done|]. intros u [Hle Hn]%Hvs. split; [specialize (Ht u); lia|auto].
  - intros u t j Hvt. destruct (Hv _ _ _ Hvt) as [Hv0|]; [|done]. destruct (ai_vote _ Hi _ _ _ Hv0) as [Hle Hn].
    split; [specialize (Ht u); lia|]. intros Hbn. destruct Hn as (m & Hm & Hinf); [|exists m; auto].
    destruct (a_base s t) eqn:E; [|done]. apply (ax_base _ _ Hx) in E. congruence.
  - intros u t k Hak. destruct (Ha _ _ _ Hak) as [Hak0|(-> & ? & ?)]; [|done].
    destruct (ai_ack _ Hi _ _ _ Hak0) as (? & Hbt & ?). pose proof (lead_length _ _ _ Hx Hbt).
    split_and!; [specialize (Ht u); lia| |lia]. destruct Hbt as [b Hbt]. exists b. by apply Hx.
Qed.

Lemma upto_mono t t' l : upto t l → t ≤ t' → upto t' l.
Proof. intros Hu Hle e He. specialize (Hu e He). lia. Qed.

(** Members that kept their logs and their acknowledgements hold them still. *)
Lemma members_held s s' : aext s s' → ainv s → a_acks s' = a_acks s → a_sent s' = a_sent s →
  (∀ u, a_term s u ≤ a_term s' u) →
  ∀ u, held s' (a_acks s' u) (a_log s u) (a_term s' u) ∧ held s' (a_sent s' u) (a_disk s u) (a_term s' u).
Proof.
  intros Hx Hi -> -> Ht u. destruct (ai_held _ Hi u). pose proof (ai_sent _ Hi u). split; by apply (held_ext s s' u _ _ (a_term s u)).
Qed.

Ltac a_member v u := destruct (decide (v = u)) as [->|?]; rewrite ?fn_lookup_insert, ?fn_lookup_insert_ne by done.

(** Raising terms, and campaigning in them. *)
Lemma ainv_terms s s' : ainv s → (∀ u, a_term s u ≤ a_term s' u) →
  s' = s <| a_term := a_term s' |> <| a_camp := a_camp s' |> →
  (∀ j t m, a_camp s j t = Some m → a_camp s' j t = Some m) →
  (∀ j t m, a_camp s' j t = Some m → a_camp s j t = Some m ∨ legal s m ∧ below t m ∧ t ≤ a_term s' j) → ainv s'.
Proof.
  intros Hi Ht E Hc1 Hc2. revert Ht Hc1 Hc2. generalize (a_term s') (a_camp s') E. clear E. intros tm cm -> Ht Hc1 Hc2.
  simpl in *. eapply (ainv_next s); simpl; try done; eauto.
  - by apply aext_refl.
  - intros u. destruct (ai_log _ Hi u). split; [done|by eapply upto_mono].
  - intros u. destruct (ai_disk _ Hi u). split; [done|by eapply upto_mono].
  - apply (ai_own _ Hi).
  - apply (ai_sent _ Hi).
  - exact (members_held s (s <| a_term := tm |> <| a_camp := cm |>) ltac:(by apply aext_refl) Hi eq_refl eq_refl Ht).
  - intros u. destruct (ai_safe _ Hi u). split; (eapply (safe_ext s); [by apply aext_refl|apply Ht|done]).
Qed.

Lemma ainv_vote s u j m : ainv s → a_votes s u (a_term s u) = None → j ≠ 0 → a_camp s j (a_term s u) = Some m →
  up_to_date (a_log s u) m → ainv (s <| a_votes ::= λ h, remember h u (a_term s u) j |>).
Proof.
  intros Hi Hn Hj Hm Hu. eapply (ainv_next s); simpl; try done; eauto.
  - by apply aext_refl.
  - apply (ai_log _ Hi).
  - apply (ai_disk _ Hi).
  - apply (ai_own _ Hi).
  - intros v t j' Hv. unfold remember in Hv. destruct (negb (j =? 0) && (v =? u) && (t =? a_term s u)) eqn:E; [right|by left].
    rewrite !andb_true_iff, !N.eqb_eq in E. destruct E as [[_ ->] ->]. injection Hv as <-. split; [done|].
    intros Hb. exists m. split; [done|]. destruct (ai_camp _ Hi _ _ _ Hm) as (? & ? & _).
    eapply (up_to_date_informed s Hi u (a_log s u)); [apply (ai_log _ Hi)|done|done|apply (ai_held _ Hi)|done|done].
  - apply (ai_sent _ Hi).
  - apply (ai_held _ Hi).
  - apply (ai_safe _ Hi).
Qed.

Lemma ainv_win s j t m : ainv s → a_base s t = None → won c (a_votes s) j t → a_camp s j t = Some m →
  ainv (s <| a_base ::= <[t := Some m]> |>).
Proof.
  intros Hi Hn (vs & Hw & Hvs) Hm. set (s' := s <| a_base ::= <[t := Some m]> |>).
  assert (∀ t0 b, a_base s t0 = Some b → a_base s' t0 = Some b) as Hb.
  { intros t0 b Hb. simpl. a_member t0 t; [congruence|done]. }
  assert (aext s s') as Hx by (by apply aext_refl). assert (∀ u, same_acks s s' u) as Hsa by (by intros u ? ?).
  destruct (ai_camp _ Hi _ _ _ Hm) as (Hml & Hmb & _).
  eapply (ainv_next s); simpl; try done; eauto.
  - intros u. destruct (ai_log _ Hi u). split; [by eapply legal_ext|done].
  - intros u. destruct (ai_disk _ Hi u). split; [by eapply legal_ext|done].
  - intros t0 b. a_member t0 t; [|by left]. intros [= <-]. right. split_and!; [by eapply legal_ext|done|].
    exists vs. split; [done|]. intros u Hu. destruct (ai_vote _ Hi _ _ _ (Hvs u Hu)) as [Hle Hinf]. split; [done|].
    destruct (Hinf Hn) as (m' & Hm' & ?). simplify_eq. by eapply informed_ext.
  - intros t0 e He. destruct (ai_own _ Hi _ _ He) as [[b Hb0] ?]. split; [exists b; by apply Hb|done].
  - apply (ai_sent _ Hi).
  - exact (members_held s s' Hx Hi eq_refl eq_refl ltac:(done)).
  - intros u. destruct (ai_safe _ Hi u). split; by eapply safe_ext.
Qed.

Lemma ainv_create s u es : ainv s → is_Some (a_base s (a_term s u)) → a_log s u = lead s (a_term s u) →
  Forall (λ e, e_term e = a_term s u) es →
  ainv (s <| a_own ::= λ f, <[a_term s u := f (a_term s u) ++ es]> f |> <| a_log ::= λ f, <[u := f u ++ es]> f |>).
Proof.
  intros Hi [b Hb] Hlog Hes. set (t := a_term s u) in *. set (s' := upd _ _ _).
  assert (aext s s') as Hx.
  { split; [done| |done]. intros t0 _. simpl. a_member t0 t; [by exists es|exists []; by rewrite app_nil_r]. }
  assert (∀ u, same_acks s s' u) as Hsa by (by intros v ? ?).
  assert (lead s' t = lead s t ++ es) as Hlead.
  { unfold lead. simpl. rewrite fn_lookup_insert, Hb. simpl. by rewrite (assoc_L (++)). }
  assert (∀ t0 e, e ∈ a_own s' t0 → is_Some (a_base s' t0) ∧ e_term e = t0) as Hown.
  { intros t0 e. simpl. a_member t0 t; [|apply (ai_own _ Hi)]. intros [He|He]%elem_of_app; [by apply (ai_own _ Hi)|].
    rewrite Forall_forall in Hes. split; [eauto|by apply Hes]. }
  eapply (ainv_next s); simpl; try done; eauto.
  - intros v. a_member v u; [|destruct (ai_log _ Hi v); split; [by eapply legal_ext|done]]. rewrite Hlog. fold t. split.
    + intros k e He. destruct (decide (k < length (lead s t))%nat) as [Hk|Hk].
      * rewrite lookup_app_l in He by done. destruct (legal_ext s s' _ Hx (lead_legal s Hi t) _ _ He) as [Ho E].
        split; [done|]. rewrite take_app_le by lia. exact E.
      * rewrite lookup_app_r in He by lia. pose proof (lookup_lt_Some _ _ _ He). apply list_elem_of_lookup_2 in He.
        rewrite Forall_forall in Hes. rewrite (Hes e He). fold t. split; [|by rewrite Hlead].
        exists b. split; [done|]. rewrite Hlead, length_app. unfold lead in *. rewrite Hb in *. simpl in *.
        rewrite length_app in *. lia.
    + intros e [He|He]%elem_of_app; [by apply (lead_upto s Hi)|]. rewrite Forall_forall in Hes. by rewrite (Hes e He).
  - intros v. destruct (ai_disk _ Hi v). split; [by eapply legal_ext|done].
  - apply (ai_sent _ Hi).
  - intros v. destruct (members_held s s' Hx Hi eq_refl eq_refl ltac:(done) v) as [Hh1 Hh2]. split; [|exact Hh2].
    a_member v u; [|exact Hh1]. apply (held_ext s s' u _ _ t); [done..|]. apply held_app; [done|apply (ai_held _ Hi)].
  - intros v. destruct (ai_safe _ Hi v). split; [|by eapply safe_ext]. a_member v u; [|by eapply safe_ext].
    eapply (safe_ext s); [done..|]. by apply safe_app.
Qed.

(** Steps of one member's log, disk and commit index. *)
Lemma ainv_local s s' : ainv s →
  s' = s <| a_log := a_log s' |> <| a_disk := a_disk s' |> <| a_commit := a_commit s' |> <| a_hard := a_hard s' |>
         <| a_acks := a_acks s' |> →
  (∀ u, legal s (a_log s' u) ∧ upto (a_term s u) (a_log s' u)) →
  (∀ u, legal s (a_disk s' u) ∧ upto (a_term s u) (a_disk s' u)) →
  (∀ u t k, a_acks s' u t k → a_acks s u t k) → (∀ u t k, a_sent s u t k → a_acks s' u t k) →
  (∀ u, held s (a_acks s' u) (a_log s' u) (a_term s u) ∧ held s (a_sent s u) (a_disk s' u) (a_term s u)) →
  (∀ u, safe s (a_log s' u) (a_commit s' u) (a_term s u) ∧ safe s (a_disk s' u) (a_hard s' u) (a_term s u)) → ainv s'.
Proof.
  intros Hi E. generalize (a_log s') (a_disk s') (a_commit s') (a_hard s') (a_acks s') E. clear E.
  intros lg dk cm hd ak -> Hl Hd Hak Hse Hh Hs.
  eapply (ainv_next s); simpl; try done; eauto; [by apply aext_refl|apply (ai_own _ Hi)].
Qed.

(** New acknowledgements of what the logs have. *)
Lemma ainv_acks s s' u k : ainv s → is_Some (a_base s (a_term s u)) → (k ≤ length (lead s (a_term s u)))%nat →
  take k (a_log s u) = take k (lead s (a_term s u)) →
  s' = s <| a_acks := a_acks s' |> <| a_sent := a_sent s' |> →
  (∀ v t k', a_acks s' v t k' → a_acks s v t k' ∨ v = u ∧ t = a_term s u ∧ k' = k) →
  (∀ v t k', a_sent s v t k' → a_sent s' v t k') → (∀ v t k', a_sent s' v t k' → a_acks s' v t k') →
  (∀ v, held s (a_sent s' v) (a_disk s v) (a_term s v)) → ainv s'.
Proof.
  intros Hi Hb Hk Hl E. generalize (a_acks s') (a_sent s') E. clear E. intros ak se -> Ha Hse1 Hse2 Hd. simpl in *.
  eapply (ainv_next s); simpl; try done; eauto.
  - by apply aext_refl.
  - apply (ai_log _ Hi).
  - apply (ai_disk _ Hi).
  - apply (ai_own _ Hi).
  - intros v t k' [?|(-> & -> & ->)]%Ha; [by left|by right].
  - intros v. split; [|exact (Hd v)]. intros t k' [Hk'|(-> & -> & ->)]%Ha.
    + exact (proj1 (ai_held _ Hi v) t k' Hk').
    + split; [done|]. intros k' _ Hk'. left. by eapply take_shorter.
  - intros v. destruct (ai_safe _ Hi v). split; (eapply (safe_ext s); [by apply aext_refl|done|done]).
Qed.

Lemma ainv_send s u t k : ainv s → a_acks s u t k → take k (a_disk s u) = take k (a_log s u) →
  ainv (s <| a_sent ::= λ f v t' k', f v t' k' ∨ v = u ∧ t' = t ∧ k' = k |>).
Proof.
  intros Hi Ha Hd. pose proof (ai_sent _ Hi) as Hse. set (s' := upd _ _ _).
  assert (aext s s') as Hx by (apply aext_refl; [done..|]; intros v t' k' ?; by left).
  eapply (ainv_next s); simpl; try done; eauto.
  - apply (ai_log _ Hi).
  - apply (ai_disk _ Hi).
  - apply (ai_own _ Hi).
  - intros v t' k' [?|(-> & -> & ->)]; auto.
  - intros v. destruct (ai_held _ Hi v) as [Hh1 Hh2]. split; [done|]. intros t' k' [?|(-> & -> & ->)]; [by apply Hh2|].
    destruct (Hh1 t k Ha) as [H1' H2']. split; [intros E; rewrite Hd; by apply H1'|].
    intros k' Ho Hk. rewrite (take_shorter _ _ k k' Hd Hk). by apply H2'.
  - intros v. destruct (ai_safe _ Hi v). split; (eapply (safe_ext s); [done|done|done]).
Qed.

(** Writing a part of the log that has all the disk has of it. *)
Lemma held_write s u n : ainv s → (n ≤ length (a_log s u))%nat →
  (∀ k, take k (a_disk s u) = take k (a_log s u) → (k ≤ length (a_disk s u))%nat → (k ≤ length (a_log s u))%nat → (k ≤ n)%nat) →
  held s (a_sent s u) (take n (a_log s u)) (a_term s u).
Proof.
  intros Hi Hn Hk t k Hse. pose proof (ai_sent _ Hi _ _ _ Hse) as Ha. destruct (ai_held _ Hi u) as [Hh1 Hh2].
  destruct (ai_ack _ Hi _ _ _ Ha) as (_ & _ & Hkl).
  assert (∀ k0, take k0 (a_disk s u) = take k0 (lead s t) → take k0 (a_log s u) = take k0 (lead s t) → (k0 ≤ k)%nat →
    take k0 (take n (a_log s u)) = take k0 (lead s t)) as Hkeep.
  { intros k0 Ed El Hk0. pose proof (take_same_length _ _ _ Ed ltac:(lia)). pose proof (take_same_length _ _ _ El ltac:(lia)).
    rewrite take_less; [done|]. apply Hk; [congruence|done|done]. }
  destruct (Hh1 t k Ha) as [L1 L2], (Hh2 t k Hse) as [D1 D2]. split; [intros E; by apply Hkeep; [apply D1|apply L1|]|].
  intros k' Ho Hk'. destruct (D2 k' Ho Hk') as [Ed|]; [|by right]. destruct (L2 k' Ho Hk') as [El|]; [left; by apply Hkeep|by right].
Qed.

Lemma safe_take s l k t n : safe s l k t → safe s (take n l) (Nat.min k n) t.
Proof.
  intros Hs. apply (safe_le _ _ _ (Nat.min k n)) in Hs; [|lia]. destruct Hs as [?|(t0 & k0 & ? & ? & ? & E)]; [by left|right].
  exists t0, k0. split_and!; [done..|]. rewrite take_less by lia. done.
Qed.

Lemma astep_ainv s s' : Joint.incoming c ≠ ∅ → ainv s → astep s s' → ainv s'.
Proof.
  intros Hc Hi Hst. pose proof (ai_sent _ Hi) as Hse.
  destruct Hst as [u t Ht|u t Ht|u j m Hn Hj Hm Hu|j t m Hn Hw Hm|u es Hb Hl Hes
    |u n p Hb Hn Hp Hle Hd|u n Hn Hk|u k Hk|u k Hb Hk Hl|u t k Ha Hd|u k Hs].
  - apply (ainv_terms s); try done; simpl; [|by left]. intros v. a_member v u; done.
  - assert (a_camp s u t = None) as Hfree.
    { destruct (a_camp s u t) eqn:E; [|done]. apply (ai_camp _ Hi) in E as (_ & _ & ?). lia. }
    apply (ainv_terms s); try done; simpl.
    + intros v. a_member v u; [lia|done].
    + intros j t0 m. a_member j u; [|done]. a_member t0 t; [congruence|done].
    + intros j t0 m. a_member j u; [|by left]. a_member t0 t; [|by left]. intros [= <-]. right.
      destruct (ai_log _ Hi u) as [Hl Hu]. split_and!; [done| |done].
      split; [lia|]. intros e He. specialize (Hu e He). lia.
  - by eapply ainv_vote.
  - by eapply ainv_win.
  - by apply ainv_create.
  - apply (ainv_local s); try done; simpl.
    + intros v. a_member v u; [|apply (ai_log _ Hi)]. split; [by apply legal_take, lead_legal|].
      intros e (i & He & _)%elem_of_take. apply list_elem_of_lookup_2 in He. by apply (lead_upto s Hi).
    + apply (ai_disk _ Hi).
    + intros v. destruct (ai_held _ Hi v). split; [|done]. a_member v u; [|done]. by eapply held_receive.
    + intros v. destruct (ai_safe _ Hi v). split; [|done]. a_member v u; [|done]. by eapply safe_receive.
  - apply (ainv_local s); try done; simpl; try apply Hi; intros v;
      [destruct (ai_log _ Hi v) as [Hl Hu], (ai_disk _ Hi v)|destruct (ai_held _ Hi v) as [Hh ?]|destruct (ai_safe _ Hi v)];
      a_member v u; try done.
    + split; [by apply legal_take|]. intros e (i & He & _)%elem_of_take. apply list_elem_of_lookup_2 in He. by apply Hu.
    + split; [done|by apply held_write].
    + split; [done|by apply safe_take].
  - apply (ainv_local s); try done; simpl; try apply Hi; intros v;
      [destruct (ai_log _ Hi v), (ai_disk _ Hi v)|intros t k'|intros t k'|destruct (ai_held _ Hi v)|destruct (ai_safe _ Hi v)];
      a_member v u; auto. split; [by eapply safe_le|done].
  - apply (ainv_acks s _ u k); try done; simpl; [|apply (ai_held _ Hi)]. intros v t k' ?. left. by apply Hse.
  - by apply ainv_send.
  - apply (ainv_local s); try done; simpl; try apply Hi. intros v. destruct (ai_safe _ Hi v). a_member v u; done.
Qed.

(** ** Logs that agree *)
Lemma legal_agree s l m (k : nat) x y : legal s l → legal s m → l !! k = Some x → m !! k = Some y →
  e_term x = e_term y → take (S k) l = take (S k) m.
Proof using. intros Hl Hm [_ El]%Hl [_ Em]%Hm E. by rewrite El, Em, E. Qed.

Lemma legal_term s l (k : nat) x : ainv s → legal s l → l !! k = Some x → e_term x ≠ 0.
Proof.
  intros Hi Hl [(b & Hb & _) _]%Hl. destruct (ai_base _ Hi _ _ Hb) as (_ & [? _] & _). lia.
Qed.

Lemma last_term_take l (k : nat) x : l !! k = Some x → last_term (take (S k) l) = e_term x.
Proof using.
  intros Hx. unfold last_term. rewrite last_lookup, length_take. pose proof (lookup_lt_Some _ _ _ Hx).
  replace (pred (S k `min` length l)) with k by lia. by rewrite lookup_take_lt, Hx by lia.
Qed.

(** Two logs whose parts of the same length end with the same term. *)
Lemma last_term_agree s l m (k : nat) : legal s l → legal s m → (k ≤ length l)%nat → (k ≤ length m)%nat →
  last_term (take k l) = last_term (take k m) → take k l = take k m.
Proof using.
  intros Hl Hm Kl Km E. destruct k as [|k]; [by rewrite !take_0|].
  destruct (lookup_lt_is_Some_2 l k Kl) as [x Hx], (lookup_lt_is_Some_2 m k Km) as [y Hy].
  rewrite (last_term_take _ _ _ Hx), (last_term_take _ _ _ Hy) in E. by eapply legal_agree.
Qed.

Lemma safe_transfer s l m k t t' : safe s l k t → take k l = take k m → t ≤ t' → safe s m k t'.
Proof.
  intros [->|(t0 & k0 & ? & ? & ? & E)] Em Ht; [by left|right]. exists t0, k0. split_and!; [done|lia|done|congruence].
Qed.

(** ** What the steps of one member leave to the others *)
Record ago (u : N) s s' : Prop := mk_ago {
  ag_ext : aext s s';
  ag_camp : ∀ j t m, a_camp s j t = Some m → a_camp s' j t = Some m;
  ag_votes : extends (a_votes s) (a_votes s');
  ag_terms : a_term s u ≤ a_term s' u;
  ag_other : ∀ v, v ≠ u → a_term s' v = a_term s v ∧ a_log s' v = a_log s v ∧ a_disk s' v = a_disk s v ∧
    a_commit s' v = a_commit s v ∧ a_hard s' v = a_hard s v ∧ ∀ t k, a_acks s v t k → a_acks s' v t k;
  ag_lead : ∀ t, is_Some (a_base s t) → lead s' t = lead s t ∨ won c (a_votes s') u t
}.

#[export] Instance ago_preorder u : PreOrder (ago u).
Proof.
  split.
  - intros s. split; [by apply aext_refl|done|by intros k|done|done|by left].
  - intros s1 s2 s3 [X1 C1 V1 T1 O1 L1] [X2 C2 V2 T2 O2 L2]. split.
    + split; [intros t b Hb; by apply X2, X1| |intros v t k Hk; by apply X2, X1].
      intros t [b Hb]. destruct (ax_own _ _ X1 t) as [e1 E1]; [by exists b|].
      destruct (ax_own _ _ X2 t) as [e2 E2]; [exists b; by apply X1|]. exists (e1 ++ e2).
      by rewrite E2, E1, (assoc_L (++)).
    + auto.
    + intros k t j Hj. by apply V2, V1.
    + lia.
    + intros v Hv. destruct (O1 v Hv) as (? & ? & ? & ? & ? & A1), (O2 v Hv) as (? & ? & ? & ? & ? & A2).
      split_and!; [congruence..|auto].
    + intros t [b Hb]. destruct (L2 t) as [E2|]; [exists b; by apply X1| |by right].
      destruct (L1 t) as [E1|W1]; [by exists b|left; congruence|right; by eapply won_mono].
Qed.

(** ** Where members start: empty logs, nothing voted for, won or acknowledged. *)
Record ainit s : Prop := mk_ainit {
  an_log : ∀ u, a_log s u = [] ∧ a_disk s u = [] ∧ a_commit s u = 0%nat ∧ a_hard s u = 0%nat;
  an_none : ∀ j t, a_votes s j t = None ∧ a_camp s j t = None ∧ a_base s t = None ∧ a_own s t = [];
  an_acks : ∀ u t k, ¬ a_acks s u t k ∧ ¬ a_sent s u t k
}.

Lemma ainit_ainv s : ainit s → ainv s.
Proof.
  intros [Hl Hn Ha].
  assert (∀ t, legal s [] ∧ upto t []) as Hnil by (split; [by intros ? ? ?|intros e He; by apply elem_of_nil in He]).
  split.
  - intros u. destruct (Hl u) as (-> & _). apply Hnil.
  - intros u. destruct (Hl u) as (_ & -> & _). apply Hnil.
  - intros j t m Hm. destruct (Hn j t) as (_ & E & _). congruence.
  - intros t b Hb. destruct (Hn 0 t) as (_ & _ & E & _). congruence.
  - intros t e He. destruct (Hn 0 t) as (_ & _ & _ & E). rewrite E in He. by apply elem_of_nil in He.
  - intros u t j Hv. destruct (Hn u t) as (E & _). congruence.
  - intros u t k Hk. by apply Ha in Hk.
  - intros u t k Hk. by apply Ha in Hk.
  - intros u. split; intros t k Hk; by apply Ha in Hk.
  - intros u. destruct (Hl u) as (_ & _ & -> & ->). split; by left.
Qed.

Lemma reachable_ainv s0 s : Joint.incoming c ≠ ∅ → ainit s0 → rtc astep s0 s → ainv s.
Proof.
  intros Hc H0 Hr. apply ainit_ainv in H0. induction Hr as [|s0 s1 s Hst _ IH]; [done|]. apply IH. by eapply astep_ainv.
Qed.
End agreement.
