(* ===== verification/AgreementMoves.v ===== *)
(** * The moves of one member

    The steps of the protocol of [Agreement] that one member makes, each with
    what it leaves to the others and what it makes of the member's own term,
    log and commit index. *)
From stdpp Require Import functions.
From S2P Require Import Prelude Errors Eraftpb Quorum Cluster Agreement.

Section moves.
Context `{HashOrder} (c : Joint.Configuration) (Hc : Joint.incoming c ≠ ∅).
#[local] Set Default Proof Using "All".
#[local] Existing Instance eta_astate.
Implicit Types (s : astate) (l m : list Entry).

(** Member [u] goes from [s] to [s'], where its term, log and commit index are
    [t], [l] and [k]; it writes nothing and takes nothing back. *)
Record puts (u : N) s s' (t : N) l (k : nat) : Prop := mk_puts {
  pt_steps : rtc (astep c) s s';
  pt_ago : ago c u s s';
  pt_term : a_term s' u = t;
  pt_log : a_log s' u = l;
  pt_commit : a_commit s' u = k;
  pt_disk : a_disk s' u = a_disk s u;
  pt_hard : a_hard s' u = a_hard s u;
  pt_acks : ∀ t k, a_acks s u t k → a_acks s' u t k
}.

Lemma puts_refl u s : puts u s s (a_term s u) (a_log s u) (a_commit s u).
Proof. by split. Qed.

Lemma puts_trans u s1 s2 s3 t l k t' l' k' : puts u s1 s2 t l k → puts u s2 s3 t' l' k' → puts u s1 s3 t' l' k'.
Proof. intros [R1 A1 _ _ _ D1 H1' K1] [R2 A2 T L C D2 H2' K2]. split; [by etrans|by etrans|done..|congruence|congruence|auto]. Qed.

Lemma steps_ainv s s' : rtc (astep c) s s' → ainv c s → ainv c s'.
Proof. induction 1; [done|]. intros Hi. apply IHrtc. by eapply astep_ainv. Qed.

Lemma puts_ainv u s s' t l k : puts u s s' t l k → ainv c s → ainv c s'.
Proof. intros [R _ _ _ _ _ _ _]. by apply steps_ainv. Qed.

(** Members, terms and leaders a step does not name. *)
Ltac others := intros v Hv; simpl; rewrite ?fn_lookup_insert_ne by done; by split_and!.
Ltac own := simpl; rewrite ?fn_lookup_insert; done.

Lemma puts_term u t s : a_term s u ≤ t → ∃ s', puts u s s' t (a_log s u) (a_commit s u) ∧
  a_votes s' = a_votes s ∧ a_base s' = a_base s ∧ a_camp s' = a_camp s ∧ ∀ t', lead s' t' = lead s t'.
Proof.
  intros Ht. eexists. split_and!; [split; [by apply rtc_once, (as_term c s u t)| |own..]|done|done|done|done].
  split; [by apply (aext_refl c)|done|by intros k|simpl; by rewrite fn_lookup_insert|others|by left].
Qed.

Lemma puts_campaign u t s : ainv c s → a_term s u < t → u ≠ 0 → a_votes s u t = None →
  ∃ s', puts u s s' t (a_log s u) (a_commit s u) ∧ a_votes s' = remember (a_votes s) u t u ∧ a_base s' = a_base s ∧
    a_camp s' u t = Some (a_log s u) ∧ ∀ t', lead s' t' = lead s t'.
Proof.
  intros Hi Ht Hu Hn.
  assert (a_camp s u t = None) as Hfree.
  { destruct (a_camp s u t) eqn:E; [|done]. apply (ai_camp _ _ Hi) in E as (_ & _ & ?). lia. }
  set (s1 := s <| a_term ::= <[u := t]> |> <| a_camp ::= λ f, <[u := <[t := Some (a_log s u)]> (f u)]> f |>).
  assert (a_term s1 u = t) as Et by own. assert (a_camp s1 u t = Some (a_log s u)) as Ec by own.
  exists (s1 <| a_votes ::= λ h, remember h u t u |>). split_and!; [|done|done|done|done]. split; [..|done|done|done|done|done|done].
  - eapply rtc_l; [by apply as_campaign|]. apply rtc_once. fold s1.
    pose proof (as_vote c s1 u u (a_log s u)) as Hv. rewrite Et in Hv. apply Hv; [done|done|done|].
    right. done.
  - split.
    + by apply (aext_refl c).
    + intros j t' m Hm. simpl. destruct (decide (j = u)) as [->|]; rewrite ?fn_lookup_insert, ?fn_lookup_insert_ne by done; [|done].
      destruct (decide (t' = t)) as [->|]; rewrite ?fn_lookup_insert, ?fn_lookup_insert_ne by done; [congruence|done].
    + intros k t' j Hj. simpl. unfold remember. destruct (negb (u =? 0) && (k =? u) && (t' =? t)) eqn:E; [|done].
      rewrite !andb_true_iff, !N.eqb_eq in E. destruct E as [[_ ->] ->]. congruence.
    + simpl. rewrite fn_lookup_insert. lia.
    + others.
    + by left.
Qed.

Lemma puts_vote u j m s : a_votes s u (a_term s u) = None → j ≠ 0 → a_camp s j (a_term s u) = Some m →
  up_to_date (a_log s u) m → ∃ s', puts u s s' (a_term s u) (a_log s u) (a_commit s u) ∧
    a_votes s' = remember (a_votes s) u (a_term s u) j ∧ a_base s' = a_base s ∧ a_camp s' = a_camp s ∧
    ∀ t', lead s' t' = lead s t'.
Proof.
  intros Hn Hj Hm Hu. eexists. split_and!; [split; [by eapply rtc_once, (as_vote c s u j m)| |own..]|done|done|done|done].
  split; [by apply (aext_refl c)|done| |done|others|by left].
  intros k t' j' Hj'. simpl. unfold remember. destruct (negb (j =? 0) && (k =? u) && (t' =? a_term s u)) eqn:E; [|done].
  rewrite !andb_true_iff, !N.eqb_eq in E. destruct E as [[_ ->] ->]. congruence.
Qed.

(** Winning the term: the log is the leader's. *)
Lemma puts_win u s : ainv c s → a_base s (a_term s u) = None → won c (a_votes s) u (a_term s u) →
  a_camp s u (a_term s u) = Some (a_log s u) →
  ∃ s', puts u s s' (a_term s u) (a_log s u) (a_commit s u) ∧ a_votes s' = a_votes s ∧
    a_base s' (a_term s u) = Some (a_log s u) ∧ lead s' (a_term s u) = a_log s u ∧
    (∀ t, t ≠ a_term s u → a_base s' t = a_base s t).
Proof.
  intros Hi Hn Hw Hm. set (t := a_term s u) in *.
  assert (a_own s t = []) as Ho.
  { destruct (a_own s t) as [|e es] eqn:E; [done|]. destruct (ai_own _ _ Hi t e) as [[? ?] _]; [rewrite E; left|congruence]. }
  exists (s <| a_base ::= <[t := Some (a_log s u)]> |>). split_and!.
  - split; [eapply rtc_once, as_win; done| |done..]. split; [|done|by intros k|done|intros v Hv; by split_and!|].
    + apply (aext_refl c); [|done|done]. intros t' b Hb. simpl. destruct (decide (t' = t)) as [->|]; [congruence|].
      by rewrite fn_lookup_insert_ne.
    + intros t' [b Hb]. left. unfold lead. simpl. rewrite fn_lookup_insert_ne; [done|]. congruence.
  - done.
  - own.
  - unfold lead. simpl. rewrite fn_lookup_insert, Ho. simpl. by rewrite app_nil_r.
  - intros t' Ht. simpl. by rewrite fn_lookup_insert_ne.
Qed.

Lemma puts_create u es s : is_Some (a_base s (a_term s u)) → a_log s u = lead s (a_term s u) →
  won c (a_votes s) u (a_term s u) → Forall (λ e, e_term e = a_term s u) es →
  ∃ s', puts u s s' (a_term s u) (a_log s u ++ es) (a_commit s u) ∧ a_votes s' = a_votes s ∧ a_base s' = a_base s ∧
    a_camp s' = a_camp s ∧ lead s' (a_term s u) = a_log s u ++ es.
Proof.
  intros [b Hb] Hl Hw Hes. eexists. split_and!; [split; [by eapply rtc_once, as_create| |own..]|done|done|done|].
  - split; [|done|by intros k|done|others|].
    + split; [done| |done]. intros t _. simpl. destruct (decide (t = a_term s u)) as [->|].
      * rewrite fn_lookup_insert. by exists es.
      * rewrite fn_lookup_insert_ne by done. exists []. by rewrite app_nil_r.
    + intros t _. destruct (decide (t = a_term s u)) as [->|]; [by right|left]. unfold lead. simpl. by rewrite fn_lookup_insert_ne.
  - rewrite Hl. unfold lead. simpl. rewrite fn_lookup_insert, Hb. simpl. by rewrite (assoc_L (++)).
Qed.

Lemma puts_receive u n p s : is_Some (a_base s (a_term s u)) → (p < n ≤ length (lead s (a_term s u)))%nat →
  take p (a_log s u) = take p (lead s (a_term s u)) → (p ≤ length (a_log s u))%nat →
  diverge (a_log s u) (lead s (a_term s u)) p →
  ∃ s', puts u s s' (a_term s u) (take n (lead s (a_term s u))) (a_commit s u) ∧ a_votes s' = a_votes s ∧
    a_base s' = a_base s ∧ a_camp s' = a_camp s ∧ ∀ t, lead s' t = lead s t.
Proof.
  intros. eexists. split_and!; [split; [by eapply rtc_once, as_receive| |own..]|done|done|done|done].
  split; [by apply (aext_refl c)|done|by intros ?|done|others|by left].
Qed.

Lemma puts_ack u k s : is_Some (a_base s (a_term s u)) → (k ≤ length (lead s (a_term s u)))%nat →
  take k (a_log s u) = take k (lead s (a_term s u)) →
  ∃ s', puts u s s' (a_term s u) (a_log s u) (a_commit s u) ∧ a_votes s' = a_votes s ∧ a_base s' = a_base s ∧
    a_camp s' = a_camp s ∧ (∀ t, lead s' t = lead s t) ∧ a_acks s' u (a_term s u) k.
Proof.
  intros. eexists. split_and!; [split; [by eapply rtc_once, as_ack| |done..|by left]|done|done|done|done|by right].
  split; [by apply (aext_refl c)|done|by intros ?|done| |by left]. intros v Hv. simpl. split_and!; [done..|by left].
Qed.

(** What is stored counts as acknowledged by the member itself. *)
Lemma puts_send u t k s : a_acks s u t k → take k (a_disk s u) = take k (a_log s u) →
  ∃ s', puts u s s' (a_term s u) (a_log s u) (a_commit s u) ∧ a_votes s' = a_votes s ∧ a_base s' = a_base s ∧
    a_camp s' = a_camp s ∧ (∀ t, lead s' t = lead s t) ∧ a_sent s' u t k.
Proof.
  intros. eexists. split_and!; [split; [by eapply rtc_once, (as_send c s u t k)| |done..]|done|done|done|done|by right].
  split; [|done|by intros ?|done|done|by left]. apply (aext_refl c); [done|done|by left].
Qed.

Lemma puts_commit u k s : safe c s (a_log s u) k (a_term s u) →
  ∃ s', puts u s s' (a_term s u) (a_log s u) k ∧ a_votes s' = a_votes s ∧ a_base s' = a_base s ∧
    a_camp s' = a_camp s ∧ (∀ t, lead s' t = lead s t).
Proof.
  intros. eexists. split_and!; [split; [by eapply rtc_once, (as_commit c s u k)| |own..]|done|done|done|done].
  split; [by apply (aext_refl c)|done|by intros ?|done|others|by left].
Qed.
End moves.
