(* ===== verification/FullLog.v ===== *)
(** * The log behind a view

    A node's view starts after what it has compacted; the log it stands for
    has the compacted entries too.  How the operations on views act on these
    logs, and what an append of the leader makes of one. *)
From S2P Require Import Prelude Errors Eraftpb ProtoConf Util Unstable Storage RaftLog RaftLogSpec Quorum.
From S2P Require Import Inflights Progress Tracker ConfChange ReadOnly Config Witness Raft RaftFrame RaftElection.
From S2P Require Import Cluster RaftPromotion RaftReplication RaftLogSteps ClusterLog Agreement.

Abbreviation nat_of := N.to_nat.

(** The view [v] shows the end of the log [l]. *)
Definition full (l : list Entry) (v : stable_view) : Prop :=
  ∃ pre, l = pre ++ sv_ents v ∧ len pre = sv_dummy v ∧ ∀ t, sv_dummy_term v = Some t → t = last_term pre.

Section full.
Implicit Types (l L : list Entry) (m : Message) (v : stable_view).

Lemma full_length l v : full l v → length l = nat_of (vlast v).
Proof. intros (pre & -> & Hp & _). rewrite length_app. unfold vlast, len in *. lia. Qed.

Lemma full_dummy l v : full l v → (nat_of (sv_dummy v) ≤ length l)%nat.
Proof. intros Hf. rewrite (full_length _ _ Hf). unfold vlast. lia. Qed.

Lemma full_lookup l v i : full l v → sv_dummy v < i → vlookup v i = l !! (nat_of i - 1)%nat.
Proof.
  intros (pre & -> & Hp & _) Hi. unfold vlookup. rewrite (proj2 (N.ltb_lt _ _) Hi). unfold len in Hp.
  rewrite lookup_app_r by lia. f_equal. lia.
Qed.

Lemma full_term l v i t : full l v → vterm v i = Ok t → sv_dummy v ≤ i → i ≤ vlast v → t = last_term (take (nat_of i) l).
Proof.
  intros Hf Ht Hlo Hhi. destruct (decide (i = sv_dummy v)) as [->|Hne].
  - apply vterm_dummy in Ht. destruct Hf as (pre & -> & Hp & Hd). unfold len in Hp. rewrite take_app_le, take_ge by lia. auto.
  - destruct (proj2 (vlookup_is_Some v i)) as [e He]; [lia|]. rewrite (vterm_lookup _ _ _ He) in Ht. injection Ht as <-.
    rewrite (full_lookup l) in He by (done || lia). replace (nat_of i) with (S (nat_of i - 1)) by lia.
    symmetry. by apply last_term_take.
Qed.

Lemma full_vext l v new : full l v → full (l ++ new) (vext v new).
Proof. intros (pre & -> & Hp & Hd). exists pre. split_and!; [by rewrite <-(assoc_L (++))|done|done]. Qed.

Lemma full_start v : sv_dummy v = 0 → sv_ents v = [] → (∀ t, sv_dummy_term v = Some t → t = 0) → full [] v.
Proof. intros Hd He Ht. exists []. rewrite He, Hd. split_and!; [done|done|]. intros t Hs. by rewrite (Ht t Hs). Qed.

(** The log itself is determined by the compacted part and the view. *)
Lemma full_intro l v : (nat_of (sv_dummy v) ≤ length l)%nat → length l = nat_of (vlast v) →
  (∀ i e, vlookup v i = Some e → l !! (nat_of i - 1)%nat = Some e) →
  (∀ t, sv_dummy_term v = Some t → t = last_term (take (nat_of (sv_dummy v)) l)) → full l v.
Proof.
  intros Hd Hl Hlk Ht. exists (take (nat_of (sv_dummy v)) l). split_and!; [|unfold len; rewrite length_take; lia|done].
  rewrite <-(take_drop (nat_of (sv_dummy v)) l) at 1. f_equal. apply list_eq_same_length with (length (sv_ents v)).
  - done.
  - rewrite length_drop, Hl. unfold vlast, len. lia.
  - intros i x y Hi Hx Hy. rewrite lookup_drop in Hx.
    assert (vlookup v (sv_dummy v + 1 + N.of_nat i) = Some y) as Hv.
    { unfold vlookup. rewrite (proj2 (N.ltb_lt _ _)) by lia. rewrite <-Hy. f_equal. lia. }
    apply Hlk in Hv. replace (nat_of _ - 1)%nat with (nat_of (sv_dummy v) + i)%nat in Hv by lia. congruence.
Qed.

(** Logs whose views agree, and whose compacted parts do. *)
Lemma full_agree l l' v v' k : full l v → full l' v' → sv_dummy v' = sv_dummy v →
  take (nat_of (sv_dummy v)) l = take (nat_of (sv_dummy v)) l' →
  (∀ i, sv_dummy v < i → i ≤ k → vlookup v' i = vlookup v i) → take (nat_of k) l = take (nat_of k) l'.
Proof.
  intros Hf Hf' Ed Hp Hv. apply list_eq. intros j. destruct (decide (j < nat_of k)%nat) as [Hj|Hj].
  - rewrite !lookup_take_lt by done. destruct (decide (j < nat_of (sv_dummy v))%nat) as [Hd|Hd].
    + by apply (take_same_lookup _ _ _ _ Hp).
    + pose proof (Hv (N.of_nat j + 1) ltac:(lia) ltac:(lia)) as E.
      rewrite (full_lookup l'), (full_lookup l) in E by (done || lia).
      by replace (nat_of (N.of_nat j + 1) - 1)%nat with j in E by lia.
  - by rewrite !lookup_take_ge by lia.
Qed.

(** Cutting a view at either end. *)
Lemma vsub_last v v' : vsub v' v → vlast v' ≤ vlast v.
Proof.
  intros [Hd Hl _]. destruct (decide (vlast v' = sv_dummy v')) as [->|Hne]; [apply Hd|].
  destruct (proj2 (vlookup_is_Some v' (vlast v'))) as [e He]; [unfold vlast in *; lia|].
  apply Hl, mk_is_Some, vlookup_is_Some in He. lia.
Qed.

Lemma full_vsub l v v' : full l v → vsub v' v → full (take (nat_of (vlast v')) l) v'.
Proof.
  intros Hf Hs. pose proof (vsub_last _ _ Hs) as Hv. pose proof (full_length _ _ Hf) as Hlen.
  assert (length (take (nat_of (vlast v')) l) = nat_of (vlast v')) as Et by (rewrite length_take; lia).
  destruct Hs as [Hd Hl Ht]. assert (sv_dummy v' ≤ vlast v') by (unfold vlast; lia). apply full_intro.
  - rewrite Et. lia.
  - done.
  - intros i e He. pose proof (mk_is_Some _ _ He) as Hi%vlookup_is_Some. rewrite lookup_take_lt by lia.
    rewrite <-(full_lookup l v) by (done || lia). auto.
  - intros t Hdt. rewrite take_take, Nat.min_l by lia. apply (full_term l v); [done|auto|lia|lia].
Qed.

(** ** Appends of a leader *)
Lemma vmatched_stop v (es : list Entry) y : es !! vmatched v es = Some y → vterm v (e_index y) ≠ Ok (e_term y).
Proof. induction es as [|e es IH]; simpl; [done|]. case_bool_decide; simpl; [auto|]. by intros [= <-]. Qed.

(** The append [m] is a part of the leader's log [L]. *)
Record part_of (L : list Entry) (m : Message) : Prop := mk_part_of {
  po_entries : ∀ k e, m_entries m !! k = Some e → L !! (nat_of (m_index m) + k)%nat = Some e;
  po_length : (nat_of (m_index m) + length (m_entries m) ≤ length L)%nat;
  po_term : m_log_term m = last_term (take (nat_of (m_index m)) L)
}.

Lemma part_of_ext L es m : part_of L m → part_of (L ++ es) m.
Proof.
  intros [He Hl Ht]. split.
  - intros k e Hk. apply lookup_app_l_Some. auto.
  - rewrite length_app. lia.
  - by rewrite take_app_le by lia.
Qed.

Lemma part_of_drop L m (k : nat) : part_of L m → (k ≤ length (m_entries m))%nat →
  take (nat_of (m_index m) + k) L ++ drop k (m_entries m) = take (nat_of (m_index m) + length (m_entries m)) L.
Proof.
  intros [He Hl _] Hk. apply list_eq_same_length with (nat_of (m_index m) + length (m_entries m))%nat.
  - rewrite length_take. lia.
  - rewrite length_app, length_take, length_drop. lia.
  - intros i x y Hi Hx Hy. rewrite lookup_take_lt in Hy by done. apply lookup_app_Some in Hx as [Hx|[Hge Hx]].
    + apply lookup_take_Some in Hx as [Hx _]. congruence.
    + rewrite length_take, Nat.min_l in * by lia. rewrite lookup_drop in Hx. apply He in Hx.
      replace (nat_of (m_index m) + _)%nat with i in Hx by lia. congruence.
Qed.
End full.

Section receiving.
Context `{HashOrder} (c : Joint.Configuration) (s : astate) (Hi : ainv c s).
#[local] Set Default Proof Using "All".

(** A log that receives an append of the leader's log has all of it; what
    changes is where they diverge. *)
Lemma full_receive l v v' cm (L : list Entry) m : full l v → legal s l → legal s L → part_of L m → append_ok m →
  sv_dummy v ≤ cm → received v cm m v' →
  let n := (nat_of (m_index m) + length (m_entries m))%nat in
  v' = v ∧ take n l = take n L ∨
  ∃ p, v' ≠ v ∧ full (take n L) v' ∧ (p < n ≤ length L)%nat ∧ take p l = take p L ∧ (p ≤ length l)%nat ∧ diverge l L p.
Proof.
  intros Hf Hl HL Hp [Hct Hts _ _] Hd [Hix Ht _ ->] n. pose proof (full_length _ _ Hf) as Hlen. pose proof Hp as [Pe Pl Pt].
  set (k := vmatched v (m_entries m)). pose proof (vmatched_le v (m_entries m)) as Hk. fold k in Hk.
  pose proof (vmatched_last v _ _ Hct Hts ltac:(lia) ltac:(lia)) as Hlast. fold k in Hlast.
  assert (take (nat_of (m_index m) + k) l = take (nat_of (m_index m) + k) L) as Hag.
  { destruct k as [|k0] eqn:Ek.
    - rewrite Nat.add_0_r. apply (last_term_agree s); [done|done|lia|lia|]. rewrite <-Pt. symmetry.
      apply (full_term l v); [done|done|lia|lia].
    - destruct (lookup_lt_is_Some_2 (m_entries m) k0) as [e He]; [lia|].
      destruct (vmatched_lookup v (m_index m) (m_entries m) k0 e) as (e' & Hv & Ee); [done|done|lia|unfold k in Ek; lia|done|].
      rewrite (full_lookup l) in Hv by (done || lia).
      replace (nat_of _ - 1)%nat with (nat_of (m_index m) + k0)%nat in Hv by lia.
      rewrite Nat.add_succ_r. by eapply (legal_agree s); [done|done|exact Hv|by apply Pe|]. }
  unfold vreceive. fold k. destruct (decide (k = length (m_entries m))) as [E|Hne].
  { left. split; [done|]. unfold n. by rewrite <-E. }
  right. exists (nat_of (m_index m) + k)%nat. set (v' := vsplice _ _ _).
  assert (full (take n L) v') as Hf'.
  { unfold n. rewrite <-(part_of_drop _ _ k Hp Hk), <-Hag. destruct Hf as (pre & -> & Hpre & Hdt).
    exists pre. unfold len in Hpre. simpl. split_and!; [|done|done]. rewrite take_app_ge by lia.
    rewrite <-(assoc_L (++)). do 2 f_equal. f_equal. lia. }
  assert (diverge l L (nat_of (m_index m) + k)) as Hdv.
  { destruct (decide (nat_of (m_index m) + k = length l)%nat) as [|Hend]; [by left|right].
    destruct (lookup_lt_is_Some_2 l (nat_of (m_index m) + k)) as [x Hx]; [lia|].
    destruct (lookup_lt_is_Some_2 (m_entries m) k) as [y Hy]; [lia|].
    exists x, y. split_and!; [done|by apply Pe|]. intros Ee. apply (vmatched_stop v (m_entries m) y Hy).
    rewrite (contiguous_lookup _ _ _ _ Hct Hy), <-Ee. apply vterm_lookup. rewrite (full_lookup l) by (done || lia).
    rewrite <-Hx. f_equal. lia. }
  split_and!; [|done|lia|lia|done|lia|done]. intros Ev. rewrite Ev in Hf'.
  pose proof (full_length _ _ Hf') as Hn. rewrite length_take in Hn.
  destruct Hdv as [?|(x & y & Hx & Hy & Hne')]; [lia|]. apply Hne'.
  pose proof (full_lookup l v (m_index m + N.of_nat k + 1) Hf ltac:(lia)) as K1.
  pose proof (full_lookup _ v (m_index m + N.of_nat k + 1) Hf' ltac:(lia)) as K2. rewrite K1 in K2.
  replace (nat_of _ - 1)%nat with (nat_of (m_index m) + k)%nat in K2 by lia. rewrite lookup_take_lt in K2 by lia. congruence.
Qed.
End receiving.
