(* ===== verification/ClusterAgreement.v ===== *)
(** * A cluster keeps to the protocol

    The nodes of a cluster under one voter configuration, with hosts that
    store before they send, take the steps of the protocol of [Agreement]:
    what a node's log, storage and messages say is what its member of the
    protocol has logged, stored and acknowledged. *)
From S2P Require Import Prelude Errors Eraftpb ProtoConf Util Unstable Storage RaftLog RaftLogSpec Quorum.
From S2P Require Import Inflights Progress Tracker ConfChange ReadOnly Config Witness Raft RaftFrame RaftElection.
From S2P Require Import Cluster RaftPromotion RaftReplication RaftLogSteps RaftCommit ClusterLog.
From S2P Require Import RaftVoices RaftStore RaftSpeech RaftTurns RaftHostTurns Agreement AgreementMoves FullLog.

#[local] Abbreviation committed r := (RaftLog.committed (Raft.raft_log r)).
#[local] Abbreviation persisted r := (RaftLog.persisted (Raft.raft_log r)).
#[local] Abbreviation view r := (log_view (Raft.raft_log r)).
#[local] Abbreviation last_of r := (vlast (log_view (Raft.raft_log r))).
#[local] Abbreviation store_of r := (RaftLog.store (Raft.raft_log r)).
#[local] Abbreviation disk_of r := (st_view (RaftLog.store (Raft.raft_log r))).

(** Messages that speak of votes, entries or commit indexes: a network does
    not invent them. *)
Definition genuine (m : Message) : Prop :=
  m_msg_type m ∈ [MsgAppend; MsgAppendResponse; MsgHeartbeat] ∨ vote_message m.

(** An acknowledgement of entries. *)
Definition is_ack (m : Message) : Prop := m_msg_type m = MsgAppendResponse ∧ m_reject m = false.

(** ** Steps *)
Section steps.
Context {S : Type} `{StorageLaws S} `{HashOrder} `{Rand}.
Implicit Types (r : Raft.t S) (l : RaftLog.t S).

(** A node whose voters are [c], none of them a witness. *)
Definition settled (c : Joint.Configuration) r : Prop := voters_of r = c ∧ witness_free r.

(** The host stores a part of the log that has all the storage had of it, and
    may compact what is committed; [d] is the storage it leaves. *)
Record writes r l (d : S) : Prop := mk_writes {
  wr_log : stored (Raft.raft_log r) l;
  wr_commit : RaftLog.committed l = committed r;
  wr_snap : Unstable.snapshot (RaftLog.unstable l) = None;
  wr_wf : st_wf d;
  wr_view : st_view d = st_view (RaftLog.store l);
  wr_part : vsub (st_view d) (log_view l);
  wr_keeps : ∀ i e, vlookup (disk_of r) i = Some e → vlookup (view r) i = Some e → i ≤ vlast (st_view d);
  wr_hard : ∀ rs, st_initial_state d = Ok rs → hs_commit (Storage.hard_state rs) ≤ committed r
}.

(** The storage has the log up to index [k]. *)
Definition durable r (k : N) : Prop :=
  ∀ i, sv_dummy (view r) < i → i ≤ k → vlookup (disk_of r) i = vlookup (view r) i.

Inductive agree_step (c : Joint.Configuration) (x : log_cluster S) : log_cluster S → Prop :=
| gs_message i r m r' y :
    nodes (members x) !! i = Some r → (genuine m → m ∈ net (members x) ∧ m_to m = i) →
    m_msg_type m ∉ [MsgSnapshot; MsgSnapStatus; MsgReadIndexResp] →
    (m_msg_type m = MsgRequestPreVote → m_commit m = 0 ∨ m_term m ≤ Raft.term r + 1) →
    input_ok r m → room (1 + len (m_entries m)) r →
    Raft.step r m = Done (r', y) → settled c r' → agree_step c x (on_member x i r')
| gs_tick i r r' b :
    nodes (members x) !! i = Some r → Raft.term r < u64_max → room 2 r →
    Raft.tick r = Done (r', b) → settled c r' → agree_step c x (on_member x i r')
| gs_host i r r' :
    nodes (members x) !! i = Some r → room 1 r → plain_op r r' → settled c r' → agree_step c x (on_member x i r')
| gs_write i r l d :
    nodes (members x) !! i = Some r → writes r l d →
    agree_step c x (mkLogCluster (set_node (members x) i (r <| Raft.raft_log := l |>)) (<[i := d]> (disks x)))
| gs_send i r ms ms' :
    nodes (members x) !! i = Some r → (∀ m, m ∈ ms → m ∈ Raft.msgs r) → (∀ m, m ∈ ms' → m ∈ Raft.msgs r) →
    (∀ m, m ∈ ms → is_ack m → durable r (m_index m)) →
    agree_step c x (mkLogCluster (mkCluster (<[i := r <| Raft.msgs := ms' |>]> (nodes (members x)))
                      (witnesses (members x)) (net (members x) ++ ms)) (disks x))
| gs_restart i r cfg d rs r' :
    nodes (members x) !! i = Some r → disks x !! i = Some d →
    Config.id cfg = i → Config.batch_append cfg = false → st_initial_state d = Ok rs →
    hs_term (Storage.hard_state rs) = Raft.term r → hs_vote (Storage.hard_state rs) = Raft.vote r →
    Raft.new cfg d = Done (Ok r') → settled c r' →
    RaftLog.applied (Raft.raft_log r') ≤ committed r' → agree_step c x (on_member x i r')
| gs_lose ms :
    (∀ m, m ∈ ms → m ∈ net (members x)) →
    agree_step c x (mkLogCluster (mkCluster (nodes (members x)) (witnesses (members x)) ms) (disks x)).
End steps.

(** ** What messages say of the protocol *)
Section messages.
Context `{HashOrder} (c : Joint.Configuration).
#[local] Set Default Proof Using "All".
Implicit Types (s : astate) (m : Message).

(** The term whose log a vote message tells the commit index of. *)
Definition told_term m : N := if is_type m MsgRequestPreVote then m_term m - 1 else m_term m.

Record lead_append s m : Prop := mk_lead_append {
  la_ok : append_ok m;
  la_anchored : anchored m;
  la_nonzero : m_term m ≠ 0;
  la_base : is_Some (a_base s (m_term m));
  la_part : part_of (lead s (m_term m)) m;
  la_safe : safe c s (lead s (m_term m)) (nat_of (m_commit m)) (m_term m)
}.

Record lead_heartbeat s m : Prop := mk_lead_heartbeat {
  lh_nonzero : m_term m ≠ 0;
  lh_base : is_Some (a_base s (m_term m));
  lh_safe : safe c s (lead s (m_term m)) (nat_of (m_commit m)) (m_term m);
  lh_acked : m_commit m = 0 ∨ ∃ k, (nat_of (m_commit m) ≤ k)%nat ∧ a_sent s (m_to m) (m_term m) k
}.

Record told_commit s m (L : list Entry) : Prop := mk_told_commit {
  tc_legal : legal s L;
  tc_safe : safe c s L (nat_of (m_commit m)) (told_term m);
  tc_term : m_commit_term m = last_term (take (nat_of (m_commit m)) L);
  tc_reject : m_msg_type m = MsgRequestPreVoteResponse → m_reject m = true
}.

Record msg_rel s m : Prop := mk_msg_rel {
  mr_append : m_msg_type m = MsgAppend → lead_append s m;
  mr_heartbeat : m_msg_type m = MsgHeartbeat → lead_heartbeat s m;
  mr_call : m_msg_type m = MsgRequestVote → ∃ l, a_camp s (m_from m) (m_term m) = Some l ∧
    m_index m = len l ∧ m_log_term m = last_term l;
  mr_info : vote_message m → m_commit m = 0 ∨ ∃ L, told_commit s m L
}.

(** The acknowledgement [m] is one of [A]. *)
Definition acked (A : N → N → nat → Prop) m : Prop := is_ack m →
  m_index m = 0 ∨ m_term m ≠ 0 ∧ A (m_from m) (m_term m) (nat_of (m_index m)).

(** What was said stays true. *)
Lemma msg_rel_mono u s s' m : msg_rel s m → ago c u s s' → msg_rel s' m.
Proof.
  intros [Ma Mh Mc Mi] [X C _ _ _ _]. split.
  - intros [A1 A2 A3 A4 A5 A6]%Ma. destruct (lead_ext c _ _ _ X A4) as [es E].
    split; [done|done|done| | |].
    + destruct A4 as [b Hb]. exists b. by apply X.
    + rewrite E. by apply part_of_ext.
    + apply (safe_ext c s _ _ _ (m_term m)); [done|done|]. rewrite E. by apply safe_app.
  - intros [A1 A2 A3 A4]%Mh. destruct (lead_ext c _ _ _ X A2) as [es E]. split; [done| | |].
    + destruct A2 as [b Hb]. exists b. by apply X.
    + apply (safe_ext c s _ _ _ (m_term m)); [done|done|]. rewrite E. by apply safe_app.
    + destruct A4 as [|(k & ? & ?)]; [by left|right]. exists k. split; [done|by apply X].
  - intros (l & ? & ?)%Mc. exists l. split; [by apply C|done].
  - intros [|[L [? ? ? ?]]]%Mi; [by left|right]. exists L. split; [by eapply legal_ext|by apply (safe_ext c s _ _ _ (told_term m))|done|done].
Qed.

Lemma acked_mono (A A' : N → N → nat → Prop) m : acked A m → (∀ v t k, A v t k → A' v t k) → acked A' m.
Proof using. intros Ha Hs Hm. destruct (Ha Hm) as [|[? ?]]; [by left|right]. auto. Qed.
End messages.
