(* ===== verification/ClusterRefinement.v ===== *)
(** * The cluster refines the protocol

    The relation between a cluster and a state of the protocol of [Agreement],
    and the steps of the protocol that a node's turn takes: its term and vote,
    the terms it wins, its log, its acknowledgements, its commit index. *)
From S2P Require Import Prelude Errors Eraftpb ProtoConf Util Unstable Storage RaftLog RaftLogSpec Quorum.
From S2P Require Import Inflights Progress Tracker ConfChange ReadOnly Config Witness Raft RaftFrame RaftElection.
From S2P Require Import Cluster RaftPromotion RaftReplication RaftLogSteps RaftCommit ClusterLog.
From S2P Require Import RaftVoices RaftStore RaftSpeech RaftTurns RaftHostTurns Agreement AgreementMoves FullLog ClusterAgreement.

#[local] Abbreviation committed r := (RaftLog.committed (Raft.raft_log r)).
#[local] Abbreviation persisted r := (RaftLog.persisted (Raft.raft_log r)).
#[local] Abbreviation view r := (log_view (Raft.raft_log r)).
#[local] Abbreviation last_of r := (vlast (log_view (Raft.raft_log r))).
#[local] Abbreviation disk_of r := (st_view (RaftLog.store (Raft.raft_log r))).

Section relation.
Context {S : Type} `{StorageLaws S} `{HashOrder} `{Rand} (c : Joint.Configuration).
#[local] Set Default Proof Using "All".
Implicit Types (r : Raft.t S) (s : astate).

(** Node [i], in the state [r], as member [i] of the protocol. *)
Record node_rel s (i : N) r : Prop := mk_node_rel {
  nr_ok : log_ok (Raft.raft_log r);
  nr_batch : Raft.batch_append r = false;
  nr_snap : Raft.snap r = None;
  nr_witness : witness_free r;
  nr_term : a_term s i = Raft.term r;
  nr_log : full (a_log s i) (view r);
  nr_commit : a_commit s i = nat_of (committed r);
  nr_disk : full (a_disk s i) (disk_of r);
  nr_dummy : (nat_of (sv_dummy (disk_of r)) ≤ a_hard s i)%nat;
  nr_lead : Raft.state r = Leader → is_Some (a_base s (Raft.term r)) ∧ a_log s i = lead s (Raft.term r) ∧ all_fit r ∧
    ∀ v, matched_of r v = 0 ∨ a_sent s v (Raft.term r) (nat_of (matched_of r v));
  nr_cand : Raft.state r = Candidate → a_camp s i (Raft.term r) = Some (a_log s i);
  nr_msgs : ∀ m, m ∈ Raft.msgs r → msg_rel c s m ∧ acked (λ v t k, v = i ∧ a_acks s i t k) m
}.

(** What is on the disk of a node, to restart from. *)
Record disk_rel s (i : N) r (d : S) : Prop := mk_disk_rel {
  dr_wf : st_wf d;
  dr_view : st_view d = disk_of r;
  dr_hard : ∀ rs, st_initial_state d = Ok rs →
    (nat_of (N.min (hs_commit (Storage.hard_state rs)) (vlast (st_view d))) ≤ a_hard s i)%nat
}.

(** The term [t] was won by a node that cannot win it again. *)
Definition taken s (ns : gmap N (Raft.t S)) (t : N) : Prop := ∃ j r, ns !! j = Some r ∧ won c (a_votes s) j t ∧
  t ≤ Raft.term r ∧ (Raft.term r = t → Raft.state r ≠ Candidate).

Record agree_rel s (x : log_cluster S) : Prop := mk_agree_rel {
  ar_inv : ainv c s;
  ar_cluster : cluster_inv c (members x) (a_votes s);
  ar_node : ∀ i r, nodes (members x) !! i = Some r → node_rel s i r;
  ar_disk : ∀ i r d, nodes (members x) !! i = Some r → disks x !! i = Some d → disk_rel s i r d;
  ar_net : ∀ m, m ∈ net (members x) → msg_rel c s m ∧ acked (a_sent s) m;
  ar_owner : ∀ t, is_Some (a_base s t) → taken s (nodes (members x)) t
}.

(** The other nodes are as they were. *)
Lemma node_rel_other s s' u i r h : node_rel s i r → ago c u s s' → i ≠ u → Joint.incoming c ≠ ∅ →
  cluster_inv c h (a_votes s') → nodes h !! i = Some r → node_rel s' i r.
Proof.
  intros [A1 A2 A3 A4 A5 A6 A7 A8 A9 A10 A11 A12] G Hne Hc Hci Hi.
  destruct (ag_other _ _ _ _ G i Hne) as (T & L & D & C & Hd & Ak).
  split; rewrite ?T, ?L, ?D, ?C, ?Hd; try done.
  - intros Hl. destruct (A10 Hl) as ([b Hb] & El & Hf & Hm). split_and!; [exists b; by apply G| |done|].
    + destruct (ag_lead _ _ _ _ G _ (mk_is_Some _ _ Hb)) as [->|Hw]; [done|]. destruct Hne.
      eapply won_unique; [done| |exact Hw]. destruct (ci_node _ _ _ Hci i r Hi) as [Hok _]. by apply (no_lead _ _ _ _ Hok).
    + intros v. destruct (Hm v); [by left|right]. by apply G.
  - intros Hcd. apply (ag_camp _ _ _ _ G). auto.
  - intros m Hm. destruct (A12 m Hm) as [M K]. split; [by eapply msg_rel_mono|]. eapply acked_mono; [done|].
    intros v t k [? ?]. auto.
Qed.

Lemma taken_mono s s' ns t : taken s ns t → extends (a_votes s) (a_votes s') → taken s' ns t.
Proof. intros (j & r & ? & ? & ?) Hx. exists j, r. split_and!; [done|by eapply won_mono|naive_solver..]. Qed.

Lemma taken_move s ns i r r' t : taken s ns t → ns !! i = Some r → promotes r r' → taken s (<[i := r']> ns) t.
Proof.
  intros (j & rj & Hj & Hw & Ht & Hr) Hi Hp. destruct (decide (j = i)) as [->|Hne].
  - simplify_eq. exists i, r'. rewrite lookup_insert_eq. pose proof (adv_term _ _ (pm_adv _ _ Hp)).
    split_and!; [done|done|lia|]. intros E Hcd. destruct (pm_cand _ _ Hp Hcd) as [[? ?]|?]; [|lia]. apply Hr; [lia|done].
  - exists j, rj. by rewrite lookup_insert_ne.
Qed.
End relation.

(** ** The facts of a turn *)
Section phases.
Context {S : Type} `{StorageLaws S} `{HashOrder} `{Rand} (c : Joint.Configuration) (Hc : Joint.incoming c ≠ ∅).
#[local] Set Default Proof Using "All".
Implicit Types (r : Raft.t S) (s : astate).

(** Node [i] took a turn on the message [m]. *)
Record took s (m : Message) (i : N) r r' : Prop := mk_took {
  tk_moves : ∃ G, moves G r r' ∧ ∀ k, G k → a_votes s k (Raft.term r') = Some i;
  tk_promotes : promotes r r';
  tk_sound : sound r r';
  tk_effect : log_effect m r r';
  tk_commit : commit_effect m r r';
  tk_turn : turn m r r';
  tk_reads : reads r r';
  tk_settled : settled c r';
  tk_types : m_msg_type m ∉ [MsgSnapshot; MsgSnapStatus; MsgReadIndexResp];
  tk_genuine : genuine m → msg_rel c s m ∧ acked (a_sent s) m ∧ m_to m = i;
  tk_pre : m_msg_type m = MsgRequestPreVote → m_commit m = 0 ∨ m_term m ≤ Raft.term r + 1;
  tk_from : m_msg_type m = MsgRequestVote → m_from m ≠ 0
}.

(** The node leads throughout, or does so now. *)
Definition leading r r' : Prop := Raft.state r = Leader ∧ Raft.term r' = Raft.term r ∨ Raft.state r' = Leader.

Context (s : astate) (x : log_cluster S) (i : N) (m : Message) (r r' : Raft.t S).
Context (Hrel : agree_rel c s x) (Hi : nodes (members x) !! i = Some r) (Htk : took s m i r r').

Abbreviation history' := (remember (a_votes s) i (Raft.term r') (Raft.vote r')).

Lemma turn_cluster : cluster_inv c (set_node (members x) i r') history' ∧ extends (a_votes s) history'.
Proof.
  destruct (tk_moves _ _ _ _ _ Htk) as (G & Hmv & HG).
  eapply (cluster_inv_moved G); [apply Hrel|done|done|apply Htk|done].
Qed.

Lemma turn_node : node_ok c (a_votes s) i r.
Proof. by apply (ci_node _ _ _ (ar_cluster _ _ _ Hrel)). Qed.

Lemma turn_node' : node_ok c history' i r'.
Proof. apply (ci_node _ _ _ (proj1 turn_cluster)). simpl. by rewrite lookup_insert_eq. Qed.

Lemma call_rel : m_msg_type m = MsgRequestVote → m_term m ≠ 0 ∧ ∃ l, a_camp s (m_from m) (m_term m) = Some l ∧
  m_index m = len l ∧ m_log_term m = last_term l.
Proof.
  intros Hty. destruct (tk_genuine _ _ _ _ _ Htk) as (Hm & _ & _).
  { right. unfold vote_message. rewrite Hty. set_solver. }
  destruct (mr_call _ _ _ Hm Hty) as (l & Hl & ?). split; [|by exists l].
  apply (ai_camp _ _ (ar_inv _ _ _ Hrel)) in Hl as (_ & [? _] & _). lia.
Qed.

(** *** The term and the vote *)
Lemma vote_phase : ∃ s1, puts c i s s1 (Raft.term r') (a_log s i) (a_commit s i) ∧
  (∀ k t, a_votes s1 k t = history' k t) ∧ a_base s1 = a_base s ∧ (∀ t, lead s1 t = lead s t) ∧
  (Raft.term r < Raft.term r' → Raft.vote r' = i → a_camp s1 i (Raft.term r') = Some (a_log s i)).
Proof.
  pose proof (ar_node _ _ _ Hrel i r Hi) as Hn. pose proof (nr_term _ _ _ _ Hn) as Ht.
  pose proof turn_node as [Hid Hnz _ Hv _ _ _ _]. destruct turn_cluster as [_ Hx]. pose proof turn_node' as [Hid' _ _ _ _ _ _ _].
  pose proof (adv_term _ _ (pm_adv _ _ (tk_promotes _ _ _ _ _ Htk))) as Hle.
  pose proof (ar_inv _ _ _ Hrel) as Hai.
  destruct (tu_vote _ _ _ (tk_turn _ _ _ _ _ Htk)) as [E|Et Ev|Hlt Ev|t Hty Ev Htm Hview Hvt Hup].
  - destruct (puts_term c Hc i (Raft.term r') s) as (s1 & P1 & V1 & B1 & _ & L1); [lia|]. exists s1.
    split_and!; [done| |done|done|congruence]. intros k t. by rewrite V1, E.
  - exists s. split_and!; [|..|done|done|lia].
    + rewrite Et, <-Ht. by apply puts_refl.
    + intros k t. unfold remember. destruct (negb (Raft.vote r' =? 0) && (k =? i) && (t =? Raft.term r')) eqn:E; [|done].
      rewrite !andb_true_iff, negb_true_iff, N.eqb_neq, !N.eqb_eq in E. destruct E as [[Hz ->] ->].
      rewrite Et, Ev in *. by apply (vo_vote _ _ _ _ Hv).
  - destruct (puts_campaign c Hc i (Raft.term r') s) as (s1 & P1 & V1 & B1 & C1 & L1); [done|lia|done| |].
    { apply (vo_later _ _ _ _ Hv). lia. }
    exists s1. split_and!; [done| |done|done|done]. intros k t. rewrite V1. congruence.
  - destruct (call_rel Hty) as (Hmz & l & Hl & Hix & Hlt). assert (Raft.term r' = m_term m) as Etm by (destruct Htm; done).
    destruct (puts_term c Hc i (Raft.term r') s) as (s1 & P1 & V1 & B1 & C1 & L1); [lia|].
    pose proof P1 as [_ _ Et1 El1 Ec1 _ _ _].
    assert (Raft.term r < Raft.term r' → Raft.vote r' = i → a_camp s i (Raft.term r') = Some (a_log s i)) as Hcamp.
    { intros Hlt' Hself. rewrite <-Ev, Hself, <-Etm in Hl. apply (ai_camp _ _ Hai) in Hl as (_ & _ & ?). lia. }
    destruct (a_votes s i (Raft.term r')) as [j|] eqn:Hj.
    + exists s1. split_and!; [done| |done|done|by rewrite C1]. intros k t'. rewrite V1. pose proof (Hx _ _ _ Hj) as Hj'.
      rewrite remember_same in Hj'. destruct (N.eqb_spec (Raft.vote r') 0) as [E|]; [by rewrite E|]. injection Hj' as Hj'.
      unfold remember. destruct (_ && _) eqn:E; [|done]. rewrite !andb_true_iff, !N.eqb_eq in E. destruct E as [[_ ->] ->]. congruence.
    + destruct (puts_vote c Hc i (m_from m) l s1) as (s2 & P2 & V2 & B2 & C2 & L2).
      * by rewrite Et1, V1.
      * by apply (tk_from _ _ _ _ _ Htk).
      * by rewrite Et1, C1, Etm.
      * rewrite El1. pose proof (nr_log _ _ _ _ Hn) as Hf. pose proof (full_length _ _ Hf) as Hlen. unfold up_to_date.
        assert (t = last_term (a_log s i)) as ->.
        { erewrite (full_term _ _ _ t Hf Hvt); [|unfold vlast; lia|lia]. by rewrite take_ge by lia. }
        rewrite <-Hlt. destruct Hup as [|[? ?]]; [by left|right]. split; [done|]. unfold len in *. lia.
      * rewrite Et1, El1, Ec1 in P2. exists s2. split_and!; [by eapply puts_trans| | |congruence|].
        -- intros k t'. by rewrite V2, Et1, V1, Ev.
        -- congruence.
        -- rewrite C2, C1. done.
Qed.

(** *** The terms it wins *)
Lemma turn_unwon : Raft.state r' = Leader → ¬ (Raft.state r = Leader ∧ Raft.term r' = Raft.term r) →
  a_base s (Raft.term r') = None.
Proof.
  intros Hl Hn. destruct (a_base s (Raft.term r')) as [b|] eqn:E; [exfalso|done].
  destruct (ar_owner _ _ _ Hrel _ (mk_is_Some _ _ E)) as (j & rj & Hj & Hw & Ht & Hr).
  destruct turn_cluster as [_ Hx]. assert (i = j) as <-.
  { eapply won_unique; [done|apply (no_lead _ _ _ _ turn_node' Hl)|by eapply won_mono]. }
  simplify_eq. destruct (pm_leader _ _ (tk_promotes _ _ _ _ _ Htk) Hl) as [?|[[? ?]|?]]; [done| |lia]. by apply Hr.
Qed.

Lemma turn_camp s1 : ago c i s s1 →
  (Raft.term r < Raft.term r' → Raft.vote r' = i → a_camp s1 i (Raft.term r') = Some (a_log s i)) →
  Raft.state r = Candidate ∧ Raft.term r' = Raft.term r ∨ Raft.term r < Raft.term r' → campaigning r' →
  a_camp s1 i (Raft.term r') = Some (a_log s i).
Proof.
  intros G C1 [[Hcd ->]|Hlt] Hcm; [|apply C1; [done|by apply (no_self _ _ _ _ turn_node')]].
  apply (ag_camp _ _ _ _ G). by apply (nr_cand _ _ _ _ (ar_node _ _ _ Hrel i r Hi)).
Qed.

(** Where the turn has got to: the member has the log [l] and the commit
    index [k]. *)
Record stage s' (l : list Entry) (k : nat) : Prop := mk_stage {
  sg_puts : puts c i s s' (Raft.term r') l k;
  sg_votes : ∀ k t, a_votes s' k t = history' k t;
  sg_lead : leading r r' → is_Some (a_base s' (Raft.term r')) ∧ l = lead s' (Raft.term r');
  sg_base : ∀ t, is_Some (a_base s' t) → is_Some (a_base s t) ∨ t = Raft.term r' ∧ Raft.state r' = Leader;
  sg_camp : Raft.state r' = Candidate ∨ Raft.term r < Raft.term r' ∧ Raft.vote r' = i →
    a_camp s' i (Raft.term r') = Some (a_log s i)
}.

Lemma stage_next s1 s2 l l' k k' : stage s1 l k → puts c i s1 s2 (Raft.term r') l' k' → a_votes s2 = a_votes s1 →
  a_base s2 = a_base s1 → (leading r r' → l' = lead s2 (Raft.term r')) → stage s2 l' k'.
Proof.
  intros [P V L B C] P2 V2 B2 L2. split.
  - by eapply puts_trans.
  - by rewrite V2.
  - intros Hl. rewrite B2. split; [by apply L|auto].
  - by rewrite B2.
  - intros Hcm. apply (ag_camp _ _ _ _ (pt_ago _ _ _ _ _ _ _ P2)). auto.
Qed.

Lemma stage_ainv s1 l k : stage s1 l k → ainv c s1.
Proof. intros [P _ _ _ _]. eapply puts_ainv; [done|exact P|apply Hrel]. Qed.

Lemma term_phase : ∃ s2, stage s2 (a_log s i) (a_commit s i).
Proof.
  destruct vote_phase as (s1 & P1 & V1 & B1 & L1 & C1). pose proof P1 as [_ G1 Et1 El1 Ec1 _ _ _].
  pose proof (tk_promotes _ _ _ _ _ Htk) as Hpm.
  assert (Raft.state r' = Candidate ∨ Raft.term r < Raft.term r' ∧ Raft.vote r' = i →
    a_camp s1 i (Raft.term r') = Some (a_log s i)) as Hcd.
  { intros [Hcd|[? ?]]; [|auto]. apply (turn_camp s1); [done|done|by apply (pm_cand _ _ Hpm)|by left]. }
  assert ((leading r r' → is_Some (a_base s1 (Raft.term r')) ∧ a_log s i = lead s1 (Raft.term r')) →
    ∃ s2, stage s2 (a_log s i) (a_commit s i)) as Hsame.
  { intros Hld. exists s1. split; [done|done|done| |done]. intros t Ht. left. by rewrite <-B1. }
  destruct (decide (Raft.state r = Leader ∧ Raft.term r' = Raft.term r)) as [[Hl Et]|Hnl].
  { apply Hsame. intros _. rewrite B1, L1, Et. destruct (nr_lead _ _ _ _ (ar_node _ _ _ Hrel i r Hi) Hl) as (? & ? & _). done. }
  destruct (decide (Raft.state r' = Leader)) as [Hl|Hnl'].
  2: { apply Hsame. intros [?|?]; done. }
  destruct (puts_win c Hc i s1) as (s2 & P2 & V2 & B2 & L2 & O2).
  - by eapply puts_ainv; [..|apply Hrel].
  - rewrite Et1, B1. by apply turn_unwon.
  - rewrite Et1. eapply won_mono; [by apply (no_lead _ _ _ _ turn_node')|]. intros k t j Hj. by rewrite V1.
  - rewrite Et1, El1. apply (turn_camp s1); [done|done| |by right].
    destruct (pm_leader _ _ Hpm Hl) as [?|[?|?]]; [done|by left|by right].
  - rewrite Et1, El1, Ec1 in *. exists s2. split.
    + by eapply puts_trans.
    + intros k t. by rewrite V2.
    + intros _. split; [by exists (a_log s i)|done].
    + intros t Ht. destruct (decide (t = Raft.term r')) as [->|Hne]; [by right|left]. by rewrite O2, B1 in Ht.
    + intros Hcm. apply (ag_camp _ _ _ _ (pt_ago _ _ _ _ _ _ _ P2)). auto.
Qed.

(** *** The log *)
(** The answers to an append are of what the leader has. *)
Definition answers_hold s' (l : list Entry) : Prop := ∀ k, m_msg_type m = MsgAppend → m_term m = Raft.term r' →
  answer m r r' k → is_Some (a_base s' (Raft.term r')) ∧ (nat_of k ≤ length (lead s' (Raft.term r')))%nat ∧
    take (nat_of k) l = take (nat_of k) (lead s' (Raft.term r')).

Lemma turn_won s1 l k : stage s1 l k → leading r r' → won c (a_votes s1) i (Raft.term r').
Proof.
  intros Hsg Hl. assert (won c history' i (Raft.term r')) as Hw.
  { destruct Hl as [[Hl Et]|Hl]; [|by apply (no_lead _ _ _ _ turn_node')]. rewrite Et.
    eapply won_mono; [by apply (no_lead _ _ _ _ turn_node)|]. rewrite <-Et. apply turn_cluster. }
  eapply won_mono; [exact Hw|]. intros k' t j Hj. by rewrite (sg_votes _ _ _ Hsg).
Qed.

Lemma turn_append s1 l k : stage s1 l k → m_msg_type m = MsgAppend → lead_append c s1 m.
Proof.
  intros Hsg Hty. destruct (tk_genuine _ _ _ _ _ Htk) as (Hm & _ & _); [left; rewrite Hty; set_solver|].
  eapply mr_append; [|done]. eapply msg_rel_mono; [exact Hm|apply (sg_puts _ _ _ Hsg)].
Qed.

Lemma turn_receive s2 l k cm : stage s2 l k → m_msg_type m = MsgAppend → m_term m = Raft.term r' →
  full l (view r) → sv_dummy (view r) ≤ cm → received (view r) cm m (view r') →
  let n := (nat_of (m_index m) + length (m_entries m))%nat in let L := lead s2 (Raft.term r') in
  is_Some (a_base s2 (Raft.term r')) ∧ (n ≤ length L)%nat ∧ (view r' = view r ∧ take n l = take n L ∨
  ∃ p, view r' ≠ view r ∧ full (take n L) (view r') ∧ (p < n ≤ length L)%nat ∧ take p l = take p L ∧ (p ≤ length l)%nat ∧ diverge l L p).
Proof.
  intros Hsg Hty Htm Hf Hd Hrc. destruct (turn_append _ _ _ Hsg Hty) as [A1 A2 A3 A4 A5 A6]. rewrite Htm in *.
  pose proof (stage_ainv _ _ _ Hsg) as Hai. split_and!; [done|apply A5|].
  pose proof (proj1 (ai_log _ _ Hai i)) as Hleg. rewrite (pt_log _ _ _ _ _ _ _ (sg_puts _ _ _ Hsg)) in Hleg.
  by apply (full_receive c s2 Hai l (view r) (view r') cm); [done|done|apply (lead_legal c s2 Hai)|..].
Qed.

Lemma answers_same s2 : stage s2 (a_log s i) (a_commit s i) → view r' = view r → answers_hold s2 (a_log s i).
Proof.
  intros Hsg Ev k Hty Htm Han. pose proof (ar_node _ _ _ Hrel i r Hi) as Hn.
  pose proof (stage_ainv _ _ _ Hsg) as Hai. pose proof (sg_puts _ _ _ Hsg) as [_ _ Et2 El2 Ec2 _ _ _].
  destruct Han as [(_ & -> & _)|(-> & Hrc & _)].
  - pose proof (la_base _ _ _ (turn_append _ _ _ Hsg Hty)) as Hb. rewrite Htm in Hb. split; [done|].
    destruct (ai_safe _ _ Hai i) as [Hs _]. rewrite El2, Ec2, Et2, (nr_commit _ _ _ _ Hn) in Hs.
    destruct (safe_lead c _ Hai Hc _ _ _ Hs Hb) as (? & ? & _). done.
  - replace (nat_of _) with (nat_of (m_index m) + length (m_entries m))%nat by (unfold len; lia).
    destruct (turn_receive s2 _ _ _ Hsg Hty Htm (nr_log _ _ _ _ Hn) (ix_dummy _ (proj2 (nr_ok _ _ _ _ Hn))) Hrc)
      as (? & ? & [[_ ?]|(p & ? & _)]); done.
Qed.

(** An append that was taken over, or answered with what is committed. *)
Lemma append_phase s2 : stage s2 (a_log s i) (a_commit s i) → m_msg_type m = MsgAppend →
  ∃ s3 l, stage s3 l (a_commit s i) ∧ full l (view r') ∧ (view r' = view r → l = a_log s i) ∧ answers_hold s3 l.
Proof.
  intros Hsg Hty. pose proof (ar_node _ _ _ Hrel i r Hi) as Hn. pose proof (nr_log _ _ _ _ Hn) as Hf.
  pose proof (sg_puts _ _ _ Hsg) as [_ _ Et2 El2 Ec2 _ _ _].
  assert (view r' = view r → ∃ s3 l, stage s3 l (a_commit s i) ∧ full l (view r') ∧ (view r' = view r → l = a_log s i) ∧
    answers_hold s3 l) as Hsame.
  { intros Ev. exists s2, (a_log s i). split_and!; [done|by rewrite Ev|done|by apply answers_same]. }
  destruct (tu_heard _ _ _ (tk_turn _ _ _ _ _ Htk) Hty) as [[Ev _]|(Htm & k & [(_ & _ & _ & Ev)|(_ & Hrc & _)])]; [auto..|].
  destruct (turn_receive s2 _ _ _ Hsg Hty Htm Hf (ix_dummy _ (proj2 (nr_ok _ _ _ _ Hn))) Hrc)
    as (Hb & Hn' & [[Ev _]|(p & Hne & Hf' & Hp & Hag & Hpl & Hdv)]); [auto|].
  destruct (puts_receive c Hc i (nat_of (m_index m) + length (m_entries m)) p s2) as (s3 & P3 & V3 & B3 & C3 & L3);
    rewrite ?Et2, ?El2; try done.
  rewrite Et2, Ec2 in P3. set (n := (nat_of (m_index m) + length (m_entries m))%nat) in *.
  exists s3, (take n (lead s2 (Raft.term r'))). split_and!; [|done|done|].
  - eapply stage_next; [done|done|done|done|]. intros Hl. rewrite L3. destruct (sg_lead _ _ _ Hsg Hl) as [_ E].
    exfalso. rewrite E in Hdv. destruct Hdv as [?|(y & z & Hy & Hz & ?)]; [lia|congruence].
  - intros k' _ _ Han. rewrite B3, L3. split; [done|]. assert (nat_of k' = n) as ->.
    { destruct Han as [(Hlt & _)|(-> & _)]; [pose proof (rc_index _ _ _ _ Hrc); lia|unfold n, len; lia]. }
    split; [done|]. by rewrite take_take, Nat.min_id.
Qed.

Lemma log_phase : ∃ s3 l, stage s3 l (a_commit s i) ∧ full l (view r') ∧ (view r' = view r → l = a_log s i) ∧ answers_hold s3 l.
Proof.
  destruct term_phase as [s2 Hsg]. pose proof (ar_node _ _ _ Hrel i r Hi) as Hn. pose proof (nr_log _ _ _ _ Hn) as Hf.
  destruct (decide (m_msg_type m = MsgAppend)) as [Hty|Hty]; [by apply (append_phase s2)|].
  assert (∀ s3 l, answers_hold s3 l) as Hno by (intros s3 l k ?; done).
  destruct (tk_effect _ _ _ _ _ Htk) as [Ev|new Hl Ev Hnew|?|Hsn]; [| |done|].
  - exists s2, (a_log s i). split_and!; [done|by rewrite Ev|done|done].
  - pose proof (sg_puts _ _ _ Hsg) as [_ G2 Et2 El2 Ec2 _ _ _]. destruct (sg_lead _ _ _ Hsg Hl) as [Hb El].
    destruct (puts_create c Hc i new s2) as (s3 & P3 & V3 & B3 & C3 & L3); rewrite ?Et2, ?El2; try done.
    { by eapply turn_won. }
    rewrite Et2, El2, Ec2 in *. exists s3, (a_log s i ++ new). split_and!.
    + eapply stage_next; [done|done|done|done|]. by intros _.
    + rewrite Ev. by apply full_vext.
    + rewrite Ev. intros E. apply (f_equal (λ v, length (sv_ents v))) in E. simpl in E. rewrite length_app in E.
      destruct new; [by rewrite app_nil_r|simpl in E; lia].
    + done.
  - exfalso. apply (tk_types _ _ _ _ _ Htk). rewrite Hsn. set_solver.
Qed.

(** *** Acknowledgements *)
Definition answered s' : Prop := ∀ k, m_msg_type m = MsgAppend → m_term m = Raft.term r' → answer m r r' k →
  a_acks s' i (Raft.term r') (nat_of k).

Definition known_to s' : Prop := ∀ v, matched_of r' v = 0 ∨ a_sent s' v (Raft.term r') (nat_of (matched_of r' v)).

Lemma answer_index k : answer m r r' k →
  k = if m_index m <? committed r then committed r else m_index m + len (m_entries m).
Proof.
  intros [(Hlt & -> & _)|(-> & [Hix _ _ _] & _)]; [by rewrite (proj2 (N.ltb_lt _ _))|by rewrite (proj2 (N.ltb_ge _ _)) by lia].
Qed.

Lemma answers_hold_same s1 s2 l : answers_hold s1 l → a_base s2 = a_base s1 → (∀ t, lead s2 t = lead s1 t) → answers_hold s2 l.
Proof. intros Hh Hb Hl k. rewrite Hb, Hl. apply Hh. Qed.

Lemma answer_phase s3 l k0 : stage s3 l k0 → answers_hold s3 l → ∃ s4, stage s4 l k0 ∧ answers_hold s4 l ∧ answered s4.
Proof.
  intros Hsg Hh. pose proof (sg_puts _ _ _ Hsg) as [_ _ Et El Ec _ _ _].
  set (k := if m_index m <? committed r then committed r else m_index m + len (m_entries m)).
  destruct (decide (is_Some (a_base s3 (Raft.term r')) ∧ (nat_of k ≤ length (lead s3 (Raft.term r')))%nat ∧
    take (nat_of k) l = take (nat_of k) (lead s3 (Raft.term r')))) as [(Hb & Hk & Ht)|Hno].
  - destruct (puts_ack c Hc i (nat_of k) s3) as (s4 & P4 & V4 & B4 & C4 & L4 & A4); rewrite ?Et, ?El; try done.
    rewrite Et, El, Ec in *. exists s4. split_and!.
    + eapply stage_next; [done..|]. rewrite L4. apply (sg_lead _ _ _ Hsg).
    + by eapply answers_hold_same.
    + intros k' _ _ Han. rewrite (answer_index _ Han). done.
  - exists s3. split_and!; [done|done|]. intros k' Hty Htm Han. destruct Hno. unfold k. rewrite <-(answer_index _ Han). by apply Hh.
Qed.

(** The storage has the log as far as the node knows it to be persisted. *)
Lemma turn_disk : disk_of r' = disk_of r ∧ Raft.snap r' = None.
Proof.
  pose proof (ar_node _ _ _ Hrel i r Hi) as Hn. destruct (tk_reads _ _ _ _ _ Htk) as [Hrd Hsn]. split.
  - by apply (st_read_view _ _ Hrd), (nr_ok _ _ _ _ Hn).
  - rewrite Hsn. apply (nr_snap _ _ _ _ Hn).
Qed.

Lemma stored_prefix s3 l k : stage s3 l (a_commit s i) → full l (view r') → k ≤ persisted r' →
  take (nat_of k) (a_disk s3 i) = take (nat_of k) l.
Proof.
  intros Hsg Hf Hk. pose proof (sg_puts _ _ _ Hsg) as [_ _ Et El Ec Ed Eh _]. pose proof (stage_ainv _ _ _ Hsg) as Hai.
  pose proof (ar_node _ _ _ Hrel i r Hi) as Hn. destruct turn_disk as [Hsv Hsn].
  destruct (so_ok _ _ (tk_sound _ _ _ _ _ Htk)) as [Hwf Hix]. destruct (nr_ok _ _ _ _ Hn) as [Hwf0 Hix0].
  pose proof (ix_persisted _ Hix) as Hp. pose proof (ix_persisted _ Hix0) as Hp0.
  destruct (log_view_low _ 0 Hwf ltac:(lia) Hsn) as (_ & Edm & _).
  destruct (log_view_low _ 0 Hwf0 ltac:(lia) (nr_snap _ _ _ _ Hn)) as (_ & Edm0 & _).
  symmetry. apply (full_agree _ _ (view r') (disk_of r')); [done| |done| |].
  - rewrite Ed, Hsv. apply (nr_disk _ _ _ _ Hn).
  - destruct (ai_safe _ _ Hai i) as [S1 S2]. rewrite El, Ec, Ed, Eh in *.
    eapply take_shorter; [exact (safe_agree c _ Hai Hc _ _ _ _ _ _ S1 S2)|]. pose proof (nr_dummy _ _ _ _ Hn) as Hd.
    pose proof (ix_dummy _ Hix0) as Hdc. rewrite Edm, Hsv, (nr_commit _ _ _ _ Hn). rewrite Edm0 in Hdc.
    apply Nat.min_glb; [lia|exact Hd].
  - intros j Hj Hjk. symmetry. apply log_view_low; [done|lia|done].
Qed.

(** A leader acknowledges what it has persisted itself. *)
Lemma own_phase s3 l : stage s3 l (a_commit s i) → full l (view r') → answers_hold s3 l → answered s3 →
  leading r r' → ∃ s4, stage s4 l (a_commit s i) ∧ answers_hold s4 l ∧ answered s4 ∧
    a_sent s4 i (Raft.term r') (nat_of (N.min (matched_of r' i) (persisted r'))).
Proof.
  intros Hsg Hf Hh Han Hl. set (k := N.min _ _). pose proof (sg_puts _ _ _ Hsg) as [_ _ Et El Ec _ _ _].
  destruct (sg_lead _ _ _ Hsg Hl) as [Hb E]. destruct (so_ok _ _ (tk_sound _ _ _ _ _ Htk)) as [Hwf Hix].
  assert ((nat_of k ≤ length l)%nat) as Hk.
  { rewrite (full_length _ _ Hf). pose proof (ix_persisted _ Hix). pose proof (log_view_offset _ Hwf). unfold k. lia. }
  destruct (puts_ack c Hc i (nat_of k) s3) as (s4 & P4 & V4 & B4 & C4 & L4 & A4); rewrite ?Et, ?El, <-?E; try done.
  rewrite Et, El, Ec in *.
  assert (stage s4 l (a_commit s i)) as Hsg4 by (eapply stage_next; [done..|]; intros _; by rewrite L4).
  destruct (puts_send c Hc i (Raft.term r') (nat_of k) s4) as (s5 & P5 & V5 & B5 & C5 & L5 & A5); [done| |].
  { rewrite (pt_log _ _ _ _ _ _ _ P4). apply stored_prefix; [done|done|unfold k; lia]. }
  rewrite (pt_term _ _ _ _ _ _ _ P4), (pt_log _ _ _ _ _ _ _ P4), (pt_commit _ _ _ _ _ _ _ P4) in P5.
  exists s5. split_and!; [|..|done].
  - eapply stage_next; [exact Hsg4|done|done|done|]. intros _. by rewrite L5, L4.
  - eapply answers_hold_same; [exact Hh|congruence|]. intros t. by rewrite L5, L4.
  - intros j Hty Htm Hj. apply (pt_acks _ _ _ _ _ _ _ P5), (pt_acks _ _ _ _ _ _ _ P4). by apply Han.
Qed.

Lemma known_phase s4 l k : stage s4 l k → (∀ v, learned m r r' v) →
  a_sent s4 i (Raft.term r') (nat_of (N.min (matched_of r' i) (persisted r'))) → known_to s4.
Proof.
  intros Hsg Hl Hown v. pose proof (ar_node _ _ _ Hrel i r Hi) as Hn. pose proof (sg_puts _ _ _ Hsg) as [_ G _ _ _ _ _ _].
  pose proof (no_id _ _ _ _ turn_node') as Hid.
  destruct (Hl v) as [?|Hl0 Et Em|Hl0 Et (Hty & Hrj & -> & Em)| -> Hp].
  - by left.
  - destruct (nr_lead _ _ _ _ Hn Hl0) as (_ & _ & _ & Hk). rewrite Em, Et. destruct (Hk v); [by left|right]. by apply G.
  - destruct (tk_genuine _ _ _ _ _ Htk) as (_ & Ha & _); [left; rewrite Hty; set_solver|].
    destruct (Ha (conj Hty Hrj)) as [?|[_ ?]]; [left; congruence|right]. rewrite Em, <-Et. by apply G.
  - right. rewrite Hid in *. by rewrite N.min_l in Hown by done.
Qed.

Lemma ack_phase : ∃ s4 l, stage s4 l (a_commit s i) ∧ full l (view r') ∧ (view r' = view r → l = a_log s i) ∧
  answers_hold s4 l ∧ answered s4 ∧
  (leading r r' → (∀ v, learned m r r' v) → known_to s4).
Proof.
  destruct log_phase as (s3 & l & Hsg & Hf & Hv & Hh). destruct (answer_phase _ _ _ Hsg Hh) as (s4 & Hsg4 & Hh4 & Han).
  destruct (decide ((Raft.state r = Leader ∧ Raft.term r' = Raft.term r) ∨ Raft.state r' = Leader)) as [Hl|Hnl]; [|by exists s4, l].
  destruct (own_phase s4 l Hsg4 Hf Hh4 Han Hl) as (s5 & Hsg5 & Hh5 & Han5 & Hown). exists s5, l.
  split_and!; [done..|]. intros _ Hln. by eapply known_phase.
Qed.

(** *** The commit index *)
Lemma turn_kept_safe s4 l : stage s4 l (a_commit s i) → safe c s4 l (nat_of (committed r)) (Raft.term r').
Proof.
  intros Hsg. pose proof (stage_ainv _ _ _ Hsg) as Hai. pose proof (sg_puts _ _ _ Hsg) as [_ _ Et El Ec _ _ _].
  destruct (ai_safe _ _ Hai i) as [Hs _]. rewrite El, Et, Ec in Hs.
  by rewrite (nr_commit _ _ _ _ (ar_node _ _ _ Hrel i r Hi)) in Hs.
Qed.

(** A quorum that the leader knows to have an entry of its term has chosen it. *)
Lemma quorum_safe s4 l : stage s4 l (a_commit s i) → full l (view r') → quorum_commit r' → known_to s4 →
  safe c s4 l (nat_of (committed r')) (Raft.term r').
Proof.
  intros Hsg Hf [Hl Hvt Hq] Hk. pose proof (stage_ainv _ _ _ Hsg) as Hai.
  destruct (sg_lead _ _ _ Hsg (or_intror Hl)) as [[b Hb] El].
  destruct (so_ok _ _ (tk_sound _ _ _ _ _ Htk)) as [_ [Hlo Hhi _ _]].
  pose proof (full_term _ _ _ _ Hf Hvt Hlo Hhi) as Ht. pose proof (full_length _ _ Hf) as Hlen.
  destruct (ai_base _ _ Hai _ _ Hb) as (_ & [Hpos _] & _).
  destruct (nat_of (committed r')) as [|k] eqn:Ek; [by left|right].
  destruct (lookup_lt_is_Some_2 l k) as [e He]; [lia|]. rewrite (last_term_take _ _ _ He) in Ht.
  exists (Raft.term r'), (Datatypes.S k). split_and!; [|done|done|by rewrite El].
  split.
  - rewrite El in He. destruct (lead_lookup c _ Hai _ _ _ He) as (b' & Hb' & [[_ ?]|[? _]]); [lia|].
    exists b'. apply lookup_lt_Some in He. split; [done|lia].
  - set (V := Joint.incoming c ∪ Joint.outgoing c). exists (filter (λ v, committed r' ≤ matched_of r' v) V). split.
    + destruct (tk_settled _ _ _ _ _ Htk) as [Hcf _]. unfold voters_of in Hcf. rewrite Hcf in Hq. destruct Hq as [Q1 Q2].
      split; (eapply quorate_mono; [|done]); intros v Hv Hle; apply elem_of_filter; (split; [done|]); unfold V; set_solver.
    + intros v [Hle _]%elem_of_filter. exists (nat_of (matched_of r' v)). split; [lia|]. destruct (Hk v); [lia|done].
Qed.

Lemma commit_phase s4 l : stage s4 l (a_commit s i) → full l (view r') → answers_hold s4 l →
  (Raft.state r' = Leader → known_to s4) → safe c s4 l (nat_of (committed r')) (Raft.term r').
Proof.
  intros Hsg Hf Hh Hk. pose proof (turn_kept_safe _ _ Hsg) as Hsame. pose proof (stage_ainv _ _ _ Hsg) as Hai.
  pose proof (sg_puts _ _ _ Hsg) as [_ G Et El Ec _ _ _]. pose proof (tk_turn _ _ _ _ _ Htk) as Htu.
  assert (genuine m → msg_rel c s4 m ∧ m_to m = i) as Hgen.
  { intros Hg. destruct (tk_genuine _ _ _ _ _ Htk Hg) as (? & _ & ?). split; [by eapply msg_rel_mono|done]. }
  destruct (decide (committed r' = committed r)) as [->|Hne]; [done|].
  destruct (tk_commit _ _ _ _ _ Htk) as [?|Hq|Hty _|Hty Hle|Hvm Ecm Hvt|Hty|Hty].
  - done.
  - apply quorum_safe; [done..|]. apply Hk, Hq.
  - destruct (tu_heard _ _ _ Htu Hty) as [[_ ?]|(Htm & k & Han)]; [done|].
    destruct (Hh k Hty Htm Han) as (Hb & Hkl & Hag). destruct Han as [(_ & _ & ? & _)|(_ & _ & Ecm)]; [done|].
    pose proof (la_safe _ _ _ (turn_append _ _ _ Hsg Hty)) as Hs. rewrite Htm in Hs.
    assert (committed r' = N.min (m_commit m) k) as -> by lia.
    eapply (safe_transfer c s4 (lead s4 (Raft.term r'))); [eapply safe_le; [exact Hs|lia]| |done].
    symmetry. eapply take_shorter; [exact Hag|lia].
  - destruct (tu_due_exact _ _ _ Htu Hty) as [?|Htm]; [done|].
    destruct (Hgen ltac:(left; rewrite Hty; set_solver)) as [Hm Hto].
    destruct (mr_heartbeat _ _ _ Hm Hty) as [_ Hb Hs Hak]. rewrite Htm, Hto in *.
    destruct Hak as [?|(k & Hkk & Hse)]; [left; lia|]. apply (ai_sent _ _ Hai) in Hse.
    destruct (ai_held _ _ Hai i) as [Hhd _]. destruct (Hhd _ _ Hse) as [Hag _]. rewrite El, Et in Hag. specialize (Hag eq_refl).
    eapply (safe_transfer c s4 (lead s4 (Raft.term r'))); [eapply safe_le; [exact Hs|lia]| |done].
    symmetry. eapply take_shorter; [exact Hag|lia].
  - destruct (Hgen ltac:(by right)) as [Hm _]. destruct (mr_info _ _ _ Hm Hvm) as [?|[L [Lg Ls Lt Lr]]]; [left; lia|].
    destruct (so_ok _ _ (tk_sound _ _ _ _ _ Htk)) as [_ [Hlo Hhi _ _]]. rewrite Ecm in Hlo, Hhi |- *.
    pose proof (full_term _ _ _ _ Hf Hvt Hlo Hhi) as Hlt. pose proof (full_length _ _ Hf) as Hlen.
    pose proof (safe_length c _ _ _ _ Ls) as HL.
    eapply (safe_transfer c s4 L); [exact Ls| |].
    + apply (last_term_agree s4); [done| |done|lia|congruence]. destruct (ai_log _ _ Hai i) as [Hleg _]. by rewrite El in Hleg.
    + unfold told_term, is_type. pose proof (adv_term _ _ (pm_adv _ _ (tk_promotes _ _ _ _ _ Htk))) as Hadv.
      destruct (tu_due _ _ _ Htu) as [?|[Hty|[[Hty Hrj]|Hle]]].
      * done.
      * rewrite bool_decide_eq_true_2 by done. destruct (tk_pre _ _ _ _ _ Htk Hty); [|lia].
        exfalso. apply Hne. pose proof (adv_commit _ _ (pm_adv _ _ (tk_promotes _ _ _ _ _ Htk))). lia.
      * by rewrite (Lr Hty) in Hrj.
      * case_bool_decide; lia.
  - exfalso. apply (tk_types _ _ _ _ _ Htk). rewrite Hty. set_solver.
  - exfalso. apply (tk_types _ _ _ _ _ Htk). rewrite Hty. set_solver.
Qed.

(** ** After the turn *)
Section after.
Context (s' : astate) (l : list Entry) (Hsg : stage s' l (nat_of (committed r'))) (Hf : full l (view r')).
Context (Hview : view r' = view r → l = a_log s i) (Hans : answered s').
Context (Hknow : leading r r' → (∀ v, learned m r r' v) → known_to s').

Lemma done_facts : ainv c s' ∧ ago c i s s' ∧ a_term s' i = Raft.term r' ∧ a_log s' i = l ∧
  safe c s' l (nat_of (committed r')) (Raft.term r') ∧ legal s' l.
Proof.
  pose proof (stage_ainv _ _ _ Hsg) as Hai. pose proof (sg_puts _ _ _ Hsg) as [_ G Et El Ec _ _ _].
  destruct (ai_safe _ _ Hai i) as [Hs _], (ai_log _ _ Hai i) as [Hl _]. rewrite El, Et, Ec in Hs. rewrite El in Hl. done.
Qed.

Lemma term_nonzero : is_Some (a_base s' (Raft.term r')) → Raft.term r' ≠ 0.
Proof.
  intros [b Hb]. destruct done_facts as (Hai & _). destruct (ai_base _ _ Hai _ _ Hb) as (_ & [? _] & _). lia.
Qed.

(** An append that shows a part of the leader's log. *)
Lemma shown_append m' : placed (view r') m' → faithful (view r') m' → part_of l m' ∧ append_ok m' ∧ anchored m'.
Proof.
  intros [Hpi Hpt] [_ Hfe]. destruct done_facts as (Hai & _ & _ & _ & _ & Hleg).
  destruct (so_ok _ _ (tk_sound _ _ _ _ _ Htk)) as [Hwf _]. pose proof (log_view_wf _ Hwf) as Hvw.
  pose proof (full_length _ _ Hf) as Hlen. pose proof (full_term _ _ _ _ Hf Hpt (proj1 Hpi) (proj2 Hpi)) as Ht.
  assert (anchored m') as Hanc.
  { intros Hz. destruct (nat_of (m_index m')) as [|k] eqn:Ek; [lia|]. destruct (lookup_lt_is_Some_2 l k) as [e He]; [lia|].
    rewrite (last_term_take _ _ _ He) in Ht. apply (legal_term c s' l) in He; [congruence|done|done]. }
  assert (∀ k e, m_entries m' !! k = Some e → m_index m' + 1 + N.of_nat k ≤ last_of r' ∧
    l !! (nat_of (m_index m') + k)%nat = Some e) as Hent.
  { intros k e Hk. pose proof (Hfe _ _ Hk) as Hv. pose proof (mk_is_Some _ _ Hv) as Hb%vlookup_is_Some. split; [lia|].
    rewrite (full_lookup l) in Hv by (done || lia). rewrite <-Hv. f_equal. lia. }
  assert (m_entries m' ≠ [] → m_index m' + len (m_entries m') ≤ last_of r') as Hb.
  { intros Hne. destruct (lookup_lt_is_Some_2 (m_entries m') (length (m_entries m') - 1)) as [e He].
    { destruct (m_entries m'); [done|simpl; lia]. }
    apply Hent in He as [He _]. unfold len. destruct (m_entries m'); [done|simpl in *; lia]. }
  split_and!; [split| split|done].
  - apply Hent.
  - destruct (m_entries m') as [|e es] eqn:E; [simpl; lia|]. specialize (Hb ltac:(done)). unfold len in Hb. lia.
  - done.
  - apply contiguous_intro. intros k e Hk. by apply (vlookup_index (view r')); [|apply Hfe].
  - apply Forall_lookup_2. intros k e Hk. destruct (Hent _ _ Hk) as [_ He]. by apply (legal_term c s' l) in He.
  - done.
  - intros Hne. specialize (Hb Hne). destruct Hvw as [_ Hvw]. lia.
Qed.

Lemma voiced_rel m' : voiced r' m' → leading r r' → (∀ v, learned m r r' v) →
  (m_msg_type m' = MsgAppend → faithful (view r') m') → msg_rel c s' m' ∧ acked (λ v t k, v = i ∧ a_acks s' i t k) m'.
Proof.
  intros (Ha & Hp & Hh) Hl Hln Hfa. destruct done_facts as (Hai & _ & _ & _ & Hs & Hleg).
  destruct (sg_lead _ _ _ Hsg Hl) as [Hb El]. pose proof (term_nonzero Hb) as Hnz.
  assert (¬ vote_message m' ∧ ¬ is_ack m') as [Hnv Hna].
  { unfold is_answer, Raft.is_campaign_msg, is_type, vote_message, is_ack in *. destruct (m_msg_type m'); set_solver. }
  split; [split|by intros ?].
  - intros Hty. destruct (Hp Hty) as (Et & Hcm & Hpl). destruct (shown_append m' Hpl (Hfa Hty)) as (P1 & P2 & P3).
    split; rewrite ?Et, <-?El; try done. eapply safe_le; [exact Hs|lia].
  - intros Hty. destruct (Hh Hty) as (Et & Hcm & Hma & _). split; rewrite ?Et, <-?El; try done.
    + eapply safe_le; [exact Hs|lia].
    + destruct (Hknow Hl Hln (m_to m')) as [?|?]; [left; lia|right]. eexists. split; [|done]. lia.
  - intros Hty. destruct Hnv. unfold vote_message. rewrite Hty. set_solver.
  - done.
Qed.

Lemma spoken_rel m' : spoken (Raft.term r < Raft.term r' ∧ view r' = view r) r' m' →
  msg_rel c s' m' ∧ acked (λ v t k, v = i ∧ a_acks s' i t k) m'.
Proof.
  intros [Na Nh Nk Hcall Hinfo]. destruct done_facts as (Hai & _ & _ & _ & Hs & Hleg). pose proof (full_length _ _ Hf) as Hlen.
  pose proof (no_id _ _ _ _ turn_node') as Hid.
  split; [split|].
  - done.
  - done.
  - intros Hty. destruct (Hcall Hty) as [[Hlt Hv] [Ef Et Ev Ei El]]. specialize (Hview Hv). rewrite Hid in *.
    exists l. rewrite Ef, Et, Ei. split_and!; [rewrite Hview; apply (sg_camp _ _ _ Hsg); by right|unfold len; lia|].
    apply (full_term _ _ _ _ Hf) in El; [|unfold vlast; lia|lia]. by rewrite take_ge in El by lia.
  - intros Hvm. destruct (Hinfo Hvm) as [?|([Hlo Hhi] & (t & Hvt & Hct) & Et & Hrj)]; [by left|].
    destruct (decide (m_commit m' = 0)) as [|Hnz]; [by left|right]. exists l.
    destruct (so_ok _ _ (tk_sound _ _ _ _ _ Htk)) as [_ [_ Hcl _ _]].
    pose proof (full_term _ _ _ _ Hf Hvt Hlo ltac:(lia)) as Hlt. split; [done| | |done].
    + assert (told_term m' = Raft.term r') as ->.
      { unfold told_term. rewrite Et. destruct (is_type m' MsgRequestPreVote); lia. }
      eapply safe_le; [exact Hs|lia].
    + rewrite <-Hlt. apply Hct. rewrite Hlt. destruct (nat_of (m_commit m')) as [|k] eqn:Ek; [lia|].
      destruct (lookup_lt_is_Some_2 l k) as [e He]; [lia|]. rewrite (last_term_take _ _ _ He).
      by apply (legal_term c s' l) in He.
  - intros [Hty Hrj]. destruct (Nk Hty); [congruence|by left].
Qed.

Lemma queue_rel m' : m' ∈ Raft.msgs r' → msg_rel c s' m' ∧ acked (λ v t k, v = i ∧ a_acks s' i t k) m'.
Proof.
  intros Hin. destruct done_facts as (Hai & G & _). pose proof (ar_node _ _ _ Hrel i r Hi) as Hn.
  pose proof (no_id _ _ _ _ turn_node') as Hid.
  assert (m' ∈ Raft.msgs r → msg_rel c s' m' ∧ acked (λ v t k, v = i ∧ a_acks s' i t k) m') as Hold.
  { intros Hm. destruct (nr_msgs _ _ _ _ Hn m' Hm) as [Hr Ha]. split; [by eapply msg_rel_mono|].
    eapply acked_mono; [exact Ha|]. intros v t k [-> Hk]. split; [done|]. by apply (pt_acks _ _ _ _ _ _ _ (sg_puts _ _ _ Hsg)). }
  destruct (tu_said _ _ _ (tk_turn _ _ _ _ _ Htk) m' Hin) as [Hm|[Hsp|Hv Hl Hln|Hty Htm Hty' Hfr Htm' Han]]; [by apply Hold|by apply spoken_rel|..].
  - destruct (decide (m_msg_type m' = MsgAppend)) as [Hty|Hty]; [|by apply voiced_rel].
    destruct (so_told _ _ (tk_sound _ _ _ _ _ Htk) (nr_batch _ _ _ _ Hn) m' Hin Hty); [by apply Hold|by apply voiced_rel].
  - split.
    + split; try congruence. unfold vote_message. rewrite Hty'. set_solver.
    + intros _. right. rewrite Htm', Hfr, Hid. split; [|split; [done|by apply Hans]].
      apply term_nonzero. destruct (turn_append _ _ _ Hsg Hty) as [_ _ _ Hb _ _]. by rewrite Htm in Hb.
Qed.

Lemma own_rel : node_rel c s' i r'.
Proof.
  destruct done_facts as (Hai & G & Et & El & Hs & Hleg). pose proof (ar_node _ _ _ Hrel i r Hi) as Hn.
  pose proof (sg_puts _ _ _ Hsg) as [_ _ _ _ Ec Ed Eh _]. destruct turn_disk as [Hdk Hsn].
  pose proof (tk_promotes _ _ _ _ _ Htk) as Hpm.
  split; rewrite ?Et, ?El, ?Ed, ?Eh, ?Hdk; try done.
  - apply Htk.
  - rewrite (so_batch _ _ (tk_sound _ _ _ _ _ Htk)). apply (nr_batch _ _ _ _ Hn).
  - apply (tk_settled _ _ _ _ _ Htk).
  - apply (nr_disk _ _ _ _ Hn).
  - apply (nr_dummy _ _ _ _ Hn).
  - intros Hl. destruct (sg_lead _ _ _ Hsg (or_intror Hl)) as [? ?].
    destruct (tu_lead _ _ _ (tk_turn _ _ _ _ _ Htk) Hl) as [? Hln]. split_and!; [done|done|done|].
    apply Hknow; [by right|done].
  - intros Hcd. rewrite Hview; [apply (sg_camp _ _ _ Hsg); by left|].
    destruct (tk_effect _ _ _ _ _ Htk) as [?|new [[Hl Etm]|?] _ _|_ ? _|Hsnp _ _ _ _]; [done| |congruence|congruence|].
    + destruct (pm_cand _ _ Hpm Hcd) as [[? _]|?]; [congruence|lia].
    + exfalso. apply (tk_types _ _ _ _ _ Htk). rewrite Hsnp. set_solver.
  - apply queue_rel.
Qed.
End after.

(** The protocol takes the turn. *)
Lemma turn_rel : ∃ s', rtc (astep c) s s' ∧ agree_rel c s' (on_member x i r').
Proof.
  destruct ack_phase as (s4 & l & Hsg & Hf & Hv & Hh & Han & Hk).
  assert (safe c s4 l (nat_of (committed r')) (Raft.term r')) as Hs.
  { apply commit_phase; [done..|]. intros Hl. apply Hk; [by right|]. apply (tu_lead _ _ _ (tk_turn _ _ _ _ _ Htk) Hl). }
  pose proof (sg_puts _ _ _ Hsg) as [_ _ Et El Ec _ _ _].
  destruct (puts_commit c Hc i (nat_of (committed r')) s4) as (s' & P & V & B & C & L); [by rewrite El, Et|].
  rewrite Et, El in P. exists s'. assert (stage s' l (nat_of (committed r'))) as Hsg'.
  { eapply stage_next; [exact Hsg|exact P|done|done|]. rewrite L. apply (sg_lead _ _ _ Hsg). }
  pose proof (sg_puts _ _ _ Hsg') as [R G _ _ _ _ Eh _]. split; [done|].
  assert (cluster_inv c (set_node (members x) i r') (a_votes s')) as Hci.
  { eapply cluster_inv_ext; [apply turn_cluster|apply (sg_votes _ _ _ Hsg')]. }
  split; [by eapply stage_ainv|done| | | |].
  - intros j rj Hj. destruct (decide (j = i)) as [->|Hne].
    + simpl in Hj. rewrite lookup_insert_eq in Hj. injection Hj as <-. eapply own_rel; [done|done|done|..].
      * intros k Hty Htm Hka. apply (pt_acks _ _ _ _ _ _ _ P). by apply Han.
      * intros Hl Hln v. destruct (Hk Hl Hln v); [by left|right]. by apply P.
    + pose proof Hj as Hj'. simpl in Hj'. rewrite lookup_insert_ne in Hj' by done.
      eapply node_rel_other; [by apply Hrel|done|done|done|done|done].
  - intros j rj d Hj Hd. simpl in Hj, Hd. destruct (decide (j = i)) as [->|Hne].
    + rewrite lookup_insert_eq in Hj. injection Hj as <-. destruct (ar_disk _ _ _ Hrel i r d Hi Hd) as [D1 D2 D3].
      destruct turn_disk as [Hdk _]. split; [done|congruence|]. by rewrite Eh.
    + rewrite lookup_insert_ne in Hj by done. destruct (ar_disk _ _ _ Hrel j rj d Hj Hd) as [D1 D2 D3].
      destruct (ag_other _ _ _ _ G j Hne) as (_ & _ & _ & _ & Eh' & _). split; [done|done|by rewrite Eh'].
  - intros m' Hm. destruct (ar_net _ _ _ Hrel m' Hm) as [Hm' Ha]. split; [by eapply msg_rel_mono|].
    eapply acked_mono; [exact Ha|]. intros v t k. apply G.
  - intros t Ht. destruct (sg_base _ _ _ Hsg' t Ht) as [Hold|[-> Hl]].
    + eapply taken_move; [|done|apply Htk]. eapply taken_mono; [by apply Hrel|apply G].
    + exists i, r'. simpl. rewrite lookup_insert_eq. split_and!; [done| |done|congruence].
      eapply turn_won; [exact Hsg'|by right].
Qed.
End phases.
