(* ===== verification/ClusterSafety.v ===== *)
(** * State machine safety

    Every step of a cluster is one of the protocol's, so that what its nodes
    commit is the same everywhere, and every leader has it. *)
From stdpp Require Import functions.
From S2P Require Import Prelude Errors Eraftpb ProtoConf Util Unstable Storage RaftLog RaftLogSpec Quorum.
From S2P Require Import Inflights Progress Tracker ConfChange ReadOnly Config Witness Raft RaftFrame RaftElection.
From S2P Require Import Cluster RaftPromotion RaftReplication RaftLogSteps RaftCommit ClusterLog.
From S2P Require Import RaftVoices RaftStore RaftSpeech RaftTurns RaftHostTurns Agreement AgreementMoves FullLog.
From S2P Require Import ClusterAgreement ClusterRefinement.

#[local] Abbreviation committed r := (RaftLog.committed (Raft.raft_log r)).
#[local] Abbreviation view r := (log_view (Raft.raft_log r)).
#[local] Abbreviation last_of r := (vlast (log_view (Raft.raft_log r))).
#[local] Abbreviation disk_of r := (st_view (RaftLog.store (Raft.raft_log r))).

(** ** Turns *)
Section turning.
Context {S : Type} `{StorageLaws S} `{HashOrder} `{Rand} (c : Joint.Configuration) (Hc : Joint.incoming c ≠ ∅).
#[local] Set Default Proof Using "All".
Implicit Types (r : Raft.t S) (s : astate).

Lemma rel_ready s (x : log_cluster S) i r m : agree_rel c s x → nodes (members x) !! i = Some r →
  (genuine m → m ∈ net (members x) ∧ m_to m = i) → m_msg_type m ∉ [MsgSnapshot; MsgSnapStatus; MsgReadIndexResp] →
  input_ok r m → room (1 + len (m_entries m)) r → ready_for m r.
Proof.
  intros Hrel Hi Hg Hty Hio Hr. pose proof (ar_node _ _ _ Hrel i r Hi) as Hn. pose proof (ar_inv _ _ _ Hrel) as Hai.
  assert (genuine m → msg_rel c s m ∧ acked (a_sent s) m) as Hm by (intros [Hin _]%Hg; by apply Hrel).
  split; [apply Hn|done|apply Hn|apply Hn|..|done|apply Hio|apply Hio].
  - intros Hl. by apply (nr_lead _ _ _ _ Hn).
  - intros E. destruct (Hm ltac:(left; rewrite E; set_solver)) as [Hmr _]. by destruct (mr_append _ _ _ Hmr E).
  - intros E. destruct (Hm ltac:(left; rewrite E; set_solver)) as [Hmr _]. by destruct (mr_heartbeat _ _ _ Hmr E).
  - intros Hl E Hrj. destruct (Hm ltac:(left; rewrite E; set_solver)) as [_ Ha].
    destruct (nr_lead _ _ _ _ Hn Hl) as (_ & El & _). pose proof (full_length _ _ (nr_log _ _ _ _ Hn)) as Hlen.
    destruct (Ha (conj E Hrj)) as [->|[Hz Hse]]; [split; [by left|lia]|]. split; [by right|]. intros Et.
    apply (ai_sent _ _ Hai), (ai_ack _ _ Hai) in Hse as (_ & _ & Hk). rewrite Et, <-El in Hk. lia.
Qed.

Lemma message_took s (x : log_cluster S) i r m r' y : agree_rel c s x → nodes (members x) !! i = Some r →
  (genuine m → m ∈ net (members x) ∧ m_to m = i) → m_msg_type m ∉ [MsgSnapshot; MsgSnapStatus; MsgReadIndexResp] →
  (m_msg_type m = MsgRequestPreVote → m_commit m = 0 ∨ m_term m ≤ Raft.term r + 1) →
  input_ok r m → room (1 + len (m_entries m)) r → Raft.step r m = Done (r', y) → settled c r' → took c s m i r r'.
Proof.
  intros Hrel Hi Hg Hty Hpre Hio Hr Hs Hst. pose proof (rel_ready _ _ _ _ _ Hrel Hi Hg Hty Hio Hr) as Hrd.
  pose proof (ar_node _ _ _ Hrel i r Hi) as Hn. destruct (ci_node _ _ _ (ar_cluster _ _ _ Hrel) i r Hi) as [Hok _].
  pose proof (no_nonzero _ _ _ _ Hok) as Hnz. pose proof (no_id _ _ _ _ Hok) as Hid.
  destruct (step_effect _ _ _ _ Hs (io_leader _ _ Hio) (nr_ok _ _ _ _ Hn)) as [Hso He].
  { split; [done|intros E; by apply (rf_append _ _ Hrd)|]. intros E. destruct Hty. rewrite E. set_solver. }
  split; try done.
  - exists (grant_from m (Raft.term r')). split; [eapply step_moves; [done|congruence|done]|].
    intros k (Hgr & -> & Htm). destruct Hg as [Hin Hto].
    { right. unfold is_grant, is_type, vote_message in *. destruct (m_msg_type m); set_solver. }
    pose proof (ci_net _ _ _ (ar_cluster _ _ _ Hrel) m Hin Hgr) as Hgt. unfold granted in Hgt. congruence.
  - by eapply step_promotes.
  - eapply step_commit; [done|apply Hn|lia].
  - eapply step_turn; [done|done|]. intros Hl. rewrite (no_self _ _ _ _ Hok); [done|by right].
  - eapply step_reads; [done|]. intros E. destruct Hty. rewrite E. set_solver.
  - intros [Hin Hto]%Hg. by destruct (ar_net _ _ _ Hrel m Hin).
  - apply Hio.
Qed.

Lemma rel_idle s (x : log_cluster S) i r : agree_rel c s x → nodes (members x) !! i = Some r → room 1 r → idle r.
Proof.
  intros Hrel Hi Hr. pose proof (ar_node _ _ _ Hrel i r Hi) as Hn. split; [apply Hn|done|apply Hn|apply Hn|].
  intros Hl. by apply (nr_lead _ _ _ _ Hn).
Qed.

(** A turn without a message. *)
Lemma quiet_took s (x : log_cluster S) i r r' : agree_rel c s x → nodes (members x) !! i = Some r →
  moves (λ _, False) r r' → promotes r r' → sound r r' ∧ log_effect default_Message r r' → backed r r' →
  turn default_Message r r' → reads r r' → settled c r' → took c s default_Message i r r'.
Proof.
  intros Hrel Hi Hmv Hpm [Hso He] Hb Htu Hrd Hst. pose proof (ar_node _ _ _ Hrel i r Hi) as Hn. split; try done.
  - by exists (λ _, False).
  - destruct (Hb (nr_ok _ _ _ _ Hn)); [by apply ce_same|by apply ce_quorum].
  - set_solver.
  - intros [Hg|Hg]; [|unfold vote_message in Hg]; set_solver.
Qed.
End turning.

(** ** What the hosts do *)
Section hosting.
Context {S : Type} `{StorageLaws S} `{HashOrder} `{Rand} (c : Joint.Configuration) (Hc : Joint.incoming c ≠ ∅).
#[local] Set Default Proof Using "All".
#[local] Existing Instance eta_astate.
Implicit Types (r : Raft.t S) (s : astate).

(** Node [i] is replaced by one that remembers its term and vote. *)
Record replaced s s' (i : N) r r' : Prop := mk_replaced {
  rp_ago : ago c i s s';
  rp_votes : a_votes s' = a_votes s;
  rp_base : a_base s' = a_base s;
  rp_ok : node_ok c (a_votes s) i r';
  rp_rel : node_rel c s' i r';
  rp_term : Raft.term r' = Raft.term r;
  rp_state : Raft.state r' = Candidate → Raft.state r = Candidate
}.

Lemma replace_rel s s' (x : log_cluster S) i r r' ms (ds : gmap N S) : agree_rel c s x → nodes (members x) !! i = Some r →
  rtc (astep c) s s' → replaced s s' i r r' →
  (∀ d, ds !! i = Some d → disk_rel s' i r' d) → (∀ j, j ≠ i → ds !! j = disks x !! j) →
  (∀ m, m ∈ ms → m ∈ net (members x) ∨ m ∈ Raft.msgs r ∧ msg_rel c s' m ∧ acked (a_sent s') m) →
  agree_rel c s' (mkLogCluster (mkCluster (<[i := r']> (nodes (members x))) (witnesses (members x)) ms) ds).
Proof.
  intros Hrel Hi Hst [G V B Hok Hn Et Hcd] Hd Hds Hms.
  pose proof (ar_cluster _ _ _ Hrel) as Hci. assert (∀ m, m ∈ ms → is_grant m = true → granted (a_votes s) m) as Hgr.
  { intros m Hm Hg. destruct (Hms m Hm) as [Hin|[Hin _]]; [by apply (ci_net _ _ _ Hci)|].
    destruct (ci_node _ _ _ Hci i r Hi) as [Hok0 _]. by apply (no_msgs _ _ _ _ Hok0). }
  assert (cluster_inv c (mkCluster (<[i := r']> (nodes (members x))) (witnesses (members x)) ms) (a_votes s')) as Hci'.
  { rewrite V. by eapply cluster_inv_replace. }
  split; [by eapply steps_ainv; [..|apply Hrel]|done|..]; simpl.
  - intros j rj Hj. destruct (decide (j = i)) as [->|Hne]; [rewrite lookup_insert_eq in Hj; by injection Hj as <-|].
    eapply (node_rel_other c s s' i); [|done|done|done|done|done]. rewrite lookup_insert_ne in Hj by done. by apply Hrel.
  - intros j rj d Hj Hjd. destruct (decide (j = i)) as [->|Hne]; [rewrite lookup_insert_eq in Hj; injection Hj as <-; auto|].
    rewrite lookup_insert_ne in Hj by done. rewrite Hds in Hjd by done. destruct (ar_disk _ _ _ Hrel j rj d Hj Hjd) as [D1 D2 D3].
    destruct (ag_other _ _ _ _ G j Hne) as (_ & _ & _ & _ & Eh & _). split; [done|done|by rewrite Eh].
  - intros m Hm. destruct (Hms m Hm) as [Hin|[_ ?]]; [|done]. destruct (ar_net _ _ _ Hrel m Hin) as [Hr Ha].
    split; [by eapply msg_rel_mono|]. eapply acked_mono; [exact Ha|]. intros v t k. apply G.
  - intros t Ht. rewrite B in Ht. destruct (ar_owner _ _ _ Hrel t Ht) as (j & rj & Hj & Hw & Hle & Hcj).
    destruct (decide (j = i)) as [->|Hne].
    + simplify_eq. exists i, r'. rewrite lookup_insert_eq, V, Et. split_and!; [done|done|done|]. intros E Hs. by apply Hcj, Hcd.
    + exists j, rj. by rewrite lookup_insert_ne, V.
Qed.

(** A node whose log was rewritten, or whose queue was emptied. *)
Lemma node_ok_queue h i r l ms : node_ok c h i r → (∀ m, m ∈ ms → m ∈ Raft.msgs r) →
  node_ok c h i (r <| Raft.raft_log := l |> <| Raft.msgs := ms |>).
Proof. intros [A B C D E F G L] Hms. split; try done. intros m Hm. apply F, Hms, Hm. Qed.

(** *** Writing *)
Lemma write_dummies (l : RaftLog.t S) : log_ok l → Unstable.snapshot (RaftLog.unstable l) = None →
  sv_dummy (log_view l) = sv_dummy (st_view (RaftLog.store l)).
Proof. intros [Hwf Hix] Hs. pose proof (ix_persisted _ Hix). apply (log_view_low _ 0); [done|lia|done]. Qed.

Lemma write_keeps s (x : log_cluster S) i r l d (k : nat) : node_rel c s i r → writes r l d →
  take k (a_disk s i) = take k (a_log s i) → (k ≤ length (a_disk s i))%nat → (k ≤ length (a_log s i))%nat →
  (k ≤ nat_of (vlast (st_view d)))%nat.
Proof.
  intros Hn [[So Ss Sl] Wc Ws Ww Wv Wp Wk Wh] E Kd Kl. pose proof (nr_disk _ _ _ _ Hn) as Fd. pose proof (nr_log _ _ _ _ Hn) as Fl.
  destruct (decide (N.of_nat k ≤ sv_dummy (disk_of r))) as [Hlo|Hhi].
  - pose proof (vs_dummy _ _ Ss). pose proof (write_dummies _ (nr_ok _ _ _ _ Hn) (nr_snap _ _ _ _ Hn)) as E1.
    pose proof (write_dummies _ So Ws) as E2. rewrite <-Wv in E2. unfold vlast. lia.
  - destruct k as [|k0]; [lia|]. destruct (lookup_lt_is_Some_2 (a_log s i) k0) as [e He]; [lia|].
    pose proof (write_dummies _ (nr_ok _ _ _ _ Hn) (nr_snap _ _ _ _ Hn)) as E1.
    enough (N.of_nat (Datatypes.S k0) ≤ vlast (st_view d)) by lia. apply (Wk _ e).
    + rewrite (full_lookup (a_disk s i)) by (done || lia). rewrite <-He. replace (nat_of _ - 1)%nat with k0 by lia.
      by apply (take_same_lookup _ _ _ _ E); lia.
    + rewrite (full_lookup (a_log s i)) by (done || lia). rewrite <-He. f_equal. lia.
Qed.

Lemma write_rel s (x : log_cluster S) i r l d : agree_rel c s x → nodes (members x) !! i = Some r → writes r l d →
  ∃ s', rtc (astep c) s s' ∧
    agree_rel c s' (mkLogCluster (set_node (members x) i (r <| Raft.raft_log := l |>)) (<[i := d]> (disks x))).
Proof.
  intros Hrel Hi Hw. pose proof (ar_node _ _ _ Hrel i r Hi) as Hn. pose proof Hw as [[So Ss Sl] Wc Ws Ww Wv Wp Wk Wh].
  set (n := nat_of (vlast (st_view d))). pose proof (nr_log _ _ _ _ Hn) as Fl. pose proof (full_length _ _ Fl) as Hlen.
  assert (full (a_log s i) (log_view l)) as Fl'.
  { pose proof (full_vsub _ _ _ Fl Ss) as F. rewrite Sl, <-Hlen, take_ge in F by lia. done. }
  pose proof (vsub_last _ _ Wp) as Hlast.
  assert (astep c s (s <| a_disk ::= <[i := take n (a_log s i)]> |> <| a_hard ::= <[i := Nat.min (a_commit s i) n]> |>)) as Hst.
  { apply as_write; [unfold n; lia|]. intros k. by apply (write_keeps s x i r l d). }
  match type of Hst with astep _ _ ?y => set (s' := y) in Hst end. exists s'. split; [by apply rtc_once|].
  assert (a_hard s' i = Nat.min (a_commit s i) n) as Eh by (simpl; by rewrite fn_lookup_insert).
  destruct (ci_node _ _ _ (ar_cluster _ _ _ Hrel) i r Hi) as [Hok _].
  apply (replace_rel s s' x i r (r <| Raft.raft_log := l |>)); [done|done|by apply rtc_once| | | |by left].
  - assert (ago c i s s') as G.
    { split; [by apply (aext_refl c)|done|by intros k|done| |by left].
      intros v Hv. simpl. rewrite !fn_lookup_insert_ne by done. by split_and!. }
    split; [done|done|done|by apply (node_ok_queue _ _ _ l (Raft.msgs r))| |done|done].
    + split; try (by apply Hn); simpl.
      * done.
      * done.
      * done.
      * rewrite Wc. apply (nr_commit _ _ _ _ Hn).
      * rewrite fn_lookup_insert, <-Wv. by apply full_vsub with (v := log_view l).
      * rewrite fn_lookup_insert, <-Wv, (nr_commit _ _ _ _ Hn). pose proof (write_dummies _ So Ws) as Ed. rewrite <-Wv in Ed.
        pose proof (ix_dummy _ (proj2 So)) as Hd. rewrite Ed, Wc in Hd. apply Nat.min_glb; [lia|]. unfold n, vlast. lia.
      * intros Hl. destruct (nr_lead _ _ _ _ Hn Hl) as (? & ? & Hf & ?). split_and!; [done|done| |done].
        intros v p Hp. simpl. rewrite Sl. by apply (Hf v p).
      * intros m Hm. destruct (nr_msgs _ _ _ _ Hn m Hm) as [Hmr Ha]. split; [|done].
        by eapply (msg_rel_mono c i s).
  - intros d' Hd'. rewrite lookup_insert_eq in Hd'. injection Hd' as <-. split; [done|by rewrite Wv|].
    intros rs Hrs. rewrite Eh, (nr_commit _ _ _ _ Hn). specialize (Wh rs Hrs). unfold n. lia.
  - intros j Hj. by rewrite lookup_insert_ne.
Qed.

(** *** Sending *)
Lemma send_all (ms : list Message) : ∀ s i, (∀ m, m ∈ ms → acked (λ v t k, v = i ∧ a_acks s i t k) m) →
  (∀ m, m ∈ ms → is_ack m → take (nat_of (m_index m)) (a_disk s i) = take (nat_of (m_index m)) (a_log s i)) →
  ∃ s', puts c i s s' (a_term s i) (a_log s i) (a_commit s i) ∧ a_votes s' = a_votes s ∧ a_base s' = a_base s ∧
    (∀ t, lead s' t = lead s t) ∧ ∀ m, m ∈ ms → acked (a_sent s') m.
Proof.
  induction ms as [|m ms IH]; intros s i Ha Hd.
  { exists s. split_and!; [by apply puts_refl|done|done|done|]. intros m Hm. by apply elem_of_nil in Hm. }
  destruct (IH s i) as (s1 & P1 & V1 & B1 & L1 & A1); [intros; apply Ha; by right|intros; apply Hd; [by right|done]|].
  pose proof P1 as [_ G1 Et El Ec Ed _ Hak].
  assert (acked (a_sent s1) m → ∃ s', puts c i s s' (a_term s i) (a_log s i) (a_commit s i) ∧ a_votes s' = a_votes s ∧
    a_base s' = a_base s ∧ (∀ t, lead s' t = lead s t) ∧ ∀ m', m' ∈ m :: ms → acked (a_sent s') m') as Hsame.
  { intros Hm. exists s1. split_and!; [done..|]. intros m' [->|?]%elem_of_cons; auto. }
  destruct (decide (m_msg_type m = MsgAppendResponse ∧ m_reject m = false)) as [Hm|Hm]; [|apply Hsame; by intros ?].
  destruct (Ha m (list_elem_of_here _ _) Hm) as [?|(Hz & Hf & Hk)]; [apply Hsame; intros _; by left|].
  destruct (puts_send c Hc i (m_term m) (nat_of (m_index m)) s1) as (s2 & P2 & V2 & B2 & C2 & L2 & S2); [auto| |].
  { rewrite Ed, El. apply Hd; [left|done]. }
  rewrite Et, El, Ec in P2. exists s2. split_and!; [by eapply puts_trans|congruence|congruence|intros t; by rewrite L2|].
  intros m' [->|Hin]%elem_of_cons.
  - intros _. right. by rewrite Hf.
  - eapply acked_mono; [by apply A1|]. intros v t k. apply P2.
Qed.

Lemma durable_stored s i r k : ainv c s → node_rel c s i r → durable r k →
  take (nat_of k) (a_disk s i) = take (nat_of k) (a_log s i).
Proof.
  intros Hai Hn Hd. pose proof (write_dummies _ (nr_ok _ _ _ _ Hn) (nr_snap _ _ _ _ Hn)) as Ed. symmetry.
  apply (full_agree _ _ (view r) (disk_of r)); [apply Hn|apply Hn|done| |done].
  destruct (ai_safe _ _ Hai i) as [S1 S2]. eapply take_shorter; [exact (safe_agree c _ Hai Hc _ _ _ _ _ _ S1 S2)|].
  pose proof (nr_dummy _ _ _ _ Hn). pose proof (ix_dummy _ (proj2 (nr_ok _ _ _ _ Hn))).
  rewrite (nr_commit _ _ _ _ Hn), Ed in *. apply Nat.min_glb; [lia|done].
Qed.

Lemma send_rel s (x : log_cluster S) i r ms ms' : agree_rel c s x → nodes (members x) !! i = Some r →
  (∀ m, m ∈ ms → m ∈ Raft.msgs r) → (∀ m, m ∈ ms' → m ∈ Raft.msgs r) →
  (∀ m, m ∈ ms → is_ack m → durable r (m_index m)) →
  ∃ s', rtc (astep c) s s' ∧ agree_rel c s' (mkLogCluster (mkCluster (<[i := r <| Raft.msgs := ms' |>]> (nodes (members x)))
          (witnesses (members x)) (net (members x) ++ ms)) (disks x)).
Proof.
  intros Hrel Hi Hms Hms' Hd. pose proof (ar_node _ _ _ Hrel i r Hi) as Hn. pose proof (ar_inv _ _ _ Hrel) as Hai.
  destruct (send_all ms s i) as (s' & [R G Et El Ec Ed Eh Hak] & V & B & L & A).
  { intros m Hm. by apply (nr_msgs _ _ _ _ Hn), Hms. }
  { intros m Hm Hk. apply (durable_stored s i r); [done|done|by apply Hd]. }
  exists s'. split; [done|]. destruct (ci_node _ _ _ (ar_cluster _ _ _ Hrel) i r Hi) as [Hok _].
  apply (replace_rel s s' x i r (r <| Raft.msgs := ms' |>)); [done|done|done| | |done|].
  - split; [done|done|done|by apply (node_ok_queue _ _ _ (Raft.raft_log r) ms')| |done|done].
    destruct Hn as [N1 N2 N3 N4 N5 N6 N7 N8 N9 N10 N11 N12].
    split; rewrite ?Et, ?El, ?Ec, ?Ed, ?Eh; simpl; try done.
    + intros Hl. destruct (N10 Hl) as (? & ? & ? & Hk). rewrite B, L. split_and!; [done..|].
      intros v. destruct (Hk v); [by left|right]. by apply G.
    + intros Hcd. apply (ag_camp _ _ _ _ G). auto.
    + intros m Hm. destruct (N12 m (Hms' m Hm)) as [? Ha]. split; [by eapply msg_rel_mono|].
      eapply acked_mono; [exact Ha|]. intros v t k [? ?]. auto.
  - intros d Hd'. destruct (ar_disk _ _ _ Hrel i r d Hi Hd') as [D1 D2 D3]. split; [done|done|by rewrite Eh].
  - intros m [|Hm]%elem_of_app; [by left|right]. split_and!; [auto| |auto]. eapply msg_rel_mono; [|exact G].
    by apply (nr_msgs _ _ _ _ Hn), Hms.
Qed.

(** *** Restarting *)
Lemma new_fresh cfg d rs r' : Raft.new cfg d = Done (Ok r') → st_wf d → st_initial_state d = Ok rs →
  Raft.msgs r' = [] ∧ Raft.snap r' = None ∧ RaftLog.store (Raft.raft_log r') = d ∧
  (committed r' = sv_dummy (st_view d) ∨ committed r' = hs_commit (Storage.hard_state rs)).
Proof.
  unfold Raft.new. intros Hs Hwf Hrs. rewrite Hrs in Hs. destruct (Config.validate cfg); [|by inv_done Hs].
  apply outcome_bind_Done in Hs as (l & Hl & Hs). apply outcome_bind_Done in Hs as (li & _ & Hs).
  destruct (Changer.restore _ _ _) as [p [[]|e]]; [|by inv_done Hs].
  assert (Unstable.snapshot (RaftLog.unstable l) = None ∧ RaftLog.store l = d ∧ RaftLog.committed l = sv_dummy (st_view d)) as (L1 & L2 & L3).
  { unfold RaftLog.new in Hl. rewrite (st_first_index_law _ Hwf), (st_last_index_law _ Hwf) in Hl.
    cbn [unwrap_res mbind outcome_bind] in Hl. inv_done Hl. pose proof (st_bound _ Hwf). simpl. split_and!; [done|done|].
    rewrite u64_sub_small; lia. }
  apply outcome_bind_Done in Hs as ([r1 cs] & Hp & Hs). destruct (negb _); [done|].
  unfold Raft.post_conf_change, Raft.is_role in Hp. simpl in Hp. rewrite andb_false_r in Hp. simpl in Hp. injection Hp as <- _.
  apply outcome_bind_Done in Hs as (r2 & H2' & Hs). apply outcome_bind_Done in Hs as (r3 & H3' & Hs).
  apply outcome_bind_Done in Hs as (r4 & H4' & Hs). injection Hs as <-.
  assert (Raft.msgs r2 = [] ∧ Raft.snap r2 = None ∧ RaftLog.store (Raft.raft_log r2) = d ∧ Raft.state r2 = Follower ∧
    (committed r2 = sv_dummy (st_view d) ∨ committed r2 = hs_commit (Storage.hard_state rs))) as (M2 & N2 & S2 & T2 & C2).
  { case_bool_decide; [injection H2' as <-; split_and!; try done; by left|]. unfold Raft.load_state in H2'.
    apply outcome_bind_Done in H2' as (li' & _ & H2'). destruct (_ || _); inv_done H2'. split_and!; try done. by right. }
  assert (Raft.msgs r3 = [] ∧ Raft.snap r3 = None ∧ RaftLog.store (Raft.raft_log r3) = d ∧ committed r3 = committed r2) as (M3 & N3 & S3 & C3).
  { destruct (0 <? Config.applied cfg); [|injection H3' as <-; by split_and!].
    unfold Raft.commit_apply_internal, Raft.is_role in H3'. simpl in H3'. rewrite T2, !andb_false_r in H3'. by inv_done H3'. }
  unfold Raft.become_follower in H4'. apply outcome_bind_Done in H4' as (r5 & Hr & E).
  apply reset_spec in Hr as (_ & _ & _ & _ & L5 & _ & M5 & _). inv_done E. simpl. unfold Raft.snap in *. simpl.
  rewrite L5, M5, C3. by split_and!.
Qed.

Lemma restart_rel s (x : log_cluster S) i r cfg d rs r' : agree_rel c s x → nodes (members x) !! i = Some r →
  disks x !! i = Some d → Config.id cfg = i → Config.batch_append cfg = false → st_initial_state d = Ok rs →
  hs_term (Storage.hard_state rs) = Raft.term r → hs_vote (Storage.hard_state rs) = Raft.vote r →
  Raft.new cfg d = Done (Ok r') → settled c r' → RaftLog.applied (Raft.raft_log r') ≤ committed r' →
  ∃ s', rtc (astep c) s s' ∧ agree_rel c s' (on_member x i r').
Proof.
  intros Hrel Hi Hd Hcfg Hba Hrs Ht Hv Hnew [Hvo Hwf] Hap. pose proof (ar_node _ _ _ Hrel i r Hi) as Hn.
  destruct (ar_disk _ _ _ Hrel i r d Hi Hd) as [D1 D2 D3]. destruct (new_log _ _ _ Hnew D1 Hap) as (Hok & Hview & Hb & _).
  destruct (new_fresh _ _ _ _ Hnew D1 Hrs) as (Hm & Hsn & Hst & Hcm).
  destruct (ci_node _ _ _ (ar_cluster _ _ _ Hrel) i r Hi) as [[A B C D E F G L] _].
  destruct (restart_moves r cfg d rs r') as (R1 & R2 & R3 & R4 & R5); [congruence|done..|].
  assert ((nat_of (committed r') ≤ a_hard s i)%nat) as Hk.
  { pose proof (ix_committed _ (proj2 Hok)) as Hl. rewrite Hview in Hl. pose proof (nr_dummy _ _ _ _ Hn) as Hdm. rewrite <-D2 in Hdm.
    specialize (D3 rs Hrs). destruct Hcm as [->|Ehs]; [done|]. rewrite <-Ehs in D3. lia. }
  pose proof (as_restart c s i _ Hk) as Hstep. match type of Hstep with astep _ _ ?y => set (s' := y) in Hstep end.
  exists s'. split; [by apply rtc_once|].
  apply (replace_rel s s' x i r r'); [done|done|by apply rtc_once| | |done|by left].
  - split; [|done|done| | |congruence|congruence].
    + split; [by apply (aext_refl c)|done|by intros k|done| |by left].
      intros v Hne. simpl. rewrite !fn_lookup_insert_ne by done. by split_and!.
    + split; [congruence|done|done|by rewrite R2, R3|intros [|]; congruence| |congruence|congruence].
      intros m Hin. rewrite Hm in Hin. by apply elem_of_nil in Hin.
    + split; simpl; rewrite ?fn_lookup_insert, ?Hst, ?Hview; try done.
      * congruence.
      * rewrite R2. apply Hn.
      * rewrite D2. apply Hn.
      * rewrite D2. apply Hn.
      * rewrite D2. apply Hn.
      * congruence.
      * congruence.
      * intros m Hin. rewrite Hm in Hin. by apply elem_of_nil in Hin.
  - intros d' Hd'. rewrite Hd in Hd'. injection Hd' as <-. split; [done|by rewrite Hst|done].
Qed.
End hosting.

(** ** Runs *)
Section runs.
Context {S : Type} `{StorageLaws S} `{HashOrder} `{Rand} (c : Joint.Configuration).
#[local] Set Default Proof Using "All".
Implicit Types (r : Raft.t S) (s : astate) (x : log_cluster S).

Lemma agree_step_rel s x x' : Joint.incoming c ≠ ∅ → agree_rel c s x → agree_step c x x' →
  ∃ s', rtc (astep c) s s' ∧ agree_rel c s' x'.
Proof.
  intros Hc Hrel Hstep.
  destruct Hstep as [i r m r' y Hi Hg Hty Hpre Hio Hr Hs Hst|i r r' b Hi Hb Hr Hs Hst|i r r' Hi Hr Hop Hst|i r l d Hi Hw
    |i r ms ms' Hi Hms Hms' Hd|i r cfg d rs r' Hi Hd Hcfg Hba Hrs Ht Hv Hnew Hst Hap|ms Hms].
  - eapply turn_rel; [done|done|done|]. by eapply message_took.
  - destruct (ci_node _ _ _ (ar_cluster _ _ _ Hrel) i r Hi) as [Hok _]. pose proof (ar_node _ _ _ Hrel i r Hi) as Hn.
    eapply turn_rel; [done|done|done|]. eapply quiet_took; [done|done|done|..|done].
    + eapply tick_moves; [done| |done]. rewrite (no_id _ _ _ _ Hok). apply Hok.
    + by eapply tick_promotes.
    + by eapply tick_drives; [|apply Hn|].
    + by eapply tick_backed.
    + eapply tick_turn; [done| |done]. eapply rel_idle; [done|done|done|lia].
    + by eapply tick_reads.
  - pose proof (plain_host_op _ _ Hop) as Hho. pose proof (ar_node _ _ _ Hrel i r Hi) as Hn.
    eapply turn_rel; [done|done|done|]. eapply quiet_took; [done|done|done|..|done].
    + by apply calm_moves, host_op_calm.
    + by apply host_op_promotes.
    + by eapply host_op_drives; [|apply Hn|].
    + by eapply host_op_backed.
    + eapply plain_op_turn; [done|]. by eapply rel_idle.
    + by eapply host_op_reads.
  - by eapply write_rel.
  - by eapply send_rel.
  - by eapply restart_rel.
  - exists s. split; [done|]. destruct Hrel as [R1 R2 R3 R4 R5 R6]. destruct R2 as [C1 C2 C3].
    split; simpl; [done|split; simpl; [done|done|]; intros m Hm; by apply C3, Hms|done|done|intros m Hm; by apply R5, Hms|done].
Qed.

(** Where a cluster starts: empty logs, no votes, nothing on its way. *)
Definition blank_log (v : stable_view) : Prop := sv_dummy v = 0 ∧ sv_ents v = [] ∧ ∀ t, sv_dummy_term v = Some t → t = 0.

Record agree_init x : Prop := mk_agree_init {
  gi_cluster : cluster_init c (members x);
  gi_witness : ∀ i w, witnesses (members x) !! i = Some w → Witness.vote w = 0;
  gi_node : ∀ i r, nodes (members x) !! i = Some r → Raft.vote r = 0 ∧ log_ok (Raft.raft_log r) ∧
    Raft.batch_append r = false ∧ Raft.snap r = None ∧ witness_free r ∧ blank_log (view r) ∧ blank_log (disk_of r);
  gi_msgs : ∀ i r m, nodes (members x) !! i = Some r → m ∈ Raft.msgs r → ¬ genuine m;
  gi_net : ∀ m, m ∈ net (members x) → ¬ genuine m;
  gi_disk : ∀ i r d, nodes (members x) !! i = Some r → disks x !! i = Some d → st_wf d ∧ st_view d = disk_of r
}.

(** The protocol's start, at the nodes' terms. *)
Definition astart x : astate :=
  mkA (λ i, match nodes (members x) !! i with Some r => Raft.term r | None => 0 end)
    (λ _, []) (λ _, []) (λ _, 0%nat) (λ _, 0%nat) (λ _ _, None) (λ _ _, None) (λ _, None) (λ _, [])
    (λ _ _ _, False) (λ _ _ _, False).

Lemma astart_init x : ainit (astart x).
Proof. split; [intros u; by split_and!|intros j t; by split_and!|intros u t k; split; by intros []]. Qed.

Lemma blank_full v : blank_log v → full [] v.
Proof. intros (? & ? & ?). by apply full_start. Qed.

Lemma dull_rel s (A : N → N → nat → Prop) m : ¬ genuine m → msg_rel c s m ∧ acked A m.
Proof.
  intros Hg. unfold genuine in Hg. split.
  - split; try (intros Hty; destruct Hg; left; rewrite Hty; set_solver).
    + intros Hty. destruct Hg. right. unfold vote_message. rewrite Hty. set_solver.
    + intros Hv. destruct Hg. by right.
  - intros [Hty _]. destruct Hg. left. rewrite Hty. set_solver.
Qed.

Lemma agree_init_rel x : agree_init x → agree_rel c (astart x) x.
Proof.
  intros [Gc Gw Gn Gm Gt Gd]. assert (∀ k t, initial_history (members x) k t = None) as Hh.
  { intros k t. unfold initial_history. destruct (nodes (members x) !! k) as [r|] eqn:E.
    - destruct (Gn k r E) as (-> & _). by rewrite N.eqb_refl, andb_false_r.
    - destruct (witnesses (members x) !! k) as [w|] eqn:Ew; [|done]. by rewrite (Gw k w Ew), N.eqb_refl, andb_false_r. }
  split.
  - apply ainit_ainv, astart_init.
  - eapply cluster_inv_ext; [by apply cluster_init_inv|]. intros k t. by rewrite Hh.
  - intros i r Hi. destruct (Gn i r Hi) as (Hv & Hok & Hb & Hs & Hw & Bv & Bd).
    destruct (in_node _ _ Gc i r Hi) as (_ & _ & _ & Hst & _).
    split; simpl; try done; try congruence.
    + by rewrite Hi.
    + by apply blank_full.
    + pose proof (ix_committed _ (proj2 Hok)) as Hc. destruct Bv as (E1 & E2 & _). unfold vlast, len in Hc.
      rewrite E1, E2 in Hc. simpl in Hc. lia.
    + by apply blank_full.
    + destruct Bd as (-> & _). done.
    + intros m Hm. apply dull_rel. by eapply Gm.
  - intros i r d Hi Hd. destruct (Gd i r d Hi Hd) as [D1 D2]. split; [done|done|]. intros rs _.
    destruct (Gn i r Hi) as (_ & _ & _ & _ & _ & _ & (E1 & E2 & _)). rewrite D2. unfold vlast, len. rewrite E1, E2. simpl. lia.
  - intros m Hm. apply dull_rel. by apply Gt.
  - intros t [b Hb]. done.
Qed.

Lemma agree_reachable x0 x : agree_init x0 → rtc (agree_step c) x0 x →
  ∃ s, rtc (astep c) (astart x0) s ∧ agree_rel c s x.
Proof.
  intros Hi Hr. pose proof (in_voters _ _ (gi_cluster _ Hi)) as Hc.
  assert (∃ s, rtc (astep c) (astart x0) s ∧ agree_rel c s x0) as Hs by (exists (astart x0); split; [done|by apply agree_init_rel]).
  revert Hs. generalize (astart x0). clear Hi. intros s0 Hs. induction Hr as [|x0 x1 x Hst _ IH]; [done|]. apply IH.
  destruct Hs as (s & R & Hrel). destruct (agree_step_rel _ _ _ Hc Hrel Hst) as (s' & R' & Hrel'). exists s'. split; [by etrans|done].
Qed.

(** Entries of nodes whose logs agree up to [k]. *)
Lemma agree_entry s x i j r1 r2 k : agree_rel c s x → nodes (members x) !! i = Some r1 → nodes (members x) !! j = Some r2 →
  take (nat_of k) (a_log s i) = take (nat_of k) (a_log s j) → k ≤ last_of r1 → sv_dummy (view r1) < k → sv_dummy (view r2) < k →
  ∃ e, vlookup (view r1) k = Some e ∧ vlookup (view r2) k = Some e.
Proof.
  intros Hrel H1' H2' E Hk D1 D2. destruct (proj2 (vlookup_is_Some (view r1) k)) as [e He]; [lia|]. exists e. split; [done|].
  rewrite (full_lookup (a_log s j)) by (by apply Hrel || lia). rewrite (full_lookup (a_log s i)) in He by (by apply Hrel || lia).
  rewrite <-He. symmetry. apply (take_same_lookup _ _ _ _ E). lia.
Qed.

(** What two nodes have committed is the same. *)
Lemma committed_agree s x i j r1 r2 k : Joint.incoming c ≠ ∅ → agree_rel c s x →
  nodes (members x) !! i = Some r1 → nodes (members x) !! j = Some r2 →
  sv_dummy (view r1) < k ≤ committed r1 → sv_dummy (view r2) < k ≤ committed r2 →
  ∃ e, vlookup (view r1) k = Some e ∧ vlookup (view r2) k = Some e.
Proof.
  intros Hc Hrel Hn1 Hn2 Hk1 Hk2.
  pose proof (ar_node _ _ _ Hrel i r1 Hn1) as N1. pose proof (ar_node _ _ _ Hrel j r2 Hn2) as N2.
  pose proof (ix_committed _ (proj2 (nr_ok _ _ _ _ N1))). eapply (agree_entry s x i j); [done|done|done| |lia|lia|lia].
  pose proof (ar_inv _ _ _ Hrel) as Hai. destruct (ai_safe _ _ Hai i) as [S1 _], (ai_safe _ _ Hai j) as [S2 _].
  eapply take_shorter; [exact (safe_agree c s Hai Hc _ _ _ _ _ _ S1 S2)|].
  rewrite (nr_commit _ _ _ _ N1), (nr_commit _ _ _ _ N2). lia.
Qed.
End runs.

(** ** Properties *)

(** C1: State machine safety.  In every state that a cluster under a fixed voter
    configuration without witnesses can reach from empty logs, with batching of
    appends turned off ([batch_append]), whatever its network loses, repeats, delays and reorders and whatever messages it
    invents that do not speak of votes, entries or commit indexes, with hosts
    that store, compact and restart from their storage and send an
    acknowledgement only once what it acknowledges is stored: two nodes that
    have committed an index that neither has compacted have the same entry
    there.  Runs that install snapshots, that answer reads at followers or in
    which a node is asked for a pre-vote by one of a later term than its own
    that tells it a commit index are not covered. *)
Theorem state_machine_safety {S} `{StorageLaws S} `{HashOrder} `{Rand} (c : Joint.Configuration)
    (x0 x : log_cluster S) (i j : N) (r1 r2 : Raft.t S) (k : N)
    (Hinit : agree_init c x0) (Hrun : rtc (agree_step c) x0 x)
    (Hn1 : nodes (members x) !! i = Some r1) (Hn2 : nodes (members x) !! j = Some r2)
    (Hk1 : sv_dummy (log_view (Raft.raft_log r1)) < k ≤ RaftLog.committed (Raft.raft_log r1))
    (Hk2 : sv_dummy (log_view (Raft.raft_log r2)) < k ≤ RaftLog.committed (Raft.raft_log r2)) :
  ∃ e, vlookup (log_view (Raft.raft_log r1)) k = Some e ∧ vlookup (log_view (Raft.raft_log r2)) k = Some e.
Proof.
  destruct (agree_reachable c x0 x Hinit Hrun) as (s & _ & Hrel).
  eapply (committed_agree c s x i j); [by eapply in_voters, gi_cluster|done..].
Qed.

(** C2: Leader completeness.  In every such state (fixed voters, no witnesses,
    [batch_append] off, no snapshots, no reads answered at followers, no
    pre-vote of a later term with a commit index), a leader whose term is not
    below that of a node has every entry that the node has committed, unless
    it has compacted it. *)
Theorem leader_completeness {S} `{StorageLaws S} `{HashOrder} `{Rand} (c : Joint.Configuration)
    (x0 x : log_cluster S) (i j : N) (r1 r2 : Raft.t S) (k : N)
    (Hinit : agree_init c x0) (Hrun : rtc (agree_step c) x0 x)
    (Hn1 : nodes (members x) !! i = Some r1) (Hn2 : nodes (members x) !! j = Some r2)
    (Hlead : Raft.state r2 = Leader) (Hterm : Raft.term r1 ≤ Raft.term r2)
    (Hk1 : sv_dummy (log_view (Raft.raft_log r1)) < k ≤ RaftLog.committed (Raft.raft_log r1))
    (Hk2 : sv_dummy (log_view (Raft.raft_log r2)) < k) :
  ∃ e, vlookup (log_view (Raft.raft_log r1)) k = Some e ∧ vlookup (log_view (Raft.raft_log r2)) k = Some e.
Proof.
  destruct (agree_reachable c x0 x Hinit Hrun) as (s & _ & Hrel). pose proof (in_voters _ _ (gi_cluster _ _ Hinit)) as Hc.
  pose proof (ar_node _ _ _ Hrel i r1 Hn1) as N1. pose proof (ar_node _ _ _ Hrel j r2 Hn2) as N2.
  pose proof (ix_committed _ (proj2 (nr_ok _ _ _ _ N1))). eapply (agree_entry c s x i j); [done|done|done| |lia|lia|lia].
  pose proof (ar_inv _ _ _ Hrel) as Hai. destruct (ai_safe _ _ Hai i) as [S1 _].
  rewrite (nr_term _ _ _ _ N1), (nr_commit _ _ _ _ N1) in S1. destruct (nr_lead _ _ _ _ N2 Hlead) as (Hb & -> & _).
  apply (safe_transfer c s _ (a_log s i) _ _ (Raft.term r2)) in S1; [|done|done].
  destruct (safe_lead c s Hai Hc _ _ _ S1 Hb) as (E & _). eapply take_shorter; [exact E|lia].
Qed.

(** C10: Every run of such a cluster (fixed voters, no witnesses, [batch_append]
    off, no snapshots, no reads answered at followers, no pre-vote of a later
    term with a commit index) is one of the abstract protocol of [Agreement], from the state in which no member has logged, voted for, won
    or acknowledged anything: the state it reaches is related to the protocol's
    by [agree_rel], in which what a node has in its log and in its storage,
    what it has committed and what its messages acknowledge or ask for is what
    its member of the protocol has. *)
Theorem cluster_refines_agreement {S} `{StorageLaws S} `{HashOrder} `{Rand} (c : Joint.Configuration) (x0 x : log_cluster S)
    (Hinit : agree_init c x0) (Hrun : rtc (agree_step c) x0 x) :
  ∃ s0 s, ainit s0 ∧ rtc (astep c) s0 s ∧ agree_rel c s x.
Proof.
  destruct (agree_reachable c x0 x Hinit Hrun) as (s & R & Hrel). exists (astart x0), s. split; [|done]. by apply (astart_init c).
Qed.

(** ** Witnesses of the hypotheses *)

(** Node 1 campaigns, node 2 votes for it, node 1 leads and both store its
    first entry; node 1 commits it once node 2 has acknowledged it, and node 2
    does when it is told. *)
Section samples.
#[local] Existing Instances w_rand w_proto elements_order.

Abbreviation node := (Raft.t MemStorage.t).
Abbreviation w_laws := (@mem_storage_laws w_proto).

Definition w_take (r : node) : node := r <| Raft.msgs := [] |>.

(** The host stores what is unstable. *)
Definition w_stable (r : node) : RaftLog.t MemStorage.t :=
  let l := Raft.raft_log r in
  match MemStorage.append (RaftLog.store l) (RaftLog.unstable_entries l) with
  | Done d => match RaftLog.stable_entries (l <| RaftLog.store := d |>) 1 1 with Done l' => l' | Panicked => l end
  | Panicked => l
  end.
Definition w_store (r : node) : node := r <| Raft.raft_log := w_stable r |>.
Definition w_persist (r : node) : node := match Raft.on_persist_entries r 1 1 with Done r' => r' | Panicked => r end.

(** The first message to node [i] among those that [r] has to send. *)
Definition w_mail (i : N) (r : node) : Message :=
  default default_Message (head (filter (λ m, m_to m = i) (Raft.msgs r))).

Definition n1_calls : node := Eval vm_compute in w_candidate.
Definition n2_votes : node := Eval vm_compute in w_step (w_node 2) (w_mail 2 n1_calls).
Definition n1_leads : node := Eval vm_compute in w_step (w_take n1_calls) (w_mail 1 n2_votes).
Definition n1_stores : node := Eval vm_compute in w_store n1_leads.
Definition n1_knows : node := Eval vm_compute in w_persist n1_stores.
Definition n2_takes : node := Eval vm_compute in w_step (w_take n2_votes) (w_mail 2 n1_knows).
Definition n2_stores : node := Eval vm_compute in w_store n2_takes.
Definition n1_commits : node := Eval vm_compute in w_step (w_take n1_knows) (w_mail 1 n2_stores).
Definition n2_commits : node := Eval vm_compute in w_step (w_take n2_stores) (w_mail 2 n1_commits).

Abbreviation w_agree_step := (@agree_step _ (@MemStorage.storage w_proto) w_proto w_laws elements_order w_rand w_voters).
Abbreviation w_log_view := (@log_view _ (@MemStorage.storage w_proto) w_proto w_laws).
Abbreviation w_last r := (vlast (@log_view _ (@MemStorage.storage w_proto) w_proto w_laws (Raft.raft_log r))).

Definition w_at (a b : node) (ms : list Message) (ds : gmap N MemStorage.t) : log_cluster MemStorage.t :=
  mkLogCluster (w_cluster a b ms) ds.

(** What a step needs of the message and of the nodes. *)
Definition w_fits (r : node) (m : Message) : bool :=
  bool_decide (m_msg_type m ∉ [MsgSnapshot; MsgSnapStatus; MsgReadIndexResp; MsgRequestPreVote]) &&
  bool_decide (Raft.term r < u64_max) && bool_decide (m_term m < u64_max) &&
  (negb (m_from m =? 0) && negb (m_term m =? 0) || bool_decide (m_msg_type m = MsgHup)).

Lemma w_input r m : w_fits r m = true → input_ok r m ∧ m_msg_type m ∉ [MsgSnapshot; MsgSnapStatus; MsgReadIndexResp] ∧
  (m_msg_type m = MsgRequestPreVote → m_commit m = 0 ∨ m_term m ≤ Raft.term r + 1).
Proof.
  unfold w_fits. rewrite !andb_true_iff, orb_true_iff, andb_true_iff, !negb_true_iff, !bool_decide_eq_true, !N.eqb_neq.
  intros (((Hty & Ht) & Hm) & Hz). split_and!; [split; [done|done|..]|set_solver|intros E; rewrite E in Hty; set_solver].
  - intros Hl. destruct Hz as [[? ?]|E]; [done|]. unfold from_leader in Hl. rewrite E in Hl. set_solver.
  - unfold is_grant, is_type. intros Hg. destruct Hz as [[? ?]|E]; [done|]. by rewrite E in Hg.
  - intros E. destruct Hz as [[? ?]|E']; [done|congruence].
Qed.

Definition w_settled (r : node) : bool :=
  bool_decide (voters_of r = w_voters) && bool_decide (replicate_to_witness (Tracker.epoch (Raft.prs r)) = (false, false)) &&
  negb (Raft.has_witness r).

Lemma w_settled_ok r : w_settled r = true → settled w_voters r.
Proof. unfold w_settled. rewrite !andb_true_iff, negb_true_iff, !bool_decide_eq_true. intros [[? ?] ?]. by split. Qed.

(** Steps of either node. *)
Lemma w_turn1 a b ms ds m a' y : (genuine m → m ∈ ms ∧ m_to m = 1) → w_fits a m = true →
  w_last a + (1 + len (m_entries m)) + 1 < u64_modulus → Raft.step a m = Done (a', y) → w_settled a' = true →
  w_agree_step (w_at a b ms ds) (w_at a' b ms ds).
Proof.
  intros Hg (Hio & Hty & Hpre)%w_input Hr Hs Hst%w_settled_ok.
  exact (gs_message w_voters (w_at a b ms ds) 1 a m a' y eq_refl Hg Hty Hpre Hio Hr Hs Hst).
Qed.

Lemma w_turn2 a b ms ds m b' y : (genuine m → m ∈ ms ∧ m_to m = 2) → w_fits b m = true →
  w_last b + (1 + len (m_entries m)) + 1 < u64_modulus → Raft.step b m = Done (b', y) → w_settled b' = true →
  w_agree_step (w_at a b ms ds) (w_at a b' ms ds).
Proof.
  intros Hg (Hio & Hty & Hpre)%w_input Hr Hs Hst%w_settled_ok.
  exact (gs_message w_voters (w_at a b ms ds) 2 b m b' y eq_refl Hg Hty Hpre Hio Hr Hs Hst).
Qed.

Abbreviation w_durable := (@durable _ (@MemStorage.storage w_proto) w_proto w_laws).
Lemma w_send1 a b ms ds : (∀ m, m ∈ Raft.msgs a → is_ack m → w_durable a (m_index m)) →
  w_agree_step (w_at a b ms ds) (w_at (w_take a) b (ms ++ Raft.msgs a) ds).
Proof.
  intros Hd. refine (gs_send w_voters (w_at a b ms ds) 1 a (Raft.msgs a) [] eq_refl _ _ Hd); [done|].
  intros m Hm. by apply elem_of_nil in Hm.
Qed.

Lemma w_send2 a b ms ds : (∀ m, m ∈ Raft.msgs b → is_ack m → w_durable b (m_index m)) →
  w_agree_step (w_at a b ms ds) (w_at a (w_take b) (ms ++ Raft.msgs b) ds).
Proof.
  intros Hd. refine (gs_send w_voters (w_at a b ms ds) 2 b (Raft.msgs b) [] eq_refl _ _ Hd); [done|].
  intros m Hm. by apply elem_of_nil in Hm.
Qed.

Abbreviation w_writes := (@writes _ (@MemStorage.storage w_proto) w_proto w_laws).
Definition w_log1 : RaftLog.t MemStorage.t := Eval vm_compute in Raft.raft_log n1_stores.
Definition w_log2 : RaftLog.t MemStorage.t := Eval vm_compute in Raft.raft_log n2_stores.
Definition w_entry : Entry := Eval vm_compute in default default_Entry (head (MemStorage.entries (RaftLog.store w_log1))).
Definition w_view : stable_view := mkView 0 (Some 0) [w_entry].

Lemma vsub_refl v : vsub v v.
Proof. split; [unfold vlast; lia|done|]. intros t Ht. unfold vterm. by rewrite N.eqb_refl, Ht. Qed.

Lemma w_writes_ok r l : w_log_view (Raft.raft_log r) = w_view → w_log_view l = w_view → MemStorage.view (RaftLog.store l) = w_view →
  MemStorage.view (RaftLog.store (Raft.raft_log r)) = mkView 0 (Some 0) [] →
  @log_ok _ (@MemStorage.storage w_proto) w_proto w_laws l → RaftLog.committed l = RaftLog.committed (Raft.raft_log r) →
  Unstable.snapshot (RaftLog.unstable l) = None → MemStorage.raft_state (RaftLog.store l) = MemStorage.raft_state w_disk →
  w_writes r l (RaftLog.store l).
Proof.
  intros V1 V2 V3 V4 Hok Hc Hs Hh. split.
  - split; [done|rewrite V1, V2; apply vsub_refl|by rewrite V1, V2].
  - done.
  - done.
  - apply Hok.
  - done.
  - rewrite V2. change (st_view (RaftLog.store l)) with (MemStorage.view (RaftLog.store l)). rewrite V3. apply vsub_refl.
  - intros i e He. change (st_view (RaftLog.store (Raft.raft_log r))) with (MemStorage.view (RaftLog.store (Raft.raft_log r))) in He.
    rewrite V4 in He. apply mk_is_Some, vlookup_is_Some in He. unfold vlast, len in He. simpl in He. lia.
  - intros rs Hrs. unfold st_initial_state, MemStorage.storage in Hrs. simpl in Hrs. injection Hrs as <-. rewrite Hh.
    change (hs_commit _) with 0. lia.
Qed.

Lemma w_write1 : w_writes n1_leads w_log1 (RaftLog.store w_log1).
Proof. apply w_writes_ok; try reflexivity. split; split; simpl; try done. Qed.

Lemma w_write2 : w_writes n2_takes w_log2 (RaftLog.store w_log2).
Proof. apply w_writes_ok; try reflexivity. split; split; simpl; try done. Qed.

Lemma w_host1 a b ms ds a' : w_last a + 1 + 1 < u64_modulus → Raft.on_persist_entries a 1 1 = Done a' → w_settled a' = true →
  w_agree_step (w_at a b ms ds) (w_at a' b ms ds).
Proof.
  intros Hr Hs Hst%w_settled_ok.
  exact (gs_host w_voters (w_at a b ms ds) 1 a a' eq_refl Hr (po_persist_entries a 1 1 a' Hs) Hst).
Qed.

(** No acknowledgement is on its way, or the entry is stored. *)
Lemma w_no_acks r : forallb (λ m, negb (bool_decide (m_msg_type m = MsgAppendResponse))) (Raft.msgs r) = true →
  ∀ m, m ∈ Raft.msgs r → is_ack m → w_durable r (m_index m).
Proof.
  intros Hf m Hm [Hty _]. rewrite forallb_forall in Hf. apply list_elem_of_In in Hm. specialize (Hf m Hm).
  by rewrite Hty in Hf.
Qed.

Lemma w_durable2 m : m ∈ Raft.msgs n2_stores → is_ack m → w_durable n2_stores (m_index m).
Proof.
  intros _ _ i Hi Hk. change (vlookup (MemStorage.view (RaftLog.store (Raft.raft_log n2_stores))) i =
    vlookup (w_log_view (Raft.raft_log n2_stores)) i). done.
Qed.

Definition w_disks : gmap N MemStorage.t := <[2 := RaftLog.store w_log2]> (<[1 := RaftLog.store w_log1]> ∅).
Definition w_start_at : log_cluster MemStorage.t := w_at (w_node 1) (w_node 2) [] ∅.
Definition w_end_at : log_cluster MemStorage.t := w_at (w_take n1_commits) n2_commits
  (((([] ++ Raft.msgs n1_calls) ++ Raft.msgs n2_votes) ++ Raft.msgs n1_knows) ++ Raft.msgs n2_stores ++ Raft.msgs n1_commits) w_disks.

(** The last message put on the network, or one among the last. *)
Lemma w_found (ms ms' : list Message) m : m ∈ ms' → m ∈ ms ++ ms'.
Proof. intros Hm. apply elem_of_app. by right. Qed.

Lemma w_agree_run : rtc w_agree_step w_start_at w_end_at.
Proof.
  eapply rtc_l; [apply (w_turn1 _ _ _ _ (w_hup 1) n1_calls (Ok tt)); [|vm_compute; reflexivity..]|].
  { intros Hg. exfalso. destruct Hg as [Hg|Hg]; [|unfold vote_message in Hg]; simpl in Hg; set_solver. }
  eapply rtc_l; [apply (w_send1 n1_calls), w_no_acks; vm_compute; reflexivity|].
  eapply rtc_l; [apply (w_turn2 _ _ _ _ (w_mail 2 n1_calls) n2_votes (Ok tt)); [|vm_compute; reflexivity..]|].
  { intros _. split; [|reflexivity]. apply w_found. vm_compute. set_solver. }
  eapply rtc_l; [apply (w_send2 _ n2_votes), w_no_acks; vm_compute; reflexivity|].
  eapply rtc_l; [apply (w_turn1 _ _ _ _ (w_mail 1 n2_votes) n1_leads (Ok tt)); [|vm_compute; reflexivity..]|].
  { intros _. split; [|reflexivity]. apply w_found. vm_compute. set_solver. }
  eapply rtc_l; [exact (gs_write w_voters (w_at n1_leads _ _ _) 1 n1_leads w_log1 _ eq_refl w_write1)|].
  match goal with |- rtc _ ?y _ => change y with (w_at n1_stores (w_take n2_votes)
    (([] ++ Raft.msgs n1_calls) ++ Raft.msgs n2_votes) (<[1 := RaftLog.store w_log1]> ∅)) end.
  eapply rtc_l; [apply (w_host1 n1_stores _ _ _ n1_knows); vm_compute; reflexivity|].
  eapply rtc_l; [apply (w_send1 n1_knows), w_no_acks; vm_compute; reflexivity|].
  eapply rtc_l; [apply (w_turn2 _ _ _ _ (w_mail 2 n1_knows) n2_takes (Ok tt)); [|vm_compute; reflexivity..]|].
  { intros _. split; [|reflexivity]. apply w_found. vm_compute. set_solver. }
  eapply rtc_l; [exact (gs_write w_voters (w_at _ n2_takes _ _) 2 n2_takes w_log2 _ eq_refl w_write2)|].
  match goal with |- rtc _ ?y _ => change y with (w_at (w_take n1_knows) n2_stores
    ((([] ++ Raft.msgs n1_calls) ++ Raft.msgs n2_votes) ++ Raft.msgs n1_knows) w_disks) end.
  eapply rtc_l; [apply (w_send2 _ n2_stores), w_durable2|].
  eapply rtc_l; [apply (w_turn1 _ _ _ _ (w_mail 1 n2_stores) n1_commits (Ok tt)); [|vm_compute; reflexivity..]|].
  { intros _. split; [|reflexivity]. apply w_found. vm_compute. set_solver. }
  eapply rtc_l; [apply (w_send1 n1_commits), w_no_acks; vm_compute; reflexivity|].
  eapply rtc_l; [apply (w_turn2 _ _ _ _ (w_mail 2 n1_commits) n2_commits (Ok tt)); [|vm_compute; reflexivity..]|].
  { intros _. split; [|reflexivity]. apply w_found. vm_compute. set_solver. }
  unfold w_end_at. rewrite (assoc_L (++)). reflexivity.
Qed.

Abbreviation w_agree_init := (@agree_init _ (@MemStorage.storage w_proto) w_proto w_laws).
Lemma w_agree_start : w_agree_init w_voters w_start_at.
Proof.
  assert (@log_ok _ (@MemStorage.storage w_proto) w_proto w_laws w_new_log) as Hok by (split; split; simpl; try done).
  assert (∀ i r, nodes (members w_start_at) !! i = Some r → Raft.raft_log r = w_new_log ∧ Raft.vote r = 0 ∧ Raft.batch_append r = false ∧
    w_settled r = true ∧ Raft.msgs r = []) as Hn.
  { intros i r Hi. unfold w_start_at, w_at, w_cluster in Hi. simpl in Hi.
    apply lookup_insert_Some in Hi as [[_ <-]|[_ Hi]]; [|apply lookup_singleton_Some in Hi as [_ <-]];
      split_and!; vm_compute; reflexivity. }
  split; [exact w_cluster_init|..].
  - intros i w Hw. unfold w_start_at, w_at, w_cluster in Hw. simpl in Hw. by apply lookup_singleton_Some in Hw as [_ <-].
  - intros i r Hi. destruct (Hn i r Hi) as (El & Ev & Eb & Es%w_settled_ok & _). unfold Raft.snap. rewrite El.
    refine (conj Ev (conj Hok (conj Eb (conj eq_refl (conj (proj2 Es) (conj _ _)))))); unfold blank_log;
      (split_and!; [reflexivity|reflexivity|by intros t [= <-]]).
  - intros i r m Hi Hm. destruct (Hn i r Hi) as (_ & _ & _ & _ & Em). rewrite Em in Hm. by apply elem_of_nil in Hm.
  - intros m Hm. by apply elem_of_nil in Hm.
  - intros i r d _ Hd. done.
Qed.

Lemma state_machine_safety_witness : ∃ e, vlookup (w_log_view (Raft.raft_log (w_take n1_commits))) 1 = Some e ∧
  vlookup (w_log_view (Raft.raft_log n2_commits)) 1 = Some e.
Proof.
  apply (@state_machine_safety _ (@MemStorage.storage w_proto) w_proto w_laws elements_order w_rand w_voters
    w_start_at w_end_at 1 2 (w_take n1_commits) n2_commits 1 w_agree_start w_agree_run eq_refl eq_refl);
    change (0 < 1 ≤ 1); lia.
Defined.

Lemma leader_completeness_witness : ∃ e, vlookup (w_log_view (Raft.raft_log n2_commits)) 1 = Some e ∧
  vlookup (w_log_view (Raft.raft_log (w_take n1_commits))) 1 = Some e.
Proof.
  apply (@leader_completeness _ (@MemStorage.storage w_proto) w_proto w_laws elements_order w_rand w_voters
    w_start_at w_end_at 2 1 n2_commits (w_take n1_commits) 1 w_agree_start w_agree_run eq_refl eq_refl eq_refl);
    [change (1 ≤ 1)|change (0 < 1 ≤ 1)|change (0 < 1)]; lia.
Defined.

Lemma cluster_refines_agreement_witness : ∃ s0 s, ainit s0 ∧ rtc (@astep elements_order w_voters) s0 s ∧
  @agree_rel _ (@MemStorage.storage w_proto) w_proto w_laws elements_order w_voters s w_end_at.
Proof.
  exact (@cluster_refines_agreement _ (@MemStorage.storage w_proto) w_proto w_laws elements_order w_rand w_voters
    w_start_at w_end_at w_agree_start w_agree_run).
Defined.
End samples.
