(* ===== verification/RawNodeSpec.v ===== *)
(** * What a raw node hands to its host

    Over any run in which the host writes each [Ready] before it advances, the
    committed entries and snapshots handed out are exactly the committed log:
    in order, without gap or repetition, across asynchronous persistence,
    snapshots and compaction. *)
From S2P Require Import Prelude Errors Eraftpb ProtoConf Util Unstable Storage RaftLog RaftLogSpec Quorum.
From S2P Require Import Inflights Progress Tracker ConfChange ReadOnly Config Raft RawNode RaftFrame RaftElection.
From S2P Require Import RaftReplication RaftLogSteps.

(** ** Persisting *)
Section persisting.
Context {S : Type} `{StorageLaws S}.
Implicit Types l : RaftLog.t S.

(** The storage holds the whole log. *)
Definition holds_log (s : S) l : Prop := st_wf s ∧ st_view s = log_view l.

(** Writing the log to the storage leaves the log the node stands for. *)
Lemma persist_view l s : log_wf l → holds_log s l →
  log_wf (l <| RaftLog.store := s |>) ∧ log_view (l <| RaftLog.store := s |>) = log_view l.
Proof.
  intros Hl [Hs Hv]. pose proof (log_view_offset l Hl) as Ho. pose proof Hl as [Hst Hu Hj He].
  destruct (Unstable.snapshot (RaftLog.unstable l)) as [snap|] eqn:E.
  - split; [split; simpl; congruence|]. unfold log_view. simpl. by rewrite E.
  - specialize (Hj eq_refl).
    set (k := N.to_nat (Unstable.offset (RaftLog.unstable l) - sv_dummy (st_view (RaftLog.store l)) - 1)).
    assert (log_view l = mkView (sv_dummy (st_view (RaftLog.store l))) (sv_dummy_term (st_view (RaftLog.store l)))
      (take k (sv_ents (st_view (RaftLog.store l))) ++ Unstable.entries (RaftLog.unstable l))) as Elv
      by (unfold log_view; by rewrite E).
    assert (sv_dummy (st_view s) = sv_dummy (st_view (RaftLog.store l))) as Ed by (by rewrite Hv, Elv).
    assert (length (take k (sv_ents (st_view (RaftLog.store l)))) = k) as Hk.
    { rewrite length_take. unfold vlast, len in Hj. lia. }
    split.
    + split; simpl; [done|done| |]; intros _.
      * rewrite Ed, Hv. split; [apply Hj|lia].
      * intros En. rewrite Hv. rewrite En, len_nil in Ho. lia.
    + unfold log_view at 1. simpl. rewrite E, Ed. fold k. rewrite Hv at 2. rewrite Elv at 1. simpl.
      rewrite take_app_le by lia. rewrite take_take, Nat.min_id. rewrite Hv, Elv. done.
Qed.

Lemma stable_snap_view l i l' : RaftLog.stable_snap l i = Done l' → log_ok l → holds_log (RaftLog.store l) l →
  log_ok l' ∧ log_view l' = log_view l ∧ holds_log (RaftLog.store l') l' ∧
  RaftLog.committed l' = RaftLog.committed l ∧ RaftLog.store l' = RaftLog.store l.
Proof.
  unfold RaftLog.stable_snap. intros Hs [Hwf Hix] [Hst Hv]. inv_done Hs.
  pose proof (log_view_offset _ Hwf) as Hov.
  assert (∃ snap, Unstable.snapshot (RaftLog.unstable l) = Some snap) as [snap E].
  { unfold Unstable.stable_snap in Hc. destruct (Unstable.snapshot _); [by eexists|done]. }
  destruct (stable_snap_wf _ _ _ (lw_unstable _ Hwf) Hc) as (Hu & Hn & Ee & Eo & Hi).
  pose proof (Unstable.wf_snapshot _ (lw_unstable _ Hwf) _ E) as Hso.
  assert (log_view l = mkView (sm_index (s_metadata snap)) (Some (sm_term (s_metadata snap)))
    (Unstable.entries (RaftLog.unstable l))) as Elv by (unfold log_view; by rewrite E).
  assert (log_view (l <| RaftLog.unstable := x |>) = log_view l) as Hview.
  { unfold log_view at 1. simpl. rewrite Hn, Hv, Ee, Eo, Elv. simpl. rewrite Hso.
    replace (N.to_nat _) with 0%nat by lia. done. }
  split_and!; [|done|by split; [|rewrite Hview]|done|done]. split.
  - split; simpl; [apply Hwf|done| |]; intros _; rewrite Hv, Eo.
    + rewrite Elv. simpl. rewrite Hso. unfold vlast. simpl. lia.
    + intros En. rewrite Ee in En. rewrite En, len_nil in Hov. lia.
  - destruct Hix as [? ? ? ?]. split; rewrite ?Hview; try done. simpl. by rewrite Eo.
Qed.

Lemma stable_entries_view l i t l' : RaftLog.stable_entries l i t = Done l' → log_ok l → holds_log (RaftLog.store l) l →
  log_ok l' ∧ log_view l' = log_view l ∧ holds_log (RaftLog.store l') l' ∧
  RaftLog.committed l' = RaftLog.committed l ∧ RaftLog.store l' = RaftLog.store l.
Proof.
  unfold RaftLog.stable_entries. intros Hs [Hwf Hix] [Hst Hv]. inv_done Hs.
  pose proof (log_view_offset _ Hwf) as Hov.
  destruct (stable_entries_wf _ _ _ _ (lw_unstable _ Hwf) Hc) as (Hu & Hn & Ee & Eo & Hi).
  assert (log_view (l <| RaftLog.unstable := x |>) = log_view l) as Hview.
  { unfold log_view at 1. simpl. rewrite Hn, Ee, Hv, app_nil_r. destruct (log_view l) as [d dt es] eqn:Elv. simpl. f_equal.
    apply take_ge. rewrite Eo, <-Hov. unfold vlast, len. simpl. lia. }
  split_and!; [|done|by split; [|rewrite Hview]|done|done]. split.
  - split; simpl; [apply Hwf|done| |]; intros _; rewrite Hv, Eo; rewrite <-Hov; [unfold vlast; lia|done].
  - destruct Hix as [? ? ? ?]. split; rewrite ?Hview; try done. simpl. rewrite Eo. lia.
Qed.
End persisting.

(** ** Deliveries *)

(** What the host is told to do to its state machine. *)
Inductive event : Type :=
| Install (index : N)
| Apply (e : Entry).

(** The index a state machine is at after the events, starting at [i]: an entry
    is applied only right after its predecessor, a snapshot never goes back. *)
Fixpoint deliver (i : N) (evs : list event) : option N :=
  match evs with
  | [] => Some i
  | Apply e :: evs' => if e_index e =? i + 1 then deliver (i + 1) evs' else None
  | Install k :: evs' => if i <=? k then deliver k evs' else None
  end.

Lemma deliver_app i evs evs' : deliver i (evs ++ evs') = deliver i evs ≫= λ j, deliver j evs'.
Proof. revert i. induction evs as [|[k|e] evs IH]; intros i; simpl; [done|..]; by case_match. Qed.

Lemma deliver_entries i es : contiguous (i + 1) es → deliver i (Apply <$> es) = Some (i + len es).
Proof.
  revert i. induction es as [|e es IH]; intros i Hc; simpl; [rewrite len_nil; f_equal; lia|].
  destruct Hc as [-> Hc]. rewrite N.eqb_refl, IH by done. rewrite len_cons. f_equal. lia.
Qed.

(** The events of a [Ready] and of a [LightReady]. *)
Definition light_events (lr : LightReady) : list event := Apply <$> lr_committed_entries lr.
Definition ready_events (rd : Ready) : list event :=
  (if snapshot_is_empty (rd_snapshot rd) then [] else [Install (sm_index (s_metadata (rd_snapshot rd)))])
  ++ (Apply <$> rd_committed_entries rd).

Section delivering.
Context {S : Type} `{StorageLaws S} `{HashOrder} `{Rand}.
#[local] Set Default Proof Using "All".
Implicit Types (n : RawNode.t S) (l : RaftLog.t S).

Abbreviation log n := (Raft.raft_log (RawNode.raft n)).

(** Between two calls: what was handed out is committed, and the log reaches
    back to it unless a snapshot is still to be handed out. *)
Record rn_ok n : Prop := mk_rn_ok {
  ro_log : log_ok (log n);
  ro_since : RawNode.commit_since_index n ≤ RaftLog.committed (log n);
  ro_reach : sv_dummy (log_view (log n)) ≤ RawNode.commit_since_index n ∨ is_Some (RawNode.snap n)
}.

(** An entry handed out is committed, and in the log if the log still reaches
    back to it. *)
Definition in_log n (e : Entry) : Prop :=
  e_index e ≤ RaftLog.committed (log n) ∧
  (sv_dummy (log_view (log n)) < e_index e → vlookup (log_view (log n)) (e_index e) = Some e).

(** Entries handed out from the log. *)
Record handed n (es : list Entry) n' : Prop := mk_handed {
  ha_ok : log_ok (log n');
  ha_view : log_view (log n') = log_view (log n);
  ha_committed : RaftLog.committed (log n') = RaftLog.committed (log n);
  ha_since : RawNode.commit_since_index n' = RawNode.commit_since_index n + len es;
  ha_bound : RawNode.commit_since_index n' ≤ RaftLog.committed (log n');
  ha_contiguous : contiguous (RawNode.commit_since_index n + 1) es;
  ha_entries : Forall (in_log n') es
}.

Lemma sub_entries_contiguous v lo hi : contiguous (sv_dummy v + 1) (sv_ents v) → sv_dummy v < lo → lo ≤ vlast v →
  contiguous lo (sub_entries (sv_dummy v) (sv_ents v) lo hi).
Proof.
  intros Hc Hlo Hhi. unfold sub_entries. apply contiguous_take.
  replace lo with (sv_dummy v + 1 + N.of_nat (N.to_nat (lo - sv_dummy v - 1))) at 1 by lia.
  apply contiguous_drop; [|done]. unfold vlast, len in Hhi. lia.
Qed.

Lemma limit_size_contiguous i es max : contiguous i es → contiguous i (limit_size es max).
Proof. destruct (limit_size_prefix es max) as (k & -> & _). apply contiguous_take. Qed.

(** A stretch of the log up to the commit index. *)
Lemma committed_stretch l lo hi max e k : log_ok l → sv_dummy (log_view l) < lo → hi ≤ RaftLog.committed l + 1 →
  limit_size (sub_entries (sv_dummy (log_view l)) (sv_ents (log_view l)) lo hi) max !! k = Some e →
  e_index e = lo + N.of_nat k ∧ e_index e ≤ RaftLog.committed l ∧ vlookup (log_view l) (e_index e) = Some e.
Proof.
  intros [Hwf Hix] Hlo Hhi Hk. apply limit_size_lookup in Hk.
  assert (k < N.to_nat (hi - lo))%nat as Hlt by (unfold sub_entries in Hk; by apply lookup_take_Some in Hk as [_ ?]).
  apply sub_entries_lookup in Hk; [|done].
  assert (e_index e = lo + N.of_nat k) as ->.
  { pose proof (log_view_wf _ Hwf) as [Hc _]. unfold vlookup in Hk. destruct (N.ltb_spec (sv_dummy (log_view l)) (lo + N.of_nat k)); [|done].
    rewrite (contiguous_lookup _ _ _ _ Hc Hk). lia. }
  split_and!; [done|lia|done].
Qed.

Lemma next_entries_since_read l since max l' r :
  RaftLog.next_entries_since l since max = Done (l', r) → log_read l l'.
Proof.
  unfold RaftLog.next_entries_since. intros Hs. inv_done Hs; [|reflexivity]. by eapply slice_read.
Qed.

(** The committed entries after [since]. *)
Lemma next_entries_since_stretch l since max l' r :
  RaftLog.next_entries_since l since max = Done (l', r) → log_ok l →
  since ≤ RaftLog.committed l → sv_dummy (log_view l) ≤ since →
  log_read l l' ∧ contiguous (since + 1) (default [] r) ∧ since + len (default [] r) ≤ RaftLog.committed l ∧
  Forall (λ e, e_index e ≤ RaftLog.committed l ∧ vlookup (log_view l) (e_index e) = Some e) (default [] r).
Proof.
  intros Hs Hok Hle Hd. pose proof Hok as [Hwf Hix]. split; [by eapply next_entries_since_read|].
  pose proof (log_view_wf _ Hwf) as [Hct Hvb]. pose proof (ix_committed _ Hix) as Hcv.
  destruct (next_entries_since_view l since max Hwf Hix ltac:(lia)) as (l1 & r1 & Hr & _ & _ & Er).
  rewrite Hs in Hr. injection Hr as <- <-. rewrite N.max_l in Er by lia.
  case_decide as Hlt; subst r; simpl; [|rewrite len_nil; split_and!; [done|lia|done]].
  set (hi := N.min _ _ + 1) in *. assert (hi ≤ RaftLog.committed l + 1) as Hhi by (unfold hi; lia).
  split_and!.
  - apply limit_size_contiguous, sub_entries_contiguous; [done|lia..].
  - pose proof (limit_size_length (sub_entries (sv_dummy (log_view l)) (sv_ents (log_view l)) (since + 1) hi) max) as Hlen.
    unfold sub_entries in Hlen at 2. rewrite length_take in Hlen. unfold len. lia.
  - apply Forall_forall. intros e [k Hk]%list_elem_of_lookup.
    by apply committed_stretch in Hk as (_ & ? & ?); [|done|lia|lia].
Qed.

Lemma reduce_uncommitted_log (r : Raft.t S) es : Raft.raft_log (Raft.reduce_uncommitted_size r es) = Raft.raft_log r.
Proof. unfold Raft.reduce_uncommitted_size. by destruct (negb _). Qed.

Lemma gen_light_ready_handed n n' lr : RawNode.gen_light_ready n = Done (n', lr) →
  log_ok (log n) → RawNode.commit_since_index n ≤ RaftLog.committed (log n) →
  sv_dummy (log_view (log n)) ≤ RawNode.commit_since_index n →
  handed n (lr_committed_entries lr) n' ∧ RawNode.snap n' = RawNode.snap n.
Proof.
  unfold RawNode.gen_light_ready. intros Hs Hok Hle Hd.
  apply outcome_bind_Done in Hs as ([l r] & Hr & Hs).
  destruct (next_entries_since_stretch _ _ _ _ _ Hr Hok Hle Hd) as (Hrd & Hct & Hlen & Hin).
  destruct (log_read_ok _ _ Hrd Hok) as [Hok' Hv]. destruct (log_read_fields _ _ Hrd) as (Eu & Ec & _).
  generalize dependent (default [] r). intros es Hs Hct Hlen Hin.
  apply outcome_bind_Done in Hs as (since' & Hsi & Hs).
  assert (since' = RawNode.commit_since_index n + len es) as ->.
  { destruct (last es) as [e|] eqn:E; inv_done Hsi.
    - pose proof (contiguous_last _ _ _ Hct E). lia.
    - apply last_None in E. rewrite E, len_nil. lia. }
  inv_done Hs. simpl. set (r1 := Raft.reduce_uncommitted_size _ es).
  assert (Raft.raft_log r1 = l) as El by apply reduce_uncommitted_log.
  split; [|unfold RawNode.snap, Raft.snap; simpl; by rewrite El, Eu].
  split; simpl; rewrite ?El; try done; [lia|].
  eapply Forall_impl; [exact Hin|]. intros e [? ?]. split; simpl; rewrite El; [by rewrite Ec|by rewrite Hv].
Qed.

Lemma drain_records_same n n' : RawNode.drain_records n = Done n' →
  RawNode.raft n' = RawNode.raft n ∧ RawNode.commit_since_index n' = RawNode.commit_since_index n.
Proof. unfold RawNode.drain_records. intros Hs. inv_done Hs; done. Qed.

(** The snapshot part of [ready]: afterwards the log reaches back to what was
    handed out. *)
Lemma ready_snapshot_spec n rd rr n' rd' rr' : RawNode.ready_snapshot n rd rr = Done (n', rd', rr') →
  rn_ok n → rd_snapshot rd = default_Snapshot →
  RawNode.raft n' = RawNode.raft n ∧ RawNode.commit_since_index n' ≤ RaftLog.committed (log n) ∧
  sv_dummy (log_view (log n)) ≤ RawNode.commit_since_index n' ∧ rd_light rd' = rd_light rd ∧
  deliver (RawNode.commit_since_index n) (if snapshot_is_empty (rd_snapshot rd') then []
    else [Install (sm_index (s_metadata (rd_snapshot rd')))]) = Some (RawNode.commit_since_index n').
Proof.
  unfold RawNode.ready_snapshot. intros Hs [[Hwf Hix] Hsi Hre] Hd.
  destruct (RaftLog.unstable_snapshot (log n)) as [snap|] eqn:E.
  - apply outcome_bind_Done in Hs as (u & Hle%rassert_Done%N.leb_le & Hs).
    apply outcome_bind_Done in Hs as (b & _ & Hs). apply outcome_bind_Done in Hs as (u' & _ & Hs). inv_done Hs. simpl.
    assert (sv_dummy (log_view (log n)) = sm_index (s_metadata snap)) as Ed.
    { unfold log_view. unfold RaftLog.unstable_snapshot in E. by rewrite E. }
    pose proof (ix_dummy _ Hix) as Hdc. rewrite Ed in Hdc |- *. split_and!; [done|done|done|done|].
    unfold snapshot_is_empty. destruct (N.eqb_spec (sm_index (s_metadata snap)) 0) as [Ez|]; simpl.
    + f_equal. lia.
    + by rewrite (proj2 (N.leb_le _ _)).
  - inv_done Hs. rewrite Hd. split_and!; [done|done| |done|done].
    destruct Hre as [|[snap Hsn]]; [done|]. unfold RawNode.snap, Raft.snap in Hsn.
    unfold RaftLog.unstable_snapshot in E. congruence.
Qed.

(** A call that hands out events. *)
Record delivers n (evs : list event) n' : Prop := mk_delivers {
  de_log : log_ok (log n');
  de_view : log_view (log n') = log_view (log n);
  de_committed : RaftLog.committed (log n') = RaftLog.committed (log n);
  de_snap : RawNode.snap n' = RawNode.snap n;
  de_since : RawNode.commit_since_index n' ≤ RaftLog.committed (log n');
  de_reach : sv_dummy (log_view (log n')) ≤ RawNode.commit_since_index n';
  de_deliver : deliver (RawNode.commit_since_index n) evs = Some (RawNode.commit_since_index n');
  de_entries : ∀ e, Apply e ∈ evs → in_log n' e
}.

Lemma ready_delivers n n' rd : RawNode.ready n = Done (n', rd) → rn_ok n → delivers n (ready_events rd) n'.
Proof.
  unfold RawNode.ready. intros Hs Hrn. apply outcome_bind_Done in Hs as (n1 & Hdr & Hs).
  apply drain_records_same in Hdr as [Er1 Es1]. simpl in Er1, Es1.
  apply outcome_bind_Done in Hs as ([[n2 rd2] rr2] & Hsn & Hs).
  apply ready_snapshot_spec in Hsn as (Er2 & Hsi2 & Hre2 & Elt & Hdel).
  2: { destruct Hrn. split; simpl; rewrite ?Er1, ?Es1; try done. unfold RawNode.snap in *. simpl. by rewrite Er1. }
  2: { by repeat case_bool_decide. }
  simpl in Er2, Hsi2, Hre2, Hdel. rewrite Er1, Es1 in *. clear Elt.
  set (ents := RaftLog.unstable_entries (log n2)) in Hs.
  destruct (match last ents with Some e => _ | None => _ end) as [rd3 rr3] eqn:E3.
  assert (rd_snapshot rd3 = rd_snapshot rd2) as Esn by (destruct (last ents); by simplify_eq).
  apply outcome_bind_Done in Hs as ([n3 lr] & Hg & Hs). inv_done Hs.
  destruct Hrn as [Hok Hsi Hre].
  apply gen_light_ready_handed in Hg as [[O V C Si B Ct F] Hsnap]; simpl; rewrite ?Er2; simpl; try done.
  simpl in V, C, Si, Ct, Hsnap. rewrite Er2 in V, C. simpl in V, C.
  assert (RawNode.snap (n3 <| RawNode.records ::= λ rrs, rrs ++ [rr3] |>) = RawNode.snap n) as Hsn'.
  { transitivity (RawNode.snap n3); [done|]. rewrite Hsnap. unfold RawNode.snap. simpl. by rewrite Er2. }
  split; simpl; rewrite ?V, ?C, ?Si in *; try done.
  - lia.
  - unfold ready_events. simpl. rewrite Esn, deliver_app, Hdel. simpl. by apply deliver_entries.
  - intros e He. unfold ready_events in He. simpl in He. apply elem_of_app in He as [He|He].
    + case_match; [by apply elem_of_nil in He|]. by apply list_elem_of_singleton in He.
    + apply list_elem_of_fmap in He as (e' & [= <-] & He). rewrite Forall_forall in F. by apply F.
Qed.

(** ** Reporting back *)

Lemma commit_ready_log n rd n' : RawNode.commit_ready n rd = Done n' →
  log_ok (log n) → holds_log (RaftLog.store (log n)) (log n) →
  log_ok (log n') ∧ log_view (log n') = log_view (log n) ∧
  RaftLog.committed (log n') = RaftLog.committed (log n) ∧
  RawNode.commit_since_index n' = RawNode.commit_since_index n.
Proof.
  unfold RawNode.commit_ready. intros Hs Hok Hh. set (n0 := match rd_hs rd with Some _ => _ | None => _ end) in Hs.
  assert (RawNode.raft n0 = RawNode.raft n ∧ RawNode.commit_since_index n0 = RawNode.commit_since_index n) as [Er Es]
    by (unfold n0; repeat case_match; done).
  clearbody n0. apply outcome_bind_Done in Hs as (rr & _ & Hs). apply outcome_bind_Done in Hs as (u & _ & Hs).
  rewrite Er in Hs. apply outcome_bind_Done in Hs as (l1 & H1' & Hs). apply outcome_bind_Done in Hs as (l2 & H2' & Hs).
  inv_done Hs. simpl.
  assert (log_ok l1 ∧ log_view l1 = log_view (log n) ∧ holds_log (RaftLog.store l1) l1 ∧
    RaftLog.committed l1 = RaftLog.committed (log n)) as (O1 & V1 & Hh1 & C1).
  { destruct (rr_snapshot rr) as [[i t]|]; [|by inv_done H1'].
    by apply stable_snap_view in H1' as (? & ? & ? & ? & _). }
  assert (log_ok l2 ∧ log_view l2 = log_view l1 ∧ RaftLog.committed l2 = RaftLog.committed l1) as (O2 & V2 & C2).
  { destruct (rr_last_entry rr) as [[i t]|]; [|by inv_done H2'].
    by apply stable_entries_view in H2' as (? & ? & ? & ? & _). }
  split_and!; [done|congruence|congruence|done].
Qed.

Lemma on_persist_ready_log n k n' : RawNode.on_persist_ready n k = Done n' → log_ok (log n) →
  log_ok (log n') ∧ log_view (log n') = log_view (log n) ∧
  RaftLog.committed (log n) ≤ RaftLog.committed (log n') ∧
  RawNode.commit_since_index n' = RawNode.commit_since_index n ∧ RawNode.snap n' = RawNode.snap n.
Proof.
  unfold RawNode.on_persist_ready, RawNode.in_raft. intros Hs Hok.
  destruct (RawNode.pop_records _ _ _ _ _) as [rrs [[i t] si]].
  apply outcome_bind_Done in Hs as (n1 & H1' & Hs).
  assert (same_log (RawNode.raft n) (RawNode.raft n1) ∧
    RaftLog.committed (log n) ≤ RaftLog.committed (log n1) ∧
    RawNode.commit_since_index n1 = RawNode.commit_since_index n) as (L1 & C1 & S1).
  { inv_done H1'; [|done]. split_and!; [by eapply on_persist_snap_same_log| |done].
    apply (adv_commit _ _ (cm_adv _ _ (host_op_calm _ _ (op_persist_snap _ _ _ Hc)))). }
  assert (same_log (RawNode.raft n1) (RawNode.raft n') ∧
    RaftLog.committed (log n1) ≤ RaftLog.committed (log n') ∧
    RawNode.commit_since_index n' = RawNode.commit_since_index n1) as (L2 & C2 & S2).
  { inv_done Hs; [|done]. split_and!; [by eapply on_persist_entries_same_log| |done].
    apply (adv_commit _ _ (cm_adv _ _ (host_op_calm _ _ (op_persist_entries _ _ _ _ Hc)))). }
  pose proof (transitivity L1 L2) as [_ Sn Hl _]. destruct (Hl Hok). split_and!; [done|done|lia|congruence|exact Sn].
Qed.

Lemma advance_append_light n rd n' lr : RawNode.advance_append n rd = Done (n', lr) →
  log_ok (log n) → holds_log (RaftLog.store (log n)) (log n) →
  RawNode.commit_since_index n ≤ RaftLog.committed (log n) →
  sv_dummy (log_view (log n)) ≤ RawNode.commit_since_index n →
  ∃ n1, handed n1 (lr_committed_entries lr) n' ∧ log_view (log n1) = log_view (log n) ∧
    RaftLog.committed (log n) ≤ RaftLog.committed (log n1) ∧
    RawNode.commit_since_index n1 = RawNode.commit_since_index n.
Proof.
  unfold RawNode.advance_append. intros Hs Hok Hh Hsi Hd.
  apply outcome_bind_Done in Hs as (n1 & H1' & Hs). apply commit_ready_log in H1' as (O1 & V1 & C1 & S1); [|done..].
  apply outcome_bind_Done in Hs as (n2 & H2' & Hs). apply on_persist_ready_log in H2' as (O2 & V2 & C2 & S2 & _); [|done].
  apply outcome_bind_Done in Hs as ([n3 lr3] & H3' & Hs).
  apply gen_light_ready_handed in H3' as [Hh3 _]; [|done|rewrite S2, S1; lia|by rewrite V2, V1, S2, S1].
  exists n2. split; [|split_and!; [congruence|lia|congruence]].
  destruct (_ && _); [done|]. inv_done Hs; destruct Hh3; by split.
Qed.

(** ** Runs *)

(** From [n] to [n'], [evs] was handed out. *)
Record progress n (evs : list event) n' : Prop := mk_progress {
  pg_ok : rn_ok n';
  pg_committed : RaftLog.committed (log n) ≤ RaftLog.committed (log n');
  pg_preserved : preserved (RaftLog.committed (log n)) (log_view (log n)) (log_view (log n'));
  pg_deliver : deliver (RawNode.commit_since_index n) evs = Some (RawNode.commit_since_index n');
  pg_entries : ∀ e, Apply e ∈ evs → in_log n' e
}.

Lemma in_log_later n n' e : in_log n e → RaftLog.committed (log n) ≤ RaftLog.committed (log n') →
  preserved (RaftLog.committed (log n)) (log_view (log n)) (log_view (log n')) → in_log n' e.
Proof.
  intros [Hc Hl] Hle [Hd Hp]. split; [lia|]. intros Hlt. rewrite Hp by done. apply Hl. lia.
Qed.

Lemma progress_trans n evs n1 evs' n' : progress n evs n1 → progress n1 evs' n' → progress n (evs ++ evs') n'.
Proof.
  intros [O1 C1 P1 D1 E1] [O2 C2 P2 D2 E2]. split; [done|lia|by eapply preserved_trans| |].
  - by rewrite deliver_app, D1.
  - intros e [He|He]%elem_of_app; [|auto]. eapply in_log_later; [by apply E1|done|done].
Qed.

Lemma delivers_progress n evs n' : delivers n evs n' → progress n evs n'.
Proof.
  intros [O V C Sn Si R D E]. split; [split; [done|done|by left]|by rewrite C| |done|done].
  rewrite V. apply preserved_refl.
Qed.

(** How a host drives a raw node.  Between two rounds it feeds messages, ticks
    and operations to the node, may compact what was handed out, and reports
    what was applied and, if it persists asynchronously, what is persisted.  A
    round takes a [Ready], writes its snapshot and entries where the node reads
    them, and advances. *)
Inductive rn_step n : list event → RawNode.t S → Prop :=
| rs_message m r x : Raft.step (RawNode.raft n) m = Done (r, x) → input_ok (RawNode.raft n) m →
    log_input_ok (RawNode.raft n) m → rn_step n [] (n <| RawNode.raft := r |>)
| rs_tick n' b : RawNode.tick n = Done (n', b) → Raft.term (RawNode.raft n) < u64_max →
    room 2 (RawNode.raft n) → rn_step n [] n'
| rs_host r : host_op (RawNode.raft n) r → room 1 (RawNode.raft n) → rn_step n [] (n <| RawNode.raft := r |>)
| rs_apply i n' : RawNode.advance_apply_to n i = Done n' → room 1 (RawNode.raft n) → rn_step n [] n'
| rs_persisted k n' : RawNode.on_persist_ready n k = Done n' → rn_step n [] n'
| rs_compact s : rehosted (log n) (log (RawNode.mut_store n s)) →
    sv_dummy (log_view (log (RawNode.mut_store n s))) ≤ RawNode.commit_since_index n ∨ is_Some (RawNode.snap n) →
    rn_step n [] (RawNode.mut_store n s)
| rs_round rd n1 s n2 lr : RawNode.ready n = Done (n1, rd) → holds_log s (log n1) →
    RawNode.advance_append (RawNode.mut_store n1 s) rd = Done (n2, lr) →
    rn_step n (ready_events rd ++ light_events lr) n2
| rs_round_async rd n1 s n2 : RawNode.ready n = Done (n1, rd) → holds_log s (log n1) →
    RawNode.advance_append_async (RawNode.mut_store n1 s) rd = Done n2 → rn_step n (ready_events rd) n2.

(** Calls to the node itself hand nothing out. *)
Lemma raft_progress m n r : rn_ok n → sound (RawNode.raft n) r → log_effect m (RawNode.raft n) r →
  (m_msg_type m = MsgAppend → append_ok m) → RaftLog.committed (log n) ≤ RaftLog.committed (Raft.raft_log r) →
  progress n [] (n <| RawNode.raft := r |>).
Proof.
  intros [Hok Hsi Hre] [O _ Sn _] He Ha Hc.
  split; [split; simpl; [done|lia|]|done|by eapply log_effect_preserved|done|by intros e ?%elem_of_nil].
  unfold RawNode.snap in *. simpl.
  assert (sv_dummy (log_view (Raft.raft_log r)) = sv_dummy (log_view (log n)) ∨ is_Some (Raft.snap r)) as [-> |]; [|destruct Hre as [|Hsn]|by right].
  - destruct He as [E|new _ E _|_ _ [_ _ _ E]|_ _ _ E Hs]; [by left; rewrite E|by left; rewrite E| |by right; rewrite Hs].
    left. rewrite E. unfold vreceive. by case_decide.
  - by left.
  - right. by destruct Sn as [->|].
Qed.

Lemma host_progress n r : host_op (RawNode.raft n) r → room 1 (RawNode.raft n) → rn_ok n →
  progress n [] (n <| RawNode.raft := r |>).
Proof.
  intros Hop Hr Hrn. destruct (host_op_drives _ _ Hop (ro_log _ Hrn) Hr) as [Hso He].
  eapply raft_progress; [done|done|exact He|done|]. by eapply adv_commit, cm_adv, host_op_calm.
Qed.

(** The state after a [Ready] whose content was written to storage. *)
Lemma ready_written n n1 rd s : RawNode.ready n = Done (n1, rd) → rn_ok n → holds_log s (log n1) →
  let n2 := RawNode.mut_store n1 s in
  delivers n (ready_events rd) n1 ∧ log_ok (log n2) ∧ log_view (log n2) = log_view (log n1) ∧
  RaftLog.committed (log n2) = RaftLog.committed (log n1) ∧ holds_log (RaftLog.store (log n2)) (log n2).
Proof.
  intros Hr Hrn Hh n2. pose proof (ready_delivers _ _ _ Hr Hrn) as Hd. split; [done|].
  pose proof (de_log _ _ _ Hd) as [Hwf Hix]. destruct (persist_view _ _ Hwf Hh) as [Hwf' Hv'].
  split_and!; [|done|done|]; [|destruct Hh as [? Ev]; split; [done|]; simpl; by rewrite Hv'].
  split; [done|]. destruct Hix as [? ? ? ?]. split; simpl; rewrite ?Hv'; done.
Qed.

Lemma rn_step_progress n evs n' : rn_step n evs n' → rn_ok n → progress n evs n'.
Proof.
  intros Hstep Hrn. pose proof Hrn as [Hok Hsi Hre].
  destruct Hstep as [m r x Hs Hio Hli|n' b Hs Hb Hr|r Hop Hr|i n' Hs Hr|k n' Hs|s [Ho Hc Hv] Hd
    |rd n1 s n2 lr Hrd Hh Ha|rd n1 s n2 Hrd Hh Ha].
  - destruct (step_effect _ _ _ _ Hs (io_leader _ _ Hio) Hok Hli) as [Hso He].
    eapply raft_progress; [done|done|exact He|apply Hli|]. by eapply adv_commit, step_advances; destruct Hio.
  - unfold RawNode.tick, RawNode.on_raft in Hs. inv_done Hs. destruct (tick_drives _ _ _ Hc Hok Hr) as [Hso He].
    eapply raft_progress; [done|done|exact He|done|]. by eapply adv_commit, tick_advances.
  - by apply host_progress.
  - unfold RawNode.advance_apply_to, RawNode.commit_apply, RawNode.in_raft in Hs. inv_done Hs.
    apply host_progress; [by eapply op_commit_apply|done|done].
  - apply on_persist_ready_log in Hs as (O & V & C & Si & Sn); [|done].
    split; [split; [done|rewrite Si; lia|by rewrite V, Si, Sn]|done|rewrite V; apply preserved_refl|by rewrite Si|].
    by intros e ?%elem_of_nil.
  - split; [split; [auto|by rewrite Hc|done]|by rewrite Hc| |done|by intros e ?%elem_of_nil].
    eapply preserved_trans; [apply preserved_refl|by apply Hv|apply Hok].
  - destruct (ready_written _ _ _ _ Hrd Hrn Hh) as (Hdl & O2 & V2 & C2 & Hh2).
    eapply progress_trans; [by apply delivers_progress|]. destruct Hdl as [O V C Sn Si R D E].
    apply advance_append_light in Ha as (n3 & [O3 V3 C3 S3 B3 Ct3 F3] & V4 & C4 & S4); [|done|done|by rewrite C2|by rewrite V2].
    split; [split; [done|done|left; rewrite V3, V4, V2, S3, S4; simpl; lia]|rewrite C3; lia|..].
    + rewrite V3, V4, V2. apply preserved_refl.
    + unfold light_events. rewrite S4 in Ct3. simpl in Ct3. rewrite deliver_entries by done. rewrite S3, S4. done.
    + intros e He. unfold light_events in He. apply list_elem_of_fmap in He as (e' & [= <-] & He).
      rewrite Forall_forall in F3. by apply F3.
  - destruct (ready_written _ _ _ _ Hrd Hrn Hh) as (Hdl & O2 & V2 & C2 & Hh2).
    rewrite <-(app_nil_r (ready_events rd)). eapply progress_trans; [by apply delivers_progress|].
    destruct Hdl as [O V C Sn Si R D E].
    apply commit_ready_log in Ha as (O3 & V3 & C3 & S3); [|done|done].
    split; [split; [done|rewrite C3, C2, S3; done|left; rewrite V3, V2, S3; done]|rewrite C3, C2; done| | |].
    + rewrite V3, V2. apply preserved_refl.
    + simpl. by rewrite S3.
    + by intros e ?%elem_of_nil.
Qed.

(** A run and everything it hands out, in order. *)
Inductive rn_run n : list event → RawNode.t S → Prop :=
| rr_done : rn_run n [] n
| rr_step n1 n' evs evs' : rn_step n evs n1 → rn_run n1 evs' n' → rn_run n (evs ++ evs') n'.

Lemma rn_run_progress n evs n' : rn_run n evs n' → rn_ok n → progress n evs n'.
Proof.
  induction 1 as [n|n n1 n' evs evs' Hs Hr IH]; intros Hrn.
  - split; [done|done|apply preserved_refl|done|by intros e ?%elem_of_nil].
  - pose proof (rn_step_progress _ _ _ Hs Hrn) as Hp. eapply progress_trans; [done|]. apply IH, Hp.
Qed.
End delivering.

(** ** Properties *)

(** C15: Exactly-once delivery.  Over any run in which the host writes every
    [Ready] before it advances, the entries and snapshots handed out move the
    applied index from what was handed out before to what is handed out now
    without gap, repetition or reordering; every entry handed out is committed,
    and is the entry the node's log holds at its index for as long as the log
    reaches back to it. *)
Theorem ready_delivers_committed_log {S} `{StorageLaws S} `{HashOrder} `{Rand} (n n' : RawNode.t S)
    (evs : list event) (Hn : rn_ok n) (Hrun : rn_run n evs n') :
  deliver (RawNode.commit_since_index n) evs = Some (RawNode.commit_since_index n') ∧
  (∀ e, Apply e ∈ evs → in_log n' e) ∧ rn_ok n'.
Proof. by destruct (rn_run_progress _ _ _ Hrun Hn). Qed.

(** ** Witnesses of the hypotheses *)

(** A node alone in its cluster: it campaigns, leads, and its host takes the
    first entry, writes it and gets it back as committed. *)
Section samples.
#[local] Existing Instances w_rand w_proto elements_order.

Definition w_alone_disk : MemStorage.t :=
  MemStorage.set_conf_state MemStorage.new (default_ConfState <| cs_voters := [1] |>).
Definition w_alone : RawNode.t MemStorage.t :=
  match RawNode.new (Config.new 1) w_alone_disk with
  | Done (Ok n) => n
  | _ => RawNode.mk (w_node 1) (mkSoftState 0 Follower) default_HardState 0 [] 0
  end.
Definition w_hup_msg : Message := default_Message <| m_msg_type := MsgHup |>.
Definition w_elected_raft : Raft.t MemStorage.t := w_step (RawNode.raft w_alone) w_hup_msg.
Definition w_elected_node : RawNode.t MemStorage.t := w_alone <| RawNode.raft := w_elected_raft |>.
Definition w_ready : RawNode.t MemStorage.t * Ready :=
  match RawNode.ready w_elected_node with Done p => p | Panicked => (w_elected_node, default_Ready) end.
Definition w_written : MemStorage.t :=
  match MemStorage.append w_alone_disk (rd_entries w_ready.2) with Done s => s | Panicked => w_alone_disk end.
Definition w_advanced : RawNode.t MemStorage.t * LightReady :=
  match RawNode.advance_append (RawNode.mut_store w_ready.1 w_written) w_ready.2 with
  | Done p => p | Panicked => (w_ready.1, default_LightReady) end.
End samples.

Abbreviation w_log_ok := (@log_ok _ (@MemStorage.storage w_proto) w_proto (@mem_storage_laws w_proto)).
Abbreviation w_view := (@log_view _ (@MemStorage.storage w_proto) w_proto (@mem_storage_laws w_proto)).

Definition w_alone_log : RaftLog.t MemStorage.t := Eval vm_compute in Raft.raft_log (RawNode.raft w_alone).
Definition w_ready_log : RaftLog.t MemStorage.t := Eval vm_compute in Raft.raft_log (RawNode.raft w_ready.1).

Lemma w_alone_log_eq : Raft.raft_log (RawNode.raft w_alone) = w_alone_log.
Proof. vm_compute. reflexivity. Qed.
Lemma w_ready_log_eq : Raft.raft_log (RawNode.raft w_ready.1) = w_ready_log.
Proof. vm_compute. reflexivity. Qed.

Lemma w_alone_log_ok : w_log_ok w_alone_log.
Proof. split; split; simpl; try done. Qed.

Lemma w_alone_ok : @rn_ok _ (@MemStorage.storage w_proto) w_proto (@mem_storage_laws w_proto) w_alone.
Proof.
  split; rewrite w_alone_log_eq; [apply w_alone_log_ok|vm_compute; done|left; vm_compute; done].
Qed.

Lemma w_written_holds : @holds_log _ (@MemStorage.storage w_proto) w_proto (@mem_storage_laws w_proto) w_written
  (Raft.raft_log (RawNode.raft w_ready.1)).
Proof. rewrite w_ready_log_eq. split; [split; vm_compute; done|vm_compute; reflexivity]. Qed.

Lemma w_hup_input : input_ok (RawNode.raft w_alone) w_hup_msg.
Proof. split; vm_compute; try done. intros Hin. set_solver. Qed.

Lemma w_hup_log_input : @log_input_ok _ (@MemStorage.storage w_proto) w_proto (@mem_storage_laws w_proto)
  (RawNode.raft w_alone) w_hup_msg.
Proof. split; [rewrite w_alone_log_eq; vm_compute; done|by intros..]. Qed.

Lemma w_alone_run : @rn_run _ (@MemStorage.storage w_proto) w_proto (@mem_storage_laws w_proto) elements_order w_rand
  w_alone ([] ++ (ready_events w_ready.2 ++ light_events w_advanced.2) ++ []) w_advanced.1.
Proof.
  eapply (rr_step _ w_elected_node); [eapply rs_message; [|exact w_hup_input|exact w_hup_log_input]|].
  - instantiate (1 := Ok tt). vm_compute. reflexivity.
  - eapply (rr_step _ w_advanced.1); [|apply rr_done].
    eapply rs_round; [|exact w_written_holds|]; vm_compute; reflexivity.
Qed.

Lemma ready_delivers_committed_log_witness :
  deliver 0 (ready_events w_ready.2 ++ light_events w_advanced.2) = Some 1 ∧
  length (ready_events w_ready.2 ++ light_events w_advanced.2) = 1%nat.
Proof.
  pose proof (@ready_delivers_committed_log _ (@MemStorage.storage w_proto) w_proto (@mem_storage_laws w_proto)
    elements_order w_rand w_alone w_advanced.1 _ w_alone_ok w_alone_run) as [Hd _].
  split; [|vm_compute; reflexivity]. rewrite app_nil_l, app_nil_r in Hd.
  replace (RawNode.commit_since_index w_alone) with 0 in Hd by (vm_compute; reflexivity).
  rewrite Hd. vm_compute. reflexivity.
Defined.
