(* ===== verification/NodeRuns.v ===== *)
(** * What a node has committed

    A node over all it goes through: messages, ticks, requests of its host,
    storage writes, compaction and restarts.  What it has committed stays. *)
From S2P Require Import Prelude Errors Eraftpb ProtoConf Util Unstable Storage RaftLog RaftLogSpec Quorum.
From S2P Require Import Inflights Progress Tracker ConfChange ReadOnly Config Raft RaftFrame RaftElection Cluster.
From S2P Require Import RaftReplication RaftLogSteps ClusterLog RawNode RawNodeSpec.

Section runs.
Context {S : Type} `{StorageLaws S} `{HashOrder} `{Rand}.
#[local] Set Default Proof Using "All".
Implicit Types (r : Raft.t S) (l : RaftLog.t S).

(** ** Writing and compacting *)

(** Below [offset] the log is what is stored, from there on what is unstable. *)
Lemma log_view_lookup l i : log_wf l → Unstable.snapshot (RaftLog.unstable l) = None →
  sv_dummy (st_view (RaftLog.store l)) < i →
  vlookup (log_view l) i =
    if i <? Unstable.offset (RaftLog.unstable l) then vlookup (st_view (RaftLog.store l)) i
    else Unstable.entries (RaftLog.unstable l) !! N.to_nat (i - Unstable.offset (RaftLog.unstable l)).
Proof.
  intros [_ _ Hj _] Hn Hi. specialize (Hj Hn). unfold log_view, vlookup, vlast, len in *. rewrite Hn. simpl.
  rewrite (proj2 (N.ltb_lt _ _)) by done. destruct (N.ltb_spec i (Unstable.offset (RaftLog.unstable l))) as [Hlt|Hge].
  - rewrite lookup_app_l by (rewrite length_take; lia). by rewrite lookup_take_lt by lia.
  - rewrite lookup_app_r by (rewrite length_take; lia). f_equal. rewrite length_take. lia.
Qed.

(** What the host may leave in the storage, by writing entries of the log and
    by compacting what is committed: entries of the log, up to [offset] at
    least.  While a snapshot is pending the storage may hold anything. *)
Record stores l (s : S) : Prop := mk_stores {
  ss_wf : st_wf s;
  ss_from : Unstable.snapshot (RaftLog.unstable l) = None →
    sv_dummy (log_view l) ≤ sv_dummy (st_view s) ≤ RaftLog.committed l;
  ss_reach : Unstable.snapshot (RaftLog.unstable l) = None →
    sv_dummy (st_view s) < Unstable.offset (RaftLog.unstable l) ≤ vlast (st_view s) + 1 ∧ vlast (st_view s) ≤ vlast (log_view l);
  ss_entries i e : Unstable.snapshot (RaftLog.unstable l) = None →
    vlookup (st_view s) i = Some e → vlookup (log_view l) i = Some e
}.

Lemma stores_rehosted l s : stores l s → rehosted l (l <| RaftLog.store := s |>).
Proof.
  intros [Hw Hf Hr He]. assert (log_ok l → log_wf (l <| RaftLog.store := s |>)) as Hwf.
  { intros [Hl _]. pose proof (log_view_offset _ Hl) as Ho. pose proof Hl as [_ Hu _ _]. split; [done|done|..]; simpl; intros Hn.
    - destruct (Hr Hn). lia.
    - intros E. rewrite E, len_nil in Ho. destruct (Hr Hn). lia. }
  assert (log_ok l → preserved (vlast (log_view l)) (log_view l) (log_view (l <| RaftLog.store := s |>))) as Hp.
  { intros Hok. specialize (Hwf Hok). destruct (Unstable.snapshot (RaftLog.unstable l)) as [snap|] eqn:Hn.
    { assert (log_view (l <| RaftLog.store := s |>) = log_view l) as -> by (unfold log_view; simpl; by rewrite Hn). apply preserved_refl. }
    assert (sv_dummy (log_view (l <| RaftLog.store := s |>)) = sv_dummy (st_view s)) as Ed by (unfold log_view; simpl; by rewrite Hn).
    assert (sv_dummy (log_view l) = sv_dummy (st_view (RaftLog.store l))) as Ed' by (unfold log_view; by rewrite Hn).
    destruct (Hf eq_refl) as [Hd _]. destruct (Hr eq_refl) as [Hoff _]. split; [by rewrite Ed|]. rewrite Ed. intros i _ Hi.
    rewrite log_view_lookup by done. rewrite (log_view_lookup l) by (apply Hok || done || lia). simpl.
    destruct (N.ltb_spec i (Unstable.offset (RaftLog.unstable l))) as [Hlt|]; [|done].
    destruct (proj2 (vlookup_is_Some (st_view s) i)) as [e Hse]; [lia|]. rewrite Hse. specialize (He i e eq_refl Hse).
    rewrite (log_view_lookup l) in He by (apply Hok || done || lia). by rewrite (proj2 (N.ltb_lt _ _)) in He by done. }
  split; [|done|done]. intros Hok. specialize (Hwf Hok). split; [done|]. pose proof Hok as [Hl [I1 I2 I3 I4]].
  pose proof (log_view_offset _ Hl) as O1. pose proof (log_view_offset _ Hwf) as O2. simpl in O2.
  split; [|simpl|done|done].
  - destruct (Unstable.snapshot (RaftLog.unstable l)) as [snap|] eqn:Hn; unfold log_view in *; simpl in *; rewrite Hn in *; [done|].
    by apply Hf.
  - lia.
Qed.

(** ** Restarting *)

(** A host restarts the node from its storage, to which it has written the
    commit index and the entries up to it. *)
Record restarts r (r' : Raft.t S) : Prop := mk_restarts {
  re_new : ∃ cfg, Raft.new cfg (RaftLog.store (Raft.raft_log r)) = Done (Ok r');
  re_commit : ∀ rs, st_initial_state (RaftLog.store (Raft.raft_log r)) = Ok rs →
    RaftLog.committed (Raft.raft_log r) ≤ hs_commit (Storage.hard_state rs);
  re_entries : RaftLog.committed (Raft.raft_log r) < Unstable.offset (RaftLog.unstable (Raft.raft_log r));
  re_snap : Raft.snap r = None;
  re_applied : RaftLog.applied (Raft.raft_log r') ≤ RaftLog.committed (Raft.raft_log r')
}.

(** The commit index that was saved is taken over. *)
Lemma new_commit cfg d rs r' : Raft.new cfg d = Done (Ok r') → st_initial_state d = Ok rs →
  hs_commit (Storage.hard_state rs) ≤ RaftLog.committed (Raft.raft_log r').
Proof.
  unfold Raft.new. intros Hs Hrs. rewrite Hrs in Hs. destruct (Config.validate cfg); [|by inv_done Hs].
  apply outcome_bind_Done in Hs as (l & Hl & Hs). apply outcome_bind_Done in Hs as (li & _ & Hs).
  destruct (Changer.restore _ _ _) as [p [[]|e]]; [|by inv_done Hs].
  apply outcome_bind_Done in Hs as ([r1 cs] & Hp & Hs). destruct (negb _); [done|].
  apply post_conf_change_follower in Hp; [|done]. pose proof (q_state _ _ Hp) as Hst1.
  apply outcome_bind_Done in Hs as (r2 & H2' & Hs). apply outcome_bind_Done in Hs as (r3 & H3' & Hs).
  apply outcome_bind_Done in Hs as (r4 & H4' & Hs). injection Hs as <-.
  assert (hs_commit (Storage.hard_state rs) ≤ RaftLog.committed (Raft.raft_log r2) ∧ Raft.state r2 = Follower) as [C2 S2].
  { case_bool_decide as E; [injection H2' as <-; rewrite E; by split; [apply N.le_0_l|]|]. unfold Raft.load_state in H2'.
    apply outcome_bind_Done in H2' as (li' & _ & H2'). destruct (_ || _); inv_done H2'. done. }
  assert (RaftLog.committed (Raft.raft_log r3) = RaftLog.committed (Raft.raft_log r2)) as C3.
  { destruct (0 <? Config.applied cfg); [|by injection H3' as <-].
    unfold Raft.commit_apply_internal, Raft.is_role in H3'. simpl in H3'. rewrite S2, !andb_false_r in H3'. by inv_done H3'. }
  unfold Raft.become_follower in H4'. apply outcome_bind_Done in H4' as (r5 & Hr & E).
  apply reset_spec in Hr as (_ & _ & _ & _ & L5 & _). injection E as <-. simpl. by rewrite L5, C3.
Qed.

Lemma restarts_preserved r r' : restarts r r' → log_ok (Raft.raft_log r) →
  log_ok (Raft.raft_log r') ∧ RaftLog.committed (Raft.raft_log r) ≤ RaftLog.committed (Raft.raft_log r') ∧
  preserved (RaftLog.committed (Raft.raft_log r)) (log_view (Raft.raft_log r)) (log_view (Raft.raft_log r')).
Proof.
  intros [[cfg Hnew] Hc He Hn Ha] [Hwf Hix]. pose proof Hwf as [Hst _ _ _].
  destruct (new_log _ _ _ Hnew Hst Ha) as (Hok' & Hv & _). unfold Raft.snap in Hn.
  destruct (st_initial_state (RaftLog.store (Raft.raft_log r))) as [rs|] eqn:Ers;
    [|unfold Raft.new in Hnew; rewrite Ers in Hnew; destruct (Config.validate cfg); by inv_done Hnew].
  pose proof (new_commit _ _ _ _ Hnew Ers) as Hc'. specialize (Hc rs eq_refl). split_and!; [done|lia|].
  rewrite Hv. split; [unfold log_view; by rewrite Hn|]. intros i Hi Hd. rewrite log_view_lookup by done.
  by rewrite (proj2 (N.ltb_lt _ _)) by lia.
Qed.

(** ** Runs *)
Inductive log_node_step r : Raft.t S → Prop :=
| lns_message m r' x : Raft.step r m = Done (r', x) → input_ok r m → log_input_ok r m → log_node_step r r'
| lns_tick r' b : Raft.tick r = Done (r', b) → Raft.term r < u64_max → room 2 r → log_node_step r r'
| lns_host r' : host_op r r' → room 1 r → log_node_step r r'
| lns_take : log_node_step r (r <| Raft.msgs := [] |> <| Raft.witness_msgs := [] |>)
| lns_write s : stores (Raft.raft_log r) s → log_node_step r (r <| Raft.raft_log ::= λ l, l <| RaftLog.store := s |> |>)
| lns_stable_entries i t l : RaftLog.stable_entries (Raft.raft_log r) i t = Done l →
    holds_log (RaftLog.store (Raft.raft_log r)) (Raft.raft_log r) → log_node_step r (r <| Raft.raft_log := l |>)
| lns_stable_snap i l : RaftLog.stable_snap (Raft.raft_log r) i = Done l →
    holds_log (RaftLog.store (Raft.raft_log r)) (Raft.raft_log r) → log_node_step r (r <| Raft.raft_log := l |>)
| lns_restart r' : restarts r r' → log_node_step r r'.

Lemma log_node_step_preserved r r' : log_node_step r r' → log_ok (Raft.raft_log r) →
  log_ok (Raft.raft_log r') ∧ RaftLog.committed (Raft.raft_log r) ≤ RaftLog.committed (Raft.raft_log r') ∧
  preserved (RaftLog.committed (Raft.raft_log r)) (log_view (Raft.raft_log r)) (log_view (Raft.raft_log r')).
Proof.
  intros Hstep Hok.
  destruct Hstep as [m r' x Hs Hio Hli|r' b Hs Hb Hr|r' Hop Hr| |s Hs|i t l Hs Hh|i l Hs Hh|r' Hr].
  - destruct (step_effect _ _ _ _ Hs (io_leader _ _ Hio) Hok Hli) as [[O _ _ _] He].
    split_and!; [done|by eapply adv_commit, step_advances; destruct Hio|].
    eapply log_effect_preserved; [done|done|apply Hli].
  - destruct (tick_drives _ _ _ Hs Hok Hr) as [[O _ _ _] He].
    split_and!; [done|by eapply adv_commit, tick_advances|]. by eapply log_effect_preserved.
  - destruct (host_op_drives _ _ Hop Hok Hr) as [[O _ _ _] He].
    split_and!; [done|by eapply adv_commit, cm_adv, host_op_calm|]. by eapply log_effect_preserved.
  - split_and!; [done|done|apply preserved_refl].
  - destruct (stores_rehosted _ _ Hs) as [Ho Hc Hv]. split_and!; [exact (Ho Hok)|done|].
    eapply preserved_trans; [apply preserved_refl|exact (Hv Hok)|apply Hok].
  - destruct (stable_entries_view _ _ _ _ Hs Hok Hh) as (O & V & _ & C & _). simpl. rewrite V, C.
    split_and!; [done|done|apply preserved_refl].
  - destruct (stable_snap_view _ _ _ Hs Hok Hh) as (O & V & _ & C & _). simpl. rewrite V, C.
    split_and!; [done|done|apply preserved_refl].
  - by apply restarts_preserved.
Qed.
End runs.

(** ** Properties *)

(** C12: What is committed stays.  Through any run of a node, whatever messages,
    ticks, requests of the host, storage writes and compactions it goes through,
    and across restarts from a storage that has the commit index and the entries
    up to it, its log stays well formed, its commit index does not decrease, and
    every entry that was committed is still in the log, unchanged, unless it was
    compacted away or a snapshot has replaced it. *)
Theorem committed_prefix_stable {S} `{StorageLaws S} `{HashOrder} `{Rand} (r r' : Raft.t S)
    (Hrun : rtc log_node_step r r') (Hok : log_ok (Raft.raft_log r)) :
  log_ok (Raft.raft_log r') ∧ RaftLog.committed (Raft.raft_log r) ≤ RaftLog.committed (Raft.raft_log r') ∧
  preserved (RaftLog.committed (Raft.raft_log r)) (log_view (Raft.raft_log r)) (log_view (Raft.raft_log r')).
Proof.
  induction Hrun as [r|r r1 r' Hstep _ IH]; [split_and!; [done|done|apply preserved_refl]|].
  destruct (log_node_step_preserved _ _ Hstep Hok) as (Hok1 & Hc1 & Hp1).
  destruct (IH Hok1) as (Hok' & Hc' & Hp'). split_and!; [done|lia|]. by eapply preserved_trans.
Qed.

(** ** Witnesses of the hypotheses *)

(** A node that has committed the entries up to index 4 and written them, with
    the commit index, crashes with two more that it has not written: it comes back
    with the ones it has committed. *)
Section samples.
#[local] Existing Instances w_rand w_proto elements_order.

Definition w_written : MemStorage.t :=
  w_store <| MemStorage.raft_state := mkRaftState (mkHardState 2 0 4) w_members |>.
Definition w_crashed : Raft.t MemStorage.t :=
  (w_node 1) <| Raft.raft_log := w_log <| RaftLog.store := w_written |> |>.
Definition w_back : Raft.t MemStorage.t :=
  match Raft.new (Config.new 1) w_written with Done (Ok r) => r | _ => w_node 1 end.

Lemma w_crashed_ok : @log_ok _ (@MemStorage.storage w_proto) w_proto (@mem_storage_laws w_proto) (Raft.raft_log w_crashed).
Proof. split; [split; [by change (MemStorage.wf w_written); split|split; done|done|done]|by split]. Qed.

Lemma w_restarts : @restarts _ (@MemStorage.storage w_proto) w_proto elements_order w_rand w_crashed w_back.
Proof.
  split; [exists (Config.new 1); vm_compute; reflexivity|intros rs Hrs; vm_compute in Hrs; injection Hrs as <-; vm_compute; done|..];
    vm_compute; done.
Qed.

Lemma w_restarted_run : rtc (@log_node_step _ (@MemStorage.storage w_proto) w_proto (@mem_storage_laws w_proto)
  elements_order w_rand) w_crashed w_back.
Proof. eapply rtc_once, lns_restart, w_restarts. Qed.

Lemma w_restarted_commits : RaftLog.committed (Raft.raft_log w_crashed) = 4 ∧ RaftLog.committed (Raft.raft_log w_back) = 4.
Proof. split; vm_compute; reflexivity. Qed.

Lemma committed_prefix_stable_witness :
  @log_ok _ (@MemStorage.storage w_proto) w_proto (@mem_storage_laws w_proto) (Raft.raft_log w_back) ∧
  RaftLog.committed (Raft.raft_log w_crashed) ≤ RaftLog.committed (Raft.raft_log w_back) ∧
  preserved (RaftLog.committed (Raft.raft_log w_crashed))
    (@log_view _ (@MemStorage.storage w_proto) w_proto (@mem_storage_laws w_proto) (Raft.raft_log w_crashed))
    (@log_view _ (@MemStorage.storage w_proto) w_proto (@mem_storage_laws w_proto) (Raft.raft_log w_back)).
Proof.
  exact (@committed_prefix_stable _ (@MemStorage.storage w_proto) w_proto (@mem_storage_laws w_proto) elements_order w_rand
    w_crashed w_back w_restarted_run w_crashed_ok).
Defined.
End samples.
