(* ===== verification/RawNodeReady.v ===== *)
(** * What a [Ready] holds

    The content of the work [RawNode::ready] hands out, field by field, and
    that [has_ready] announces exactly the work there is. *)
From S2P Require Import Prelude Errors Eraftpb ProtoConf Util Unstable Storage RaftLog RaftLogSpec Quorum.
From S2P Require Import Inflights Progress Tracker ConfChange ReadOnly Config Raft RawNode RaftFrame RaftElection.
From S2P Require Import RaftReplication RaftLogSteps RawNodeSpec.

(** A [Ready] that asks nothing of the host. *)
Definition ready_empty (rd : Ready) : bool :=
  bool_decide (rd_ss rd = None) && bool_decide (rd_hs rd = None) && bool_decide (rd_read_states rd = [])
  && bool_decide (rd_entries rd = []) && snapshot_is_empty (rd_snapshot rd)
  && bool_decide (rd_committed_entries rd = []) && bool_decide (lr_messages (rd_light rd) = [])
  && bool_decide (rd_witness_messages rd = []).

Section content.
Context {S : Type} `{StorageLaws S} `{HashOrder} `{Rand}.
#[local] Set Default Proof Using "All".
Implicit Types (n : RawNode.t S) (l : RaftLog.t S).

Abbreviation log n := (Raft.raft_log (RawNode.raft n)).

(** The fields of the [Ready] taken from [n]. *)
Record content n (rd : Ready) : Prop := mk_content {
  ct_ss : rd_ss rd = if bool_decide (Raft.soft_state (RawNode.raft n) = RawNode.prev_ss n) then None
                     else Some (Raft.soft_state (RawNode.raft n));
  ct_hs : rd_hs rd = if bool_decide (Raft.hard_state (RawNode.raft n) = RawNode.prev_hs n) then None
                     else Some (Raft.hard_state (RawNode.raft n));
  ct_reads : rd_read_states rd = Raft.read_states (RawNode.raft n);
  ct_entries : rd_entries rd = RaftLog.unstable_entries (log n);
  ct_snapshot : rd_snapshot rd = default default_Snapshot (RawNode.snap n);
  ct_messages : lr_messages (rd_light rd) = Raft.msgs (RawNode.raft n);
  ct_witness : rd_witness_messages rd = Raft.witness_msgs (RawNode.raft n);
  ct_sync : rd_must_sync rd =
    negb (hs_vote (Raft.hard_state (RawNode.raft n)) =? hs_vote (RawNode.prev_hs n))
    || negb (hs_term (Raft.hard_state (RawNode.raft n)) =? hs_term (RawNode.prev_hs n))
    || bool_decide (is_Some (RawNode.snap n)) || negb (bool_decide (RaftLog.unstable_entries (log n) = []));
  ct_committed : RaftLog.has_next_entries_since (log n)
      (match RawNode.snap n with Some s => sm_index (s_metadata s) | None => RawNode.commit_since_index n end)
    = Done (negb (bool_decide (rd_committed_entries rd = [])));
  ct_alone s : RawNode.snap n = Some s →
    RawNode.commit_since_index n ≤ sm_index (s_metadata s) ∧ rd_committed_entries rd = []
}.

Lemma next_entries_since_has l since max l' r : RaftLog.next_entries_since l since max = Done (l', r) → log_ok l →
  since ≤ RaftLog.committed l →
  RaftLog.has_next_entries_since l since = Done (negb (bool_decide (default [] r = []))).
Proof.
  intros Hs [Hwf Hix] Hle. pose proof (log_view_wf _ Hwf) as [_ Hvb]. pose proof Hix as [Hdc Hcv _ _].
  destruct (next_entries_since_view l since max Hwf Hix ltac:(lia)) as (l1 & r1 & Hr & _ & _ & Er).
  rewrite Hs in Hr. injection Hr as <- <-. unfold RaftLog.has_next_entries_since, RaftLog.applied_index_upper_bound.
  rewrite first_index_view by done. cbn [mbind outcome_bind mret outcome_ret]. f_equal.
  rewrite (u64_add_small since), (u64_add_small (N.min _ _)) by lia. set (hi := N.min _ _ + 1) in *.
  assert (hi ≤ RaftLog.committed l + 1) by (unfold hi; lia). case_decide as Hlt; subst r; simpl.
  - rewrite (proj2 (N.ltb_lt _ _)) by done. symmetry. apply negb_true_iff, bool_decide_eq_false, limit_size_nonempty.
    intros E%(f_equal length). unfold sub_entries in E. rewrite length_take, length_drop in E. unfold vlast, len in *.
    simpl in E. lia.
  - by rewrite (proj2 (N.ltb_ge _ _)) by lia.
Qed.

Lemma gen_light_ready_content n n' lr : RawNode.gen_light_ready n = Done (n', lr) → log_ok (log n) →
  RawNode.commit_since_index n ≤ RaftLog.committed (log n) →
  lr_messages lr = Raft.msgs (RawNode.raft n) ∧
  RaftLog.has_next_entries_since (log n) (RawNode.commit_since_index n) =
    Done (negb (bool_decide (lr_committed_entries lr = []))).
Proof.
  unfold RawNode.gen_light_ready. intros Hs Hok Hle. apply outcome_bind_Done in Hs as ([l r] & Hr & Hs).
  apply outcome_bind_Done in Hs as (since' & _ & Hs). inv_done Hs. simpl.
  split; [unfold Raft.reduce_uncommitted_size; by destruct (negb _)|]. by eapply next_entries_since_has.
Qed.

(** What has been handed out once the snapshot is. *)
Definition since n : N :=
  match RawNode.snap n with Some s => sm_index (s_metadata s) | None => RawNode.commit_since_index n end.

Lemma ready_snapshot_content n rd rr n' rd' rr' : RawNode.ready_snapshot n rd rr = Done (n', rd', rr') →
  log_ok (log n) → RawNode.commit_since_index n ≤ RaftLog.committed (log n) →
  RawNode.raft n' = RawNode.raft n ∧ RawNode.commit_since_index n' = since n ∧ since n ≤ RaftLog.committed (log n) ∧
  rd' = (match RawNode.snap n with
         | Some s => rd <| rd_snapshot := s |> <| rd_must_sync := true |>
         | None => rd
         end) ∧
  ∀ s, RawNode.snap n = Some s → RawNode.commit_since_index n ≤ sm_index (s_metadata s) ∧
    RaftLog.has_next_entries_since (log n) (since n) = Done false.
Proof.
  unfold RawNode.ready_snapshot, since. intros Hs [_ Hix] Hle.
  change (RaftLog.unstable_snapshot (log n)) with (RawNode.snap n) in Hs.
  destruct (RawNode.snap n) as [s|] eqn:E; [|by inv_done Hs].
  apply outcome_bind_Done in Hs as (u & Hc%rassert_Done%N.leb_le & Hs).
  apply outcome_bind_Done in Hs as (b & Hb & Hs). apply outcome_bind_Done in Hs as (u' & Hnb%rassert_Done & Hs).
  apply negb_true_iff in Hnb. subst b. inv_done Hs. simpl in Hb |- *.
  split_and!; [done|done| |done|intros s' [= <-]; done].
  pose proof (ix_dummy _ Hix) as Hd. unfold log_view in Hd. unfold RawNode.snap, Raft.snap in E. by rewrite E in Hd.
Qed.

Lemma ready_content n n' rd : RawNode.ready n = Done (n', rd) → rn_ok n → content n rd.
Proof.
  unfold RawNode.ready. intros Hs [Hok Hsi Hre]. apply outcome_bind_Done in Hs as (n1 & Hdr & Hs).
  assert (RawNode.raft n1 = RawNode.raft n ∧ RawNode.commit_since_index n1 = RawNode.commit_since_index n ∧
    RawNode.prev_ss n1 = RawNode.prev_ss n ∧ RawNode.prev_hs n1 = RawNode.prev_hs n) as (E1 & E2 & E3 & E4).
  { unfold RawNode.drain_records in Hdr. inv_done Hdr; done. }
  apply outcome_bind_Done in Hs as ([[n2 rd2] rr2] & Hsn & Hs). rewrite E3, E4 in *.
  match type of Hsn with RawNode.ready_snapshot ?a ?b _ = _ => set (n0 := a) in Hsn; set (rd0 := b) in Hsn end.
  assert (RawNode.raft n0 = (RawNode.raft n) <| Raft.read_states := [] |>) as E0 by (subst n0; simpl; by rewrite E1).
  apply ready_snapshot_content in Hsn as (R1 & R2 & R3 & R4 & R5); [|rewrite E0; done|subst n0; simpl; by rewrite E1, E2].
  assert (RawNode.snap n0 = RawNode.snap n) as Es by (unfold RawNode.snap; by rewrite E0).
  assert (since n0 = since n) as Ei by (unfold since; rewrite Es; subst n0; simpl; by rewrite E2).
  rewrite Es in R4, R5. rewrite Ei, E0 in *. simpl in R1, R3, R5.
  destruct (match last _ with Some e => _ | None => _ end) as [rd3 rr3] eqn:E3'.
  apply outcome_bind_Done in Hs as ([n3 lr] & Hg & Hs). injection Hs as _ Hrd. subst rd.
  apply gen_light_ready_content in Hg as [Hm Hc]; simpl; rewrite ?R1, ?R2; [|done|done]. simpl in Hm, Hc. rewrite R1, R2 in *.
  simpl in Hm, Hc, E3'.
  assert (∀ s, RawNode.snap n = Some s → RawNode.commit_since_index n ≤ sm_index (s_metadata s) ∧ lr_committed_entries lr = []) as Hal.
  { intros s Hsn. destruct (R5 s Hsn) as [Hle Hb]. split; [subst n0; simpl in Hle; by rewrite E2 in Hle|].
    rewrite Hb in Hc. injection Hc as Hc. symmetry in Hc. apply negb_false_iff in Hc. by apply bool_decide_eq_true in Hc. }
  assert (rd3 = rd2 <| rd_entries := RaftLog.unstable_entries (log n) |>
    <| rd_must_sync := rd_must_sync rd2 || negb (bool_decide (RaftLog.unstable_entries (log n) = [])) |>) as ->.
  { set (es := RaftLog.unstable_entries (log n)) in *. destruct (last es) as [e|] eqn:El; injection E3' as <- _.
    - rewrite bool_decide_eq_false_2 by (intros E; by rewrite E in El). by rewrite orb_true_r.
    - apply last_None in El. rewrite El. simpl. rewrite orb_false_r. by destruct rd2. }
  assert (Raft.hard_state (RawNode.raft n) = RawNode.prev_hs n →
    negb (Raft.vote (RawNode.raft n) =? hs_vote (RawNode.prev_hs n))
    || negb (Raft.term (RawNode.raft n) =? hs_term (RawNode.prev_hs n)) = false) as Hsame
    by (intros <-; simpl; by rewrite !N.eqb_refl).
  split; [..|exact Hm| | |exact Hc|exact Hal]; rewrite R4; subst rd0; simpl; rewrite ?E1;
    destruct (RawNode.snap n) as [s|]; simpl; repeat case_bool_decide; try done; simpl;
    rewrite ?orb_true_r, ?orb_false_r; try done; by rewrite Hsame.
Qed.
End content.

Lemma changed_None {A} `{EqDecision A} (b : bool) (x : A) :
  bool_decide ((if b then None else Some x) = None) = b.
Proof. by destruct b. Qed.

(** ** Properties *)

(** C38: [has_ready] is exact.  It tells the host to call [ready] exactly when
    the [Ready] it would get has something in it: a changed soft or hard state,
    read states, entries, a snapshot, committed entries, messages or messages to
    witnesses; and that [Ready] must be synced to disk exactly when it carries a
    new term or vote, a snapshot or entries. *)
Theorem has_ready_exact {S} `{StorageLaws S} `{HashOrder} `{Rand} (n n' : RawNode.t S) (rd : Ready) (b : bool)
    (Hn : rn_ok n) (Hhas : RawNode.has_ready n = Done b) (Hready : RawNode.ready n = Done (n', rd)) :
  b = negb (ready_empty rd) ∧
  rd_must_sync rd =
    negb (Raft.vote (RawNode.raft n) =? hs_vote (RawNode.prev_hs n))
    || negb (Raft.term (RawNode.raft n) =? hs_term (RawNode.prev_hs n))
    || bool_decide (is_Some (RawNode.snap n)) || negb (bool_decide (rd_entries rd = [])).
Proof.
  destruct (ready_content _ _ _ Hready Hn) as [C1 C2 C3 C4 C5 C6 C7 C8 C9 C10].
  split; [|by rewrite C8, C4]. unfold RawNode.has_ready in Hhas. unfold ready_empty.
  rewrite C1, C2, C3, C4, C5, C6, C7, !changed_None.
  destruct (bool_decide (Raft.msgs _ = [])), (bool_decide (Raft.witness_msgs _ = [])),
    (bool_decide (Raft.soft_state _ = _)), (bool_decide (Raft.hard_state _ = _)), (bool_decide (Raft.read_states _ = [])),
    (bool_decide (RaftLog.unstable_entries _ = [])); simpl in Hhas |- *; rewrite ?andb_false_r, ?andb_true_r;
    try (injection Hhas as <-; done).
  destruct (RawNode.snap n) as [s|]; simpl; [|congruence]. destruct (C10 s eq_refl) as [Hle E].
  destruct (snapshot_is_empty s) eqn:Es; simpl in *; [|by injection Hhas as <-].
  unfold snapshot_is_empty in Es. apply N.eqb_eq in Es. rewrite Es in *. assert (RawNode.commit_since_index n = 0) as E0 by lia.
  rewrite E0 in Hhas. congruence.
Qed.

(** ** Witnesses of the hypotheses *)

(** The node that has just elected itself has an entry to write. *)
Section samples.
#[local] Existing Instances w_rand w_proto elements_order.

Definition w_elected_log : RaftLog.t MemStorage.t := Eval vm_compute in Raft.raft_log w_elected_raft.

Lemma w_elected_log_eq : Raft.raft_log (RawNode.raft w_elected_node) = w_elected_log.
Proof. vm_compute. reflexivity. Qed.

Lemma w_elected_log_ok : w_log_ok w_elected_log.
Proof. split; split; simpl; try done. Qed.

Lemma w_elected_ok : @rn_ok _ (@MemStorage.storage w_proto) w_proto (@mem_storage_laws w_proto) w_elected_node.
Proof.
  split; rewrite w_elected_log_eq; [apply w_elected_log_ok|vm_compute; done|left; vm_compute; done].
Qed.

Lemma w_elected_has_ready : RawNode.has_ready w_elected_node = Done true.
Proof. vm_compute. reflexivity. Qed.

Lemma w_elected_ready : RawNode.ready w_elected_node = Done (w_ready.1, w_ready.2).
Proof. vm_compute. reflexivity. Qed.

Lemma has_ready_exact_witness : ready_empty w_ready.2 = false ∧ rd_must_sync w_ready.2 = true.
Proof.
  pose proof (@has_ready_exact _ (@MemStorage.storage w_proto) w_proto (@mem_storage_laws w_proto) elements_order w_rand
    w_elected_node w_ready.1 w_ready.2 true w_elected_ok w_elected_has_ready w_elected_ready) as [Hb Hs].
  split; [by destruct (ready_empty w_ready.2)|]. rewrite Hs. vm_compute. reflexivity.
Defined.
End samples.
