(* ===== verification/MemPersist.v ===== *)
(** * Writing a log to the in-memory storage

    What the hosts of [MemStorage] have in common: once the pending snapshot
    and the unstable entries of a node are written, the storage holds the log
    the node stands for. *)
From S2P Require Import Prelude Errors Eraftpb ProtoConf Util Unstable Storage RaftLog RaftLogSpec Quorum.
From S2P Require Import Inflights Progress Tracker ConfChange ReadOnly Config Raft RawNode RaftFrame RaftElection.
From S2P Require Import RaftReplication RaftLogSteps RawNodeSpec.

Section writing.
Context `{Proto}.
#[local] Set Default Proof Using "All".
Implicit Types (l : RaftLog.t MemStorage.t) (d : MemStorage.t).

(** The storage, once what is unstable is appended, holds the log. *)
Lemma append_holds l d : log_ok l → Unstable.snapshot (RaftLog.unstable l) = None → RaftLog.unstable_entries l ≠ [] →
  MemStorage.append (RaftLog.store l) (RaftLog.unstable_entries l) = Done d →
  holds_log d l ∧ MemStorage.raft_state d = MemStorage.raft_state (RaftLog.store l).
Proof.
  intros [Hwf _] Hn Hne Ha. pose proof Hwf as [Hst Hu Hj _]. specialize (Hj Hn). pose proof Hu as [Hct _ Hb _ _].
  change (MemStorage.wf (RaftLog.store l)) in Hst. pose proof (mem_last_index _ Hst) as Hl. pose proof Hst as [_ Hf _].
  unfold vlast in Hj. simpl in Hj.
  destruct (mem_append_wf _ Hst (Unstable.offset (RaftLog.unstable l)) (RaftLog.unstable_entries l)) as (d' & Ha' & Hw & Hv);
    [done|done|lia|lia|done|]. rewrite Ha in Ha'. injection Ha' as <-. split; [split|].
  - exact Hw.
  - change (st_view d) with (MemStorage.view d). rewrite Hv. unfold log_view. rewrite Hn. simpl. f_equal.
    unfold RaftLog.unstable_entries. do 2 f_equal. lia.
  - unfold MemStorage.append in Ha. destruct (RaftLog.unstable_entries l); [done|]. by inv_done Ha.
Qed.

(** Without unstable entries the storage holds the log already. *)
Lemma settled_holds l : log_ok l → Unstable.snapshot (RaftLog.unstable l) = None → RaftLog.unstable_entries l = [] →
  holds_log (RaftLog.store l) l.
Proof.
  intros [Hwf _] Hn E. split; [apply Hwf|]. pose proof (lw_empty _ Hwf Hn E) as Ho. unfold log_view. rewrite Hn.
  unfold RaftLog.unstable_entries in E. rewrite E, app_nil_r. destruct (st_view (RaftLog.store l)) as [a b es] eqn:Ev. simpl. f_equal.
  rewrite take_ge; [done|]. rewrite Ho. unfold vlast, len. simpl. lia.
Qed.

(** Writing the pending snapshot leaves the log the node stands for. *)
Lemma snapshot_applied l snap d u : log_ok l → Unstable.snapshot (RaftLog.unstable l) = Some snap →
  MemStorage.apply_snapshot (RaftLog.store l) snap = (d, Ok ()) →
  Unstable.wf u → Unstable.snapshot u = None → Unstable.entries u = Unstable.entries (RaftLog.unstable l) →
  Unstable.offset u = Unstable.offset (RaftLog.unstable l) →
  log_ok (l <| RaftLog.unstable := u |> <| RaftLog.store := d |>) ∧
  log_view (l <| RaftLog.unstable := u |> <| RaftLog.store := d |>) = log_view l.
Proof.
  intros [Hwf Hix] E Ed Hu' Hn' Ee Eo'. pose proof Hwf as [Hst Hu _ _]. pose proof (Unstable.wf_snapshot _ Hu _ E) as Eo.
  assert (MemStorage.first_index (RaftLog.store l) ≤ sm_index (s_metadata snap)) as Hfi.
  { unfold MemStorage.apply_snapshot in Ed.
    by destruct (N.ltb_spec (sm_index (s_metadata snap)) (MemStorage.first_index (RaftLog.store l))). }
  destruct (mem_apply_snapshot_wf (RaftLog.store l) Hst snap Hfi) as (_ & Hwd & Hvd).
  { pose proof (Unstable.wf_bound _ Hu). lia. }
  rewrite Ed in Hwd, Hvd. simpl in Hwd, Hvd.
  assert (st_view d = mkView (sm_index (s_metadata snap)) (Some (sm_term (s_metadata snap))) []) as Hsv by exact Hvd.
  set (l1 := l <| RaftLog.unstable := u |> <| RaftLog.store := d |>).
  assert (log_view l1 = log_view l) as Hv1.
  { unfold log_view. change (RaftLog.unstable l1) with u. change (RaftLog.store l1) with d.
    rewrite E, Hn', Ee, Hsv. simpl. by rewrite take_nil. }
  split; [split|done].
  - split; change (RaftLog.unstable l1) with u; change (RaftLog.store l1) with d; [done|done|..]; intros _;
      rewrite Hsv, Eo'; unfold vlast, len; simpl; intros; lia.
  - destruct Hix as [? ? ? ?]. split; rewrite ?Hv1; try done. change (RaftLog.persisted l < Unstable.offset u). by rewrite Eo'.
Qed.
End writing.
