(* ===== verification/Harness.v ===== *)
(** * The test harness (src/harness/src/interface.rs, network.rs)

    Nodes over in-memory storages in one process, connected by queues whose
    links can be cut or made lossy.  A node's storage is shared with the
    network's [storage] map: the map holds handles, here the ids of the nodes
    whose storage it shares.  Rates are binary64 numbers; each message a link
    may lose draws one number of [rand::random]. *)
From stdpp Require Import finite.
From Stdlib Require Import SpecFloat.
From S2P Require Import Prelude Errors Eraftpb ProtoConf Util Unstable Storage RaftLog RaftLogSpec Quorum.
From S2P Require Import Inflights Progress Tracker ConfChange ReadOnly Config Witness Raft.

(** ** Numbers *)
Abbreviation f64 := spec_float.
Definition f64_zero : f64 := S754_zero false.
Definition f64_one : f64 := S754_finite false 4503599627370496 (-52).

(** [rand::random::<f64>()], uniform in [[0, 1)]; the argument counts draws. *)
Class RandomF64 := {
  random_f64 : nat → f64;
  random_f64_range n : SFleb f64_zero (random_f64 n) = true ∧ SFltb (random_f64 n) f64_one = true
}.

(** Every draw is zero. *)
Definition zero_draws : RandomF64 := {| random_f64 _ := f64_zero; random_f64_range _ := conj eq_refl eq_refl |}.

#[export] Program Instance MessageType_finite : Finite MessageType := {|
  enum := [MsgHup; MsgBeat; MsgPropose; MsgAppend; MsgAppendResponse; MsgRequestVote; MsgRequestVoteResponse;
           MsgSnapshot; MsgHeartbeat; MsgHeartbeatResponse; MsgUnreachable; MsgSnapStatus; MsgCheckQuorum;
           MsgTransferLeader; MsgTimeoutNow; MsgReadIndex; MsgReadIndexResp; MsgRequestPreVote;
           MsgRequestPreVoteResponse] |}.
Next Obligation. by apply (bool_decide_unpack _). Qed.
Next Obligation. intros x. apply (bool_decide_unpack _). by destruct x. Qed.

Module Interface.
Record t : Type := mk { raft : option (Raft.t MemStorage.t) }.

Definition new (r : Raft.t MemStorage.t) : t := mk (Some r).

Section ops.
Context `{Proto} `{HashOrder} `{Rand}.

Definition step (p : t) (m : Message) : outcome (t * Result unit) :=
  match raft p with
  | Some r => '(r, x) ← Raft.step r m; mret (mk (Some r), x)
  | None => mret (p, Ok tt)
  end.

Definition read_messages (p : t) : t * list Message :=
  match raft p with
  | Some r => (mk (Some (r <| Raft.msgs := [] |>)), Raft.msgs r)
  | None => (p, [])
  end.

(** [mut_store().wl()]. *)
Definition with_store (r : Raft.t MemStorage.t) (s : MemStorage.t) : Raft.t MemStorage.t :=
  r <| Raft.raft_log ::= λ l, l <| RaftLog.store := s |> |>.

Definition persist_snapshot (r : Raft.t MemStorage.t) : outcome (Raft.t MemStorage.t) :=
  match RaftLog.unstable_snapshot (Raft.raft_log r) with
  | Some snap =>
    let index := sm_index (s_metadata snap) in
    l ← RaftLog.stable_snap (Raft.raft_log r) index;
    let r := r <| Raft.raft_log := l |> in
    let '(s, x) := MemStorage.apply_snapshot (RaftLog.store (Raft.raft_log r)) snap in
    _ ← unwrap_res x;
    r ← Raft.on_persist_snap (with_store r s) index;
    Raft.commit_apply r index
  | None => mret r
  end.

Definition persist_entries (r : Raft.t MemStorage.t) : outcome (Raft.t MemStorage.t) :=
  let unstable := RaftLog.unstable_entries (Raft.raft_log r) in
  match last unstable with
  | Some e =>
    let last_idx := e_index e in
    let last_term := e_term e in
    l ← RaftLog.stable_entries (Raft.raft_log r) last_idx last_term;
    let r := r <| Raft.raft_log := l |> in
    s ← MemStorage.append (RaftLog.store (Raft.raft_log r)) unstable;
    Raft.on_persist_entries (with_store r s) last_idx last_term
  | None => mret r
  end.

Definition persist (p : t) : outcome t :=
  match raft p with
  | Some r => r ← persist_snapshot r; r ← persist_entries r; mret (mk (Some r))
  | None => mret p
  end.
End ops.
End Interface.

Module Network.
Record t : Type := mk {
  peers : gmap N Interface.t;
  storage : gset N;
  dropm : gmap (N * N) f64;
  ignorem : gmap MessageType bool
}.
#[global] Instance eta : Eta t := λ n, mk (peers n) (storage n) (dropm n) (ignorem n).

Definition default_config : Config.t :=
  Config.default <| Config.election_tick := 10 |> <| Config.heartbeat_tick := 1 |>
    <| Config.max_size_per_msg := NO_LIMIT |> <| Config.max_inflight_msgs := 256 |>.

(** [1..=n]. *)
Definition one_to (n : nat) : list N := N.of_nat <$> seq 1 n.

Section ops.
Context `{Proto} `{HashOrder} `{Rand} `{RandomF64}.

(** The node that takes the place of a [None]. *)
Definition new_peer (peer_addrs : list N) (config : Config.t) (id : N) : outcome Interface.t :=
  store ← MemStorage.new_with_conf_state (default_ConfState <| cs_voters := peer_addrs |>);
  r ← Raft.new (config <| Config.id := id |>) store;
  r ← unwrap_res r;
  mret (Interface.new r).

Fixpoint add_peers (peer_addrs : list N) (config : Config.t) (n : t) (ps : list (option Interface.t * N)) : outcome t :=
  match ps with
  | [] => mret n
  | (p, id) :: ps' =>
    n ← match p with
        | None =>
          i ← new_peer peer_addrs config id;
          mret (n <| storage ::= union {[id]} |> <| peers ::= <[id := i]> |>)
        | Some i =>
          match Interface.raft i with
          | Some r =>
            _ ← rassert (Raft.id r =? id);
            mret (n <| storage ::= union {[id]} |> <| peers ::= <[id := i]> |>)
          | None => mret (n <| peers ::= <[id := i]> |>)
          end
        end;
    add_peers peer_addrs config n ps'
  end.

Definition new_with_config (ps : list (option Interface.t)) (config : Config.t) : outcome t :=
  let peer_addrs := one_to (length ps) in
  add_peers peer_addrs config (mk ∅ ∅ ∅ ∅) (zip ps peer_addrs).

Definition new (ps : list (option Interface.t)) : outcome t := new_with_config ps default_config.

Definition ignore (n : t) (ty : MessageType) : t := n <| ignorem ::= <[ty := true]> |>.

(** [filter]; [k] counts the draws. *)
Fixpoint filter (n : t) (k : nat) (msgs : list Message) : outcome (list Message * nat) :=
  match msgs with
  | [] => mret ([], k)
  | m :: msgs' =>
    if default false (ignorem n !! m_msg_type m) then filter n k msgs'
    else
      _ ← rassert (negb (bool_decide (m_msg_type m = MsgHup)));
      let perc := default f64_zero (dropm n !! (m_from m, m_to m)) in
      let kept := SFleb perc (random_f64 k) in
      '(ms, k) ← filter n (S k) msgs';
      mret ((if kept then [m] else []) ++ ms, k)
  end.

(** The messages of the peers in the order of the map's iterator. *)
Definition read_messages (n : t) : t * list Message :=
  foldl (λ '(n, ms) (ip : N * Interface.t),
    let '(p, out) := Interface.read_messages ip.2 in (n <| peers ::= <[ip.1 := p]> |>, ms ++ out))
    (n, []) (map_iter (peers n)).

(** The body of the loop of [send]: a peer steps, persists and answers. *)
Definition deliver (n : t) (k : nat) (m : Message) : outcome (t * list Message * nat) :=
  p ← unwrap (peers n !! m_to m);
  '(p, _) ← Interface.step p m;
  p ← Interface.persist p;
  let '(p, resp) := Interface.read_messages p in
  let n := n <| peers ::= <[m_to m := p]> |> in
  '(ms, k) ← filter n k resp;
  mret (n, ms, k).

(** The inner loop: one round of messages and the new ones. *)
Fixpoint send_round (n : t) (k : nat) (msgs : list Message) : outcome (t * list Message * nat) :=
  match msgs with
  | [] => mret (n, [], k)
  | m :: msgs' =>
    '(n, ms, k) ← deliver n k m;
    '(n, new_msgs, k) ← send_round n k msgs';
    mret (n, ms ++ new_msgs, k)
  end.

(** The outer loop, for at most [fuel] rounds: [None] when messages are left. *)
Fixpoint send (fuel : nat) (n : t) (k : nat) (msgs : list Message) : outcome (option (t * nat)) :=
  match msgs with
  | [] => mret (Some (n, k))
  | _ =>
    match fuel with
    | 0%nat => mret None
    | S fuel => '(n, new_msgs, k) ← send_round n k msgs; send fuel n k new_msgs
    end
  end.

Definition filter_and_send (fuel : nat) (n : t) (k : nat) (msgs : list Message) : outcome (option (t * nat)) :=
  '(ms, k) ← filter n k msgs; send fuel n k ms.

Fixpoint step_all (n : t) (msgs : list Message) : outcome (t * Result unit) :=
  match msgs with
  | [] => mret (n, Ok tt)
  | m :: msgs' =>
    p ← unwrap (peers n !! m_to m);
    '(p, x) ← Interface.step p m;
    let n := n <| peers ::= <[m_to m := p]> |> in
    match x with
    | Ok _ => step_all n msgs'
    | Err e => mret (n, Err e)
    end
  end.

Definition dispatch (n : t) (k : nat) (msgs : list Message) : outcome (t * Result unit * nat) :=
  '(ms, k) ← filter n k msgs;
  '(n, x) ← step_all n ms;
  mret (n, x, k).
End ops.

(** *** Links *)

Definition drop (n : t) (from to : N) (perc : f64) : t := n <| dropm ::= <[(from, to) := perc]> |>.

Definition cut (n : t) (one other : N) : t := drop (drop n one other f64_one) other one f64_one.

Definition isolate (n : t) (id : N) : t :=
  foldl (λ n nid, if nid =? id then n else drop (drop n id nid f64_one) nid id f64_one)
    n (one_to (size (peers n))).

Definition recover (n : t) : t := n <| dropm := ∅ |> <| ignorem := ∅ |>.
End Network.

(** ** Links *)
Section links.
Context `{RandomF64}.
Implicit Types (n : Network.t) (m : Message).

Lemma SFltb_leb (f g : f64) : SFltb f g = true → SFleb g f = false.
Proof.
  unfold SFltb, SFleb, SFcompare. destruct f as [s|s| |s m e], g as [s'|s'| |s' m' e']; try (by repeat destruct s as [|]);
    try (by repeat destruct s' as [|]); [by destruct s, s'|]. rewrite (Z.compare_antisym e e').
  destruct s, s'; try done; destruct (Z.compare e e'); simpl; try done;
    change (Pos.compare_cont Eq m m') with (Pos.compare m m'); change (Pos.compare_cont Eq m' m) with (Pos.compare m' m);
    rewrite (Pos.compare_antisym m m'); by destruct (Pos.compare m m').
Qed.

(** A link with rate one loses everything, one with rate zero nothing. *)
Lemma one_loses k : SFleb f64_one (random_f64 k) = false.
Proof. apply SFltb_leb, random_f64_range. Qed.

Lemma zero_keeps k : SFleb f64_zero (random_f64 k) = true.
Proof. apply random_f64_range. Qed.

(** What passes was offered and is neither ignored nor on a severed link. *)
Lemma filter_passes n k ms out k' : Network.filter n k ms = Done (out, k') →
  sublist out ms ∧ ∀ m, m ∈ out → default false (Network.ignorem n !! m_msg_type m) = false ∧ m_msg_type m ≠ MsgHup ∧
    Network.dropm n !! (m_from m, m_to m) ≠ Some f64_one.
Proof.
  revert k out. induction ms as [|m ms IH]; intros k out Hf; cbn [Network.filter] in Hf.
  { injection Hf as <- _. split; [done|]. intros m Hm. by apply elem_of_nil in Hm. }
  destruct (default false (Network.ignorem n !! m_msg_type m)) eqn:Hi.
  { apply IH in Hf as [Hs Hm]. split; [by apply sublist_cons|done]. }
  apply outcome_bind_Done in Hf as (u & Hh%rassert_Done%negb_true_iff%bool_decide_eq_false & Hf).
  apply outcome_bind_Done in Hf as ([ms1 k1] & Hf & E). injection E as <- <-. apply IH in Hf as [Hs Hm].
  destruct (SFleb (default f64_zero (Network.dropm n !! (m_from m, m_to m))) (random_f64 k)) eqn:Hk; simpl.
  - split; [by apply sublist_skip|]. intros m' [->|Hin]%elem_of_cons; [|auto]. split_and!; [done|done|].
    intros E. rewrite E in Hk. simpl in Hk. by rewrite one_loses in Hk.
  - split; [by apply sublist_cons|done].
Qed.

(** A network without rules loses nothing; a [MsgHup] never goes over it. *)
Lemma filter_recovered n k ms : Network.filter (Network.recover n) k ms =
  if forallb (λ m, negb (bool_decide (m_msg_type m = MsgHup))) ms then Done (ms, (k + length ms)%nat) else Panicked.
Proof.
  revert k. induction ms as [|m ms IH]; intros k; cbn [Network.filter].
  { simpl. by rewrite Nat.add_0_r. }
  simpl. rewrite !lookup_empty. simpl. case_bool_decide; simpl; [done|]. rewrite zero_keeps, IH.
  destruct (forallb _ ms); [|done]. simpl. by rewrite Nat.add_succ_r.
Qed.

Lemma elem_of_one_to i k : i ∈ Network.one_to k ↔ 1 ≤ i ∧ i ≤ N.of_nat k.
Proof.
  unfold Network.one_to. rewrite list_elem_of_fmap. setoid_rewrite elem_of_seq. split.
  - intros (j & -> & ?). lia.
  - intros ?. exists (N.to_nat i). lia.
Qed.

(** What [isolate] does to the rates of links. *)
Lemma isolate_dropm n id a b : Network.dropm (Network.isolate n id) !! (a, b) =
  if bool_decide (a = id ∧ b ≠ id ∧ b ∈ Network.one_to (size (Network.peers n)) ∨
                  b = id ∧ a ≠ id ∧ a ∈ Network.one_to (size (Network.peers n)))
  then Some f64_one else Network.dropm n !! (a, b).
Proof.
  unfold Network.isolate. generalize (Network.one_to (size (Network.peers n))). intros l. revert n.
  induction l as [|i l IH]; intros n; cbn [foldl]; [rewrite bool_decide_false; [done|set_solver]|]. rewrite IH.
  destruct (N.eqb_spec i id) as [->|Hi].
  { rewrite (bool_decide_ext _ (a = id ∧ b ≠ id ∧ b ∈ id :: l ∨ b = id ∧ a ≠ id ∧ a ∈ id :: l)); [done|set_solver]. }
  unfold Network.drop. simpl. case_bool_decide as H1; case_bool_decide as H2; rewrite ?elem_of_cons in H2; [done|tauto|..].
  - destruct (decide ((a, b) = (i, id))) as [[= -> ->]|N1]; [by rewrite lookup_insert_eq|]. rewrite lookup_insert_ne by congruence.
    destruct (decide ((a, b) = (id, i))) as [[= -> ->]|N2]; [by rewrite lookup_insert_eq|]. exfalso. naive_solver.
  - rewrite !lookup_insert_ne; [done|intros [= <- <-]; tauto..].
Qed.
End links.

(** ** The order of delivery *)
Section sending.
Context `{Proto} `{HashOrder} `{Rand} `{RandomF64}.

(** The network as one queue: the first message is delivered, what it causes
    goes to the end. *)
Fixpoint send_queue (steps : nat) (n : Network.t) (k : nat) (q : list Message) : outcome (option (Network.t * nat)) :=
  match q with
  | [] => mret (Some (n, k))
  | m :: q' =>
    match steps with
    | 0%nat => mret None
    | S steps => '(n, ms, k) ← Network.deliver n k m; send_queue steps n k (q' ++ ms)
    end
  end.

Lemma send_queue_round ms : ∀ q steps n k, send_queue (length ms + steps) n k (ms ++ q) =
  ('(n, out, k) ← Network.send_round n k ms; send_queue steps n k (q ++ out)).
Proof.
  induction ms as [|m ms IH]; intros q steps n k.
  { simpl. by rewrite app_nil_r. }
  cbn [length Nat.add app send_queue Network.send_round]. destruct (Network.deliver n k m) as [[[n1 out] k1]|]; [|done].
  cbn [mbind outcome_bind]. rewrite <-app_assoc, IH. destruct (Network.send_round n1 k1 ms) as [[[n2 out2] k2]|]; [|done].
  cbn [mbind outcome_bind mret outcome_ret]. by rewrite app_assoc.
Qed.

Lemma send_queue_once ms steps n k : send_queue (length ms + steps) n k ms =
  ('(n, out, k) ← Network.send_round n k ms; send_queue steps n k out).
Proof. by rewrite <-(send_queue_round ms []), app_nil_r. Qed.

Lemma send_queue_more steps o : ∀ n k q t, send_queue steps n k q = o → o ≠ Done None → send_queue (steps + t) n k q = o.
Proof.
  induction steps as [|steps IH]; intros n k q t Hs Hne.
  - destruct q as [|m q]; [by destruct t|]. cbn in Hs. by rewrite <-Hs in Hne.
  - destruct q as [|m q]; [done|]. cbn [Nat.add send_queue] in *.
    destruct (Network.deliver n k m) as [[[n1 out] k1]|]; [|done]. cbn [mbind outcome_bind] in *. by apply IH.
Qed.

Lemma send_to_queue fuel o : ∀ n k ms, Network.send fuel n k ms = o → o ≠ Done None → ∃ steps, send_queue steps n k ms = o.
Proof.
  induction fuel as [|fuel IH]; intros n k ms Hs Hne.
  - destruct ms; [by exists 0%nat|]. by rewrite <-Hs in Hne.
  - destruct ms as [|m ms]; [by exists 0%nat|]. cbn [Network.send] in Hs.
    destruct (Network.send_round n k (m :: ms)) as [[[n1 out] k1]|] eqn:E.
    + cbn [mbind outcome_bind] in Hs. destruct (IH _ _ _ Hs Hne) as [steps Hq]. exists (length (m :: ms) + steps)%nat.
      rewrite send_queue_once, E. exact Hq.
    + exists (length (m :: ms) + 0)%nat. by rewrite send_queue_once, E.
Qed.

Lemma queue_to_send steps o : ∀ n k ms, send_queue steps n k ms = o → o ≠ Done None → ∃ fuel, Network.send fuel n k ms = o.
Proof.
  induction steps as [|steps IH]; intros n k ms Hs Hne.
  - destruct ms; [by exists 0%nat|]. by rewrite <-Hs in Hne.
  - destruct ms as [|m ms]; [by exists 0%nat|].
    apply (send_queue_more _ _ _ _ _ (length ms)) in Hs; [|done].
    replace (S steps + length ms)%nat with (length (m :: ms) + steps)%nat in Hs by (simpl; lia).
    rewrite send_queue_once in Hs.
    destruct (Network.send_round n k (m :: ms)) as [[[n1 out] k1]|] eqn:E.
    + cbn [mbind outcome_bind] in Hs. destruct (IH _ _ _ Hs Hne) as [fuel Hf]. exists (S fuel).
      cbn [Network.send]. by rewrite E.
    + exists 1%nat. cbn [Network.send]. by rewrite E.
Qed.
End sending.

(** ** Properties *)

(** Links.  After [isolate], no message between the node and another peer
    passes the filter in either direction, and the rates of all links between
    other nodes are as before; after [recover], every message but a [MsgHup],
    on which the filter panics, passes. *)
Theorem isolate_then_recover `{RandomF64} (n : Network.t) (id : N) (k : nat) (ms : list Message) :
  (∀ out k' m other, Network.filter (Network.isolate n id) k ms = Done (out, k') → m ∈ out →
     other ≠ id → 1 ≤ other ∧ other ≤ N.of_nat (size (Network.peers n)) →
     (m_from m, m_to m) ≠ (id, other) ∧ (m_from m, m_to m) ≠ (other, id)) ∧
  (∀ a b, a ≠ id → b ≠ id → Network.dropm (Network.isolate n id) !! (a, b) = Network.dropm n !! (a, b)) ∧
  (Network.filter (Network.recover (Network.isolate n id)) k ms =
     if forallb (λ m, negb (bool_decide (m_msg_type m = MsgHup))) ms then Done (ms, (k + length ms)%nat) else Panicked).
Proof.
  split_and!; [|intros a b Ha Hb; rewrite isolate_dropm, bool_decide_false; [done|naive_solver]|apply filter_recovered].
  intros out k' m other Hf Hm Hne Ho%elem_of_one_to. destruct (filter_passes _ _ _ _ _ Hf) as [_ Hp].
  destruct (Hp m Hm) as (_ & _ & Hd).
  rewrite isolate_dropm in Hd. case_bool_decide as Hc; [done|]. split; intros [= E1 E2]; apply Hc; rewrite E1, E2; naive_solver.
Qed.

(** C36: Order of delivery.  The rounds of [send] deliver messages exactly as one
    first-in first-out queue does: with enough rounds the loop ends in the
    network and at the draw that the queue ends in, and it panics exactly when
    the queue does. *)
Theorem send_is_fifo `{Proto} `{HashOrder} `{Rand} `{RandomF64} (n : Network.t) (k : nat) (ms : list Message) :
  (∀ x, (∃ fuel, Network.send fuel n k ms = Done (Some x)) ↔ (∃ steps, send_queue steps n k ms = Done (Some x))) ∧
  ((∃ fuel, Network.send fuel n k ms = Panicked) ↔ (∃ steps, send_queue steps n k ms = Panicked)).
Proof.
  split; [intros x|]; split; intros [? ?].
  - by eapply send_to_queue.
  - by eapply queue_to_send.
  - by eapply send_to_queue.
  - by eapply queue_to_send.
Qed.
