(* ===== verification/HarnessSafety.v ===== *)
(** * The harness keeps to the protocol

    What a peer of the harness persists is its whole log, so that the answers
    it gives are backed by its storage: every run of a harness network by
    [send] is one of the cluster of [ClusterAgreement], and what its peers
    commit is the same everywhere. *)
From S2P Require Import Prelude Errors Eraftpb ProtoConf Util Unstable Storage RaftLog RaftLogSpec Quorum.
From S2P Require Import Inflights Progress Tracker ConfChange ReadOnly Config Witness Raft RaftFrame RaftElection.
From S2P Require Import Cluster RaftPromotion RaftReplication RaftLogSteps RaftCommit ClusterLog RawNodeSpec MemPersist.
From S2P Require Import RaftVoices RaftStore RaftSpeech RaftTurns RaftHostTurns Agreement AgreementMoves FullLog.
From S2P Require Import ClusterAgreement ClusterRefinement ClusterSafety Harness.

#[local] Abbreviation node := (Raft.t MemStorage.t).
#[local] Abbreviation log_of r := (Raft.raft_log r).
#[local] Abbreviation store_of r := (RaftLog.store (Raft.raft_log r)).
#[local] Abbreviation committed r := (RaftLog.committed (Raft.raft_log r)).

(** ** Persisting *)
Section persisting.
Context `{Proto} `{HashOrder} `{Rand}.
#[local] Set Default Proof Using "All".
Implicit Types (r : node) (l : RaftLog.t MemStorage.t) (d : MemStorage.t).

(** Marking entries stable and writing them commute. *)
Lemma stable_entries_store l i t l' d : RaftLog.stable_entries l i t = Done l' →
  RaftLog.store l' = RaftLog.store l ∧ RaftLog.stable_entries (l <| RaftLog.store := d |>) i t = Done (l' <| RaftLog.store := d |>).
Proof using. unfold RaftLog.stable_entries. intros Hs. simpl. inv_done Hs. by rewrite Hc. Qed.

(** A log that was written to its storage. *)
Record written r l : Prop := mk_written {
  wn_ok : log_ok l;
  wn_view : log_view l = log_view (log_of r);
  wn_holds : holds_log (RaftLog.store l) l;
  wn_snap : Unstable.snapshot (RaftLog.unstable l) = None;
  wn_commit : RaftLog.committed l = committed r;
  wn_state : MemStorage.raft_state (RaftLog.store l) = MemStorage.raft_state (store_of r)
}.

Lemma persist_entries_written r r' : log_ok (log_of r) → Raft.snap r = None → Interface.persist_entries r = Done r' →
  ∃ l, written r l ∧ (l = log_of r ∧ r' = r ∨ ∃ i t, Raft.on_persist_entries (r <| Raft.raft_log := l |>) i t = Done r').
Proof.
  intros Hok Hn Hs. unfold Interface.persist_entries in Hs. pose proof Hok as [Hwf _].
  destruct (last (RaftLog.unstable_entries (log_of r))) as [e|] eqn:E.
  - apply outcome_bind_Done in Hs as (l & Hl & Hs). apply outcome_bind_Done in Hs as (d & Ha & Hs). simpl in Ha, Hs.
    destruct (stable_entries_store _ _ _ _ d Hl) as [Es Hl']. rewrite Es in Ha.
    destruct (append_holds _ d Hok Hn) as [Hh Hst]; [by intros En; rewrite En in E|done|].
    destruct (persist_view _ _ Hwf Hh) as [Hwf' Hv'].
    assert (log_ok ((log_of r) <| RaftLog.store := d |>)) as Hok'.
    { split; [done|]. destruct Hok as [_ [? ? ? ?]]. by split; rewrite ?Hv'. }
    destruct (stable_entries_view _ _ _ _ Hl' Hok') as (H1' & H2' & H3' & H4' & _); [split; [apply Hh|]; rewrite Hv'; apply Hh|].
    exists (l <| RaftLog.store := d |>). split.
    + split; [done|congruence|done| |done|done]. unfold RaftLog.stable_entries in Hl. inv_done Hl.
      by destruct (stable_entries_wf _ _ _ _ (lw_unstable _ Hwf) Hc) as (_ & ? & _).
    + right. exists (e_index e), (e_term e). exact Hs.
  - inv_done Hs. apply last_None in E. exists (log_of r'). split; [|by left]. split; try done. by apply settled_holds.
Qed.

Lemma persist_entries_ok r r' : log_ok (log_of r) → Raft.snap r = None → Interface.persist_entries r = Done r' →
  log_ok (log_of r') ∧ log_view (log_of r') = log_view (log_of r) ∧ holds_log (store_of r') (log_of r') ∧ Raft.snap r' = None.
Proof.
  intros Hok Hn Hs. destruct (persist_entries_written _ _ Hok Hn Hs) as (l & [W1 W2 [W3 W4] W5 W6 W7] & Hc).
  destruct Hc as [[-> ->]|(i & t & Hp)]; [done|].
  pose proof (on_persist_entries_same_log _ _ _ _ Hp) as [_ S2 S3 _]. destruct (S3 W1) as [Ok' V'].
  destruct (host_op_reads _ _ (op_persist_entries _ _ _ _ Hp)) as [Hr _].
  destruct (st_read_view _ _ Hr W3) as [Hw' Hv']. split_and!; [done|by rewrite V'| |].
  - split; [done|]. rewrite Hv', V'. exact W4.
  - rewrite S2. exact W5.
Qed.


(** A snapshot is written and the node told. *)
Lemma persist_snapshot_ok r r' : log_ok (log_of r) → room 1 r → Interface.persist_snapshot r = Done r' →
  log_ok (log_of r') ∧ Raft.snap r' = None ∧ (Raft.snap r = None → r' = r).
Proof.
  intros Hok Hrm Hs. unfold Interface.persist_snapshot in Hs. unfold Raft.snap at 2.
  destruct (RaftLog.unstable_snapshot (log_of r)) as [snap|] eqn:E; unfold RaftLog.unstable_snapshot in E; [|by inv_done Hs].
  apply outcome_bind_Done in Hs as (l & Hl & Hs). simpl in Hs.
  destruct (MemStorage.apply_snapshot (RaftLog.store l) snap) as [d x] eqn:Ed.
  apply outcome_bind_Done in Hs as (u & Hx & Hs). apply outcome_bind_Done in Hs as (r1 & H1' & Hs).
  unfold RaftLog.stable_snap in Hl. inv_done Hl.
  destruct (stable_snap_wf _ _ _ (lw_unstable _ (proj1 Hok)) Hc) as (Hu' & Hn' & Ee & Eo' & _). simpl in Ed.
  destruct x as [[]|]; [|done]. destruct (snapshot_applied _ _ _ _ Hok E Ed Hu' Hn' Ee Eo') as [Hok1 Hv1].
  set (l1 := (log_of r) <| RaftLog.unstable := x0 |> <| RaftLog.store := d |>) in *.
  change (Interface.with_store _ d) with (r <| Raft.raft_log := l1 |>) in H1'.
  pose proof (on_persist_snap_same_log _ _ _ H1') as [_ S2 S3 _]. destruct (S3 Hok1) as [Ok1 V1].
  assert (room 1 r1) as Hr1 by (rewrite V1; simpl; by rewrite Hv1).
  destruct (host_op_drives _ _ (op_commit_apply _ _ _ Hs) Ok1 Hr1) as [[Ok' _ _ _] _].
  destruct (host_op_reads _ _ (op_commit_apply _ _ _ Hs)) as [_ Sn]. split_and!; [done|by rewrite Sn, S2|by rewrite E].
Qed.



End persisting.

(** ** Networks *)
Section networks.
Context `{Proto} `{HashOrder} `{Rand} `{RandomF64} (c : Joint.Configuration).
#[local] Set Default Proof Using "All".
Implicit Types (r : node) (n : Network.t) (q : list Message) (x : log_cluster MemStorage.t).

(** The nodes of a network. *)
Definition rafts n : gmap N node := omap Interface.raft (Network.peers n).

Lemma rafts_lookup n i r : rafts n !! i = Some r ↔ Network.peers n !! i = Some (Interface.mk (Some r)).
Proof using.
  unfold rafts. rewrite lookup_omap_Some. split; [intros ([o] & Ho & Hp); simpl in Ho; by subst|].
  intros Hp. by exists (Interface.mk (Some r)).
Qed.

(** A network, with nothing on its way, as a cluster. *)
Definition cluster_of n : log_cluster MemStorage.t := mkLogCluster (mkCluster (rafts n) ∅ []) ∅.

(** What the protocol asks of a delivery: the message is of a kind it covers,
    terms and logs do not overflow, and the voters stay the same. *)
Definition fits n (m : Message) : Prop := ∀ r, Network.peers n !! m_to m = Some (Interface.mk (Some r)) →
  m_msg_type m ∉ [MsgSnapshot; MsgSnapStatus; MsgReadIndexResp] ∧
  (m_msg_type m = MsgRequestPreVote → m_commit m = 0 ∨ m_term m ≤ Raft.term r + 1) ∧
  input_ok r m ∧ room (1 + len (m_entries m)) r ∧
  ∀ r1 y, Raft.step r m = Done (r1, y) → settled c r1 ∧ room 1 r1 ∧
    ∀ r2, Interface.persist_entries r1 = Done r2 → settled c r2.

(** The runs of a network: deliveries as [send] makes them, messages put in
    by the test, ticks, and changes to the links. *)
Inductive net_step : Network.t * list Message → Network.t * list Message → Prop :=
| ns_deliver n q m k n' ms k' :
    fits n m → Network.deliver n k m = Done (n', ms, k') → net_step (n, m :: q) (n', q ++ ms)
| ns_inject n q m : ¬ genuine m → net_step (n, q) (n, q ++ [m])
| ns_tick n q i r r' b :
    Network.peers n !! i = Some (Interface.mk (Some r)) → Raft.term r < u64_max → room 2 r →
    Raft.tick r = Done (r', b) → settled c r' →
    net_step (n, q) (n <| Network.peers ::= <[i := Interface.mk (Some r')]> |>, q)
| ns_links n n' q : Network.peers n' = Network.peers n → net_step (n, q) (n', q)
| ns_lose n q q' : (∀ m, m ∈ q' → m ∈ q) → net_step (n, q) (n, q').
End networks.

(** ** Simulation *)
Section simulation.
Context `{Proto} `{HashOrder} `{Rand} `{RandomF64} (c : Joint.Configuration) (Hc : Joint.incoming c ≠ ∅).
#[local] Set Default Proof Using "All".
Implicit Types (r : node) (n : Network.t) (q : list Message) (x : log_cluster MemStorage.t).

Definition stored_commit d : N := hs_commit (Storage.hard_state (MemStorage.raft_state d)).

(** The cluster has the nodes of the network and what is in the queue. *)
Record tracks n q x : Prop := mk_tracks {
  tr_rel : ∃ s, agree_rel c s x;
  tr_nodes : nodes (members x) = rafts n;
  tr_net : ∀ m, m ∈ q → genuine m → m ∈ net (members x);
  tr_hard : ∀ i r, rafts n !! i = Some r → stored_commit (store_of r) = 0
}.

Lemma rel_steps x x' : (∃ s, agree_rel c s x) → rtc (agree_step c) x x' → ∃ s, agree_rel c s x'.
Proof.
  intros Hs Hr. induction Hr as [|x x1 x' Hst _ IH]; [done|]. apply IH. destruct Hs as [s Hs].
  destruct (agree_step_rel c s x x1 Hc Hs Hst) as (s' & _ & ?). by exists s'.
Qed.

Lemma no_member (P : Message → Prop) m : m ∈ @nil Message → P m.
Proof using. intros Hm. by apply elem_of_nil in Hm. Qed.

Lemma read_state d d' : rtc st_read d d' → MemStorage.raft_state d' = MemStorage.raft_state d.
Proof using.
  induction 1 as [|d d1 d' Hr _ IH]; [done|]. rewrite IH. destruct Hr as [d lo hi max ctx d1 y Hs|d i to d1 y Hs]; simpl in Hs.
  - unfold MemStorage.get_entries in Hs. inv_done Hs; done.
  - unfold MemStorage.get_snapshot in Hs. inv_done Hs; done.
Qed.

Lemma rafts_insert n i r : rafts (n <| Network.peers ::= <[i := Interface.mk (Some r)]> |>) = <[i := r]> (rafts n).
Proof using. unfold rafts. simpl. by apply omap_insert_Some. Qed.

Lemma written_writes r l : written r l → stored_commit (store_of r) = 0 → writes r l (RaftLog.store l).
Proof.
  intros [W1 W2 [W3 W4] W5 W6 W7] Hh. split; try done.
  - split; [done|rewrite W2; apply vsub_refl|by rewrite W2].
  - rewrite W4. apply vsub_refl.
  - intros i e _ He. apply mk_is_Some, vlookup_is_Some in He. rewrite W4, W2. lia.
  - intros rs Hrs. simpl in Hrs. injection Hrs as <-. rewrite W7. unfold stored_commit in Hh. rewrite Hh. lia.
Qed.

(** What a peer does before it answers. *)
Lemma persist_steps x i r1 r2 : (∃ s, agree_rel c s x) → nodes (members x) !! i = Some r1 →
  stored_commit (store_of r1) = 0 → room 1 r1 → settled c r2 → Interface.persist_entries r1 = Done r2 →
  ∃ ds, rtc (agree_step c) x (mkLogCluster (set_node (members x) i r2) ds) ∧
    stored_commit (store_of r2) = 0 ∧ ∀ k, durable r2 k.
Proof.
  intros [s Hrel] Hi Hh Hr Hst Hp. pose proof (ar_node _ _ _ Hrel i r1 Hi) as Hn.
  destruct (persist_entries_ok r1 r2) as (_ & _ & [_ Hv] & _); [apply Hn|apply Hn|done|].
  assert (∀ k, durable r2 k) as Hd by (intros k j _ _; by rewrite Hv).
  destruct (persist_entries_written r1 r2) as (l & Hw & Hcase); [apply Hn|apply Hn|done|].
  destruct Hcase as [[-> ->]|(j & t & Hop)].
  - exists (disks x). split_and!; [|done|done]. unfold set_node. rewrite insert_id by done. by destruct x as [[] ].
  - exists (<[i := RaftLog.store l]> (disks x)). split_and!; [| |done].
    + eapply rtc_l; [eapply (gs_write c x i r1 l _ Hi), written_writes; done|].
      apply rtc_once. set (y := mkLogCluster _ _).
      assert (nodes (members y) !! i = Some (r1 <| Raft.raft_log := l |>)) as Hy by apply lookup_insert_eq.
      pose proof (gs_host c y i _ r2 Hy) as Hg. unfold on_member, set_node in Hg. simpl in Hg. rewrite insert_insert_eq in Hg.
      apply Hg; [|by eapply po_persist_entries|done]. simpl. by rewrite (wn_view _ _ Hw).
    + unfold stored_commit in *. destruct (host_op_reads _ _ (op_persist_entries _ _ _ _ Hop)) as [Hrd _].
      rewrite (read_state _ _ Hrd). simpl. by rewrite (wn_state _ _ Hw).
Qed.

Lemma deliver_sim n k m n' ms k' q x : tracks n (m :: q) x → fits c n m → Network.deliver n k m = Done (n', ms, k') →
  ∃ x', rtc (agree_step c) x x' ∧ tracks n' (q ++ ms) x'.
Proof.
  intros [Hs Hn Hq Hh] Hf Hd. unfold Network.deliver in Hd. apply outcome_bind_Done in Hd as ([o] & Hp%unwrap_Done & Hd).
  destruct o as [r|]; cycle 1.
  { simpl in Hd. injection Hd as <- <- _. exists x. split; [done|].
    assert (rafts (n <| Network.peers ::= <[m_to m := Interface.mk None]> |>) = rafts n) as E
      by (unfold rafts; simpl; by rewrite insert_id).
    rewrite app_nil_r. split; [done|by rewrite E| |by rewrite E]. intros m' Hm. apply Hq. by right. }
  unfold Interface.step in Hd. simpl in Hd. apply outcome_bind_Done in Hd as ([p1 y1] & H1' & Hd).
  apply outcome_bind_Done in H1' as ([r1 y] & Hst & E). injection E as <- <-.
  apply outcome_bind_Done in Hd as (p2 & H2' & Hd). unfold Interface.persist in H2'. simpl in H2'.
  apply outcome_bind_Done in H2' as (r1' & Hsn & H2'). apply outcome_bind_Done in H2' as (r2 & Hen & E). injection E as <-.
  simpl in Hd. apply outcome_bind_Done in Hd as ([out k2] & Hfl & E). injection E as <- <- <-.
  destruct (Hf r Hp) as (Hty & Hpre & Hio & Hrm & Hnext). destruct (Hnext r1 y Hst) as (Hse1 & Hr1 & Hse2).
  pose proof (proj2 (rafts_lookup n (m_to m) r) Hp) as Hi. rewrite <-Hn in Hi.
  assert (agree_step c x (on_member x (m_to m) r1)) as S1.
  { eapply gs_message; [done| |done|done|done|done|done|done]. intros Hg. split; [|done]. apply Hq; [left|done]. }
  pose proof (rel_steps x _ Hs (rtc_once _ _ S1)) as Hs1.
  assert (nodes (members (on_member x (m_to m) r1)) !! m_to m = Some r1) as Hi1 by apply lookup_insert_eq.
  assert (r1' = r1) as ->.
  { destruct Hs1 as [s1 Hrel1]. pose proof (ar_node _ _ _ Hrel1 _ _ Hi1) as Hn1.
    destruct (persist_snapshot_ok r1 r1') as (_ & _ & E); [apply Hn1|done|done|]. apply E, Hn1. }
  destruct (persist_steps _ _ _ r2 Hs1 Hi1) as (ds & S2 & Hh2 & Hdu); [| done|by apply Hse2|done|].
  { destruct (step_reads _ _ _ _ Hst) as [Hrd _]; [set_solver|]. unfold stored_commit. rewrite (read_state _ _ Hrd).
    apply (Hh (m_to m)). by rewrite <-Hn. }
  unfold on_member, set_node in S2. simpl in S2. rewrite insert_insert_eq in S2.
  set (x2 := mkLogCluster _ ds) in S2.
  assert (nodes (members x2) !! m_to m = Some r2) as Hi2 by apply lookup_insert_eq.
  pose proof (gs_send c x2 (m_to m) r2 (Raft.msgs r2) [] Hi2 (λ _ Hm, Hm) (no_member (.∈ Raft.msgs r2)) (λ m' _ _, Hdu _)) as S3.
  simpl in S3. rewrite insert_insert_eq in S3.
  assert (∀ x3, agree_step c x2 x3 → rtc (agree_step c) x x3) as Hrun
    by (intros x3 S; eapply rtc_l; [exact S1|]; by eapply rtc_r).
  apply Hrun in S3. eexists. split; [exact S3|].
  assert (rafts (n <| Network.peers ::= <[m_to m := Interface.mk (Some (r2 <| Raft.msgs := [] |>))]> |>) =
    <[m_to m := r2 <| Raft.msgs := [] |>]> (rafts n)) as E by apply rafts_insert.
  split; [exact (rel_steps _ _ Hs S3)|simpl; by rewrite E, Hn|simpl..].
  - intros m' [Hm|Hm]%elem_of_app Hg; apply elem_of_app; [left; apply Hq; [by right|done]|right].
    destruct (filter_passes _ _ _ _ _ Hfl) as [Hsub _]. by eapply elem_of_sublist.
  - rewrite E. intros j rj Hj. destruct (decide (j = m_to m)) as [->|Hne].
    + rewrite lookup_insert_eq in Hj. by injection Hj as <-.
    + rewrite lookup_insert_ne in Hj by done. by apply (Hh j).
Qed.

Lemma tick_sim n q i r r' b x : tracks n q x → Network.peers n !! i = Some (Interface.mk (Some r)) → Raft.term r < u64_max →
  room 2 r → Raft.tick r = Done (r', b) → settled c r' →
  ∃ x', rtc (agree_step c) x x' ∧ tracks (n <| Network.peers ::= <[i := Interface.mk (Some r')]> |>) q x'.
Proof.
  intros [Hs Hn Hq Hh] Hp Ht Hr Htk Hst. pose proof (proj2 (rafts_lookup n i r) Hp) as Hi.
  assert (agree_step c x (on_member x i r')) as S1 by (eapply gs_tick; [by rewrite Hn|done..]). apply rtc_once in S1.
  eexists. split; [exact S1|]. split; [exact (rel_steps _ _ Hs S1)|by rewrite rafts_insert, <-Hn|done|].
  intros j rj. rewrite rafts_insert. intros Hj. destruct (decide (j = i)) as [->|Hne].
  - rewrite lookup_insert_eq in Hj. injection Hj as <-. destruct (tick_reads _ _ _ Htk) as [Hrd _].
    unfold stored_commit. rewrite (read_state _ _ Hrd). by apply (Hh i).
  - rewrite lookup_insert_ne in Hj by done. by apply (Hh j).
Qed.

Lemma net_step_sim a b x : tracks a.1 a.2 x → net_step c a b → ∃ x', rtc (agree_step c) x x' ∧ tracks b.1 b.2 x'.
Proof.
  intros Htr Hst. pose proof Htr as [Hs Hn Hq Hh].
  destruct Hst as [n q m k n' ms k' Hf Hd|n q m Hm|n q i r r' b Hp Ht Hr Htk Hse|n n' q Hp|n q q' Hl]; simpl in *.
  - by eapply deliver_sim.
  - exists x. split; [done|]. split; [done|done| |done]. intros m' [?|E%list_elem_of_singleton]%elem_of_app Hg; [auto|congruence].
  - by eapply tick_sim.
  - exists x. split; [done|]. assert (rafts n' = rafts n) as E by (unfold rafts; by rewrite Hp).
    split; [done|by rewrite E|done|by rewrite E].
  - exists x. split; [done|]. split; [done|done|auto|done].
Qed.

Lemma net_run_sim a b x : tracks a.1 a.2 x → rtc (net_step c) a b → ∃ x', rtc (agree_step c) x x' ∧ tracks b.1 b.2 x'.
Proof.
  intros Htr Hr. revert x Htr. induction Hr as [a|a a1 b Hst _ IH]; intros x Htr; [by exists x|].
  destruct (net_step_sim _ _ _ Htr Hst) as (x1 & R1 & T1). destruct (IH _ T1) as (x2 & R2 & T2).
  exists x2. split; [by etrans|done].
Qed.

(** Where a network starts. *)
Record net_init n : Prop := mk_net_init {
  ni_init : agree_init c (cluster_of n);
  ni_hard : ∀ i r, rafts n !! i = Some r → stored_commit (store_of r) = 0
}.

Lemma init_tracks n : net_init n → tracks n [] (cluster_of n).
Proof.
  intros [Hi Hh]. split; [exists (astart (cluster_of n)); by apply agree_init_rel|done| |done].
  intros m Hm. by apply elem_of_nil in Hm.
Qed.
End simulation.

(** ** Whole calls of [send] *)
Section sends.
Context `{Proto} `{HashOrder} `{Rand} `{RandomF64} (c : Joint.Configuration).
#[local] Set Default Proof Using "All".
Implicit Types (n : Network.t) (q : list Message).

(** Every delivery of a queue that runs for [steps] steps fits. *)
Fixpoint all_fit_along (steps : nat) n (k : nat) q : Prop :=
  match steps, q with
  | S steps, m :: q' => fits c n m ∧ ∀ n' ms k', Network.deliver n k m = Done (n', ms, k') → all_fit_along steps n' k' (q' ++ ms)
  | _, _ => True
  end.

Lemma send_queue_runs steps : ∀ n k q n' k', send_queue steps n k q = Done (Some (n', k')) → all_fit_along steps n k q →
  rtc (net_step c) (n, q) (n', []).
Proof.
  induction steps as [|steps IH]; intros n k q n' k' Hs Hf.
  - destruct q; [|done]. by injection Hs as <- _.
  - destruct q as [|m q]; [by injection Hs as <- _|]. cbn [send_queue] in Hs. destruct Hf as [Hm Hf].
    apply outcome_bind_Done in Hs as ([[n1 ms] k1] & Hd & Hs). eapply rtc_l; [by eapply ns_deliver|].
    eapply IH; [exact Hs|]. by apply Hf.
Qed.
End sends.

(** ** New networks *)
Section starting.
Context `{Proto} `{HashOrder} `{Rand} `{RandomF64}.
#[local] Set Default Proof Using "All".
Implicit Types (r : node) (n : Network.t).

Definition blank_store (addrs : list N) : MemStorage.t :=
  MemStorage.set_conf_state MemStorage.new (default_ConfState <| cs_voters := addrs |>).

Lemma blank_store_wf addrs : MemStorage.wf (blank_store addrs) ∧ MemStorage.view (blank_store addrs) = mkView 0 (Some 0) [].
Proof. by split; [split|]. Qed.

Lemma new_peer_spec addrs cfg i p : Network.new_peer addrs cfg i = Done p →
  ∃ r, p = Interface.mk (Some r) ∧ Raft.new (cfg <| Config.id := i |>) (blank_store addrs) = Done (Ok r).
Proof.
  unfold Network.new_peer. intros Hs. apply outcome_bind_Done in Hs as (d & Hd & Hs).
  unfold MemStorage.new_with_conf_state, MemStorage.initialize_with_conf_state in Hd. simpl in Hd. injection Hd as <-.
  apply outcome_bind_Done in Hs as (y & Hn & Hs). apply outcome_bind_Done in Hs as (r & Hy & Hs). injection Hs as <-.
  destruct y as [r'|]; [|done]. injection Hy as <-. by exists r'.
Qed.

Lemma add_peers_spec addrs cfg ids : ∀ n n', Network.add_peers addrs cfg n (zip (replicate (length ids) None) ids) = Done n' →
  ∀ i p, Network.peers n' !! i = Some p → Network.peers n !! i = Some p ∨ i ∈ ids ∧ Network.new_peer addrs cfg i = Done p.
Proof.
  induction ids as [|id ids IH]; intros n n' Hs i p Hp; cbn [length replicate zip zip_with Network.add_peers] in Hs.
  { injection Hs as <-. by left. }
  apply outcome_bind_Done in Hs as (n1 & H1' & Hs). apply outcome_bind_Done in H1' as (p1 & Hn & E). injection E as <-.
  destruct (IH _ _ Hs i p Hp) as [Hi|[Hi Hi']]; [|right; split; [by right|done]]. simpl in Hi.
  destruct (decide (i = id)) as [->|Hne].
  - rewrite lookup_insert_eq in Hi. injection Hi as <-. right. split; [left|done].
  - rewrite lookup_insert_ne in Hi by done. by left.
Qed.

Lemma new_applied cfg d rs r' : Raft.new cfg d = Done (Ok r') → st_wf d → st_initial_state d = Ok rs →
  Storage.hard_state rs = default_HardState → Config.applied cfg = 0 → RaftLog.applied (log_of r') ≤ committed r'.
Proof.
  unfold Raft.new. intros Hs Hwf Hrs Hh Hap. rewrite Hrs in Hs. destruct (Config.validate cfg); [|by inv_done Hs].
  apply outcome_bind_Done in Hs as (l & Hl & Hs). apply outcome_bind_Done in Hs as (li & _ & Hs).
  destruct (raft_log_new_view _ _ _ Hl Hwf) as [[_ Hix] _].
  destruct (Changer.restore _ _ _) as [p [[]|e]]; [|by inv_done Hs].
  apply outcome_bind_Done in Hs as ([r1 cs] & Hp & Hs). destruct (negb _); [done|].
  unfold Raft.post_conf_change, Raft.is_role in Hp. simpl in Hp. rewrite andb_false_r in Hp. simpl in Hp. injection Hp as <- _.
  rewrite bool_decide_true, Hap in Hs by done. simpl in Hs. apply outcome_bind_Done in Hs as (r4 & Hf & Hs). injection Hs as <-.
  unfold Raft.become_follower in Hf. apply outcome_bind_Done in Hf as (r5 & Hr & E).
  apply reset_spec in Hr as (_ & _ & _ & _ & L5 & _). inv_done E. simpl. rewrite L5. simpl. apply Hix.
Qed.

(** Every peer of a new network is a node that starts over. *)
Lemma new_network_peers k cfg n i r : Network.new_with_config (replicate k None) cfg = Done n → rafts n !! i = Some r →
  i ≠ 0 ∧ Raft.new (cfg <| Config.id := i |>) (blank_store (Network.one_to k)) = Done (Ok r).
Proof.
  unfold Network.new_with_config. rewrite length_replicate. intros Hs Hi%rafts_lookup.
  assert (length (Network.one_to k) = k) as Hk by (unfold Network.one_to; by rewrite length_fmap, length_seq).
  rewrite <-Hk in Hs at 2. destruct (add_peers_spec _ _ _ _ _ Hs i _ Hi) as [E|[Hin Hn]]; [done|].
  apply elem_of_one_to in Hin. destruct (new_peer_spec _ _ _ _ Hn) as (r' & [= <-] & Hr). split; [lia|done].
Qed.

Lemma new_network_init c k cfg n : Network.new_with_config (replicate k None) cfg = Done n →
  Joint.incoming c ≠ ∅ → Config.batch_append cfg = false → Config.applied cfg = 0 →
  (∀ i r, rafts n !! i = Some r → settled c r) → net_init c n.
Proof.
  intros Hnew Hc Hb Ha Hse. destruct (blank_store_wf (Network.one_to k)) as [Hwf Hv].
  change (st_wf (blank_store (Network.one_to k))) in Hwf.
  assert (∀ i r, rafts n !! i = Some r → i ≠ 0 ∧ Raft.new (cfg <| Config.id := i |>) (blank_store (Network.one_to k)) = Done (Ok r))
    as Hp by (intros i r; by apply new_network_peers).
  assert (blank_log (st_view (blank_store (Network.one_to k)))) as Hbl.
  { change (blank_log (MemStorage.view (blank_store (Network.one_to k)))). rewrite Hv. split_and!; [done|done|by intros t [= <-]]. }
  assert (∀ i r, rafts n !! i = Some r → Raft.id r = i ∧ Raft.vote r = 0 ∧ Raft.state r = Follower ∧ Raft.msgs r = [] ∧
    Raft.snap r = None ∧ store_of r = blank_store (Network.one_to k) ∧ log_ok (log_of r) ∧
    log_view (log_of r) = st_view (blank_store (Network.one_to k)) ∧ Raft.batch_append r = false) as Hr.
  { intros i r Hi. destruct (Hp i r Hi) as [_ Hn]. destruct (new_spec _ _ _ _ Hn eq_refl) as (E1 & _ & E2 & E3 & _).
    destruct (new_fresh c Hc _ _ _ _ Hn Hwf eq_refl) as (E4 & E5 & E6 & _).
    destruct (new_log _ _ _ Hn Hwf) as (E7 & E8 & E9 & _); [by eapply new_applied|]. split_and!; try done. by rewrite E9. }
  split; [split|]; simpl.
  - split; simpl; [done| |intros m Hm; by apply elem_of_nil in Hm].
    intros i r Hi. destruct (Hr i r Hi) as (E1 & _ & E3 & E4 & _). destruct (Hp i r Hi) as [Hz _]. destruct (Hse i r Hi) as [Hv' _].
    split_and!; [done|done|done|done|done|]. rewrite E4. intros m Hm. by apply elem_of_nil in Hm.
  - done.
  - intros i r Hi. destruct (Hr i r Hi) as (_ & E2 & _ & _ & E5 & E6 & E7 & E8 & E9). destruct (Hse i r Hi) as [_ Hw].
    split_and!; try done; rewrite ?E8, ?E6; apply Hbl.
  - intros i r m Hi Hm. destruct (Hr i r Hi) as (_ & _ & _ & E4 & _). rewrite E4 in Hm. by apply elem_of_nil in Hm.
  - intros m Hm. by apply elem_of_nil in Hm.
  - intros i r d _ Hd. done.
  - intros i r Hi. destruct (Hr i r Hi) as (_ & _ & _ & _ & _ & -> & _). done.
Qed.
End starting.

(** ** Properties *)


(** C11: The harness is safe.  In every state that a network made of new peers
    that do not batch appends ([batch_append] is off) reaches by delivering messages as [send] does, by messages that the test
    puts in that do not speak of votes, entries or commit indexes, by ticks,
    lost messages and links cut, isolated or recovered: two peers that have
    committed an index have the same entry there.  The deliveries are those
    that [fits] describes: no snapshots and no answers to reads, terms and logs
    that do not overflow, voters that stay the same. *)
Theorem harness_safety `{Proto} `{HashOrder} `{Rand} `{RandomF64} (c : Joint.Configuration) (k : nat) (cfg : Config.t)
    (n0 n : Network.t) (q : list Message) (i j : N) (r1 r2 : Raft.t MemStorage.t) (idx : N)
    (Hnew : Network.new_with_config (replicate k None) cfg = Done n0)
    (Hbatch : Config.batch_append cfg = false) (Happlied : Config.applied cfg = 0)
    (Hvoters : Joint.incoming c ≠ ∅) (Hsettled : ∀ i r, rafts n0 !! i = Some r → settled c r)
    (Hrun : rtc (net_step c) (n0, []) (n, q))
    (Hn1 : Network.peers n !! i = Some (Interface.mk (Some r1)))
    (Hn2 : Network.peers n !! j = Some (Interface.mk (Some r2)))
    (Hk1 : sv_dummy (log_view (Raft.raft_log r1)) < idx ≤ RaftLog.committed (Raft.raft_log r1))
    (Hk2 : sv_dummy (log_view (Raft.raft_log r2)) < idx ≤ RaftLog.committed (Raft.raft_log r2)) :
  ∃ e, vlookup (log_view (Raft.raft_log r1)) idx = Some e ∧ vlookup (log_view (Raft.raft_log r2)) idx = Some e.
Proof.
  pose proof (new_network_init c k cfg n0 Hnew Hvoters Hbatch Happlied Hsettled) as Hi.
  destruct (net_run_sim c Hvoters (n0, []) (n, q) _ (init_tracks c Hvoters n0 Hi) Hrun) as (x & _ & [[s Hrel] Hn _ _]). simpl in Hn.
  eapply (committed_agree c s x i j); [done|done| | |done|done]; rewrite Hn; by apply rafts_lookup.
Qed.

(** ** Witnesses of the hypotheses *)

(** Three peers; the first campaigns, wins and commits its first entry
    everywhere. *)
Section samples.
#[local] Existing Instances w_rand w_proto elements_order zero_draws.

Abbreviation w_laws := (@mem_storage_laws w_proto).
Abbreviation w_log_view := (@log_view _ (@MemStorage.storage w_proto) w_proto w_laws).
Abbreviation h_room k r := (vlast (w_log_view (Raft.raft_log r)) + k + 1 < u64_modulus).

(** Room, by the lengths of the parts of the log. *)
Definition h_room_b (k : N) (r : node) : bool :=
  let l := Raft.raft_log r in
  bool_decide (Unstable.snapshot (RaftLog.unstable l) = None) &&
  bool_decide (MemStorage.first_index (RaftLog.store l) - 1 + len (MemStorage.entries (RaftLog.store l)) +
    len (Unstable.entries (RaftLog.unstable l)) + k + 1 < u64_modulus).

Lemma h_room_ok k r : h_room_b k r = true → h_room k r.
Proof.
  unfold h_room_b. rewrite andb_true_iff, !bool_decide_eq_true. intros [Hn Hlt].
  assert (vlast (w_log_view (Raft.raft_log r)) ≤ MemStorage.first_index (store_of r) - 1 + len (MemStorage.entries (store_of r)) +
    len (Unstable.entries (RaftLog.unstable (log_of r)))) as Hl.
  { unfold log_view, vlast. rewrite Hn. simpl. rewrite len_app. unfold len. rewrite length_take. lia. }
  lia.
Qed.

Definition h_fits (n : Network.t) (m : Message) : bool :=
  match Network.peers n !! m_to m with
  | Some (Interface.mk (Some r)) =>
    w_fits r m && h_room_b (1 + len (m_entries m)) r &&
    match Raft.step r m with
    | Done (r1, _) => w_settled r1 && h_room_b 1 r1 &&
      match Interface.persist_entries r1 with Done r2 => w_settled r2 | Panicked => true end
    | Panicked => true
    end
  | _ => true
  end.

Abbreviation h_fits_prop := (@fits w_proto elements_order w_rand w_voters).

Lemma h_fits_ok n m : h_fits n m = true → h_fits_prop n m.
Proof.
  intros Hf r Hp. unfold h_fits in Hf. rewrite Hp in Hf. rewrite !andb_true_iff in Hf.
  destruct Hf as ((Hw & Hr) & Hs). destruct (w_input r m Hw) as (Hio & Hty & Hpre). split_and!; [done|done|done|by apply h_room_ok|].
  intros r1 y E. rewrite E, !andb_true_iff in Hs. destruct Hs as ((Hs1 & Hr1) & Hs2).
  split_and!; [by apply w_settled_ok|by apply h_room_ok|]. intros r2 E2. rewrite E2 in Hs2. by apply w_settled_ok.
Qed.

(** A run of the queue whose deliveries fit. *)
Fixpoint h_run (steps : nat) (n : Network.t) (k : nat) (q : list Message) : option Network.t :=
  match q with
  | [] => Some n
  | m :: q' =>
    match steps with
    | 0%nat => None
    | S steps =>
      if h_fits n m then
        match Network.deliver n k m with
        | Done (n', ms, k') => h_run steps n' k' (q' ++ ms)
        | Panicked => None
        end
      else None
    end
  end.

Abbreviation h_step := (@net_step w_proto elements_order w_rand zero_draws w_voters).

Lemma h_run_ok steps : ∀ n k q n', h_run steps n k q = Some n' → rtc h_step (n, q) (n', []).
Proof.
  induction steps as [|steps IH]; intros n k q n' Hs; destruct q as [|m q]; cbn [h_run] in Hs; try done;
    try (by injection Hs as <-). destruct (h_fits n m) eqn:Hf; [|done].
  destruct (Network.deliver n k m) as [[[n1 ms] k1]|] eqn:Hd; [|done].
  eapply rtc_l; [by eapply ns_deliver; [apply h_fits_ok|]|]. by apply (IH _ k1).
Qed.

Definition h_net : Network.t := Eval vm_compute in
  match Network.new_with_config (replicate 3 None) Network.default_config with Done n => n | Panicked => Network.mk ∅ ∅ ∅ ∅ end.
Definition h_end : Network.t := Eval vm_compute in default h_net (h_run 100 h_net 0 [w_hup 1]).
Definition h_peer (i : N) : node := Eval vm_compute in
  match Network.peers h_end !! i with Some (Interface.mk (Some r)) => r | _ => w_node 1 end.

Lemma h_new : Network.new_with_config (replicate 3 None) Network.default_config = Done h_net.
Proof. vm_compute. reflexivity. Qed.

Lemma h_settled : ∀ i r, rafts h_net !! i = Some r → settled w_voters r.
Proof.
  assert (map_Forall (λ _ r, w_settled r = true) (rafts h_net)) as Hm by (apply (bool_decide_unpack _); vm_compute; reflexivity).
  intros i r Hi. apply w_settled_ok. exact (Hm i r Hi).
Qed.

Lemma h_ran : rtc h_step (h_net, []) (h_end, []).
Proof.
  eapply rtc_l; [apply (ns_inject w_voters h_net [] (w_hup 1))|].
  - intros Hg. destruct Hg as [Hg|Hg]; [|unfold vote_message in Hg]; simpl in Hg; set_solver.
  - apply (h_run_ok 100 _ 0). vm_compute. reflexivity.
Qed.

Lemma harness_safety_witness : ∃ e, vlookup (w_log_view (Raft.raft_log (h_peer 1))) 1 = Some e ∧
  vlookup (w_log_view (Raft.raft_log (h_peer 2))) 1 = Some e.
Proof.
  apply (@harness_safety w_proto elements_order w_rand zero_draws w_voters 3 Network.default_config h_net h_end [] 1 2
    (h_peer 1) (h_peer 2) 1 h_new eq_refl eq_refl ltac:(done) h_settled h_ran);
    [vm_compute; reflexivity|vm_compute; reflexivity|change (0 < 1 ≤ 1)|change (0 < 1 ≤ 1)]; lia.
Defined.

End samples.
