(* ===== verification/WitnessDemo.v ===== *)
(** * The demonstration host (src/examples/witness_demo/main.rs)

    A cluster of raw nodes with one witness in one process: the host writes and
    applies what each [Ready] holds, delivers messages, and turns the answers of
    the witness into messages.  What it prints is left out. *)
From S2P Require Import Prelude Errors Eraftpb ProtoConf Util Unstable Storage RaftLog RaftLogSpec Quorum.
From S2P Require Import Inflights Progress Tracker ConfChange ReadOnly Config Witness Raft RawNode RaftFrame RaftElection.
From S2P Require Import RaftReplication RaftLogSteps RawNodeSpec RawNodeReady MemPersist.

Module Demo.
#[local] Abbreviation raw_node := (RawNode.t MemStorage.t).

(** [Cluster]. *)
Record t : Type := mk {
  nodes : gmap N (option raw_node);
  witness : Witness.t;
  witness_id : N;
  pending_msgs : list Message;
  pending_witness_msgs : list WitnessMessage;
  dead_nodes : gset N;
  witness_heartbeat_count : N;
  witness_append_count : N
}.
#[global] Instance eta : Eta t := λ d,
  mk (nodes d) (witness d) (witness_id d) (pending_msgs d) (pending_witness_msgs d) (dead_nodes d)
    (witness_heartbeat_count d) (witness_append_count d).

Definition new (i : N) : t := mk ∅ (Witness.new i) i [] [] ∅ 0 0.

Definition kill (d : t) (id : N) : t := d <| dead_nodes ::= union {[id]} |>.
Definition recover (d : t) (id : N) : t := d <| dead_nodes ::= λ s, s ∖ {[id]} |>.

Section ops.
Context `{Proto} `{HashOrder} `{Rand}.

Definition add_node (d : t) (id : N) (voters : list N) : outcome t :=
  let cfg := Config.default <| Config.id := id |> <| Config.check_quorum := true |> in
  store ← MemStorage.new_with_conf_state (default_ConfState <| cs_voters := voters |>);
  n ← RawNode.new cfg store;
  n ← unwrap_res n;
  mret (d <| nodes ::= <[id := Some n]> |>).

(** [node] and the assignment through the reference it returns. *)
Definition node (d : t) (id : N) : outcome raw_node := o ← unwrap (nodes d !! id); unwrap o.
Definition set_node (d : t) (id : N) (n : raw_node) : t := d <| nodes ::= <[id := Some n]> |>.

Definition leader_id (d : t) : N :=
  default 0 (head (omap (λ io : N * option raw_node,
    n ← io.2; if Raft.is_role (RawNode.raft n) Leader then Some io.1 else None) (map_iter (nodes d)))).

Fixpoint tick_nodes (d : t) (l : list (N * option raw_node)) : outcome t :=
  match l with
  | [] => mret d
  | (id, o) :: l' =>
    if bool_decide (id ∈ dead_nodes d) then tick_nodes d l'
    else match o with
         | Some n => '(n, _) ← RawNode.tick n; tick_nodes (set_node d id n) l'
         | None => tick_nodes d l'
         end
  end.

Definition tick (d : t) : outcome t := tick_nodes d (map_iter (nodes d)).

(** *** One [Ready] *)

(** The writes to the storage that the node shares. *)
Definition write_ready (rd : Ready) (s : MemStorage.t) : outcome MemStorage.t :=
  s ← (if negb (snapshot_is_empty (rd_snapshot rd)) then
         let '(s, x) := MemStorage.apply_snapshot s (rd_snapshot rd) in
         _ ← unwrap_res x; mret s
       else mret s);
  s ← (if negb (bool_decide (rd_entries rd = [])) then MemStorage.append s (rd_entries rd) else mret s);
  mret match rd_hs rd with Some hs => MemStorage.set_hardstate s hs | None => s end.

(** [mut_hard_state().set_commit]. *)
Definition set_commit (s : MemStorage.t) (commit : N) : MemStorage.t :=
  s <| MemStorage.raft_state ::= λ rs, rs <| Storage.hard_state ::= λ hs, hs <| hs_commit := commit |> |> |>.

(** A [Ready] is taken, written and advanced: the node, the entries to apply,
    the messages and those for the witness. *)
Definition handle_ready (n : raw_node) : outcome (raw_node * list Entry * list Message * list WitnessMessage) :=
  '(n, ready) ← RawNode.ready n;
  store ← write_ready ready (RawNode.store n);
  let n := RawNode.mut_store n store in
  let '(ready, msgs) := take_messages ready in
  let '(ready, persisted_msgs) := take_persisted_messages ready in
  let '(ready, witness_msgs) := take_witness_messages ready in
  let '(ready, committed) := take_committed_entries ready in
  '(n, light) ← RawNode.advance n ready;
  let n := match lr_commit_index light with
           | Some commit => RawNode.mut_store n (set_commit (RawNode.store n) commit)
           | None => n
           end in
  n ← RawNode.advance_apply n;
  mret (n, committed ++ lr_committed_entries light, msgs ++ persisted_msgs ++ lr_messages light, witness_msgs).

(** [apply_entry]. *)
Definition apply_conf (n : raw_node) (cc : ConfChangeV2) : outcome raw_node :=
  '(n, x) ← RawNode.apply_conf_change n (V2 cc);
  _ ← unwrap_res x;
  let cs := Configuration.to_conf_state (Tracker.conf (Raft.prs (RawNode.raft n))) in
  mret (RawNode.mut_store n (MemStorage.set_conf_state (RawNode.store n) cs)).

Definition apply_entry (n : raw_node) (entry : Entry) : outcome raw_node :=
  match e_entry_type entry with
  | EntryConfChange => v1 ← unwrap (decode_conf_change (e_data entry)); apply_conf n (ProtoConf.into_v2 v1)
  | EntryConfChangeV2 => v2 ← unwrap (decode_conf_change_v2 (e_data entry)); apply_conf n v2
  | EntryNormal => mret n
  end.

Fixpoint apply_entries (n : raw_node) (es : list Entry) : outcome raw_node :=
  match es with
  | [] => mret n
  | e :: es' => n ← apply_entry n e; apply_entries n es'
  end.

(** The body of the loop of [process]. *)
Definition process_node (d : t) (id : N) : outcome t :=
  if bool_decide (id ∈ dead_nodes d) then mret d
  else match default None (nodes d !! id) with
       | None => mret d
       | Some n =>
         has_ready ← RawNode.has_ready n;
         if negb has_ready then mret d
         else
           '(n, committed, msgs, wmsgs) ← handle_ready n;
           n ← apply_entries n committed;
           mret ((set_node d id n) <| pending_msgs ::= λ l, l ++ msgs |> <| pending_witness_msgs ::= λ l, l ++ wmsgs |>)
       end.

Fixpoint process_nodes (d : t) (ids : list N) : outcome t :=
  match ids with
  | [] => mret d
  | id :: ids' => d ← process_node d id; process_nodes d ids'
  end.

(** *** Messages *)

Fixpoint deliver_all (d : t) (ms : list Message) : outcome t :=
  match ms with
  | [] => mret d
  | m :: ms' =>
    if bool_decide (m_to m ∈ dead_nodes d) || bool_decide (m_from m ∈ dead_nodes d) then deliver_all d ms'
    else match default None (nodes d !! m_to m) with
         | Some n => '(n, _) ← RawNode.step n m; deliver_all (set_node d (m_to m) n) ms'
         | None => deliver_all d ms'
         end
  end.

Definition deliver_msgs (d : t) : outcome t := deliver_all (d <| pending_msgs := [] |>) (pending_msgs d).

Definition translate_witness_response (d : t) (orig : WitnessMessage) (resp : WitnessResponse) : t :=
  match resp with
  | Persist state =>
    if bool_decide (wm_msg_type orig = MsgAppend) then
      d <| witness_append_count ::= λ k, k +w 1 |>
        <| pending_msgs ::= λ l, l ++ [default_Message <| m_msg_type := MsgAppendResponse |>
             <| m_from := witness_id d |> <| m_to := wm_from orig |>
             <| m_term := hs_term (whs_state state) |> <| m_commit := hs_commit (whs_state state) |>] |>
    else d
  | VoteGrant granted =>
    d <| pending_msgs ::= λ l, l ++ [default_Message <| m_msg_type := MsgRequestVoteResponse |>
           <| m_from := witness_id d |> <| m_to := wm_from orig |>
           <| m_term := Witness.term (witness d) |> <| m_reject := negb granted |>] |>
  | StaleTerm witness_term =>
    d <| pending_msgs ::= λ l, l ++ [default_Message <| m_msg_type := MsgAppendResponse |>
           <| m_from := witness_id d |> <| m_to := wm_from orig |>
           <| m_term := witness_term |> <| m_reject := true |>] |>
  end.

Fixpoint witness_all (d : t) (wmsgs : list WitnessMessage) : t :=
  match wmsgs with
  | [] => d
  | wm :: wmsgs' =>
    let '(w, resp) := Witness.process (witness d) wm in
    let d := d <| witness := w |> in
    witness_all (match resp with Some resp => translate_witness_response d wm resp | None => d end) wmsgs'
  end.

Definition process (d : t) : outcome t :=
  d ← process_nodes d (set_iter (dom (nodes d)));
  d ← deliver_msgs d;
  let d := witness_all (d <| pending_witness_msgs := [] |>) (pending_witness_msgs d) in
  deliver_msgs d.

Fixpoint step_n (d : t) (n : nat) : outcome t :=
  match n with
  | 0%nat => mret d
  | S n => d ← tick d; d ← process d; step_n d n
  end.

Definition commit_index (d : t) (id : N) : N :=
  match default None (nodes d !! id) with
  | Some n => RaftLog.committed (Raft.raft_log (RawNode.raft n))
  | None => 0
  end.

Definition last_index (d : t) (id : N) : outcome N :=
  match default None (nodes d !! id) with
  | Some n => RaftLog.last_index (Raft.raft_log (RawNode.raft n))
  | None => mret 0
  end.
(** *** The scenario of [main] *)

(** A fallible call to a node, unwrapped. *)
Definition call (d : t) (id : N) (f : raw_node → outcome (raw_node * Result unit)) : outcome t :=
  n ← node d id;
  '(n, x) ← f n;
  _ ← unwrap_res x;
  mret (set_node d id n).

Definition propose_change (d : t) (cc : ConfChangeV2) : outcome t :=
  call d 1 (λ n, RawNode.propose_conf_change n [] (V2 cc)).
Definition propose (d : t) (data : bytes) : outcome t := call d 1 (λ n, RawNode.propose n [] data).

Definition conf_of (d : t) : outcome Configuration.t := n ← node d 1; mret (Tracker.conf (Raft.prs (RawNode.raft n))).

(** Node 1 leads alone, then node 2 joins. *)
Definition phase1 : outcome t :=
  d ← add_node (new 3) 1 [1];
  d ← call d 1 RawNode.campaign;
  d ← process d;
  d ← add_node d 2 [1];
  d ← propose_change d (mkConfChangeV2 Auto [new_conf_change_single 2 AddNode] []);
  step_n d 30.

(** Node 3 joins as the witness. *)
Definition phase2 (d : t) : outcome t :=
  let d := d <| witness_heartbeat_count := 0 |> in
  d ← propose_change d (mkConfChangeV2 Auto [new_conf_change_single 3 AddWitness] []);
  step_n d 30.

Definition phase3 (d : t) : outcome t :=
  d ← propose d (bytes_of "data-1");
  step_n d 20.

(** Node 2 is down: the commit indexes of node 1 before and after it has
    proposed, if it leads. *)
Definition phase4 (d : t) : outcome (t * option (N * N)) :=
  let d := (kill d 2) <| witness_heartbeat_count := 0 |> <| witness_append_count := 0 |> in
  d ← step_n d 40;
  if leader_id d =? 1 then
    let commit_before := commit_index d 1 in
    d ← propose d (bytes_of "survived-node2-down");
    d ← step_n d 40;
    mret (d, Some (commit_before, commit_index d 1))
  else mret (d, None).

Definition phase5 (d : t) : outcome t := step_n (recover d 2) 40.

(** Node 4 joins through a joint configuration, which is left explicitly. *)
Definition phase6 (d : t) : outcome t :=
  d ← add_node d 4 [1; 2];
  d ← propose_change d (mkConfChangeV2 Explicit [new_conf_change_single 4 AddNode] []);
  d ← step_n d 30;
  c ← conf_of d;
  _ ← rassert (bool_decide (Configuration.witnesses c = (3, 3)));
  d ← propose d (bytes_of "during-joint");
  d ← step_n d 20;
  d ← propose_change d default_ConfChangeV2;
  d ← step_n d 30;
  c ← conf_of d;
  _ ← rassert (get2 (Configuration.witnesses c) Outgoing =? 0);
  _ ← rassert (bool_decide (cs_voters_outgoing (Configuration.to_conf_state c) = []));
  mret d.

Definition main : outcome t :=
  d ← phase1;
  d ← phase2 d;
  d ← phase3 d;
  '(d, _) ← phase4 d;
  d ← phase5 d;
  phase6 d.
End ops.
End Demo.

Import Demo.

(** ** A round of a node *)
Section rounds.
Context `{Proto} `{HashOrder} `{Rand}.
#[local] Set Default Proof Using "All".
Implicit Types (n : RawNode.t MemStorage.t) (s : MemStorage.t).
#[local] Abbreviation log n := (Raft.raft_log (RawNode.raft n)).

Lemma rn_run_app n evs n1 evs' n' : rn_run n evs n1 → rn_run n1 evs' n' → rn_run n (evs ++ evs') n'.
Proof.
  intros Hr Hr'. induction Hr as [|n n2 n1 es es' Hs _ IH]; [done|]. rewrite <-app_assoc. eapply rr_step; [exact Hs|]. by apply IH.
Qed.

Lemma rn_run_once n evs n' : rn_step n evs n' → rn_run n evs n'.
Proof. intros Hs. rewrite <-(app_nil_r evs). eapply rr_step; [done|apply rr_done]. Qed.

(** Taking a [Ready] only reads the log. *)
Lemma ready_log n n' rd : RawNode.ready n = Done (n', rd) → log_read (log n) (log n').
Proof.
  unfold RawNode.ready. intros Hs. apply outcome_bind_Done in Hs as (n1 & Hdr & Hs).
  apply drain_records_same in Hdr as [Er1 _]. simpl in Er1.
  apply outcome_bind_Done in Hs as ([[n2 rd2] rr2] & Hsn & Hs).
  assert (log n2 = log n) as E2.
  { unfold RawNode.ready_snapshot in Hsn. simpl in Hsn. rewrite Er1 in Hsn. inv_done Hsn; simpl; rewrite ?Er1; try done. }
  destruct (match last _ with Some e => _ | None => _ end) as [rd3 rr3].
  apply outcome_bind_Done in Hs as ([n3 lr] & Hg & Hs). inv_done Hs. simpl.
  unfold RawNode.gen_light_ready in Hg. apply outcome_bind_Done in Hg as ([l r] & Hr & Hg).
  apply next_entries_since_read in Hr. rewrite <-E2. simpl in Hr.
  apply outcome_bind_Done in Hg as (i & _ & Hg). injection Hg as <- _. simpl. by rewrite reduce_uncommitted_log.
Qed.

(** Storages with the same log. *)
Definition alike s s' : Prop :=
  MemStorage.entries s' = MemStorage.entries s ∧ MemStorage.snapshot_metadata s' = MemStorage.snapshot_metadata s.

Lemma alike_view s s' : alike s s' → st_wf s → st_wf s' ∧ st_view s' = st_view s.
Proof.
  intros [E1 E2] Hw. change (MemStorage.wf s) in Hw. change (MemStorage.wf s' ∧ MemStorage.view s' = MemStorage.view s).
  assert (MemStorage.first_index s' = MemStorage.first_index s) as Ef by (unfold MemStorage.first_index; by rewrite E1, E2).
  destruct Hw as [W1 W2 W3]. split; [split; by rewrite ?Ef, ?E1, ?E2|]. unfold MemStorage.view. by rewrite Ef, E1, E2.
Qed.

Lemma alike_rehosted n s : alike (RawNode.store n) s → log_ok (log n) →
  rehosted (log n) (log (RawNode.mut_store n s)) ∧ log_view (log (RawNode.mut_store n s)) = log_view (log n).
Proof.
  intros Ha [Hwf Hix]. destruct (alike_view _ _ Ha (lw_store _ Hwf)) as [Hw Hv].
  assert (log_view (log (RawNode.mut_store n s)) = log_view (log n)) as E.
  { unfold log_view. change (RaftLog.unstable (log (RawNode.mut_store n s))) with (RaftLog.unstable (log n)).
    change (RaftLog.store (log (RawNode.mut_store n s))) with s. by rewrite Hv. }
  split; [|done]. split; [intros _; split|done|intros _; rewrite E; apply preserved_refl].
  - destruct Hwf as [W1 W2 W3 W4]. split; change (RaftLog.unstable (log (RawNode.mut_store n s))) with (RaftLog.unstable (log n));
      change (RaftLog.store (log (RawNode.mut_store n s))) with s; rewrite ?Hv; done.
  - destruct Hix as [? ? ? ?]. by split; rewrite ?E.
Qed.

Lemma alike_step n s : alike (RawNode.store n) s → rn_ok n → rn_step n [] (RawNode.mut_store n s).
Proof.
  intros Ha [Hok Hsi Hre]. destruct (alike_rehosted n s Ha Hok) as [Hr Hv]. apply rs_compact; [done|]. by rewrite Hv.
Qed.

Lemma write_ready_holds n n1 rd s : RawNode.ready n = Done (n1, rd) → rn_ok n →
  (∀ snap, RawNode.snap n = Some snap → sm_index (s_metadata snap) ≠ 0) →
  write_ready rd (RawNode.store n1) = Done s → holds_log s (log n1).
Proof.
  intros Hrd Hrn Hne Hw. pose proof (ready_content _ _ _ Hrd Hrn) as Hct. pose proof (ct_entries _ _ Hct) as Ee.
  pose proof (ct_snapshot _ _ Hct) as Es. pose proof (ready_log _ _ _ Hrd) as Hlr.
  destruct (log_read_fields _ _ Hlr) as (Eu & _). pose proof (de_log _ _ _ (ready_delivers _ _ _ Hrd Hrn)) as Hok.
  unfold RawNode.snap, Raft.snap in Es, Hne. unfold RaftLog.unstable_entries in Ee. rewrite <-Eu in Ee, Es, Hne. clear Hct Hlr Eu.
  unfold write_ready in Hw. apply outcome_bind_Done in Hw as (s1 & H1' & Hw). apply outcome_bind_Done in Hw as (s2 & H2' & Hw).
  assert (holds_log s2 (log n1)) as Hh; cycle 1.
  { injection Hw as <-. destruct (rd_hs rd) as [hs|]; [|done]. destruct Hh as [Hw Hv].
    destruct (alike_view s2 (MemStorage.set_hardstate s2 hs)) as [Hw' Hv']; [done|done|]. split; [done|by rewrite Hv']. }
  clear Hw. rewrite Es, Ee in *. clear Es Ee rd Hrd.
  assert (∃ l, log_ok l ∧ log_view l = log_view (log n1) ∧ Unstable.snapshot (RaftLog.unstable l) = None ∧
    RaftLog.store l = s1 ∧ RaftLog.unstable_entries l = RaftLog.unstable_entries (log n1)) as (l & Hl & Hv & Hn & <- & En).
  { destruct (Unstable.snapshot (RaftLog.unstable (log n1))) as [snap|] eqn:E; simpl in H1'.
    - unfold snapshot_is_empty in H1'. rewrite (proj2 (N.eqb_neq _ _) (Hne snap eq_refl)) in H1'. simpl in H1'.
      destruct (MemStorage.apply_snapshot (RawNode.store n1) snap) as [d x] eqn:Ed.
      apply outcome_bind_Done in H1' as (u & Hx & H1'). injection H1' as <-. destruct x as [[]|]; [|done].
      set (u' := (RaftLog.unstable (log n1)) <| Unstable.snapshot := None |>).
      destruct (snapshot_applied (log n1) snap d u') as [Hok' Hv']; try done.
      { destruct (lw_unstable _ (proj1 Hok)) as [A B C D F]. by split. }
      by eexists.
    - inv_done H1'. by exists (log n1). }
  change (Unstable.entries (RaftLog.unstable (log n1))) with (RaftLog.unstable_entries (log n1)) in H2'.
  rewrite <-En in H2'. case_bool_decide as Hem; simpl in H2'.
  - injection H2' as <-. destruct (settled_holds l Hl Hn Hem) as [? E]. split; [done|by rewrite E].
  - destruct (append_holds l s2 Hl Hn Hem H2') as [[? E] _]. split; [done|by rewrite E].
Qed.

(** What was taken out of a [Ready] does not matter to [advance]. *)
Lemma advance_append_taken n rd rd' : rd_ss rd' = rd_ss rd → rd_hs rd' = rd_hs rd → rd_number rd' = rd_number rd →
  RawNode.advance_append n rd' = RawNode.advance_append n rd.
Proof. intros E1 E2 E3. unfold RawNode.advance_append, RawNode.commit_ready. by rewrite E1, E2, E3. Qed.

(** Calls that hand nothing out and append at most [k] entries. *)
Definition eventless (k : N) n n' : Prop := rn_ok n → room k (RawNode.raft n) →
  rn_run n [] n' ∧ vlast (log_view (log n')) ≤ vlast (log_view (log n)) + k.

Lemma eventless_refl n : eventless 0 n n.
Proof. intros _ _. split; [apply rr_done|lia]. Qed.

Lemma eventless_trans k j n n1 n' : eventless k n n1 → eventless j n1 n' → eventless (k + j) n n'.
Proof.
  intros H1' H2' Hn Hr. destruct (H1' Hn ltac:(lia)) as [R1 L1].
  destruct (H2' (pg_ok _ _ _ (rn_run_progress _ _ _ R1 Hn)) ltac:(lia)) as [R2 L2].
  split; [|lia]. by apply (rn_run_app _ _ _ _ _ R1 R2).
Qed.

Lemma alike_eventless n s : alike (RawNode.store n) s → eventless 0 n (RawNode.mut_store n s).
Proof.
  intros Ha Hn _. split; [by apply rn_run_once, alike_step|]. destruct (alike_rehosted _ _ Ha (ro_log _ Hn)) as [_ ->]. lia.
Qed.

Lemma modest_eventless n r : modest (RawNode.raft n) r → rn_step n [] (n <| RawNode.raft := r |>) →
  eventless 1 n (n <| RawNode.raft := r |>).
Proof. intros Hm Hs Hn Hr. split; [by apply rn_run_once|]. by apply (modest_last _ _ Hm (ro_log _ Hn)). Qed.

Lemma advance_apply_to_eventless n i n' : RawNode.advance_apply_to n i = Done n' → eventless 1 n n'.
Proof.
  intros Hs Hn Hr. pose proof (rs_apply n i n' Hs Hr) as Hst.
  unfold RawNode.advance_apply_to, RawNode.commit_apply, RawNode.in_raft in Hs. inv_done Hs.
  apply modest_eventless; [by eapply commit_apply_modest|done|done|done].
Qed.

Lemma apply_conf_eventless n cc n' : apply_conf n cc = Done n' → eventless 1 n n'.
Proof.
  unfold apply_conf, RawNode.apply_conf_change, RawNode.on_raft. intros Hs Hn Hr. inv_done Hs.
  refine (eventless_trans 1 0 _ _ _ _ _ Hn _); [..|lia].
  - intros _ _. eapply modest_eventless; [by eapply apply_conf_change_modest| |done|done].
    apply rs_host; [by eapply op_apply_conf_change|done].
  - by apply alike_eventless.
Qed.

Lemma apply_entries_eventless es n n' : apply_entries n es = Done n' → eventless (len es) n n'.
Proof.
  revert n. induction es as [|e es IH]; intros n Hs; cbn [apply_entries] in Hs; [injection Hs as <-; apply eventless_refl|].
  apply outcome_bind_Done in Hs as (n1 & He & Hs). rewrite len_cons.
  replace (len es + 1) with (1 + len es) by lia. apply eventless_trans with n1; [|by apply IH].
  unfold apply_entry in He. destruct (e_entry_type e); [|inv_done He; by eapply apply_conf_eventless..].
  injection He as <-. intros Hn Hr. destruct (eventless_refl n Hn ltac:(lia)). split; [done|lia].
Qed.

(** Taking the messages leaves the rest of a [Ready]. *)
Lemma takes_leave rd : let rd' := (take_persisted_messages (take_messages rd).1).1 in
  rd_ss rd' = rd_ss rd ∧ rd_hs rd' = rd_hs rd ∧ rd_number rd' = rd_number rd ∧
  rd_committed_entries rd' = rd_committed_entries rd.
Proof using.
  unfold take_messages, take_persisted_messages. destruct (rd_is_persisted_msg rd) eqn:E; simpl; by rewrite E.
Qed.

(** What a host is told to install. *)
Definition installs n : list event :=
  match RawNode.snap n with Some s => [Install (sm_index (s_metadata s))] | None => [] end.

Lemma handle_ready_run n n1 es ms ws : handle_ready n = Done (n1, es, ms, ws) → rn_ok n →
  (∀ snap, RawNode.snap n = Some snap → sm_index (s_metadata snap) ≠ 0) → room 2 (RawNode.raft n) →
  rn_run n (installs n ++ (Apply <$> es)) n1 ∧ vlast (log_view (log n1)) ≤ vlast (log_view (log n)) + 2.
Proof.
  unfold handle_ready. intros Hs Hn Hne Hr. apply outcome_bind_Done in Hs as ([m rd] & Hrd & Hs).
  apply outcome_bind_Done in Hs as (s & Hw & Hs).
  pose proof (write_ready_holds _ _ _ _ Hrd Hn Hne Hw) as Hh.
  destruct (takes_leave rd) as (T1 & T2 & T3 & T4).
  destruct (take_messages rd) as [rd1 ms1]. destruct (take_persisted_messages rd1) as [rd2 ms2] eqn:E2. simpl in *.
  rewrite E2 in *. simpl in *.
  apply outcome_bind_Done in Hs as ([m2 lr] & Ha & Hs). apply outcome_bind_Done in Hs as (m4 & Hc & Hs).
  injection Hs as <- <- _ _. unfold RawNode.advance in Ha. rewrite (advance_append_taken _ rd) in Ha by done.
  apply outcome_bind_Done in Ha as ([m1 lr1] & Had & Ha). apply outcome_bind_Done in Ha as (m1' & Hap & Ha).
  injection Ha as -> ->.
  pose proof (rs_round _ _ _ _ _ _ Hrd Hh Had) as Hst. pose proof (rn_step_progress _ _ _ Hst Hn) as Hpg.
  assert (log_view (log m1) = log_view (log n)) as Hv.
  { destruct (ready_written _ _ _ _ Hrd Hn Hh) as (D & O2 & V2 & C2 & Hh2).
    apply advance_append_light in Had as (n3 & Hha & V4 & _ & _); [|done|done|rewrite C2; apply D|rewrite V2; apply D].
    by rewrite (ha_view _ _ _ Hha), V4, V2, (de_view _ _ _ D). }
  assert (ready_events rd ++ light_events lr = installs n ++ (Apply <$> rd_committed_entries rd2 ++ lr_committed_entries lr)) as Ee.
  { unfold ready_events, light_events, installs. rewrite fmap_app, app_assoc, T4. do 2 f_equal.
    rewrite (ct_snapshot _ _ (ready_content _ _ _ Hrd Hn)). destruct (RawNode.snap n) as [sn|]; [|done].
    unfold snapshot_is_empty. simpl. by rewrite (proj2 (N.eqb_neq _ _) (Hne sn eq_refl)). }
  change (rn_run n (installs n ++ (Apply <$> rd_committed_entries rd2 ++ lr_committed_entries lr)) m4 ∧
    vlast (log_view (log m4)) ≤ vlast (log_view (log n)) + 2). rewrite <-Ee. clear Ee.
  assert (eventless 2 m1 m4) as He.
  { eapply (eventless_trans 1 1); [by eapply advance_apply_to_eventless|].
    eapply (eventless_trans 0 1); [|by eapply advance_apply_to_eventless].
    destruct (lr_commit_index lr) as [k|]; [by apply alike_eventless|apply eventless_refl]. }
  destruct (He (pg_ok _ _ _ Hpg)) as [Hrun Hl]; [by rewrite Hv|].
  split; [|by rewrite <-Hv]. rewrite <-(app_nil_r (_ ++ _)). by eapply rn_run_app; [apply rn_run_once|].
Qed.

Lemma deliver_length es i j : deliver i (Apply <$> es) = Some j → j = i + len es.
Proof using.
  revert i. induction es as [|e es IH]; intros i Hd; simpl in Hd; [injection Hd as <-; rewrite len_nil; lia|].
  case_match; [|done]. apply IH in Hd. rewrite len_cons. lia.
Qed.

(** A whole round: at most the entries of the log are applied. *)
Lemma handled_round n n1 es ms ws n' : handle_ready n = Done (n1, es, ms, ws) → apply_entries n1 es = Done n' → rn_ok n →
  (∀ snap, RawNode.snap n = Some snap → sm_index (s_metadata snap) ≠ 0) →
  2 * vlast (log_view (log n)) + 5 < u64_modulus → progress n (installs n ++ (Apply <$> es)) n'.
Proof.
  intros Hs Ha Hn Hne Hr. destruct (handle_ready_run _ _ _ _ _ Hs Hn Hne ltac:(lia)) as [R1 L1].
  pose proof (rn_run_progress _ _ _ R1 Hn) as P1. pose proof P1 as [O1 _ _ D1 _].
  assert (len es ≤ vlast (log_view (log n1))) as Hle.
  { pose proof (ro_since _ O1) as Hsi. pose proof (ix_committed _ (proj2 (ro_log _ O1))) as Hcv.
    assert (∃ i, deliver i (Apply <$> es) = Some (RawNode.commit_since_index n1)) as [i Hd%deliver_length].
    { unfold installs in D1. destruct (RawNode.snap n) as [sn|]; simpl in D1; [case_match; [|done]|]; by eexists. }
    lia. }
  destruct (apply_entries_eventless _ _ _ Ha O1 ltac:(lia)) as [R2 _].
  rewrite <-(app_nil_r (installs n ++ _)). eapply progress_trans; [done|]. by apply rn_run_progress.
Qed.
End rounds.

(** ** Properties *)

(** C33: A turn of the demonstration host.  The host that handles a live node
    either leaves the cluster as it was, because there is nothing to do, or
    takes the [Ready], writes it, advances, reports everything as applied and
    only then applies it and queues the messages: the pending snapshot and the
    committed entries reach the host in order, without gap or repetition, each
    one the entry that the node's log holds; and the node is fit for the next
    turn. *)
Theorem demo_turn_delivers `{Proto} `{HashOrder} `{Rand} (d d' : Demo.t) (id : N) (n : RawNode.t MemStorage.t)
    (Hid : nodes d !! id = Some (Some n)) (Hlive : id ∉ dead_nodes d) (Hn : rn_ok n)
    (Hsnap : ∀ s, RawNode.snap n = Some s → sm_index (s_metadata s) ≠ 0)
    (Hroom : 2 * vlast (log_view (Raft.raft_log (RawNode.raft n))) + 5 < u64_modulus)
    (Hturn : process_node d id = Done d') :
  (RawNode.has_ready n = Done false ∧ d' = d) ∨
  ∃ n1 es ms ws n', RawNode.has_ready n = Done true ∧
    handle_ready n = Done (n1, es, ms, ws) ∧ apply_entries n1 es = Done n' ∧
    d' = (set_node d id n') <| pending_msgs := pending_msgs d ++ ms |> <| pending_witness_msgs := pending_witness_msgs d ++ ws |> ∧
    deliver (RawNode.commit_since_index n) (installs n ++ (Apply <$> es)) = Some (RawNode.commit_since_index n') ∧
    Forall (in_log n') es ∧ rn_ok n'.
Proof.
  unfold process_node in Hturn. rewrite bool_decide_eq_false_2, Hid in Hturn by done. simpl in Hturn.
  apply outcome_bind_Done in Hturn as ([] & Hh & Hturn); simpl in Hturn; [right|left; by injection Hturn as <-].
  apply outcome_bind_Done in Hturn as ([[[n1 es] ms] ws] & Hr & Hturn).
  apply outcome_bind_Done in Hturn as (n' & Ha & Hturn). injection Hturn as <-.
  destruct (handled_round _ _ _ _ _ _ Hr Ha Hn Hsnap Hroom) as [O _ _ D E].
  exists n1, es, ms, ws, n'. split_and!; try done. apply Forall_forall. intros e He. apply E, elem_of_app. right.
  by apply list_elem_of_fmap_2.
Qed.

(** ** Witnesses of the hypotheses *)

Section samples.
#[local] Existing Instances w_rand w_proto elements_order.

Definition w_demo : Demo.t := (new 3) <| nodes := {[1 := Some w_elected_node]} |>.
Definition w_turned : Demo.t := match process_node w_demo 1 with Done d => d | Panicked => w_demo end.

Lemma w_demo_turn : process_node w_demo 1 = Done w_turned.
Proof. vm_compute. reflexivity. Qed.

Lemma w_elected_room : 2 * vlast (w_view (Raft.raft_log (RawNode.raft w_elected_node))) + 5 < u64_modulus.
Proof. rewrite w_elected_log_eq. vm_compute. reflexivity. Qed.

Lemma demo_turn_delivers_witness : w_turned ≠ w_demo ∧ ∃ n1 es ms ws, handle_ready w_elected_node = Done (n1, es, ms, ws).
Proof.
  destruct (@demo_turn_delivers w_proto elements_order w_rand w_demo w_turned 1 w_elected_node) as [[Hb _]|Hd];
    [reflexivity|set_solver|exact w_elected_ok|by vm_compute|exact w_elected_room|exact w_demo_turn| |].
  - rewrite w_elected_has_ready in Hb. done.
  - destruct Hd as (n1 & es & ms & ws & n' & _ & Hh & _). split; [|by exists n1, es, ms, ws].
    intros E%(f_equal (λ d, commit_index d 1)). revert E. vm_compute. done.
Defined.
End samples.

(** ** The scenario

    The whole of [main] run with a stand-in for the protobuf coding of
    configuration changes and the shortest election timeouts. *)
Module Scenario.
Definition type_code (ty : ConfChangeType) : N :=
  match ty with AddNode => 0 | RemoveNode => 1 | AddLearnerNode => 2 | AddWitness => 3 end.
Definition transition_code (tr : ConfChangeTransition) : N := match tr with Auto => 0 | Implicit => 1 | Explicit => 2 end.
Definition encode (cc : ConfChangeV2) : bytes :=
  transition_code (ccv_transition cc) :: flat_map (λ c, [type_code (ccs_change_type c); ccs_node_id c]) (ccv_changes cc).

Fixpoint decode_changes (b : bytes) : option (list ConfChangeSingle) :=
  match b with
  | [] => Some []
  | ty :: i :: b =>
    ty ← nth_error [AddNode; RemoveNode; AddLearnerNode; AddWitness] (N.to_nat ty);
    l ← decode_changes b;
    Some (mkConfChangeSingle ty i :: l)
  | _ => None
  end.
Definition decode (b : bytes) : option ConfChangeV2 :=
  match b with
  | [] => Some default_ConfChangeV2
  | tr :: b => tr ← nth_error [Auto; Implicit; Explicit] (N.to_nat tr); l ← decode_changes b; Some (mkConfChangeV2 tr l [])
  end.

Definition codec : Proto := {|
  compute_size e := len (e_data e) + 1;
  decode_conf_change _ := None;
  decode_conf_change_v2 := decode;
  encode_conf_change _ := Ok [];
  encode_conf_change_v2 cc := Ok (encode cc) |}.
#[local] Existing Instances w_rand codec elements_order.

(** The cluster once node 2 is down and node 1 has proposed, and the commit
    indexes of node 1 before and after. *)
Definition degraded : outcome (Demo.t * option (N * N)) :=
  d ← phase1; d ← phase2 d; d ← phase3 d; phase4 d.
End Scenario.

Section scenario.
#[local] Existing Instances w_rand Scenario.codec elements_order.

(** The scenario runs to its end: no call fails, the assertions on the joint
    configuration hold, and the three nodes have committed the same index. *)
Theorem demo_completes :
  (d ← main; mret (commit_index d 1, commit_index d 2, commit_index d 4, leader_id d)) = Done (13, 13, 13, 1).
Proof. vm_compute. reflexivity. Qed.

(** While node 2 is down nothing is committed, although node 1 leads and the
    witness has stored its entries: the host turns the answer of the witness
    into a message and never calls [confirm_witness_append]. *)
Theorem demo_degraded_stalls :
  ('(d, r) ← Scenario.degraded; l ← last_index d 1; mret (r, l, witness_append_count d, leader_id d))
  = Done (Some (5, 5), 7, 1, 1).
Proof. vm_compute. reflexivity. Qed.

(** With that call the same cluster commits all it has proposed. *)
Theorem demo_confirmed_commits :
  ('(d, _) ← Scenario.degraded; n ← node d 1; n ← RawNode.confirm_witness_append n 3;
   d ← process (set_node d 1 n); mret (commit_index d 1)) = Done 7.
Proof. vm_compute. reflexivity. Qed.
End scenario.
