(* ===== verification/SingleMemNode.v ===== *)
(** * The example of one node (src/examples/single_mem_node/main.rs)

    A host of a cluster of one: clients propose with a callback, which is called
    when the proposal is committed.  The thread, the channel and the clock give
    the inputs of the loop, one per round; callbacks are named by the id they
    are registered under, and the calls made are recorded. *)
From S2P Require Import Prelude Errors Eraftpb ProtoConf Util Unstable Storage RaftLog RaftLogSpec Quorum.
From S2P Require Import Inflights Progress Tracker ConfChange ReadOnly Config Raft RawNode RaftFrame RaftElection.
From S2P Require Import RaftReplication RaftLogSteps RawNodeSpec RawNodeReady MemPersist WitnessDemo.

Module SingleNode.
#[local] Abbreviation raw_node := (RawNode.t MemStorage.t).

Inductive Msg : Type :=
| Propose (id : N)
| RaftMsg (m : Message).

(** The locals of [main], and the calls. *)
Record t : Type := mk {
  raft_group : raw_node;
  cbs : gset N;
  called : list N
}.

(** [handle_committed_entries]. *)
Fixpoint handle_committed_entries (cbs : gset N) (called : list N) (committed_entries : list Entry) : gset N * list N :=
  match committed_entries with
  | [] => (cbs, called)
  | entry :: es =>
    match e_data entry with
    | [] => handle_committed_entries cbs called es
    | id :: _ =>
      if bool_decide (e_entry_type entry = EntryNormal) && bool_decide (id ∈ cbs)
      then handle_committed_entries (cbs ∖ {[id]}) (called ++ [id]) es
      else handle_committed_entries cbs called es
    end
  end.

Section ops.
Context `{Proto} `{HashOrder} `{Rand}.

Definition config : Config.t :=
  Config.default <| Config.id := 1 |> <| Config.election_tick := 10 |> <| Config.heartbeat_tick := 3 |>
    <| Config.max_size_per_msg := 1024 * 1024 * 1024 |> <| Config.max_inflight_msgs := 256 |> <| Config.applied := 0 |>.

Definition start : outcome t :=
  storage ← MemStorage.new_with_conf_state (default_ConfState <| cs_voters := [1] |>);
  r ← RawNode.new config storage;
  r ← unwrap_res r;
  mret (mk r ∅ []).

Definition on_ready (d : t) : outcome t :=
  has_ready ← RawNode.has_ready (raft_group d);
  if negb has_ready then mret d
  else
    '(n, ready) ← RawNode.ready (raft_group d);
    let store := RawNode.store n in
    let ready := if negb (bool_decide (rd_messages ready = [])) then (take_messages ready).1 else ready in
    store ← (if negb (snapshot_is_empty (rd_snapshot ready)) then
               let '(s, x) := MemStorage.apply_snapshot store (rd_snapshot ready) in
               _ ← unwrap_res x; mret s
             else mret store);
    let '(ready, committed) := take_committed_entries ready in
    let '(cbs, called) := handle_committed_entries (cbs d) (called d) committed in
    store ← (if negb (bool_decide (rd_entries ready = [])) then MemStorage.append store (rd_entries ready) else mret store);
    let store := match rd_hs ready with Some hs => MemStorage.set_hardstate store hs | None => store end in
    let n := RawNode.mut_store n store in
    let ready := if negb (bool_decide (rd_persisted_messages ready = [])) then (take_persisted_messages ready).1 else ready in
    '(n, light_rd) ← RawNode.advance n ready;
    let n := match lr_commit_index light_rd with
             | Some commit => RawNode.mut_store n (Demo.set_commit (RawNode.store n) commit)
             | None => n
             end in
    let '(cbs, called) := handle_committed_entries cbs called (lr_committed_entries light_rd) in
    n ← RawNode.advance_apply n;
    mret (mk n cbs called).

(** A round of the loop: what is received, if anything, and whether it is time
    to tick. *)
Definition turn (d : t) (received : option Msg) (tick : bool) : outcome t :=
  d ← match received with
      | Some (Propose id) =>
        '(r, x) ← RawNode.propose (raft_group d) [] [id];
        _ ← unwrap_res x;
        mret (mk r ({[id]} ∪ cbs d) (called d))
      | Some (RaftMsg m) =>
        '(r, x) ← RawNode.step (raft_group d) m;
        _ ← unwrap_res x;
        mret (mk r (cbs d) (called d))
      | None => mret d
      end;
  d ← (if tick then '(r, _) ← RawNode.tick (raft_group d); mret (mk r (cbs d) (called d)) else mret d);
  on_ready d.

Fixpoint turns (d : t) (inputs : list (option Msg * bool)) : outcome t :=
  match inputs with
  | [] => mret d
  | (received, tick) :: inputs => d ← turn d received tick; turns d inputs
  end.
End ops.
End SingleNode.

Import SingleNode.

Lemma handle_committed_app es es' cbs called : handle_committed_entries cbs called (es ++ es') =
  handle_committed_entries (handle_committed_entries cbs called es).1 (handle_committed_entries cbs called es).2 es'.
Proof.
  revert cbs called. induction es as [|e es IH]; intros cbs called; simpl; [done|]. destruct (e_data e); [apply IH|].
  by destruct (_ && _).
Qed.

(** The callbacks called are registered ones of the entries, each once. *)
Lemma handle_committed_calls es cbs called : ∃ ids, (handle_committed_entries cbs called es).2 = called ++ ids ∧
  NoDup ids ∧ (handle_committed_entries cbs called es).1 = cbs ∖ list_to_set ids ∧
  ∀ id, id ∈ ids ↔ id ∈ cbs ∧ ∃ e, e ∈ es ∧ e_entry_type e = EntryNormal ∧ head (e_data e) = Some id.
Proof.
  revert cbs called. induction es as [|e es IH]; intros cbs called; simpl.
  - exists []. rewrite app_nil_r. split_and!; [done|apply NoDup_nil_2|set_solver|]. intros id. split; [by intros ?%elem_of_nil|].
    intros (_ & e & He & _). by apply elem_of_nil in He.
  - assert (∀ ids : list N, (∀ id, id ∈ ids ↔ id ∈ cbs ∧ ∃ e', e' ∈ es ∧ e_entry_type e' = EntryNormal ∧ head (e_data e') = Some id) →
      (∀ id, id ∈ cbs → e_entry_type e = EntryNormal → head (e_data e) ≠ Some id) →
      ∀ id, id ∈ ids ↔ id ∈ cbs ∧ ∃ e', e' ∈ e :: es ∧ e_entry_type e' = EntryNormal ∧ head (e_data e') = Some id) as Hskip.
    { intros ids Hids Hno id. rewrite Hids. split; intros [Hc (e' & He & Ht & Hd)]; (split; [done|]); exists e'.
      - split_and!; [by right|done|done].
      - apply elem_of_cons in He as [->|He]; [|done]. by destruct (Hno id Hc Ht). }
    destruct (e_data e) as [|id0 data] eqn:Ed.
    + destruct (IH cbs called) as (ids & E1 & Hn & E2 & Hids). exists ids. split_and!; try done. by apply Hskip.
    + case_bool_decide as Ht; simpl; [case_bool_decide as Hc; simpl|].
      * destruct (IH (cbs ∖ {[id0]}) (called ++ [id0])) as (ids & E1 & Hn & E2 & Hids). exists (id0 :: ids).
        rewrite E1, <-app_assoc. split_and!; [done| |rewrite E2; set_solver|].
        -- constructor; [|done]. rewrite Hids. set_solver.
        -- intros id. rewrite elem_of_cons, Hids. split.
           ++ intros [->|[Hi (e' & He & Hr)]]; [split; [done|]; exists e; rewrite Ed; split_and!; [left|done|done]|].
              split; [set_solver|]. exists e'. split; [by right|done].
           ++ intros [Hi (e' & He & Ht' & Hd)]. destruct (decide (id = id0)) as [|Hne]; [by left|right].
              split; [set_solver|]. exists e'. split_and!; try done. apply elem_of_cons in He as [->|He]; [|done].
              rewrite Ed in Hd. simpl in Hd. congruence.
      * destruct (IH cbs called) as (ids & E1 & Hn & E2 & Hids). exists ids. split_and!; try done. apply Hskip; [done|].
        intros id Hi _ [= ->]. done.
      * destruct (IH cbs called) as (ids & E1 & Hn & E2 & Hids). exists ids. split_and!; try done. by apply Hskip.
Qed.

Section rounds.
Context `{Proto} `{HashOrder} `{Rand}.
#[local] Set Default Proof Using "All".

Lemma advance_taken (n : RawNode.t MemStorage.t) rd rd' : rd_ss rd' = rd_ss rd ∧ rd_hs rd' = rd_hs rd ∧ rd_number rd' = rd_number rd →
  RawNode.advance n rd' = RawNode.advance n rd.
Proof. intros (E1 & E2 & E3). unfold RawNode.advance. by rewrite (advance_append_taken _ rd rd' E1 E2 E3). Qed.

(** The node goes through the round of [Demo.handle_ready], and the callbacks
    are those of the entries it hands out. *)
Lemma on_ready_round d d' : on_ready d = Done d' → RawNode.has_ready (raft_group d) = Done true →
  ∃ n es ms ws, Demo.handle_ready (raft_group d) = Done (n, es, ms, ws) ∧
    let '(cbs', called') := handle_committed_entries (cbs d) (called d) es in d' = mk n cbs' called'.
Proof.
  unfold on_ready, Demo.handle_ready, Demo.write_ready. intros Hs Hh. rewrite Hh in Hs. simpl in Hs.
  apply outcome_bind_Done in Hs as ([n rd] & Hr & Hs). rewrite Hr. cbn [mbind outcome_bind].
  set (rd1 := if negb (bool_decide (rd_messages rd = [])) then (take_messages rd).1 else rd) in Hs.
  assert (rd_snapshot rd1 = rd_snapshot rd ∧ rd_entries rd1 = rd_entries rd ∧ rd_hs rd1 = rd_hs rd ∧ rd_ss rd1 = rd_ss rd ∧
    rd_number rd1 = rd_number rd ∧ rd_committed_entries rd1 = rd_committed_entries rd) as (E1 & E2 & E3 & E4 & E5 & E6).
  { subst rd1. destruct (negb (bool_decide _)); [|done]. unfold take_messages. by destruct (negb (rd_is_persisted_msg rd)). }
  clearbody rd1. rewrite E1 in Hs. apply outcome_bind_Done in Hs as (s1 & Hs1 & Hs). rewrite Hs1. cbn [mbind outcome_bind].
  rewrite E2, E3, E6 in Hs.
  destruct (handle_committed_entries (cbs d) (called d) (rd_committed_entries rd)) as [c1 l1] eqn:Ec.
  apply outcome_bind_Done in Hs as (s2 & Hs2 & Hs). rewrite Hs2. cbn [mbind outcome_bind mret outcome_ret].
  apply outcome_bind_Done in Hs as ([n1 lr] & Ha & Hs).
  rewrite (advance_taken _ rd) in Ha by (unfold take_persisted_messages; repeat case_match; simpl; done).
  destruct (takes_leave rd) as (T1 & T2 & T3 & T4).
  destruct (take_messages rd) as [rd2 ms2]. destruct (take_persisted_messages rd2) as [rd3 ms3] eqn:E7. simpl in T1, T2, T3, T4 |- *.
  rewrite E7 in *. simpl in T1, T2, T3, T4 |- *. rewrite (advance_taken _ rd), Ha by done. simpl.
  destruct (handle_committed_entries c1 l1 (lr_committed_entries lr)) as [c2 l2] eqn:El.
  apply outcome_bind_Done in Hs as (n2 & Hap & Hs). injection Hs as <-. rewrite Hap. simpl. do 4 eexists. split; [reflexivity|].
  change (rd_committed_entries (rd3 <| rd_witness_messages := [] |>)) with (rd_committed_entries rd3).
  rewrite handle_committed_app, T4, Ec. simpl. by rewrite El.
Qed.
End rounds.

(** A client is told once its proposal is committed, and only then: a round
    calls, each once, exactly the registered callbacks of the entries it hands
    out, which come in order, without gap or repetition, and are committed
    entries of the log; and the node is fit for the next round. *)
Theorem callbacks_after_commit `{Proto} `{HashOrder} `{Rand} (d d' : SingleNode.t) (Hn : rn_ok (raft_group d))
    (Hsnap : ∀ s, RawNode.snap (raft_group d) = Some s → sm_index (s_metadata s) ≠ 0)
    (Hroom : room 2 (RawNode.raft (raft_group d))) (Hround : on_ready d = Done d') :
  d' = d ∨
  ∃ es ids, deliver (RawNode.commit_since_index (raft_group d)) (installs (raft_group d) ++ (Apply <$> es))
      = Some (RawNode.commit_since_index (raft_group d')) ∧
    Forall (in_log (raft_group d')) es ∧
    called d' = called d ++ ids ∧ NoDup ids ∧ cbs d' = cbs d ∖ list_to_set ids ∧
    (∀ id, id ∈ ids ↔ id ∈ cbs d ∧ ∃ e, e ∈ es ∧ e_entry_type e = EntryNormal ∧ head (e_data e) = Some id) ∧
    rn_ok (raft_group d').
Proof.
  pose proof Hround as Hr. unfold on_ready in Hr. apply outcome_bind_Done in Hr as ([] & Hh & Hr); simpl in Hr;
    [right; clear Hr|left; by injection Hr as <-].
  destruct (on_ready_round _ _ Hround Hh) as (n & es & ms & ws & Hd & E).
  destruct (handle_ready_run _ _ _ _ _ Hd Hn Hsnap Hroom) as [Hrun _]. apply rn_run_progress in Hrun as [O _ _ D I]; [|done].
  destruct (handle_committed_calls es (cbs d) (called d)) as (ids & E1 & Hnd & E2 & Hids).
  destruct (handle_committed_entries _ _ _) as [c l]. simpl in E1, E2. subst d' c l. exists es, ids. split_and!; try done.
  apply Forall_forall. intros e He. apply I, elem_of_app. right. by apply list_elem_of_fmap_2.
Qed.

(** ** Samples *)
Section samples.
#[local] Existing Instances w_rand w_proto elements_order.

(** The node elects itself after its timeout; a proposal is then answered, in
    the round in which it is made, and its callback is forgotten. *)
Example single_node_run :
  (d ← start; d ← turns d (replicate 10 (None, true)); d ← turns d [(Some (Propose 1), false); (None, true)];
   mret (called d, bool_decide (cbs d = ∅), RawNode.commit_since_index (raft_group d))) = Done ([1], true, 2).
Proof. vm_compute. reflexivity. Qed.

(** The hypotheses can be met. *)
Definition w_single : SingleNode.t := mk w_elected_node {[1]} [].

Lemma callbacks_after_commit_sample : ∃ d', on_ready w_single = Done d' ∧ NoDup (called d').
Proof.
  destruct (on_ready w_single) as [d'|] eqn:Hd; [|revert Hd; by vm_compute]. exists d'. split; [done|].
  destruct (@callbacks_after_commit w_proto elements_order w_rand w_single d') as [->|(es & ids & _ & _ & -> & Hn & _)].
  - exact w_elected_ok.
  - by vm_compute.
  - pose proof w_elected_room. change (raft_group w_single) with w_elected_node. lia.
  - exact Hd.
  - apply NoDup_nil_2.
  - exact Hn.
Qed.
End samples.
