(* ===== verification/RaftTermination.v ===== *)
(** * The sending loop ends

    [send_append_aggressively] sends appends until there is nothing left to
    send or the peer is paused.  The loop is run with a bound on its rounds;
    this file shows that the bound is never reached: the loop of the code, as a
    relation without any bound, ends, and in the bounded loop's result. *)
From S2P Require Import Prelude Errors Eraftpb ProtoConf Util Unstable Storage RaftLog RaftLogSpec Quorum.
From S2P Require Import Inflights Progress Tracker ConfChange ReadOnly Config Raft RaftFrame RaftElection.
From S2P Require Import RaftReplication.

Section sending.
Context {S : Type} `{StorageLaws S} `{HashOrder} `{Rand}.
#[local] Set Default Proof Using "All".
Implicit Types (r : Raft.t S) (pr : Progress.t).

(** [while self.maybe_send_append(to, pr, false, msgs) {}] and how it ends. *)
Inductive sends_until r (to : N) pr : outcome (Raft.t S * Progress.t) → Prop :=
| su_panic : Raft.maybe_send_append r to pr false = Panicked → sends_until r to pr Panicked
| su_stop r' pr' : Raft.maybe_send_append r to pr false = Done (r', pr', false) → sends_until r to pr (Done (r', pr'))
| su_again r' pr' out :
    Raft.maybe_send_append r to pr false = Done (r', pr', true) → sends_until r' to pr' out → sends_until r to pr out.

Lemma update_state_next pr i pr' : Progress.update_state pr i = Done pr' → i + 1 < u64_modulus →
  Progress.is_paused pr' = true ∨ Progress.next_idx pr' = i + 1.
Proof.
  unfold Progress.update_state, Progress.is_paused. intros Hs Hb. destruct (Progress.state pr) eqn:E; [left| |done].
  - injection Hs as <-. unfold Progress.pause. simpl. by rewrite E.
  - right. inv_done Hs. simpl. by rewrite u64_add_small.
Qed.

(** The last entry to send. *)
Lemma entries_last l i max ctx l' es e : RaftLog.entries l i max ctx = Done (l', Ok es) → log_wf l →
  last es = Some e → i ≤ e_index e ≤ vlast (log_view l).
Proof.
  intros Hs Hwf He. destruct (entries_view _ _ _ _ _ _ Hs Hwf) as [_ Hk]. rewrite last_lookup in He.
  specialize (Hk _ _ He). pose proof (mk_is_Some _ _ Hk) as Hin%vlookup_is_Some.
  rewrite (vlookup_index _ _ _ (log_view_wf _ Hwf) Hk). lia.
Qed.

Lemma batch_into_state c to ms pr ents ms' pr' e : Raft.batch_into c to ms pr ents = Done (Some (ms', pr')) →
  last ents = Some e → Progress.update_state pr (e_index e) = Done pr'.
Proof.
  revert ms'. induction ms as [|m ms IH]; intros ms' Hs He; cbn [Raft.batch_into] in Hs; [done|].
  destruct (_ && _).
  - case_bool_decide as E; [by rewrite E in He|]. destruct (negb _); [by inv_done Hs|].
    apply outcome_bind_Done in Hs as (lst & Hl & Hs). apply outcome_bind_Done in Hs as (p & Hp & Hs). inv_done Hs.
    simpl in Hl. rewrite last_app, He in Hl. by injection Hl as <-.
  - apply outcome_bind_Done in Hs as ([[ms1 pr1]|] & Hb & Hs); [|done]. injection Hs as _ <-. by eapply IH.
Qed.

(** A round that sends pauses the peer or moves on in the log. *)
Lemma maybe_send_append_next r to pr r' pr' : Raft.maybe_send_append r to pr false = Done (r', pr', true) →
  log_wf (Raft.raft_log r) →
  Progress.is_paused pr' = true ∨
  Progress.next_idx pr < Progress.next_idx pr' ≤ vlast (log_view (Raft.raft_log r)) + 1.
Proof.
  unfold Raft.maybe_send_append. intros Hs Hwf. pose proof (log_view_wf _ Hwf) as [_ Hb].
  destruct (_ || _); [by inv_done Hs|].
  assert (∀ r0 r1 m1 pr1 b, Raft.prepare_send_snapshot r0 (default_Message <| m_to := to |>) pr to = Done (r1, m1, pr1, b) →
    negb b = false → Progress.is_paused pr1 = true) as Hsnap.
  { intros r0 r1 m1 pr1 b Hp Hnb. unfold Raft.prepare_send_snapshot in Hp. inv_done Hp; done. }
  assert (∀ pr1 ctx l es e, RaftLog.entries (Raft.raft_log r) (Progress.next_idx pr) (Some (Raft.max_msg_size r)) ctx = Done (l, Ok es) →
    last es = Some e → Progress.update_state pr (e_index e) = Done pr1 → Progress.is_paused pr1 = true ∨
    Progress.next_idx pr < Progress.next_idx pr1 ≤ vlast (log_view (Raft.raft_log r)) + 1) as Hup.
  { intros pr1 ctx l es e Hes He Hu. pose proof (entries_last _ _ _ _ _ _ _ Hes Hwf He) as Hi.
    destruct (update_state_next _ _ _ Hu) as [|E]; [lia|by left|right]. lia. }
  destruct (negb (_ =? _)); [inv_done Hs; [done|left; by eapply Hsnap]|].
  apply outcome_bind_Done in Hs as ([l [es|e]] & Hes & Hs); simpl in Hs.
  2: { inv_done Hs; try done; (left; by eapply Hsnap). }
  case_bool_decide as Ene; [by inv_done Hs|]. apply outcome_bind_Done in Hs as ([tm|e] & _ & Hs).
  2: { inv_done Hs; try done; (left; by eapply Hsnap). }
  destruct (last es) as [e|] eqn:El; [|by apply last_None in El].
  apply outcome_bind_Done in Hs as ([[r2 pr2] bt] & Hbt & Hs). destruct bt.
  - inv_done Hs. destruct (Raft.batch_append r); [|by inv_done Hbt]. unfold Raft.try_batching in Hbt.
    apply outcome_bind_Done in Hbt as ([[ms pr3]|] & Hbi & Hbt); [|done]. inv_done Hbt.
    eapply Hup; [exact Hes|exact El|]. by eapply batch_into_state.
  - assert (pr2 = pr) as -> by (destruct (Raft.batch_append r); [by apply try_batching_not in Hbt as [_ ?]|by inv_done Hbt]).
    unfold Raft.prepare_send_entries in Hs. simpl in Hs. rewrite El in Hs. inv_done Hs. by eapply Hup.
Qed.

Lemma send_append_loop_ends fuel r to pr : log_wf (Raft.raft_log r) →
  (Progress.is_paused pr = true ∧ fuel ≠ O ∨
   (N.to_nat (vlast (log_view (Raft.raft_log r)) + 1 - Progress.next_idx pr) + 2 ≤ fuel)%nat) →
  sends_until r to pr (Raft.send_append_loop fuel r to pr).
Proof.
  revert r pr. induction fuel as [|fuel IH]; intros r pr Hwf Hf; [lia|]. cbn [Raft.send_append_loop].
  destruct (Raft.maybe_send_append r to pr false) as [[[r1 pr1] b]|] eqn:E; [|by apply su_panic].
  cbn [mbind outcome_bind]. destruct b; [|by apply su_stop]. apply (su_again _ _ _ r1 pr1); [done|].
  pose proof (maybe_send_append_quiet _ _ _ _ _ _ _ E) as Hq.
  destruct (log_read_view _ _ (q_log _ _ Hq) Hwf) as [Hwf1 Hv1].
  destruct Hf as [[Hp _]|Hf]; [unfold Raft.maybe_send_append in E; by rewrite Hp in E|].
  apply IH; [done|]. rewrite Hv1. destruct (maybe_send_append_next _ _ _ _ _ E Hwf) as [|Hn]; [left; split; [done|lia]|right; lia].
Qed.
End sending.

(** ** Properties *)

(** C39: The loop that sends appends to a peer as long as there are any ends, for
    every storage that keeps the laws of the trait and every state of the peer:
    run without a bound it comes to an end (or to a panic of one of its rounds),
    with the very result of the bounded loop. *)
Theorem send_append_aggressively_terminates {S} `{StorageLaws S} `{HashOrder} `{Rand} (r : Raft.t S) (to : N)
    (pr : Progress.t) (Hwf : log_wf (Raft.raft_log r)) :
  sends_until r to pr (Raft.core_send_append_aggressively r to pr).
Proof.
  unfold Raft.core_send_append_aggressively. rewrite last_index_view by done. cbn [mbind outcome_bind].
  apply send_append_loop_ends; [done|right]. done.
Qed.

(** ** Witnesses of the hypotheses *)

(** The leader of the samples sends to its peer until the peer is paused. *)
Section samples.
#[local] Existing Instances w_rand w_proto elements_order.

Definition w_peer : Progress.t := default (Progress.new 1 1) (Tracker.get (Raft.prs w_leader) 2).
Definition w_sent_to_peer : Raft.t MemStorage.t * Progress.t :=
  match Raft.core_send_append_aggressively w_leader 2 w_peer with Done p => p | Panicked => (w_leader, w_peer) end.

Lemma w_sends : Raft.core_send_append_aggressively w_leader 2 w_peer = Done w_sent_to_peer.
Proof. vm_compute. reflexivity. Qed.

Lemma send_append_aggressively_terminates_witness :
  @sends_until _ (@MemStorage.storage w_proto) w_proto w_leader 2 w_peer (Done w_sent_to_peer) ∧
  Progress.is_paused w_sent_to_peer.2 = true.
Proof.
  split; [|vm_compute; reflexivity]. rewrite <-w_sends.
  exact (@send_append_aggressively_terminates _ (@MemStorage.storage w_proto) w_proto (@mem_storage_laws w_proto)
    elements_order w_rand w_leader 2 w_peer (proj1 w_leader_ok)).
Defined.
End samples.
