(* ===== verification/RaftFindings.v ===== *)
(** * Where the code departs from its comments

    Runs of the code that differ from what its comments say or from what they
    rely on, evaluated on the smallest clusters that show them; and, in general,
    how batching makes a follower acknowledge entries it does not have. *)
From S2P Require Import Prelude Errors Eraftpb ProtoConf Util Unstable Storage RaftLog RaftLogSpec Quorum Inflights Progress.
From S2P Require Import Tracker ConfChange ReadOnly Config Witness Raft RaftFrame RaftElection.

(** ** Batching into an empty append *)

(** A queued append to [to] without entries. *)
Definition empty_append (to : N) (m : Message) : Prop :=
  m_msg_type m = MsgAppend ∧ m_to m = to ∧ m_entries m = [].

(** [m] as [try_batching] leaves it. *)
Definition batched (committed : N) (m : Message) (ents : list Entry) : Message :=
  m <| m_entries := ents |> <| m_commit := committed |>.

(** The first append to a peer in the queue takes the entries when it has none,
    wherever they start. *)
Lemma batch_into_empty committed to ms1 m ms2 pr ents lst pr' :
  Forall (λ x, ¬ (m_msg_type x = MsgAppend ∧ m_to x = to)) ms1 → empty_append to m → last ents = Some lst →
  Progress.update_state pr (e_index lst) = Done pr' →
  Raft.batch_into committed to (ms1 ++ m :: ms2) pr ents = Done (Some (ms1 ++ batched committed m ents :: ms2, pr')).
Proof.
  intros Hms (Hty & Hto & He) Hl Hu. induction Hms as [|x ms1 Hx _ IH]; cbn [Raft.batch_into app].
  - unfold is_type, is_continuous_ents. rewrite Hty, Hto, N.eqb_refl. rewrite bool_decide_eq_true_2 by done. simpl.
    rewrite bool_decide_eq_false_2 by (by destruct ents). rewrite He. simpl. rewrite Hl. simpl. rewrite Hu. unfold batched, upd. simpl. by rewrite He.
  - unfold is_type in *. destruct (bool_decide (m_msg_type x = MsgAppend) && (m_to x =? to)) eqn:E; [|by rewrite IH].
    apply andb_prop in E as [E1 E2]. apply bool_decide_eq_true in E1. apply N.eqb_eq in E2. by destruct Hx.
Qed.

Section batching.
Context {S : Type} `{StorageLaws S}.
#[local] Set Default Proof Using "All".
Implicit Types (r : Raft.t S) (l : RaftLog.t S).

(** Every entry of the batch is in the log already. *)
Definition has_all l (ents : list Entry) : Prop := Forall (λ e, vterm (log_view l) (e_index e) = Ok (e_term e)) ents.

Lemma find_conflict_none l ents : log_wf l → has_all l ents → RaftLog.find_conflict l ents = Done 0.
Proof.
  intros Hl Ha. induction Ha as [|e ents He _ IH]; [done|]. cbn [RaftLog.find_conflict].
  rewrite match_term_view by done. cbn [mbind outcome_bind]. by rewrite bool_decide_eq_true_2.
Qed.

(** What it is sent moves the commit index only; its answer counts the entries
    from the index of the message. *)
Lemma has_all_acknowledged r m : log_wf (Raft.raft_log r) → Raft.pending_request_snapshot r = INVALID_INDEX →
  RaftLog.committed (Raft.raft_log r) ≤ m_index m → vterm (log_view (Raft.raft_log r)) (m_index m) = Ok (m_log_term m) →
  has_all (Raft.raft_log r) (m_entries m) → N.min (m_commit m) (m_index m +w len (m_entries m)) ≤ vlast (log_view (Raft.raft_log r)) →
  ∃ r' a, Raft.handle_append_entries r m = Done r' ∧ Raft.msgs r' = Raft.msgs r ++ [a] ∧
    log_view (Raft.raft_log r') = log_view (Raft.raft_log r) ∧
    m_msg_type a = MsgAppendResponse ∧ m_to a = m_from m ∧ m_reject a = false ∧ m_index a = m_index m +w len (m_entries m).
Proof.
  intros Hl Hp Hc Ht Ha Hv. unfold Raft.handle_append_entries, RaftLog.maybe_append.
  rewrite Hp, (proj2 (N.ltb_ge _ _)), match_term_view, bool_decide_eq_true_2 by done. simpl.
  rewrite find_conflict_none by done. simpl. rewrite commit_to_view by done. simpl. by do 2 eexists.
Qed.
End batching.

Section findings.
#[local] Existing Instances w_rand w_proto elements_order.

(** The node [i] of a cluster with voters [vs], of which [w] is a witness. *)
Definition f_node (i : N) (vs : list N) (w : N) : Raft.t MemStorage.t :=
  match Raft.new (Config.new i) (MemStorage.set_conf_state MemStorage.new
          (default_ConfState <| cs_voters := vs |> <| cs_witness := w |>)) with
  | Done (Ok r) => r
  | _ => w_node i
  end.

Definition f_grant (from to : N) (tm : N) : Message :=
  default_Message <| m_msg_type := MsgRequestVoteResponse |> <| m_from := from |> <| m_to := to |> <| m_term := tm |>.

(** ** Asking a witness for its vote

    Node 1 of the voters 1, 2, 3 and the witness 4 campaigns and gets the vote of
    node 2: one vote short, it asks the witness. *)
Definition f_candidate : Raft.t MemStorage.t := w_step (w_step (f_node 1 [1; 2; 3; 4] 4) (w_hup 1)) (f_grant 2 1 1).
Definition f_ask : WitnessMessage := default default_WitnessMessage (head (Raft.witness_msgs f_candidate)).

Lemma candidate_asks_witness_in_vain :
  Raft.state f_candidate = Candidate ∧ Raft.witness_msgs f_candidate = [f_ask] ∧
  wm_msg_type f_ask = MsgRequestVoteResponse ∧
  Witness.process (Witness.new 4) f_ask = (Witness.new 4, None) ∧
  snd (Witness.process (Witness.new 4) (f_ask <| wm_msg_type := MsgRequestVote |>)) = Some (VoteGrant true).
Proof. split_and!; vm_compute; reflexivity. Qed.

(** ** The first subterm

    Node 1 leads the voter 1 and the witness 4 and writes its first entry. *)
Definition f_leader : Raft.t MemStorage.t := w_step (w_step (f_node 1 [1; 4] 4) (w_hup 1)) (f_grant 4 1 1).
Definition f_write (r : Raft.t MemStorage.t) (index tm : N) : outcome (Raft.t MemStorage.t) :=
  let l := Raft.raft_log r in
  st ← MemStorage.append (RaftLog.store l) (RaftLog.unstable_entries l);
  l ← RaftLog.stable_entries (l <| RaftLog.store := st |>) index tm;
  Raft.on_persist_entries (r <| Raft.raft_log := l |> <| Raft.witness_msgs := [] |>) index tm.
Definition f_written : Raft.t MemStorage.t := match f_write f_leader 1 1 with Done r => r | Panicked => f_leader end.

Lemma first_subterm_skips_witness :
  Raft.state f_leader = Leader ∧ f_write f_leader 1 1 = Done f_written ∧
  RaftLog.committed (Raft.raft_log f_leader) = 0 ∧ RaftLog.committed (Raft.raft_log f_written) = 1 ∧
  Raft.witness_msgs f_leader = [default default_WitnessMessage (head (Raft.witness_msgs f_leader))] ∧
  wm_msg_type (default default_WitnessMessage (head (Raft.witness_msgs f_leader))) = MsgRequestVote ∧
  Raft.witness_msgs f_written = [].
Proof. split_and!; vm_compute; reflexivity. Qed.

(** ** Batched appends

    Node 1 leads the voters 1, 2 and 3 and batches appends. *)
Definition f_take (r : Raft.t MemStorage.t) : Raft.t MemStorage.t := r <| Raft.msgs := [] |>.
Definition f_run (r : Raft.t MemStorage.t) (ms : list Message) : Raft.t MemStorage.t :=
  foldl (λ r m, w_step (f_take r) m) r ms.
Definition f_to (i : N) (r : Raft.t MemStorage.t) : Message :=
  default default_Message (head (filter (λ m, m_to m = i ∧ m_msg_type m = MsgAppend) (Raft.msgs r))).
Definition f_reply (r : Raft.t MemStorage.t) : Message := default default_Message (last (Raft.msgs r)).
Definition f_persist (r : Raft.t MemStorage.t) (index : N) : Raft.t MemStorage.t :=
  match f_write r index 1 with Done r => r | Panicked => r end.
Definition f_propose (d : N) : Message :=
  default_Message <| m_msg_type := MsgPropose |> <| m_from := 1 |> <| m_entries := [default_Entry <| e_data := [d] |>] |>.

(** It leads, and both followers take its first entry. *)
Definition b0 : Raft.t MemStorage.t := f_persist (w_leader <| Raft.batch_append := true |>) 1.
Definition b0_2 : Raft.t MemStorage.t := w_step (f_take w_voter) (f_to 2 b0).
Definition b0_3 : Raft.t MemStorage.t := w_step (w_node 3) (f_to 3 b0).
Definition b1 : Raft.t MemStorage.t := f_run b0 [f_reply b0_2; f_reply b0_3].

(** It proposes two entries, one message each; node 2 gets the second message
    first and refuses it, then gets both; node 3 gets both. *)
Definition b2 : Raft.t MemStorage.t := w_step (f_take b1) (f_propose 2).
Definition b3 : Raft.t MemStorage.t := f_persist (w_step (f_take b2) (f_propose 3)) 3.
Definition b3_refuse : Raft.t MemStorage.t := w_step (f_take b0_2) (f_to 2 b3).
Definition b3_2 : Raft.t MemStorage.t := f_run b3_refuse [f_to 2 b2; f_to 2 b3].
Definition b3_3 : Raft.t MemStorage.t := f_run b0_3 [f_to 3 b2; f_to 3 b3].

(** Node 3's answer commits both entries, which leaves an empty append to node 2
    in the queue; node 2's refusal then adds entry 2 to it, after index 3. *)
Definition b4 : Raft.t MemStorage.t := w_step (f_take b3) (f_reply b3_3).
Definition b5 : Raft.t MemStorage.t := w_step b4 (f_reply b3_refuse).
Definition b5_2 : Raft.t MemStorage.t := w_step (f_take b3_2) (f_to 2 b5).

(** Node 2's answer says that it has entry 4; the leader writes entry 4. *)
Definition b6 : Raft.t MemStorage.t := w_step (f_take b5) (f_reply b5_2).
Definition b7 : Raft.t MemStorage.t := f_persist (w_step (f_take b6) (f_propose 4)) 4.

(** The append that does not follow on. *)
Lemma batched_append_gap :
  m_index (f_to 2 b4) = 3 ∧ m_entries (f_to 2 b4) = [] ∧
  m_index (f_to 2 b5) = 3 ∧ map e_index (m_entries (f_to 2 b5)) = [2].
Proof. split_and!; vm_compute; reflexivity. Qed.

(** With batched appends a leader can commit what it alone has.  In this run
    of three nodes, in which one message is repeated and overtakes another, the
    leader commits entry 4 although the logs of both followers end at 3. *)
Lemma batched_append_commits_unreplicated :
  Raft.state b7 = Leader ∧ RaftLog.committed (Raft.raft_log b7) = 4 ∧
  RaftLog.last_index (Raft.raft_log b5_2) = Done 3 ∧ RaftLog.last_index (Raft.raft_log b3_3) = Done 3 ∧
  m_reject (f_reply b5_2) = false ∧ m_index (f_reply b5_2) = 4.
Proof. split_and!; vm_compute; reflexivity. Qed.
End findings.

(** ** Properties *)

(** C40: With batched appends a follower acknowledges what it does not have.  When
    the first append to a peer in the queue has no entries, [try_batching] adds
    to it whatever entries it is given, at whatever index they start, and keeps
    the index of the message.  A follower that has the entry of that index, at
    which its log ends, and all the entries of the batch, leaves its log as it is
    and answers that it has as many entries more as the batch has: entries
    beyond its log. *)
Theorem batched_append_overacknowledged {S} `{StorageLaws S} (r f : Raft.t S) to ms1 m ms2 pr ents lst pr'
    (Hms : Raft.msgs r = ms1 ++ m :: ms2)
    (Hfirst : Forall (λ x, ¬ (m_msg_type x = MsgAppend ∧ m_to x = to)) ms1) (Hm : empty_append to m)
    (Hlst : last ents = Some lst) (Hpr : Progress.update_state pr (e_index lst) = Done pr')
    (Hf : log_wf (Raft.raft_log f)) (Hp : Raft.pending_request_snapshot f = INVALID_INDEX)
    (Hc : RaftLog.committed (Raft.raft_log f) ≤ m_index m) (Hend : m_index m = vlast (log_view (Raft.raft_log f)))
    (Ht : vterm (log_view (Raft.raft_log f)) (m_index m) = Ok (m_log_term m)) (Hall : has_all (Raft.raft_log f) ents)
    (Hcm : RaftLog.committed (Raft.raft_log r) ≤ m_index m) (Hb : m_index m + len ents < u64_modulus) :
  let m' := batched (RaftLog.committed (Raft.raft_log r)) m ents in
  Raft.try_batching r to pr ents = Done (r <| Raft.msgs := ms1 ++ m' :: ms2 |>, pr', true) ∧
  ∃ f' a, Raft.handle_append_entries f m' = Done f' ∧ Raft.msgs f' = Raft.msgs f ++ [a] ∧
    log_view (Raft.raft_log f') = log_view (Raft.raft_log f) ∧
    m_msg_type a = MsgAppendResponse ∧ m_to a = m_from m ∧ m_reject a = false ∧
    m_index a = vlast (log_view (Raft.raft_log f)) + len ents ∧ vlast (log_view (Raft.raft_log f)) < m_index a.
Proof.
  intros m'. split.
  - unfold Raft.try_batching. by rewrite Hms, (batch_into_empty _ _ _ _ _ _ _ _ _ Hfirst Hm Hlst Hpr).
  - destruct (has_all_acknowledged f m' Hf Hp Hc Ht Hall) as (f' & a & E & Em & Ev & A1 & A2 & A3 & A4); [simpl; lia|].
    exists f', a. split_and!; [done..| |]; rewrite A4; simpl; rewrite u64_add_small by lia; [by rewrite Hend|].
    rewrite Hend. destruct ents; [done|]. rewrite len_cons. lia.
Qed.

(** ** Witnesses of the hypotheses *)

(** The leader of the run has the empty append to node 2 first in its queue. *)
Definition w_gap_leader : Raft.t MemStorage.t := Eval vm_compute in b4.
Definition w_gap_follower : Raft.t MemStorage.t := Eval vm_compute in b3_2.
Definition w_gap_append : Message := Eval vm_compute in default default_Message (head (Raft.msgs w_gap_leader)).
Definition w_gap_entries : list Entry := Eval vm_compute in m_entries (f_to 2 b5).
Definition w_gap_entry : Entry := Eval vm_compute in default default_Entry (head w_gap_entries).
Definition w_gap_progress : Progress.t := Progress.new 2 256.
Abbreviation w_gap_view := (@log_view _ (@MemStorage.storage w_proto) w_proto (@mem_storage_laws w_proto)).

Lemma w_gap_log_view : w_gap_view (Raft.raft_log w_gap_follower) =
  mkView 0 (Some 0) (Unstable.entries (RaftLog.unstable (Raft.raft_log w_gap_follower))).
Proof. done. Qed.

Lemma w_gap_log_wf : @log_wf _ (@MemStorage.storage w_proto) w_proto (@mem_storage_laws w_proto) (Raft.raft_log w_gap_follower).
Proof. split; [by change (MemStorage.wf (RaftLog.store (Raft.raft_log w_gap_follower))); split|split; done|done|done]. Qed.

Lemma batched_append_overacknowledged_witness :
  ∃ f' a, @Raft.handle_append_entries _ (@MemStorage.storage w_proto) w_gap_follower (batched 3 w_gap_append w_gap_entries) = Done f' ∧
    w_gap_view (Raft.raft_log f') = w_gap_view (Raft.raft_log w_gap_follower) ∧ m_reject a = false ∧ m_index a = 4.
Proof.
  destruct (@batched_append_overacknowledged _ (@MemStorage.storage w_proto) w_proto (@mem_storage_laws w_proto)
    w_gap_leader w_gap_follower 2 [] w_gap_append (tail (Raft.msgs w_gap_leader)) w_gap_progress w_gap_entries w_gap_entry
    (w_gap_progress <| Progress.paused := true |>)) as (_ & f' & a & E & _ & V & _ & _ & R & I & _);
    try reflexivity; try (by rewrite ?w_gap_log_view); try exact w_gap_log_wf; try done.
  - unfold has_all, w_gap_entries. constructor; [by rewrite w_gap_log_view|constructor].
  - exists f', a. split_and!; [done..|]. rewrite I, w_gap_log_view. reflexivity.
Defined.
